(* ===== verification/_CoqProject ===== *)
-Q . S2P
Prelude.v
Text.v
Net.v
NetParse.v
Common.v
RateLimit.v
Record.v
Redb.v
RedbInstances.v
PeerStore.v
StoreSpec.v
StoreOps.v
StoreScans.v
StoreQueries.v
StoreOpen.v
StoreExample.v
StoreClaims.v
Crawler.v
Runner.v
WorkerPool.v
Scheduler.v
ProbeInit.v
ServingCache.v
DnsHandler.v
Tasks.v
SchedulerLoop.v
Sockets.v
DnsServer.v
ProbeRace.v
ConnLife.v
Link.v
FakePeer.v
WebBase.v
SysInfo.v
Stats.v
Lifecycle.v
WebPeers.v
WebServer.v
WebDoc.v
WebSystem.v
WebClaims.v
Startup.v
System.v
StoreTests.v
SeederTests.v
