(* ===== verification/Prelude.v ===== *)
(** * A verification development for simply-kaspa-dnsseeder

    The program is a DNS seeder for the Kaspa network. A crawler probes peers over the P2P protocol and keeps what it learns in an
    embedded database; a DNS server answers A and AAAA queries for one zone with addresses of peers that recently
    answered; an HTTP API lists, submits and deletes peers and shows health and counters. The three run as tasks of one process over
    one peer store. The sources are under src/, one crate per directory.

    ** Method

    Every definition is a translation of source code: pure functions as functions, fallible code with an error or [outcome] type
    ([Ok], [Err], or [Panic] for an arithmetic overflow: the release build checks overflow and aborts), code on the store in the monad
    [DB] of Redb.v, concurrent code as a step relation. Integers are [Z] with the width's checks or wrap-around written out; strings
    are lists of Unicode scalar values; a [Duration] or [Instant] is a number of nanoseconds. Clock readings, random bytes, the outcome of a DNS lookup
    or of a probe and the failure of a storage call are inputs, so the theorems hold for all of them. Dependencies are classes whose laws state their
    documented behaviour: [RedbApi], [RedbFile] and [Bincode] (the database and its rows), [Semver], [KaspaNet] and [KaspaNetwork] (address
    classes and network parameters), [P2pLib] (messages of the handshake), [DnsName], [HttpLib], [Chrono], [WebLibs] (JSON,
    durations and sizes as text), [CorsLib], [TokioTime] (intervals), [NetworkText]. RedbInstances.v and the witnesses instantiate them, so no assumption is vacuous.

    ** Files

    - Prelude.v: notations, tactics, lists, counting, machine integers. Text.v: strings, trimming, decimal and hexadecimal text, UTF-8.
      Net.v, NetParse.v: IP and socket addresses, parsing and printing as [std::net] does.
    - Common.v, RateLimit.v (src/common): time, API keys, the per-IP token bucket.
    - Record.v, Redb.v, PeerStore.v (src/store): peer records and filters; tables, transactions and faults; every
      method of [PeerStore]. StoreSpec.v has the specification, a finite map from addresses to records, and the relation [repr]
      of a disk with it; StoreOps.v, StoreScans.v, StoreQueries.v and StoreOpen.v show that the methods refine it, StoreClaims.v states the contract;
      RedbInstances.v and StoreExample.v are concrete databases.
    - Crawler.v, Runner.v, WorkerPool.v, Scheduler.v, SchedulerLoop.v, ProbeInit.v, ProbeRace.v, ConnLife.v, Link.v, FakePeer.v (src/crawler): which addresses are acceptable and what a
      version message becomes; what an outcome does to the store; the bounded pool of workers; bootstrap, probe tick and prune; the run of the
      scheduler from its bootstrap to its return; the handshake of a probe; several probes sharing the map of pending senders; the life of a probe's connection, with its watchdog and
      close task; the handshake with a peer that reacts to what it is sent; the peer of the crate's tests.
    - ServingCache.v, DnsHandler.v, DnsServer.v (src/dns): the snapshot DNS answers from, the handling of a request, the
      server from the binding of its listeners to its end. Sockets.v has the socket calls this server and the web server make.
    - WebBase.v, WebPeers.v, WebSystem.v, WebClaims.v, SysInfo.v, WebDoc.v, WebServer.v (src/web): counters, list cache, key check and routes; all
      handlers and the middleware; requests interleaved; the contract of the endpoints; the process and disk figures; the OpenAPI
      document, CORS and the caching header; the TLS files, listeners and join of the HTTP servers.
    - Stats.v, Startup.v, Lifecycle.v (src/dnsseeder, src/cli): the stats dump and the metrics bridge; the network gate, the command line's checks,
      the API key and [run] up to where the subsystems run; signals, the shutdown channel, the joins and how the process ends.
    - Tasks.v: what every task on the store keeps, as one notion that composes. System.v: the process, all subsystems interleaved over one store from the state [run] starts them in.
    - StoreTests.v, SeederTests.v: the crates' own unit tests, run on the definitions.

    ** What the theorems show

    - Store: every history of calls, under any storage faults, acts as on the finite map, a failed call changes nothing, the attempt index is in step
      ([store_refines_map]); the due query returns the longest-unattempted eligible peers ([due_for_probe_picks_oldest]); pruning, batches
      and the summary are exact; opening recovers every readable row ([open_recovers]).
    - Crawler: no address is probed twice at once by the pool, no reservation is lost and every run of the pool's own tasks ends with it drained
      ([pool_safe], [try_enqueue_exact], [pool_drains]); a shutdown message always ends the scheduler ([scheduler_stops]); a tick dispatches due, acceptable, distinct peers and bumps exactly their attempts ([probe_tick]); an outcome is
      stored and counted as documented; the handshake keeps its order, its bounds and its deadline, which the watchdog outlives
      ([handshake_order], [reported_addresses], [watchdog_outlives_handshake]), and what is shown of it for any arrivals holds with any reacting
      peer ([link_refines_environment]), the test peer among them, whose probes succeed or fail as its behaviour says ([fake_peer_probed]); every connection is closed in the end and announced before that,
      unless somebody else closes it ([connection_released], [hub_in_order]); probes of distinct addresses do not
      disturb each other, overlapping ones of one address do ([probes_isolated], [overlapping_probes_cross]).
    - Limiter: at most twice the capacity in any window, and the sweep cannot be observed ([granted_per_window], [sweep_is_invisible]).
    - DNS: answers hold only addresses of recently reached, valid peers of the store, the freshest of them, within the configured
      number ([snapshot_serves_freshest], [dns_answers_are_good_peers]); the rate limit bounds the responses; requests are counted;
      the listeners that come up, and the end of the server ([dns_server_outcome]).
    - HTTP: without the key no address is shown and nothing is changed, whatever is cached or interleaved ([web_needs_key]); what each endpoint
      answers and stores, on every branch; the counters add up; the OpenAPI document agrees with the routes, the key check and every answer
      ([web_documented]); what the server returns and what it listens on ([web_server_outcome]); the disk figures are those of the
      innermost mount that holds the database ([collect_disk_innermost]).
    - Start-up: the subsystems agree on port, port policy and freshness, a network that cannot be bootstrapped is refused, the
      generated key persists ([startup_coherent], [api_key_persists]).
    - Shutdown: once every task is subscribed, one signal ends the process with its tasks ended ([shutdown_terminates]); before that it can be
      lost ([early_signal_lost]).
    - Together: the seeder stores, probes and serves acceptable addresses only ([seeder_safe]); no store content makes it abort ([seeder_never_aborts]); every value
      stored or handed out is within its type ([seeder_well_typed]); a peer that answers a probe is in the next answers ([probed_peer_is_answered]).

    ** Bounds

    Recursion is structural except for number rendering, whose fuel is one more than the number's binary logarithm, so it cannot
    run out (Text.v, [to_string_radix_value]). [i64] ages do not overflow when timestamps are non-negative, which holds of every record the program
    writes; theorems that need it say so ([times_ok], [peers_ok]). [cfg_wf] asks that four times the stale-good window fits an [i64]; the code multiplies it and would
    abort otherwise; it also asks that the default port is a [u16]. That inputs are within their types is a premise where it matters
    ([socket_wf], [result_typed]). Termination is shown by measures ([work], [left_to_do], [life_left], [conn_left]) that every step decreases. Counters are 64-bit and wrap.
    Memory is unbounded: a failing allocation, or a capacity derived from the command line that is too large to allocate, is not modelled.

    ** Not modelled

    Logging (no result the program uses); clap's parsing of the command line; axum's routing and extraction
    and tower-http's layers, of which WebDoc.v has the configuration; the serve loops of axum and hickory and the DNS wire format; TLS itself;
    the P2P library's router, adaptor and hub, whose messages, delays and failures are an input of ProbeInit.v and whose closing of a router is a
    step of ConnLife.v; timers: a
    tick is a step that may come at any time, and in SchedulerLoop.v that [select!] does not pass over a ready branch for ever is a hypothesis of
    the claim. In Lifecycle.v a task that has its message may end at any time; that the scheduler does is SchedulerLoop.v's.
    src/web/src/router.rs and
    src/web/src/handlers/peers.rs are not part of any module tree and not compiled. In System.v a worker may probe any address
    dispatched so far; that the pool keeps them apart is WorkerPool.v's. *)

From stdpp Require Export base tactics numbers list sorting gmap strings.

#[global] Open Scope Z_scope.

Declare Scope seeder_scope.
Delimit Scope seeder_scope with seeder.
#[global] Open Scope seeder_scope.

(** ** Machine integers

    The program is built for 64-bit targets with [overflow-checks = true] and
    [panic = "abort"] (src/Cargo.toml, [profile.release]), so a plain [+ - *] that leaves its
    type's range aborts the process. An integer is a [Z] kept in its type's
    range; the checked operations return [None] where the program panics, the
    saturating ones clamp, and the atomic counters wrap. *)

Definition I64_MIN : Z := - 2 ^ 63.
Definition I64_MAX : Z := 2 ^ 63 - 1.
Definition U64_MAX : Z := 2 ^ 64 - 1.
Definition USIZE_MAX : Z := U64_MAX.
Definition U128_MAX : Z := 2 ^ 128 - 1.
Definition U32_MAX : Z := 2 ^ 32 - 1.

Definition in_i64 (z : Z) : Prop := I64_MIN ≤ z ≤ I64_MAX.
Definition in_u64 (z : Z) : Prop := 0 ≤ z ≤ U64_MAX.

#[global] Instance in_i64_dec z : Decision (in_i64 z).
Proof. unfold in_i64. apply _. Defined.
#[global] Instance in_u64_dec z : Decision (in_u64 z).
Proof. unfold in_u64. apply _. Defined.

(** [i64::saturating_sub]. *)
Definition i64_saturating_sub (a b : Z) : Z := Z.max I64_MIN (Z.min I64_MAX (a - b)).

(** [a - b], [a * b] and [a + b] on [i64] with overflow checks: [None] is the panic. *)
Definition i64_checked (z : Z) : option Z := if decide (in_i64 z) then Some z else None.
Definition i64_sub (a b : Z) : option Z := i64_checked (a - b).
Definition i64_mul (a b : Z) : option Z := i64_checked (a * b).

(** [usize::saturating_mul] and [u64::saturating_sub]. *)
Definition usize_saturating_mul (a b : Z) : Z := Z.min USIZE_MAX (a * b).
Definition u64_saturating_sub (a b : Z) : Z := Z.max 0 (a - b).

(** [AtomicU64::fetch_add] and [fetch_sub] wrap around. *)
Definition u64_wrap (z : Z) : Z := z mod 2 ^ 64.
Definition u64_fetch_add (a n : Z) : Z := u64_wrap (a + n).
Definition u64_fetch_sub (a n : Z) : Z := u64_wrap (a - n).

(** [uN::try_from(z).unwrap_or(MAX)] for a non-negative [z]. *)
Definition try_from_or (max z : Z) : Z := if decide (z ≤ max) then z else max.

(** ** Outcomes of fallible code

    [Ok] and [Err] are Rust's [Result]; [Panic] is the aborted process. *)
Inductive outcome (E A : Type) : Type :=
  | Ok (a : A)
  | Err (e : E)
  | Panic.
Arguments Ok {E A} a.
Arguments Err {E A} e.
Arguments Panic {E A}.

#[global] Instance outcome_ret E : MRet (outcome E) := λ A a, Ok a.
#[global] Instance outcome_bind E : MBind (outcome E) := λ A B f o,
  match o with Ok a => f a | Err e => Err e | Panic => Panic end.
#[global] Instance outcome_fmap E : FMap (outcome E) := λ A B f o,
  match o with Ok a => Ok (f a) | Err e => Err e | Panic => Panic end.

(** A checked arithmetic step inside fallible code: overflow is a panic. *)
Definition or_panic {E A} (o : option A) : outcome E A :=
  match o with Some a => Ok a | None => Panic end.

#[global] Instance outcome_eq_dec E A `{EqDecision E, EqDecision A} : EqDecision (outcome E A).
Proof. solve_decision. Defined.

(** ** Stable sorting, [slice::sort_by_key]

    A stable sort by a key has one result, so any stable algorithm gives the
    function; insertion sort is the simplest one. *)
Section sort_by_key.
Context {A : Type} (key : A → Z).

Fixpoint insert_by_key (x : A) (l : list A) : list A :=
  match l with
  | [] => [x]
  | y :: l' => if decide (key x ≤ key y) then x :: l else y :: insert_by_key x l'
  end.

Fixpoint sort_by_key (l : list A) : list A :=
  match l with
  | [] => []
  | x :: l' => insert_by_key x (sort_by_key l')
  end.

Definition key_le (x y : A) : Prop := key x ≤ key y.
End sort_by_key.

Section sort_by_key_lemmas.
Context {A : Type} (key : A → Z).

#[global] Instance key_le_trans : Transitive (key_le key).
Proof. unfold key_le. intros x y z. lia. Qed.
#[global] Instance key_le_total : Total (key_le key).
Proof. unfold key_le. intros x y. lia. Qed.
#[global] Instance key_le_dec : RelDecision (key_le key).
Proof. unfold key_le. solve_decision. Defined.

Lemma insert_by_key_perm x l : insert_by_key key x l ≡ₚ x :: l.
Proof.
  induction l as [|y l IH]; simpl; [done|].
  case_decide; [done|]. rewrite IH. apply Permutation_swap.
Qed.

Lemma sort_by_key_perm l : sort_by_key key l ≡ₚ l.
Proof. induction l as [|x l IH]; simpl; [done|]. by rewrite insert_by_key_perm, IH. Qed.

Lemma insert_by_key_sorted x l :
  StronglySorted (key_le key) l → StronglySorted (key_le key) (insert_by_key key x l).
Proof.
  induction 1 as [|y l Hl IH Hy]; simpl; [by repeat constructor|].
  case_decide as Hxy.
  - constructor; [by constructor|]. constructor; [done|].
    eapply Forall_impl; [done|]. intros z. unfold key_le in *. lia.
  - constructor; [done|]. rewrite insert_by_key_perm. constructor; [|done].
    unfold key_le. lia.
Qed.

Lemma sort_by_key_sorted l : StronglySorted (key_le key) (sort_by_key key l).
Proof. induction l as [|x l IH]; simpl; [constructor|]. by apply insert_by_key_sorted. Qed.

Lemma sort_by_key_length l : length (sort_by_key key l) = length l.
Proof. apply Permutation_length, sort_by_key_perm. Qed.
End sort_by_key_lemmas.

(** ** Generic list lemmas *)

Lemma NoDup_all_eq {A} (a : A) (l : list A) : NoDup l → (∀ x, x ∈ l → x = a) → (length l ≤ 1)%nat.
Proof.
  intros Hnd Hall. destruct l as [|x [|y l]]; cbn; [lia..|]. apply NoDup_cons in Hnd as [Hx _]. destruct Hx.
  rewrite (Hall x), (Hall y) by set_solver. set_solver.
Qed.

Lemma NoDup_submseteq {A} (l k : list A) : l ⊆+ k → NoDup k → NoDup l.
Proof. intros [k' ->]%submseteq_Permutation (? & _)%NoDup_app. done. Qed.

Lemma take_snoc_app {A} (l : list A) (x : A) (k : list A) :
  take (length (l ++ [x])) (l ++ x :: k) = l ++ [x].
Proof. induction l as [|y l IH]; simpl; [done|by rewrite IH]. Qed.

Lemma StronglySorted_take {A} (R : relation A) n l :
  StronglySorted R l → StronglySorted R (take n l).
Proof.
  intros Hl. revert n. induction Hl as [|x l Hl IH Hx]; intros [|n]; simpl; try constructor; auto.
  by apply Forall_take.
Qed.

(** The elements cut off by a truncation come after every element that is kept. *)
Lemma StronglySorted_take_drop {A} (R : relation A) n l x y :
  StronglySorted R l → x ∈ take n l → y ∈ drop n l → R x y.
Proof.
  intros Hl. revert n. induction Hl as [|z l Hl IH Hz]; intros [|n]; simpl.
  1-3: by (rewrite ?elem_of_nil; set_solver).
  intros [->|Hx]%elem_of_cons Hy; [|by eauto].
  rewrite Forall_forall in Hz. apply Hz.
  rewrite <-(take_drop n l). apply elem_of_app. by right.
Qed.

(** The first [k] of a sorted list: the elements with [P] that come first in the order. *)
Definition top_k {A} (R : A → A → Prop) (k : Z) (P : A → Prop) (l : list A) : Prop :=
  NoDup l ∧ StronglySorted R l ∧ Z.of_nat (length l) ≤ k ∧ (∀ x, x ∈ l → P x) ∧
  (∀ x, P x → x ∈ l ∨ (Z.of_nat (length l) = k ∧ ∀ y, y ∈ l → R y x)).

Lemma top_k_take {A} (R : A → A → Prop) (k : Z) (P : A → Prop) (s l : list A) :
  0 ≤ k → s ≡ₚ l → StronglySorted R s → NoDup l → (∀ x, x ∈ l ↔ P x) → top_k R k P (take (Z.to_nat k) s).
Proof.
  intros Hk Hs Hsort Hnd Hin. split; [eapply sublist_NoDup; [|apply sublist_take]; by rewrite Hs|].
  split; [by apply StronglySorted_take|]. split; [rewrite length_take; lia|]. split.
  - intros x Hx. apply Hin. rewrite <-Hs. eapply elem_of_sublist; [exact Hx|apply sublist_take].
  - intros x Hx%Hin. rewrite <-Hs, <-(take_drop (Z.to_nat k) s), elem_of_app in Hx.
    destruct Hx as [|Hx]; [by left|right]. split.
    + rewrite length_take. assert (Z.to_nat k < length s)%nat; [|lia].
      apply Nat.nle_gt. intros Hge. rewrite drop_ge in Hx by done. by apply not_elem_of_nil in Hx.
    + intros y Hy. by eapply StronglySorted_take_drop.
Qed.

Lemma StronglySorted_filter {A} (R : relation A) (P : A → Prop) `{∀ x, Decision (P x)} l :
  StronglySorted R l → StronglySorted R (filter P l).
Proof.
  induction 1 as [|x l Hl IH Hx]; [constructor|]. rewrite filter_cons. case_decide; [|done].
  constructor; [done|]. rewrite Forall_forall in Hx |- *. intros y [_ Hy]%list_elem_of_filter. by apply Hx.
Qed.

(** A loop that skips some elements is the loop over the ones it keeps. *)
Lemma foldl_omap {A B C} (h : C → A → C) (f : A → option B) (g : C → B → C) l acc :
  (∀ acc x, h acc x = match f x with Some y => g acc y | None => acc end) →
  foldl h acc l = foldl g acc (omap f l).
Proof.
  intros Hh. revert acc. induction l as [|x l IH]; intros acc; cbn; [done|]. rewrite IH, Hh. by destruct (f x).
Qed.

Lemma foldl_snoc {A} (l acc : list A) : foldl (λ acc x, acc ++ [x]) acc l = acc ++ l.
Proof.
  revert acc. induction l as [|x l IH]; intros acc; cbn; [by rewrite app_nil_r|].
  rewrite IH. by rewrite <-app_assoc.
Qed.

(** How many elements satisfy a predicate. *)
Definition count {A} (P : A → Prop) `{∀ x, Decision (P x)} (l : list A) : Z := Z.of_nat (length (filter P l)).

Lemma count_cons {A} (P : A → Prop) `{∀ x, Decision (P x)} x l :
  count P (x :: l) = (if decide (P x) then 1 else 0) + count P l.
Proof. unfold count. rewrite filter_cons. case_decide; cbn [length]; lia. Qed.

Lemma count_nonneg {A} (P : A → Prop) `{∀ x, Decision (P x)} l : 0 ≤ count P l.
Proof. unfold count. lia. Qed.

Lemma count_perm {A} (P : A → Prop) `{∀ x, Decision (P x)} l l' : l ≡ₚ l' → count P l = count P l'.
Proof. intros Hl. unfold count. by rewrite Hl. Qed.

Lemma count_app {A} (P : A → Prop) `{∀ x, Decision (P x)} l l' : count P (l ++ l') = count P l + count P l'.
Proof. unfold count. rewrite filter_app, length_app. lia. Qed.

Lemma count_ext {A} (P Q : A → Prop) `{∀ x, Decision (P x)} `{∀ x, Decision (Q x)} l :
  (∀ x, P x ↔ Q x) → count P l = count Q l.
Proof. intros HPQ. unfold count. by rewrite (list_filter_iff P Q) by done. Qed.

Lemma count_pos {A} (P : A → Prop) `{∀ x, Decision (P x)} l : 0 < count P l ↔ ∃ x, x ∈ l ∧ P x.
Proof.
  induction l as [|y l IH]; [split; [done|set_solver]|].
  rewrite count_cons. pose proof (count_nonneg P l). case_decide.
  - split; [|lia]. intros _. exists y. split; [by left|done].
  - rewrite Z.add_0_l, IH. set_solver.
Qed.

(** Groups with increasing keys, concatenated. *)
Section groups.
Context {A B} (key : B → Z) (f : Z * A → list B).

Lemma groups_sorted (es : list (Z * A)) :
  StronglySorted (λ p q, p.1 < q.1) es → (∀ p x, p ∈ es → x ∈ f p → key x = p.1) →
  StronglySorted (key_le key) (es ≫= f).
Proof.
  induction 1 as [|p es Hes IH Hp]; [constructor|]. intros Hk. rewrite bind_cons.
  apply StronglySorted_app_2; [|clear Hp Hes IH|by apply IH; intros; apply Hk; [by right|done]].
  - intros x y Hx (q & Hy & Hq)%list_elem_of_bind. unfold key_le.
    rewrite (Hk p x), (Hk q y) by (done || by (left || right)).
    rewrite Forall_forall in Hp. specialize (Hp q Hq). lia.
  - assert (Hall : ∀ x, x ∈ f p → key x = p.1) by (intros; apply Hk; [by left|done]).
    clear Hk. induction (f p) as [|x l IHl]; [constructor|]. constructor.
    + apply IHl. intros. apply Hall. by right.
    + apply Forall_forall. intros y Hy. unfold key_le.
      rewrite (Hall x), (Hall y) by (by left || by right). done.
Qed.

Lemma groups_NoDup (es : list (Z * A)) :
  StronglySorted (λ p q, p.1 < q.1) es → (∀ p x, p ∈ es → x ∈ f p → key x = p.1) →
  (∀ p, p ∈ es → NoDup (f p)) → NoDup (es ≫= f).
Proof.
  induction 1 as [|p es Hes IH Hp]; [constructor|]. intros Hk Hnd. rewrite bind_cons.
  apply NoDup_app. split; [apply Hnd; by left|]. split.
  - intros x Hx (q & Hx' & Hq)%list_elem_of_bind. rewrite Forall_forall in Hp. specialize (Hp q Hq).
    pose proof (Hk p x ltac:(by left) Hx). pose proof (Hk q x ltac:(by right) Hx'). lia.
  - apply IH; intros; [apply Hk|apply Hnd]; try done; by right.
Qed.
End groups.

(** ** Automation *)

Create HintDb seeder discriminated.
Create Rewrite HintDb seeder.

#[export] Hint Resolve sort_by_key_perm sort_by_key_sorted sort_by_key_length : seeder.
#[export] Hint Unfold I64_MIN I64_MAX U64_MAX in_i64 in_u64 : seeder.

(** Unfold the machine-integer definitions and decide the resulting linear goal. *)
Ltac int_solve :=
  unfold in_i64, in_u64, i64_saturating_sub, u64_saturating_sub, usize_saturating_mul,
    USIZE_MAX, I64_MIN, I64_MAX, U64_MAX, U32_MAX, U128_MAX in *; lia.

(** [lia] with [/] and [mod] replaced by their Euclidean equations. *)
Ltac div_lia := Z.to_euclidean_division_equations; lia.

(** Case split on every [if] and [match] of the goal, then simplify equations. *)
Ltac case_all :=
  repeat first [progress simplify_eq/= | case_decide | case_match].

Lemma i64_checked_Some z z' : i64_checked z = Some z' ↔ z' = z ∧ in_i64 z.
Proof. unfold i64_checked. case_decide; naive_solver. Qed.

Lemma i64_checked_in z : in_i64 z → i64_checked z = Some z.
Proof. intros. by apply i64_checked_Some. Qed.

Lemma i64_checked_out z : ¬ in_i64 z → i64_checked z = None.
Proof. intros. unfold i64_checked. by case_decide. Qed.
