(* ===== verification/Text.v ===== *)
(** * Rust strings

    A [String]/[&str] is the list of its Unicode scalar values. The file holds
    what the sources use of [str]: whitespace trimming, prefix stripping,
    splitting, decimal and hexadecimal rendering, and the UTF-8 view that
    [as_bytes] and [String::from_utf8] give. *)

From Stdlib Require Import Ascii String.
From S2P Require Import Prelude.
#[local] Open Scope Z_scope.

Abbreviation rchar := Z (only parsing).
Abbreviation rstr := (list Z) (only parsing).
Abbreviation bytes := (list Z) (only parsing).

(** A literal of the source: ASCII text only. *)
Definition str (s : String.string) : rstr :=
  (λ c, Z.of_nat (nat_of_ascii c)) <$> String.list_ascii_of_string s.

(** [char::is_whitespace]: the Unicode [White_Space] property. *)
Definition is_whitespace (c : rchar) : bool :=
  bool_decide (9 ≤ c ≤ 13 ∨ c = 32 ∨ c = 133 ∨ c = 160 ∨ c = 5760 ∨ 8192 ≤ c ≤ 8202
               ∨ c = 8232 ∨ c = 8233 ∨ c = 8239 ∨ c = 8287 ∨ c = 12288).

Fixpoint trim_start_matches (p : rchar → bool) (s : rstr) : rstr :=
  match s with
  | [] => []
  | c :: s' => if p c then trim_start_matches p s' else s
  end.

Definition trim_end_matches (p : rchar → bool) (s : rstr) : rstr :=
  reverse (trim_start_matches p (reverse s)).

(** [str::trim]. *)
Definition trim (s : rstr) : rstr := trim_end_matches is_whitespace (trim_start_matches is_whitespace s).

(** [str::strip_prefix]. *)
Fixpoint strip_prefix (p s : rstr) : option rstr :=
  match p, s with
  | [], _ => Some s
  | c :: p', d :: s' => if decide (c = d) then strip_prefix p' s' else None
  | _ :: _, [] => None
  end.

(** [str::split_once] on one character: the text before and after its first occurrence. *)
Fixpoint split_once (sep : rchar) (s : rstr) : option (rstr * rstr) :=
  match s with
  | [] => None
  | c :: s' =>
      if decide (c = sep) then Some ([], s')
      else (λ '(a, b), (c :: a, b)) <$> split_once sep s'
  end.

(** [s.split(sep).next()]: the first piece, which always exists. *)
Definition split_first (sep : rchar) (s : rstr) : rstr :=
  match split_once sep s with Some (a, _) => a | None => s end.

(** ** Digits *)

(** [char::to_digit]. *)
Definition to_digit (radix : Z) (c : rchar) : option Z :=
  let d :=
    if decide (48 ≤ c ≤ 57) then Some (c - 48)
    else if decide (97 ≤ c ≤ 122) then Some (c - 97 + 10)
    else if decide (65 ≤ c ≤ 90) then Some (c - 65 + 10)
    else None in
  match d with Some v => if decide (v < radix) then Some v else None | None => None end.

(** [str::parse] to an unsigned integer of at most [maxv]: an optional plus sign and at least one digit. *)
Fixpoint parse_digits (maxv acc : Z) (s : rstr) : option Z :=
  match s with
  | [] => Some acc
  | c :: s' => d ← to_digit 10 c; if decide (acc * 10 + d ≤ maxv) then parse_digits maxv (acc * 10 + d) s' else None
  end.
Definition parse_uint (maxv : Z) (s : rstr) : option Z :=
  match match s with 43 :: s' => s' | _ => s end with
  | [] => None
  | digits => parse_digits maxv 0 digits
  end.

(** [str::split] on a character. *)
Fixpoint str_split (sep : rchar) (s : rstr) : list rstr :=
  match s with
  | [] => [[]]
  | c :: s' =>
      if decide (c = sep) then [] :: str_split sep s'
      else match str_split sep s' with [] => [[c]] | seg :: segs => (c :: seg) :: segs end
  end.

(** The lower-case digit character of a value below 36. *)
Definition digit_char (v : Z) : rchar := if decide (v < 10) then 48 + v else 97 + (v - 10).

(** Positional rendering, most significant digit first; [fuel] bounds the number of digits. *)
Fixpoint render_radix (fuel : nat) (radix n : Z) (acc : rstr) : rstr :=
  match fuel with
  | O => acc
  | S fuel' =>
      let acc' := digit_char (n mod radix) :: acc in
      if decide (n / radix = 0) then acc' else render_radix fuel' radix (n / radix) acc'
  end.

(** [n.to_string()] of an unsigned integer: [Z.log2 n + 1] digits are enough in any radix. *)
Definition to_string_radix (radix n : Z) : rstr := render_radix (S (Z.to_nat (Z.log2 n))) radix n [].
Definition u_to_string (n : Z) : rstr := to_string_radix 10 n.

(** [hex::encode]: two lower-case digits per byte. *)
Definition hex_encode (bs : bytes) : rstr :=
  bs ≫= λ b, [digit_char (b / 16); digit_char (b mod 16)].

(** ** UTF-8 *)

Definition utf8_char (c : rchar) : bytes :=
  if decide (c < 128) then [c]
  else if decide (c < 2048) then [192 + c / 64; 128 + c mod 64]
  else if decide (c < 65536) then [224 + c / 4096; 128 + (c / 64) mod 64; 128 + c mod 64]
  else [240 + c / 262144; 128 + (c / 4096) mod 64; 128 + (c / 64) mod 64; 128 + c mod 64].

(** [str::as_bytes]. *)
Definition as_bytes (s : rstr) : bytes := s ≫= utf8_char.

Definition is_cont (b : Z) : bool := bool_decide (128 ≤ b < 192).

(** A Unicode scalar value. *)
Definition is_scalar (c : Z) : bool := bool_decide (0 ≤ c < 55296 ∨ 57344 ≤ c < 1114112).

(** [String::from_utf8]: [None] on an invalid, overlong or surrogate sequence. *)
Fixpoint from_utf8 (bs : bytes) : option rstr :=
  match bs with
  | [] => Some []
  | b0 :: r0 =>
      if bool_decide (0 ≤ b0 < 128) then cons b0 <$> from_utf8 r0
      else
        match r0 with
        | b1 :: r1 =>
            if bool_decide (194 ≤ b0 < 224) && is_cont b1
            then cons ((b0 - 192) * 64 + (b1 - 128)) <$> from_utf8 r1
            else
              match r1 with
              | b2 :: r2 =>
                  let c3 := (b0 - 224) * 4096 + (b1 - 128) * 64 + (b2 - 128) in
                  if bool_decide (224 ≤ b0 < 240) && is_cont b1 && is_cont b2 && bool_decide (2048 ≤ c3)
                     && is_scalar c3
                  then cons c3 <$> from_utf8 r2
                  else
                    match r2 with
                    | b3 :: r3 =>
                        let c4 := (b0 - 240) * 262144 + (b1 - 128) * 4096 + (b2 - 128) * 64 + (b3 - 128) in
                        if bool_decide (240 ≤ b0 < 245) && is_cont b1 && is_cont b2 && is_cont b3
                           && bool_decide (65536 ≤ c4) && is_scalar c4
                        then cons c4 <$> from_utf8 r3
                        else None
                    | [] => None
                    end
              | [] => None
              end
        | [] => None
        end
  end.

Definition wf_str (s : rstr) : Prop := Forall (λ c, is_scalar c = true) s.

(** ** Lemmas *)

Lemma is_scalar_spec c : is_scalar c = true ↔ (0 ≤ c < 55296 ∨ 57344 ≤ c < 1114112).
Proof. unfold is_scalar. by rewrite bool_decide_eq_true. Qed.

(** Decoding undoes encoding, one scalar value at a time. *)
Lemma from_utf8_char c s :
  is_scalar c = true → from_utf8 (utf8_char c ++ s) = cons c <$> from_utf8 s.
Proof.
  intros Hc%is_scalar_spec. unfold utf8_char.
  repeat case_decide; cbn [app from_utf8].
  - rewrite bool_decide_eq_true_2 by lia. done.
  - rewrite bool_decide_eq_false_2 by div_lia.
    unfold is_cont. rewrite !bool_decide_eq_true_2 by div_lia. cbn [andb]. f_equal. f_equal. div_lia.
  - rewrite bool_decide_eq_false_2 by div_lia.
    rewrite (bool_decide_eq_false_2 (194 ≤ _ < 224)) by div_lia. cbn [andb].
    unfold is_cont. rewrite !bool_decide_eq_true_2 by div_lia. cbn [andb].
    replace (is_scalar _) with true; [f_equal; f_equal; div_lia|].
    symmetry. apply is_scalar_spec. div_lia.
  - rewrite bool_decide_eq_false_2 by div_lia.
    rewrite (bool_decide_eq_false_2 (194 ≤ _ < 224)) by div_lia. cbn [andb].
    rewrite (bool_decide_eq_false_2 (224 ≤ _ < 240)) by div_lia. cbn [andb].
    unfold is_cont. rewrite !bool_decide_eq_true_2 by div_lia. cbn [andb].
    replace (is_scalar _) with true; [f_equal; f_equal; div_lia|].
    symmetry. apply is_scalar_spec. div_lia.
Qed.

Lemma from_utf8_as_bytes s : wf_str s → from_utf8 (as_bytes s) = Some s.
Proof.
  induction 1 as [|c s Hc Hs IH]; [done|].
  unfold as_bytes in *. rewrite bind_cons, from_utf8_char by done. by rewrite IH.
Qed.

Lemma strip_prefix_Some p s r : strip_prefix p s = Some r ↔ s = p ++ r.
Proof.
  revert s. induction p as [|c p IH]; intros [|d s]; simpl; [naive_solver..|].
  case_decide; [|naive_solver]. rewrite IH. naive_solver.
Qed.

Lemma split_once_Some sep s a b :
  split_once sep s = Some (a, b) ↔ s = a ++ sep :: b ∧ sep ∉ a.
Proof.
  revert a b. induction s as [|c s IH]; intros a b; simpl.
  { split; [done|]. by intros [[_ ?]%symmetry%app_nil ?]. }
  case_decide as Hc.
  - subst c. split; [intros [= <- <-]; split; [done|apply not_elem_of_nil]|].
    intros [Heq Hn]. destruct a as [|x a]; simplify_eq/=; [done|set_solver].
  - split.
    + intros ([a' b'] & [-> Hn]%IH & Heq)%fmap_Some. simplify_eq/=. set_solver.
    + intros [Heq Hn]. destruct a as [|x a]; simplify_eq/=.
      rewrite (proj2 (IH a b)); [done|set_solver].
Qed.

Lemma digit_char_to_digit radix v :
  0 ≤ v < radix → radix ≤ 36 → to_digit radix (digit_char v) = Some v.
Proof.
  intros Hv Hr. unfold to_digit, digit_char.
  repeat (case_decide; try lia); f_equal; lia.
Qed.

(** ** Decimal and hexadecimal printing is positional notation *)

(** The value of a string of digits. *)
Definition radix_value (radix : Z) (v : Z) (s : rstr) : Z :=
  foldl (λ v c, v * radix + default 0 (to_digit radix c)) v s.

Lemma render_radix_value fuel radix n acc :
  2 ≤ radix ≤ 36 → 0 ≤ n < 2 ^ Z.of_nat fuel → (0 < fuel)%nat →
  radix_value radix 0 (render_radix fuel radix n acc) = radix_value radix n acc.
Proof.
  intros Hr. revert n acc. induction fuel as [|fuel IH]; intros n acc Hn Hf; [lia|]. cbn [render_radix].
  assert (0 ≤ n mod radix < radix) by (apply Z.mod_pos_bound; lia).
  assert (Hdm : n = radix * (n / radix) + n mod radix) by (apply Z.div_mod; lia).
  assert (Hstep : ∀ q, radix_value radix q (digit_char (n mod radix) :: acc) = radix_value radix (q * radix + n mod radix) acc).
  { intros q. unfold radix_value. cbn [foldl]. by rewrite digit_char_to_digit by lia. }
  case_decide as Hq.
  - rewrite Hstep. f_equal. lia.
  - rewrite IH.
    + rewrite Hstep. f_equal. lia.
    + split; [apply Z.div_pos; lia|]. rewrite Nat2Z.inj_succ, Z.pow_succ_r in Hn by lia.
      apply Z.div_lt_upper_bound; nia.
    + destruct fuel; [|lia]. change (2 ^ Z.of_nat 1) with 2 in Hn.
      exfalso. apply Hq. apply Z.div_small. lia.
Qed.

Lemma to_string_radix_value radix n :
  2 ≤ radix ≤ 36 → 0 ≤ n → radix_value radix 0 (to_string_radix radix n) = n.
Proof.
  intros Hr Hn. unfold to_string_radix. rewrite render_radix_value; [done|done| |lia].
  split; [done|]. destruct (decide (n = 0)) as [->|]; [done|].
  rewrite Nat2Z.inj_succ, Z2Nat.id by apply Z.log2_nonneg. apply Z.log2_spec. lia.
Qed.

Lemma render_radix_digits (P : rchar → Prop) fuel radix n acc :
  0 < radix → (∀ v, 0 ≤ v < radix → P (digit_char v)) → Forall P acc → Forall P (render_radix fuel radix n acc).
Proof.
  intros Hr HP. revert n acc. induction fuel as [|fuel IH]; intros n acc Hacc; cbn [render_radix]; [done|].
  assert (Forall P (digit_char (n mod radix) :: acc)) by (constructor; [apply HP, Z.mod_pos_bound; lia|done]).
  case_decide; auto.
Qed.

Lemma render_radix_nonempty fuel radix n acc : (0 < fuel)%nat → render_radix fuel radix n acc ≠ [].
Proof.
  revert n acc. induction fuel as [|fuel IH]; intros n acc Hf; [lia|]. cbn [render_radix]. case_decide; [done|].
  destruct fuel; [done|]. apply IH. lia.
Qed.
