(* ===== verification/Net.v ===== *)
(** * IP and socket addresses

    The parts of [std::net] the sources use, the store's [NetAddress]
    (src/store/src/record.rs), the address canonicalisation of
    src/common/src/time.rs, and the interface to the address type of the
    [kaspa-utils] dependency. *)

From S2P Require Import Prelude Text.

(** ** [std::net] *)

(** An address is its bits: 32 for IPv4, 128 for IPv6. *)
Inductive IpAddr : Type :=
  | V4 (bits : Z)
  | V6 (bits : Z).

#[global] Instance IpAddr_eq_dec : EqDecision IpAddr.
Proof. solve_decision. Defined.
#[global] Instance IpAddr_countable : Countable IpAddr.
Proof.
  refine (inj_countable' (λ ip, match ip with V4 b => inl b | V6 b => inr b end)
    (λ s, match s with inl b => V4 b | inr b => V6 b end) _).
  by intros [].
Defined.

Definition ip_wf (ip : IpAddr) : Prop :=
  match ip with V4 b => 0 ≤ b < 2 ^ 32 | V6 b => 0 ≤ b < 2 ^ 128 end.

Definition is_ipv4 (ip : IpAddr) : bool := match ip with V4 _ => true | V6 _ => false end.
Definition is_ipv6 (ip : IpAddr) : bool := match ip with V4 _ => false | V6 _ => true end.

(** The [i]-th octet of an IPv4 address and the [i]-th 16-bit segment of an IPv6 one. *)
Definition v4_octet (b i : Z) : Z := Z.land (Z.shiftr b (8 * (3 - i))) 255.
Definition v6_segment (b i : Z) : Z := Z.land (Z.shiftr b (16 * (7 - i))) 65535.

(** [Ipv6Addr::to_canonical]: an IPv4-mapped address [::ffff:a.b.c.d] becomes [a.b.c.d]. *)
Definition v6_to_canonical (b : Z) : IpAddr :=
  if decide (Z.shiftr b 32 = 65535) then V4 (Z.land b (Z.ones 32)) else V6 b.

#[global] Arguments v4_octet : simpl never.
#[global] Arguments v6_segment : simpl never.
#[global] Arguments v6_to_canonical : simpl never.

(** [IpAddr::is_multicast]: [224.0.0.0/4] and [ff00::/8]. *)
Definition is_multicast (ip : IpAddr) : bool :=
  match ip with
  | V4 b => bool_decide (224 ≤ v4_octet b 0 ≤ 239)
  | V6 b => bool_decide (Z.land (v6_segment b 0) 65280 = 65280)
  end.

(** [SocketAddr]: the IPv6 form carries a flow label and a scope id, which take part in equality. *)
Inductive SocketAddr : Type :=
  | SockV4 (bits port : Z)
  | SockV6 (bits port flowinfo scope_id : Z).

#[global] Instance SocketAddr_eq_dec : EqDecision SocketAddr.
Proof. solve_decision. Defined.
#[global] Instance SocketAddr_countable : Countable SocketAddr.
Proof.
  refine (inj_countable'
    (λ s, match s with SockV4 b p => inl (b, p) | SockV6 b p f i => inr (b, p, f, i) end)
    (λ s, match s with inl (b, p) => SockV4 b p | inr (b, p, f, i) => SockV6 b p f i end) _).
  by intros [].
Defined.

(** [SocketAddr::new], [ip] and [port]. *)
Definition socket_new (ip : IpAddr) (port : Z) : SocketAddr :=
  match ip with V4 b => SockV4 b port | V6 b => SockV6 b port 0 0 end.
Definition socket_ip (s : SocketAddr) : IpAddr :=
  match s with SockV4 b _ => V4 b | SockV6 b _ _ _ => V6 b end.
Definition socket_port (s : SocketAddr) : Z :=
  match s with SockV4 _ p => p | SockV6 _ p _ _ => p end.

(** ** The store's address *)

Record NetAddress : Type := mkNetAddress { ip : IpAddr; port : Z }.

#[global] Instance NetAddress_eq_dec : EqDecision NetAddress.
Proof. solve_decision. Defined.
#[global] Instance NetAddress_countable : Countable NetAddress.
Proof.
  refine (inj_countable' (λ a, (ip a, port a)) (λ p, mkNetAddress p.1 p.2) _). by intros [].
Defined.

(** ** Canonicalisation (src/common/src/time.rs) *)

Definition canonicalize_ip (a : IpAddr) : IpAddr :=
  match a with
  | V6 b => v6_to_canonical b
  | V4 _ => a
  end.

(** [net_from] (src/crawler/src/probe/runner.rs). *)
Definition net_from (addr : SocketAddr) : NetAddress :=
  mkNetAddress (canonicalize_ip (socket_ip addr)) (socket_port addr).

(** ** The [IpAddress] of [kaspa-utils]

    A dependency: its type, its conversions with [std::net::IpAddr] and its
    routability predicate are parameters of everything that uses them. *)
Class KaspaNet : Type := {
  IpAddress : Type;
  IpAddress_eq_dec :: EqDecision IpAddress;
  ip_address_from : IpAddr → IpAddress;
  ip_address_into : IpAddress → IpAddr;
  is_publicly_routable : IpAddress → bool;
}.

(** ** Lemmas *)

Lemma canonicalize_ip_wf a : ip_wf a → ip_wf (canonicalize_ip a).
Proof.
  destruct a as [b|b]; [done|]. intros Hb. unfold canonicalize_ip, v6_to_canonical.
  case_decide; [|done]. unfold ip_wf. rewrite Z.land_ones by lia. apply Z.mod_pos_bound. lia.
Qed.

Lemma canonicalize_ip_idemp a : canonicalize_ip (canonicalize_ip a) = canonicalize_ip a.
Proof.
  destruct a as [b|b]; [done|]. unfold canonicalize_ip, v6_to_canonical.
  case_decide as Hm; [done|]. by rewrite decide_False.
Qed.

(** After canonicalisation no IPv4-mapped IPv6 address is left. *)
Lemma canonicalize_ip_not_mapped a b : canonicalize_ip a = V6 b → Z.shiftr b 32 ≠ 65535.
Proof. destruct a as [c|c]; unfold canonicalize_ip, v6_to_canonical; [done|]. case_decide; by intros [= <-]. Qed.

(** The IPv6 form of an IPv4 address. *)
Definition to_ipv6_mapped (b : Z) : Z := Z.lor (Z.shiftl 65535 32) b.

Lemma canonicalize_mapped b : 0 ≤ b < 2 ^ 32 → canonicalize_ip (V6 (to_ipv6_mapped b)) = V4 b.
Proof.
  intros Hb. unfold to_ipv6_mapped, canonicalize_ip, v6_to_canonical.
  rewrite decide_True.
  - f_equal. rewrite Z.land_ones by lia. rewrite Z.lor_comm. apply Z.bits_inj'. intros n Hn.
    destruct (decide (n < 32)).
    + rewrite Z.mod_pow2_bits_low, Z.lor_spec, Z.shiftl_spec, (Z.testbit_neg_r _ (n - 32)) by lia.
      apply orb_false_r.
    + rewrite Z.mod_pow2_bits_high by lia. symmetry. destruct (decide (b = 0)) as [->|].
      { apply Z.testbit_0_l. }
      apply Z.bits_above_log2; [lia|]. apply Z.log2_lt_pow2; [lia|].
      assert (2 ^ 32 ≤ 2 ^ n) by (apply Z.pow_le_mono_r; lia). lia.
  - rewrite Z.shiftr_lor, Z.shiftr_shiftl_l by lia.
    rewrite (Z.shiftr_div_pow2 b), (Z.div_small b) by lia. apply Z.lor_0_r.
Qed.

Lemma socket_new_ip a p : socket_ip (socket_new a p) = a.
Proof. by destruct a. Qed.
Lemma socket_new_port a p : socket_port (socket_new a p) = p.
Proof. by destruct a. Qed.

Lemma socket_new_inj a p b q : socket_new a p = socket_new b q → a = b ∧ p = q.
Proof. destruct a, b; simpl; naive_solver. Qed.

Lemma net_from_new a p : net_from (socket_new a p) = mkNetAddress (canonicalize_ip a) p.
Proof. unfold net_from. by rewrite socket_new_ip, socket_new_port. Qed.

#[export] Hint Resolve canonicalize_ip_wf canonicalize_ip_idemp : seeder.
#[export] Hint Rewrite canonicalize_ip_idemp socket_new_ip socket_new_port net_from_new : seeder.
