(* ===== verification/NetParse.v ===== *)
(** * Parsing and printing of addresses

    [IpAddr::from_str], [SocketAddr::from_str] and the [Display] implementations of [std::net],
    which the command line, the crawler and the HTTP handlers use on operator and client
    input. *)

From S2P Require Import Prelude Text Net.

(** ** The parser

    Every reader either consumes a prefix of the input or fails and leaves it alone. *)
Definition parser (A : Type) : Type := rstr → option (A * rstr).

Definition read_given_char (c : rchar) : parser unit := λ s,
  match s with
  | d :: s' => if decide (d = c) then Some (tt, s') else None
  | [] => None
  end.

(** [read_separator]: the separator comes before every item but the first. *)
Definition read_separator {A} (sep : rchar) (index : nat) (inner : parser A) : parser A := λ s,
  match index with
  | O => inner s
  | S _ => match read_given_char sep s with Some (_, s') => inner s' | None => None end
  end.

(** The digit loop of [read_number]: at most [limit] digits, or as many as stay below [maxv]. *)
Fixpoint read_digits (radix : Z) (limit : option nat) (maxv : Z) (s : rstr) (acc : Z) (cnt : nat)
    : option (Z * nat * rstr) :=
  match s with
  | [] => Some (acc, cnt, [])
  | c :: s' =>
      match to_digit radix c with
      | None => Some (acc, cnt, s)
      | Some d =>
          let acc' := acc * radix + d in
          match limit with
          | Some k => if decide (k < S cnt)%nat then None else read_digits radix limit maxv s' acc' (S cnt)
          | None => if decide (maxv < acc') then None else read_digits radix limit maxv s' acc' (S cnt)
          end
      end
  end.

(** [read_number] for a type whose largest value is [maxv]. *)
Definition read_number (radix : Z) (limit : option nat) (allow_zero_prefix : bool) (maxv : Z) : parser Z := λ s,
  let has_leading_zero := bool_decide (head s = Some 48) in
  match read_digits radix limit maxv s 0 0 with
  | None => None
  | Some (v, cnt, s') =>
      if decide (cnt = 0%nat) then None
      else if negb allow_zero_prefix && has_leading_zero && bool_decide (1 < cnt)%nat then None
      else if decide (v ≤ maxv) then Some (v, s') else None
  end.

(** [read_ipv4_addr]: four decimal octets without leading zeros. *)
Definition read_octet (i : nat) : parser Z := read_separator 46 i (read_number 10 (Some 3%nat) false 255).
Definition read_ipv4_addr : parser Z := λ s,
  '(a, s) ← read_octet 0 s; '(b, s) ← read_octet 1 s;
  '(c, s) ← read_octet 2 s; '(d, s) ← read_octet 3 s;
  Some (((a * 256 + b) * 256 + c) * 256 + d, s).

(** [read_groups]: [n] groups may still be read, [i] have been; a trailing IPv4 address takes
    two. The flag says that it was there. *)
Fixpoint read_groups (n i : nat) (s : rstr) : list Z * bool * rstr :=
  match n with
  | O => ([], false, s)
  | S n' =>
      match (match n' with O => None | S _ => read_separator 58 i read_ipv4_addr s end) with
      | Some (v4, s') => ([v4 / 65536; v4 mod 65536], true, s')
      | None =>
          match read_separator 58 i (read_number 16 (Some 4%nat) true 65535) s with
          | Some (g, s') => let '(gs, f, r) := read_groups n' (S i) s' in (g :: gs, f, r)
          | None => ([], false, s)
          end
      end
  end.

(** The address of eight segments. *)
Definition v6_of_segments (gs : list Z) : Z := foldl (λ v g, v * 65536 + g) 0 gs.

(** [read_ipv6_addr]. *)
Definition read_ipv6_addr : parser Z := λ s,
  let '(head, head_ipv4, s) := read_groups 8 0 s in
  if decide (length head = 8%nat) then Some (v6_of_segments head, s)
  else if (head_ipv4 : bool) then None
  else
    '(_, s) ← read_given_char 58 s;
    '(_, s) ← read_given_char 58 s;
    let '(tail, _, s) := read_groups (8 - (length head + 1)) 0 s in
    Some (v6_of_segments (head ++ replicate (8 - length head - length tail) 0 ++ tail), s).

(** [read_port] and [read_scope_id]. *)
Definition read_port : parser Z := λ s,
  '(_, s) ← read_given_char 58 s; read_number 10 None true 65535 s.
Definition read_scope_id : parser Z := λ s,
  '(_, s) ← read_given_char 37 s; read_number 10 None true U32_MAX s.

(** [read_socket_addr_v4] and [read_socket_addr_v6]. *)
Definition read_socket_addr_v4 : parser SocketAddr := λ s,
  '(a, s) ← read_ipv4_addr s; '(p, s) ← read_port s; Some (SockV4 a p, s).
Definition read_socket_addr_v6 : parser SocketAddr := λ s,
  '(_, s) ← read_given_char 91 s;
  '(a, s) ← read_ipv6_addr s;
  let '(scope, s) := match read_scope_id s with Some (v, s') => (v, s') | None => (0, s) end in
  '(_, s) ← read_given_char 93 s;
  '(p, s) ← read_port s;
  Some (SockV6 a p 0 scope, s).

(** The first reader that succeeds. *)
Definition read_or {A} (p q : parser A) : parser A := λ s, match p s with Some r => Some r | None => q s end.
(** [parse_with]: the whole input must have been read. *)
Definition parse_with {A} (p : parser A) (s : rstr) : option A :=
  match p s with Some (a, []) => Some a | _ => None end.

(** [IpAddr::from_str] and [SocketAddr::from_str]. *)
Definition ip_from_str : rstr → option IpAddr :=
  parse_with (read_or (λ s, '(a, s) ← read_ipv4_addr s; Some (V4 a, s)) (λ s, '(a, s) ← read_ipv6_addr s; Some (V6 a, s))).
Definition socket_from_str : rstr → option SocketAddr :=
  parse_with (read_or read_socket_addr_v4 read_socket_addr_v6).

(** ** Printing *)

Definition v4_octets (b : Z) : list Z := [b / 16777216; b / 65536 mod 256; b / 256 mod 256; b mod 256].
Definition v6_segments (b : Z) : list Z := (λ i, v6_segment b (Z.of_nat i)) <$> seq 0 8.

(** Numbers in a radix with a separator between them ([fmt_subslice]). *)
Fixpoint fmt_separated (sep : rchar) (radix : Z) (l : list Z) : rstr :=
  match l with
  | [] => []
  | [n] => to_string_radix radix n
  | n :: l' => to_string_radix radix n ++ sep :: fmt_separated sep radix l'
  end.

(** [Ipv4Addr]'s [Display]. *)
Definition v4_to_string (b : Z) : rstr := fmt_separated 46 10 (v4_octets b).

(** The first longest run of zero segments: its start and its length. *)
Fixpoint longest_zeros (i : nat) (cur best : nat * nat) (gs : list Z) : nat * nat :=
  match gs with
  | [] => best
  | g :: gs' =>
      if decide (g = 0) then
        let cur := if decide (cur.2 = 0%nat) then (i, 1%nat) else (cur.1, S cur.2) in
        longest_zeros (S i) cur (if decide (best.2 < cur.2)%nat then cur else best) gs'
      else longest_zeros (S i) (0%nat, 0%nat) best gs'
  end.

(** [Ipv6Addr]'s [Display]. *)
Definition v6_to_string (b : Z) : rstr :=
  if decide (Z.shiftr b 32 = 65535) then str "::ffff:" ++ v4_to_string (Z.land b (Z.ones 32))
  else
    let gs := v6_segments b in
    let '(start, len) := longest_zeros 0 (0%nat, 0%nat) (0%nat, 0%nat) gs in
    if decide (1 < len)%nat then
      fmt_separated 58 16 (take start gs) ++ str "::" ++ fmt_separated 58 16 (drop (start + len) gs)
    else fmt_separated 58 16 gs.

Definition ip_to_string (a : IpAddr) : rstr :=
  match a with V4 b => v4_to_string b | V6 b => v6_to_string b end.

(** [SocketAddr]'s [Display]. *)
Definition socket_to_string (s : SocketAddr) : rstr :=
  match s with
  | SockV4 b p => v4_to_string b ++ 58 :: u_to_string p
  | SockV6 b p _ scope =>
      91 :: v6_to_string b ++ (if decide (scope = 0) then [] else 37 :: u_to_string scope) ++ 93 :: 58 :: u_to_string p
  end.

(** ** What the parser accepts is an address *)

Definition socket_wf (s : SocketAddr) : Prop := ip_wf (socket_ip s) ∧ 0 ≤ socket_port s ≤ 65535.
Definition net_wf (a : NetAddress) : Prop := ip_wf (ip a) ∧ 0 ≤ port a ≤ 65535.

Lemma net_from_wf s : socket_wf s → net_wf (net_from s).
Proof. intros [? ?]. split; [by apply canonicalize_ip_wf|done]. Qed.

Lemma to_digit_nonneg radix c d : to_digit radix c = Some d → 0 ≤ d < radix.
Proof. unfold to_digit. repeat case_decide; intros; simplify_eq; lia. Qed.

Lemma read_digits_nonneg radix limit maxv s acc cnt v n s' :
  0 ≤ radix → 0 ≤ acc → read_digits radix limit maxv s acc cnt = Some (v, n, s') → 0 ≤ v.
Proof.
  intros Hr. revert acc cnt. induction s as [|c s IH]; intros acc cnt Ha; cbn; [intros; by simplify_eq|].
  destruct (to_digit radix c) as [d|] eqn:E; [|intros; by simplify_eq].
  apply to_digit_nonneg in E. destruct limit; case_decide; [done| |done|]; apply IH; nia.
Qed.

Lemma read_number_range radix limit zp maxv s v s' :
  0 ≤ radix → read_number radix limit zp maxv s = Some (v, s') → 0 ≤ v ≤ maxv.
Proof.
  intros Hr. unfold read_number. destruct (read_digits _ _ _ _ _ _) as [[[v0 n] s0]|] eqn:E; [|done].
  apply read_digits_nonneg in E; [|done|done]. case_decide; [done|]. destruct (_ && _); [done|].
  case_decide; [|done]. intros. by simplify_eq.
Qed.

Lemma read_separator_inv {A} sep i (p : parser A) s r :
  read_separator sep i p s = Some r → ∃ s0, p s0 = Some r.
Proof. destruct i; cbn; [eauto|]. destruct (read_given_char sep s) as [[]|]; [eauto|done]. Qed.

Lemma read_octet_range i s v s' : read_octet i s = Some (v, s') → 0 ≤ v ≤ 255.
Proof. intros [s0 Hs]%read_separator_inv. apply read_number_range in Hs; lia. Qed.

Lemma read_ipv4_range s v s' : read_ipv4_addr s = Some (v, s') → 0 ≤ v < 2 ^ 32.
Proof.
  unfold read_ipv4_addr. intros ([a s1] & Ha%read_octet_range & ([b s2] & Hb%read_octet_range &
    ([c s3] & Hc%read_octet_range & ([d s4] & Hd%read_octet_range & [= <- <-])%bind_Some)%bind_Some)%bind_Some)%bind_Some.
  lia.
Qed.

Lemma read_groups_range n i s gs f s' :
  read_groups n i s = (gs, f, s') → Forall (λ g, 0 ≤ g < 65536) gs ∧ (length gs ≤ n)%nat.
Proof.
  revert i s gs f s'. induction n as [|n IH]; intros i s gs f s'; cbn [read_groups].
  { intros [= <- <- <-]. cbn. split; [constructor|lia]. }
  destruct (match n with O => None | S _ => read_separator 58 i read_ipv4_addr s end) as [[v4 s1]|] eqn:E4.
  - destruct n as [|n]; [done|]. apply read_separator_inv in E4 as [s0 E4%read_ipv4_range].
    intros [= <- <- <-]. split; [|cbn; lia]. repeat constructor; div_lia.
  - destruct (read_separator 58 i (read_number 16 (Some 4%nat) true 65535) s) as [[g s1]|] eqn:Eg.
    + destruct (read_groups n (S i) s1) as [[gs1 f1] r1] eqn:Er. intros Heq. simplify_eq/=.
      apply IH in Er as [? ?]. apply read_separator_inv in Eg as [s0 Eg].
      apply read_number_range in Eg; [|lia]. split; [|cbn; lia]. constructor; [lia|done].
    + intros [= <- <- <-]. cbn. split; [constructor|lia].
Qed.

Lemma v6_of_segments_range gs :
  Forall (λ g, 0 ≤ g < 65536) gs → 0 ≤ v6_of_segments gs < 65536 ^ Z.of_nat (length gs).
Proof.
  unfold v6_of_segments. induction gs as [|g gs IH] using rev_ind; [cbn; lia|].
  intros [Hgs [Hg _]%Forall_cons]%Forall_app. rewrite foldl_app, length_app, Nat2Z.inj_add, Z.pow_add_r by lia.
  cbn [foldl length]. specialize (IH Hgs). change (65536 ^ Z.of_nat 1) with 65536. lia.
Qed.

Lemma read_ipv6_range s v s' : read_ipv6_addr s = Some (v, s') → 0 ≤ v < 2 ^ 128.
Proof.
  unfold read_ipv6_addr. destruct (read_groups 8 0 s) as [[hd h4] s1] eqn:Eh.
  apply read_groups_range in Eh as [Hh Hl]. case_decide as H8.
  - intros [= <- <-]. pose proof (v6_of_segments_range hd Hh) as Hr. rewrite H8 in Hr. exact Hr.
  - destruct h4; [done|]. intros ([[] s2] & _ & ([[] s3] & _ & Ht)%bind_Some)%bind_Some.
    destruct (read_groups _ 0 s3) as [[tl t4] s4] eqn:Et. apply read_groups_range in Et as [Htl Htn].
    injection Ht as <- <-.
    assert (Hall : Forall (λ g, 0 ≤ g < 65536) (hd ++ replicate (8 - length hd - length tl) 0 ++ tl)).
    { rewrite !Forall_app. split; [done|]. split; [|done]. apply Forall_replicate. lia. }
    pose proof (v6_of_segments_range _ Hall) as Hr. rewrite !length_app, length_replicate in Hr.
    replace (length hd + (8 - length hd - length tl + length tl))%nat with 8%nat in Hr by lia. exact Hr.
Qed.

Lemma read_port_range s v s' : read_port s = Some (v, s') → 0 ≤ v ≤ 65535.
Proof. unfold read_port. intros ([[] s1] & _ & Hn)%bind_Some. apply read_number_range in Hn; lia. Qed.

Lemma socket_from_str_wf s a : socket_from_str s = Some a → socket_wf a.
Proof.
  unfold socket_from_str, parse_with, read_or. destruct (read_socket_addr_v4 s) as [[a1 s1]|] eqn:E4.
  - unfold read_socket_addr_v4 in E4.
    apply bind_Some in E4 as ([b s2] & Hb%read_ipv4_range & ([p s3] & Hp%read_port_range & [= <- <-])%bind_Some).
    destruct s3; [|done]. intros [= <-]. by split.
  - destruct (read_socket_addr_v6 s) as [[a1 s1]|] eqn:E6; [|done]. unfold read_socket_addr_v6 in E6.
    apply bind_Some in E6 as ([[] s2] & _ & ([b s3] & Hb%read_ipv6_range & E6)%bind_Some).
    destruct (match read_scope_id s3 with Some (v, s') => (v, s') | None => (0, s3) end) as [scope s4].
    apply bind_Some in E6 as ([[] s5] & _ & ([p s6] & Hp%read_port_range & [= <- <-])%bind_Some).
    destruct s6; [|done]. intros [= <-]. by split.
Qed.
