(* ===== verification/Common.v ===== *)
(** * The [common] crate: time and keys

    src/common/src/time.rs and src/common/src/api_key.rs, with the part of
    [std::time] they and the rest of the program use. *)

From S2P Require Import Prelude Text.

(** ** [std::time]

    A [Duration] is its number of nanoseconds (a [u64] of seconds and a
    sub-second part), an [Instant] its monotonic clock reading in nanoseconds (an
    [i64] of seconds and a sub-second part). Clock readings are arguments of the
    definitions that take them. *)
Abbreviation Duration := Z (only parsing).
Abbreviation Instant := Z (only parsing).

Definition NANOS : Z := 1000000000.
Definition DURATION_MAX : Z := U64_MAX * NANOS + 999999999.
Definition INSTANT_MAX : Z := I64_MAX * NANOS + 999999999.

Definition duration_wf (d : Duration) : Prop := 0 ≤ d ≤ DURATION_MAX.
#[global] Instance duration_wf_dec d : Decision (duration_wf d).
Proof. unfold duration_wf. apply _. Defined.

Definition from_millis (ms : Z) : Duration := ms * 1000000.
Definition from_secs (s : Z) : Duration := s * NANOS.
Definition from_mins (m : Z) : Duration := m * 60 * NANOS.
Definition as_millis (d : Duration) : Z := d / 1000000.
Definition as_secs (d : Duration) : Z := d / NANOS.

(** [Instant + Duration] panics past the last representable instant. *)
Definition instant_add (t : Instant) (d : Duration) : option Instant :=
  if decide (t + d ≤ INSTANT_MAX) then Some (t + d) else None.

(** [Instant::duration_since] saturates at zero. *)
Definition duration_since (t earlier : Instant) : Duration := Z.max 0 (t - earlier).

(** ** src/common/src/time.rs *)

(** Milliseconds as [i64], saturating at [i64::MAX]. *)
Definition duration_to_ms (d : Duration) : Z := try_from_or I64_MAX (as_millis d).

(** ** src/common/src/api_key.rs *)

Definition KEY_BYTES : Z := 32.

(** [generate_api_key] with the [KEY_BYTES] random bytes it draws as an argument. *)
Definition generate_api_key (random : bytes) : rstr := hex_encode random.

(** ** Lemmas *)

Lemma duration_to_ms_range d : duration_wf d → 0 ≤ duration_to_ms d ≤ I64_MAX.
Proof.
  unfold duration_wf, duration_to_ms, try_from_or, as_millis. intros [Hd _].
  assert (0 ≤ d / 1000000) by (apply Z.div_pos; lia).
  case_decide; unfold I64_MAX in *; lia.
Qed.

Lemma duration_to_ms_exact d : as_millis d ≤ I64_MAX → duration_to_ms d = as_millis d.
Proof. unfold duration_to_ms, try_from_or. intros. by rewrite decide_True. Qed.

Lemma duration_to_ms_mono d1 d2 : 0 ≤ d1 ≤ d2 → duration_to_ms d1 ≤ duration_to_ms d2.
Proof.
  intros Hd. unfold duration_to_ms, try_from_or, as_millis.
  assert (d1 / 1000000 ≤ d2 / 1000000) by (apply Z.div_le_mono; lia).
  repeat case_decide; lia.
Qed.

(** A hexadecimal digit as [generate_api_key] writes it. *)
Definition is_hexdigit (c : Z) : Prop := 48 ≤ c ≤ 57 ∨ 97 ≤ c ≤ 102.

Lemma digit_char_hex v : 0 ≤ v < 16 → is_hexdigit (digit_char v).
Proof. unfold is_hexdigit, digit_char. case_decide; lia. Qed.

Lemma hex_encode_length bs : length (hex_encode bs) = (2 * length bs)%nat.
Proof. unfold hex_encode. induction bs as [|b bs IH]; [done|]. cbn in *. lia. Qed.

Lemma hex_encode_digits bs :
  Forall (λ b, 0 ≤ b < 256) bs → Forall is_hexdigit (hex_encode bs).
Proof.
  induction 1 as [|b bs Hb Hbs IH]; [constructor|]. unfold hex_encode in *. rewrite bind_cons.
  apply Forall_app. split; [|done].
  rewrite !Forall_cons. repeat split; [apply digit_char_hex; div_lia..|constructor].
Qed.

Lemma digit_char_inj v w : 0 ≤ v < 16 → 0 ≤ w < 16 → digit_char v = digit_char w → v = w.
Proof. unfold digit_char. repeat case_decide; lia. Qed.

(** Distinct keys come from distinct random bytes. *)
Lemma hex_encode_inj bs cs :
  Forall (λ b, 0 ≤ b < 256) bs → Forall (λ b, 0 ≤ b < 256) cs → hex_encode bs = hex_encode cs → bs = cs.
Proof.
  intros Hbs. revert cs. induction Hbs as [|b bs Hb Hbs IH]; intros [|c cs] Hcs; try done.
  inversion_clear Hcs as [|? ? Hc Hcs']. unfold hex_encode in *. rewrite !bind_cons.
  cbn [app]. intros [= H1 H2 H3].
  apply digit_char_inj in H1, H2; [|div_lia..]. f_equal; [div_lia|]. by apply IH.
Qed.

#[export] Hint Resolve duration_to_ms_range : seeder.
