(* ===== verification/RateLimit.v ===== *)
(** * The per-IP token-bucket rate limiter (src/common/src/rate_limit.rs)

    [check] and its lazy sweep, translated with the clock reading as an
    argument. The theorems compare the limiter with a reference that never evicts a
    bucket, and bound what one client gets through in any window. *)

From S2P Require Import Prelude Text Net Common.

(** ** State and operations *)

Definition SWEEP_INTERVAL : Z := 1024.

Record Bucket : Type := mkBucket { tokens : Z; refill_at : Instant }.

Record RateLimiter : Type := mkRateLimiter {
  capacity : Z;
  window : Duration;
  buckets : gmap IpAddr Bucket;
  ops : Z;
}.

(** [RateLimiter::new]. *)
Definition new (capacity : Z) (window : Duration) : RateLimiter :=
  mkRateLimiter capacity window ∅ 0.

(** [maybe_sweep]: every [SWEEP_INTERVAL]-th call drops the buckets whose window is over. *)
Definition maybe_sweep (rl : RateLimiter) (now : Instant) : RateLimiter :=
  let rl' := mkRateLimiter (capacity rl) (window rl) (buckets rl) (u64_fetch_add (ops rl) 1) in
  if decide (ops rl mod SWEEP_INTERVAL ≠ 0) then rl'
  else mkRateLimiter (capacity rl') (window rl')
         (filter (λ kb, now < refill_at kb.2) (buckets rl')) (ops rl').

(** [check]: [None] is the panic of [now + self.window]. *)
Definition check (rl : RateLimiter) (a : IpAddr) (now : Instant) : option (bool * RateLimiter) :=
  if decide (capacity rl = 0) then Some (true, rl)
  else
    refill ← instant_add now (window rl);
    let entry := default (mkBucket (capacity rl) refill) (buckets rl !! a) in
    let entry := if decide (now >= refill_at entry) then mkBucket (capacity rl) refill else entry in
    let '(allowed, entry) :=
      if decide (tokens entry = 0) then (false, entry)
      else (true, mkBucket (tokens entry - 1) (refill_at entry)) in
    let rl' := mkRateLimiter (capacity rl) (window rl) (<[a := entry]> (buckets rl)) (ops rl) in
    Some (allowed, maybe_sweep rl' now).

(** [tracked_ips]. *)
Definition tracked_ips (rl : RateLimiter) : nat := size (buckets rl).

(** A call as the environment makes it: the clock reading and the client. *)
Abbreviation call := (Instant * IpAddr)%type.

Fixpoint run (rl : RateLimiter) (calls : list call) : option (list bool * RateLimiter) :=
  match calls with
  | [] => Some ([], rl)
  | (now, a) :: calls' =>
      '(ok, rl') ← check rl a now;
      '(oks, rl'') ← run rl' calls';
      Some (ok :: oks, rl'')
  end.

(** ** The reference limiter

    One bucket per client, kept for ever and refilled when its window is over. *)

(** The bucket a call at [now] finds, if its window is still open. *)
Definition live (now : Instant) (b : option Bucket) : option Bucket :=
  match b with
  | Some b => if decide (now < refill_at b) then Some b else None
  | None => None
  end.

(** Take one token from the open bucket, or from a fresh one. *)
Definition take_token (cap : Z) (w : Duration) (now : Instant) (b : option Bucket) : bool * Bucket :=
  let b := default (mkBucket cap (now + w)) (live now b) in
  if decide (tokens b = 0) then (false, b) else (true, mkBucket (tokens b - 1) (refill_at b)).

Fixpoint ref_run (cap : Z) (w : Duration) (m : gmap IpAddr Bucket) (calls : list call) : list bool :=
  match calls with
  | [] => []
  | (now, a) :: calls' =>
      let '(ok, b) := take_token cap w now (m !! a) in
      ok :: ref_run cap w (<[a := b]> m) calls'
  end.

(** ** Invariant and sequences of calls *)

Definition rl_wf (rl : RateLimiter) : Prop :=
  0 ≤ capacity rl ∧ duration_wf (window rl) ∧ map_Forall (λ _ b, 0 ≤ tokens b ≤ capacity rl) (buckets rl).

(** Clock readings do not go back, and none is so late that adding the window overflows. *)
Fixpoint calls_from (w : Duration) (t : Instant) (calls : list call) : Prop :=
  match calls with
  | [] => True
  | (now, _) :: calls' => t ≤ now ∧ now + w ≤ INSTANT_MAX ∧ calls_from w now calls'
  end.

(** The calls of [a] that were let through. *)
Definition granted (a : IpAddr) (calls : list call) (oks : list bool) : Z :=
  Z.of_nat (length (filter (λ p : call * bool, p.1.2 = a ∧ p.2 = true) (zip calls oks))).

(** Two bucket maps that no call from [now] on can tell apart. *)
Definition live_equiv (now : Instant) (m1 m2 : gmap IpAddr Bucket) : Prop :=
  ∀ a, live now (m1 !! a) = live now (m2 !! a).

(** ** Lemmas *)

Lemma maybe_sweep_capacity rl now : capacity (maybe_sweep rl now) = capacity rl.
Proof. unfold maybe_sweep. by case_decide. Qed.
Lemma maybe_sweep_window rl now : window (maybe_sweep rl now) = window rl.
Proof. unfold maybe_sweep. by case_decide. Qed.

(** The sweep removes only buckets a later call would refill anyway. *)
Lemma maybe_sweep_live rl now a :
  live now (buckets (maybe_sweep rl now) !! a) = live now (buckets rl !! a).
Proof.
  unfold maybe_sweep. case_decide; [done|]. cbn [buckets].
  destruct (buckets rl !! a) as [b|] eqn:E; cbn.
  - rewrite map_lookup_filter, E. cbn. unfold guard. case_decide; [|done]. cbn.
    by rewrite decide_True.
  - by rewrite map_lookup_filter, E.
Qed.

Lemma maybe_sweep_subset rl now : buckets (maybe_sweep rl now) ⊆ buckets rl.
Proof. unfold maybe_sweep. case_decide; [done|]. apply map_filter_subseteq. Qed.

Lemma instant_add_Some t d : t + d ≤ INSTANT_MAX → instant_add t d = Some (t + d).
Proof. intros. unfold instant_add. by rewrite decide_True. Qed.

(** What [check] does to a limiter that is enabled: the reference step, then the sweep. *)
Lemma check_eq rl a now :
  capacity rl ≠ 0 → now + window rl ≤ INSTANT_MAX →
  let '(ok, b) := take_token (capacity rl) (window rl) now (buckets rl !! a) in
  check rl a now =
    Some (ok, maybe_sweep (mkRateLimiter (capacity rl) (window rl) (<[a := b]> (buckets rl)) (ops rl)) now).
Proof.
  intros Hcap Hnow. unfold check, take_token.
  rewrite (decide_False (P := capacity rl = 0)), instant_add_Some by done. cbn [mbind option_bind].
  destruct (buckets rl !! a) as [b|]; cbn [live from_option].
  - destruct (decide (now < refill_at b)).
    + rewrite (decide_False (P := now >= refill_at b)) by lia. cbn [from_option]. by case_decide.
    + rewrite (decide_True (P := now >= refill_at b)) by lia. cbn [from_option]. by case_decide.
  - cbn [from_option id refill_at]. destruct (decide (now >= now + window rl)); by case_decide.
Qed.

Lemma live_mono t now b1 b2 : t ≤ now → live t b1 = live t b2 → live now b1 = live now b2.
Proof.
  intros Ht. destruct b1 as [b1|], b2 as [b2|]; cbn; repeat case_decide; intros; simplify_eq; done || lia.
Qed.

Lemma live_equiv_mono t now m1 m2 : t ≤ now → live_equiv t m1 m2 → live_equiv now m1 m2.
Proof. intros Ht Hm a. eapply live_mono; [done|apply Hm]. Qed.

Lemma take_token_live cap w now b1 b2 :
  live now b1 = live now b2 → take_token cap w now b1 = take_token cap w now b2.
Proof. intros H. unfold take_token. by rewrite H. Qed.

Lemma live_equiv_insert now m1 m2 a b :
  live_equiv now m1 m2 → live_equiv now (<[a := b]> m1) (<[a := b]> m2).
Proof. intros Hm a'. destruct (decide (a = a')) as [->|]; by simplify_map_eq. Qed.

Lemma run_ref_equiv rl m t calls :
  capacity rl ≠ 0 → calls_from (window rl) t calls → live_equiv t (buckets rl) m →
  ∃ rl', run rl calls = Some (ref_run (capacity rl) (window rl) m calls, rl').
Proof.
  revert rl m t. induction calls as [|[now a] calls IH]; intros rl m t Hcap Hcalls Hm; [by eauto|].
  destruct Hcalls as (Ht & Hmax & Hcalls). cbn [run ref_run].
  pose proof (check_eq rl a now Hcap Hmax) as Hcheck.
  apply (live_equiv_mono _ now) in Hm; [|done].
  rewrite <-(take_token_live _ _ _ _ _ (Hm a)).
  destruct (take_token _ _ _ (buckets rl !! a)) as [ok b]. rewrite Hcheck. cbn [mbind option_bind].
  set (rl1 := maybe_sweep _ _). edestruct (IH rl1 (<[a := b]> m) now) as [rl' Hrl'].
  - by unfold rl1; rewrite maybe_sweep_capacity.
  - by unfold rl1; rewrite maybe_sweep_window.
  - intros a'. unfold rl1. rewrite maybe_sweep_live. by apply live_equiv_insert.
  - rewrite Hrl'. unfold rl1. rewrite maybe_sweep_capacity, maybe_sweep_window. cbn. by eauto.
Qed.

(** [check] keeps the invariant. *)
Lemma take_token_range cap w now b :
  0 ≤ cap → (∀ b', b = Some b' → 0 ≤ tokens b' ≤ cap) →
  0 ≤ tokens (take_token cap w now b).2 ≤ cap.
Proof.
  intros Hcap Hb. unfold take_token.
  assert (Hl : 0 ≤ tokens (default (mkBucket cap (now + w)) (live now b)) ≤ cap).
  { destruct b as [b|]; cbn; [|lia]. case_decide; cbn; [|lia]. by apply Hb. }
  case_decide; cbn; lia.
Qed.

Lemma maybe_sweep_wf rl now : rl_wf rl → rl_wf (maybe_sweep rl now).
Proof.
  intros (? & ? & Hb). unfold rl_wf. rewrite maybe_sweep_capacity, maybe_sweep_window.
  do 2 (split; [done|]). intros a b Hab. apply (Hb a). eapply lookup_weaken; [done|apply maybe_sweep_subset].
Qed.

Lemma check_wf rl a now ok rl' : rl_wf rl → check rl a now = Some (ok, rl') → rl_wf rl'.
Proof.
  intros Hwf. destruct (decide (capacity rl = 0)) as [H0|H0].
  { unfold check. rewrite decide_True by done. by intros [= <- <-]. }
  destruct (decide (now + window rl ≤ INSTANT_MAX)) as [Hm|Hm].
  - pose proof (check_eq rl a now H0 Hm) as Hc.
    pose proof (take_token_range (capacity rl) (window rl) now (buckets rl !! a)) as Hr.
    destruct (take_token _ _ _ _) as [ok' b]. rewrite Hc. intros [= <- <-].
    apply maybe_sweep_wf. destruct Hwf as (? & ? & Hb). do 2 (split; [done|]).
    apply map_Forall_insert_2; [|done]. apply Hr; [done|]. intros b' Hb'. by apply (Hb a).
  - unfold check, instant_add. by repeat (rewrite decide_False by done).
Qed.

(** ** How much one client gets

    In the span [[t0, t0 + window)] a client can use up the tokens left in its
    open bucket and one refill: a bucket refilled inside the span stays open past its
    end. *)
Definition budget (rl : RateLimiter) (t t0 : Instant) (a : IpAddr) : Z :=
  match live t (buckets rl !! a) with
  | Some b => tokens b + (if decide (refill_at b < t0 + window rl) then capacity rl else 0)
  | None => capacity rl
  end.

Lemma budget_mono rl t now t0 a :
  rl_wf rl → t ≤ now < t0 + window rl → budget rl now t0 a ≤ budget rl t t0 a.
Proof.
  intros (Hc & _ & Hb) Ht. unfold budget.
  destruct (buckets rl !! a) as [b|] eqn:E; cbn; [|done].
  pose proof (Hb _ _ E). repeat case_decide; cbn in *; lia.
Qed.

Lemma budget_nonneg rl t t0 a : rl_wf rl → 0 ≤ budget rl t t0 a.
Proof.
  intros (Hc & _ & Hb). unfold budget.
  destruct (buckets rl !! a) as [b|] eqn:E; cbn; [|done].
  pose proof (Hb _ _ E). repeat case_decide; cbn in *; lia.
Qed.

(** One call spends at most what it is granted. *)
Lemma budget_check rl a a' now t0 :
  rl_wf rl → capacity rl ≠ 0 → t0 ≤ now < t0 + window rl → now + window rl ≤ INSTANT_MAX →
  ∃ ok rl', check rl a' now = Some (ok, rl') ∧ rl_wf rl' ∧
    capacity rl' = capacity rl ∧ window rl' = window rl ∧
    budget rl' now t0 a + (if decide (a' = a ∧ ok = true) then 1 else 0) ≤ budget rl now t0 a.
Proof.
  intros Hwf H0 Ht Hm.
  pose proof (check_eq rl a' now H0 Hm) as Hc. unfold budget at 2.
  destruct (take_token _ _ _ _) as [ok b] eqn:Htk. exists ok. eexists. split; [done|].
  split; [eapply check_wf; [done|done]|].
  rewrite maybe_sweep_capacity, maybe_sweep_window. split; [done|]. split; [done|].
  unfold budget. rewrite maybe_sweep_live, maybe_sweep_capacity, maybe_sweep_window. cbn [buckets capacity window].
  destruct (decide (a' = a)) as [->|Hne].
  2: { rewrite lookup_insert_ne by done. rewrite decide_False by naive_solver. lia. }
  rewrite lookup_insert_eq. revert Htk. unfold take_token.
  destruct Hwf as (Hcap & Hw & Hb). unfold duration_wf in Hw.
  destruct (live now (buckets rl !! a)) as [b0|] eqn:El; cbn [from_option].
  - assert (now < refill_at b0 ∧ 0 ≤ tokens b0) as [Hlt H0b].
    { destruct (buckets rl !! a) as [b1|] eqn:E; cbn in El; [|done].
      pose proof (Hb _ _ E). case_decide; naive_solver. }
    case_decide as Htok; intros [= <- <-]; cbn [live refill_at tokens]; rewrite decide_True by done.
    + rewrite (decide_False (P := a = a ∧ _)) by naive_solver. cbn. lia.
    + rewrite (decide_True (P := a = a ∧ _)) by done. cbn. lia.
  - cbn [tokens]. rewrite (decide_False (P := capacity rl = 0)) by done.
    intros [= <- <-]. cbn [live refill_at tokens].
    rewrite (decide_True (P := a = a ∧ _)) by done.
    rewrite decide_True by lia. cbn [tokens refill_at]. rewrite decide_False by lia. lia.
Qed.

Lemma granted_cons a c calls ok oks :
  granted a (c :: calls) (ok :: oks) =
  (if decide (c.2 = a ∧ ok = true) then 1 else 0) + granted a calls oks.
Proof. unfold granted. cbn [zip zip_with]. rewrite filter_cons. cbn [fst snd]. case_decide; cbn [length]; lia. Qed.

Lemma run_budget rl t0 t a calls oks rl' :
  rl_wf rl → capacity rl ≠ 0 → t0 ≤ t → calls_from (window rl) t calls →
  Forall (λ c : call, c.1 < t0 + window rl) calls → run rl calls = Some (oks, rl') →
  granted a calls oks ≤ budget rl t t0 a.
Proof.
  revert rl t oks rl'. induction calls as [|[now a'] calls IH]; intros rl t oks rl' Hwf H0 Ht Hcalls Hall Hrun.
  { cbn in Hrun. simplify_eq. cbn. by apply budget_nonneg. }
  destruct Hcalls as (Ht' & Hmax & Hcalls). apply Forall_cons in Hall as [Hnow Hall]. cbn in Hnow.
  destruct (budget_check rl a a' now t0) as (ok & rl1 & Hck & Hwf1 & Hc1 & Hw1 & Hle); [done..|lia|done|].
  cbn [run] in Hrun. rewrite Hck in Hrun. cbn in Hrun.
  destruct (run rl1 calls) as [[oks1 rl2]|] eqn:Hrun1; simplify_eq/=.
  rewrite granted_cons. cbn [snd].
  assert (granted a calls oks1 ≤ budget rl1 now t0 a).
  { eapply IH; rewrite ?Hc1, ?Hw1; eauto; lia. }
  pose proof (budget_mono rl t now t0 a Hwf ltac:(lia)). lia.
Qed.

(** What a client is granted in one window. *)
Lemma run_granted_bound rl t0 a calls :
  rl_wf rl → capacity rl ≠ 0 → calls_from (window rl) t0 calls →
  Forall (λ c : call, c.1 < t0 + window rl) calls →
  ∃ oks rl', run rl calls = Some (oks, rl') ∧ granted a calls oks ≤ 2 * capacity rl ∧
    (live t0 (buckets rl !! a) = None → granted a calls oks ≤ capacity rl).
Proof.
  intros Hwf H0 Hcalls Hall.
  destruct (run_ref_equiv rl (buckets rl) t0 calls) as [rl' Hrun]; [done..|].
  eexists _, rl'. split; [done|].
  pose proof (run_budget rl t0 t0 a calls _ _ Hwf H0 (Z.le_refl _) Hcalls Hall Hrun) as Hle.
  revert Hle. unfold budget. destruct Hwf as (Hcap & _ & Hb).
  destruct (live t0 (buckets rl !! a)) as [b|] eqn:El; [|split; [lia|done]].
  assert (tokens b ≤ capacity rl).
  { destruct (buckets rl !! a) as [b1|] eqn:E; cbn in El; [|done].
    pose proof (Hb _ _ E). case_decide; naive_solver. }
  split; [|done]. case_decide; lia.
Qed.

(** ** Main theorems *)



(** ** Witnesses *)

(** A limiter of two tokens a second; the client calls three times, then again when the window is over. *)
Definition limiter : RateLimiter := new 2 (from_secs 1).
Definition client : IpAddr := V4 2130706433.
Definition trace : list call :=
  [(0, client); (1, client); (2, client); (from_secs 1, client)].
Definition burst : list call := [(0, client); (1, client); (2, client)].


