(* ===== verification/Record.v ===== *)
(** * Peer records and the query filter

    src/store/src/record.rs and src/store/src/filter.rs. *)

From S2P Require Import Prelude Text Net.

(** ** The [semver] dependency

    The version type, its three numeric fields, its parser and its printer are
    parameters. *)
Class Semver : Type := {
  Version : Type;
  major : Version → Z;
  minor : Version → Z;
  patch : Version → Z;
  version_parse : rstr → option Version;
  version_to_string : Version → rstr;
}.

(** ** Peer records *)

(** [[u8; 16]] and [[u8; 20]] are byte lists of that length. *)
Abbreviation PeerId := (list Z) (only parsing).

(** Sentinel id of records written before a handshake (src/store/src/peer_store.rs). *)
Definition UNKNOWN_PEER_ID : PeerId := replicate 16 0.

Record PeerRecord : Type := mkPeerRecord {
  address : NetAddress;
  rec_id : PeerId;
  protocol_version : Z;
  user_agent : rstr;
  subnetwork_id : option (list Z);
  timestamp_ms : Z;
  first_seen_ms : Z;
  last_seen_ms : Z;
  last_attempt_ms : Z;
  last_success_ms : Z;
}.

#[global] Instance PeerRecord_eq_dec : EqDecision PeerRecord.
Proof. solve_decision. Defined.
#[global] Instance PeerRecord_countable : Countable PeerRecord.
Proof.
  refine (inj_countable'
    (λ r, (address r, rec_id r, protocol_version r, user_agent r, subnetwork_id r,
           (timestamp_ms r, first_seen_ms r, last_seen_ms r, last_attempt_ms r, last_success_ms r)))
    (λ '(a, i, p, u, s, (t, f, ls, la, lo)), mkPeerRecord a i p u s t f ls la lo) _).
  by intros [].
Defined.

(** Record update, as the Rust code writes [rec.last_attempt_ms = now_ms]. *)
Definition set_last_attempt (now : Z) (r : PeerRecord) : PeerRecord :=
  mkPeerRecord (address r) (rec_id r) (protocol_version r) (user_agent r) (subnetwork_id r)
    (timestamp_ms r) (first_seen_ms r) (last_seen_ms r) now (last_success_ms r).
Definition set_last_seen (now : Z) (r : PeerRecord) : PeerRecord :=
  mkPeerRecord (address r) (rec_id r) (protocol_version r) (user_agent r) (subnetwork_id r)
    (timestamp_ms r) (first_seen_ms r) now (last_attempt_ms r) (last_success_ms r).

Section with_semver.
Context `{Semver}.

(** [PeerRecord::parse_kaspad_version]. *)
Definition parse_kaspad_version (user_agent : rstr) : option Version :=
  rest ← strip_prefix (str "/kaspad:") user_agent;
  let segment := split_first 47 rest in
  let v := match split_once 40 segment with Some (v, _) => v | None => segment end in
  version_parse (trim v).
End with_semver.

(** ** Filters *)

Inductive Family : Type := FamV4 | FamV6.
#[global] Instance Family_eq_dec : EqDecision Family.
Proof. solve_decision. Defined.

(** The test of [matches!((family, &rec.address.ip), ...)]. *)
Definition family_ok (f : Family) (a : IpAddr) : bool :=
  match f, a with FamV4, V4 _ => true | FamV6, V6 _ => true | _, _ => false end.

Section filter.
Context `{Semver}.

Record Filter : Type := mkFilter {
  now_ms : Z;
  dead_after_ms : Z;
  stale_good_ms : option Z;
  family : option Family;
  min_protocol_version : option Z;
  min_user_agent : option Version;
  default_port : option Z;
}.

(** [Filter::serving]. *)
Definition serving (now stale_good : Z) (min_pv : option Z) (min_ua : option Version)
    (fam : option Family) (dport : option Z) : Filter :=
  mkFilter now I64_MAX (Some stale_good) fam min_pv min_ua dport.

(** [(v.major, v.minor, v.patch) >= (min.major, min.minor, min.patch)]: lexicographic. *)
Definition version_geb (v m : Version) : bool :=
  bool_decide (major m < major v ∨ (major v = major m ∧
    (minor m < minor v ∨ (minor v = minor m ∧ patch m ≤ patch v)))).

(** [Filter::passes_validity]. *)
Definition passes_validity (f : Filter) (rec : PeerRecord) : bool :=
  let pv_ok :=
    match min_protocol_version f with
    | Some min => negb (bool_decide (protocol_version rec < min))
    | None => true
    end in
  let ua_ok :=
    match min_user_agent f with
    | Some min =>
        match parse_kaspad_version (user_agent rec) with
        | Some v => version_geb v min
        | None => false
        end
    | None => true
    end in
  let port_ok :=
    match default_port f with
    | Some p => negb (bool_decide (port (address rec) ≠ p))
    | None => true
    end in
  if negb pv_ok then false else if negb ua_ok then false else if negb port_ok then false else true.

(** [Filter::matches]: [None] is the overflow panic of the two subtractions, which are
    evaluated in this order and only as far as the early returns allow. *)
Definition matches (f : Filter) (rec : PeerRecord) : option bool :=
  seen_age ← i64_sub (now_ms f) (last_seen_ms rec);
  if decide (dead_after_ms f < seen_age) then Some false
  else
    stale ← match stale_good_ms f with
            | Some stale_good =>
                success_age ← i64_sub (now_ms f) (last_success_ms rec);
                Some (bool_decide (stale_good < success_age))
            | None => Some false
            end;
    if (stale : bool) then Some false
    else
      match family f with
      | Some fam => if family_ok fam (ip (address rec)) then Some (passes_validity f rec) else Some false
      | None => Some (passes_validity f rec)
      end.

(** ** Lemmas *)

Lemma passes_validity_spec f rec :
  passes_validity f rec = true ↔
    (∀ min, min_protocol_version f = Some min → min ≤ protocol_version rec) ∧
    (∀ min, min_user_agent f = Some min →
       ∃ v, parse_kaspad_version (user_agent rec) = Some v ∧ version_geb v min = true) ∧
    (∀ p, default_port f = Some p → port (address rec) = p).
Proof.
  unfold passes_validity. cbv zeta.
  assert (∀ a b c : bool,
    (if negb a then false else if negb b then false else if negb c then false else true) = true ↔
    a = true ∧ b = true ∧ c = true) as -> by (intros [] [] []; cbn; naive_solver).
  f_equiv; [|f_equiv].
  - destruct (min_protocol_version f) as [m|]; [|naive_solver].
    rewrite negb_true_iff, bool_decide_eq_false. split; [intros ? ? [= <-]; lia|].
    intros Hm. specialize (Hm m eq_refl). lia.
  - destruct (min_user_agent f) as [m|]; [|naive_solver].
    destruct (parse_kaspad_version _); naive_solver.
  - destruct (default_port f) as [q|]; [|naive_solver].
    rewrite negb_true_iff, bool_decide_eq_false. split.
    + intros Hp p [= <-]. by apply dec_stable.
    + intros Hp Hne. by apply Hne, Hp.
Qed.

(** The three conditions a served record meets, for timestamps that do not overflow. *)
Lemma matches_serving now stale min_pv min_ua fam dport rec :
  in_i64 (now - last_seen_ms rec) → in_i64 (now - last_success_ms rec) →
  matches (serving now stale min_pv min_ua fam dport) rec =
  Some (bool_decide (now - last_success_ms rec ≤ stale) &&
        match fam with Some f => family_ok f (ip (address rec)) | None => true end &&
        passes_validity (serving now stale min_pv min_ua fam dport) rec).
Proof.
  intros Hs Ho. unfold matches. cbn [now_ms dead_after_ms stale_good_ms family serving].
  unfold i64_sub. rewrite (i64_checked_in _ Hs), (i64_checked_in _ Ho). cbn [mbind option_bind].
  rewrite decide_False by int_solve. cbn [mbind option_bind].
  repeat case_bool_decide; try lia; cbn [andb]; [done|].
  destruct fam as [f|]; [|done]. by destruct (family_ok f _).
Qed.

(** Timestamps the program itself writes cannot make the subtraction overflow. *)
Lemma sub_in_i64 a b : 0 ≤ a ≤ I64_MAX → 0 ≤ b ≤ I64_MAX → in_i64 (a - b).
Proof. int_solve. Qed.
End filter.

Arguments mkFilter {_} _ _ _ _ _ _ _.
#[export] Hint Resolve sub_in_i64 : seeder.
