(* ===== verification/Redb.v ===== *)
(** * The database interface: [redb] tables, transactions and [bincode] rows

    The store crate keeps its rows in a [redb] database and encodes them with
    [bincode]. Both are dependencies: the classes [RedbApi] and [Bincode] hold the
    operations the sources call, [RedbLaws] and [BincodeLaws] the documented
    behaviour they rely on, and RedbInstances.v shows that the laws can hold. On top of them the file defines the monad in which the store's methods run: a
    committed disk state, transactions that commit or roll back, and a trace of
    storage faults chosen by the environment. *)

From S2P Require Import Prelude Text Net Record.

(** ** Errors (src/store/src/error.rs) *)

Inductive StoreError : Type :=
  | Redb (msg : rstr)
  | Transaction (msg : rstr)
  | Table (msg : rstr)
  | Storage (msg : rstr)
  | Commit (msg : rstr)
  | Database (msg : rstr)
  | Io (msg : rstr)
  | Encode (msg : rstr)
  | Decode (msg : rstr).

#[global] Instance StoreError_eq_dec : EqDecision StoreError.
Proof. solve_decision. Defined.

(** [redb::DatabaseError], as far as the store tells its variants apart. *)
Inductive DatabaseError : Type :=
  | UpgradeRequired (v : Z)
  | RepairAborted
  | OtherDatabaseError (msg : rstr).

(** ** The [redb] operations *)

Class RedbApi : Type := {
  (** A table from byte strings to byte strings. *)
  table : Type;
  t_empty : table;
  t_get : bytes → table → option bytes;
  t_insert : bytes → bytes → table → table;
  t_remove : bytes → table → table;
  t_iter : table → list (bytes * bytes);
  (** A multimap table from [i64] to sets of byte strings. *)
  mtable : Type;
  m_empty : mtable;
  m_get : Z → mtable → list bytes;
  m_insert : Z → bytes → mtable → mtable;
  m_remove : Z → bytes → mtable → mtable;
  m_range_to : Z → mtable → list (Z * list bytes);
  (** The key/value table of small blobs. *)
  kvtable : Type;
  kv_empty : kvtable;
  kv_get : rstr → kvtable → option bytes;
  kv_insert : rstr → bytes → kvtable → kvtable;
}.

(** A table is a finite map; a multimap lists, for every key with a value, the key once and in
    ascending order with its distinct values. *)
Class RedbLaws `{RedbApi} : Prop := {
  t_get_empty k : t_get k t_empty = None;
  t_get_insert k k' v t : t_get k' (t_insert k v t) = if decide (k = k') then Some v else t_get k' t;
  t_get_remove k k' t : t_get k' (t_remove k t) = if decide (k = k') then None else t_get k' t;
  t_iter_spec k v t : (k, v) ∈ t_iter t ↔ t_get k t = Some v;
  t_iter_nodup t : NoDup (t_iter t).*1;
  m_get_empty a : m_get a m_empty = [];
  m_get_insert a a' k k' m : k' ∈ m_get a' (m_insert a k m) ↔ (a = a' ∧ k = k') ∨ k' ∈ m_get a' m;
  m_get_remove a a' k k' m : k' ∈ m_get a' (m_remove a k m) ↔ k' ∈ m_get a' m ∧ ¬ (a = a' ∧ k = k');
  m_get_nodup a m : NoDup (m_get a m);
  m_range_spec a vs c m : (a, vs) ∈ m_range_to c m ↔ a ≤ c ∧ vs = m_get a m ∧ vs ≠ [];
  m_range_sorted c m : StronglySorted (λ p q, p.1 < q.1) (m_range_to c m);
  kv_get_insert k k' v t : kv_get k' (kv_insert k v t) = if decide (k = k') then Some v else kv_get k' t;
}.

(** ** The [bincode] codec *)

Class Bincode : Type := {
  bincode_encode_key : NetAddress → rstr + bytes;
  bincode_encode : PeerRecord → rstr + bytes;
  bincode_decode : bytes → rstr + PeerRecord;
}.

(** What is written can be read back, and two addresses never share a key. *)
Class BincodeLaws `{Bincode} : Prop := {
  bincode_roundtrip r b : bincode_encode r = inr b → bincode_decode b = inr r;
  bincode_key_inj a a' k : bincode_encode_key a = inr k → bincode_encode_key a' = inr k → a = a';
}.

(** ** The disk and the monad *)

(** The environment's answers to the storage calls still to come: [Some msg] is an error, [None] and
    the end of the list are success. *)
Abbreviation Faults := (list (option rstr)) (only parsing).

Section disk.
Context `{RedbApi}.

(** The committed contents: the tables [PEERS], [ATTEMPT_IDX] and [KV]. *)
Record Disk : Type := mkDisk { peers : table; attempt_idx : mtable; kv : kvtable }.

Record World : Type := mkWorld { disk : Disk; faults : Faults }.

Definition DB (A : Type) : Type := World → outcome StoreError A * World.

#[global] Instance DB_ret : MRet DB := λ A a w, (Ok a, w).
#[global] Instance DB_bind : MBind DB := λ A B f c w,
  match c w with
  | (Ok a, w') => f a w'
  | (Err e, w') => (Err e, w')
  | (Panic, w') => (Panic, w')
  end.

(** A pure fallible step inside the monad ([?] on a plain [Result]). *)
Definition lift {A} (o : outcome StoreError A) : DB A := λ w, (o, w).

(** One call into [redb]: it may fail with the error class of its method. *)
Definition redb_call (mk : rstr → StoreError) : DB unit := λ w,
  match faults w with
  | Some msg :: fs => (Err (mk msg), mkWorld (disk w) fs)
  | None :: fs => (Ok tt, mkWorld (disk w) fs)
  | [] => (Ok tt, w)
  end.

Definition get_disk : DB Disk := λ w, (Ok (disk w), w).
Definition put_disk (d : Disk) : DB unit := λ w, (Ok tt, mkWorld d (faults w)).

(** [begin_write] .. [commit]: the body works on the transaction's copy, and any error, a panic
    or a failed commit drops the transaction and with it every change. *)
Definition write_txn {A} (body : DB A) : DB A := λ w,
  match (redb_call Transaction ≫= λ _, body ≫= λ a, redb_call Commit ≫= λ _, mret a) w with
  | (Ok a, w') => (Ok a, w')
  | (o, w') => (o, mkWorld (disk w) (faults w'))
  end.

(** [begin_read]: a snapshot; the bodies below only read. *)
Definition read_txn {A} (body : DB A) : DB A := redb_call Transaction ≫= λ _, body.

(** [open_table] / [open_multimap_table]. *)
Definition open_table : DB unit := redb_call Table.

(** Table operations on the current transaction's copy. *)
Definition table_get (k : bytes) : DB (option bytes) :=
  redb_call Storage ≫= λ _, d ← get_disk; mret (t_get k (peers d)).
Definition table_insert (k v : bytes) : DB unit :=
  redb_call Storage ≫= λ _, d ← get_disk; put_disk (mkDisk (t_insert k v (peers d)) (attempt_idx d) (kv d)).
Definition table_remove (k : bytes) : DB (option bytes) :=
  redb_call Storage ≫= λ _, d ← get_disk;
  put_disk (mkDisk (t_remove k (peers d)) (attempt_idx d) (kv d)) ≫= λ _, mret (t_get k (peers d)).
Definition idx_insert (a : Z) (k : bytes) : DB unit :=
  redb_call Storage ≫= λ _, d ← get_disk; put_disk (mkDisk (peers d) (m_insert a k (attempt_idx d)) (kv d)).
Definition idx_remove (a : Z) (k : bytes) : DB unit :=
  redb_call Storage ≫= λ _, d ← get_disk; put_disk (mkDisk (peers d) (m_remove a k (attempt_idx d)) (kv d)).

(** A call whose error is logged and replaced by a default. *)
Definition or_log {A} (c : DB A) (a : A) : DB A := λ w,
  match c w with
  | (Err _, w') => (Ok a, w')
  | r => r
  end.

(** A call whose [Result] the caller matches on. *)
Definition catch {A} (c : DB A) : DB (StoreError + A) := λ w,
  match c w with
  | (Ok a, w') => (Ok (inr a), w')
  | (Err e, w') => (Ok (inl e), w')
  | (Panic, w') => (Panic, w')
  end.

(** [for entry in t.iter()? { let (k, v) = entry?; .. }] as a fold over the rows. *)
Fixpoint for_each {A B} (f : B → A → DB B) (acc : B) (l : list A) : DB B :=
  match l with
  | [] => mret acc
  | x :: l' => redb_call Storage ≫= λ _, f acc x ≫= λ acc', for_each f acc' l'
  end.
(** A plain Rust [for] over an in-memory list. *)
Fixpoint for_in {A B} (f : B → A → DB B) (acc : B) (l : list A) : DB B :=
  match l with
  | [] => mret acc
  | x :: l' => f acc x ≫= λ acc', for_in f acc' l'
  end.
End disk.

(** ** A program logic for the monad

    [triple d c E Q]: from disk [d], whatever the environment's answers, [c] does not panic; if it
    returns, [Q] holds of the result and the disk; if it fails although no storage call
    failed, the error is one of [E]. [atomic] adds that a failed call leaves the disk as it was. *)

Definition quiet (fs : Faults) : Prop := Forall (λ f, f = None) fs.

Section logic.
Context `{RedbApi}.

Definition triple {A} (d : Disk) (c : DB A) (E : StoreError → Prop) (Q : A → Disk → Prop) : Prop :=
  ∀ fs, match c (mkWorld d fs) with
        | (Ok a, w') => Q a (disk w') ∧ (quiet fs → quiet (faults w'))
        | (Err e, w') => quiet fs → E e ∧ quiet (faults w')
        | (Panic, _) => False
        end.

Definition atomic {A} (d : Disk) (c : DB A) (E : StoreError → Prop) (Q : A → Disk → Prop) : Prop :=
  ∀ fs, match c (mkWorld d fs) with
        | (Ok a, w') => Q a (disk w') ∧ (quiet fs → quiet (faults w'))
        | (Err e, w') => disk w' = d ∧ (quiet fs → E e ∧ quiet (faults w'))
        | (Panic, _) => False
        end.

Lemma triple_ret {A} d (a : A) E (Q : A → Disk → Prop) : Q a d → triple d (mret a) E Q.
Proof. intros HQ fs. by split. Qed.

Lemma triple_bind {A B} d (c : DB A) (f : A → DB B) E R Q :
  triple d c E R → (∀ a d', R a d' → triple d' (f a) E Q) → triple d (c ≫= f) E Q.
Proof.
  intros Hc Hf fs. specialize (Hc fs). unfold mbind, DB_bind.
  destruct (c (mkWorld d fs)) as [[a|e|] [d' fs']]; cbn in Hc; [|done..].
  destruct Hc as [HR Hq]. specialize (Hf a d' HR fs').
  destruct (f a (mkWorld d' fs')) as [[b|e|] w]; naive_solver.
Qed.

Lemma triple_mono {A} d (c : DB A) E (Q Q' : A → Disk → Prop) :
  triple d c E Q → (∀ a d', Q a d' → Q' a d') → triple d c E Q'.
Proof. intros Hc HQ fs. specialize (Hc fs). destruct (c _) as [[]]; naive_solver. Qed.

Lemma redb_call_cases mk d fs :
  (∃ msg fs', fs = Some msg :: fs' ∧ redb_call mk (mkWorld d fs) = (Err (mk msg), mkWorld d fs')) ∨
  (∃ fs', redb_call mk (mkWorld d fs) = (Ok tt, mkWorld d fs') ∧ (quiet fs → quiet fs')).
Proof.
  unfold redb_call, quiet. cbn. destruct fs as [|[msg|] fs]; [right; eauto|left; eauto|right].
  eexists. split; [done|]. by intros [_ ?]%Forall_cons.
Qed.

Lemma triple_redb_call mk d E : triple d (redb_call mk) E (λ _ d', d' = d).
Proof.
  intros fs. destruct (redb_call_cases mk d fs) as [(msg & fs' & -> & ->)|(fs' & -> & Hq)]; [|by split].
  by intros [? _]%Forall_cons.
Qed.

(** Symbolic-execution rules: one per storage operation, applied to [op ≫= rest]. *)
Lemma triple_call {B} mk d (f : unit → DB B) E Q :
  triple d (f tt) E Q → triple d (redb_call mk ≫= f) E Q.
Proof. intros Hf. eapply triple_bind; [apply triple_redb_call|]. by intros [] d' ->. Qed.

Lemma triple_open {B} d (f : unit → DB B) E Q : triple d (f tt) E Q → triple d (open_table ≫= f) E Q.
Proof. apply triple_call. Qed.

Lemma triple_get_disk {B} d (f : Disk → DB B) E Q : triple d (f d) E Q → triple d (get_disk ≫= f) E Q.
Proof. intros Hf. exact Hf. Qed.

Lemma triple_put_disk {B} d d' (f : unit → DB B) E Q :
  triple d' (f tt) E Q → triple d (put_disk d' ≫= f) E Q.
Proof. intros Hf fs. exact (Hf fs). Qed.

Lemma triple_bind_bind {A B C} d (c : DB A) (f : A → DB B) (g : B → DB C) E Q :
  triple d (c ≫= λ a, f a ≫= g) E Q → triple d ((c ≫= f) ≫= g) E Q.
Proof.
  intros Hc fs. specialize (Hc fs). unfold mbind, DB_bind in *.
  destruct (c (mkWorld d fs)) as [[] w]; naive_solver.
Qed.

Lemma triple_lift_ok {A B} d (a : A) (f : A → DB B) E Q :
  triple d (f a) E Q → triple d (lift (Ok a) ≫= f) E Q.
Proof. intros Hf. exact Hf. Qed.

Lemma triple_ret_bind {A B} d (a : A) (f : A → DB B) E Q :
  triple d (f a) E Q → triple d (mret a ≫= f) E Q.
Proof. intros Hf. exact Hf. Qed.

Lemma triple_lift_err {A B} d e (f : A → DB B) (E : StoreError → Prop) Q :
  E e → triple d (lift (Err e) ≫= f) E Q.
Proof. intros He fs Hq. by split. Qed.

Lemma triple_table_get {B} k d (f : option bytes → DB B) E Q :
  triple d (f (t_get k (peers d))) E Q → triple d (table_get k ≫= f) E Q.
Proof. intros Hf. apply triple_bind_bind, triple_call. exact Hf. Qed.

Lemma triple_table_insert {B} k v d (f : unit → DB B) E Q :
  triple (mkDisk (t_insert k v (peers d)) (attempt_idx d) (kv d)) (f tt) E Q →
  triple d (table_insert k v ≫= f) E Q.
Proof. intros Hf. apply triple_bind_bind, triple_call. exact Hf. Qed.

Lemma triple_table_remove {B} k d (f : option bytes → DB B) E Q :
  triple (mkDisk (t_remove k (peers d)) (attempt_idx d) (kv d)) (f (t_get k (peers d))) E Q →
  triple d (table_remove k ≫= f) E Q.
Proof. intros Hf. apply triple_bind_bind, triple_call. exact Hf. Qed.

Lemma triple_idx_insert {B} a k d (f : unit → DB B) E Q :
  triple (mkDisk (peers d) (m_insert a k (attempt_idx d)) (kv d)) (f tt) E Q →
  triple d (idx_insert a k ≫= f) E Q.
Proof. intros Hf. apply triple_bind_bind, triple_call. exact Hf. Qed.

Lemma triple_idx_remove {B} a k d (f : unit → DB B) E Q :
  triple (mkDisk (peers d) (m_remove a k (attempt_idx d)) (kv d)) (f tt) E Q →
  triple d (idx_remove a k ≫= f) E Q.
Proof. intros Hf. apply triple_bind_bind, triple_call. exact Hf. Qed.

(** Loops, by an invariant over the accumulator and the rows still to come. *)
Lemma triple_for_each {A B} (I : B → list A → Disk → Prop) (f : B → A → DB B) E l acc d :
  (∀ acc x l' d, I acc (x :: l') d → triple d (f acc x) E (λ acc' d', I acc' l' d')) →
  I acc l d → triple d (for_each f acc l) E (λ acc' d', I acc' [] d').
Proof.
  intros Hf. revert acc d. induction l as [|x l IH]; intros acc d HI; cbn [for_each].
  - by apply triple_ret.
  - apply triple_call. eapply triple_bind; [by apply Hf|]. intros acc' d' HI'. by apply IH.
Qed.

Lemma triple_for_in {A B} (I : B → list A → Disk → Prop) (f : B → A → DB B) E l acc d :
  (∀ acc x l' d, I acc (x :: l') d → triple d (f acc x) E (λ acc' d', I acc' l' d')) →
  I acc l d → triple d (for_in f acc l) E (λ acc' d', I acc' [] d').
Proof.
  intros Hf. revert acc d. induction l as [|x l IH]; intros acc d HI; cbn [for_in].
  - by apply triple_ret.
  - eapply triple_bind; [by apply Hf|]. intros acc' d' HI'. by apply IH.
Qed.

(** A write transaction is all or nothing. *)
Lemma atomic_write_txn {A} d (body : DB A) E Q : triple d body E Q → atomic d (write_txn body) E Q.
Proof.
  intros Hb fs. unfold write_txn.
  assert (Ht : triple d (redb_call Transaction ≫= λ _, body ≫= λ a, redb_call Commit ≫= λ _, mret a) E Q).
  { apply triple_call. eapply triple_bind; [done|]. intros a d' HQ. apply triple_call. by apply triple_ret. }
  specialize (Ht fs). revert Ht.
  generalize ((redb_call Transaction ≫= λ _, body ≫= λ a, redb_call Commit ≫= λ _, mret a) (mkWorld d fs)).
  intros [[] w]; naive_solver.
Qed.

Definition readonly {A} (c : DB A) : Prop := ∀ w, disk (c w).2 = disk w.

Lemma atomic_readonly {A} d (c : DB A) E Q : readonly c → triple d c E Q → atomic d c E Q.
Proof.
  intros Hr Ht fs. specialize (Ht fs). pose proof (Hr (mkWorld d fs)) as Hd.
  destruct (c (mkWorld d fs)) as [[] w]; naive_solver.
Qed.

Lemma readonly_ret {A} (a : A) : readonly (mret a).
Proof. by intros w. Qed.
Lemma readonly_lift {A} (o : outcome StoreError A) : readonly (lift o).
Proof. by intros w. Qed.
Lemma readonly_get_disk : readonly get_disk.
Proof. by intros w. Qed.
Lemma readonly_call mk : readonly (redb_call mk).
Proof. intros w. unfold redb_call. by repeat case_match. Qed.
Lemma readonly_bind {A B} (c : DB A) (f : A → DB B) :
  readonly c → (∀ a, readonly (f a)) → readonly (c ≫= f).
Proof.
  intros Hc Hf w. specialize (Hc w). unfold mbind, DB_bind.
  destruct (c w) as [[a|e|] w']; cbn in *; [|done..]. by rewrite Hf.
Qed.
Lemma readonly_for_each {A B} (f : B → A → DB B) acc l :
  (∀ acc x, readonly (f acc x)) → readonly (for_each f acc l).
Proof.
  intros Hf. revert acc. induction l as [|x l IH]; intros acc; cbn [for_each]; [apply readonly_ret|].
  apply readonly_bind; [apply readonly_call|]. intros _. by apply readonly_bind.
Qed.
Lemma readonly_table_get k : readonly (table_get k).
Proof.
  apply readonly_bind; [apply readonly_call|]. intros _.
  apply readonly_bind; [apply readonly_get_disk|]. intros. apply readonly_ret.
Qed.

Lemma atomic_lift {A B} d (o : outcome StoreError A) (f : A → DB B) (E : StoreError → Prop) Q :
  (∀ a, o = Ok a → atomic d (f a) E Q) → (∀ e, o = Err e → E e) → o ≠ Panic →
  atomic d (lift o ≫= f) E Q.
Proof.
  intros Ha He Hp fs. unfold lift, mbind, DB_bind. destruct o as [a|e|]; [by apply Ha| |done].
  split; [done|]. intros Hq. split; [by apply He|done].
Qed.

Lemma atomic_bind_ret {A B} d (c : DB A) (g : A → B) E Q Q' :
  atomic d c E Q → (∀ a d', Q a d' → Q' (g a) d') → atomic d (c ≫= λ a, mret (g a)) E Q'.
Proof.
  intros Hc HQ fs. specialize (Hc fs). unfold mbind, DB_bind.
  destruct (c (mkWorld d fs)) as [[] w]; naive_solver.
Qed.

Lemma atomic_ret {A} d (a : A) E (Q : A → Disk → Prop) : Q a d → atomic d (mret a) E Q.
Proof. intros HQ fs. by split. Qed.

Lemma atomic_mono {A} d (c : DB A) E (Q Q' : A → Disk → Prop) :
  atomic d c E Q → (∀ a d', Q a d' → Q' a d') → atomic d c E Q'.
Proof. intros Hc HQ fs. specialize (Hc fs). destruct (c _) as [[]]; naive_solver. Qed.

(** A logged call has its effect, or none because a fault or the codec stopped it. *)
Lemma atomic_or_log {A} d (c : DB A) (a : A) E (Q : A → Disk → Prop) fs :
  atomic d c E Q →
  ∃ r w', or_log c a (mkWorld d fs) = (Ok r, w') ∧ (quiet fs → quiet (faults w')) ∧
    (Q r (disk w') ∨ (r = a ∧ disk w' = d ∧ ¬ (quiet fs ∧ ∀ e, ¬ E e))).
Proof.
  intros Hc. specialize (Hc fs). unfold or_log.
  destruct (c (mkWorld d fs)) as [[r|e|] w']; [| |done].
  - exists r, w'. naive_solver.
  - exists a, w'. naive_solver.
Qed.

(** A caught call has its effect, or an error and none. *)
Lemma atomic_catch {A} d (c : DB A) E (Q : A → Disk → Prop) fs :
  atomic d c E Q →
  ∃ r w', catch c (mkWorld d fs) = (Ok r, w') ∧ (quiet fs → quiet (faults w')) ∧
    match r with inr a => Q a (disk w') | inl e => disk w' = d ∧ (quiet fs → E e) end.
Proof.
  intros Hc. specialize (Hc fs). unfold catch.
  destruct (c (mkWorld d fs)) as [[r|e|] w']; [| |done].
  - exists (inr r), w'. naive_solver.
  - exists (inl e), w'. naive_solver.
Qed.

(** A query first, then a transaction that uses its answer. *)
Lemma atomic_bind_query {A B} d (c : DB A) (f : A → DB B) E (R : A → Prop) Q :
  atomic d c E (λ a d', R a ∧ d' = d) → (∀ a, R a → atomic d (f a) E Q) → atomic d (c ≫= f) E Q.
Proof.
  intros Hc Hf fs. specialize (Hc fs). unfold mbind, DB_bind.
  destruct (c (mkWorld d fs)) as [[a|e|] [d' fs']]; cbn in Hc; [|done..].
  destruct Hc as [[HR ->] Hq]. specialize (Hf a HR fs').
  destruct (f a (mkWorld d fs')) as [[b|e|] w]; naive_solver.
Qed.

(** Several transactions in a row: [I] is what a failure part-way through leaves behind. *)
Definition guarded {A} (d : Disk) (c : DB A) (E : StoreError → Prop) (I : Disk → Prop) (Q : A → Disk → Prop) : Prop :=
  ∀ fs, match c (mkWorld d fs) with
        | (Ok a, w') => Q a (disk w') ∧ (quiet fs → quiet (faults w'))
        | (Err e, w') => I (disk w') ∧ (quiet fs → E e ∧ quiet (faults w'))
        | (Panic, _) => False
        end.

Lemma guarded_atomic {A} d (c : DB A) E (I : Disk → Prop) Q : I d → atomic d c E Q → guarded d c E I Q.
Proof. intros Hd Hc fs. specialize (Hc fs). destruct (c _) as [[]]; naive_solver. Qed.

Lemma guarded_ret {A} d (a : A) E I (Q : A → Disk → Prop) : Q a d → guarded d (mret a) E I Q.
Proof. intros HQ fs. by split. Qed.

Lemma guarded_bind {A B} d (c : DB A) (f : A → DB B) E I R Q :
  guarded d c E I R → (∀ a d', R a d' → guarded d' (f a) E I Q) → guarded d (c ≫= f) E I Q.
Proof.
  intros Hc Hf fs. specialize (Hc fs). unfold mbind, DB_bind.
  destruct (c (mkWorld d fs)) as [[a|e|] [d' fs']]; cbn in Hc; [|done..].
  destruct Hc as [HR Hq]. specialize (Hf a d' HR fs').
  destruct (f a (mkWorld d' fs')) as [[b|e|] w]; naive_solver.
Qed.

Lemma guarded_put_disk {B} d d' (f : unit → DB B) E I Q :
  guarded d' (f tt) E I Q → guarded d (put_disk d' ≫= f) E I Q.
Proof. intros Hf fs. exact (Hf fs). Qed.

Lemma guarded_mono {A} d (c : DB A) E (I I' : Disk → Prop) Q :
  guarded d c E I Q → (∀ d', I d' → I' d') → guarded d c E I' Q.
Proof. intros Hc HI fs. specialize (Hc fs). destruct (c _) as [[]]; naive_solver. Qed.

Lemma guarded_call {B} mk d (f : unit → DB B) E (I : Disk → Prop) Q :
  I d → guarded d (f tt) E I Q → guarded d (redb_call mk ≫= f) E I Q.
Proof.
  intros Hd Hf. apply (guarded_bind _ _ _ _ _ (λ _ d', d' = d)); [|by intros [] d' ->].
  apply guarded_atomic; [done|]. apply atomic_readonly; [apply readonly_call|apply triple_redb_call].
Qed.
(** A run that returned went through both parts. *)
Lemma db_bind_ok {A B} (c : DB A) (f : A → DB B) w r w' :
  (c ≫= f) w = (Ok r, w') → ∃ a w1, c w = (Ok a, w1) ∧ f a w1 = (Ok r, w').
Proof. unfold mbind, DB_bind. destruct (c w) as [[a|e|] w1]; [|done..]. intros Hf. by exists a, w1. Qed.

End logic.

(** Invert a run that returned. *)
Ltac db_inv :=
  repeat match goal with
  | E : (_ ≫= _) _ = (Ok _, _) |- _ => apply db_bind_ok in E as (? & ? & ? & E)
  | E : mret _ _ = (Ok _, _) |- _ => injection E as ? ?; subst
  | E : lift (or_panic ?o) _ = (Ok _, _) |- _ => destruct o; [injection E as ? ?; subst|discriminate E]
  | E : (match ?x with _ => _ end) _ = (Ok _, _) |- _ => destruct x eqn:?
  end.

Create HintDb readonly discriminated.
#[export] Hint Resolve readonly_ret readonly_lift readonly_get_disk readonly_call readonly_table_get : readonly.

(** Prove that a query never writes: follow its structure. *)
Ltac solve_readonly :=
  repeat first
    [ solve [eauto with readonly] | apply readonly_bind | apply readonly_for_each | intros ? | case_match ].

(** Symbolic execution of a transaction body, one storage call at a time. *)
Ltac db_step :=
  lazymatch goal with
  | |- triple _ (open_table ≫= _) _ _ => apply triple_open
  | |- triple _ (redb_call _ ≫= _) _ _ => apply triple_call
  | |- triple _ (table_get _ ≫= _) _ _ => apply triple_table_get
  | |- triple _ (table_insert _ _ ≫= _) _ _ => apply triple_table_insert
  | |- triple _ (table_remove _ ≫= _) _ _ => apply triple_table_remove
  | |- triple _ (idx_insert _ _ ≫= _) _ _ => apply triple_idx_insert
  | |- triple _ (idx_remove _ _ ≫= _) _ _ => apply triple_idx_remove
  | |- triple _ (get_disk ≫= _) _ _ => apply triple_get_disk
  | |- triple _ (put_disk _ ≫= _) _ _ => apply triple_put_disk
  | |- triple _ (lift (Ok _) ≫= _) _ _ => apply triple_lift_ok
  | |- triple _ (mret _ ≫= _) _ _ => apply triple_ret_bind
  | |- triple _ ((_ ≫= _) ≫= _) _ _ => apply triple_bind_bind
  | |- triple _ (mret _) _ _ => apply triple_ret
  end.
Ltac db_steps := repeat (db_step; cbn [peers attempt_idx kv]).
