(* ===== verification/RedbInstances.v ===== *)
(** * Concrete databases

    Instances of the interfaces of [Redb], [Record] and [Net] over finite maps: they show that the
    laws assumed of the dependencies can hold together, and let the examples and
    witnesses of the development run. *)

From S2P Require Import Prelude Text Net Record Redb.

(** ** Tables as finite maps *)

Definition cm_get (a : Z) (m : gmap Z (gset (list Z))) : gset (list Z) := default ∅ (m !! a).

Definition cm_range (c : Z) (m : gmap Z (gset (list Z))) : list (Z * list (list Z)) :=
  sort_by_key fst
    (filter (λ p, p.1 ≤ c ∧ p.2 ≠ []) ((λ p, (p.1, elements p.2)) <$> map_to_list m)).

#[export] Instance redb_gmap : RedbApi := {|
  table := gmap (list Z) (list Z);
  t_empty := ∅;
  t_get := λ k t, t !! k;
  t_insert := λ k v t, <[k := v]> t;
  t_remove := λ k t, delete k t;
  t_iter := map_to_list;
  mtable := gmap Z (gset (list Z));
  m_empty := ∅;
  m_get := λ a m, elements (cm_get a m);
  m_insert := λ a k m, <[a := {[k]} ∪ cm_get a m]> m;
  m_remove := λ a k m, <[a := cm_get a m ∖ {[k]}]> m;
  m_range_to := cm_range;
  kvtable := gmap (list Z) (list Z);
  kv_empty := ∅;
  kv_get := λ k t, t !! k;
  kv_insert := λ k v t, <[k := v]> t;
|}.

Lemma cm_range_nodup c m : NoDup (cm_range c m).*1.
Proof.
  unfold cm_range. rewrite sort_by_key_perm.
  eapply (sublist_NoDup _ ((λ p : Z * gset (list Z), (p.1, elements p.2)) <$> map_to_list m).*1).
  - rewrite <-list_fmap_compose. apply NoDup_fst_map_to_list.
  - apply fmap_sublist. apply sublist_filter.
Qed.

#[export] Instance redb_gmap_laws : RedbLaws.
Proof.
  split; cbn; intros.
  - apply lookup_empty.
  - apply lookup_insert.
  - apply lookup_delete.
  - apply elem_of_map_to_list.
  - apply NoDup_fst_map_to_list.
  - unfold cm_get. by rewrite lookup_empty.
  - rewrite !elem_of_elements. unfold cm_get.
    destruct (decide (a = a')) as [->|]; simplify_map_eq; set_solver.
  - rewrite !elem_of_elements. unfold cm_get.
    destruct (decide (a = a')) as [->|]; simplify_map_eq; set_solver.
  - apply NoDup_elements.
  - unfold cm_range. rewrite sort_by_key_perm, list_elem_of_filter, list_elem_of_fmap. cbn.
    split.
    + intros [[Hc Hne] ([a0 s] & [= -> ->] & Hs)]. apply elem_of_map_to_list in Hs.
      unfold cm_get. by rewrite Hs.
    + intros (Hc & -> & Hne). repeat split; [done..|]. unfold cm_get in *.
      destruct (m !! a) as [s|] eqn:E; [|done].
      exists (a, s). split; [done|]. by apply elem_of_map_to_list.
  - pose proof (cm_range_nodup c m) as Hnd. unfold cm_range in *.
    pose proof (sort_by_key_sorted fst (filter (λ p : Z * list (list Z), p.1 ≤ c ∧ p.2 ≠ [])
      ((λ p, (p.1, elements p.2)) <$> map_to_list m))) as Hs.
    revert Hnd Hs. generalize (sort_by_key fst (filter (λ p : Z * list (list Z), p.1 ≤ c ∧ p.2 ≠ [])
      ((λ p, (p.1, elements p.2)) <$> map_to_list m))) as l.
    induction l as [|x l IH]; [constructor|]. rewrite fmap_cons, NoDup_cons. intros [Hx Hnd] Hs.
    apply StronglySorted_cons in Hs as [Hxl Hs]. constructor; [by apply IH|].
    rewrite Forall_forall in Hxl |- *. intros y Hy. specialize (Hxl y Hy). unfold key_le in Hxl.
    assert (x.1 ≠ y.1) by (intros Heq; apply Hx; rewrite Heq; by apply list_elem_of_fmap_2). lia.
  - apply lookup_insert.
Qed.

(** ** A codec through the binary digits of an injective numbering *)

Fixpoint pos_bits (p : positive) : list Z :=
  match p with xH => [] | xO p => 0 :: pos_bits p | xI p => 1 :: pos_bits p end.
Fixpoint bits_pos (l : list Z) : option positive :=
  match l with
  | [] => Some xH
  | 0 :: l => xO <$> bits_pos l
  | 1 :: l => xI <$> bits_pos l
  | _ => None
  end.

Lemma bits_pos_bits p : bits_pos (pos_bits p) = Some p.
Proof. induction p as [p IH|p IH|]; cbn; rewrite ?IH; done. Qed.

#[export] Instance bincode_bits : Bincode := {|
  bincode_encode_key := λ a, inr (pos_bits (encode a));
  bincode_encode := λ r, inr (pos_bits (encode r));
  bincode_decode := λ b,
    match bits_pos b ≫= decode with Some r => inr r | None => inl (str "unexpected end") end;
|}.

#[export] Instance bincode_bits_laws : BincodeLaws.
Proof.
  split; cbn.
  - intros r b [= <-]. by rewrite bits_pos_bits; cbn; rewrite decode_encode.
  - intros a a' k [= <-] [= Heq]. apply (f_equal bits_pos) in Heq. rewrite !bits_pos_bits in Heq.
    by simplify_eq.
Qed.

(** ** Versions [major.minor.patch] and addresses *)

(** Digits up to a separator, as a number. *)
Fixpoint parse_dec (acc : Z) (s : rstr) : option Z :=
  match s with
  | [] => Some acc
  | c :: s' => d ← to_digit 10 c; parse_dec (acc * 10 + d) s'
  end.
Definition parse_num (s : rstr) : option Z := match s with [] => None | _ => parse_dec 0 s end.

#[export] Instance semver_triple : Semver := {|
  Version := Z * Z * Z;
  major := λ v, v.1.1;
  minor := λ v, v.1.2;
  patch := λ v, v.2;
  version_parse := λ s,
    '(a, r) ← split_once 46 s; '(b, c) ← split_once 46 r;
    x ← parse_num a; y ← parse_num b; z ← parse_num c; Some (x, y, z);
  version_to_string := λ v,
    u_to_string v.1.1 ++ [46] ++ u_to_string v.1.2 ++ [46] ++ u_to_string v.2;
|}.

(** Everything outside the private and loopback IPv4 blocks counts as routable here. *)
#[export] Instance kaspa_net_std : KaspaNet := {|
  IpAddress := IpAddr;
  ip_address_from := canonicalize_ip;
  ip_address_into := λ a, a;
  is_publicly_routable := λ a,
    match a with
    | V4 b => negb (bool_decide (v4_octet b 0 = 10 ∨ v4_octet b 0 = 127 ∨ v4_octet b 0 = 0))
    | V6 b => bool_decide (1 < b)
    end;
|}.
