(* ===== verification/PeerStore.v ===== *)
(** * The peer store (src/store/src/peer_store.rs)

    Every method of [PeerStore], translated into the database monad of [Redb]: one definition per
    method, its transaction as one [write_txn] or [read_txn], its [?]s in
    the source's order. *)

From S2P Require Import Prelude Text Net Record Redb.

(** ** Predicates on records *)

(** [is_dead]. *)
Definition is_dead (rec : PeerRecord) (cutoff_ms : Z) : bool :=
  if bool_decide (0 < last_success_ms rec) && bool_decide (last_success_ms rec < cutoff_ms) then true
  else bool_decide (last_seen_ms rec < cutoff_ms) && bool_decide (first_seen_ms rec < cutoff_ms).

(** [good_probe_threshold]: 80% of the window; [None] is the overflow of [* 4]. *)
Definition good_probe_threshold (stale_good_ms : Z) : option Z :=
  x ← i64_mul stale_good_ms 4; Some (Z.quot x 5).

(** [is_eligible_for_probe]. *)
Definition is_eligible_for_probe (rec : PeerRecord) (now stale_good stale_bad dead_cutoff : Z) : option bool :=
  if is_dead rec dead_cutoff then Some false
  else
    let since_attempt := i64_saturating_sub now (last_attempt_ms rec) in
    threshold ← (if bool_decide (0 < last_success_ms rec) then good_probe_threshold stale_good else Some stale_bad);
    Some (bool_decide (threshold ≤ since_attempt)).

(** [is_incompatible_db]. *)
Definition is_incompatible_db (err : DatabaseError) : bool :=
  match err with UpgradeRequired _ | RepairAborted => true | OtherDatabaseError _ => false end.

(** The record [record_attempt] creates for an unknown address. *)
Definition attempt_stub (addr : NetAddress) (now : Z) : PeerRecord :=
  mkPeerRecord addr UNKNOWN_PEER_ID 0 [] None 0 now 0 now 0.
(** The record [insert_or_refresh_seen_batch] creates for an unknown address. *)
Definition seen_stub (addr : NetAddress) (now : Z) : PeerRecord :=
  mkPeerRecord addr UNKNOWN_PEER_ID 0 [] None 0 now now 0 0.

(** ** The aggregate snapshot *)

Record StoreSummary : Type := mkSummary {
  total : Z; good : Z; filtered : Z; stale : Z; failed : Z; stub : Z;
  v4 : Z; v6 : Z; avg_success_age_ms : Z;
}.
Definition summary_default : StoreSummary := mkSummary 0 0 0 0 0 0 0 0 0.

(** [s.field += 1]. *)
Definition inc_total (s : StoreSummary) : StoreSummary :=
  mkSummary (total s + 1) (good s) (filtered s) (stale s) (failed s) (stub s) (v4 s) (v6 s) (avg_success_age_ms s).
Definition inc_good (s : StoreSummary) : StoreSummary :=
  mkSummary (total s) (good s + 1) (filtered s) (stale s) (failed s) (stub s) (v4 s) (v6 s) (avg_success_age_ms s).
Definition inc_filtered (s : StoreSummary) : StoreSummary :=
  mkSummary (total s) (good s) (filtered s + 1) (stale s) (failed s) (stub s) (v4 s) (v6 s) (avg_success_age_ms s).
Definition inc_stale (s : StoreSummary) : StoreSummary :=
  mkSummary (total s) (good s) (filtered s) (stale s + 1) (failed s) (stub s) (v4 s) (v6 s) (avg_success_age_ms s).
Definition inc_failed (s : StoreSummary) : StoreSummary :=
  mkSummary (total s) (good s) (filtered s) (stale s) (failed s + 1) (stub s) (v4 s) (v6 s) (avg_success_age_ms s).
Definition inc_stub (s : StoreSummary) : StoreSummary :=
  mkSummary (total s) (good s) (filtered s) (stale s) (failed s) (stub s + 1) (v4 s) (v6 s) (avg_success_age_ms s).
Definition inc_v4 (s : StoreSummary) : StoreSummary :=
  mkSummary (total s) (good s) (filtered s) (stale s) (failed s) (stub s) (v4 s + 1) (v6 s) (avg_success_age_ms s).
Definition inc_v6 (s : StoreSummary) : StoreSummary :=
  mkSummary (total s) (good s) (filtered s) (stale s) (failed s) (stub s) (v4 s) (v6 s + 1) (avg_success_age_ms s).

(** The loop state of [summary]: the counters, [sum_age_ms] and [raw_good]. *)
Record SummaryAcc : Type := mkAcc { acc_s : StoreSummary; sum_age_ms : Z; raw_good : Z }.

(** Creating or opening the database file is a [redb] call on the file system. *)
Class RedbFile `{RedbApi} : Type := {
  dbfile : Type;
  no_file : dbfile;
  redb_create : dbfile → DatabaseError + Disk;
  database_error_msg : DatabaseError → rstr;
}.

Section store.
Context `{RedbApi} `{Bincode} `{Semver}.

(** ** Codecs *)

Definition encode_record (rec : PeerRecord) : outcome StoreError bytes :=
  match bincode_encode rec with inr b => Ok b | inl e => Err (Encode e) end.
Definition decode_record (b : bytes) : outcome StoreError PeerRecord :=
  match bincode_decode b with inr r => Ok r | inl e => Err (Decode e) end.
Definition encode_key (addr : NetAddress) : outcome StoreError bytes :=
  match bincode_encode_key addr with inr b => Ok b | inl e => Err (Encode e) end.

(** ** Single-row operations *)

(** [upsert]. *)
Definition upsert (rec : PeerRecord) : DB unit :=
  key ← lift (encode_key (address rec));
  bs ← lift (encode_record rec);
  write_txn (
    open_table ≫= λ _, open_table ≫= λ _,
    old ← table_get key;
    match old with
    | Some v =>
        match decode_record v with
        | Ok old_rec =>
            if decide (last_attempt_ms old_rec ≠ last_attempt_ms rec)
            then idx_remove (last_attempt_ms old_rec) key else mret tt
        | _ => mret tt
        end
    | None => mret tt
    end ≫= λ _,
    table_insert key bs ≫= λ _,
    idx_insert (last_attempt_ms rec) key ≫= λ _, mret tt).

(** [get]. *)
Definition get (addr : NetAddress) : DB (option PeerRecord) :=
  key ← lift (encode_key addr);
  read_txn (
    open_table ≫= λ _,
    v ← table_get key;
    match v with
    | Some v => rec ← lift (decode_record v); mret (Some rec)
    | None => mret None
    end).

(** [delete]. *)
Definition delete (addr : NetAddress) : DB bool :=
  key ← lift (encode_key addr);
  write_txn (
    open_table ≫= λ _, open_table ≫= λ _,
    v ← table_remove key;
    match v with
    | Some v =>
        match decode_record v with
        | Ok old_rec => idx_remove (last_attempt_ms old_rec) key
        | _ => mret tt
        end ≫= λ _, mret true
    | None => mret false
    end).

(** [record_attempt]. *)
Definition record_attempt (addr : NetAddress) (now : Z) : DB PeerRecord :=
  key ← lift (encode_key addr);
  write_txn (
    open_table ≫= λ _, open_table ≫= λ _,
    v ← table_get key;
    '(rec, old_attempt) ←
      match v with
      | Some v => r ← lift (decode_record v); mret (r, Some (last_attempt_ms r))
      | None => mret (attempt_stub addr now, None)
      end;
    let rec := set_last_attempt now rec in
    bs ← lift (encode_record rec);
    table_insert key bs ≫= λ _,
    match old_attempt with
    | Some prev => if decide (prev ≠ now) then idx_remove prev key else mret tt
    | None => mret tt
    end ≫= λ _,
    idx_insert now key ≫= λ _, mret rec).

(** The loop body of [insert_or_refresh_seen_batch]. *)
Definition seen_one (now inserted : Z) (addr : NetAddress) : DB Z :=
  key ← lift (encode_key addr);
  v ← table_get key;
  existing ← match v with
             | Some v => r ← lift (decode_record v); mret (Some r)
             | None => mret None
             end;
  match existing with
  | Some rec =>
      bs ← lift (encode_record (set_last_seen now rec));
      table_insert key bs ≫= λ _, mret inserted
  | None =>
      bs ← lift (encode_record (seen_stub addr now));
      table_insert key bs ≫= λ _,
      idx_insert 0 key ≫= λ _, mret (inserted + 1)
  end.

(** [insert_or_refresh_seen_batch]. *)
Definition insert_or_refresh_seen_batch (addrs : list NetAddress) (now : Z) : DB Z :=
  if decide (addrs = []) then mret 0
  else write_txn (open_table ≫= λ _, open_table ≫= λ _, for_in (seen_one now) 0 addrs).

(** [insert_or_refresh_seen]. *)
Definition insert_or_refresh_seen (addr : NetAddress) (now : Z) : DB bool :=
  n ← insert_or_refresh_seen_batch [addr] now; mret (bool_decide (n = 1)).

(** ** Whole-table operations *)

(** The rows of [PEERS] in the current transaction ([t.iter()?]). *)
Definition iter_rows : DB (list (bytes * bytes)) :=
  redb_call Storage ≫= λ _, d ← get_disk; mret (t_iter (peers d)).

(** [len] and [is_empty]. *)
Definition len : DB Z :=
  read_txn (open_table ≫= λ _, redb_call Storage ≫= λ _,
            d ← get_disk; mret (Z.of_nat (length (t_iter (peers d))))).
Definition is_empty : DB bool := n ← len; mret (bool_decide (n = 0)).

(** [collect_matching]: undecodable rows are logged and skipped. *)
Definition collect_matching (f : Filter) : DB (list PeerRecord) :=
  read_txn (
    open_table ≫= λ _,
    rows ← iter_rows;
    for_each (λ out kv,
      match decode_record kv.2 with
      | Ok rec => m ← lift (or_panic (matches f rec)); mret (if (m : bool) then out ++ [rec] else out)
      | _ => mret out
      end) [] rows).

(** [prune_dead]: scan and delete in one transaction; the number of rows deleted. *)
Definition prune_dead (cutoff_ms : Z) : DB Z :=
  write_txn (
    open_table ≫= λ _, open_table ≫= λ _,
    rows ← iter_rows;
    to_delete ← for_each (λ acc kv,
        mret match decode_record kv.2 with
             | Ok rec => if is_dead rec cutoff_ms then acc ++ [(kv.1, last_attempt_ms rec)] else acc
             | _ => acc
             end) [] rows;
    for_in (λ _ ka, table_remove ka.1 ≫= λ _, idx_remove ka.2 ka.1) tt to_delete ≫= λ _,
    mret (Z.of_nat (length to_delete))).

(** One row of [summary]. *)
Definition summary_row (now stale_good : Z) (validity : option Filter) (acc : SummaryAcc) (rec : PeerRecord)
    : SummaryAcc :=
  let s := inc_total (acc_s acc) in
  if decide (last_success_ms rec ≤ 0) then
    if decide (last_attempt_ms rec ≤ 0)
    then mkAcc (inc_stub s) (sum_age_ms acc) (raw_good acc)
    else mkAcc (inc_failed s) (sum_age_ms acc) (raw_good acc)
  else
    let age := i64_saturating_sub now (last_success_ms rec) in
    if decide (age ≤ stale_good) then
      let s := match ip (address rec) with V4 _ => inc_v4 s | V6 _ => inc_v6 s end in
      let sum := if decide (0 < age) then sum_age_ms acc + age else sum_age_ms acc in
      let passes := match validity with Some f => passes_validity f rec | None => true end in
      let s := if (passes : bool) then inc_good s else inc_filtered s in
      mkAcc s sum (raw_good acc + 1)
    else mkAcc (inc_stale s) (sum_age_ms acc) (raw_good acc).

(** The average at the end of [summary]. *)
Definition summary_finish (acc : SummaryAcc) : StoreSummary :=
  let s := acc_s acc in
  if decide (0 < raw_good acc)
  then mkSummary (total s) (good s) (filtered s) (stale s) (failed s) (stub s) (v4 s) (v6 s)
         (try_from_or U64_MAX (sum_age_ms acc / raw_good acc))
  else s.

(** [summary]. *)
Definition summary (now stale_good : Z) (validity : option Filter) : DB StoreSummary :=
  read_txn (
    open_table ≫= λ _,
    rows ← iter_rows;
    acc ← for_each (λ acc kv,
        mret match decode_record kv.2 with
             | Ok rec => summary_row now stale_good validity acc rec
             | _ => acc
             end) (mkAcc summary_default 0 0) rows;
    mret (summary_finish acc)).

(** ** The probe queue *)

Section due.
Context (now stale_good stale_bad dead_cutoff max : Z).

(** The inner loop of [due_for_probe]: the flag is [break 'outer]. *)
Fixpoint due_values (vs : list bytes) (out : list PeerRecord) : DB (list PeerRecord * bool) :=
  match vs with
  | [] => mret (out, false)
  | k :: vs' =>
      redb_call Storage ≫= λ _,
      rec_bytes ← table_get k;
      match rec_bytes with
      | None => due_values vs' out
      | Some b =>
          match decode_record b with
          | Ok rec =>
              ok ← lift (or_panic (is_eligible_for_probe rec now stale_good stale_bad dead_cutoff));
              if negb ok then due_values vs' out
              else
                let out' := out ++ [rec] in
                if decide (max ≤ Z.of_nat (length out')) then mret (out', true) else due_values vs' out'
          | _ => due_values vs' out
          end
      end
  end.

(** The outer loop. *)
Fixpoint due_entries (es : list (Z * list bytes)) (out : list PeerRecord) : DB (list PeerRecord) :=
  match es with
  | [] => mret out
  | (_, vs) :: es' =>
      redb_call Storage ≫= λ _,
      '(out', stop) ← due_values vs out;
      if (stop : bool) then mret out' else due_entries es' out'
  end.

(** [due_for_probe]. *)
Definition due_for_probe : DB (list PeerRecord) :=
  if decide (max = 0) then mret []
  else
    threshold ← lift (or_panic (good_probe_threshold stale_good));
    let attempt_ceiling := i64_saturating_sub now (Z.min threshold stale_bad) in
    read_txn (
      open_table ≫= λ _, open_table ≫= λ _,
      redb_call Storage ≫= λ _,
      d ← get_disk;
      due_entries (m_range_to attempt_ceiling (attempt_idx d)) []).
End due.

(** ** Blobs *)

Definition get_blob (key : rstr) : DB (option bytes) :=
  read_txn (open_table ≫= λ _, redb_call Storage ≫= λ _, d ← get_disk; mret (kv_get key (kv d))).
Definition put_blob (key : rstr) (value : bytes) : DB unit :=
  write_txn (open_table ≫= λ _, redb_call Storage ≫= λ _,
             d ← get_disk; put_disk (mkDisk (peers d) (attempt_idx d) (kv_insert key value (kv d)))).

(** ** Opening *)

(** [purge_undecodable]. *)
Definition purge_undecodable : DB Z :=
  to_delete ← read_txn (
    open_table ≫= λ _,
    rows ← iter_rows;
    for_each (λ acc kv, mret match decode_record kv.2 with Ok _ => acc | _ => acc ++ [kv.1] end) [] rows);
  if decide (to_delete = []) then mret 0
  else
    write_txn (
      open_table ≫= λ _,
      for_in (λ _ k, table_remove k ≫= λ _, mret tt) tt to_delete) ≫= λ _,
    mret (Z.of_nat (length to_delete)).

(** [rebuild_attempt_index]. *)
Definition rebuild_attempt_index : DB Z :=
  write_txn (
    redb_call Table ≫= λ _, d ← get_disk;
    put_disk (mkDisk (peers d) m_empty (kv d)) ≫= λ _,
    open_table ≫= λ _, open_table ≫= λ _,
    rows ← iter_rows;
    for_each (λ count kv,
      match decode_record kv.2 with
      | Ok rec => idx_insert (last_attempt_ms rec) kv.1 ≫= λ _, mret (count + 1)
      | _ => mret count
      end) 0 rows).

(** [open]: an incompatible file is wiped and recreated. *)
Definition open `{!RedbFile} (has_parent : bool) (file : dbfile) : DB unit :=
  (if has_parent then redb_call Io else mret tt) ≫= λ _,
  db ← match redb_create file with
       | inr d => mret d
       | inl err =>
           if is_incompatible_db err then
             redb_call Io ≫= λ _,
             match redb_create no_file with
             | inr d => mret d
             | inl err' => lift (Err (Database (database_error_msg err')))
             end
           else lift (Err (Database (database_error_msg err)))
       end;
  put_disk db ≫= λ _,
  write_txn (open_table ≫= λ _, open_table ≫= λ _, open_table) ≫= λ _,
  purge_undecodable ≫= λ _,
  rebuild_attempt_index ≫= λ _,
  mret tt.
End store.
