(* ===== verification/StoreSpec.v ===== *)
(** * The peer store refines a finite map

    The contract of src/store/src/peer_store.rs, stated over a finite map from
    addresses to records: [repr d m] relates the disk to that map, and every method of the
    store is shown to act on the disk as its specification acts on the map, to keep the attempt
    index in lock-step with the rows, and to change nothing when it fails. *)

From S2P Require Import Prelude Text Net Record Redb PeerStore.

(** ** The abstract store *)

Abbreviation Peers := (gmap NetAddress PeerRecord) (only parsing).

Definition spec_record_attempt (addr : NetAddress) (now : Z) (m : gmap NetAddress PeerRecord) : PeerRecord :=
  match m !! addr with
  | Some r => set_last_attempt now r
  | None => attempt_stub addr now
  end.

(** One address of a batch: refreshed when known, inserted as a stub otherwise. *)
Definition spec_seen (now : Z) (st : Z * gmap NetAddress PeerRecord) (addr : NetAddress)
    : Z * gmap NetAddress PeerRecord :=
  match st.2 !! addr with
  | Some r => (st.1, <[addr := set_last_seen now r]> st.2)
  | None => (st.1 + 1, <[addr := seen_stub addr now]> st.2)
  end.

Definition spec_seen_batch (now : Z) (addrs : list NetAddress) (m : gmap NetAddress PeerRecord)
    : Z * gmap NetAddress PeerRecord :=
  foldl (spec_seen now) (0, m) addrs.

Definition spec_prune (cutoff : Z) (m : gmap NetAddress PeerRecord) : gmap NetAddress PeerRecord :=
  filter (λ ar, is_dead ar.2 cutoff = false) m.

(** The stored records, in no particular order. *)
Definition records (m : gmap NetAddress PeerRecord) : list PeerRecord := (map_to_list m).*2.

Section repr.
Context `{RedbApi} `{!RedbLaws} `{Bincode} `{!BincodeLaws} `{Semver}.

(** The errors a method may return although every storage call succeeded: the codec refused a value. *)
Definition enc_err (e : StoreError) : Prop :=
  ∃ msg, e = Encode msg ∧
    ((∃ addr, bincode_encode_key addr = inl msg) ∨ (∃ rec, bincode_encode rec = inl msg)).

(** A codec that refuses no value. *)
Definition codec_total : Prop :=
  (∀ addr, ∃ b, bincode_encode_key addr = inr b) ∧ (∀ rec, ∃ b, bincode_encode rec = inr b).

Lemma codec_total_no_err e : codec_total → ¬ enc_err e.
Proof.
  intros [Hk Hr] (msg & _ & [[a Ha]|[r Hr']]); [destruct (Hk a)|destruct (Hr r)]; congruence.
Qed.

(** No storage call fails and the codec accepts everything. *)
Definition reliable (fs : list (option rstr)) : Prop := quiet fs ∧ codec_total.

Lemma reliable_no_err fs : reliable fs → quiet fs ∧ ∀ e, ¬ enc_err e.
Proof. intros [Hq Hc]. split; [done|]. intros e. by apply codec_total_no_err. Qed.

(** ** The representation relation *)

Record repr (d : Disk) (m : gmap NetAddress PeerRecord) : Prop := {
  repr_row k v : t_get k (peers d) = Some v →
    ∃ rec, encode_key (address rec) = Ok k ∧ decode_record v = Ok rec ∧ m !! address rec = Some rec;
  repr_map addr rec : m !! addr = Some rec →
    address rec = addr ∧ ∃ k v, encode_key addr = Ok k ∧ t_get k (peers d) = Some v ∧ decode_record v = Ok rec;
  repr_idx a k : k ∈ m_get a (attempt_idx d) ↔
    ∃ addr rec, m !! addr = Some rec ∧ encode_key addr = Ok k ∧ last_attempt_ms rec = a;
}.

Lemma encode_key_inj a a' k : encode_key a = Ok k → encode_key a' = Ok k → a = a'.
Proof.
  unfold encode_key. destruct (bincode_encode_key a) eqn:E1, (bincode_encode_key a') eqn:E2; intros; simplify_eq.
  by eapply bincode_key_inj.
Qed.

Lemma encode_decode_record rec b : encode_record rec = Ok b → decode_record b = Ok rec.
Proof.
  unfold encode_record, decode_record. destruct (bincode_encode rec) eqn:E; intros; simplify_eq.
  by rewrite (bincode_roundtrip _ _ E).
Qed.

Lemma encode_key_err a e : encode_key a = Err e → enc_err e.
Proof. unfold encode_key, enc_err. case_match eqn:E; [|done]. intros [= <-]. eauto 10. Qed.
Lemma encode_record_err r e : encode_record r = Err e → enc_err e.
Proof. unfold encode_record, enc_err. case_match eqn:E; [|done]. intros [= <-]. eauto 10. Qed.
Lemma encode_key_panic a : encode_key a ≠ Panic.
Proof. unfold encode_key. by case_match. Qed.
Lemma encode_record_panic r : encode_record r ≠ Panic.
Proof. unfold encode_record. by case_match. Qed.

(** What a lookup finds on disk is what the map holds. *)
Lemma repr_get d m addr k :
  repr d m → encode_key addr = Ok k →
  (t_get k (peers d) = None ∧ m !! addr = None) ∨
  (∃ v rec, t_get k (peers d) = Some v ∧ decode_record v = Ok rec ∧ m !! addr = Some rec ∧ address rec = addr).
Proof.
  intros Hr Hk. destruct (t_get k (peers d)) as [v|] eqn:E.
  - right. destruct (repr_row _ _ Hr _ _ E) as (rec & Hk' & Hd & Hm).
    pose proof (encode_key_inj _ _ _ Hk Hk') as ->. eauto 10.
  - left. split; [done|]. destruct (m !! addr) as [rec|] eqn:Em; [|done].
    destruct (repr_map _ _ Hr _ _ Em) as (_ & k' & v & Hk' & Hv & _). congruence.
Qed.

(** The index after the entries of key [k] were replaced by the one of [o], if any. *)
Definition idx_update (k : bytes) (o : option Z) (i i' : mtable) : Prop :=
  ∀ a k', k' ∈ m_get a i' ↔ (k' = k ∧ o = Some a) ∨ (k' ≠ k ∧ k' ∈ m_get a i).

Lemma repr_insert d m rec k v i' :
  repr d m → encode_key (address rec) = Ok k → decode_record v = Ok rec →
  idx_update k (Some (last_attempt_ms rec)) (attempt_idx d) i' →
  repr (mkDisk (t_insert k v (peers d)) i' (kv d)) (<[address rec := rec]> m).
Proof.
  intros Hr Hk Hd Hi. split; cbn [peers attempt_idx].
  - intros k' v'. rewrite t_get_insert. case_decide as Hkk; [subst k'|].
    + intros [= <-]. exists rec. by rewrite lookup_insert_eq.
    + intros Hv'. destruct (repr_row _ _ Hr _ _ Hv') as (r' & Hk' & Hd' & Hm').
      exists r'. rewrite lookup_insert_ne by congruence. done.
  - intros addr r'. destruct (decide (address rec = addr)) as [<-|Hne].
    + rewrite lookup_insert_eq. intros [= <-]. split; [done|]. exists k, v. rewrite t_get_insert. by case_decide.
    + rewrite lookup_insert_ne by done. intros Hm'.
      destruct (repr_map _ _ Hr _ _ Hm') as (Ha & k' & v' & Hk' & Hv' & Hd').
      split; [done|]. exists k', v'. rewrite t_get_insert, decide_False; [done|].
      intros ->. apply Hne. by eapply encode_key_inj.
  - intros a k'. rewrite (Hi a k'), (repr_idx _ _ Hr). split.
    + intros [[-> [= <-]]|(Hne & addr & r' & Hm' & Hk' & Ha)].
      * exists (address rec), rec. by rewrite lookup_insert_eq.
      * exists addr, r'. rewrite lookup_insert_ne by congruence. done.
    + intros (addr & r' & Hm' & Hk' & Ha). destruct (decide (address rec = addr)) as [<-|Hne].
      * rewrite lookup_insert_eq in Hm'. simplify_eq. left. split; congruence.
      * rewrite lookup_insert_ne in Hm' by done. right. split; [|by eauto 10].
        intros ->. apply Hne. by eapply encode_key_inj.
Qed.

(** The same at an address that is known to be the record's. *)
Lemma repr_insert_at d m addr rec k v i' :
  address rec = addr → repr d m → encode_key addr = Ok k → decode_record v = Ok rec →
  idx_update k (Some (last_attempt_ms rec)) (attempt_idx d) i' →
  repr (mkDisk (t_insert k v (peers d)) i' (kv d)) (<[addr := rec]> m).
Proof. intros <-. apply repr_insert. Qed.

Lemma repr_delete d m addr k i' :
  repr d m → encode_key addr = Ok k → idx_update k None (attempt_idx d) i' →
  repr (mkDisk (t_remove k (peers d)) i' (kv d)) (base.delete addr m).
Proof.
  intros Hr Hk Hi. split; cbn [peers attempt_idx].
  - intros k' v'. rewrite t_get_remove. case_decide as Hkk; [done|]. intros Hv'.
    destruct (repr_row _ _ Hr _ _ Hv') as (r' & Hk' & Hd' & Hm').
    exists r'. rewrite lookup_delete_ne by congruence. done.
  - intros addr' r' [Hne Hm']%lookup_delete_Some.
    destruct (repr_map _ _ Hr _ _ Hm') as (Ha & k' & v' & Hk' & Hv' & Hd').
    split; [done|]. exists k', v'. rewrite t_get_remove, decide_False; [done|].
    intros ->. apply Hne. by eapply encode_key_inj.
  - intros a k'. rewrite (Hi a k'), (repr_idx _ _ Hr). split.
    + intros [[_ [=]]|(Hne & addr' & r' & Hm' & Hk' & Ha)].
      exists addr', r'. rewrite lookup_delete_ne by congruence. done.
    + intros (addr' & r' & [Hne Hm']%lookup_delete_Some & Hk' & Ha). right. split; [|by eauto 10].
      intros ->. apply Hne. by eapply encode_key_inj.
Qed.

(** The index entries of a key: none for an unknown address, exactly one for a stored record. *)
Lemma repr_idx_get d m addr k a :
  repr d m → encode_key addr = Ok k →
  k ∈ m_get a (attempt_idx d) ↔ ∃ rec, m !! addr = Some rec ∧ last_attempt_ms rec = a.
Proof.
  intros Hr Hk. rewrite (repr_idx _ _ Hr). split.
  - intros (addr' & rec & Hm & Hk' & Ha). pose proof (encode_key_inj _ _ _ Hk Hk') as <-. eauto.
  - intros (rec & Hm & Ha). eauto.
Qed.

(** The three ways the store updates the index. *)
Lemma idx_update_insert d m addr k a' :
  repr d m → encode_key addr = Ok k →
  (∀ rec, m !! addr = Some rec → last_attempt_ms rec = a') →
  idx_update k (Some a') (attempt_idx d) (m_insert a' k (attempt_idx d)).
Proof.
  intros Hr Hk Hold a k'. rewrite m_get_insert. destruct (decide (k' = k)) as [->|]; [|naive_solver].
  rewrite (repr_idx_get _ _ _ _ _ Hr Hk). naive_solver.
Qed.

Lemma idx_update_move d m addr k rec a' :
  repr d m → encode_key addr = Ok k → m !! addr = Some rec →
  idx_update k (Some a') (attempt_idx d)
    (m_insert a' k (m_remove (last_attempt_ms rec) k (attempt_idx d))).
Proof.
  intros Hr Hk Hm a k'. rewrite m_get_insert, m_get_remove.
  destruct (decide (k' = k)) as [->|]; [|naive_solver].
  rewrite (repr_idx_get _ _ _ _ _ Hr Hk). naive_solver.
Qed.

Lemma idx_update_same d m addr k rec :
  repr d m → encode_key addr = Ok k → m !! addr = Some rec →
  idx_update k (Some (last_attempt_ms rec)) (attempt_idx d) (attempt_idx d).
Proof.
  intros Hr Hk Hm a k'. destruct (decide (k' = k)) as [->|]; [|naive_solver].
  rewrite (repr_idx_get _ _ _ _ _ Hr Hk). naive_solver.
Qed.

Lemma idx_update_remove d m addr k rec :
  repr d m → encode_key addr = Ok k → m !! addr = Some rec →
  idx_update k None (attempt_idx d) (m_remove (last_attempt_ms rec) k (attempt_idx d)).
Proof.
  intros Hr Hk Hm a k'. rewrite m_get_remove.
  destruct (decide (k' = k)) as [->|]; [|naive_solver].
  rewrite (repr_idx_get _ _ _ _ _ Hr Hk). naive_solver.
Qed.
End repr.
