(* ===== verification/StoreOps.v ===== *)
(** * Refinement of the store's row operations

    [upsert], [get], [delete], [record_attempt] and [insert_or_refresh_seen_batch] of
    src/store/src/peer_store.rs against the specifications of [StoreSpec]. *)

From S2P Require Import Prelude Text Net Record Redb RedbInstances PeerStore StoreSpec.

Section row_operations.
Context `{RedbApi} `{!RedbLaws} `{Bincode} `{!BincodeLaws} `{Semver}.

(** Encoding a key or a record either gives bytes or a codec error. *)
Lemma atomic_encode_key {B} d addr (f : bytes → DB B) Q :
  (∀ k, encode_key addr = Ok k → atomic d (f k) enc_err Q) → atomic d (lift (encode_key addr) ≫= f) enc_err Q.
Proof. intros Hf. apply atomic_lift; [done|apply encode_key_err|apply encode_key_panic]. Qed.
Lemma atomic_encode_record {B} d rec (f : bytes → DB B) Q :
  (∀ b, encode_record rec = Ok b → atomic d (f b) enc_err Q) → atomic d (lift (encode_record rec) ≫= f) enc_err Q.
Proof. intros Hf. apply atomic_lift; [done|apply encode_record_err|apply encode_record_panic]. Qed.
Lemma triple_encode_record {B} d rec (f : bytes → DB B) Q :
  (∀ b, encode_record rec = Ok b → triple d (f b) enc_err Q) → triple d (lift (encode_record rec) ≫= f) enc_err Q.
Proof.
  intros Hf. destruct (encode_record rec) as [b|e|] eqn:E.
  - by apply triple_lift_ok, Hf.
  - by eapply triple_lift_err, encode_record_err.
  - by apply encode_record_panic in E.
Qed.
Lemma triple_encode_key {B} d addr (f : bytes → DB B) Q :
  (∀ k, encode_key addr = Ok k → triple d (f k) enc_err Q) → triple d (lift (encode_key addr) ≫= f) enc_err Q.
Proof.
  intros Hf. destruct (encode_key addr) as [b|e|] eqn:E.
  - by apply triple_lift_ok, Hf.
  - by eapply triple_lift_err, encode_key_err.
  - by apply encode_key_panic in E.
Qed.

Lemma upsert_atomic d m rec :
  repr d m → atomic d (upsert rec) enc_err (λ _ d', repr d' (<[address rec := rec]> m) ∧ kv d' = kv d).
Proof.
  intros Hr. unfold upsert. apply atomic_encode_key. intros k Hk.
  apply atomic_encode_record. intros b Hb%encode_decode_record. apply atomic_write_txn. db_steps.
  destruct (repr_get _ _ _ _ Hr Hk) as [[-> Hm]|(v & old & -> & Hd & Hm & Ha)]; cbv beta iota;
    [|rewrite Hd; cbv beta iota; case_decide as Hne]; db_steps;
    (split; [|done]); apply (repr_insert d m rec k b); try done.
  - eapply idx_update_insert; [done..|]. by rewrite Hm.
  - by eapply idx_update_move.
  - eapply idx_update_insert; [done..|]. intros r. rewrite Hm. intros [= <-]. lia.
Qed.

Lemma get_atomic d m addr :
  repr d m → atomic d (get addr) enc_err (λ r d', r = m !! addr ∧ d' = d).
Proof.
  intros Hr. unfold get. apply atomic_encode_key. intros k Hk. unfold read_txn.
  apply atomic_readonly; [unfold open_table; solve_readonly|]. db_steps.
  by destruct (repr_get _ _ _ _ Hr Hk) as [[-> ->]|(v & old & -> & Hd & -> & Ha)]; cbv beta iota;
    rewrite ?Hd; db_steps.
Qed.

Lemma delete_atomic d m addr :
  repr d m → atomic d (delete addr) enc_err
    (λ removed d', removed = bool_decide (is_Some (m !! addr)) ∧ repr d' (base.delete addr m) ∧ kv d' = kv d).
Proof.
  intros Hr. unfold delete. apply atomic_encode_key. intros k Hk. apply atomic_write_txn. db_steps.
  destruct (repr_get _ _ _ _ Hr Hk) as [[-> Hm]|(v & old & -> & Hd & Hm & Ha)]; cbv beta iota;
    rewrite ?Hd; db_steps; rewrite Hm.
  - split; [done|]. split; [|done]. apply (repr_delete d m addr k); [done..|].
    intros a k'. rewrite (repr_idx _ _ Hr). split; [|naive_solver].
    intros (addr' & r' & Hm' & Hk' & Ha'). right. split; [|eauto 10].
    intros ->. rewrite (encode_key_inj _ _ _ Hk Hk') in Hm. congruence.
  - split; [done|]. split; [|done]. apply (repr_delete d m addr k); [done..|]. by eapply idx_update_remove.
Qed.

Lemma spec_record_attempt_address addr now m :
  (∀ a r, m !! a = Some r → address r = a) → address (spec_record_attempt addr now m) = addr.
Proof.
  intros Hm. unfold spec_record_attempt. destruct (m !! addr) as [r|] eqn:E; cbn; [|done]. by apply Hm.
Qed.

Lemma record_attempt_atomic d m addr now :
  repr d m → atomic d (record_attempt addr now) enc_err
    (λ r d', r = spec_record_attempt addr now m ∧ repr d' (<[addr := r]> m) ∧ kv d' = kv d).
Proof.
  intros Hr. unfold record_attempt, spec_record_attempt. apply atomic_encode_key. intros k Hk.
  apply atomic_write_txn. db_steps.
  destruct (repr_get _ _ _ _ Hr Hk) as [[-> Hm]|(v & old & -> & Hd & Hm & Ha)]; cbv beta iota;
    rewrite ?Hd; db_steps; rewrite Hm;
    apply triple_encode_record; intros b Hb%encode_decode_record; db_steps.
  - split; [done|]. split; [|done]. apply (repr_insert d m (attempt_stub addr now) k b); [done..|].
    eapply idx_update_insert; [done..|]. by rewrite Hm.
  - case_decide as Hne; db_steps; (split; [done|]; split; [|done]);
      apply (repr_insert_at d m addr (set_last_attempt now old) k b); try done.
    + by eapply idx_update_move.
    + eapply idx_update_insert; [done..|]. intros r. rewrite Hm. intros [= <-]. lia.
Qed.

(** ** Batches *)

Lemma seen_one_triple d m now n addr :
  repr d m → triple d (seen_one now n addr) enc_err
    (λ n' d', (n', (spec_seen now (n, m) addr).2) = spec_seen now (n, m) addr ∧
              repr d' (spec_seen now (n, m) addr).2 ∧ kv d' = kv d).
Proof.
  intros Hr. unfold seen_one, spec_seen. cbn [fst snd]. apply triple_encode_key. intros k Hk. db_steps.
  destruct (repr_get _ _ _ _ Hr Hk) as [[-> Hm]|(v & old & -> & Hd & Hm & Ha)]; cbv beta iota;
    rewrite ?Hd; db_steps; rewrite Hm;
    apply triple_encode_record; intros b Hb%encode_decode_record; db_steps; cbn [fst snd].
  - split; [done|]. split; [|done]. apply (repr_insert d m (seen_stub addr now) k b); [done..|].
    eapply idx_update_insert; [done..|]. by rewrite Hm.
  - split; [done|]. split; [|done]. apply (repr_insert_at d m addr (set_last_seen now old) k b); [done..|].
    by apply (idx_update_same d m addr k old).
Qed.

Lemma seen_batch_atomic d m addrs now :
  repr d m → atomic d (insert_or_refresh_seen_batch addrs now) enc_err
    (λ n d', n = (spec_seen_batch now addrs m).1 ∧ repr d' (spec_seen_batch now addrs m).2 ∧ kv d' = kv d).
Proof.
  intros Hr. unfold insert_or_refresh_seen_batch. case_decide as Hnil; [subst; by apply atomic_ret|].
  apply atomic_write_txn. db_steps. unfold spec_seen_batch.
  eapply triple_mono; [eapply (triple_for_in (λ n l d', ∃ m', repr d' m' ∧ kv d' = kv d ∧
    foldl (spec_seen now) (n, m') l = foldl (spec_seen now) (0, m) addrs))|].
  - intros n addr l d1 (m1 & Hr1 & Hkv1 & Heq).
    eapply triple_mono; [by apply seen_one_triple|]. cbn beta. intros n' d2 (Hn & Hr2 & Hkv2).
    eexists. split; [done|]. split; [congruence|]. rewrite Hn. done.
  - by exists m.
  - cbn beta. intros n d' (m' & Hr' & Hkv' & Heq). cbn in Heq. rewrite <-Heq. done.
Qed.

Lemma spec_seen_lookup_ne now st addr a : a ≠ addr → (spec_seen now st addr).2 !! a = st.2 !! a.
Proof. intros Hne. unfold spec_seen. by case_match; cbn; rewrite lookup_insert_ne. Qed.

(** What a batch does to the map, address by address. *)
Lemma spec_seen_fold_lookup now addrs n m a :
  (foldl (spec_seen now) (n, m) addrs).2 !! a =
  if decide (a ∈ addrs) then
    Some match m !! a with Some r => set_last_seen now r | None => seen_stub a now end
  else m !! a.
Proof.
  revert n m. induction addrs as [|b l IH]; intros n m; [done|]. cbn [foldl].
  rewrite (surjective_pairing (spec_seen now (n, m) b)), IH.
  destruct (decide (a = b)) as [->|Hne].
  - rewrite (decide_True (P := b ∈ b :: l)) by set_solver.
    unfold spec_seen. cbn. destruct (m !! b) as [r|]; cbn; rewrite lookup_insert_eq; by case_decide.
  - rewrite spec_seen_lookup_ne by done. cbn.
    destruct (decide (a ∈ l)); [rewrite decide_True by set_solver|rewrite decide_False by set_solver]; done.
Qed.

Lemma spec_seen_count now st b :
  (spec_seen now st b).1 + Z.of_nat (size st.2) = st.1 + Z.of_nat (size (spec_seen now st b).2).
Proof.
  unfold spec_seen. destruct (st.2 !! b) as [r|] eqn:E; cbn.
  - rewrite map_size_insert_Some by eauto. lia.
  - rewrite map_size_insert_None by done. lia.
Qed.

Lemma spec_seen_fold_count now addrs st :
  (foldl (spec_seen now) st addrs).1 + Z.of_nat (size st.2) =
  st.1 + Z.of_nat (size (foldl (spec_seen now) st addrs).2).
Proof.
  revert st. induction addrs as [|b l IH]; intros st; cbn [foldl]; [lia|].
  pose proof (IH (spec_seen now st b)). pose proof (spec_seen_count now st b). lia.
Qed.
End row_operations.
