(* ===== verification/StoreScans.v ===== *)
(** * Refinement of the store's scans

    [len], [collect_matching], [summary] and [prune_dead] of src/store/src/peer_store.rs. *)

From S2P Require Import Prelude Text Net Record Redb PeerStore StoreSpec.

Section scans.
Context `{RedbApi} `{!RedbLaws} `{Bincode} `{!BincodeLaws} `{Semver}.

(** ** Rows and records *)

Definition decode_ok (v : bytes) : option PeerRecord :=
  match decode_record v with Ok r => Some r | _ => None end.
Definition dec_row (row : bytes * bytes) : option PeerRecord := decode_ok row.2.

Lemma decode_ok_Some v r : decode_ok v = Some r ↔ decode_record v = Ok r.
Proof. unfold decode_ok. case_match; naive_solver. Qed.

Lemma decode_record_match {A} v (f : PeerRecord → A) (x : A) :
  match decode_record v with Ok r => f r | _ => x end = match decode_ok v with Some r => f r | None => x end.
Proof. unfold decode_ok. by case_match. Qed.

Lemma triple_for_each_pure {A B} (g : B → A → B) E l acc d :
  triple d (for_each (λ acc x, mret (g acc x)) acc l) E (λ r d', r = foldl g acc l ∧ d' = d).
Proof.
  eapply triple_mono; [eapply (triple_for_each (λ acc' l' d', foldl g acc' l' = foldl g acc l ∧ d' = d))|].
  - intros acc' x l' d' [Hf ->]. apply triple_ret. by split.
  - done.
  - cbn beta. intros r d' [<- ->]. done.
Qed.

Lemma triple_iter_rows {B} d (f : list (bytes * bytes) → DB B) E Q :
  triple d (f (t_iter (peers d))) E Q → triple d (iter_rows ≫= f) E Q.
Proof. intros Hf. apply triple_bind_bind, triple_call. exact Hf. Qed.

Lemma decoded_elem d m r :
  repr d m → r ∈ omap dec_row (t_iter (peers d)) ↔ m !! address r = Some r.
Proof.
  intros Hr. rewrite list_elem_of_omap. split.
  - intros ([k v] & Hkv%t_iter_spec & Hd%decode_ok_Some). cbn in Hd.
    destruct (repr_row _ _ Hr _ _ Hkv) as (r' & _ & Hd' & Hm). rewrite Hd in Hd'. by simplify_eq.
  - intros Hm. destruct (repr_map _ _ Hr _ _ Hm) as (_ & k & v & _ & Hv & Hd).
    exists (k, v). split; [by apply t_iter_spec|]. by apply decode_ok_Some.
Qed.

Lemma decoded_nodup d m l :
  repr d m → NoDup l.*1 → (∀ kv, kv ∈ l → kv ∈ t_iter (peers d)) → NoDup (omap dec_row l).
Proof.
  intros Hr. induction l as [|[k v] l IH]; cbn; [constructor|]. intros [Hk Hnd]%NoDup_cons Hl.
  assert (NoDup (omap dec_row l)) by (apply IH; [done|]; intros; apply Hl; by right).
  destruct (dec_row (k, v)) as [r|] eqn:E; [|done]. constructor; [|done].
  rewrite list_elem_of_omap. intros ([k' v'] & Hin & E').
  apply decode_ok_Some in E, E'. cbn in E, E'.
  assert (encode_key (address r) = Ok k ∧ encode_key (address r) = Ok k') as [Hk1 Hk2].
  { split.
    - destruct (repr_row _ _ Hr k v) as (r' & ? & ? & ?); [apply t_iter_spec, Hl; by left|]. congruence.
    - destruct (repr_row _ _ Hr k' v') as (r' & ? & ? & ?); [apply t_iter_spec, Hl; by right|]. congruence. }
  assert (k = k') as -> by congruence. apply Hk. by apply (list_elem_of_fmap_2 fst _ (k', v')).
Qed.

Lemma records_elem d m r : repr d m → r ∈ records m ↔ m !! address r = Some r.
Proof.
  intros Hr. unfold records. rewrite list_elem_of_fmap. split.
  - intros ([a r'] & -> & Hm%elem_of_map_to_list). cbn. by destruct (repr_map _ _ Hr _ _ Hm) as [-> _].
  - intros Hm. exists (address r, r). split; [done|]. by apply elem_of_map_to_list.
Qed.

Lemma records_nodup d m : repr d m → NoDup (records m).
Proof.
  intros Hr. unfold records. apply NoDup_fmap_2_strong; [|apply NoDup_map_to_list].
  intros [a1 r1] [a2 r2] Hm1%elem_of_map_to_list Hm2%elem_of_map_to_list. cbn. intros ->.
  destruct (repr_map _ _ Hr _ _ Hm1) as [<- _]. destruct (repr_map _ _ Hr _ _ Hm2) as [<- _]. done.
Qed.

(** The rows of the table are the records of the map, in the table's order. *)
Lemma decoded_perm d m : repr d m → omap dec_row (t_iter (peers d)) ≡ₚ records m.
Proof.
  intros Hr. apply NoDup_Permutation.
  - eapply decoded_nodup; [done|apply t_iter_nodup|done].
  - by eapply records_nodup.
  - intros r. by rewrite decoded_elem, records_elem.
Qed.

Lemma rows_length d m : repr d m → length (t_iter (peers d)) = size m.
Proof.
  intros Hr. rewrite <-length_map_to_list. unfold records in *.
  rewrite <-(length_fmap snd (map_to_list m)). fold (records m). rewrite <-(decoded_perm _ _ Hr).
  assert (Hall : ∀ kv, kv ∈ t_iter (peers d) → is_Some (dec_row kv)).
  { intros [k v] Hkv%t_iter_spec. destruct (repr_row _ _ Hr _ _ Hkv) as (r & _ & Hd & _).
    exists r. by apply decode_ok_Some. }
  induction (t_iter (peers d)) as [|kv l IH]; cbn; [done|].
  destruct (Hall kv) as [r ->]; [by left|]. cbn. f_equal. apply IH. intros. apply Hall. by right.
Qed.

(** ** [len] *)

Lemma len_atomic d m : repr d m → atomic d len enc_err (λ n d', n = Z.of_nat (size m) ∧ d' = d).
Proof.
  intros Hr. unfold len, read_txn. apply atomic_readonly; [unfold open_table; solve_readonly|].
  db_steps. by rewrite (rows_length _ _ Hr).
Qed.

(** ** [collect_matching] *)

Lemma collect_matching_atomic d m f :
  repr d m → (∀ r, r ∈ records m → is_Some (matches f r)) →
  atomic d (collect_matching f) enc_err
    (λ out d', d' = d ∧ out ≡ₚ filter (λ r, matches f r = Some true) (records m)).
Proof.
  intros Hr Htot. unfold collect_matching, read_txn.
  apply atomic_readonly; [unfold open_table, iter_rows; solve_readonly|]. db_steps. apply triple_iter_rows.
  eapply triple_mono; [eapply (triple_for_each (λ out l d', d' = d ∧ l `suffix_of` t_iter (peers d) ∧
    out ++ filter (λ r, matches f r = Some true) (omap dec_row l) =
    filter (λ r, matches f r = Some true) (omap dec_row (t_iter (peers d)))))|].
  - intros out [k v] l d' (-> & Hsuf & Heq). cbn in Heq.
    assert (Hsuf' : l `suffix_of` t_iter (peers d)) by (by eapply suffix_cons_l).
    rewrite decode_record_match. cbn [snd]. change (decode_ok v) with (dec_row (k, v)).
    destruct (dec_row (k, v)) as [r|] eqn:Er; [|apply triple_ret; done].
    destruct (Htot r) as [b Hb].
    { rewrite records_elem, <-decoded_elem by done. apply list_elem_of_omap. exists (k, v). split; [|done].
      eapply elem_of_suffix; [|exact Hsuf]. by left. }
    rewrite Hb. cbn [or_panic]. db_steps. split; [done|]. split; [done|]. rewrite <-Heq, filter_cons.
    destruct b; [rewrite decide_True by done|rewrite decide_False by (rewrite Hb; done)]; [|done].
    by rewrite <-app_assoc.
  - done.
  - cbn beta. intros out d' (-> & _ & Heq). cbn in Heq. rewrite app_nil_r in Heq. split; [done|].
    rewrite Heq. by rewrite (decoded_perm _ _ Hr).
Qed.

(** ** [summary] *)

Lemma summary_atomic d m now stale_good validity :
  repr d m → atomic d (summary now stale_good validity) enc_err
    (λ s d', d' = d ∧ ∃ l, l ≡ₚ records m ∧
       s = summary_finish (foldl (summary_row now stale_good validity) (mkAcc summary_default 0 0) l)).
Proof.
  intros Hr. unfold summary, read_txn.
  apply atomic_readonly; [unfold open_table, iter_rows; solve_readonly|]. db_steps. apply triple_iter_rows.
  eapply triple_bind; [apply triple_for_each_pure|]. cbn beta. intros acc d' [-> ->]. apply triple_ret.
  split; [done|]. eexists. split; [by apply decoded_perm|]. f_equal.
  apply foldl_omap. intros acc kv. apply decode_record_match.
Qed.

(** ** [prune_dead] *)

(** The key and index entry of a row to delete. *)
Definition dead_row (cutoff : Z) (row : bytes * bytes) : option (bytes * Z) :=
  match dec_row row with
  | Some rec => if is_dead rec cutoff then Some (row.1, last_attempt_ms rec) else None
  | None => None
  end.

(** The map in the middle of the deletions: the dead rows still to be deleted are still there. *)
Definition pruned_up_to (cutoff : Z) (todo : list (bytes * Z)) (m m' : gmap NetAddress PeerRecord) : Prop :=
  ∀ addr rec, m' !! addr = Some rec ↔
    m !! addr = Some rec ∧
    (is_dead rec cutoff = true → ∃ k, encode_key addr = Ok k ∧ k ∈ todo.*1).

Lemma prune_loop d m d0 cutoff todo acc :
  repr d m → repr d0 acc → kv d0 = kv d → pruned_up_to cutoff todo m acc → NoDup todo.*1 →
  (∀ k a, (k, a) ∈ todo → ∃ addr rec, encode_key addr = Ok k ∧ m !! addr = Some rec ∧
      is_dead rec cutoff = true ∧ last_attempt_ms rec = a) →
  triple d0 (for_in (λ _ ka, table_remove ka.1 ≫= λ _, idx_remove ka.2 ka.1) tt todo) enc_err
    (λ _ d', repr d' (spec_prune cutoff m) ∧ kv d' = kv d ∧
      (size (spec_prune cutoff m) + length todo = size acc)%nat).
Proof.
  intros Hr. revert d0 acc. induction todo as [|[k a] todo IH]; intros d0 acc Hr0 Hkv Hp Hnd Htodo; cbn [for_in].
  - apply triple_ret. assert (spec_prune cutoff m = acc) as ->; [|split; [done|split; [done|cbn; lia]]].
    apply map_eq. intros addr. apply option_eq. intros rec. rewrite (Hp addr rec).
    unfold spec_prune. rewrite map_lookup_filter_Some. cbn. destruct (is_dead rec cutoff); set_solver.
  - cbn [fst snd]. apply NoDup_cons in Hnd as [Hk Hnd].
    destruct (Htodo k a) as (addr & rec & Hkey & Hm & Hdead & <-); [by left|].
    assert (Hacc : acc !! addr = Some rec).
    { apply Hp. split; [done|]. intros _. exists k. split; [done|]. by left. }
    db_steps. eapply triple_mono.
    + apply (IH _ (base.delete addr acc)); [|done| |done|].
      * apply (repr_delete d0 acc addr k); [done..|]. by eapply idx_update_remove.
      * intros addr' rec'. rewrite lookup_delete_Some, (Hp addr' rec'), fmap_cons. cbn [fst].
        split.
        -- intros (Hne & Hm' & Hd'). split; [done|]. intros (k' & Hk' & Hin)%Hd'. exists k'. split; [done|].
           apply elem_of_cons in Hin as [->|]; [|done]. destruct Hne. by eapply encode_key_inj.
        -- intros (Hm' & Hd'). split; [|split; [done|]]; [intros <-|intros (k' & ? & ?)%Hd'; set_solver].
           assert (rec' = rec) as -> by congruence. destruct (Hd' Hdead) as (k' & Hk' & Hin).
           by assert (k' = k) as -> by congruence.
      * intros k' a' Hin. apply Htodo. by right.
    + cbn beta. intros _ d' (Hr' & Hkv' & Hsz). do 2 (split; [done|]). cbn [length].
      rewrite map_size_delete, Hacc in Hsz. cbn in Hsz.
      assert (0 < size acc)%nat; [|lia]. pose proof (map_size_non_empty_iff acc).
      enough (size acc ≠ 0%nat) by lia. intros ?%map_size_empty_iff. by simplify_map_eq.
Qed.

Lemma prune_dead_atomic d m cutoff :
  repr d m → atomic d (prune_dead cutoff) enc_err
    (λ n d', repr d' (spec_prune cutoff m) ∧ kv d' = kv d ∧
      n = Z.of_nat (size m) - Z.of_nat (size (spec_prune cutoff m))).
Proof.
  intros Hr. unfold prune_dead. apply atomic_write_txn. db_steps. apply triple_iter_rows.
  eapply triple_bind; [apply triple_for_each_pure|]. cbn beta. intros todo d' [-> ->].
  rewrite (foldl_omap _ (dead_row cutoff) (λ acc x, acc ++ [x])), foldl_snoc.
  2: { intros acc kv. rewrite decode_record_match. unfold dead_row. change (decode_ok kv.2) with (dec_row kv).
       by repeat case_match. }
  cbn [app]. set (todo := omap (dead_row cutoff) (t_iter (peers d))).
  assert (Htodo : ∀ k a, (k, a) ∈ todo ↔ ∃ addr rec, encode_key addr = Ok k ∧ m !! addr = Some rec ∧
    is_dead rec cutoff = true ∧ last_attempt_ms rec = a).
  { intros k a. unfold todo. rewrite list_elem_of_omap. split.
    - intros ([k' v] & Hkv%t_iter_spec & Hd). destruct (repr_row _ _ Hr _ _ Hkv) as (rec & Hk' & Hdec & Hm).
      unfold dead_row, dec_row in Hd. cbn in Hd. rewrite (proj2 (decode_ok_Some v rec) Hdec) in Hd.
      destruct (is_dead rec cutoff) eqn:?; simplify_eq. eauto 10.
    - intros (addr & rec & Hk & Hm & Hdead & <-).
      destruct (repr_map _ _ Hr _ _ Hm) as (_ & k' & v & Hk' & Hv & Hdec).
      assert (k' = k) as -> by congruence. exists (k, v). split; [by apply t_iter_spec|].
      unfold dead_row, dec_row. cbn. by rewrite (proj2 (decode_ok_Some v rec) Hdec), Hdead. }
  eapply triple_bind; [eapply (prune_loop d m d cutoff todo m); try done|].
  - intros addr rec. split; [|naive_solver]. intros Hm. split; [done|]. intros Hdead.
    destruct (repr_map _ _ Hr _ _ Hm) as (_ & k & v & Hk & _). exists k. split; [done|].
    apply list_elem_of_fmap. exists (k, last_attempt_ms rec). split; [done|]. apply Htodo. eauto 10.
  - eapply sublist_NoDup; [apply (t_iter_nodup (peers d))|]. unfold todo.
    clear. induction (t_iter (peers d)) as [|[k v] l IH]; [done|].
    cbn [omap list_omap]. destruct (dead_row cutoff (k, v)) as [[k' a]|] eqn:E; cbn; [|by constructor].
    unfold dead_row in E. repeat case_match; simplify_eq. by constructor.
  - intros k a. apply Htodo.
  - cbn beta. intros _ d' (Hr' & Hkv & Hsz). apply triple_ret. split; [done|]. split; [done|]. lia.
Qed.
End scans.
