(* ===== verification/StoreQueries.v ===== *)
(** * What the store's queries answer

    The counters of [summary] and the selection of [due_for_probe] (src/store/src/peer_store.rs),
    first over plain lists of records, then over the disk. *)

From S2P Require Import Prelude Text Net Record Redb PeerStore StoreSpec StoreScans.

(** ** The buckets of [summary] *)

Section buckets.
Context `{Semver} (now stale_good : Z) (validity : option Filter).

Definition is_stub (r : PeerRecord) : Prop := last_success_ms r ≤ 0 ∧ last_attempt_ms r ≤ 0.
Definition is_failed (r : PeerRecord) : Prop := last_success_ms r ≤ 0 ∧ 0 < last_attempt_ms r.
Definition success_age (r : PeerRecord) : Z := i64_saturating_sub now (last_success_ms r).
Definition in_window (r : PeerRecord) : Prop := 0 < last_success_ms r ∧ success_age r ≤ stale_good.
Definition is_stale (r : PeerRecord) : Prop := 0 < last_success_ms r ∧ stale_good < success_age r.
Definition is_valid (r : PeerRecord) : bool :=
  match validity with Some f => passes_validity f r | None => true end.
Definition is_good (r : PeerRecord) : Prop := in_window r ∧ is_valid r = true.
Definition is_filtered (r : PeerRecord) : Prop := in_window r ∧ is_valid r = false.
Definition is_v4 (r : PeerRecord) : Prop := in_window r ∧ is_ipv4 (ip (address r)) = true.
Definition is_v6 (r : PeerRecord) : Prop := in_window r ∧ is_ipv6 (ip (address r)) = true.

#[global] Instance is_stub_dec r : Decision (is_stub r).
Proof. unfold is_stub. apply _. Defined.
#[global] Instance is_failed_dec r : Decision (is_failed r).
Proof. unfold is_failed. apply _. Defined.
#[global] Instance in_window_dec r : Decision (in_window r).
Proof. unfold in_window. apply _. Defined.
#[global] Instance is_stale_dec r : Decision (is_stale r).
Proof. unfold is_stale. apply _. Defined.
#[global] Instance is_good_dec r : Decision (is_good r).
Proof. unfold is_good. apply _. Defined.
#[global] Instance is_filtered_dec r : Decision (is_filtered r).
Proof. unfold is_filtered. apply _. Defined.
#[global] Instance is_v4_dec r : Decision (is_v4 r).
Proof. unfold is_v4. apply _. Defined.
#[global] Instance is_v6_dec r : Decision (is_v6 r).
Proof. unfold is_v6. apply _. Defined.

(** The ages of the in-window successes, a success in the future counting as age zero. *)
Definition age_sum (l : list PeerRecord) : Z :=
  foldr (λ r s, (if decide (in_window r) then Z.max 0 (success_age r) else 0) + s) 0 l.

(** Decide bucket membership from the comparisons in the context. *)
Ltac decide_bucket P :=
  first [ rewrite !(decide_True (P := P)) by (unfold is_good, is_filtered, is_v4, is_v6, is_stub, is_failed,
            is_stale, in_window; repeat match goal with E : _ = _ |- _ => rewrite E end; cbn; repeat split; (done || lia))
        | rewrite !(decide_False (P := P)) by (unfold is_good, is_filtered, is_v4, is_v6, is_stub, is_failed,
            is_stale, in_window; repeat match goal with E : _ = _ |- _ => rewrite E end; cbn; intros ?; destruct_and?; (done || lia)) ].
Ltac decide_buckets P Q R S := decide_bucket P; decide_bucket Q; decide_bucket R; decide_bucket S.

(** A record goes to exactly one bucket. *)
Lemma summary_row_counts acc r :
  let acc' := summary_row now stale_good validity acc r in
  let s := acc_s acc in let s' := acc_s acc' in
  let one (P : PeerRecord → Prop) `{∀ x, Decision (P x)} := if decide (P r) then 1 else 0 in
  total s' = total s + 1 ∧
  stub s' = stub s + one is_stub ∧ failed s' = failed s + one is_failed ∧
  stale s' = stale s + one is_stale ∧ good s' = good s + one is_good ∧
  filtered s' = filtered s + one is_filtered ∧ v4 s' = v4 s + one is_v4 ∧ v6 s' = v6 s + one is_v6 ∧
  avg_success_age_ms s' = avg_success_age_ms s ∧
  raw_good acc' = raw_good acc + one in_window ∧
  sum_age_ms acc' = sum_age_ms acc + (if decide (in_window r) then Z.max 0 (success_age r) else 0).
Proof.
  cbv zeta. unfold summary_row. fold (success_age r). fold (is_valid r). cbv zeta.
  destruct (decide (last_success_ms r ≤ 0)) as [Hs|Hs]; [destruct (decide (last_attempt_ms r ≤ 0)) as [Ha|Ha]|
    destruct (decide (success_age r ≤ stale_good)) as [Hw|Hw]].
  - decide_buckets (is_stub r) (is_failed r) (is_stale r) (in_window r).
    decide_buckets (is_good r) (is_filtered r) (is_v4 r) (is_v6 r). cbn. repeat split; lia.
  - decide_buckets (is_stub r) (is_failed r) (is_stale r) (in_window r).
    decide_buckets (is_good r) (is_filtered r) (is_v4 r) (is_v6 r). cbn. repeat split; lia.
  - decide_buckets (is_stub r) (is_failed r) (is_stale r) (in_window r).
    destruct (is_valid r) eqn:Hv, (ip (address r)) eqn:Hip;
      decide_buckets (is_good r) (is_filtered r) (is_v4 r) (is_v6 r); cbn -[Z.max];
      repeat split; try lia; case_decide; lia.
  - decide_buckets (is_stub r) (is_failed r) (is_stale r) (in_window r).
    decide_buckets (is_good r) (is_filtered r) (is_v4 r) (is_v6 r). cbn. repeat split; lia.
Qed.

Lemma summary_fold l acc :
  let acc' := foldl (summary_row now stale_good validity) acc l in
  let s := acc_s acc in let s' := acc_s acc' in
  total s' = total s + Z.of_nat (length l) ∧
  stub s' = stub s + count is_stub l ∧ failed s' = failed s + count is_failed l ∧
  stale s' = stale s + count is_stale l ∧ good s' = good s + count is_good l ∧
  filtered s' = filtered s + count is_filtered l ∧
  v4 s' = v4 s + count is_v4 l ∧ v6 s' = v6 s + count is_v6 l ∧
  avg_success_age_ms s' = avg_success_age_ms s ∧
  raw_good acc' = raw_good acc + count in_window l ∧
  sum_age_ms acc' = sum_age_ms acc + age_sum l.
Proof.
  revert acc. induction l as [|r l IH]; intros acc; cbv zeta.
  { cbn. unfold count. cbn. repeat split; lia. }
  cbn [foldl length]. destruct (IH (summary_row now stale_good validity acc r)) as
    (-> & -> & -> & -> & -> & -> & -> & -> & -> & -> & ->). clear IH.
  destruct (summary_row_counts acc r) as (-> & -> & -> & -> & -> & -> & -> & -> & -> & -> & ->).
  rewrite !count_cons. cbn [age_sum foldr]. fold (age_sum l). repeat split; lia.
Qed.

Lemma count_partition l :
  Z.of_nat (length l) = count is_good l + count is_filtered l + count is_stale l + count is_failed l + count is_stub l.
Proof.
  induction l as [|r l IH]; [done|]. rewrite !count_cons. cbn [length].
  destruct (decide (last_success_ms r ≤ 0)); [destruct (decide (last_attempt_ms r ≤ 0))|
    destruct (decide (success_age r ≤ stale_good)), (is_valid r) eqn:Hv];
    decide_buckets (is_good r) (is_filtered r) (is_stale r) (is_failed r); decide_bucket (is_stub r); lia.
Qed.

Lemma in_window_good_filtered l : count in_window l = count is_good l + count is_filtered l.
Proof.
  induction l as [|r l IH]; [done|]. rewrite !count_cons, IH. destruct (decide (in_window r)) as [Hw|Hw].
  - unfold in_window in Hw. destruct (is_valid r) eqn:Hv; decide_bucket (is_good r); decide_bucket (is_filtered r); lia.
  - rewrite !(decide_False (P := is_good r)), !(decide_False (P := is_filtered r)) by (by intros []). lia.
Qed.

Lemma in_window_v4_v6 l : count in_window l = count is_v4 l + count is_v6 l.
Proof.
  induction l as [|r l IH]; [done|]. rewrite !count_cons, IH. destruct (decide (in_window r)) as [Hw|Hw].
  - unfold in_window in Hw. destruct (ip (address r)) eqn:Hip; decide_bucket (is_v4 r); decide_bucket (is_v6 r); lia.
  - rewrite !(decide_False (P := is_v4 r)), !(decide_False (P := is_v6 r)) by (by intros []). lia.
Qed.

Lemma age_sum_bounds l : 0 ≤ stale_good → 0 ≤ age_sum l ≤ stale_good * count in_window l.
Proof.
  intros Hsg. induction l as [|r l IH]; [unfold count; cbn; lia|]. rewrite count_cons. cbn [age_sum foldr]. fold (age_sum l).
  case_decide as Hw; [|lia]. destruct Hw. lia.
Qed.

Lemma age_sum_perm l l' : l ≡ₚ l' → age_sum l = age_sum l'.
Proof. unfold age_sum. induction 1; cbn; lia. Qed.

(** The summary of a list of records: what each counter counts, and the average. *)
Lemma summary_finish_spec l :
  0 ≤ stale_good ≤ I64_MAX →
  let s := summary_finish (foldl (summary_row now stale_good validity) (mkAcc summary_default 0 0) l) in
  total s = Z.of_nat (length l) ∧ good s = count is_good l ∧ filtered s = count is_filtered l ∧
  stale s = count is_stale l ∧ failed s = count is_failed l ∧ stub s = count is_stub l ∧
  v4 s = count is_v4 l ∧ v6 s = count is_v6 l ∧
  avg_success_age_ms s = (if decide (0 < count in_window l) then age_sum l / count in_window l else 0) ∧
  avg_success_age_ms s ≤ stale_good.
Proof.
  intros Hsg. pose proof (summary_fold l (mkAcc summary_default 0 0)) as Hf.
  pose proof (age_sum_bounds l (proj1 Hsg)) as Hb. cbv zeta in *. unfold summary_finish.
  destruct Hf as (Ht & Hst & Hfa & Hsl & Hgo & Hfi & H4 & H6 & Hav & Hrg & Hsum).
  rewrite Hrg, Hsum.
  cbn [raw_good sum_age_ms acc_s summary_default total good filtered stale failed stub v4 v6
       avg_success_age_ms] in *.
  rewrite !Z.add_0_l in *.
  case_decide as Hpos; cbn; [|by repeat split; lia].
  assert (Hdiv : 0 ≤ age_sum l / count in_window l ≤ stale_good).
  { split; [apply Z.div_pos; lia|]. apply Z.div_le_upper_bound; lia. }
  unfold try_from_or. rewrite decide_True by int_solve. repeat split; lia.
Qed.
End buckets.

(** ** The probe queue *)

Section due.
Context `{RedbApi} `{!RedbLaws} `{Bincode} `{!BincodeLaws} `{Semver}.
Context (now stale_good stale_bad dead_cutoff max thr : Z).
Hypothesis Hthr : good_probe_threshold stale_good = Some thr.

(** The eligibility test, once the threshold is known not to overflow. *)
Definition eligible (r : PeerRecord) : bool :=
  negb (is_dead r dead_cutoff) &&
  bool_decide ((if bool_decide (0 < last_success_ms r) then thr else stale_bad)
               ≤ i64_saturating_sub now (last_attempt_ms r)).

Lemma is_eligible_eq r : is_eligible_for_probe r now stale_good stale_bad dead_cutoff = Some (eligible r).
Proof.
  unfold is_eligible_for_probe, eligible. destruct (is_dead r dead_cutoff); [done|]. cbn [negb andb].
  by case_bool_decide; rewrite ?Hthr.
Qed.

(** The record behind an index entry. *)
Definition row_of (d : Disk) (k : bytes) : option PeerRecord := t_get k (peers d) ≫= decode_ok.

Definition candidates (d : Disk) (e : Z * list bytes) : list PeerRecord :=
  filter (λ r, eligible r = true) (omap (row_of d) e.2).

Lemma due_values_triple d vs out :
  Z.of_nat (length out) < max →
  triple d (due_values now stale_good stale_bad dead_cutoff max vs out) enc_err
    (λ os d', d' = d ∧ os.1 = take (Z.to_nat max) (out ++ candidates d (0, vs)) ∧
              os.2 = bool_decide (max ≤ Z.of_nat (length os.1))).
Proof.
  revert out. induction vs as [|k vs IH]; intros out Hlen; cbn [due_values].
  - apply triple_ret. cbn. rewrite app_nil_r, take_ge by lia. by rewrite bool_decide_false by lia.
  - db_steps. unfold candidates. cbn [snd omap list_omap]. unfold row_of at 1.
    destruct (t_get k (peers d)) as [b|]; cbn [mbind option_bind]; [|by apply IH].
    rewrite decode_record_match. destruct (decode_ok b) as [r|]; [|by apply IH].
    rewrite is_eligible_eq. cbn [or_panic]. db_steps. rewrite filter_cons.
    destruct (decide (eligible r = true)) as [He|He%not_true_is_false]; rewrite He; cbn [negb]; [|by apply IH].
    case_decide as Hmax.
    + db_steps. cbn [fst snd]. split; [done|].
      rewrite length_app in Hmax. cbn in Hmax.
      assert (Heq : (Z.to_nat max = length (out ++ [r]))%nat) by (rewrite length_app; cbn; lia).
      rewrite Heq, (take_snoc_app out r). split; [done|].
      rewrite bool_decide_true; [done|]. rewrite length_app. cbn. lia.
    + eapply triple_mono; [apply IH; lia|]. cbn beta. intros os d' (-> & Ho & ->).
      rewrite Ho, <-app_assoc. done.
Qed.

Lemma due_entries_triple d es out :
  Z.of_nat (length out) < max →
  triple d (due_entries now stale_good stale_bad dead_cutoff max es out) enc_err
    (λ o d', d' = d ∧ o = take (Z.to_nat max) (out ++ (es ≫= candidates d))).
Proof.
  revert out. induction es as [|[a vs] es IH]; intros out Hlen; cbn [due_entries].
  - apply triple_ret. cbn. rewrite app_nil_r, take_ge by lia. done.
  - db_steps. eapply triple_bind; [by apply due_values_triple|]. cbn beta.
    intros [o stop] d' (-> & Ho & Hs). cbn [fst snd] in *. subst stop. rewrite bind_cons, app_assoc.
    change (candidates d (a, vs)) with (candidates d (0, vs)).
    case_bool_decide as Hmax.
    + apply triple_ret. split; [done|]. rewrite take_app_le; [done|].
      rewrite Ho, length_take in Hmax. lia.
    + rewrite take_ge in Ho by (rewrite Ho, length_take in Hmax; lia). subst o.
      apply IH. lia.
Qed.

Lemma due_values_readonly vs out : readonly (due_values now stale_good stale_bad dead_cutoff max vs out).
Proof. revert out. induction vs as [|k vs IH]; intros out; cbn [due_values]; solve_readonly; apply IH. Qed.

Lemma due_entries_readonly es out : readonly (due_entries now stale_good stale_bad dead_cutoff max es out).
Proof.
  revert out. induction es as [|[a vs] es IH]; intros out; cbn [due_entries]; [solve_readonly|].
  apply readonly_bind; [apply readonly_call|]. intros _. apply readonly_bind; [apply due_values_readonly|].
  intros [o []]; [apply readonly_ret|apply IH].
Qed.

(** ** The selection, abstractly *)

Lemma row_of_spec d m k r :
  repr d m → row_of d k = Some r ↔ encode_key (address r) = Ok k ∧ m !! address r = Some r.
Proof.
  intros Hr. unfold row_of. rewrite bind_Some. split.
  - intros (v & Hv & Hd%decode_ok_Some). destruct (repr_row _ _ Hr _ _ Hv) as (r' & Hd' & Hk' & Hm').
    assert (r' = r) as -> by congruence. done.
  - intros [Hk Hm]. destruct (repr_map _ _ Hr _ _ Hm) as (_ & k' & v & Hk' & Hv & Hd).
    assert (k' = k) as -> by congruence. exists v. split; [done|]. by apply decode_ok_Some.
Qed.

Section selection.
Context (d : Disk) (m : gmap NetAddress PeerRecord) (Hr : repr d m) (c : Z).

Lemma group_attempt e r :
  e ∈ m_range_to c (attempt_idx d) → r ∈ candidates d e → last_attempt_ms r = e.1 ∧ e.1 ≤ c ∧
    m !! address r = Some r ∧ eligible r = true.
Proof.
  destruct e as [a vs]. intros (Hac & -> & _)%m_range_spec. cbn [fst].
  unfold candidates. rewrite list_elem_of_filter, list_elem_of_omap. cbn [snd].
  intros [Hel (k & Hin & [Hk Hm]%(row_of_spec _ _ _ _ Hr))]. split; [|done].
  apply (repr_idx _ _ Hr) in Hin as (addr & rec & Hm' & Hk' & <-).
  pose proof (encode_key_inj _ _ _ Hk Hk') as <-. congruence.
Qed.

Lemma selection_elem r :
  r ∈ (m_range_to c (attempt_idx d) ≫= candidates d) ↔
  m !! address r = Some r ∧ eligible r = true ∧ last_attempt_ms r ≤ c.
Proof.
  rewrite list_elem_of_bind. split.
  - intros (e & Hin & He). destruct (group_attempt e r He Hin) as (-> & ? & ? & ?). done.
  - intros (Hm & Hel & Hle). destruct (repr_map _ _ Hr _ _ Hm) as (_ & k & v & Hk & _).
    assert (Hin : k ∈ m_get (last_attempt_ms r) (attempt_idx d)).
    { apply (repr_idx _ _ Hr). eauto. }
    exists (last_attempt_ms r, m_get (last_attempt_ms r) (attempt_idx d)). split.
    + unfold candidates. apply list_elem_of_filter. split; [done|]. apply list_elem_of_omap.
      exists k. split; [done|]. by apply (row_of_spec _ _ _ _ Hr).
    + apply m_range_spec. split; [done|]. split; [done|]. intros Hnil. rewrite Hnil in Hin. set_solver.
Qed.

Lemma selection_sorted : StronglySorted (key_le last_attempt_ms) (m_range_to c (attempt_idx d) ≫= candidates d).
Proof. apply groups_sorted; [apply m_range_sorted|]. intros e r He Hin. by apply group_attempt. Qed.

Lemma selection_nodup : NoDup (m_range_to c (attempt_idx d) ≫= candidates d).
Proof.
  apply (groups_NoDup last_attempt_ms); [apply m_range_sorted|..].
  - intros e r He Hin. by apply group_attempt.
  - intros [a vs] (_ & -> & _)%m_range_spec. unfold candidates. cbn [snd]. apply NoDup_filter.
    pose proof (m_get_nodup a (attempt_idx d)) as Hnd. induction Hnd as [|k l Hk Hnd IH]; cbn; [constructor|].
    destruct (row_of d k) as [r|] eqn:E; [|done]. constructor; [|done].
    rewrite list_elem_of_omap. intros (k' & Hin & E').
    apply (row_of_spec _ _ _ _ Hr) in E as [E _], E' as [E' _]. congruence.
Qed.
End selection.

(** An eligible record is below the ceiling of the index scan. *)
Lemma eligible_below_ceiling r :
  0 ≤ stale_good → 0 ≤ stale_bad ≤ I64_MAX → in_i64 (last_attempt_ms r) → eligible r = true →
  last_attempt_ms r ≤ i64_saturating_sub now (Z.min thr stale_bad).
Proof.
  intros Hsg Hsb Ha [_ Hel]%andb_true_iff. apply bool_decide_eq_true in Hel.
  assert (0 ≤ thr ≤ I64_MAX).
  { unfold good_probe_threshold, i64_mul in Hthr. apply bind_Some in Hthr as (x & [-> Hx]%i64_checked_Some & [= <-]).
    split; [apply Z.quot_pos; lia|]. unfold in_i64 in Hx. rewrite Z.quot_div_nonneg by lia.
    apply Z.div_le_upper_bound; unfold I64_MAX in *; lia. }
  revert Hel. case_bool_decide; unfold in_i64, i64_saturating_sub, I64_MIN, I64_MAX in *; lia.
Qed.

(** [due_for_probe] returns the oldest eligible records, at most [max] of them. *)
Definition due_result (m : gmap NetAddress PeerRecord) (out : list PeerRecord) : Prop :=
  Z.of_nat (length out) ≤ max ∧ NoDup out ∧ StronglySorted (key_le last_attempt_ms) out ∧
  (∀ r, r ∈ out → m !! address r = Some r ∧ eligible r = true) ∧
  (∀ r, m !! address r = Some r → eligible r = true → r ∈ out ∨
     (Z.of_nat (length out) = max ∧ ∀ r', r' ∈ out → last_attempt_ms r' ≤ last_attempt_ms r)).

Lemma due_for_probe_atomic d m :
  repr d m → 0 ≤ max → 0 ≤ stale_good → 0 ≤ stale_bad ≤ I64_MAX →
  map_Forall (λ _ r, in_i64 (last_attempt_ms r)) m →
  atomic d (due_for_probe now stale_good stale_bad dead_cutoff max) enc_err (λ out d', d' = d ∧ due_result m out).
Proof.
  intros Hr Hmax Hsg Hsb Hwf. unfold due_for_probe. case_decide as Hzero.
  { apply atomic_ret. split; [done|]. unfold due_result. rewrite Hzero.
    split; [done|]. split; [constructor|]. split; [constructor|]. split; [set_solver|].
    intros r _ _. right. split; [done|set_solver]. }
  rewrite Hthr. cbn [or_panic]. set (c := i64_saturating_sub now (Z.min thr stale_bad)).
  apply atomic_readonly.
  { unfold read_txn, open_table. solve_readonly. apply due_entries_readonly. }
  db_steps. unfold read_txn. db_steps.
  eapply triple_mono; [apply due_entries_triple; cbn; lia|]. cbn beta. intros out d' [-> ->]. cbn [app]. fold c.
  split; [done|]. pose proof (selection_elem d m Hr c) as Hel. pose proof (selection_sorted d m Hr c) as Hs.
  pose proof (selection_nodup d m Hr c) as Hnd. set (l := m_range_to c (attempt_idx d) ≫= candidates d) in *.
  split; [rewrite length_take; lia|]. split; [eapply sublist_NoDup; [done|apply sublist_take]|].
  split; [by apply StronglySorted_take|]. split.
  - intros r Hin. eapply elem_of_sublist, Hel in Hin; [|apply sublist_take]. naive_solver.
  - intros r Hm He. assert (Hin : r ∈ l).
    { apply Hel. split; [done|]. split; [done|]. apply eligible_below_ceiling; try done. by apply (Hwf _ _ Hm). }
    rewrite <-(take_drop (Z.to_nat max) l) in Hin. apply elem_of_app in Hin as [|Hin]; [by left|right]. split.
    + rewrite length_take. assert (Z.to_nat max < length l)%nat; [|lia].
      apply Nat.nle_gt. intros Hge. rewrite drop_ge in Hin by done. set_solver.
    + intros r' Hr'. by eapply (StronglySorted_take_drop (key_le last_attempt_ms)).
Qed.
End due.
