(* ===== verification/StoreOpen.v ===== *)
(** * Opening the database: purge, index rebuild and crash recovery

    [purge_undecodable], [rebuild_attempt_index], [open] and the blob table of
    src/store/src/peer_store.rs. *)

From S2P Require Import Prelude Text Net Record Redb PeerStore StoreSpec StoreOps StoreScans.

Section opening.
Context `{RedbApi} `{!RedbLaws} `{Bincode} `{!BincodeLaws} `{Semver}.

(** ** What a database file holds *)

(** The records of the rows that decode under the current schema. *)
Definition load (d : Disk) : gmap NetAddress PeerRecord :=
  list_to_map ((λ r, (address r, r)) <$> omap dec_row (t_iter (peers d))).

(** Every decodable row is stored under the key of its own address. *)
Definition keyed (d : Disk) : Prop :=
  ∀ k v r, t_get k (peers d) = Some v → decode_record v = Ok r → encode_key (address r) = Ok k.

(** [d'] has the decodable rows of [d] and no other rows. *)
Definition purged (d d' : Disk) : Prop :=
  ∀ k v, t_get k (peers d') = Some v ↔ t_get k (peers d) = Some v ∧ is_Some (decode_ok v).

(** [d'] has the decodable rows of [d], and perhaps rows that do not decode. *)
Definition keeps (d d' : Disk) : Prop :=
  (∀ k v, is_Some (decode_ok v) → t_get k (peers d') = Some v ↔ t_get k (peers d) = Some v) ∧ kv d' = kv d.

(** The index lists exactly the rows, each under its record's last attempt. *)
Definition indexed (d : Disk) : Prop :=
  ∀ a k, k ∈ m_get a (attempt_idx d) ↔ ∃ v r, t_get k (peers d) = Some v ∧ decode_record v = Ok r ∧ last_attempt_ms r = a.

Lemma load_Some d a r :
  keyed d → load d !! a = Some r ↔ address r = a ∧ ∃ k v, t_get k (peers d) = Some v ∧ decode_record v = Ok r.
Proof.
  intros Hkey. unfold load.
  assert (Hin : ∀ r, r ∈ omap dec_row (t_iter (peers d)) ↔ ∃ k v, t_get k (peers d) = Some v ∧ decode_record v = Ok r).
  { intros r'. rewrite list_elem_of_omap. split.
    - intros ([k v] & Hkv%t_iter_spec & Hd%decode_ok_Some). eauto.
    - intros (k & v & Hkv%t_iter_spec & Hd%decode_ok_Some). exists (k, v). done. }
  rewrite <-Hin. split.
  - intros (r' & [= -> ->] & Hr)%elem_of_list_to_map_2%list_elem_of_fmap. done.
  - intros [<- Hr]. destruct (list_to_map _ !! address r) as [r'|] eqn:E.
    + f_equal. apply elem_of_list_to_map_2, list_elem_of_fmap in E as (r2 & [= Ha ->] & Hr2).
      apply Hin in Hr as (k & v & Hkv & Hd), Hr2 as (k' & v' & Hkv' & Hd').
      pose proof (Hkey _ _ _ Hkv Hd) as Hk. pose proof (Hkey _ _ _ Hkv' Hd') as Hk'. congruence.
    + apply not_elem_of_list_to_map in E. destruct E. apply list_elem_of_fmap.
      exists (address r, r). split; [done|]. by apply (list_elem_of_fmap_2 (λ r, (address r, r))).
Qed.

(** After the purge and the rebuild the disk represents what the file held. *)
Lemma repr_load d d' : keyed d → purged d d' → indexed d' → repr d' (load d).
Proof.
  intros Hkey Hp Hi. split.
  - intros k v [Hkv [r Hr%decode_ok_Some]]%Hp. exists r. split; [by eapply Hkey|]. split; [done|].
    apply load_Some; [done|]. eauto.
  - intros a r [<- (k & v & Hkv & Hd)]%load_Some; [|done]. split; [done|]. exists k, v.
    split; [by eapply Hkey|]. split; [|done]. apply Hp. split; [done|]. by exists r; apply decode_ok_Some.
  - intros a k. rewrite (Hi a k). split.
    + intros (v & r & [Hkv _]%Hp & Hd & Ha). exists (address r), r. split; [|by split; [eapply Hkey|]].
      apply load_Some; [done|]. eauto.
    + intros (addr & r & [<- (k' & v & Hkv & Hd)]%load_Some & Hk & Ha); [|done].
      pose proof (Hkey _ _ _ Hkv Hd). assert (k' = k) as -> by congruence.
      exists v, r. split; [|done]. apply Hp. split; [done|]. by exists r; apply decode_ok_Some.
Qed.

(** ** [purge_undecodable] *)

Definition bad_row (row : bytes * bytes) : option bytes :=
  match dec_row row with Some _ => None | None => Some row.1 end.

Lemma purge_loop d d0 ks :
  (∀ k v, t_get k (peers d0) = Some v → t_get k (peers d) = Some v) →
  (∀ k v, t_get k (peers d) = Some v → t_get k (peers d0) = None → decode_ok v = None) →
  (∀ k, k ∈ ks → ∀ v, t_get k (peers d) = Some v → decode_ok v = None) →
  (∀ k v, t_get k (peers d0) = Some v → decode_ok v = None → k ∈ ks) →
  kv d0 = kv d →
  triple d0 (for_in (λ _ k, table_remove k ≫= λ _, mret tt) tt ks) (λ _, False)
    (λ _ d', purged d d' ∧ kv d' = kv d).
Proof.
  revert d0. induction ks as [|k ks IH]; intros d0 Hsub Hdead Hks Hall Hkv; cbn [for_in].
  - apply triple_ret. split; [|done]. intros k v. split.
    + intros Hv. split; [by apply Hsub|]. destruct (decode_ok v) eqn:E; [done|]. pose proof (Hall _ _ Hv E). set_solver.
    + intros [Hv [r Hr]]. destruct (t_get k (peers d0)) as [v'|] eqn:E; [apply Hsub in E; congruence|].
      rewrite (Hdead _ _ Hv E) in Hr. done.
  - db_steps. apply IH; cbn [peers kv]; [..|done].
    + intros k' v. rewrite t_get_remove. case_decide; [done|apply Hsub].
    + intros k' v Hv. rewrite t_get_remove. case_decide as Hk; [|by apply Hdead].
      intros _. subst. apply (Hks k'); [by left|done].
    + intros k' Hin. apply Hks. by right.
    + intros k' v. rewrite t_get_remove. case_decide as Hk; [done|]. intros Hv Hd.
      pose proof (Hall _ _ Hv Hd) as [|]%elem_of_cons; [congruence|done].
Qed.

Lemma purge_atomic d :
  atomic d purge_undecodable (λ _, False) (λ n d', purged d d' ∧ kv d' = kv d ∧
    n = Z.of_nat (length (omap bad_row (t_iter (peers d))))).
Proof.
  unfold purge_undecodable. eapply (atomic_bind_query _ _ _ _ (λ ks, ks = omap bad_row (t_iter (peers d)))).
  { unfold read_txn. apply atomic_readonly; [unfold open_table, iter_rows; solve_readonly|].
    db_steps. apply triple_iter_rows. eapply triple_mono; [apply triple_for_each_pure|]. cbn beta.
    intros ks d' [-> ->]. split; [|done]. rewrite (foldl_omap _ bad_row (λ acc x, acc ++ [x])), foldl_snoc; [done|].
    intros acc kv. rewrite decode_record_match. unfold bad_row, dec_row. by case_match. }
  intros ks ->. set (ks := omap bad_row (t_iter (peers d))).
  assert (Hks : ∀ k, k ∈ ks ↔ ∃ v, t_get k (peers d) = Some v ∧ decode_ok v = None).
  { intros k. unfold ks. rewrite list_elem_of_omap. unfold bad_row, dec_row. split.
    - intros ([k' v] & Hkv%t_iter_spec & Hb). cbn in Hb. case_match; simplify_eq. eauto.
    - intros (v & Hkv%t_iter_spec & Hd). exists (k, v). split; [done|]. cbn. by rewrite Hd. }
  case_decide as Hnil.
  - apply atomic_ret. rewrite Hnil in Hks |- *. split; [|done]. intros k v. split; [|naive_solver].
    intros Hv. split; [done|].
    destruct (decode_ok v) eqn:E; [done|]. assert (k ∈ []) by (apply Hks; eauto). set_solver.
  - eapply atomic_bind_ret; [apply atomic_write_txn|].
    + db_steps. apply purge_loop; [done|congruence| | |done].
      * intros k (v & Hv & Hd)%Hks v' Hv'. congruence.
      * intros k v Hv Hd. apply Hks. eauto.
    + cbn beta. by intros _ d' [? ?].
Qed.

(** ** [rebuild_attempt_index] *)

(** The index of a list of rows. *)
Definition index_of (rows : list (bytes * bytes)) (i : mtable) : Prop :=
  ∀ a k, k ∈ m_get a i ↔ ∃ v r, (k, v) ∈ rows ∧ decode_record v = Ok r ∧ last_attempt_ms r = a.

Lemma index_of_snoc rows i k v r :
  index_of rows i → decode_record v = Ok r →
  index_of (rows ++ [(k, v)]) (m_insert (last_attempt_ms r) k i).
Proof.
  intros Hi Hd a k'. rewrite m_get_insert, (Hi a k'). split.
  - intros [[<- <-]|(v' & r' & Hin & ?)]; [exists v, r|exists v', r']; set_solver.
  - intros (v' & r' & [Hin|Hin]%elem_of_app & Hd' & Ha); [right; eauto|left].
    apply list_elem_of_singleton in Hin as [= -> ->]. split; [congruence|done].
Qed.

Lemma index_of_skip rows i k v :
  index_of rows i → (∀ r, decode_record v ≠ Ok r) → index_of (rows ++ [(k, v)]) i.
Proof.
  intros Hi Hd a k'. rewrite (Hi a k'). split; intros (v' & r' & Hin & ?); exists v', r'; [set_solver|].
  apply elem_of_app in Hin as [|Hin]; [done|]. apply list_elem_of_singleton in Hin as [= -> ->]. naive_solver.
Qed.

Lemma rebuild_atomic d :
  atomic d rebuild_attempt_index (λ _, False) (λ n d', peers d' = peers d ∧ kv d' = kv d ∧ indexed d' ∧
    n = Z.of_nat (length (omap dec_row (t_iter (peers d))))).
Proof.
  unfold rebuild_attempt_index. apply atomic_write_txn. db_steps. apply triple_iter_rows. cbn [peers].
  eapply triple_mono; [eapply (triple_for_each (λ n l d', peers d' = peers d ∧ kv d' = kv d ∧
    ∃ pre, t_iter (peers d) = pre ++ l ∧ index_of pre (attempt_idx d') ∧ n = Z.of_nat (length (omap dec_row pre))))|].
  - intros n [k v] l d' (Hp & Hkv & pre & Heq & Hi & ->). cbn [snd fst].
    assert (Heq' : t_iter (peers d) = (pre ++ [(k, v)]) ++ l) by (by rewrite <-app_assoc).
    assert (Hlen : omap dec_row (pre ++ [(k, v)]) = omap dec_row pre ++ omap dec_row [(k, v)]) by apply omap_app.
    assert (Hdv : dec_row (k, v) = decode_ok v) by done. unfold decode_ok in Hdv.
    destruct (decode_record v) as [r|e|] eqn:Hd.
    + db_steps. split; [done|]. split; [done|]. exists (pre ++ [(k, v)]). split; [done|]. cbn [attempt_idx].
      split; [by apply index_of_snoc|]. rewrite Hlen, length_app. cbn. rewrite Hdv. cbn. lia.
    + db_steps. do 2 (split; [done|]). exists (pre ++ [(k, v)]). split; [done|].
      split; [apply index_of_skip; [done|congruence]|]. rewrite Hlen, length_app. cbn. rewrite Hdv. cbn. lia.
    + db_steps. do 2 (split; [done|]). exists (pre ++ [(k, v)]). split; [done|].
      split; [apply index_of_skip; [done|congruence]|]. rewrite Hlen, length_app. cbn. rewrite Hdv. cbn. lia.
  - do 2 (split; [done|]). exists []. split; [done|]. split; [|done]. intros a k. cbn. rewrite m_get_empty. set_solver.
  - cbn beta. intros n d' (Hp & Hkv & pre & Heq & Hi & ->). rewrite app_nil_r in Heq. subst pre.
    do 2 (split; [done|]). split; [|done]. intros a k. rewrite (Hi a k), Hp. by setoid_rewrite t_iter_spec.
Qed.

(** ** [open] *)

Context `{!RedbFile}.

(** The database [open] works on: the file's, or a fresh one when the file is incompatible. *)
Definition opened (file : dbfile) : option Disk :=
  match redb_create file with
  | inr d => Some d
  | inl err =>
      if is_incompatible_db err then match redb_create no_file with inr d => Some d | inl _ => None end else None
  end.

Lemma keeps_refl d : keeps d d.
Proof. by split. Qed.
Lemma purged_keeps d d' : purged d d' → kv d' = kv d → keeps d d'.
Proof. intros Hp Hkv. split; [|done]. intros k v Hd. rewrite (Hp k v). naive_solver. Qed.

Lemma open_tail d0 :
  keyed d0 → guarded d0
    (write_txn (open_table ≫= λ _, open_table ≫= λ _, open_table) ≫= λ _,
     purge_undecodable ≫= λ _, rebuild_attempt_index ≫= λ _, mret tt)
    (λ _, False) (keeps d0) (λ _ d', repr d' (load d0) ∧ kv d' = kv d0).
Proof.
  intros Hkey. eapply (guarded_bind _ _ _ _ _ (λ _ d', d' = d0)).
  { apply guarded_atomic; [apply keeps_refl|]. apply atomic_write_txn. db_steps. apply triple_redb_call. }
  intros _ d' ->. eapply guarded_bind; [apply guarded_atomic; [apply keeps_refl|apply purge_atomic]|]. cbn beta.
  intros _ d1 (Hp & Hkv & _). eapply guarded_bind.
  { apply guarded_atomic; [by apply purged_keeps|apply rebuild_atomic]. }
  cbn beta. intros _ d2 (Hp2 & Hkv2 & Hi & _). apply guarded_ret. split; [|congruence].
  apply repr_load; [done| |done]. intros k v. rewrite Hp2. apply Hp.
Qed.

Lemma open_guarded d hp file d0 :
  opened file = Some d0 → keyed d0 →
  guarded d (open hp file) (λ _, False) (λ d', d' = d ∨ keeps d0 d') (λ _ d', repr d' (load d0) ∧ kv d' = kv d0).
Proof.
  intros Hop Hkey. unfold open, opened in *.
  apply (guarded_bind _ _ _ _ _ (λ _ d', d' = d)).
  { destruct hp; [|by apply guarded_ret]. apply guarded_atomic; [by left|].
    apply atomic_readonly; [apply readonly_call|apply triple_redb_call]. }
  intros _ d' ->. apply (guarded_bind _ _ _ _ _ (λ d1 d', d1 = d0 ∧ d' = d)); cycle 1.
  { intros d1 d' [-> ->]. apply guarded_put_disk. eapply guarded_mono; [by apply open_tail|]. by right. }
  destruct (redb_create file) as [err|d1]; simplify_eq; [|by apply guarded_ret].
  destruct (is_incompatible_db err); [|done]. apply guarded_call; [by left|].
  destruct (redb_create no_file); simplify_eq. by apply guarded_ret.
Qed.

(** A file [redb] refuses for any other reason is left alone and the error is returned. *)
Lemma open_refused d hp file err :
  redb_create file = inl err → is_incompatible_db err = false →
  ∀ fs, ∃ e, (open hp file (mkWorld d fs)).1 = Err e ∧ disk (open hp file (mkWorld d fs)).2 = d ∧
    (quiet fs → e = Database (database_error_msg err)).
Proof.
  intros Hc Hi fs. unfold open. rewrite Hc, Hi. destruct hp.
  - unfold mbind, DB_bind, lift.
    destruct (redb_call_cases Io d fs) as [(msg & fs' & -> & ->)|(fs' & -> & Hq)]; cbn.
    + eexists. split; [done|]. split; [done|]. by intros [? _]%Forall_cons.
    + eexists. by split.
  - cbn. eexists. by split.
Qed.

(** ** Blobs *)

Lemma get_blob_atomic d key :
  atomic d (get_blob key) (λ _, False) (λ v d', v = kv_get key (kv d) ∧ d' = d).
Proof.
  unfold get_blob, read_txn. apply atomic_readonly; [unfold open_table; solve_readonly|]. by db_steps.
Qed.

Lemma put_blob_atomic d m key value :
  repr d m → atomic d (put_blob key value) (λ _, False)
    (λ _ d', repr d' m ∧ ∀ key', kv_get key' (kv d') = if decide (key = key') then Some value else kv_get key' (kv d)).
Proof.
  intros [Hrow Hmap Hidx]. unfold put_blob. apply atomic_write_txn. db_steps.
  intros fs. cbn. split; [|done]. split; [by split|]. intros key'. apply kv_get_insert.
Qed.
End opening.
