(* ===== verification/StoreExample.v ===== *)
(** * A concrete store

    The empty database and a database with one record, over the instances of RedbInstances.v, with
    the maps they represent: the starting points of the witnesses. *)

From S2P Require Import Prelude Text Net Record Redb RedbInstances PeerStore StoreSpec StoreOps StoreScans.

Definition empty_disk : Disk := mkDisk t_empty m_empty kv_empty.
Definition addr0 : NetAddress := mkNetAddress (V4 134744072) 16111.
Definition addr1 : NetAddress := mkNetAddress (V4 16843009) 16111.
Definition rec0 : PeerRecord := mkPeerRecord addr0 UNKNOWN_PEER_ID 7 (str "/kaspad:1.0.0/") None 0 10 90 50 50.
(** The empty database after [rec0] was stored. *)
Definition disk0 : Disk := disk (upsert rec0 (mkWorld empty_disk [])).2.
Definition map0 : gmap NetAddress PeerRecord := <[address rec0 := rec0]> ∅.

Lemma repr_empty : repr empty_disk ∅.
Proof.
  split; cbn.
  - intros k v. by rewrite lookup_empty.
  - intros a r. by rewrite lookup_empty.
  - intros a k. unfold cm_get. rewrite lookup_empty. cbn. rewrite elements_empty. split; [set_solver|].
    intros (? & ? & Hm & _). by rewrite lookup_empty in Hm.
Qed.

Lemma repr_disk0 : repr disk0 map0.
Proof.
  pose proof (upsert_atomic empty_disk ∅ rec0 repr_empty []) as Hu. unfold disk0.
  assert ((upsert rec0 (mkWorld empty_disk [])).1 = Ok tt) as Hok by reflexivity.
  destruct (upsert rec0 (mkWorld empty_disk [])) as [[[]|e|] w]; [by destruct Hu as [[? _] _]|discriminate Hok|done].
Qed.

Lemma map0_records r : r ∈ records map0 → r = rec0.
Proof. rewrite (records_elem _ _ _ repr_disk0). unfold map0. rewrite lookup_insert_Some, lookup_empty. naive_solver. Qed.

Lemma codec_total_bits : codec_total.
Proof. split; intros; by eexists. Qed.

Lemma reliable_nil : reliable [].
Proof. split; [constructor|apply codec_total_bits]. Qed.
