(* ===== verification/StoreClaims.v ===== *)
(** * The contract of the peer store

    The theorems on src/store/src/peer_store.rs: a history of calls under arbitrary storage faults
    refines the finite-map specification, and each query and batch operation does what its
    documentation says of that map. *)

From S2P Require Import Prelude Text Net Record Redb RedbInstances PeerStore StoreSpec StoreOps StoreScans StoreQueries StoreOpen StoreExample.

(** ** Histories of calls *)

Inductive request : Type :=
  | ReqUpsert (rec : PeerRecord)
  | ReqGet (addr : NetAddress)
  | ReqDelete (addr : NetAddress)
  | ReqAttempt (addr : NetAddress) (now : Z)
  | ReqSeen (addr : NetAddress) (now : Z)
  | ReqSeenBatch (addrs : list NetAddress) (now : Z)
  | ReqPrune (cutoff : Z)
  | ReqLen.

Inductive reply : Type :=
  | RepUnit
  | RepRecord (rec : PeerRecord)
  | RepLookup (rec : option PeerRecord)
  | RepBool (b : bool)
  | RepCount (n : Z).

Definition spec_serve (q : request) (m : gmap NetAddress PeerRecord) : reply * gmap NetAddress PeerRecord :=
  match q with
  | ReqUpsert rec => (RepUnit, <[address rec := rec]> m)
  | ReqGet addr => (RepLookup (m !! addr), m)
  | ReqDelete addr => (RepBool (bool_decide (is_Some (m !! addr))), base.delete addr m)
  | ReqAttempt addr now => let r := spec_record_attempt addr now m in (RepRecord r, <[addr := r]> m)
  | ReqSeen addr now => (RepBool (bool_decide (m !! addr = None)), (spec_seen now (0, m) addr).2)
  | ReqSeenBatch addrs now => let nm := spec_seen_batch now addrs m in (RepCount nm.1, nm.2)
  | ReqPrune cutoff =>
      (RepCount (Z.of_nat (size m) - Z.of_nat (size (spec_prune cutoff m))), spec_prune cutoff m)
  | ReqLen => (RepCount (Z.of_nat (size m)), m)
  end.

(** Answers that the specification explains: a call that succeeded has the specification's answer
    and effect, a call that failed has no effect. *)
Inductive explains : gmap NetAddress PeerRecord → list request → list (outcome StoreError reply) →
    gmap NetAddress PeerRecord → Prop :=
  | explains_nil m : explains m [] [] m
  | explains_ok m q qs os m' :
      explains (spec_serve q m).2 qs os m' → explains m (q :: qs) (Ok (spec_serve q m).1 :: os) m'
  | explains_err m q qs e os m' :
      explains m qs os m' → explains m (q :: qs) (Err e :: os) m'.

Section history.
Context `{RedbApi} `{!RedbLaws} `{Bincode} `{!BincodeLaws} `{Semver}.

Definition serve (q : request) : DB reply :=
  match q with
  | ReqUpsert rec => upsert rec ≫= λ _, mret RepUnit
  | ReqGet addr => r ← get addr; mret (RepLookup r)
  | ReqDelete addr => b ← delete addr; mret (RepBool b)
  | ReqAttempt addr now => r ← record_attempt addr now; mret (RepRecord r)
  | ReqSeen addr now => b ← insert_or_refresh_seen addr now; mret (RepBool b)
  | ReqSeenBatch addrs now => n ← insert_or_refresh_seen_batch addrs now; mret (RepCount n)
  | ReqPrune cutoff => n ← prune_dead cutoff; mret (RepCount n)
  | ReqLen => n ← len; mret (RepCount n)
  end.

(** The calls of a process one after another; an error does not stop the next call. *)
Fixpoint run_requests (qs : list request) (w : World) : list (outcome StoreError reply) * World :=
  match qs with
  | [] => ([], w)
  | q :: qs' =>
      let '(o, w') := serve q w in
      let '(os, w'') := run_requests qs' w' in
      (o :: os, w'')
  end.

Lemma seen_atomic d m addr now :
  repr d m → atomic d (insert_or_refresh_seen addr now) enc_err
    (λ b d', b = bool_decide (m !! addr = None) ∧ repr d' (spec_seen now (0, m) addr).2 ∧ kv d' = kv d).
Proof.
  intros Hr. unfold insert_or_refresh_seen. eapply atomic_bind_ret; [by apply (seen_batch_atomic d m)|].
  cbn beta. intros n d' (-> & Hr' & Hkv). split; [|done]. unfold spec_seen_batch. cbn [foldl].
  unfold spec_seen. cbn [fst snd]. destruct (m !! addr); cbn [fst]; by repeat case_bool_decide.
Qed.

Lemma serve_atomic q d m :
  repr d m → atomic d (serve q) enc_err
    (λ rep d', rep = (spec_serve q m).1 ∧ repr d' (spec_serve q m).2 ∧ kv d' = kv d).
Proof.
  intros Hr. destruct q; cbn [serve spec_serve fst snd]; eapply atomic_bind_ret.
  all: first [by apply upsert_atomic | by apply get_atomic | by apply delete_atomic | by apply record_attempt_atomic
    | by apply seen_atomic | by apply seen_batch_atomic | by apply prune_dead_atomic | by apply len_atomic | idtac].
  all: cbn beta; naive_solver.
Qed.

Lemma run_requests_explains qs w m :
  repr (disk w) m →
  ∃ m', explains m qs (run_requests qs w).1 m' ∧ repr (disk (run_requests qs w).2) m' ∧
    kv (disk (run_requests qs w).2) = kv (disk w) ∧
    (quiet (faults w) → ∀ e, Err e ∈ (run_requests qs w).1 → enc_err e).
Proof.
  revert w m. induction qs as [|q qs IH]; intros [d fs] m Hr; cbn [run_requests disk faults] in *.
  { exists m. cbn. split; [constructor|]. split; [done|]. split; [done|]. set_solver. }
  pose proof (serve_atomic q d m Hr fs) as Hq.
  destruct (serve q (mkWorld d fs)) as [[rep|e|] w1]; [| |done].
  - destruct Hq as [(-> & Hr1 & Hkv) Hqu]. destruct (IH w1 _ Hr1) as (m' & Hex & Hr' & Hkv' & He).
    destruct (run_requests qs w1) as [os w2]. cbn [fst snd] in *. exists m'.
    split; [by constructor|]. split; [done|]. split; [congruence|].
    intros Hf e [|]%elem_of_cons; [done|]. apply He; auto.
  - destruct Hq as [Hd Hqu]. destruct (IH w1 m) as (m' & Hex & Hr' & Hkv' & He); [by rewrite Hd|].
    destruct (run_requests qs w1) as [os w2] eqn:Erun. cbn [fst snd] in *. exists m'.
    split; [by constructor|]. split; [done|]. split; [congruence|].
    intros Hf e' [[= ->]|Hin]%elem_of_cons; [by apply Hqu|]. by apply He, Hin; apply Hqu.
Qed.

(** ** Theorems *)

(** C1: the store is a finite map. Whatever calls the process makes and whichever storage
    calls fail, the answers are those of the finite-map specification applied to the calls that
    succeeded: a failed call (an error at any point of its transaction, the commit included) leaves no
    trace, the attempt index stays in step with the rows, the blobs are untouched, no call
    panics, and without storage faults the only errors are the codec's. *)
Theorem store_refines_map qs w m :
  repr (disk w) m →
  ∃ m', explains m qs (run_requests qs w).1 m' ∧ repr (disk (run_requests qs w).2) m' ∧
    kv (disk (run_requests qs w).2) = kv (disk w) ∧
    (quiet (faults w) → ∀ e, Err e ∈ (run_requests qs w).1 → enc_err e).
Proof. apply run_requests_explains. Qed.

(** C7: [due_for_probe] returns records of the store that are eligible for a probe, without
    repetition, at most [max] of them and the longest unattempted first; an eligible record is left
    out only when the answer is full of records attempted no later. *)
Theorem due_for_probe_picks_oldest d m now stale_good stale_bad dead_cutoff max :
  repr d m → 0 ≤ max → 0 ≤ stale_good → stale_good * 4 ≤ I64_MAX → 0 ≤ stale_bad ≤ I64_MAX →
  map_Forall (λ _ r, in_i64 (last_attempt_ms r)) m →
  atomic d (due_for_probe now stale_good stale_bad dead_cutoff max) enc_err (λ out d', d' = d ∧
    Z.of_nat (length out) ≤ max ∧ NoDup out ∧ StronglySorted (key_le last_attempt_ms) out ∧
    (∀ r, r ∈ out → m !! address r = Some r ∧
       is_eligible_for_probe r now stale_good stale_bad dead_cutoff = Some true) ∧
    (∀ r, m !! address r = Some r →
       is_eligible_for_probe r now stale_good stale_bad dead_cutoff = Some true → r ∈ out ∨
       (Z.of_nat (length out) = max ∧ ∀ r', r' ∈ out → last_attempt_ms r' ≤ last_attempt_ms r))).
Proof.
  intros Hr Hmax Hsg Hsg4 Hsb Hwf.
  assert (Hthr : good_probe_threshold stale_good = Some (Z.quot (stale_good * 4) 5)).
  { unfold good_probe_threshold, i64_mul. rewrite i64_checked_in; [done|]. int_solve. }
  eapply atomic_mono; [by eapply due_for_probe_atomic|]. cbn beta.
  intros out d' (-> & Hlen & Hnd & Hs & Hin & Hcomp). split; [done|].
  do 3 (split; [done|]). split; intros r; rewrite (is_eligible_eq _ _ _ _ _ Hthr).
  - intros [Hm He]%Hin. by rewrite He.
  - intros Hm [= He]. by apply Hcomp.
Qed.


(** [summary] counts every record in exactly one of its five buckets; the two family counters
    split the records with a fresh success, whether or not they pass the validity filter; and
    the average success age is at most the freshness window. *)
Theorem summary_partitions d m now stale_good validity :
  repr d m → 0 ≤ stale_good ≤ I64_MAX →
  atomic d (summary now stale_good validity) enc_err (λ s d', d' = d ∧
    total s = Z.of_nat (size m) ∧
    total s = good s + filtered s + stale s + failed s + stub s ∧
    good s + filtered s = v4 s + v6 s ∧
    good s = count (is_good now stale_good validity) (records m) ∧
    filtered s = count (is_filtered now stale_good validity) (records m) ∧
    stale s = count (is_stale now stale_good) (records m) ∧
    failed s = count is_failed (records m) ∧ stub s = count is_stub (records m) ∧
    0 ≤ avg_success_age_ms s ≤ stale_good).
Proof.
  intros Hr Hsg. eapply atomic_mono; [by apply summary_atomic|]. cbn beta. intros s d' (-> & l & Hl & ->).
  split; [done|]. pose proof (summary_finish_spec now stale_good validity l Hsg) as Hs. cbv zeta in Hs.
  destruct Hs as (-> & -> & -> & -> & -> & -> & -> & -> & Havg & Hle).
  pose proof (count_partition now stale_good validity l). pose proof (in_window_good_filtered now stale_good validity l).
  pose proof (in_window_v4_v6 now stale_good l). rewrite !(count_perm _ _ _ Hl) in *.
  pose proof (age_sum_bounds now stale_good l (proj1 Hsg)) as Hb.
  assert (length l = size m).
  { rewrite Hl. unfold records. by rewrite length_fmap, length_map_to_list. }
  repeat split; try lia. rewrite Havg. case_decide; [|done]. apply Z.div_pos; [|lia].
  rewrite (count_perm _ _ _ Hl) in Hb. lia.
Qed.

(** [collect_matching] returns every stored record the filter accepts, each once, and
    nothing else. *)
Theorem collect_matching_exact d m f :
  repr d m → (∀ r, r ∈ records m → is_Some (matches f r)) →
  atomic d (collect_matching f) enc_err (λ out d', d' = d ∧ NoDup out ∧
    ∀ r, r ∈ out ↔ m !! address r = Some r ∧ matches f r = Some true).
Proof.
  intros Hr Hf. eapply atomic_mono; [by apply collect_matching_atomic|]. cbn beta. intros out d' [-> Hout].
  split; [done|]. split.
  - rewrite Hout. apply NoDup_filter. by eapply records_nodup.
  - intros r. rewrite Hout, list_elem_of_filter, (records_elem _ _ _ Hr). naive_solver.
Qed.

(** A batch of gossiped addresses refreshes the known ones, inserts a stub for each of the others
    (once, however often it is repeated), touches no other record, and returns the
    number of records inserted. *)
Theorem seen_batch_exact d m addrs now :
  repr d m → atomic d (insert_or_refresh_seen_batch addrs now) enc_err (λ n d', ∃ m', repr d' m' ∧
    (∀ a, m' !! a = if decide (a ∈ addrs)
       then Some match m !! a with Some r => set_last_seen now r | None => seen_stub a now end
       else m !! a) ∧
    n = Z.of_nat (size m') - Z.of_nat (size m)).
Proof.
  intros Hr. eapply atomic_mono; [by apply (seen_batch_atomic d m)|]. cbn beta. intros n d' (-> & Hr' & _).
  exists (spec_seen_batch now addrs m).2. split; [done|]. unfold spec_seen_batch. split.
  - intros a. apply spec_seen_fold_lookup.
  - pose proof (spec_seen_fold_count now addrs (0, m)) as Hc. cbn [fst snd] in Hc. lia.
Qed.


(** A database file that [redb] refuses for a reason other than an old or unrepairable format
    is not wiped: [open] returns the error and changes nothing. *)
Theorem open_keeps_refused_file `{!RedbFile} d hp file err :
  redb_create file = inl err → is_incompatible_db err = false →
  ∀ fs, ∃ e, (open hp file (mkWorld d fs)).1 = Err e ∧ disk (open hp file (mkWorld d fs)).2 = d ∧
    (quiet fs → e = Database (database_error_msg err)).
Proof. apply open_refused. Qed.

(** A blob is read back as it was written; a write that fails changes nothing, one that succeeds
    changes neither the other blobs nor the peers. *)
Theorem blob_roundtrip d m key value :
  repr d m → atomic d (put_blob key value) (λ _, False) (λ _ d', repr d' m ∧
    atomic d' (get_blob key) (λ _, False) (λ v d'', v = Some value ∧ d'' = d') ∧
    ∀ key', key' ≠ key → kv_get key' (kv d') = kv_get key' (kv d)).
Proof.
  intros Hr. eapply atomic_mono; [by eapply put_blob_atomic|]. cbn beta. intros _ d' [Hr' Hkv].
  split; [done|]. split.
  - eapply atomic_mono; [apply get_blob_atomic|]. cbn beta. intros v d'' [-> ->]. split; [|done].
    rewrite Hkv. by rewrite decide_True.
  - intros key' Hne. rewrite Hkv. by rewrite decide_False.
Qed.
End history.

(** ** Witnesses over the concrete database *)

(** A history with a failing commit in the middle. *)
Definition requests0 : list request := [ReqUpsert rec0; ReqAttempt addr1 70; ReqGet addr1; ReqLen].

Lemma store_refines_map_witness :
  ∃ m', explains ∅ requests0 (run_requests requests0 (mkWorld empty_disk (replicate 11 None ++ [Some (str "disk full")]))).1 m' ∧
    repr (disk (run_requests requests0 (mkWorld empty_disk (replicate 11 None ++ [Some (str "disk full")]))).2) m'.
Proof.
  destruct (store_refines_map requests0 (mkWorld empty_disk (replicate 11 None ++ [Some (str "disk full")])) ∅ repr_empty)
    as (m' & Hex & Hr & _). by exists m'.
Defined.

Lemma due_for_probe_picks_oldest_witness :
  atomic disk0 (due_for_probe 100 50 10 40 8) enc_err (λ out _, out = [rec0]).
Proof.
  eapply atomic_mono; [apply (due_for_probe_picks_oldest disk0 map0 100 50 10 40 8 repr_disk0); [done..|]|].
  - apply map_Forall_insert_2; [by vm_compute|apply map_Forall_empty].
  - cbn beta. intros out d' (_ & Hlen & Hnd & _ & Hin & Hcomp).
    assert (Hall : ∀ r, r ∈ out → r = rec0).
    { intros r [Hm _]%Hin. apply map0_records. by rewrite (records_elem _ _ _ repr_disk0). }
    pose proof (NoDup_all_eq rec0 out Hnd Hall).
    destruct (Hcomp rec0) as [Hr|[Hmax _]]; [by vm_compute|by vm_compute| |lia].
    destruct out as [|a [|b out]]; cbn in *; [set_solver| |lia]. by rewrite (Hall a) by set_solver.
Defined.


Lemma summary_partitions_witness :
  atomic disk0 (summary 100 50 None) enc_err (λ s _, total s = 1 ∧ good s = 1).
Proof.
  eapply atomic_mono; [apply (summary_partitions disk0 map0 100 50 None repr_disk0); done|]. cbn beta.
  intros s d' (_ & -> & _ & _ & -> & _). by split; vm_compute.
Defined.

Definition serving0 : Filter := serving 100 50 None None None (Some 16111).

Lemma collect_matching_exact_witness :
  atomic disk0 (collect_matching serving0) enc_err (λ out _, rec0 ∈ out).
Proof.
  eapply atomic_mono; [apply (collect_matching_exact disk0 map0 serving0 repr_disk0)|].
  - intros r ->%map0_records. by eexists.
  - cbn beta. intros out d' (_ & _ & Hout). apply Hout. by split; vm_compute.
Defined.

Lemma seen_batch_exact_witness :
  atomic disk0 (insert_or_refresh_seen_batch [addr1; addr0; addr1] 99) enc_err (λ _ d', ∃ m', repr d' m' ∧
    m' !! addr1 = Some (seen_stub addr1 99) ∧ m' !! addr0 = Some (set_last_seen 99 rec0)).
Proof.
  eapply atomic_mono; [apply (seen_batch_exact disk0 map0 [addr1; addr0; addr1] 99 repr_disk0)|]. cbn beta.
  intros n d' (m' & Hr & Hm & _). exists m'. split; [done|]. rewrite !Hm. by vm_compute.
Defined.

(** A database file is either a database or one in an old format. *)
#[local] Instance file_std : RedbFile := {|
  dbfile := option Disk + rstr;
  no_file := inl (Some empty_disk);
  redb_create := λ f, match f with
    | inl (Some d) => inr d | inl None => inl (UpgradeRequired 1) | inr msg => inl (OtherDatabaseError msg) end;
  database_error_msg := λ e, match e with OtherDatabaseError msg => msg | _ => [] end;
|}.

Definition locked_file : dbfile := inr (str "locked").

(** The file of [disk0] with a row that does not decode and an index that lists nothing. *)
Definition damaged : Disk := mkDisk (t_insert [7] [7] (peers disk0)) m_empty (kv disk0).

Lemma damaged_keyed : keyed damaged.
Proof.
  intros k v r Hv Hd. unfold damaged in Hv. cbn [peers] in Hv. rewrite t_get_insert in Hv. case_decide.
  - by simplify_eq.
  - destruct (repr_row _ _ repr_disk0 _ _ Hv) as (r' & Hk & Hd' & _). congruence.
Qed.


Lemma open_keeps_refused_file_witness :
  ∃ e, (open false locked_file (mkWorld disk0 [])).1 = Err e ∧
    e = Database (str "locked").
Proof.
  destruct (open_keeps_refused_file disk0 false locked_file
    (OtherDatabaseError (str "locked")) eq_refl eq_refl []) as (e & He & _ & Hq).
  exists e. split; [done|]. apply Hq. constructor.
Defined.

Lemma blob_roundtrip_witness :
  atomic disk0 (put_blob (str "api_key") [1; 2; 3]) (λ _, False) (λ _ d', repr d' map0 ∧
    atomic d' (get_blob (str "api_key")) (λ _, False) (λ v d'', v = Some [1; 2; 3] ∧ d'' = d')).
Proof.
  eapply atomic_mono; [apply (blob_roundtrip disk0 map0 (str "api_key") [1; 2; 3] repr_disk0)|].
  cbn beta. intros _ d' (? & ? & _). by split.
Defined.
