(* ===== verification/Crawler.v ===== *)
(** * The crawler's data: probe results, address rules and counters

    src/crawler/src/model.rs, src/crawler/src/error.rs and src/crawler/src/metrics.rs. *)

From S2P Require Import Prelude Text Net Record Redb.

(** ** Errors *)

Inductive ProbeError : Type :=
  | Connection (msg : rstr)
  | StoreFailed (err : StoreError)
  | Handshake (msg : rstr)
  | NetworkMismatch (local remote : rstr)
  | Addresses (msg : rstr)
  | Timeout
  | TooManyAddresses (n : Z).

(** ** Probe results *)

(** The p2p [VersionMessage], with the fields the crawler reads and writes. *)
Record VersionMessage : Type := mkVersion {
  vm_protocol_version : Z;
  vm_services : Z;
  vm_timestamp : Z;
  vm_id : bytes;
  vm_user_agent : rstr;
  vm_disable_relay_tx : bool;
  vm_subnetwork_id : option bytes;
  vm_network : rstr;
}.

Section model.
Context `{KaspaNet}.

Record ProbeResult : Type := mkProbeResult {
  version : VersionMessage;
  addresses : list (IpAddress * Z);
}.

(** [peer_id_from_bytes]: copy at most 16 bytes over a zeroed id. *)
Definition peer_id_from_bytes (bs : bytes) : PeerId :=
  let n := Nat.min (length bs) 16 in
  take n bs ++ drop n (replicate 16 0).

(** [<[u8; 20]>::try_from(slice).ok()]. *)
Definition array20_try_from (bs : bytes) : option bytes :=
  if decide (length bs = 20%nat) then Some bs else None.

(** [peer_record_from_version]. *)
Definition peer_record_from_version (addr : SocketAddr) (v : VersionMessage) (now : Z) (existing : option PeerRecord)
    : PeerRecord :=
  let id := peer_id_from_bytes (vm_id v) in
  let canonical_ip := canonicalize_ip (socket_ip addr) in
  let address := mkNetAddress canonical_ip (socket_port addr) in
  let subnetwork_id := vm_subnetwork_id v ≫= array20_try_from in
  let first_seen_ms := match existing with Some r => first_seen_ms r | None => now end in
  mkPeerRecord address id (vm_protocol_version v) (vm_user_agent v) subnetwork_id (vm_timestamp v)
    first_seen_ms now now now.

Definition EPHEMERAL_PORT_FLOOR : Z := 32768.

(** [is_acceptable_address]. *)
Definition is_acceptable_address (addr : NetAddress) (default_port : Z) (strict_port : bool) : bool :=
  if decide (port addr = 0) then false
  else if (if strict_port then bool_decide (port addr ≠ default_port)
           else bool_decide (EPHEMERAL_PORT_FLOOR ≤ port addr)) then false
  else if is_multicast (ip addr) then false
  else is_publicly_routable (ip_address_from (ip addr)).

(** ** Lemmas *)

Lemma peer_id_length bs : length (peer_id_from_bytes bs) = 16%nat.
Proof.
  unfold peer_id_from_bytes. cbv zeta. rewrite length_app, length_take, length_drop, length_replicate. lia.
Qed.

Lemma peer_id_prefix bs i : (i < 16)%nat → peer_id_from_bytes bs !! i = Some (default 0 (bs !! i)).
Proof.
  intros Hi. unfold peer_id_from_bytes. cbv zeta. destruct (decide (i < length bs)%nat) as [Hl|Hl].
  - rewrite lookup_app_l by (rewrite length_take; lia). rewrite lookup_take_lt by lia.
    destruct (lookup_lt_is_Some_2 bs i Hl) as [x ->]. done.
  - rewrite lookup_app_r by (rewrite length_take; lia). rewrite lookup_drop, length_take, (lookup_ge_None_2 bs) by lia.
    rewrite lookup_replicate_2 by lia. done.
Qed.

Lemma is_acceptable_address_spec addr dport strict :
  is_acceptable_address addr dport strict = true ↔
    port addr ≠ 0 ∧ (if strict then port addr = dport else port addr < EPHEMERAL_PORT_FLOOR) ∧
    is_multicast (ip addr) = false ∧ is_publicly_routable (ip_address_from (ip addr)) = true.
Proof.
  unfold is_acceptable_address. case_decide as Hz; [by split; [|intros []]|].
  assert (Hb : ∀ (b c r : bool) (P : Prop), (b = false ↔ P) →
    (if b then false else if c then false else r) = true ↔ port addr ≠ 0 ∧ P ∧ c = false ∧ r = true).
  { intros [] [] [] P HP; naive_solver. }
  apply Hb. destruct strict; rewrite bool_decide_eq_false; [|lia].
  split; [apply dec_stable|]. intros Heq Hne. by apply Hne.
Qed.
End model.

(** ** Counters *)

Record CrawlerMetrics : Type := mkCrawlerMetrics {
  m_ok : Z; m_failed : Z; m_in_flight : Z; m_failed_connect : Z; m_failed_handshake : Z;
  m_failed_addresses : Z; m_failed_timeout : Z; m_failed_too_many : Z; m_skipped_backpressure : Z;
}.
(** A snapshot has the same fields. *)
Abbreviation CrawlerSnapshot := CrawlerMetrics (only parsing).

Definition crawler_metrics_new : CrawlerMetrics := mkCrawlerMetrics 0 0 0 0 0 0 0 0 0.

(** Atomic additions, one per counter. *)
Definition add_ok (n : Z) (m : CrawlerMetrics) : CrawlerMetrics :=
  mkCrawlerMetrics (u64_fetch_add (m_ok m) n) (m_failed m) (m_in_flight m) (m_failed_connect m)
    (m_failed_handshake m) (m_failed_addresses m) (m_failed_timeout m) (m_failed_too_many m) (m_skipped_backpressure m).
Definition add_failed (n : Z) (m : CrawlerMetrics) : CrawlerMetrics :=
  mkCrawlerMetrics (m_ok m) (u64_fetch_add (m_failed m) n) (m_in_flight m) (m_failed_connect m)
    (m_failed_handshake m) (m_failed_addresses m) (m_failed_timeout m) (m_failed_too_many m) (m_skipped_backpressure m).
Definition set_in_flight (n : Z) (m : CrawlerMetrics) : CrawlerMetrics :=
  mkCrawlerMetrics (m_ok m) (m_failed m) n (m_failed_connect m)
    (m_failed_handshake m) (m_failed_addresses m) (m_failed_timeout m) (m_failed_too_many m) (m_skipped_backpressure m).

(** [record_ok] and [record_failed]. *)
Definition record_ok : CrawlerMetrics → CrawlerMetrics := add_ok 1.
Definition record_failed : CrawlerMetrics → CrawlerMetrics := add_failed 1.

(** [record_failed_kind]. *)
Definition record_failed_kind (err : ProbeError) (m : CrawlerMetrics) : CrawlerMetrics :=
  let bump (x : Z) := u64_fetch_add x 1 in
  match err with
  | Connection _ | StoreFailed _ =>
      mkCrawlerMetrics (m_ok m) (m_failed m) (m_in_flight m) (bump (m_failed_connect m)) (m_failed_handshake m)
        (m_failed_addresses m) (m_failed_timeout m) (m_failed_too_many m) (m_skipped_backpressure m)
  | Handshake _ | NetworkMismatch _ _ =>
      mkCrawlerMetrics (m_ok m) (m_failed m) (m_in_flight m) (m_failed_connect m) (bump (m_failed_handshake m))
        (m_failed_addresses m) (m_failed_timeout m) (m_failed_too_many m) (m_skipped_backpressure m)
  | Addresses _ =>
      mkCrawlerMetrics (m_ok m) (m_failed m) (m_in_flight m) (m_failed_connect m) (m_failed_handshake m)
        (bump (m_failed_addresses m)) (m_failed_timeout m) (m_failed_too_many m) (m_skipped_backpressure m)
  | Timeout =>
      mkCrawlerMetrics (m_ok m) (m_failed m) (m_in_flight m) (m_failed_connect m) (m_failed_handshake m)
        (m_failed_addresses m) (bump (m_failed_timeout m)) (m_failed_too_many m) (m_skipped_backpressure m)
  | TooManyAddresses _ =>
      mkCrawlerMetrics (m_ok m) (m_failed m) (m_in_flight m) (m_failed_connect m) (m_failed_handshake m)
        (m_failed_addresses m) (m_failed_timeout m) (bump (m_failed_too_many m)) (m_skipped_backpressure m)
  end.

(** [record_skipped_backpressure]. *)
Definition record_skipped_backpressure (n : Z) (m : CrawlerMetrics) : CrawlerMetrics :=
  if decide (0 < n) then
    mkCrawlerMetrics (m_ok m) (m_failed m) (m_in_flight m) (m_failed_connect m) (m_failed_handshake m)
      (m_failed_addresses m) (m_failed_timeout m) (m_failed_too_many m) (u64_fetch_add (m_skipped_backpressure m) n)
  else m.

(** [in_flight_inc] and [in_flight_dec]. *)
Definition in_flight_inc (m : CrawlerMetrics) : CrawlerMetrics := set_in_flight (u64_fetch_add (m_in_flight m) 1) m.
Definition in_flight_dec (m : CrawlerMetrics) : CrawlerMetrics := set_in_flight (u64_fetch_sub (m_in_flight m) 1) m.

(** [snapshot] and [restore]: the gauge is not restored. *)
Definition crawler_snapshot (m : CrawlerMetrics) : CrawlerSnapshot := m.
Definition crawler_restore (snap : CrawlerSnapshot) (m : CrawlerMetrics) : CrawlerMetrics :=
  mkCrawlerMetrics (m_ok snap) (m_failed snap) (m_in_flight m) (m_failed_connect snap) (m_failed_handshake snap)
    (m_failed_addresses snap) (m_failed_timeout snap) (m_failed_too_many snap) (m_skipped_backpressure snap).

(** ** The breakdown of failures

    The five per-kind counters add up to [failed], modulo the counters' width. *)
Definition failed_kinds (m : CrawlerMetrics) : Z :=
  m_failed_connect m + m_failed_handshake m + m_failed_addresses m + m_failed_timeout m + m_failed_too_many m.
Definition failures_balanced (m : CrawlerMetrics) : Prop := u64_wrap (failed_kinds m) = u64_wrap (m_failed m).

Lemma failures_balanced_new : failures_balanced crawler_metrics_new.
Proof. done. Qed.

Lemma failures_balanced_failed err m :
  failures_balanced m → failures_balanced (record_failed_kind err (record_failed m)).
Proof.
  unfold failures_balanced, failed_kinds. intros Hb. destruct err; cbn; unfold u64_fetch_add, u64_wrap in *; div_lia.
Qed.

Lemma failures_balanced_restore snap m :
  failures_balanced snap → failures_balanced (crawler_restore snap m).
Proof. done. Qed.
