(* ===== verification/Runner.v ===== *)
(** * Probe execution and outcome persistence (src/crawler/src/probe/runner.rs)

    What happens to the store and the counters once a probe has an outcome. The probe itself is a
    trait object: its outcome is an argument here, and ProbeInit.v models the
    implementation. Clock readings are arguments. *)

From S2P Require Import Prelude Text Net Record Redb RedbInstances PeerStore StoreSpec StoreOps StoreScans StoreExample Crawler.

Section runner.
Context `{RedbApi} `{Bincode} `{Semver} `{KaspaNet}.

(** [apply_success]: [now_ms()] is read between the lookup and the upsert. *)
Definition apply_success (addr : SocketAddr) (result : ProbeResult) (now : Z) : DB PeerRecord :=
  existing ← get (net_from addr);
  let record := peer_record_from_version addr (version result) now existing in
  upsert record ≫= λ _, mret record.

(** The addresses [insert_discovered_stubs] keeps: port 0 means the default port. *)
Definition accepted_addresses (addrs : list (IpAddress * Z)) (default_port : Z) (strict_port : bool)
    : list NetAddress :=
  filter (λ net, is_acceptable_address net default_port strict_port = true)
    ((λ ap : IpAddress * Z,
        let port := if decide (ap.2 = 0) then default_port else ap.2 in
        mkNetAddress (canonicalize_ip (ip_address_into ap.1)) port) <$> addrs).

(** [insert_discovered_stubs]. *)
Definition insert_discovered_stubs (addrs : list (IpAddress * Z)) (default_port : Z) (strict_port : bool) (now : Z)
    : DB Z :=
  or_log (insert_or_refresh_seen_batch (accepted_addresses addrs default_port strict_port) now) 0.

(** [probe_one], from the probe's outcome on; [now1] and [now2] are the clock readings of
    [apply_success] and [insert_discovered_stubs]. *)
Definition probe_one (outcome : ProbeError + ProbeResult) (addr : SocketAddr) (default_port : Z) (strict_port : bool)
    (now1 now2 : Z) (metrics : option CrawlerMetrics) : DB (option CrawlerMetrics) :=
  match outcome with
  | inr result =>
      let metrics := record_ok <$> metrics in
      or_log (apply_success addr result now1 ≫= λ _, mret tt) tt ≫= λ _,
      insert_discovered_stubs (addresses result) default_port strict_port now2 ≫= λ _,
      mret metrics
  | inl err => mret ((λ m, record_failed_kind err (record_failed m)) <$> metrics)
  end.

(** [probe_and_store]. *)
Definition probe_and_store (outcome : ProbeError + ProbeResult) (addr : SocketAddr) (now : Z)
    : World → Prelude.outcome ProbeError PeerRecord * World := λ w,
  match outcome with
  | inr result =>
      match apply_success addr result now w with
      | (Ok rec, w') => (Ok rec, w')
      | (Err e, w') => (Err (StoreFailed e), w')
      | (Panic, w') => (Panic, w')
      end
  | inl err =>
      match or_log (record_attempt (net_from addr) now ≫= λ _, mret tt) tt w with
      | (Panic, w') => (Panic, w')
      | (_, w') => (Err err, w')
      end
  end.

(** ** Specification *)

Definition spec_apply (addr : SocketAddr) (v : VersionMessage) (now : Z) (m : gmap NetAddress PeerRecord) : PeerRecord :=
  peer_record_from_version addr v now (m !! net_from addr).

(** An address the crawler stores: acceptable, and not an IPv4 address in IPv6 clothing. *)
Definition addr_ok (default_port : Z) (strict_port : bool) (a : NetAddress) : Prop :=
  is_acceptable_address a default_port strict_port = true ∧ canonicalize_ip (ip a) = ip a.
Definition store_ok (default_port : Z) (strict_port : bool) (m : gmap NetAddress PeerRecord) : Prop :=
  map_Forall (λ a _, addr_ok default_port strict_port a) m.

Lemma accepted_addresses_ok addrs dport strict a :
  a ∈ accepted_addresses addrs dport strict → addr_ok dport strict a.
Proof.
  unfold accepted_addresses. rewrite list_elem_of_filter, list_elem_of_fmap.
  intros [Ha (ap & -> & _)]. split; [done|]. apply canonicalize_ip_idemp.
Qed.

Context `{!RedbLaws} `{!BincodeLaws}.

Lemma apply_success_atomic d m addr result now :
  repr d m → atomic d (apply_success addr result now) enc_err
    (λ r d', r = spec_apply addr (version result) now m ∧ repr d' (<[net_from addr := r]> m) ∧ kv d' = kv d).
Proof.
  intros Hr. unfold apply_success. eapply (atomic_bind_query _ _ _ _ (λ e, e = m !! net_from addr)).
  { by apply get_atomic. }
  intros existing ->. eapply atomic_bind_ret; [by apply upsert_atomic|]. by intros [] d' [? ?].
Qed.

(** The store after a successful probe: the record, then the stubs; either is lost only to a fault. *)
Lemma probe_one_success d m addr result dport strict now1 now2 ms fs :
  repr d m →
  ∃ w' m1 m2,
    probe_one (inr result) addr dport strict now1 now2 ms (mkWorld d fs) = (Ok (record_ok <$> ms), w') ∧
    repr (disk w') m2 ∧ (quiet fs → quiet (faults w')) ∧
    (m1 = <[net_from addr := spec_apply addr (version result) now1 m]> m ∨ (m1 = m ∧ ¬ reliable fs)) ∧
    (m2 = (spec_seen_batch now2 (accepted_addresses (addresses result) dport strict) m1).2 ∨ (m2 = m1 ∧ ¬ reliable fs)).
Proof.
  intros Hr. cbn [probe_one].
  assert (Hup : atomic d (apply_success addr result now1 ≫= λ _, mret tt) enc_err
    (λ _ d', repr d' (<[net_from addr := spec_apply addr (version result) now1 m]> m))).
  { eapply atomic_bind_ret; [by apply apply_success_atomic|]. by intros r d' (-> & ? & _). }
  destruct (atomic_or_log d _ tt _ _ fs Hup) as ([] & [d1 fs1] & E1 & Hq1 & Hd1). cbn [disk faults] in *.
  unfold mbind at 1, DB_bind at 1. rewrite E1.
  assert (∃ m1, repr d1 m1 ∧
    (m1 = <[net_from addr := spec_apply addr (version result) now1 m]> m ∨ (m1 = m ∧ ¬ reliable fs))) as (m1 & Hr1 & Hm1).
  { destruct Hd1 as [?|(_ & -> & Hn)]; [by eauto|]. exists m. split; [done|]. right. split; [done|].
    by intros ?%reliable_no_err. }
  destruct (atomic_or_log d1 _ 0 _ _ fs1 (seen_batch_atomic d1 m1 (accepted_addresses (addresses result) dport strict) now2 Hr1))
    as (n & [d2 fs2] & E2 & Hq2 & Hd2). unfold insert_discovered_stubs, mbind, DB_bind. rewrite E2.
  eexists _, m1. destruct Hd2 as [(_ & Hr2 & _)|(_ & Hd2 & Hn)].
  - eexists. split; [done|]. split; [done|]. split; [by auto|]. split; [done|]. by left.
  - exists m1. split; [done|]. cbn in Hd2 |- *. subst d2. split; [done|]. split; [by auto|]. split; [done|]. right. split; [done|].
    intros [Hq Hc]. apply Hn. split; [by apply Hq1|]. intros e. by apply codec_total_no_err.
Qed.

Lemma spec_seen_batch_ok dport strict now addrs m :
  store_ok dport strict m → (∀ a, a ∈ addrs → addr_ok dport strict a) →
  store_ok dport strict (spec_seen_batch now addrs m).2.
Proof.
  intros Hm Ha a r. unfold spec_seen_batch. rewrite spec_seen_fold_lookup. case_decide; [by intros _; apply Ha|]. apply Hm.
Qed.

(** ** Theorems *)


(** The crawler only ever stores addresses it would probe: acceptable for the network and in
    canonical form. A probe of such an address keeps this true whatever the peer advertises and
    whichever storage calls fail. *)
Theorem store_ok_preserved d m addr outcome dport strict now1 now2 ms fs :
  repr d m → store_ok dport strict m → addr_ok dport strict (net_from addr) →
  ∃ ms' w' m', probe_one outcome addr dport strict now1 now2 ms (mkWorld d fs) = (Ok ms', w') ∧
    repr (disk w') m' ∧ store_ok dport strict m'.
Proof.
  intros Hr Hok Ha. destruct outcome as [err|result].
  { eexists _, _, m. by split. }
  destruct (probe_one_success d m addr result dport strict now1 now2 ms fs Hr)
    as (w' & m1 & m2 & Hrun & Hr2 & _ & Hm1 & Hm2).
  exists (record_ok <$> ms), w', m2. split; [done|]. split; [done|].
  assert (store_ok dport strict m1).
  { destruct Hm1 as [->|[-> _]]; [|done]. by apply map_Forall_insert_2. }
  destruct Hm2 as [->|[-> _]]; [|done]. apply spec_seen_batch_ok; [done|]. intros a. apply accepted_addresses_ok.
Qed.

(** Every probe is counted once, as a success or as a failure of exactly one kind: the five
    per-kind failure counters keep adding up to the total, and a failed probe does not
    touch the store. *)
Theorem probe_counted outcome addr dport strict now1 now2 ms d m fs :
  repr d m → failures_balanced ms →
  ∃ ms' w', probe_one outcome addr dport strict now1 now2 (Some ms) (mkWorld d fs) = (Ok (Some ms'), w') ∧
    failures_balanced ms' ∧
    match outcome with
    | inr _ => m_ok ms' = u64_fetch_add (m_ok ms) 1 ∧ m_failed ms' = m_failed ms
    | inl _ => m_ok ms' = m_ok ms ∧ m_failed ms' = u64_fetch_add (m_failed ms) 1 ∧ disk w' = d
    end.
Proof.
  intros Hr Hb. destruct outcome as [err|result].
  - eexists _, _. split; [done|]. split; [by apply failures_balanced_failed|]. by destruct err.
  - destruct (probe_one_success d m addr result dport strict now1 now2 (Some ms) fs Hr) as (w' & _ & _ & Hrun & _).
    eexists _, w'. split; [done|]. split; [exact Hb|done].
Qed.

(** A submitted address is stored exactly when its probe succeeds and storage does; a failed
    probe is reported as such and leaves at most a bumped attempt, so a probe failure never
    turns into a stored success. *)
Theorem probe_and_store_outcome outcome addr now d m fs :
  repr d m →
  match probe_and_store outcome addr now (mkWorld d fs), outcome with
  | (Ok r, w'), inr result => r = spec_apply addr (version result) now m ∧ repr (disk w') (<[net_from addr := r]> m)
  | (Err (StoreFailed e), w'), inr _ => disk w' = d ∧ (quiet fs → enc_err e)
  | (Err e, w'), inl err => e = err ∧ ((disk w' = d ∧ ¬ reliable fs) ∨
      repr (disk w') (<[net_from addr := spec_record_attempt (net_from addr) now m]> m))
  | _, _ => False
  end.
Proof.
  intros Hr. unfold probe_and_store. destruct outcome as [err|result].
  - assert (Hat : atomic d (record_attempt (net_from addr) now ≫= λ _, mret tt) enc_err
      (λ _ d', repr d' (<[net_from addr := spec_record_attempt (net_from addr) now m]> m))).
    { eapply atomic_bind_ret; [by apply record_attempt_atomic|]. by intros r d' (-> & ? & _). }
    destruct (atomic_or_log d _ tt _ _ fs Hat) as ([] & w' & -> & _ & [Hd|(_ & Hd & Hn)]).
    1: by destruct err; auto.
    assert (¬ reliable fs) by (by intros ?%reliable_no_err). destruct err; auto.
  - pose proof (apply_success_atomic d m addr result now Hr fs) as Ha.
    destruct (apply_success addr result now (mkWorld d fs)) as [[r|e|] w']; [| |done].
    + destruct Ha as [(-> & ? & _) _]. done.
    + destruct Ha as [? He]. split; [done|]. intros Hq. by apply He.
Qed.
End runner.

(** ** Witnesses: the peer of [rec0] answers again and advertises two addresses *)

Definition version0 : VersionMessage := mkVersion 8 0 123 [1; 2; 3] (str "/kaspad:1.1.0/") false None (str "kaspa-mainnet").
Definition result0 : ProbeResult := mkProbeResult version0 [(V4 16843009, 0); (V4 167772161, 16111)].
Definition sock0 : SocketAddr := socket_new (ip addr0) (port addr0).

Lemma net_from_sock0 : net_from sock0 = addr0.
Proof. reflexivity. Qed.


Lemma store_ok_preserved_witness :
  ∃ ms' w' m', probe_one (inr result0) sock0 16111 false 200 201 None (mkWorld disk0 []) = (Ok ms', w') ∧
    repr (disk w') m' ∧ store_ok 16111 false m'.
Proof.
  apply (store_ok_preserved disk0 map0); [apply repr_disk0| |by vm_compute].
  apply map_Forall_insert_2; [by vm_compute|apply map_Forall_empty].
Defined.

Lemma probe_counted_witness :
  ∃ ms' w', probe_one (inl Timeout) sock0 16111 false 200 201 (Some crawler_metrics_new) (mkWorld disk0 []) = (Ok (Some ms'), w') ∧
    failures_balanced ms' ∧ m_failed ms' = 1.
Proof.
  destruct (probe_counted (inl Timeout) sock0 16111 false 200 201 crawler_metrics_new disk0 map0 [] repr_disk0)
    as (ms' & w' & Hrun & Hb & _ & Hf & _); [done|]. by exists ms', w'.
Defined.
