(* ===== verification/WorkerPool.v ===== *)
(** * The crawler's worker pool (src/crawler/src/worker_pool.rs)

    The bounded channel, the in-flight set and the worker slots as one state; the producer
    ([try_enqueue]), the dispatcher loop and the workers as steps that may interleave in any
    order. *)

From S2P Require Import Prelude Text Net.

Definition CHANNEL_PER_THREAD : Z := 4.

Inductive EnqueueOutcome : Type := Accepted | Duplicate | Full | Closed.

#[global] Instance EnqueueOutcome_eq_dec : EqDecision EnqueueOutcome.
Proof. solve_decision. Defined.

(** Where a task of the [JoinSet] is: spawned but not yet polled; probing, with its [InFlightGuard];
    dropping the guard, with the gauge already decremented; finished and not yet joined. *)
Inductive WorkerState : Type := Spawned | Probing | Releasing | Finished.

#[global] Instance WorkerState_eq_dec : EqDecision WorkerState.
Proof. solve_decision. Defined.

Record Pool : Type := mkPool {
  threads : Z;
  depth : Z;                                  (** the channel's capacity *)
  cancelled : bool;                           (** [ctx.cancel] *)
  dispatching : bool;                         (** the dispatcher is in its loop *)
  rx_dropped : bool;                          (** the dispatcher has returned *)
  in_flight : gset SocketAddr;
  producer : option NetAddress;               (** inside [try_enqueue], between the insert and the send *)
  queue : list NetAddress;
  workers : list (SocketAddr * WorkerState);
  gauge : Z;
}.

Definition sock (net : NetAddress) : SocketAddr := socket_new (ip net) (port net).

(** [WorkerPool::spawn]. *)
Definition spawn (n : Z) : Pool :=
  let t := Z.max n 1 in
  mkPool t (usize_saturating_mul t CHANNEL_PER_THREAD) false true false ∅ None [] [] 0.

(** Updates of one or two fields. *)
Definition with_producer (f : gset SocketAddr) (o : option NetAddress) (q : list NetAddress) (p : Pool) : Pool :=
  mkPool (threads p) (depth p) (cancelled p) (dispatching p) (rx_dropped p) f o q (workers p) (gauge p).
Definition with_workers (q : list NetAddress) (ws : list (SocketAddr * WorkerState)) (g : Z) (f : gset SocketAddr)
    (p : Pool) : Pool :=
  mkPool (threads p) (depth p) (cancelled p) (dispatching p) (rx_dropped p) f (producer p) q ws g.
Definition with_phase (c d r : bool) (q : list NetAddress) (p : Pool) : Pool :=
  mkPool (threads p) (depth p) c d r (in_flight p) (producer p) q (workers p) (gauge p).

(** [tx.try_send]. *)
Definition try_send (net : NetAddress) (p : Pool) : EnqueueOutcome * list NetAddress :=
  if rx_dropped p then (Closed, queue p)
  else if decide (Z.of_nat (length (queue p)) < depth p) then (Accepted, queue p ++ [net])
  else (Full, queue p).

(** The second half of [try_enqueue]: the send, undone in the set when it fails. *)
Definition send_reserved (net : NetAddress) (p : Pool) : EnqueueOutcome * Pool :=
  match try_send net p with
  | (Accepted, q) => (Accepted, with_producer (in_flight p) None q p)
  | (o, q) => (o, with_producer (in_flight p ∖ {[sock net]}) None q p)
  end.

(** [WorkerPool::try_enqueue]. *)
Definition try_enqueue (net : NetAddress) (p : Pool) : EnqueueOutcome * Pool :=
  if decide (sock net ∈ in_flight p) then (Duplicate, p)
  else send_reserved net (with_producer ({[sock net]} ∪ in_flight p) (Some net) (queue p) p).

(** [in_flight_len]. *)
Definition in_flight_len (p : Pool) : Z := Z.of_nat (size (in_flight p)).

(** ** Interleaved steps *)

Inductive step : Pool → Pool → Prop :=
  (** [try_enqueue], first half: [in_flight.insert] returned [true]. *)
  | step_reserve p net :
      producer p = None → sock net ∉ in_flight p →
      step p (with_producer ({[sock net]} ∪ in_flight p) (Some net) (queue p) p)
  (** [try_enqueue], second half. *)
  | step_send p net :
      producer p = Some net → step p (send_reserved net p).2
  (** [rx.recv()] and [workers.spawn]: only below the thread limit. *)
  | step_dispatch p net q :
      dispatching p = true → queue p = net :: q → Z.of_nat (length (workers p)) < threads p →
      step p (with_workers q (workers p ++ [(sock net, Spawned)]) (gauge p) (in_flight p) p)
  (** [probe_worker] is polled: [InFlightGuard::new]. *)
  | step_start p ws1 a ws2 :
      workers p = ws1 ++ (a, Spawned) :: ws2 →
      step p (with_workers (queue p) (ws1 ++ (a, Probing) :: ws2) (u64_fetch_add (gauge p) 1) (in_flight p) p)
  (** The probe ends, is cancelled or is aborted: the guard is dropped, the gauge first. *)
  | step_end p ws1 a ws2 :
      workers p = ws1 ++ (a, Probing) :: ws2 →
      step p (with_workers (queue p) (ws1 ++ (a, Releasing) :: ws2) (u64_fetch_sub (gauge p) 1) (in_flight p) p)
  | step_release p ws1 a ws2 :
      workers p = ws1 ++ (a, Releasing) :: ws2 →
      step p (with_workers (queue p) (ws1 ++ (a, Finished) :: ws2) (gauge p) (in_flight p ∖ {[a]}) p)
  (** [workers.join_next()]. *)
  | step_join p ws1 a ws2 :
      workers p = ws1 ++ (a, Finished) :: ws2 →
      step p (with_workers (queue p) (ws1 ++ ws2) (gauge p) (in_flight p) p)
  (** [cancel.cancel()] by the scheduler. *)
  | step_cancel p : step p (with_phase true (dispatching p) (rx_dropped p) (queue p) p)
  (** The loop breaks when it is cancelled; its [else] is for when every branch is disabled, which the wait for the
      cancellation never is. *)
  | step_break p :
      dispatching p = true → cancelled p = true →
      step p (with_phase (cancelled p) false (rx_dropped p) (queue p) p)
  (** [abort_all] on a task that was never polled: there is no guard to drop. *)
  | step_abort p ws1 a ws2 :
      dispatching p = false → workers p = ws1 ++ (a, Spawned) :: ws2 →
      step p (with_workers (queue p) (ws1 ++ (a, Finished) :: ws2) (gauge p) (in_flight p) p)
  (** Every task joined: the dispatcher returns and the receiver is dropped with its queue. *)
  | step_return p :
      dispatching p = false → rx_dropped p = false → workers p = [] →
      step p (with_phase (cancelled p) false true [] p).

Abbreviation steps := (rtc step).

(** The pools a run can get into. *)
Definition reachable (n : Z) (p : Pool) : Prop := steps (spawn n) p.

(** ** The invariant *)

Definition holding (w : SocketAddr * WorkerState) : option SocketAddr :=
  if decide (w.2 = Finished) then None else Some w.1.
Definition probing (ws : list (SocketAddr * WorkerState)) : list SocketAddr :=
  omap (λ w, if decide (w.2 = Probing) then Some w.1 else None) ws.

(** The addresses that are on their way through the pool. *)
Definition tracked (p : Pool) : list SocketAddr :=
  (sock <$> option_list (producer p)) ++ (sock <$> queue p) ++ omap holding (workers p).

Record inv (p : Pool) : Prop := {
  inv_threads : 1 ≤ threads p;
  inv_depth : 0 < depth p;
  inv_tracked : NoDup (tracked p);
  inv_held : ∀ a, a ∈ tracked p → a ∈ in_flight p;
  inv_exact : dispatching p = true → ∀ a, a ∈ in_flight p → a ∈ tracked p;
  inv_queue : Z.of_nat (length (queue p)) ≤ depth p;
  inv_workers : Z.of_nat (length (workers p)) ≤ threads p;
  inv_gauge : gauge p = u64_wrap (Z.of_nat (length (probing (workers p))));
  inv_phase : rx_dropped p = true → dispatching p = false ∧ queue p = [];
  inv_cancelled : dispatching p = false → cancelled p = true;
}.

Lemma sock_inj n1 n2 : sock n1 = sock n2 → n1 = n2.
Proof. destruct n1, n2. unfold sock. cbn. intros [-> ->]%socket_new_inj. done. Qed.

Lemma inv_spawn n : inv (spawn n).
Proof.
  split; cbn; try done; try set_solver.
  - lia.
  - unfold CHANNEL_PER_THREAD. int_solve.
  - constructor.
  - unfold CHANNEL_PER_THREAD. int_solve.
  - lia.
Qed.

(** Moving a worker to another state, as the lists of the invariant see it. *)
Lemma holding_app ws1 w ws2 :
  omap holding (ws1 ++ w :: ws2) = omap holding ws1 ++ option_list (holding w) ++ omap holding ws2.
Proof. rewrite omap_app. cbn. by destruct (holding w). Qed.
Lemma probing_app ws1 w ws2 :
  probing (ws1 ++ w :: ws2) =
  probing ws1 ++ (if decide (w.2 = Probing) then [w.1] else []) ++ probing ws2.
Proof. unfold probing. rewrite omap_app. cbn. by case_decide. Qed.
Lemma length_swap {A} (ws1 : list A) w w' ws2 : length (ws1 ++ w' :: ws2) = length (ws1 ++ w :: ws2).
Proof. rewrite !length_app. done. Qed.

(** A worker that changes state without releasing or acquiring its address. *)
Lemma inv_same_holding p ws ws' g :
  inv p → workers p = ws → omap holding ws' = omap holding ws → length ws' = length ws →
  g = u64_wrap (Z.of_nat (length (probing ws'))) →
  inv (with_workers (queue p) ws' g (in_flight p) p).
Proof.
  intros [] <- Hh Hl ->. split; unfold tracked in *; cbn; rewrite ?Hh, ?Hl; done.
Qed.

(** ** Preservation *)

Lemma inv_reserve p net :
  inv p → producer p = None → sock net ∉ in_flight p →
  inv (with_producer ({[sock net]} ∪ in_flight p) (Some net) (queue p) p).
Proof.
  intros [] Hp Hnet. unfold tracked in *. rewrite Hp in *. split; unfold tracked; cbn in *; try done.
  - constructor; [|done]. intros Hin. by apply Hnet, inv_held0.
  - intros a [->|Ha]%elem_of_cons; apply elem_of_union; [left; by apply elem_of_singleton|right; by apply inv_held0].
  - intros Hd a [->%elem_of_singleton|Ha]%elem_of_union; apply elem_of_cons; [by left|right; by apply inv_exact0].
Qed.

(** The send failed: the reservation is undone. *)
Lemma inv_unreserve p net :
  inv p → producer p = Some net → inv (with_producer (in_flight p ∖ {[sock net]}) None (queue p) p).
Proof.
  intros [] Hp. unfold tracked in *. rewrite Hp in *. cbn in *. apply NoDup_cons in inv_tracked0 as [Hni Hnd].
  split; unfold tracked; cbn; try done.
  - intros a Ha. apply elem_of_difference. split; [apply inv_held0; by right|].
    intros ->%elem_of_singleton. done.
  - intros Hd a [Ha Hne]%elem_of_difference. apply (inv_exact0 Hd), elem_of_cons in Ha as [->|]; [|done].
    by destruct Hne; apply elem_of_singleton.
Qed.

Lemma inv_sent p net :
  inv p → producer p = Some net → rx_dropped p = false → Z.of_nat (length (queue p)) < depth p →
  inv (with_producer (in_flight p) None (queue p ++ [net]) p).
Proof.
  intros [] Hp Hrx Hlt.
  assert (Htr : tracked (with_producer (in_flight p) None (queue p ++ [net]) p) ≡ₚ tracked p).
  { unfold tracked. cbn. rewrite Hp, fmap_app. cbn. rewrite <-app_assoc. cbn. by rewrite <-Permutation_middle. }
  split; cbn; try done.
  - by rewrite Htr.
  - intros a. rewrite Htr. apply inv_held0.
  - intros Hd a. rewrite Htr. by apply inv_exact0.
  - rewrite length_app. cbn. lia.
  - congruence.
Qed.

Lemma inv_send p net : inv p → producer p = Some net → inv (send_reserved net p).2.
Proof.
  intros Hi Hp. unfold send_reserved, try_send. destruct (rx_dropped p) eqn:Hrx; [|case_decide]; cbn.
  - by apply inv_unreserve.
  - by apply inv_sent.
  - by apply inv_unreserve.
Qed.

Lemma inv_dispatch p net q :
  inv p → dispatching p = true → queue p = net :: q → Z.of_nat (length (workers p)) < threads p →
  inv (with_workers q (workers p ++ [(sock net, Spawned)]) (gauge p) (in_flight p) p).
Proof.
  intros [] Hd Hq Hw.
  assert (Htr : tracked (with_workers q (workers p ++ [(sock net, Spawned)]) (gauge p) (in_flight p) p) ≡ₚ tracked p).
  { unfold tracked. cbn. rewrite Hq, omap_app. cbn. rewrite !app_assoc. rewrite (Permutation_app_comm _ [sock net]).
    cbn. rewrite <-!app_assoc. cbn. by rewrite <-Permutation_middle. }
  split; cbn; try done.
  - by rewrite Htr.
  - intros a. rewrite Htr. apply inv_held0.
  - intros _ a. rewrite Htr. by apply inv_exact0.
  - rewrite Hq in inv_queue0. cbn in inv_queue0. lia.
  - rewrite length_app. cbn. lia.
  - unfold probing in *. rewrite omap_app. cbn. by rewrite app_nil_r.
  - intros [? ?]%inv_phase0. congruence.
Qed.

Lemma inv_release p ws1 a ws2 :
  inv p → workers p = ws1 ++ (a, Releasing) :: ws2 →
  inv (with_workers (queue p) (ws1 ++ (a, Finished) :: ws2) (gauge p) (in_flight p ∖ {[a]}) p).
Proof.
  intros [] Hw. set (p' := with_workers _ _ _ _ _).
  assert (Htr : tracked p ≡ₚ a :: tracked p').
  { unfold tracked, p'. cbn [producer queue workers with_workers]. rewrite Hw, !holding_app.
    cbn [holding option_list]. unfold holding. cbn. solve_Permutation. }
  rewrite Htr in inv_tracked0. apply NoDup_cons in inv_tracked0 as [Hni Hnd].
  rewrite Hw in *. split; cbn; try done.
  - intros b Hb. apply elem_of_difference. split; [apply inv_held0; rewrite Htr; by right|].
    intros ->%elem_of_singleton. done.
  - intros Hd b [Hb Hne]%elem_of_difference. apply (inv_exact0 Hd) in Hb. rewrite Htr in Hb.
    apply elem_of_cons in Hb as [->|]; [|done]. by destruct Hne; apply elem_of_singleton.
  - by rewrite (length_swap ws1 (a, Releasing)).
  - rewrite inv_gauge0. by rewrite !probing_app.
Qed.

Lemma inv_join p ws1 a ws2 :
  inv p → workers p = ws1 ++ (a, Finished) :: ws2 →
  inv (with_workers (queue p) (ws1 ++ ws2) (gauge p) (in_flight p) p).
Proof.
  intros [] Hw. unfold tracked in *. rewrite Hw, holding_app in *.
  split; unfold tracked; cbn; rewrite ?omap_app; try done.
  - rewrite length_app in *. cbn in inv_workers0. lia.
  - rewrite inv_gauge0, probing_app. done.
Qed.

(** [abort_all]: the entry of a task that never ran stays in the set. *)
Lemma inv_abort p ws1 a ws2 :
  inv p → dispatching p = false → workers p = ws1 ++ (a, Spawned) :: ws2 →
  inv (with_workers (queue p) (ws1 ++ (a, Finished) :: ws2) (gauge p) (in_flight p) p).
Proof.
  intros [] Hd Hw. set (p' := with_workers _ _ _ _ _).
  assert (Htr : tracked p ≡ₚ a :: tracked p').
  { unfold tracked, p'. cbn [producer queue workers with_workers]. rewrite Hw, !holding_app.
    cbn [holding option_list]. unfold holding. cbn. solve_Permutation. }
  rewrite Htr in inv_tracked0. apply NoDup_cons in inv_tracked0 as [Hni Hnd].
  rewrite Hw in *. split; cbn; try done.
  - intros b Hb. apply inv_held0. rewrite Htr. by right.
  - congruence.
  - by rewrite (length_swap ws1 (a, Spawned)).
  - rewrite inv_gauge0. by rewrite !probing_app.
Qed.

Lemma inv_phase_change p c d r q :
  inv p → (dispatching p = false → d = false) → (r = true → d = false ∧ q = []) → (q = queue p ∨ q = []) →
  (d = true → q = queue p) → (d = false → c = true) →
  inv (with_phase c d r q p).
Proof.
  intros [] Hd Hr Hq Hdq Hc.
  assert (Hsub : tracked (with_phase c d r q p) `sublist_of` tracked p).
  { unfold tracked. cbn. apply sublist_app; [done|]. apply sublist_app; [|done].
    destruct Hq as [->| ->]; [done|apply sublist_nil_l]. }
  split; cbn; try done.
  - by eapply sublist_NoDup.
  - intros a Ha. apply inv_held0. by eapply elem_of_sublist.
  - intros -> a Ha. unfold tracked. cbn. rewrite Hdq by done. apply inv_exact0; [|done].
    destruct (dispatching p); [done|]. by discriminate Hd.
  - destruct Hq as [->| ->]; cbn; [done|lia].
Qed.

Lemma u64_wrap_add_l a b : u64_wrap (u64_wrap a + b) = u64_wrap (a + b).
Proof. unfold u64_wrap. by rewrite Zplus_mod_idemp_l. Qed.

Lemma inv_step p p' : inv p → step p p' → inv p'.
Proof.
  intros Hi Hs. destruct Hs as [p net Hp Hn|p net Hp|p net q Hd Hq Hw|p ws1 a ws2 Hw|p ws1 a ws2 Hw|p ws1 a ws2 Hw
    |p ws1 a ws2 Hw|p|p Hd Hc|p ws1 a ws2 Hd Hw|p Hd Hrx Hw].
  - by apply inv_reserve.
  - by apply inv_send.
  - by apply inv_dispatch.
  - eapply inv_same_holding; [done..| | |].
    + by rewrite !holding_app.
    + apply length_swap.
    + rewrite (inv_gauge p Hi), Hw, !probing_app. unfold u64_fetch_add. rewrite u64_wrap_add_l. f_equal. cbn [snd].
      rewrite decide_False, decide_True by done. rewrite !length_app. cbn. lia.
  - eapply inv_same_holding; [done..| | |].
    + by rewrite !holding_app.
    + apply length_swap.
    + rewrite (inv_gauge p Hi), Hw, !probing_app. unfold u64_fetch_sub. rewrite <-Z.add_opp_r, u64_wrap_add_l. f_equal. cbn [snd].
      rewrite decide_True, decide_False by done. rewrite !length_app. cbn. lia.
  - by apply inv_release.
  - by eapply inv_join.
  - apply inv_phase_change; [done..| |by left|done|done]. intros Hr. by apply (inv_phase p Hi).
  - apply inv_phase_change; [done..| |by left|done|done]. intros Hr. split; [done|]. by apply (inv_phase p Hi).
  - by apply inv_abort.
  - apply inv_phase_change; [done..| |by right|done|]; [done|]. intros _. by apply (inv_cancelled p Hi).
Qed.

Lemma inv_steps p p' : steps p p' → inv p → inv p'.
Proof. induction 1 as [|p1 p2 p3 Hs _ IH]; [done|]. intros Hi. by eapply IH, inv_step. Qed.
Lemma inv_reachable n p : reachable n p → inv p.
Proof. intros Hr. eapply inv_steps; [exact Hr|apply inv_spawn]. Qed.

Lemma step_limits p p' : step p p' → threads p' = threads p ∧ depth p' = depth p.
Proof. destruct 1; try done. unfold send_reserved. destruct (try_send net p) as [[] q]; done. Qed.

Lemma reachable_limits n p :
  reachable n p → threads p = Z.max n 1 ∧ depth p = usize_saturating_mul (Z.max n 1) CHANNEL_PER_THREAD.
Proof.
  unfold reachable. intros Hr. remember (spawn n) as p0 eqn:E.
  assert (threads p0 = Z.max n 1 ∧ depth p0 = usize_saturating_mul (Z.max n 1) CHANNEL_PER_THREAD) as H0 by by subst.
  clear E. induction Hr as [|p1 p2 p3 Hs%step_limits _ IH]; [done|]. apply IH. destruct Hs as [-> ->]. done.
Qed.

Lemma probing_sublist ws : probing ws `sublist_of` omap holding ws.
Proof.
  induction ws as [|[a []] ws IH]; cbn; [done|..]; try (by constructor); done.
Qed.

Lemma probing_tracked p : probing (workers p) `sublist_of` tracked p.
Proof. unfold tracked. do 2 apply sublist_inserts_l. apply probing_sublist. Qed.

(** ** [try_enqueue] as a whole *)

Lemma with_producer_id p o : producer p = o → with_producer (in_flight p) o (queue p) p = p.
Proof. intros <-. by destruct p. Qed.

Lemma reserve_undo p net :
  producer p = None → sock net ∉ in_flight p →
  with_producer (({[sock net]} ∪ in_flight p) ∖ {[sock net]}) None (queue p)
    (with_producer ({[sock net]} ∪ in_flight p) (Some net) (queue p) p) = p.
Proof.
  intros Hp Hn. assert (({[sock net]} ∪ in_flight p) ∖ {[sock net]} = in_flight p) as -> by set_solver.
  destruct p; cbn in *. by subst.
Qed.

Lemma try_enqueue_steps p net : producer p = None → steps p (try_enqueue net p).2.
Proof.
  intros Hp. unfold try_enqueue. case_decide as Hin; [done|].
  eapply rtc_l; [by apply (step_reserve p net)|]. apply rtc_once. by apply step_send.
Qed.

Lemma try_enqueue_cases p net :
  producer p = None →
  (sock net ∈ in_flight p ∧ try_enqueue net p = (Duplicate, p)) ∨
  (sock net ∉ in_flight p ∧ rx_dropped p = true ∧ try_enqueue net p = (Closed, p)) ∨
  (sock net ∉ in_flight p ∧ rx_dropped p = false ∧ depth p ≤ Z.of_nat (length (queue p)) ∧
     try_enqueue net p = (Full, p)) ∨
  (sock net ∉ in_flight p ∧ rx_dropped p = false ∧ Z.of_nat (length (queue p)) < depth p ∧
     try_enqueue net p = (Accepted, with_producer ({[sock net]} ∪ in_flight p) None (queue p ++ [net]) p)).
Proof.
  intros Hp. unfold try_enqueue. case_decide as Hin; [by left|right].
  unfold send_reserved, try_send. cbn [rx_dropped queue depth with_producer in_flight].
  destruct (rx_dropped p) eqn:Hrx; [left|right; case_decide as Hlt; [right|left]].
  - by rewrite reserve_undo.
  - done.
  - rewrite reserve_undo by done. repeat split; try done. lia.
Qed.

(** ** Progress *)

Definition weight (s : WorkerState) : nat :=
  match s with Spawned => 4 | Probing => 3 | Releasing => 2 | Finished => 1 end.
Definition work (p : Pool) : nat :=
  ((if dispatching p then 1 else 0) + (if rx_dropped p then 0 else 1) + 5 * length (queue p) +
   sum_list_with (λ w, weight w.2) (workers p))%nat.

(** A step of the dispatcher or a worker: the producer is away and nobody cancels. *)
Definition own_step (p p' : Pool) : Prop := step p p' ∧ producer p' = None ∧ cancelled p' = cancelled p ∧ p' ≠ p.

Lemma own_step_work p p' : producer p = None → own_step p p' → (work p' < work p)%nat.
Proof.
  intros Hn (Hs & Hp' & Hc & Hne). unfold work.
  destruct Hs as [p net Hp Hf|p net Hp|p net q Hd Hq Hw|p ws1 a ws2 Hw|p ws1 a ws2 Hw|p ws1 a ws2 Hw
    |p ws1 a ws2 Hw|p|p Hd Hc'|p ws1 a ws2 Hd Hw|p Hd Hrx Hw]; try done; try congruence; cbn.
  - rewrite Hq, sum_list_with_app. cbn. lia.
  - rewrite Hw, !sum_list_with_app. cbn. lia.
  - rewrite Hw, !sum_list_with_app. cbn. lia.
  - rewrite Hw, !sum_list_with_app. cbn. lia.
  - rewrite Hw, !sum_list_with_app. cbn. lia.
  - exfalso. apply Hne. cbn in Hc. rewrite Hc. by destruct p.
  - rewrite Hd. lia.
  - rewrite Hw, !sum_list_with_app. cbn. lia.
  - rewrite Hd, Hrx. lia.
Qed.

(** As long as something is on its way there is such a step. *)
Lemma own_step_progress p :
  inv p → producer p = None → (∃ p', own_step p p') ∨
  (queue p = [] ∧ workers p = [] ∧ dispatching p = negb (cancelled p) ∧ rx_dropped p = cancelled p).
Proof.
  intros Hi Hp. destruct (workers p) as [|[a s] ws] eqn:Hw.
  2: { left. destruct s; eexists; (split;
         [first [by apply (step_start p [] a ws) | by apply (step_end p [] a ws) | by apply (step_release p [] a ws)
                | by apply (step_join p [] a ws)]|]); (split; [done|split; [done|]]); intros E%(f_equal workers);
         rewrite Hw in E; cbn in E; try discriminate E; by apply (f_equal length) in E; cbn in E; lia. }
  destruct (dispatching p) eqn:Hd.
  - assert (rx_dropped p = false) as Hrx by (destruct (rx_dropped p) eqn:E; [by apply (inv_phase p Hi) in E as [E _]; congruence|done]).
    destruct (cancelled p) eqn:Hc.
    { left. eexists. split; [by apply step_break|]. split; [done|]. split; [done|]. intros E%(f_equal dispatching). by rewrite Hd in E. }
    destruct (queue p) as [|net q] eqn:Hq; [by right|left]. eexists. split.
    { apply (step_dispatch p net q); [done..|]. rewrite Hw. pose proof (inv_threads p Hi). cbn. lia. }
    split; [done|]. split; [done|]. intros E%(f_equal queue). rewrite Hq in E. cbn in E. apply (f_equal length) in E. cbn in E. lia.
  - rewrite (inv_cancelled p Hi Hd). destruct (rx_dropped p) eqn:Hrx.
    + right. by destruct (inv_phase p Hi Hrx) as [_ ->].
    + left. eexists. split; [by apply step_return|]. split; [done|]. split; [done|]. intros E%(f_equal rx_dropped). by rewrite Hrx in E.
Qed.

Lemma own_step_inv p p' : inv p → own_step p p' → inv p'.
Proof. intros Hi [Hs _]. by eapply inv_step. Qed.

Lemma own_steps_inv p p' : rtc own_step p p' → inv p → producer p = None → inv p' ∧ producer p' = None ∧ cancelled p' = cancelled p.
Proof.
  induction 1 as [|x y z Hxy _ IH]; [done|]. intros Hi Hp. pose proof Hxy as (_ & Hy & Hc & _).
  rewrite <-Hc. apply IH; [by eapply own_step_inv|done].
Qed.

(** The pool's own steps end. *)
Lemma own_step_acc p : producer p = None → Acc (flip own_step) p.
Proof.
  remember (work p) as k eqn:Hk. revert p Hk. induction (lt_wf k) as [k _ IH]. intros p -> Hp.
  constructor. intros p' Hs. pose proof Hs as (_ & Hp' & _). eapply IH; [by eapply own_step_work|done|done].
Qed.

(** There is such an end. *)
Lemma own_steps_end p : inv p → producer p = None → ∃ p', rtc own_step p p' ∧ ∀ p'', ¬ own_step p' p''.
Proof.
  intros Hi Hp. pose proof (own_step_acc p Hp) as Hacc. revert Hi Hp. induction Hacc as [p _ IH]. intros Hi Hp.
  destruct (own_step_progress p Hi Hp) as [[p' Hs]|(Hq & Hw & Hd & Hrx)].
  - pose proof Hs as (_ & Hp' & _). destruct (IH p' Hs (own_step_inv _ _ Hi Hs) Hp') as (p'' & Hs' & Hend).
    exists p''. split; [by eapply rtc_l|done].
  - exists p. split; [done|]. intros p' (Hs & Hp' & Hc & Hne).
    destruct Hs as [p net Hpn Hf|p net Hpn|p net q Hd' Hq' Hw'|p ws1 a ws2 Hw'|p ws1 a ws2 Hw'|p ws1 a ws2 Hw'
      |p ws1 a ws2 Hw'|p|p Hd' Hc'|p ws1 a ws2 Hd' Hw'|p Hd' Hrx' Hw']; try done; try congruence.
    all: try (rewrite Hw in Hw'; by destruct ws1).
    + apply Hne. cbn in Hc. rewrite Hc. by destruct p.
    + by rewrite Hc', Hd' in Hd.
    + rewrite Hd' in Hd. rewrite Hrx' in Hrx. by rewrite <-Hrx in Hd.
Qed.

(** ** Theorems *)

(** C4: in every state the pool can get into, under any interleaving of the producer, the
    dispatcher, the workers and a shutdown, no address is probed by two workers at once, at most
    [threads] workers and four queued addresses per thread exist, the in-flight gauge is the number of
    workers holding a guard, and until the dispatcher stops the in-flight set is exactly the
    set of addresses queued or being worked on. *)
Theorem pool_safe n p :
  reachable n p →
  NoDup (probing (workers p)) ∧
  Z.of_nat (length (workers p)) ≤ Z.max n 1 ∧
  Z.of_nat (length (queue p)) ≤ 4 * Z.max n 1 ∧
  gauge p = u64_wrap (Z.of_nat (length (probing (workers p)))) ∧
  NoDup (tracked p) ∧ (∀ a, a ∈ tracked p → a ∈ in_flight p) ∧
  (dispatching p = true → ∀ a, a ∈ in_flight p → a ∈ tracked p).
Proof.
  intros Hr. pose proof (inv_reachable n p Hr) as []. destruct (reachable_limits n p Hr) as [Ht Hdp].
  rewrite Ht, Hdp in *. split; [eapply sublist_NoDup; [done|apply probing_tracked]|]. split; [done|].
  split; [|done]. unfold CHANNEL_PER_THREAD in *. int_solve.
Qed.


(** C28: nothing is stranded, and the pool always stops. From every reachable state in which the producer is away, every run of
    the dispatcher and the workers is finite, and where it ends the queue is empty, no worker is left and the gauge is
    zero; if the pool was cancelled the dispatcher has returned, and otherwise it is waiting for addresses with an empty
    in-flight set, so that every address can be probed again. *)
Theorem pool_drains n p :
  reachable n p → producer p = None →
  Acc (flip own_step) p ∧
  ∀ p', rtc own_step p p' → (∀ p'', ¬ own_step p' p'') →
    queue p' = [] ∧ workers p' = [] ∧ gauge p' = 0 ∧
    (if cancelled p then rx_dropped p' = true else dispatching p' = true ∧ rx_dropped p' = false ∧ in_flight p' = ∅).
Proof.
  intros Hr Hp. split; [by apply own_step_acc|]. intros p' Hs Hend.
  destruct (own_steps_inv _ _ Hs (inv_reachable n p Hr) Hp) as (Hi & Hp' & Hc).
  destruct (own_step_progress p' Hi Hp') as [[p'' Hp'']|(Hq & Hw & Hd & Hrx)]; [by apply Hend in Hp''|].
  rewrite Hc in Hd, Hrx. split_and!; [done|done| |].
  - rewrite (inv_gauge p' Hi), Hw. done.
  - destruct (cancelled p); [done|]. split_and!; [done|done|]. apply set_eq. intros a. split; [|set_solver].
    intros Ha%(inv_exact p' Hi Hd). unfold tracked in Ha. rewrite Hp', Hq, Hw in Ha. by apply elem_of_nil in Ha.
Qed.

(** ** Witnesses: two threads, one address queued and one being probed *)

Definition net1 : NetAddress := mkNetAddress (V4 134744072) 16111.
Definition net2 : NetAddress := mkNetAddress (V4 16843009) 16111.
Definition pool0 : Pool := spawn 2.
Definition pool1 : Pool := (try_enqueue net1 pool0).2.
Definition pool2 : Pool :=
  with_workers [] ([] ++ (sock net1, Probing) :: []) 1 {[sock net1]} pool0.

Lemma pool2_reachable : reachable 2 pool2.
Proof.
  unfold reachable. etrans; [apply (try_enqueue_steps pool0 net1); done|].
  eapply rtc_l; [apply (step_dispatch _ net1 []); done|].
  eapply rtc_l; [apply (step_start _ [] (sock net1) []); done|].
  vm_compute. apply rtc_refl.
Qed.

Lemma pool_safe_witness : NoDup (probing (workers pool2)) ∧ sock net1 ∈ in_flight pool2.
Proof.
  destruct (pool_safe 2 pool2 pool2_reachable) as (Hnd & _ & _ & _ & _ & Hin & _).
  split; [done|]. apply Hin. vm_compute. left.
Defined.


Lemma pool_drains_witness : Acc (flip own_step) pool2 ∧ ∃ p', rtc own_step pool2 p' ∧ in_flight p' = ∅.
Proof.
  destruct (pool_drains 2 pool2 pool2_reachable eq_refl) as [Hacc Hend]. split; [done|].
  destruct (own_steps_end pool2 (inv_reachable 2 pool2 pool2_reachable) eq_refl) as (p' & Hs & Hstop).
  exists p'. split; [done|]. by apply (Hend p' Hs Hstop).
Defined.
