(* ===== verification/Scheduler.v ===== *)
(** * The probe scheduler (src/crawler/src/scheduler.rs, src/crawler/src/seeders.rs)

    Bootstrap, the probe tick and the prune tick, over the store of PeerStore.v and the pool of
    WorkerPool.v. Clock readings are arguments; the other tasks of the
    process act on the pool between two iterations of the enqueue loop through
    [others]. *)

From S2P Require Import Prelude Text Net NetParse Common Record Redb RedbInstances PeerStore StoreSpec StoreOps.
From S2P Require Import StoreScans StoreQueries StoreExample Crawler Runner WorkerPool.

(** ** The network parameters of [kaspa-consensus-core] *)

Class KaspaNetwork : Type := {
  NetworkId : Type;
  NetworkId_eq_dec :: EqDecision NetworkId;
  network_iter : list NetworkId;                 (** [NetworkId::iter()] *)
  default_p2p_port : NetworkId → Z;
  dns_seeders : NetworkId → list rstr;           (** [Params::from(id).dns_seeders] *)
}.

(** One lookup task: what [timeout(LOOKUP_TIMEOUT, resolver.lookup(..))] and the join come to. *)
Inductive LookupResult : Type :=
  | Resolved (addrs : list SocketAddr)
  | LookupFailed (msg : rstr)
  | TimedOut
  | JoinError.

Section seeders.
Context `{KaspaNetwork}.

Definition lookup_addrs (r : LookupResult) : list SocketAddr :=
  match r with Resolved l => l | LookupFailed _ | TimedOut | JoinError => [] end.

(** [dns_seed_many]: the tasks are joined in the order [order] they finish in. *)
Definition dns_seed_many (network_id : NetworkId) (lookup : rstr → Z → LookupResult)
    (order : list rstr → list rstr) : list SocketAddr :=
  let port := default_p2p_port network_id in
  let seeders := if decide (network_id ∈ network_iter) then dns_seeders network_id else [] in
  if decide (seeders = []) then []
  else order seeders ≫= λ host, lookup_addrs (lookup host port).
End seeders.

(** ** Configuration *)

Record SchedulerConfig : Type := mkSchedulerConfig {
  cfg_default_port : Z;
  cfg_threads : Z;
  cfg_probe_tick : Duration;
  cfg_stale_good : Duration;
  cfg_stale_bad : Duration;
  cfg_dead_after : Duration;
  cfg_seeders : list rstr;
  cfg_strict_port : bool;
}.

(** [resolve_explicit_seeders]: entries that are not a literal address are skipped. *)
Definition resolve_explicit_seeders (cfg : SchedulerConfig) : list SocketAddr :=
  omap (λ raw, socket_from_str (trim raw)) (cfg_seeders cfg).

(** How the enqueue loop ended: the candidates ran out, the queue filled up with these still to
    come, or the pool was closed. *)
Inductive LoopEnd : Type := Exhausted | FullWith (rest : list PeerRecord) | PoolClosed.

Section scheduler.
Context `{RedbApi} `{Bincode} `{Semver} `{KaspaNet}.

(** [insert_bootstrap_stubs]. *)
Definition bootstrap_accepted (addrs : list SocketAddr) (default_port : Z) (strict_port : bool) : list NetAddress :=
  omap (λ addr, let net := net_from addr in
    if is_acceptable_address net default_port strict_port then Some net else None) addrs.
Definition insert_bootstrap_stubs (addrs : list SocketAddr) (default_port : Z) (strict_port : bool) (now : Z) : DB Z :=
  or_log (insert_or_refresh_seen_batch (bootstrap_accepted addrs default_port strict_port) now) 0.

(** [bootstrap]: the explicit seeders when there are any, the resolved built-in ones otherwise. *)
Definition bootstrap (cfg : SchedulerConfig) (builtin : list SocketAddr) (now : Z) : DB Z :=
  let addrs := if decide (cfg_seeders cfg = []) then builtin else resolve_explicit_seeders cfg in
  insert_bootstrap_stubs addrs (cfg_default_port cfg) (cfg_strict_port cfg) now.

(** [refresh_builtin_seeders]. *)
Definition refresh_builtin_seeders (cfg : SchedulerConfig) (builtin : list SocketAddr) (now : Z) : DB Z :=
  insert_bootstrap_stubs builtin (cfg_default_port cfg) (cfg_strict_port cfg) now.

(** [prune_once]. *)
Definition prune_once (cfg : SchedulerConfig) (now : Z) : DB Z :=
  or_log (prune_dead (i64_saturating_sub now (duration_to_ms (cfg_dead_after cfg)))) 0.

(** The loop of [enqueue_probes] over the candidates: [others i] is what other tasks did to the
    pool before the [i]-th candidate, [dispatched] the addresses accepted so far (the code counts
    them). *)
Fixpoint enqueue_loop (others : nat → Pool → Pool) (default_port : Z) (strict_port : bool) (now : Z)
    (i : nat) (recs : list PeerRecord) (pool : Pool) (dispatched : list NetAddress)
    : DB (LoopEnd * Pool * list NetAddress) :=
  match recs with
  | [] => mret (Exhausted, pool, dispatched)
  | rec :: recs' =>
      let pool := others i pool in
      if negb (is_acceptable_address (address rec) default_port strict_port)
      then enqueue_loop others default_port strict_port now (S i) recs' pool dispatched
      else
        match try_enqueue (address rec) pool with
        | (Accepted, pool') =>
            or_log (record_attempt (address rec) now ≫= λ _, mret tt) tt ≫= λ _,
            enqueue_loop others default_port strict_port now (S i) recs' pool' (dispatched ++ [address rec])
        | (Duplicate, pool') => enqueue_loop others default_port strict_port now (S i) recs' pool' dispatched
        | (Full, pool') => mret (FullWith recs', pool', dispatched)
        | (Closed, pool') => mret (PoolClosed, pool', dispatched)
        end
  end.

(** [enqueue_probes]: a store error is returned before anything was enqueued. *)
Definition enqueue_probes (cfg : SchedulerConfig) (others : nat → Pool → Pool) (now : Z)
    (pool : Pool) (metrics : CrawlerMetrics) : DB (Pool * CrawlerMetrics * list NetAddress) :=
  let dead_cutoff := i64_saturating_sub now (duration_to_ms (cfg_dead_after cfg)) in
  let threads := Z.max (cfg_threads cfg) 1 in
  let fetch_target := usize_saturating_mul threads 8 in
  candidates ← due_for_probe now (duration_to_ms (cfg_stale_good cfg)) (duration_to_ms (cfg_stale_bad cfg))
                 dead_cutoff fetch_target;
  '(e, pool', dispatched) ←
    enqueue_loop others (cfg_default_port cfg) (cfg_strict_port cfg) now 0 candidates pool [];
  let skipped := match e with FullWith rest => 1 + Z.of_nat (length rest) | _ => 0 end in
  let metrics' := match e with FullWith _ => record_skipped_backpressure skipped metrics | _ => metrics end in
  mret (pool', metrics', dispatched).

(** ** The enqueue loop *)

Context `{!RedbLaws} `{!BincodeLaws}.

Definition pool_ok (n : Z) (p : Pool) : Prop := reachable n p ∧ producer p = None.

Lemma try_enqueue_ok n p net : pool_ok n p → pool_ok n (try_enqueue net p).2.
Proof.
  intros [Hr Hp]. split; [unfold reachable in *; etrans; [done|by apply try_enqueue_steps]|].
  by destruct (try_enqueue_cases p net Hp) as [[_ ->]|[(_ & _ & ->)|[(_ & _ & _ & ->)|(_ & _ & _ & ->)]]].
Qed.

(** The attempt of a stored record, logged when it fails. *)
Lemma attempt_logged d m rec now fs :
  repr d m → m !! address rec = Some rec →
  ∃ d1 fs1 m1, or_log (record_attempt (address rec) now ≫= λ _, mret tt) tt (mkWorld d fs) = (Ok tt, mkWorld d1 fs1) ∧
    repr d1 m1 ∧ (quiet fs → quiet fs1) ∧
    (m1 = <[address rec := set_last_attempt now rec]> m ∨ (m1 = m ∧ ¬ reliable fs)).
Proof.
  intros Hr Hm.
  assert (Ha : atomic d (record_attempt (address rec) now ≫= λ _, mret tt) enc_err
    (λ _ d', repr d' (<[address rec := set_last_attempt now rec]> m))).
  { eapply atomic_bind_ret; [by apply record_attempt_atomic|]. intros r d' (-> & Hr' & _). revert Hr'.
    unfold spec_record_attempt. by rewrite Hm. }
  destruct (atomic_or_log d _ tt _ _ fs Ha) as ([] & [d1 fs1] & E & Hq & Hd). cbn [disk faults] in *.
  exists d1, fs1. destruct Hd as [Hd|(_ & -> & Hn)]; [by eauto 10|]. exists m. do 3 (split; [done|]). right.
  split; [done|]. by intros ?%reliable_no_err.
Qed.

Section loop.
Context (n : Z) (others : nat → Pool → Pool) (dport : Z) (strict : bool) (now : Z).
Hypothesis others_ok : ∀ i p, pool_ok n p → pool_ok n (others i p).

(** What the loop promises about the addresses [new] it dispatched. *)
Definition loop_post (fs : list (option rstr)) (m : gmap NetAddress PeerRecord) (recs : list PeerRecord)
    (e : LoopEnd) (new : list NetAddress) (m' : gmap NetAddress PeerRecord) : Prop :=
  new `sublist_of` (address <$> filter (λ r, is_acceptable_address (address r) dport strict = true) recs) ∧
  (∀ a, a ∉ new → m' !! a = m !! a) ∧
  (∀ r, r ∈ recs → address r ∈ new →
     m' !! address r = Some (set_last_attempt now r) ∨ (m' !! address r = Some r ∧ ¬ reliable fs)) ∧
  (∀ rest, e = FullWith rest → rest `suffix_of` recs ∧ (length new + length rest < length recs)%nat).

Lemma loop_post_skip fs m rec recs e new m' :
  address rec ∉ (address <$> recs) → loop_post fs m recs e new m' → loop_post fs m (rec :: recs) e new m'.
Proof.
  intros Hni (Hsub & Hout & Hin & Hfull).
  assert (Hnew : address rec ∉ new).
  { intros Hn. eapply elem_of_sublist in Hn; [|exact Hsub]. apply Hni.
    apply list_elem_of_fmap in Hn as (r & -> & [_ Hr]%list_elem_of_filter). by apply list_elem_of_fmap_2. }
  split; [|split; [done|split]].
  - rewrite filter_cons. case_decide; [|done]. cbn. by constructor.
  - intros r [->|Hr]%elem_of_cons Ha; [done|]. by apply Hin.
  - intros rest [Hsuf Hlen]%Hfull. cbn. split; [by apply suffix_cons_r|lia].
Qed.

Lemma loop_post_cons fs fs1 m m1 rec recs e new m' :
  address rec ∉ (address <$> recs) → is_acceptable_address (address rec) dport strict = true →
  m !! address rec = Some rec → (quiet fs → quiet fs1) →
  (m1 = <[address rec := set_last_attempt now rec]> m ∨ (m1 = m ∧ ¬ reliable fs)) →
  loop_post fs1 m1 recs e new m' → loop_post fs m (rec :: recs) e (address rec :: new) m'.
Proof.
  intros Hni Hacc Hm Hq Hm1 (Hsub & Hout & Hin & Hfull).
  assert (Hnew : address rec ∉ new).
  { intros Hn. eapply elem_of_sublist in Hn; [|exact Hsub]. apply Hni.
    apply list_elem_of_fmap in Hn as (r & -> & [_ Hr]%list_elem_of_filter). by apply list_elem_of_fmap_2. }
  assert (Hrel : ¬ reliable fs1 → ¬ reliable fs) by (intros Hn [? ?]; apply Hn; split; auto).
  split; [|split; [|split]].
  - rewrite filter_cons, decide_True by done. cbn. by constructor.
  - intros a [Hne Ha]%not_elem_of_cons. rewrite Hout by done.
    destruct Hm1 as [->|[-> _]]; [|done]. by rewrite lookup_insert_ne.
  - intros r [->|Hr]%elem_of_cons Ha.
    + rewrite (Hout _ Hnew). destruct Hm1 as [->|[-> ?]]; [left; by rewrite lookup_insert_eq|by right].
    + apply elem_of_cons in Ha as [Ha|Ha].
      { destruct Hni. rewrite <-Ha. by apply list_elem_of_fmap_2. }
      destruct (Hin r Hr Ha) as [?|[? ?]]; [by left|right; auto].
  - intros rest [Hsuf Hlen]%Hfull. cbn. split; [by apply suffix_cons_r|lia].
Qed.

Lemma loop_post_stop fs m recs e :
  (∀ rest, e = FullWith rest → rest `suffix_of` recs ∧ (length rest < length recs)%nat) → loop_post fs m recs e [] m.
Proof. intros He. split; [apply sublist_nil_l|]. split; [done|]. split; [set_solver|done]. Qed.

Lemma enqueue_loop_spec recs i pool disp d m fs :
  repr d m → pool_ok n pool → (∀ r, r ∈ recs → m !! address r = Some r) → NoDup (address <$> recs) →
  ∃ e pool' new m' w',
    enqueue_loop others dport strict now i recs pool disp (mkWorld d fs) = (Ok (e, pool', disp ++ new), w') ∧
    repr (disk w') m' ∧ pool_ok n pool' ∧ loop_post fs m recs e new m'.
Proof.
  revert i pool disp d m fs. induction recs as [|rec recs IH]; intros i pool disp d m fs Hr Hp Hrec Hnd.
  { exists Exhausted, pool, [], m, (mkWorld d fs). rewrite app_nil_r. split; [done|]. split; [done|].
    split; [done|]. by apply loop_post_stop. }
  cbn [enqueue_loop]. apply NoDup_cons in Hnd as [Hni Hnd]. set (p := others i pool).
  assert (Hp1 : pool_ok n p) by by apply others_ok.
  assert (Hrec' : ∀ r, r ∈ recs → m !! address r = Some r) by (intros; apply Hrec; by right).
  destruct (is_acceptable_address (address rec) dport strict) eqn:Hacc; cbn [negb].
  2: { destruct (IH (S i) p disp d m fs) as (e & p' & new & m' & w' & Hrun & ? & ? & Hpost); [done..|].
       exists e, p', new, m', w'. split; [done|]. do 2 (split; [done|]). by apply loop_post_skip. }
  pose proof (try_enqueue_ok n p (address rec) Hp1) as Hp2.
  destruct (try_enqueue (address rec) p) as [[] p2]; cbn [snd] in Hp2.
  - destruct (attempt_logged d m rec now fs Hr) as (d1 & fs1 & m1 & E & Hr1 & Hq & Hm1); [apply Hrec; by left|].
    unfold mbind at 1, DB_bind at 1. rewrite E.
    destruct (IH (S i) p2 (disp ++ [address rec]) d1 m1 fs1) as (e & p' & new & m' & w' & Hrun & ? & ? & Hpost); [done|done| |done|].
    { intros r Hin. destruct Hm1 as [->|[-> _]]; [|by apply Hrec']. rewrite lookup_insert_ne; [by apply Hrec'|].
      intros Heq. apply Hni. rewrite Heq. by apply list_elem_of_fmap_2. }
    exists e, p', (address rec :: new), m', w'. rewrite <-app_assoc in Hrun. split; [done|]. do 2 (split; [done|]).
    eapply loop_post_cons; [done|done| |done..]. apply Hrec. by left.
  - destruct (IH (S i) p2 disp d m fs) as (e & p' & new & m' & w' & Hrun & ? & ? & Hpost); [done..|].
    exists e, p', new, m', w'. split; [done|]. do 2 (split; [done|]). by apply loop_post_skip.
  - eexists _, p2, [], m, _. rewrite app_nil_r. split; [done|]. split; [done|]. split; [done|].
    apply loop_post_stop. intros rest [= <-]. split; [by apply suffix_cons_r|cbn; lia].
  - eexists _, p2, [], m, _. rewrite app_nil_r. split; [done|]. split; [done|]. split; [done|].
    by apply loop_post_stop.
Qed.
End loop.

(** ** Theorems *)

(** The windows of a configuration: durations, with the good window small enough to be
    multiplied by four. *)
Definition cfg_wf (cfg : SchedulerConfig) : Prop :=
  duration_wf (cfg_stale_good cfg) ∧ duration_wf (cfg_stale_bad cfg) ∧ duration_to_ms (cfg_stale_good cfg) * 4 ≤ I64_MAX ∧
  0 ≤ cfg_default_port cfg ≤ 65535.

Lemma cfg_wf_windows cfg :
  cfg_wf cfg → ∃ thr, good_probe_threshold (duration_to_ms (cfg_stale_good cfg)) = Some thr ∧
    0 ≤ duration_to_ms (cfg_stale_good cfg) ∧ 0 ≤ duration_to_ms (cfg_stale_bad cfg) ≤ I64_MAX.
Proof.
  intros (Hg & Hb & Hg4 & _). pose proof (duration_to_ms_range _ Hg). pose proof (duration_to_ms_range _ Hb).
  exists (Z.quot (duration_to_ms (cfg_stale_good cfg) * 4) 5). split; [|lia].
  unfold good_probe_threshold, i64_mul. rewrite i64_checked_in; [done|]. unfold in_i64, I64_MIN. lia.
Qed.

(** What one tick comes to, over the store [m]. *)
Definition tick_result (n : Z) (cfg : SchedulerConfig) (now : Z) (ms : CrawlerMetrics) (d : Disk) (m : gmap NetAddress PeerRecord)
    (fs : list (option rstr)) (res : outcome StoreError (Pool * CrawlerMetrics * list NetAddress) * World) : Prop :=
  match res with
  | (Ok (pool', ms', disp), w') =>
      pool_ok n pool' ∧ NoDup disp ∧ Z.of_nat (length disp) ≤ 8 * Z.max (cfg_threads cfg) 1 ∧
      m_ok ms' = m_ok ms ∧ m_failed ms' = m_failed ms ∧
      ∃ m', repr (disk w') m' ∧
        (∀ a, a ∈ disp → is_acceptable_address a (cfg_default_port cfg) (cfg_strict_port cfg) = true ∧
           ∃ r, m !! a = Some r ∧
             is_eligible_for_probe r now (duration_to_ms (cfg_stale_good cfg)) (duration_to_ms (cfg_stale_bad cfg))
               (i64_saturating_sub now (duration_to_ms (cfg_dead_after cfg))) = Some true ∧
             (m' !! a = Some (set_last_attempt now r) ∨ (m' !! a = Some r ∧ ¬ reliable fs))) ∧
        (∀ a, a ∉ disp → m' !! a = m !! a)
  | (Err e, w') => disk w' = d ∧ (quiet fs → enc_err e)
  | (Panic, _) => False
  end.

Lemma enqueue_probes_spec n cfg others now pool ms d m fs :
  repr d m → map_Forall (λ _ r, in_i64 (last_attempt_ms r)) m → cfg_wf cfg →
  (∀ i p, pool_ok n p → pool_ok n (others i p)) → pool_ok n pool →
  tick_result n cfg now ms d m fs (enqueue_probes cfg others now pool ms (mkWorld d fs)).
Proof.
  intros Hr Hwf Hcfg Hoth Hp. destruct (cfg_wf_windows cfg Hcfg) as (thr & Hthr & Hsg & Hsb).
  unfold tick_result, enqueue_probes. set (cutoff := i64_saturating_sub _ _). set (target := usize_saturating_mul _ _).
  assert (0 ≤ target ≤ 8 * Z.max (cfg_threads cfg) 1) as [Ht0 Ht8] by (unfold target; int_solve).
  pose proof (due_for_probe_atomic now _ _ cutoff target thr Hthr d m Hr Ht0 Hsg Hsb Hwf fs) as Hdue.
  unfold mbind at 1, DB_bind at 1. destruct (due_for_probe _ _ _ _ _ _) as [[recs|e|] [d1 fs1]]; [| |done].
  2: { cbn in Hdue |- *. destruct Hdue as [-> He]. split; [done|]. intros Hq. by apply He. }
  destruct Hdue as [(Hd1 & Hlen & Hnd & _ & Hin & _) Hq]. cbn in Hd1. subst d1. cbn in Hq.
  assert (Hnda : NoDup (address <$> recs)).
  { apply NoDup_fmap_2_strong; [|done]. intros r1 r2 Hr1%Hin Hr2%Hin Heq. destruct Hr1, Hr2. congruence. }
  destruct (enqueue_loop_spec n others (cfg_default_port cfg) (cfg_strict_port cfg) now Hoth recs 0 pool [] d m fs1)
    as (e & pool' & new & m' & w' & Hrun & Hr' & Hp' & Hsub & Hout & Hrec & Hfull); [done|done| |done|].
  { intros r Hr0. by apply Hin. }
  unfold mbind, DB_bind. rewrite Hrun. cbn [app mret DB_ret].
  assert (Hnew : ∀ a, a ∈ new → ∃ r, r ∈ recs ∧ address r = a ∧
    is_acceptable_address a (cfg_default_port cfg) (cfg_strict_port cfg) = true).
  { intros a Ha. eapply elem_of_sublist in Ha; [|exact Hsub].
    apply list_elem_of_fmap in Ha as (r & -> & [? ?]%list_elem_of_filter). by exists r. }
  split; [done|]. split.
  { eapply sublist_NoDup; [|exact Hsub]. eapply sublist_NoDup; [exact Hnda|]. apply fmap_sublist, sublist_filter. }
  split.
  { apply sublist_length in Hsub. rewrite length_fmap in Hsub. 
    assert (length (filter (λ r, is_acceptable_address (address r) (cfg_default_port cfg) (cfg_strict_port cfg) = true) recs)
      ≤ length recs)%nat by apply length_filter. lia. }
  split; [destruct e; try done; unfold record_skipped_backpressure; by case_decide|].
  split; [destruct e; try done; unfold record_skipped_backpressure; by case_decide|].
  exists m'. split; [done|]. split; [|done]. intros a Ha. destruct (Hnew a Ha) as (r & Hr0 & <- & Hacc).
  split; [done|]. exists r. destruct (Hin r Hr0) as [Hm He]. split; [done|].
  rewrite (is_eligible_eq _ _ _ _ _ Hthr). rewrite He. split; [done|].
  destruct (Hrec r Hr0 Ha) as [?|[? Hn]]; [by left|right]. split; [done|].
  intros [? ?]. apply Hn. split; [by apply Hq|done].
Qed.

(** C6: one probe tick. Whatever the other tasks do to the pool meanwhile and whichever storage calls
    fail, the tick either returns the store's error having changed nothing, or hands the pool
    distinct acceptable addresses of stored records that are due; it bumps the attempt of
    exactly those (a bump is lost only to a fault, so a dispatched peer is not due again at once),
    changes no other record, keeps the pool in a reachable state, and counts no probe as finished. *)
Theorem probe_tick n cfg others now pool ms d m fs :
  repr d m → map_Forall (λ _ r, in_i64 (last_attempt_ms r)) m → cfg_wf cfg →
  (∀ i p, pool_ok n p → pool_ok n (others i p)) → pool_ok n pool →
  tick_result n cfg now ms d m fs (enqueue_probes cfg others now pool ms (mkWorld d fs)).
Proof. apply enqueue_probes_spec. Qed.

(** Bootstrap and the periodic seeder refresh store only acceptable canonical addresses, keep
    the records that exist, and can be repeated: a second run inserts nothing. *)
Theorem bootstrap_stores_ok addrs dport strict now d m fs :
  repr d m → store_ok dport strict m →
  ∃ k w' m', insert_bootstrap_stubs addrs dport strict now (mkWorld d fs) = (Ok k, w') ∧
    repr (disk w') m' ∧ store_ok dport strict m' ∧
    (∀ a r, m !! a = Some r → m' !! a = Some r ∨ m' !! a = Some (set_last_seen now r)) ∧
    (reliable fs → (∀ addr, addr ∈ addrs → is_acceptable_address (net_from addr) dport strict = true →
        is_Some (m' !! net_from addr)) ∧
      k = Z.of_nat (size m') - Z.of_nat (size m)) ∧
    ((∀ addr, addr ∈ addrs → is_acceptable_address (net_from addr) dport strict = true → is_Some (m !! net_from addr)) → k = 0).
Proof.
  intros Hr Hok. unfold insert_bootstrap_stubs. set (acc := bootstrap_accepted addrs dport strict).
  assert (Hacc : ∀ a, a ∈ acc ↔ ∃ addr, addr ∈ addrs ∧ a = net_from addr ∧ is_acceptable_address a dport strict = true).
  { intros a. unfold acc, bootstrap_accepted. rewrite list_elem_of_omap. split.
    - intros (addr & Hin & Ha). case_match; [|done]. simplify_eq. eauto.
    - intros (addr & Hin & -> & Ha). exists addr. by rewrite Ha. }
  destruct (atomic_or_log d _ 0 _ _ fs (seen_batch_atomic d m acc now Hr)) as (k & w' & -> & _ & Hd).
  destruct Hd as [(-> & Hr' & _)|(-> & Hd & Hn)].
  2: { exists 0, w', m. split; [done|]. rewrite Hd. split; [done|]. split; [done|]. split; [auto|].
       split; [|done]. by intros ?%reliable_no_err. }
  exists (spec_seen_batch now acc m).1, w', (spec_seen_batch now acc m).2. split; [done|]. split; [done|].
  pose proof (spec_seen_fold_count now acc (0, m)) as Hcount. cbn [fst snd] in Hcount.
  split; [|split; [|split]].
  - apply spec_seen_batch_ok; [done|]. intros a (addr & _ & -> & Ha)%Hacc. split; [done|apply canonicalize_ip_idemp].
  - intros a r Hm. unfold spec_seen_batch. rewrite spec_seen_fold_lookup, Hm. case_decide; auto.
  - intros _. split; [|unfold spec_seen_batch; lia]. intros addr Hin Ha. unfold spec_seen_batch.
    rewrite spec_seen_fold_lookup, decide_True by (apply Hacc; eauto). done.
  - intros Hall. unfold spec_seen_batch.
    assert (size (foldl (spec_seen now) (0, m) acc).2 = size m) as Hs; [|lia].
    assert (dom (foldl (spec_seen now) (0, m) acc).2 = dom m) as Hdom; [|by rewrite <-!size_dom, Hdom].
    apply set_eq. intros a. rewrite !elem_of_dom, spec_seen_fold_lookup. case_decide as Hin; [|done].
    apply Hacc in Hin as (addr & Hin & -> & Ha). split; [|done]. intros _. by apply Hall.
Qed.
End scheduler.

(** Built-in DNS seeding is resilient: the result holds the addresses of every seeder that
    answered, however many others failed, timed out or panicked, in whatever order the lookups
    finish, and nothing else. *)
Theorem dns_seed_complete `{KaspaNetwork} network_id lookup order :
  (∀ l, order l ≡ₚ l) →
  ∀ addr, addr ∈ dns_seed_many network_id lookup order ↔
    ∃ host l, network_id ∈ network_iter ∧ host ∈ dns_seeders network_id ∧
      lookup host (default_p2p_port network_id) = Resolved l ∧ addr ∈ l.
Proof.
  intros Hord addr. unfold dns_seed_many. cbv zeta.
  assert (Hin : ∀ seeders, addr ∈ (order seeders ≫= λ host, lookup_addrs (lookup host (default_p2p_port network_id))) ↔
    ∃ host l, host ∈ seeders ∧ lookup host (default_p2p_port network_id) = Resolved l ∧ addr ∈ l).
  { intros seeders. rewrite list_elem_of_bind. split.
    - intros (host & Ha & Hh). rewrite Hord in Hh. destruct (lookup host _) as [l| | |] eqn:E; cbn in Ha; [eauto|set_solver..].
    - intros (host & l & Hh & E & Ha). exists host. rewrite E, Hord. done. }
  destruct (decide (network_id ∈ network_iter)) as [Hn|Hn].
  - case_decide as Hs; [rewrite Hs; set_solver|]. rewrite Hin. naive_solver.
  - rewrite decide_True by done. set_solver.
Qed.

(** ** Witnesses *)

Definition cfg0 : SchedulerConfig :=
  mkSchedulerConfig 16111 2 (from_secs 5) (from_millis 50) (from_millis 10) (from_millis 60) [] false.

Lemma probe_tick_witness :
  match enqueue_probes cfg0 (λ _ p, p) 100 (spawn 2) crawler_metrics_new (mkWorld disk0 []) with
  | (Ok (_, _, disp), _) => NoDup disp
  | (Err _, w') => disk w' = disk0
  | (Panic, _) => False
  end.
Proof.
  assert (Hwf : map_Forall (λ _ r, in_i64 (last_attempt_ms r)) map0).
  { apply map_Forall_insert_2; [by vm_compute|apply map_Forall_empty]. }
  assert (Hcfg : cfg_wf cfg0) by (vm_compute; intuition discriminate).
  assert (Hp : pool_ok 2 (spawn 2)) by (split; [apply rtc_refl|done]).
  pose proof (probe_tick 2 cfg0 (λ _ p, p) 100 (spawn 2) crawler_metrics_new disk0 map0 [] repr_disk0 Hwf Hcfg
    (λ _ _ H, H) Hp) as Ht.
  destruct (enqueue_probes _ _ _ _ _ _) as [[[[p' ms'] disp]|e|] w']; [by destruct Ht as (_ & ? & _)|by destruct Ht|done].
Defined.

Lemma bootstrap_stores_ok_witness :
  ∃ k w' m', insert_bootstrap_stubs [socket_new (ip addr1) 16111; socket_new (V4 2130706433) 16111] 16111 false 70
      (mkWorld disk0 []) = (Ok k, w') ∧ repr (disk w') m' ∧ is_Some (m' !! addr1).
Proof.
  destruct (bootstrap_stores_ok [socket_new (ip addr1) 16111; socket_new (V4 2130706433) 16111] 16111 false 70 disk0 map0 []
    repr_disk0) as (k & w' & m' & Hrun & Hr & _ & _ & Hrel & _).
  { apply map_Forall_insert_2; [by vm_compute|apply map_Forall_empty]. }
  exists k, w', m'. split; [done|]. split; [done|]. destruct (Hrel reliable_nil) as [Hin _].
  apply (Hin (socket_new (ip addr1) 16111)); [left|by vm_compute].
Defined.

(** Two networks; the first has two seeders of which one answers. *)
#[local] Instance network_std : KaspaNetwork := {|
  NetworkId := bool;
  network_iter := [true];
  default_p2p_port := λ b, if b then 16111 else 16211;
  dns_seeders := λ b, if b then [str "a.example"; str "b.example"] else [];
|}.
Definition mainnet : @NetworkId network_std := true.
Definition lookup_std (host : rstr) (port : Z) : LookupResult :=
  if decide (host = str "a.example") then Resolved [socket_new (V4 16843009) port] else TimedOut.

Lemma dns_seed_complete_witness :
  socket_new (V4 16843009) 16111 ∈ dns_seed_many mainnet lookup_std reverse.
Proof.
  apply (dns_seed_complete mainnet lookup_std reverse); [intros l; apply reverse_Permutation|].
  exists (str "a.example"), [socket_new (V4 16843009) 16111]. split; [left|]. split; [left|]. split; [done|left].
Defined.
