(* ===== verification/ProbeInit.v ===== *)
(** * The probe handshake (src/crawler/src/probe.rs, src/crawler/src/probe/initializer.rs)

    [do_probe] talks to a peer whose answers, delays and transport failures are chosen by the
    environment; what it sends and how long it waits are part of the state, so the handshake's
    order and the connection lifetime can be stated. *)

From S2P Require Import Prelude Text Net Common Record Redb RedbInstances Crawler.

(** ** The p2p library *)

(** [ProtocolError], as far as the initializer tells its variants apart. *)
Inductive ProtocolError : Type :=
  | ProtoTimeout (d : Duration)
  | WrongNetwork (local remote : rstr)
  | OtherOwned (msg : rstr)
  | OtherProtocol (msg : rstr).

Class P2pLib `{KaspaNet} : Type := {
  AddressesMessage : Type;
  addresses_try_into : AddressesMessage → ProtocolError + list (IpAddress * Z);
  peer_id_from_slice : bytes → option bytes;
  protocol_error_to_string : ProtocolError → rstr;
}.

Definition MAX_ADDRESSES_RECEIVE : Z := 2500.
Definition USER_AGENT : rstr := str "/simply-kaspa-dnsseeder:0.1.0/".
Definition PROBE_REPEAT_DELAY : Duration := from_millis 250.
Definition LIFETIME_SLACK : Duration := from_secs 15.

Record ProbeInitializerConfig : Type := mkInitConfig {
  local_network : rstr;              (** [network_id.to_prefixed()] *)
  probe_timeout : Duration;
  probes_per_peer : Z;               (** [u8] *)
}.

Definition rounds_of (cfg : ProbeInitializerConfig) : nat := Z.to_nat (Z.max (probes_per_peer cfg) 1).

(** [Duration * u32] and [Duration + Duration]: [None] is the overflow panic. *)
Definition duration_mul (d : Duration) (k : Z) : option Duration :=
  if decide (d * k ≤ DURATION_MAX) then Some (d * k) else None.
Definition duration_add (d e : Duration) : option Duration :=
  if decide (d + e ≤ DURATION_MAX) then Some (d + e) else None.

(** [max_connection_lifetime]. *)
Definition max_connection_lifetime (cfg : ProbeInitializerConfig) : option Duration :=
  let rounds := Z.max (probes_per_peer cfg) 1 in
  a ← duration_mul (probe_timeout cfg) (4 + rounds);
  b ← duration_mul PROBE_REPEAT_DELAY rounds;
  c ← duration_add a b;
  duration_add c LIFETIME_SLACK.

(** ** Routes *)

(** [KaspadMessagePayloadType], with the variants the initializer names. *)
Inductive KaspadMessagePayloadType : Type :=
  | TVersion | TVerack | TReady | TRequestAddresses | TAddresses | TBlock | TTransaction | TBlockLocator
  | TRequestRelayBlocks | TRequestTransactions | TIbdBlock | TInvRelayBlock | TInvTransactions | TPing | TPong
  | TTransactionNotFound | TReject | TPruningPointUtxoSetChunk | TRequestIbdBlocks | TUnexpectedPruningPoint
  | TIbdBlockLocator | TIbdBlockLocatorHighestHash | TRequestNextPruningPointUtxoSetChunk | TDonePruningPointUtxoSetChunks
  | TIbdBlockLocatorHighestHashNotFound | TBlockWithTrustedData | TDoneBlocksWithTrustedData
  | TRequestPruningPointAndItsAnticone | TBlockHeaders | TRequestNextHeaders | TDoneHeaders | TRequestPruningPointUtxoSet
  | TRequestHeaders | TRequestBlockLocator | TPruningPoints | TRequestPruningPointProof | TPruningPointProof
  | TBlockWithTrustedDataV4 | TTrustedData | TRequestIbdChainBlockLocator | TIbdChainBlockLocator | TRequestAntipast
  | TRequestNextPruningPointAndItsAnticoneBlocks | TBlockBody | TRequestBlockBodies | TRequestPruningPointSmtState
  | TSmtMetadata | TSmtLaneChunk | TRequestNextPruningPointSmtChunk.
#[global] Instance PayloadType_eq_dec : EqDecision KaspadMessagePayloadType.
Proof. solve_decision. Defined.

(** [drain_payload_types]. *)
Definition drain_payload_types : list KaspadMessagePayloadType :=
  [TBlock; TTransaction; TBlockLocator; TRequestRelayBlocks; TRequestTransactions; TIbdBlock; TInvRelayBlock;
   TInvTransactions; TPing; TPong; TTransactionNotFound; TReject; TPruningPointUtxoSetChunk; TRequestIbdBlocks;
   TUnexpectedPruningPoint; TIbdBlockLocator; TIbdBlockLocatorHighestHash; TRequestNextPruningPointUtxoSetChunk;
   TDonePruningPointUtxoSetChunks; TIbdBlockLocatorHighestHashNotFound; TBlockWithTrustedData; TDoneBlocksWithTrustedData;
   TRequestPruningPointAndItsAnticone; TBlockHeaders; TRequestNextHeaders; TDoneHeaders; TRequestPruningPointUtxoSet;
   TRequestHeaders; TRequestBlockLocator; TPruningPoints; TRequestPruningPointProof; TPruningPointProof;
   TBlockWithTrustedDataV4; TTrustedData; TRequestIbdChainBlockLocator; TIbdChainBlockLocator; TRequestAntipast;
   TRequestNextPruningPointAndItsAnticoneBlocks; TBlockBody; TRequestBlockBodies; TRequestPruningPointSmtState;
   TSmtMetadata; TSmtLaneChunk; TRequestNextPruningPointSmtChunk].

(** The subscriptions of [do_probe], in order. *)
Definition probe_subscriptions : list (list KaspadMessagePayloadType) :=
  [[TVersion]; [TVerack]; [TReady]; [TRequestAddresses]; [TAddresses]; drain_payload_types].

(** Every type has one route: [Router::subscribe] refuses a type twice, and the router closes the connection on a message of a type
    without a route. *)
Lemma routes_exact : NoDup (concat probe_subscriptions) ∧ ∀ t, t ∈ concat probe_subscriptions.
Proof.
  split; [apply (bool_decide_eq_true_1 _); by vm_compute|].
  intros t. apply (bool_decide_eq_true_1 _). by destruct t; vm_compute.
Qed.

(** ** One connection *)

Section probe.
Context `{P2pLib}.

(** What the peer sends, and what we send. *)
Inductive Payload : Type :=
  | PVersion (v : VersionMessage)
  | PVerack
  | PReady
  | PRequestAddresses
  | PAddresses (m : AddressesMessage).
Inductive Sent : Type :=
  | SVersion (v : VersionMessage)
  | SVerack
  | SReady
  | SAddresses
  | SRequestAddresses
  | SReject (reason : rstr).

(** The calls [do_probe] makes on its router, and the clock. *)
Class Session (M : Type → Type) : Type := {
  subscribe : list KaspadMessagePayloadType → M unit;                    (** [router.subscribe] *)
  start : M unit;                                                        (** [router.start] *)
  dequeue : KaspadMessagePayloadType → Duration → M Payload;             (** [dequeue_with_timeout!] on the route of that type *)
  enqueue : Sent → M unit;                                               (** [router.enqueue] *)
  sleep : Duration → M unit;                                             (** [tokio::time::sleep] *)
  set_identity : bytes → M unit;                                         (** [router.set_identity] *)
  drain : list (list KaspadMessagePayloadType) → M unit;                 (** [spawn_route_drain] on the routes of these subscriptions *)
  fail : ∀ {A}, ProtocolError → M A;                                     (** [return Err(..)] and [?] *)
  attempt : ∀ {A}, M A → M (ProtocolError + A)%type;                     (** the result as a value, [match .. { Ok .. Err .. }] *)
}.

Section handshake.
Context {M : Type → Type} `{!MRet M, !MBind M, !Session M}.

(** The payload the route is for; anything else is an unexpected message. *)
Definition unexpected {A} : M A := fail (OtherProtocol (str "unexpected message")).
Definition dequeue_version (t : Duration) : M VersionMessage :=
  m ← dequeue TVersion t; match m with PVersion v => mret v | _ => unexpected end.
Definition dequeue_verack (t : Duration) : M unit :=
  m ← dequeue TVerack t; match m with PVerack => mret tt | _ => unexpected end.
Definition dequeue_ready (t : Duration) : M unit :=
  m ← dequeue TReady t; match m with PReady => mret tt | _ => unexpected end.
Definition dequeue_request_addresses (t : Duration) : M unit :=
  m ← dequeue TRequestAddresses t; match m with PRequestAddresses => mret tt | _ => unexpected end.
Definition dequeue_addresses (t : Duration) : M AddressesMessage :=
  m ← dequeue TAddresses t; match m with PAddresses a => mret a | _ => unexpected end.

(** [HashSet::extend], with the elements in insertion order. *)
Definition set_extend (s batch : list (IpAddress * Z)) : list (IpAddress * Z) :=
  foldl (λ s x, if decide (x ∈ s) then s else s ++ [x]) s batch.

(** The loop of [collect_addresses]: [left] rounds to go, [first] before the first. *)
Fixpoint collect_rounds (timeout : Duration) (left : nat) (first : bool) (address_set : list (IpAddress * Z))
    : M (list (IpAddress * Z)) :=
  match left with
  | O => mret address_set
  | S left' =>
      (if first then mret tt else sleep PROBE_REPEAT_DELAY) ≫= λ _,
      r ← attempt (enqueue SRequestAddresses);
      match r with
      | inl err => if decide (address_set = []) then fail err else mret address_set
      | inr _ =>
          recv ← attempt (dequeue_addresses timeout);
          match recv with
          | inl err => if decide (address_set = []) then fail err else mret address_set
          | inr msg =>
              match addresses_try_into msg with
              | inl err => fail err
              | inr batch =>
                  let address_set := set_extend address_set batch in
                  if decide (MAX_ADDRESSES_RECEIVE < Z.of_nat (length address_set))
                  then fail (OtherOwned (str "address count " ++ u_to_string (Z.of_nat (length address_set)) ++
                                         str " exceeded 2500"))
                  else collect_rounds timeout left' false address_set
              end
          end
      end
  end.

(** [collect_addresses]. *)
Definition collect_addresses (cfg : ProbeInitializerConfig) : M (list (IpAddress * Z)) :=
  collect_rounds (probe_timeout cfg) (rounds_of cfg) true [].

(** Our answer to the peer's version: its protocol version and services mirrored. *)
Definition our_version (cfg : ProbeInitializerConfig) (peer : VersionMessage) (unix_now : Z) (uuid : bytes)
    : VersionMessage :=
  mkVersion (vm_protocol_version peer) (vm_services peer) (try_from_or I64_MAX unix_now) uuid USER_AGENT true None
    (local_network cfg).

(** The routes [do_probe] takes before it starts the router. *)
Definition subscribe_routes : M unit :=
  subscribe [TVersion] ≫= λ _,
  subscribe [TVerack] ≫= λ _,
  subscribe [TReady] ≫= λ _,
  subscribe [TRequestAddresses] ≫= λ _,
  subscribe [TAddresses] ≫= λ _,
  subscribe drain_payload_types ≫= λ _,
  start.

(** [do_probe]; [unix_now] and [uuid] are the clock reading and the random id. *)
Definition do_probe (cfg : ProbeInitializerConfig) (unix_now : Z) (uuid : bytes) : M ProbeResult :=
  let timeout := probe_timeout cfg in
  subscribe_routes ≫= λ _,
  peer_version ← dequeue_version timeout;
  if decide (vm_network peer_version ≠ local_network cfg)
  then fail (WrongNetwork (local_network cfg) (vm_network peer_version))
  else
    match peer_id_from_slice (vm_id peer_version) with
    | Some peer_id => set_identity peer_id
    | None => mret tt
    end ≫= λ _,
    enqueue (SVersion (our_version cfg peer_version unix_now uuid)) ≫= λ _,
    dequeue_verack timeout ≫= λ _,
    enqueue SVerack ≫= λ _,
    enqueue SReady ≫= λ _,
    dequeue_ready timeout ≫= λ _,
    dequeue_request_addresses timeout ≫= λ _,
    enqueue SAddresses ≫= λ _,
    address_list ← collect_addresses cfg;
    attempt (enqueue (SReject (str "DUPLICATE_CONNECTION"))) ≫= λ _,
    drain probe_subscriptions ≫= λ _,
    mret (mkProbeResult peer_version address_list).

End handshake.

(** ** A connection whose other end is the environment *)

(** The environment's answer to the next [dequeue_with_timeout!]: what arrives on the route, and
    after how long. When the list is used up nothing ever arrives. *)
Record Arrival : Type := mkArrival { delay : Duration; arrives : ProtocolError + Payload }.

Record Conn : Type := mkConn {
  arrivals : list Arrival;
  send_errors : list (option ProtocolError);    (** the answers of [router.enqueue]; used up: success *)
  sent : list Sent;                             (** oldest first *)
  identity : option bytes;                      (** [router.set_identity] *)
  elapsed : Duration;                           (** time spent waiting *)
  routes : list (list KaspadMessagePayloadType);   (** what was subscribed *)
  drained : list (list KaspadMessagePayloadType);  (** the routes handed to drain tasks *)
}.

Definition Proto (A : Type) : Type := Conn → (ProtocolError + A) * Conn.
#[global] Instance Proto_ret : MRet Proto := λ A a c, (inr a, c).
#[global] Instance Proto_bind : MBind Proto := λ A B f p c,
  match p c with
  | (inr a, c') => f a c'
  | (inl e, c') => (inl e, c')
  end.

Definition wait (d : Duration) (c : Conn) : Conn :=
  mkConn (arrivals c) (send_errors c) (sent c) (identity c) (elapsed c + d) (routes c) (drained c).

(** An answer that comes too late is a timeout. *)
Definition conn_dequeue (timeout : Duration) : Proto Payload := λ c,
  match arrivals c with
  | [] => (inl (ProtoTimeout timeout), wait timeout c)
  | a :: rest =>
      let c' := mkConn rest (send_errors c) (sent c) (identity c) (elapsed c) (routes c) (drained c) in
      if decide (timeout < delay a) then (inl (ProtoTimeout timeout), wait timeout c')
      else (arrives a, wait (delay a) c')
  end.
Definition conn_enqueue (s : Sent) : Proto unit := λ c,
  match send_errors c with
  | Some e :: rest => (inl e, mkConn (arrivals c) rest (sent c) (identity c) (elapsed c) (routes c) (drained c))
  | None :: rest => (inr tt, mkConn (arrivals c) rest (sent c ++ [s]) (identity c) (elapsed c) (routes c) (drained c))
  | [] => (inr tt, mkConn (arrivals c) [] (sent c ++ [s]) (identity c) (elapsed c) (routes c) (drained c))
  end.

Definition proto_fail {A} (e : ProtocolError) : Proto A := λ c, (inl e, c).
Definition proto_attempt {A} (p : Proto A) : Proto (ProtocolError + A)%type := λ c, let '(r, c') := p c in (inr r, c').

#[global] Instance Proto_session : Session Proto := {|
  subscribe types c :=
    (inr tt, mkConn (arrivals c) (send_errors c) (sent c) (identity c) (elapsed c) (routes c ++ [types]) (drained c));
  start c := (inr tt, c);
  dequeue _ := conn_dequeue;
  enqueue := conn_enqueue;
  sleep d c := (inr tt, wait d c);
  set_identity id c :=
    (inr tt, mkConn (arrivals c) (send_errors c) (sent c) (Some id) (elapsed c) (routes c) (drained c));
  drain rs c :=
    (inr tt, mkConn (arrivals c) (send_errors c) (sent c) (identity c) (elapsed c) (routes c) (drained c ++ rs));
  fail := @proto_fail;
  attempt := @proto_attempt;
|}.

(** The error [initialize_connection] reports to the waiting probe. *)
Definition probe_error_of (err : ProtocolError) : ProbeError :=
  match err with
  | ProtoTimeout _ => Timeout
  | WrongNetwork local remote => NetworkMismatch local remote
  | other => Handshake (protocol_error_to_string other)
  end.

(** The [pending] map: the probes that wait for an outcome, and the outcomes sent to them. *)
Record Pending : Type := mkPending {
  waiting : gset SocketAddr;
  delivered : list (SocketAddr * (ProbeError + ProbeResult));
}.

(** [initialize_connection] on the connection of [addr]. *)
Definition initialize_connection (cfg : ProbeInitializerConfig) (addr : SocketAddr) (unix_now : Z) (uuid : bytes)
    (pend : Pending) (c : Conn) : (ProtocolError + unit) * Pending * Conn :=
  let '(result, c') := do_probe cfg unix_now uuid c in
  let sender := bool_decide (addr ∈ waiting pend) in
  let pend' := mkPending (waiting pend ∖ {[addr]}) (delivered pend) in
  match result with
  | inr probe_result =>
      (inr tt, if sender then mkPending (waiting pend') (delivered pend' ++ [(addr, inr probe_result)]) else pend', c')
  | inl err =>
      (inl err, if sender then mkPending (waiting pend') (delivered pend' ++ [(addr, inl (probe_error_of err))]) else pend', c')
  end.

(** [KaspadProbe::probe]. [connect] is what [Adaptor::connect_peer] does: fail before the
    connection is initialized, or run the initializer and answer with an error text or with
    success. *)
Definition probe (connect : rstr + (ProtocolError + unit → option rstr)) (cfg : ProbeInitializerConfig)
    (addr : SocketAddr) (unix_now : Z) (uuid : bytes) (pend : Pending) (c : Conn)
    : (ProbeError + ProbeResult) * Pending :=
  let pend := mkPending ({[addr]} ∪ waiting pend) [] in
  let drop_guard (p : Pending) := mkPending (waiting p ∖ {[addr]}) [] in
  match connect with
  | inl msg => (inl (Connection msg), drop_guard pend)
  | inr answer =>
      let '(r, pend', _) := initialize_connection cfg addr unix_now uuid pend c in
      match answer r with
      | Some msg => (inl (Connection msg), drop_guard pend')
      | None =>
          match delivered pend' with
          | (_, result) :: _ => (result, drop_guard pend')
          | [] => (inl (Handshake (str "probe outcome channel dropped")), drop_guard pend')
          end
      end
  end.

(** ** How long a connection is waited on *)

Definition takes {A} (p : Proto A) (k : Duration) : Prop := ∀ c, elapsed (p c).2 ≤ elapsed c + k.

Lemma takes_ret {A} (a : A) : takes (mret a) 0.
Proof. intros c. cbn. lia. Qed.
Lemma takes_fail {A} e : takes (fail (A := A) e) 0.
Proof. intros c. cbn. lia. Qed.
Lemma takes_mono {A} (p : Proto A) k l : takes p k → k ≤ l → takes p l.
Proof. intros Hp Hl c. specialize (Hp c). lia. Qed.
Lemma takes_bind {A B} (p : Proto A) (f : A → Proto B) k l :
  takes p k → (∀ a, takes (f a) l) → 0 ≤ l → takes (p ≫= f) (k + l).
Proof.
  intros Hp Hf Hl c. specialize (Hp c). unfold mbind, Proto_bind. destruct (p c) as [[e|a] c1]; cbn in *; [lia|].
  specialize (Hf a c1). lia.
Qed.
Lemma takes_attempt {A} (p : Proto A) k : takes p k → takes (attempt p) k.
Proof. intros Hp c. specialize (Hp c). cbn. unfold proto_attempt. by destruct (p c). Qed.
Lemma takes_enqueue s : takes (enqueue s) 0.
Proof. intros c. cbn. unfold conn_enqueue. destruct (send_errors c) as [|[]]; cbn; lia. Qed.
Lemma takes_dequeue ty t : takes (dequeue ty t) t.
Proof.
  intros c. cbn. unfold conn_dequeue. destruct (arrivals c) as [|a l]; cbn; [lia|]. case_decide; cbn; lia.
Qed.
Lemma takes_sleep d : takes (sleep d) d.
Proof. intros c. cbn. lia. Qed.
Lemma takes_set_identity id : takes (set_identity id) 0.
Proof. intros c. cbn. lia. Qed.

(** Waiting for one message of a given kind: at most the timeout. *)
Lemma takes_subscribe_routes : takes subscribe_routes 0.
Proof. intros c. change (elapsed c ≤ elapsed c + 0). lia. Qed.
Lemma takes_drain rs : takes (drain rs) 0.
Proof. intros c. cbn. lia. Qed.
Lemma takes_expect {A} ty t (f : Payload → Proto A) : (∀ m, takes (f m) 0) → takes (dequeue ty t ≫= f) t.
Proof. intros Hf. eapply takes_mono; [apply takes_bind; [apply takes_dequeue|exact Hf|done]|lia]. Qed.

Ltac takes_kind := apply takes_expect; intros []; first [apply takes_ret | apply takes_fail].
Lemma takes_version t : takes (dequeue_version t) t.
Proof. takes_kind. Qed.
Lemma takes_verack t : takes (dequeue_verack t) t.
Proof. takes_kind. Qed.
Lemma takes_ready t : takes (dequeue_ready t) t.
Proof. takes_kind. Qed.
Lemma takes_request t : takes (dequeue_request_addresses t) t.
Proof. takes_kind. Qed.
Lemma takes_addresses t : takes (dequeue_addresses t) t.
Proof. takes_kind. Qed.

Lemma takes_rounds t left first s :
  0 ≤ t → takes (collect_rounds t left first s) (Z.of_nat left * (t + PROBE_REPEAT_DELAY)).
Proof.
  intros Ht. assert (0 ≤ PROBE_REPEAT_DELAY) as Hd by (unfold PROBE_REPEAT_DELAY, from_millis; lia).
  revert first s. induction left as [|left IH]; intros first s; cbn [collect_rounds]; [apply takes_ret|].
  set (rest := Z.of_nat left * (t + PROBE_REPEAT_DELAY)). assert (0 ≤ rest) by (unfold rest; nia).
  eapply (takes_mono _ (PROBE_REPEAT_DELAY + (0 + (t + rest)))); [|unfold rest; lia].
  apply takes_bind; [|intros _|lia].
  { destruct first; [eapply takes_mono; [apply takes_ret|done]|apply takes_sleep]. }
  apply takes_bind; [apply takes_attempt, takes_enqueue| |lia]. intros [err|_].
  { case_decide; (eapply takes_mono; [first [apply takes_fail|apply takes_ret]|lia]). }
  apply takes_bind; [apply takes_attempt, takes_addresses| |lia]. intros [err|msg].
  { case_decide; (eapply takes_mono; [first [apply takes_fail|apply takes_ret]|lia]). }
  destruct (addresses_try_into msg); [eapply takes_mono; [apply takes_fail|lia]|].
  case_decide; [eapply takes_mono; [apply takes_fail|lia]|apply IH].
Qed.

Lemma takes_do_probe cfg unix_now uuid :
  0 ≤ probe_timeout cfg →
  takes (do_probe cfg unix_now uuid)
    (4 * probe_timeout cfg + Z.of_nat (rounds_of cfg) * (probe_timeout cfg + PROBE_REPEAT_DELAY)).
Proof.
  intros Ht. set (t := probe_timeout cfg) in *. set (r := Z.of_nat (rounds_of cfg) * _).
  assert (0 ≤ r) by (unfold r, PROBE_REPEAT_DELAY, from_millis; nia).
  unfold do_probe. fold t.
  eapply (takes_mono _ (0 + (t + (0 + (0 + (t + (0 + (0 + (t + (t + (0 + (r + (0 + (0 + 0)))))))))))))); [|lia].
  apply takes_bind; [apply takes_subscribe_routes|intros _|lia].
  apply takes_bind; [apply takes_version| |lia]. intros v.
  case_decide; [eapply takes_mono; [apply takes_fail|lia]|].
  apply takes_bind; [destruct (peer_id_from_slice _); [apply takes_set_identity|apply takes_ret]|intros _|lia].
  apply takes_bind; [apply takes_enqueue|intros _|lia].
  apply takes_bind; [apply takes_verack|intros _|lia].
  do 2 (apply takes_bind; [apply takes_enqueue|intros _|lia]).
  apply takes_bind; [apply takes_ready|intros _|lia].
  apply takes_bind; [apply takes_request|intros _|lia].
  apply takes_bind; [apply takes_enqueue|intros _|lia].
  apply takes_bind; [by apply takes_rounds|intros l|lia].
  apply takes_bind; [apply takes_attempt, takes_enqueue|intros _|lia].
  apply takes_bind; [apply takes_drain|intros _; apply takes_ret|lia].
Qed.

(** ** Successful runs *)

Lemma bind_inr {A B} (p : Proto A) (f : A → Proto B) c b c' :
  (p ≫= f) c = (inr b, c') → ∃ a c1, p c = (inr a, c1) ∧ f a c1 = (inr b, c').
Proof. unfold mbind, Proto_bind. destruct (p c) as [[e|a] c1]; [done|eauto]. Qed.

Lemma enqueue_inr s c a c' : enqueue s c = (inr a, c') → sent c' = sent c ++ [s] ∧ arrivals c' = arrivals c.
Proof. cbn. unfold conn_enqueue. destruct (send_errors c) as [|[]]; intros; simplify_eq; done. Qed.

Lemma attempt_enqueue s c r c' :
  attempt (enqueue s) c = (r, c') →
  ∃ o, r = inr o ∧ arrivals c' = arrivals c ∧ sent c' = sent c ++ (if o is inr _ then [s] else []).
Proof.
  cbn. unfold proto_attempt, conn_enqueue. destruct (send_errors c) as [|[e|] l]; intros; simplify_eq; eexists; (split; [done|]);
    cbn; by rewrite ?app_nil_r.
Qed.

(** What a wait leaves behind: nothing sent, and the arrivals after the one it took. *)
Lemma dequeue_spec ty t c r c' :
  dequeue ty t c = (r, c') → sent c' = sent c ∧ identity c' = identity c ∧
    ((arrivals c = [] ∧ r = inl (ProtoTimeout t) ∧ arrivals c' = []) ∨
     ∃ a l, arrivals c = a :: l ∧ arrivals c' = l ∧ (r = arrives a ∨ (r = inl (ProtoTimeout t) ∧ t < delay a))).
Proof.
  cbn. unfold conn_dequeue. destruct (arrivals c) as [|a l] eqn:E; [|case_decide]; intros; simplify_eq; cbn; rewrite ?E; naive_solver.
Qed.

(** Waiting for one kind of message succeeds only on that kind. *)
Lemma expect_spec {A} ty t (f : Payload → Proto A) (P : Payload → A → Prop) c a c' :
  (∀ m c a c', f m c = (inr a, c') → P m a ∧ c' = c) →
  (dequeue ty t ≫= f) c = (inr a, c') →
  sent c' = sent c ∧ ∃ ar l m, arrivals c = ar :: l ∧ arrivals c' = l ∧ arrives ar = inr m ∧ P m a.
Proof.
  intros Hf (m & c1 & Hd & [HP ->]%Hf)%bind_inr.
  apply dequeue_spec in Hd as (Hs & _ & [(_ & ? & _)|(ar & l & Ha & Hl & [Hr|[? _]])]); [done| |done].
  split; [done|]. exists ar, l, m. done.
Qed.

Ltac expect_kind P := apply (expect_spec _ _ _ P); intros []; unfold mret, Proto_ret, unexpected, fail;
  intros; simplify_eq; done.
Lemma dequeue_version_inr t c v c' :
  dequeue_version t c = (inr v, c') → sent c' = sent c ∧ ∃ ar l m, arrivals c = ar :: l ∧ arrivals c' = l ∧
    arrives ar = inr m ∧ m = PVersion v.
Proof. expect_kind (λ m v, m = PVersion v). Qed.
Lemma dequeue_verack_inr t c a c' :
  dequeue_verack t c = (inr a, c') → sent c' = sent c ∧ ∃ ar l m, arrivals c = ar :: l ∧ arrivals c' = l ∧
    arrives ar = inr m ∧ m = PVerack.
Proof. expect_kind (λ m (_ : unit), m = PVerack). Qed.
Lemma dequeue_ready_inr t c a c' :
  dequeue_ready t c = (inr a, c') → sent c' = sent c ∧ ∃ ar l m, arrivals c = ar :: l ∧ arrivals c' = l ∧
    arrives ar = inr m ∧ m = PReady.
Proof. expect_kind (λ m (_ : unit), m = PReady). Qed.
Lemma dequeue_request_inr t c a c' :
  dequeue_request_addresses t c = (inr a, c') → sent c' = sent c ∧ ∃ ar l m, arrivals c = ar :: l ∧ arrivals c' = l ∧
    arrives ar = inr m ∧ m = PRequestAddresses.
Proof. expect_kind (λ m (_ : unit), m = PRequestAddresses). Qed.

(** A wait for addresses, successful or not. *)
Lemma attempt_addresses t c r c' :
  attempt (dequeue_addresses t) c = (r, c') →
  ∃ o, r = inr o ∧ sent c' = sent c ∧ arrivals c' `suffix_of` arrivals c ∧
    (∀ m, o = inr m → ∃ ar, ar ∈ arrivals c ∧ arrives ar = inr (PAddresses m)).
Proof.
  change (attempt (dequeue_addresses t)) with (proto_attempt (A:=AddressesMessage) (dequeue_addresses t)).
  unfold proto_attempt, dequeue_addresses, mbind, Proto_bind.
  destruct (dequeue (M := Proto) TAddresses t c) as [[e|m] c1] eqn:Hd; apply dequeue_spec in Hd as (Hs & _ & Hd).
  - intros; simplify_eq. exists (inl e). split; [done|]. split; [done|]. split; [|done].
    destruct Hd as [(-> & _ & ->)|(a & l & -> & -> & _)]; [done|by apply suffix_cons_r].
  - destruct Hd as [(_ & ? & _)|(a & l & Ha & Hl & Hr)]; [done|].
    destruct Hr as [Hr|[? _]]; [|done].
    assert (arrivals c1 `suffix_of` arrivals c) by (rewrite Ha, Hl; by apply suffix_cons_r).
    destruct m; cbn; unfold proto_fail; intros; simplify_eq; eexists; (split; [done|]); (split; [done|]); (split; [done|]);
      intros m' [=]; subst. exists a. split; [rewrite Ha; by left|done].
Qed.

(** ** Collected addresses *)

Lemma set_extend_spec s batch : NoDup s → NoDup (set_extend s batch) ∧ (∀ x, x ∈ set_extend s batch ↔ x ∈ s ∨ x ∈ batch).
Proof.
  unfold set_extend. revert s. induction batch as [|y batch IH]; intros s Hs; cbn [foldl]; [set_solver|].
  case_decide as Hy.
  - destruct (IH s Hs) as [? Hx]. split; [done|]. intros x. rewrite Hx. set_solver.
  - destruct (IH (s ++ [y])) as [? Hx].
    { apply NoDup_app. split; [done|]. split; [set_solver|]. apply NoDup_singleton. }
    split; [done|]. intros x. rewrite Hx. set_solver.
Qed.

(** What the rounds collect, and when they fail. *)
Definition from_peer (c : Conn) (x : IpAddress * Z) : Prop :=
  ∃ ar m batch, ar ∈ arrivals c ∧ arrives ar = inr (PAddresses m) ∧ addresses_try_into m = inr batch ∧ x ∈ batch.

Lemma from_peer_suffix c c' x : arrivals c' `suffix_of` arrivals c → from_peer c' x → from_peer c x.
Proof.
  intros Hs (ar & m & batch & Hin & ?). exists ar, m, batch. split; [|done]. by eapply elem_of_suffix.
Qed.

(** One round, unfolded: nothing new, a stop with what there is, a failure, or a batch. *)
Lemma collect_round_inv t left first s c r c' :
  collect_rounds t (S left) first s c = (r, c') →
  ∃ c1 k, (k ≤ 1)%nat ∧ sent c1 = sent c ++ replicate k SRequestAddresses ∧ arrivals c1 `suffix_of` arrivals c ∧
    ((s = [] ∧ ∃ e, r = inl e ∧ c' = c1) ∨ (s ≠ [] ∧ r = inr s ∧ c' = c1) ∨
     (k = 1%nat ∧ ∃ m ar, ar ∈ arrivals c ∧ arrives ar = inr (PAddresses m) ∧
       ((∃ e, addresses_try_into m = inl e ∧ r = inl e ∧ c' = c1) ∨
        ∃ batch, addresses_try_into m = inr batch ∧
          ((MAX_ADDRESSES_RECEIVE < Z.of_nat (length (set_extend s batch)) ∧ (∃ msg, r = inl (OtherOwned msg)) ∧ c' = c1) ∨
           (Z.of_nat (length (set_extend s batch)) ≤ MAX_ADDRESSES_RECEIVE ∧
              collect_rounds t left false (set_extend s batch) c1 = (r, c')))))).
Proof.
  cbn [collect_rounds]. intros Hrun.
  assert (∃ c0, sent c0 = sent c ∧ arrivals c0 = arrivals c ∧
    (r1 ← attempt (enqueue SRequestAddresses);
      match r1 with
      | inl err => if decide (s = []) then fail err else mret s
      | inr _ => recv ← attempt (dequeue_addresses t);
          match recv with
          | inl err => if decide (s = []) then fail err else mret s
          | inr msg => match addresses_try_into msg with
              | inl err => fail err
              | inr batch => if decide (MAX_ADDRESSES_RECEIVE < Z.of_nat (length (set_extend s batch)))
                  then fail (OtherOwned (str "address count " ++ u_to_string (Z.of_nat (length (set_extend s batch))) ++
                                         str " exceeded 2500"))
                  else collect_rounds t left false (set_extend s batch)
              end
          end
      end) c0 = (r, c')) as (c0 & Hs0 & Ha0 & Hrun0).
  { destruct first; [by exists c|]. by exists (wait PROBE_REPEAT_DELAY c). }
  clear Hrun. rewrite <-Hs0, <-Ha0. clear Hs0 Ha0 c. unfold mbind in Hrun0 at 1. unfold Proto_bind in Hrun0 at 1.
  destruct (attempt (M := Proto) (enqueue SRequestAddresses) c0) as [r1 c1] eqn:E1.
  apply attempt_enqueue in E1 as (o & -> & Ha1 & Hs1). destruct o as [err|[]].
  { exists c1, 0%nat. split; [lia|]. split; [by rewrite Hs1|]. split; [by rewrite Ha1|].
    case_decide; cbn in Hrun0; unfold mret, Proto_ret, proto_fail in Hrun0; injection Hrun0 as <- <-; [left|right; left]; eauto. }
  unfold mbind in Hrun0. unfold Proto_bind in Hrun0.
  destruct (attempt (M := Proto) (dequeue_addresses t) c1) as [r2 c2] eqn:E2.
  apply attempt_addresses in E2 as (o & -> & Hs2 & Ha2 & Hm).
  exists c2, 1%nat. split; [lia|]. split; [by rewrite Hs2, Hs1|]. split; [by rewrite <-Ha1|].
  destruct o as [err|m]; [case_decide; cbn in Hrun0; unfold mret, Proto_ret, proto_fail in Hrun0; injection Hrun0 as <- <-; [left|right; left]; eauto|].
  right. right. split; [done|]. destruct (Hm m eq_refl) as (ar & Har & Hinr). rewrite Ha1 in Har.
  exists m, ar. split; [done|]. split; [done|].
  destruct (addresses_try_into m) as [e|batch]; [left; injection Hrun0 as <- <-; eauto|right].
  exists batch. split; [done|]. case_decide; [left|right].
  - injection Hrun0 as <- <-. eauto.
  - split; [lia|done].
Qed.

Lemma collect_rounds_spec t left first s c r c' :
  NoDup s → Z.of_nat (length s) ≤ MAX_ADDRESSES_RECEIVE → collect_rounds t left first s c = (r, c') →
  (∃ k, (k ≤ left)%nat ∧ sent c' = sent c ++ replicate k SRequestAddresses ∧
     (∀ l, r = inr l → s = [] → left = 0%nat ∨ (0 < k)%nat)) ∧
  match r with
  | inr l => NoDup l ∧ Z.of_nat (length l) ≤ MAX_ADDRESSES_RECEIVE ∧ s ⊆ l ∧ (∀ x, x ∈ l → x ∈ s ∨ from_peer c x)
  | inl e => s ≠ [] → (∃ m, addresses_try_into m = inl e) ∨ (∃ msg, e = OtherOwned msg)
  end.
Proof.
  revert first s c r c'. induction left as [|left IH]; intros first s c r c' Hnd Hlen.
  { cbn. intros [= <- <-]. split; [exists 0%nat; split; [lia|]; split; [by rewrite app_nil_r|by left]|].
    split; [done|]. split; [done|]. split; [done|]. auto. }
  intros (c1 & k & Hk & Hs1 & Ha1 & [(-> & e & -> & ->)|[(Hs & -> & ->)|(-> & m & ar & Hin & Har & Hm)]])%collect_round_inv.
  { split; [|done]. exists k. split; [lia|]. by split. }
  { split; [exists k; split; [lia|]; by split|]. split; [done|]. split; [done|]. split; [done|]. auto. }
  destruct Hm as [(e & He & -> & ->)|(batch & Hb & [(Hbig & [msg ->] & ->)|[Hsmall Hrun]])].
  { split; [exists 1%nat; split; [lia|]; by split|]. intros _. left. eauto. }
  { split; [exists 1%nat; split; [lia|]; by split|]. intros _. right. eauto. }
  destruct (set_extend_spec s batch Hnd) as [Hnd' Hx]. apply IH in Hrun as [(k & Hk' & Hs' & _) Hr]; [|done|done].
  split.
  { exists (S k). split; [lia|]. split; [|right; lia]. rewrite Hs', Hs1, <-app_assoc. done. }
  destruct r as [e|l].
  - intros Hne. apply Hr. intros Hnil. destruct s as [|x s]; [done|].
    assert (x ∈ set_extend (x :: s) batch) as Hin' by (apply Hx; left; by left). rewrite Hnil in Hin'. set_solver.
  - destruct Hr as (? & ? & Hsub & Hfrom). split; [done|]. split; [done|]. split; [intros x Hxs; apply Hsub, Hx; by left|].
    intros x [[?|?]%Hx|?]%Hfrom; [by left| |right; by eapply from_peer_suffix].
    right. exists ar, m, batch. done.
Qed.

(** A successful [do_probe], step by step. *)
Lemma do_probe_inr cfg unix_now uuid c r c' :
  do_probe cfg unix_now uuid c = (inr r, c') →
  ∃ v l c1, (∃ ar rest, arrivals c = ar :: rest ∧ arrives ar = inr (PVersion v) ∧ arrivals c1 `suffix_of` rest) ∧
    vm_network v = local_network cfg ∧
    sent c1 = sent c ++ [SVersion (our_version cfg v unix_now uuid); SVerack; SReady; SAddresses] ∧
    r = mkProbeResult v l ∧
    ∃ c2, collect_addresses cfg c1 = (inr l, c2) ∧
      sent c' `prefix_of` sent c2 ++ [SReject (str "DUPLICATE_CONNECTION")] ∧ sent c2 `prefix_of` sent c'.
Proof.
  intros (u0 & c0 & Hsub & Hrun)%bind_inr.
  assert (sent c = sent c0 ∧ arrivals c = arrivals c0) as [-> ->] by (injection Hsub as <- <-; done). clear Hsub.
  apply bind_inr in Hrun as (v & c1 & (Hs1 & ar & rest & m & Ha & Ha1 & Hm & ->)%dequeue_version_inr & Hrun).
  case_decide as Hnet; [done|]. apply bind_inr in Hrun as (u & c2 & H2 & Hrun).
  assert (sent c2 = sent c1 ∧ arrivals c2 = arrivals c1) as [Hs2 Ha2].
  { destruct (peer_id_from_slice (vm_id v)); by injection H2 as <- <-. }
  apply bind_inr in Hrun as ([] & c3 & [Hs3 Ha3]%enqueue_inr & Hrun).
  apply bind_inr in Hrun as ([] & c4 & (Hs4 & a4 & l4 & m4 & Hl4 & Ha4 & _)%dequeue_verack_inr & Hrun).
  apply bind_inr in Hrun as ([] & c5 & [Hs5 Ha5]%enqueue_inr & Hrun).
  apply bind_inr in Hrun as ([] & c6 & [Hs6 Ha6]%enqueue_inr & Hrun).
  apply bind_inr in Hrun as ([] & c7 & (Hs7 & a7 & l7 & m7 & Hl7 & Ha7 & _)%dequeue_ready_inr & Hrun).
  apply bind_inr in Hrun as ([] & c8 & (Hs8 & a8 & l8 & m8 & Hl8 & Ha8 & _)%dequeue_request_inr & Hrun).
  apply bind_inr in Hrun as ([] & c9 & [Hs9 Ha9]%enqueue_inr & Hrun).
  apply bind_inr in Hrun as (l & c10 & Hcol & Hrun).
  apply bind_inr in Hrun as (o & c11 & (o' & _ & _ & Hs11)%attempt_enqueue & Hrun).
  assert (sent c' = sent c11 ∧ r = mkProbeResult v l) as [-> ->] by (injection Hrun as <- <-; done). clear Hrun.
  exists v, l, c9. split.
  { exists ar, rest. split; [done|]. split; [done|].
    rewrite <-Ha1, <-Ha2, <-Ha3, Hl4, <-Ha4, <-Ha5, <-Ha6, Hl7, <-Ha7, Hl8, <-Ha8, Ha9.
    by do 3 apply suffix_cons_r. }
  split; [destruct (decide (vm_network v = local_network cfg)); done|]. split.
  { rewrite Hs9, Hs8, Hs7, Hs6, Hs5, Hs4, Hs3, Hs2, Hs1, <-!app_assoc. done. }
  split; [done|]. exists c10. split; [done|]. rewrite Hs11. destruct o' as [|].
  - rewrite app_nil_r. split; [apply prefix_app_r|]; done.
  - split; [done|by apply prefix_app_r].
Qed.

(** ** What every step keeps *)

(** A step moves the connection along [R]. *)
Definition moves (R : relation Conn) {A} (p : Proto A) : Prop := ∀ c, R c (p c).2.

Section moves.
Context (R : relation Conn) `{!PreOrder R}.

Lemma moves_ret {A} (a : A) : moves R (mret a).
Proof. intros c. cbn. reflexivity. Qed.
Lemma moves_fail {A} e : moves R (fail (A := A) e).
Proof. intros c. cbn. reflexivity. Qed.
Lemma moves_bind {A B} (p : Proto A) (f : A → Proto B) : moves R p → (∀ a, moves R (f a)) → moves R (p ≫= f).
Proof.
  intros Hp Hf c. specialize (Hp c). unfold mbind, Proto_bind. destruct (p c) as [[e|a] c1]; cbn in *; [done|].
  etrans; [exact Hp|apply Hf].
Qed.
Lemma moves_attempt {A} (p : Proto A) : moves R p → moves R (attempt p).
Proof. intros Hp c. specialize (Hp c). cbn. unfold proto_attempt. by destruct (p c). Qed.

Context (t : Duration) (Henqueue : ∀ s, moves R (enqueue s)) (Hdequeue : ∀ ty, moves R (dequeue ty t))
        (Hsleep : moves R (sleep PROBE_REPEAT_DELAY)).

Lemma moves_expect {A} ty (f : Payload → Proto A) : (∀ m, moves R (f m)) → moves R (dequeue ty t ≫= f).
Proof. apply moves_bind, Hdequeue. Qed.

Lemma moves_rounds left first s : moves R (collect_rounds t left first s).
Proof.
  revert first s. induction left as [|left IH]; intros first s; cbn [collect_rounds]; [apply moves_ret|].
  apply moves_bind; [destruct first; [apply moves_ret|apply Hsleep]|intros _].
  apply moves_bind; [apply moves_attempt, Henqueue|]. intros [err|_]; [case_decide; [apply moves_fail|apply moves_ret]|].
  apply moves_bind; [apply moves_attempt, moves_expect; intros []; (apply moves_ret || apply moves_fail)|].
  intros [err|msg]; [case_decide; [apply moves_fail|apply moves_ret]|].
  destruct (addresses_try_into msg); [apply moves_fail|]. case_decide; [apply moves_fail|apply IH].
Qed.

Lemma moves_do_probe cfg unix_now uuid :
  probe_timeout cfg = t → (∀ id, moves R (set_identity id)) → moves R subscribe_routes → (∀ rs, moves R (drain rs)) →
  moves R (do_probe cfg unix_now uuid).
Proof.
  intros Ht Hidentity Hsub Hdrain. unfold do_probe, collect_addresses. rewrite Ht. apply moves_bind; [done|intros _].
  apply moves_bind; [apply moves_expect; intros []; (apply moves_ret || apply moves_fail)|intros v].
  case_decide; [apply moves_fail|]. apply moves_bind; [destruct (peer_id_from_slice _); [apply Hidentity|apply moves_ret]|intros _].
  repeat (apply moves_bind; [first [apply Henqueue | apply Hdrain | apply moves_rounds | apply moves_attempt, Henqueue
    | apply moves_expect; intros []; (apply moves_ret || apply moves_fail)]|intros ?]).
  apply moves_ret.
Qed.
End moves.

(** Everything but [subscribe] and [drain] leaves the routes alone. *)
Definition same_routes (c c' : Conn) : Prop := routes c' = routes c ∧ drained c' = drained c.
#[local] Instance same_routes_preorder : PreOrder same_routes.
Proof. split; [done|]. intros c1 c2 c3 [? ?] [? ?]. split; congruence. Qed.
Lemma keeps_enqueue s : moves same_routes (enqueue s).
Proof. intros c. cbn. unfold conn_enqueue. by destruct (send_errors c) as [|[]]. Qed.
Lemma keeps_dequeue ty t : moves same_routes (dequeue ty t).
Proof. intros c. cbn. unfold conn_dequeue. destruct (arrivals c); [done|]. by case_decide. Qed.
Lemma keeps_expect {A} ty t (f : Payload → Proto A) : (∀ m, moves same_routes (f m)) → moves same_routes (dequeue ty t ≫= f).
Proof. apply moves_bind; [apply _|apply keeps_dequeue]. Qed.

(** Waiting takes time, when the environment's delays are durations. *)
Definition conn_wf (c : Conn) : Prop := Forall (λ a, 0 ≤ delay a) (arrivals c).
Definition time_passes (c c' : Conn) : Prop := conn_wf c → conn_wf c' ∧ elapsed c ≤ elapsed c'.
#[local] Instance time_passes_preorder : PreOrder time_passes.
Proof.
  split; [by intros c|]. intros c1 c2 c3 H12 H23 Hwf. destruct (H12 Hwf) as [Hwf2 ?]. destruct (H23 Hwf2). split; [done|lia].
Qed.
Lemma do_probe_takes_time cfg unix_now uuid c :
  0 ≤ probe_timeout cfg → conn_wf c → elapsed c ≤ elapsed (do_probe cfg unix_now uuid c).2.
Proof.
  intros Ht Hwf. assert (Hm : moves time_passes (do_probe cfg unix_now uuid)); [|by apply Hm].
  apply (moves_do_probe _ (probe_timeout cfg)); [| | |done|..].
  - intros s x Hx. cbn. unfold conn_enqueue. by destruct (send_errors x) as [|[]].
  - intros ty x Hx. cbn. unfold conn_dequeue. unfold conn_wf in Hx. destruct (arrivals x) as [|a l] eqn:E.
    + split; [by unfold conn_wf; cbn; rewrite E|cbn; lia].
    + apply Forall_cons in Hx as [Ha Hl]. case_decide; (split; [done|cbn; lia]).
  - intros x Hx. split; [done|]. unfold PROBE_REPEAT_DELAY, from_millis. cbn. lia.
  - by intros x Hx.
  - by intros x Hx.
  - by intros x Hx.
Qed.

(** A successful handshake leaves a drain task on every route. *)
Lemma do_probe_routes cfg unix_now uuid c r c' :
  do_probe cfg unix_now uuid c = (inr r, c') →
  routes c' = routes c ++ probe_subscriptions ∧ drained c' = drained c ++ probe_subscriptions.
Proof.
  intros ([] & c0 & Hsub & (v & c1 & Hv & Hrun)%bind_inr)%bind_inr.
  assert (routes c0 = routes c ++ probe_subscriptions ∧ drained c0 = drained c) as [Hr0 Hd0].
  { injection Hsub as <-. cbn. by rewrite <-!app_assoc. }
  case_decide; [done|].
  assert (Hb : ∀ {A B} (p : Proto A) (f : A → Proto B) c b c', (p ≫= f) c = (inr b, c') → moves same_routes p →
    ∃ a c1, f a c1 = (inr b, c') ∧ routes c1 = routes c ∧ drained c1 = drained c).
  { intros A B p f x b x' (a & x1 & Hp & Hf)%bind_inr Hk. specialize (Hk x). rewrite Hp in Hk. by exists a, x1. }
  assert (routes c1 = routes c0 ∧ drained c1 = drained c0) as [Hr1 Hd1].
  { assert (moves same_routes (dequeue_version (probe_timeout cfg))) as Hk by (apply keeps_expect; by intros []).
    specialize (Hk c0). by rewrite Hv in Hk. }
  rewrite <-Hr0, <-Hd0, <-Hr1, <-Hd1. clear Hsub Hv Hr0 Hd0 Hr1 Hd1 c0.
  apply Hb in Hrun as (_ & c2 & Hrun & <- & <-); [|by destruct (peer_id_from_slice _)].
  apply Hb in Hrun as (_ & c3 & Hrun & <- & <-); [|apply keeps_enqueue].
  apply Hb in Hrun as (_ & c4 & Hrun & <- & <-); [|apply keeps_expect; by intros []].
  do 2 (apply Hb in Hrun as (_ & ? & Hrun & <- & <-); [|apply keeps_enqueue]).
  do 2 (apply Hb in Hrun as (_ & ? & Hrun & <- & <-); [|apply keeps_expect; by intros []]).
  apply Hb in Hrun as (_ & c9 & Hrun & <- & <-); [|apply keeps_enqueue].
  apply Hb in Hrun as (l & c10 & Hrun & <- & <-); [|apply moves_rounds; [apply _|apply keeps_enqueue|intros; apply keeps_dequeue|done]].
  apply Hb in Hrun as (_ & c11 & Hrun & <- & <-); [|apply moves_attempt, keeps_enqueue].
  injection Hrun as <- <-. done.
Qed.

(** The handshake's waits leave the slack of the connection's lifetime. *)
Lemma do_probe_within_lifetime cfg unix_now uuid c lifetime :
  0 ≤ probe_timeout cfg → max_connection_lifetime cfg = Some lifetime →
  elapsed (do_probe cfg unix_now uuid c).2 + LIFETIME_SLACK ≤ elapsed c + lifetime.
Proof.
  intros Ht Hl. pose proof (takes_do_probe cfg unix_now uuid Ht c) as Htk.
  assert (Z.of_nat (rounds_of cfg) = Z.max (probes_per_peer cfg) 1) as Hr by (unfold rounds_of; lia). rewrite Hr in Htk.
  unfold max_connection_lifetime in Hl.
  apply bind_Some in Hl as (a & Ha & (b & Hb & (d & Hd & He)%bind_Some)%bind_Some).
  unfold duration_mul, duration_add in *. repeat case_decide; simplify_eq. lia.
Qed.

(** ** Theorems *)

(** C22: the lifetime watchdog never cuts a handshake short. However slowly the peer answers, the time
    [do_probe] spends waiting stays at least the slack below the connection's maximum
    lifetime, so a connection the watchdog closes is one nobody waits on any more. *)
Theorem watchdog_outlives_handshake cfg unix_now uuid c lifetime :
  0 ≤ probe_timeout cfg → max_connection_lifetime cfg = Some lifetime →
  elapsed (do_probe cfg unix_now uuid c).2 + LIFETIME_SLACK ≤ elapsed c + lifetime.
Proof. apply do_probe_within_lifetime. Qed.


(** A successful probe reports distinct addresses, at most 2500, all of which the peer sent in
    this connection. *)
Theorem reported_addresses cfg unix_now uuid c r c' :
  do_probe cfg unix_now uuid c = (inr r, c') →
  NoDup (addresses r) ∧ Z.of_nat (length (addresses r)) ≤ MAX_ADDRESSES_RECEIVE ∧
  ∀ x, x ∈ addresses r → from_peer c x.
Proof.
  intros (v & l & c1 & (ar & rest & Ha & _ & Hsuf) & _ & _ & -> & c2 & Hcol & _)%do_probe_inr. cbn.
  unfold collect_addresses in Hcol.
  apply collect_rounds_spec in Hcol as [_ (? & ? & _ & Hfrom)]; [|constructor|done]. do 2 (split; [done|]).
  intros x [?|Hx]%Hfrom; [set_solver|]. eapply from_peer_suffix; [|exact Hx]. rewrite Ha. by apply suffix_cons_r.
Qed.

(** Once a batch of addresses has arrived, a later round that fails to send or to receive does not
    lose it: collection then only fails on a malformed message or on too many addresses, and
    what it returns contains everything collected before. *)
Theorem collected_not_lost t left s c r c' :
  NoDup s → Z.of_nat (length s) ≤ MAX_ADDRESSES_RECEIVE → s ≠ [] → collect_rounds t left false s c = (r, c') →
  match r with
  | inr l => s ⊆ l
  | inl e => (∃ m, addresses_try_into m = inl e) ∨ (∃ msg, e = OtherOwned msg)
  end.
Proof.
  intros Hnd Hlen Hne [_ Hr]%collect_rounds_spec; [|done|done]. destruct r; [by apply Hr|]. by destruct Hr as (_ & _ & ? & _).
Qed.

(** On every path out of [probe] (connection failure, handshake failure, success) the pending
    entry of the address is gone and the entries of other probes are untouched. *)
Theorem pending_released connect cfg addr unix_now uuid pend c :
  waiting (probe connect cfg addr unix_now uuid pend c).2 = waiting pend ∖ {[addr]}.
Proof.
  unfold probe. destruct connect as [msg|answer]; [cbn; set_solver|].
  assert (Hw : waiting (initialize_connection cfg addr unix_now uuid (mkPending ({[addr]} ∪ waiting pend) []) c).1.2
    = ({[addr]} ∪ waiting pend) ∖ {[addr]}).
  { unfold initialize_connection. destruct (do_probe (M := Proto) cfg unix_now uuid c) as [[e|r] c']; by case_bool_decide. }
  destruct (initialize_connection _ _ _ _ _ _) as [[r pend'] c']. cbn in Hw.
  destruct (answer r); [cbn; set_solver|]. destruct (delivered pend') as [|[]]; cbn; set_solver.
Qed.

(** C37: what the probe reports. As [Adaptor::connect_peer] fails whenever the initializer does, a
    probe returns the handshake's result on success, and every failure, a timeout and a network
    mismatch included, is reported as a connection error: the more precise outcome the initializer
    sends is never read. *)
Theorem probe_reports answer cfg addr unix_now uuid pend c :
  answer (inr tt) = None → (∀ e, is_Some (answer (inl e))) →
  match (do_probe cfg unix_now uuid c).1 with
  | inr r => (probe (inr answer) cfg addr unix_now uuid pend c).1 = inr r
  | inl _ => ∃ msg, (probe (inr answer) cfg addr unix_now uuid pend c).1 = inl (Connection msg)
  end.
Proof.
  intros Hok Herr. unfold probe, initialize_connection. destruct (do_probe (M := Proto) cfg unix_now uuid c) as [[e|r] c']; cbn [fst waiting].
  - destruct (Herr e) as [msg ->]. by exists msg.
  - rewrite Hok, bool_decide_true by set_solver. done.
Qed.
End probe.

(** ** Witnesses: a peer that answers two address rounds *)

#[local] Instance p2p_std : P2pLib := {|
  AddressesMessage := list (IpAddr * Z);
  addresses_try_into := λ m, inr m;
  peer_id_from_slice := λ b, if decide (length b = 16%nat) then Some b else None;
  protocol_error_to_string := λ e, match e with OtherOwned m | OtherProtocol m => m | _ => str "protocol error" end;
|}.

Definition init_cfg : ProbeInitializerConfig := mkInitConfig (str "kaspa-mainnet") (from_secs 5) 2.
Definition peer_version : VersionMessage :=
  mkVersion 8 0 123 [] (str "/kaspad:1.1.0/") false None (str "kaspa-mainnet").
Definition batch1 : @AddressesMessage _ p2p_std := [(V4 16843009, 16111); (V4 134744072, 16111)].
Definition batch2 : @AddressesMessage _ p2p_std := [(V4 16843009, 16111)].
Definition conn0 : Conn :=
  mkConn [mkArrival (from_millis 10) (inr (PVersion peer_version)); mkArrival (from_millis 10) (inr PVerack);
          mkArrival 0 (inr PReady); mkArrival 0 (inr PRequestAddresses);
          mkArrival (from_millis 40) (inr (PAddresses batch1)); mkArrival (from_secs 9) (inr (PAddresses batch2))]
         [] [] None 0 [] [].

Definition result_ok : ProbeResult := mkProbeResult peer_version batch1.
Lemma conn0_run : (do_probe (M := Proto) init_cfg 1000 [] conn0).1 = inr result_ok.
Proof. reflexivity. Qed.

Lemma watchdog_outlives_handshake_witness :
  elapsed (do_probe (M := Proto) init_cfg 1000 [] conn0).2 + LIFETIME_SLACK ≤ elapsed conn0 + (from_secs 45 + from_millis 500).
Proof. apply (watchdog_outlives_handshake init_cfg 1000 [] conn0); by vm_compute. Defined.


Lemma reported_addresses_witness : NoDup (addresses result_ok) ∧ Z.of_nat (length (addresses result_ok)) ≤ 2500.
Proof.
  destruct (reported_addresses init_cfg 1000 [] conn0 result_ok (do_probe (M := Proto) init_cfg 1000 [] conn0).2) as (? & ? & _); [|done].
  rewrite <-conn0_run. by destruct (do_probe (M := Proto) init_cfg 1000 [] conn0).
Defined.

(** The connection breaks in the second round. *)
Definition conn1 : Conn := mkConn [] [Some (OtherProtocol (str "closed"))] [] None 0 [] [].
Definition held1 : list (@IpAddress kaspa_net_std * Z) := [(V4 16843009, 16111)].
Lemma collected_not_lost_witness : held1 ⊆ held1.
Proof.
  apply (collected_not_lost (from_secs 5) 1 held1 conn1 (inr held1) (collect_rounds (M := Proto) (from_secs 5) 1 false held1 conn1).2).
  - apply NoDup_singleton.
  - by vm_compute.
  - done.
  - done.
Defined.

Lemma probe_reports_witness :
  (probe (inr (λ r, match r with inr _ => None | inl e => Some (protocol_error_to_string e) end))
     init_cfg (SockV4 16843009 16111) 1000 [] (mkPending ∅ []) conn0).1 = inr result_ok.
Proof.
  pose proof (probe_reports (λ r, match r with inr _ => None | inl e => Some (protocol_error_to_string e) end)
    init_cfg (SockV4 16843009 16111) 1000 [] (mkPending ∅ []) conn0 eq_refl) as Hp.
  rewrite conn0_run in Hp. apply Hp. intros e. by eexists.
Defined.
