(* ===== verification/ServingCache.v ===== *)
(** * The DNS serving cache (src/dns/src/serving_cache.rs, src/dns/src/config.rs)

    The snapshot of peer addresses the DNS handler answers from: built from the store with the
    serving filter, the freshest first, and published as a whole. *)

From S2P Require Import Prelude Text Net Common Record Redb RedbInstances PeerStore StoreSpec StoreOps StoreScans StoreExample.

Definition SNAPSHOT_MULTIPLIER : Z := 10.

Section cache.
Context `{Semver}.

(** [DnsConfig], without the listening addresses and names (those are in DnsServer.v and
    DnsHandler.v). *)
Record DnsConfig : Type := mkDnsConfig {
  dns_default_port : Z;
  max_records : Z;
  queries_per_ip_per_second : Z;
  rate_limit_window : Duration;
  dns_stale_good : Duration;
  dns_min_protocol_version : option Z;
  dns_min_user_agent : option Version;
}.

(** The limits [DnsConfig::new] starts from. *)
Definition dns_config_new (default_port : Z) : DnsConfig :=
  mkDnsConfig default_port 10 1 (from_secs 5) (from_mins 15) None None.

(** [Snapshot] and [ServingCache]. *)
Record Snapshot : Type := mkSnapshot { snap_v4 : list IpAddr; snap_v6 : list IpAddr }.
Definition snapshot_default : Snapshot := mkSnapshot [] [].

Record ServingCache : Type := mkCache { inner : Snapshot; last_refresh_ms : Z }.
Definition cache_new : ServingCache := mkCache snapshot_default 0.

(** [ServingCache::store]. *)
Definition cache_store (snap : Snapshot) (now : Z) (cache : ServingCache) : ServingCache := mkCache snap now.

Context `{RedbApi} `{Bincode}.

(** [sort_unstable_by_key(|p| Reverse(p.last_success_ms))]: some order with the most recent success first. *)
Context (sort_freshest : list PeerRecord → list PeerRecord).

(** The filter of one family. *)
Definition serving_filter (config : DnsConfig) (p2p_port : Z) (fam : Family) (now : Z) : Filter :=
  serving now (duration_to_ms (dns_stale_good config)) (dns_min_protocol_version config)
    (dns_min_user_agent config) (Some fam) (Some p2p_port).

(** [pick_freshest]: a failed scan is logged and gives no address. *)
Definition pick_freshest (config : DnsConfig) (p2p_port : Z) (fam : Family) (cap now : Z) : DB (list IpAddr) :=
  or_log (
    peers ← collect_matching (serving_filter config p2p_port fam now);
    mret ((λ p, ip (address p)) <$> take (Z.to_nat cap) (sort_freshest peers))) [].

(** [build_snapshot]: the clock is read once per family. *)
Definition build_snapshot (config : DnsConfig) (p2p_port cap now4 now6 : Z) : DB Snapshot :=
  v4 ← pick_freshest config p2p_port FamV4 cap now4;
  v6 ← pick_freshest config p2p_port FamV6 cap now6;
  mret (mkSnapshot v4 v6).

(** [refresh_now], and one tick of the refresher. *)
Definition refresh_now (cache : ServingCache) (config : DnsConfig) (p2p_port cap now4 now6 now : Z) : DB ServingCache :=
  snap ← build_snapshot config p2p_port cap now4 now6;
  mret (cache_store snap now cache).

(** The size bound [build_serving_cache] passes on (src/dns/src/server.rs). *)
Definition snapshot_cap (config : DnsConfig) : Z := usize_saturating_mul (max_records config) SNAPSHOT_MULTIPLIER.

(** [build_serving_cache]: one refresh at once; the refresher it starts is in Lifecycle.v. *)
Definition build_serving_cache (config : DnsConfig) (now4 now6 now : Z) : DB ServingCache :=
  refresh_now cache_new config (dns_default_port config) (snapshot_cap config) now4 now6 now.

(** ** Lemmas *)

Definition fresher (p q : PeerRecord) : Prop := last_success_ms q ≤ last_success_ms p.

Context `{!RedbLaws} `{!BincodeLaws}.
Hypothesis sort_perm : ∀ l, sort_freshest l ≡ₚ l.
Hypothesis sort_sorted : ∀ l, StronglySorted fresher (sort_freshest l).

(** Timestamps and clock readings that are non-negative milliseconds: no age overflows. *)
Definition times_ok (m : gmap NetAddress PeerRecord) : Prop :=
  map_Forall (λ _ r, 0 ≤ last_seen_ms r ≤ I64_MAX ∧ 0 ≤ last_success_ms r ≤ I64_MAX) m.

(** The records of one family that may be served. *)
Definition servable (config : DnsConfig) (p2p_port : Z) (fam : Family) (now : Z) (r : PeerRecord) : Prop :=
  now - last_success_ms r ≤ duration_to_ms (dns_stale_good config) ∧
  family_ok fam (ip (address r)) = true ∧ port (address r) = p2p_port ∧
  passes_validity (serving_filter config p2p_port fam now) r = true.

Lemma serving_matches config p2p_port fam now m r :
  0 ≤ now ≤ I64_MAX → times_ok m → m !! address r = Some r →
  ∃ b, matches (serving_filter config p2p_port fam now) r = Some b ∧ (b = true ↔ servable config p2p_port fam now r).
Proof.
  intros Hnow Hm Hr. destruct (Hm _ _ Hr) as [Hs Ho].
  eexists. split; [apply matches_serving; by apply sub_in_i64|]. rewrite !andb_true_iff, bool_decide_eq_true.
  unfold servable. fold (serving_filter config p2p_port fam now). split; [|naive_solver].
  intros [[? ?] Hv]. pose proof Hv as (_ & _ & Hp)%passes_validity_spec. split; [done|]. split; [done|]. split; [by apply Hp|done].
Qed.

(** What one family of a snapshot holds. *)
Definition picked (m : gmap NetAddress PeerRecord) (config : DnsConfig) (p2p_port : Z) (fam : Family) (cap now : Z)
    (ips : list IpAddr) : Prop :=
  ∃ recs, ips = (λ p, ip (address p)) <$> recs ∧
    top_k fresher cap (λ r, m !! address r = Some r ∧ servable config p2p_port fam now r) recs.

(** The addresses of a pick are distinct, and each is that of a servable stored record. *)
Lemma picked_ips m config p2p_port fam cap now ips :
  picked m config p2p_port fam cap now ips →
  NoDup ips ∧ ∀ a, a ∈ ips → ∃ r, m !! mkNetAddress a p2p_port = Some r ∧
    address r = mkNetAddress a p2p_port ∧ servable config p2p_port fam now r.
Proof.
  intros (recs & -> & Hnd & _ & _ & Hin & _).
  assert (Haddr : ∀ r, r ∈ recs → address r = mkNetAddress (ip (address r)) p2p_port).
  { intros r (_ & _ & _ & Hp & _)%Hin. destruct (address r). cbn in *. by subst. }
  split.
  - apply NoDup_fmap_2_strong; [|done]. intros r1 r2 Hr1 Hr2 Heq.
    assert (address r1 = address r2) as Ha by (rewrite (Haddr r1), (Haddr r2), Heq; done).
    apply Hin in Hr1 as [Hr1 _], Hr2 as [Hr2 _]. congruence.
  - intros a (r & -> & Hr)%list_elem_of_fmap. exists r. rewrite <-(Haddr r Hr). by destruct (Hin r Hr).
Qed.

Lemma picked_of_sorted m config p2p_port fam cap now l :
  0 ≤ cap → NoDup l → (∀ r, r ∈ l ↔ m !! address r = Some r ∧ servable config p2p_port fam now r) →
  picked m config p2p_port fam cap now ((λ p, ip (address p)) <$> take (Z.to_nat cap) (sort_freshest l)).
Proof.
  intros Hcap Hnd Hin. eexists. split; [reflexivity|].
  eapply top_k_take; [exact Hcap|apply sort_perm|apply sort_sorted|exact Hnd|exact Hin].
Qed.

Lemma pick_freshest_spec d m config p2p_port fam cap now fs :
  repr d m → times_ok m → 0 ≤ now ≤ I64_MAX → 0 ≤ cap →
  ∃ ips fs', pick_freshest config p2p_port fam cap now (mkWorld d fs) = (Ok ips, mkWorld d fs') ∧
    (quiet fs → quiet fs') ∧ (picked m config p2p_port fam cap now ips ∨ (ips = [] ∧ ¬ reliable fs)).
Proof.
  intros Hr Hm Hnow Hcap. unfold pick_freshest.
  assert (Hrec : ∀ r, r ∈ records m → m !! address r = Some r) by (intros r; by rewrite (records_elem _ _ _ Hr)).
  assert (Ha : atomic d (peers ← collect_matching (serving_filter config p2p_port fam now);
      mret ((λ p, ip (address p)) <$> take (Z.to_nat cap) (sort_freshest peers))) enc_err
    (λ ips d', d' = d ∧ picked m config p2p_port fam cap now ips)).
  { eapply atomic_bind_ret; [eapply collect_matching_atomic; [done|]|].
    - intros r Hin%Hrec. destruct (serving_matches config p2p_port fam now m r Hnow Hm Hin) as (b & -> & _). done.
    - cbn beta. intros l d' [-> Hl]. split; [done|]. apply picked_of_sorted; [done| |].
      + rewrite Hl. apply NoDup_filter. by eapply records_nodup.
      + intros r. rewrite Hl, list_elem_of_filter, (records_elem _ _ _ Hr). split.
        * intros [Hmat Hin]. destruct (serving_matches config p2p_port fam now m r Hnow Hm Hin) as (b & Hb & Hiff).
          split; [done|]. apply Hiff. congruence.
        * intros [Hin Hsv]. destruct (serving_matches config p2p_port fam now m r Hnow Hm Hin) as (b & Hb & Hiff).
          split; [|done]. rewrite Hb. f_equal. by apply Hiff. }
  destruct (atomic_or_log d _ [] _ _ fs Ha) as (ips & [d' fs'] & E & Hq & Hd). cbn [disk faults] in *.
  exists ips, fs'. destruct Hd as [[-> Hp]|(-> & -> & Hn)].
  - split; [done|]. split; [done|]. by left.
  - split; [done|]. split; [done|]. right. split; [done|]. by intros ?%reliable_no_err.
Qed.

Lemma build_snapshot_spec d m config p2p_port cap now4 now6 fs :
  repr d m → times_ok m → 0 ≤ now4 ≤ I64_MAX → 0 ≤ now6 ≤ I64_MAX → 0 ≤ cap →
  ∃ snap fs', build_snapshot config p2p_port cap now4 now6 (mkWorld d fs) = (Ok snap, mkWorld d fs') ∧
    (picked m config p2p_port FamV4 cap now4 (snap_v4 snap) ∨ (snap_v4 snap = [] ∧ ¬ reliable fs)) ∧
    (picked m config p2p_port FamV6 cap now6 (snap_v6 snap) ∨ (snap_v6 snap = [] ∧ ¬ reliable fs)).
Proof.
  intros Hr Hm H4 H6 Hcap. unfold build_snapshot, mbind, DB_bind.
  destruct (pick_freshest_spec d m config p2p_port FamV4 cap now4 fs) as (l4 & fs4 & -> & Hq4 & Hp4); [done..|].
  destruct (pick_freshest_spec d m config p2p_port FamV6 cap now6 fs4) as (l6 & fs6 & -> & Hq6 & Hp6); [done..|].
  exists (mkSnapshot l4 l6), fs6. split; [done|]. split; [done|]. cbn. destruct Hp6 as [?|[? Hn]]; [by left|right].
  split; [done|]. intros [? ?]. apply Hn. split; auto.
Qed.

(** ** Theorems *)

(** C9: a refresh publishes, for each address family, addresses of stored peers only: those with
    a success inside the freshness window, on the network's port, of that family and passing the
    version filters, each once, at most [max_records * 10] of them, and the most recently
    successful when there are more. A family comes out empty although peers qualify only when
    storage failed. *)
Theorem snapshot_serves_freshest d m config now4 now6 now cache fs :
  repr d m → times_ok m → 0 ≤ now4 ≤ I64_MAX → 0 ≤ now6 ≤ I64_MAX → 0 ≤ max_records config →
  ∃ snap fs', refresh_now cache config (dns_default_port config) (snapshot_cap config) now4 now6 now (mkWorld d fs) =
      (Ok (mkCache snap now), mkWorld d fs') ∧
    (picked m config (dns_default_port config) FamV4 (snapshot_cap config) now4 (snap_v4 snap) ∨
       (snap_v4 snap = [] ∧ ¬ reliable fs)) ∧
    (picked m config (dns_default_port config) FamV6 (snapshot_cap config) now6 (snap_v6 snap) ∨
       (snap_v6 snap = [] ∧ ¬ reliable fs)).
Proof.
  intros Hr Hm Hn4 Hn6 Hmax.
  destruct (build_snapshot_spec d m config (dns_default_port config) (snapshot_cap config) now4 now6 fs)
    as (snap & fs' & E & ?); [done..|unfold snapshot_cap, SNAPSHOT_MULTIPLIER; int_solve|].
  exists snap, fs'. unfold refresh_now, mbind, DB_bind. by rewrite E.
Qed.

(** A refresh whose two scans both fail is published all the same: the snapshot becomes empty and the
    time of the last refresh moves to the present, although nothing was read. *)
Theorem failed_refresh_published d config p2p_port cap now4 now6 now cache msg4 msg6 fs :
  refresh_now cache config p2p_port cap now4 now6 now (mkWorld d (Some msg4 :: Some msg6 :: fs)) =
  (Ok (mkCache snapshot_default now), mkWorld d fs).
Proof. done. Qed.
End cache.

(** ** Witness: [rec0] is served *)

Definition sort_std (l : list PeerRecord) : list PeerRecord := sort_by_key (λ p, - last_success_ms p) l.

Lemma sort_std_sorted l : StronglySorted fresher (sort_std l).
Proof.
  pose proof (sort_by_key_sorted (λ p, - last_success_ms p) l) as Hs. unfold sort_std.
  induction Hs as [|x l' Hs IH Hx]; constructor; [done|]. eapply Forall_impl; [exact Hx|].
  intros y. unfold key_le, fresher. lia.
Qed.

Definition dns_config0 : DnsConfig := dns_config_new 16111.

Lemma snapshot_serves_freshest_witness :
  ∃ snap fs', refresh_now sort_std cache_new dns_config0 16111 100 100 100 100 (mkWorld disk0 []) =
      (Ok (mkCache snap 100), mkWorld disk0 fs') ∧ ip addr0 ∈ snap_v4 snap.
Proof.
  destruct (snapshot_serves_freshest sort_std (λ l, sort_by_key_perm _ l) sort_std_sorted disk0 map0 dns_config0 100 100 100
    cache_new [] repr_disk0) as (snap & fs' & E & Hp & _); [|done..|].
  { apply map_Forall_insert_2; [vm_compute; intuition discriminate|apply map_Forall_empty]. }
  exists snap, fs'. split; [done|]. destruct Hp as [(recs & -> & Hnd & _ & _ & Hin & Hall)|[_ Hn]];
    [|destruct (Hn reliable_nil)].
  destruct (Hall rec0) as [Hr|[Hlen Hr]]; [split; [by vm_compute|vm_compute; intuition discriminate]| |].
  - by apply (list_elem_of_fmap_2 (λ p, ip (address p)) recs rec0).
  - assert (length recs ≤ 1)%nat.
    { apply (NoDup_all_eq rec0); [done|]. intros r [Hm _]%Hin. apply map0_records. by rewrite (records_elem _ _ _ repr_disk0). }
    change (snapshot_cap dns_config0) with 100 in Hlen. lia.
Defined.
