(* ===== verification/DnsHandler.v ===== *)
(** * The DNS request handler (src/dns/src/handler.rs, src/dns/src/metrics.rs)

    [handle_request] from the decoded request to the response that is sent, with the rate limiter and
    the counters as state. Domain names and random sampling come from dependencies and are
    parameters. *)

From S2P Require Import Prelude Text Net Common RateLimit Record Redb RedbInstances StoreSpec StoreScans StoreExample ServingCache.

(** ** Dependencies *)

(** The [Name] of [hickory-proto]. *)
Class DnsName : Type := {
  Name : Type;
  name_eqb : Name → Name → bool;                  (** [PartialEq], which ignores case *)
  name_from_str : rstr → option Name;
  name_append_domain : Name → Name → option Name;
  name_set_fqdn : Name → Name;
}.

Inductive RecordType : Type := TypeA | TypeAAAA | TypeNS | TypeSOA | TypeOther (code : Z).
#[global] Instance RecordType_eq_dec : EqDecision RecordType.
Proof. solve_decision. Defined.

Inductive MessageType : Type := MQuery | MResponse.
Inductive OpCode : Type := OpQuery | OpOther (code : Z).
Inductive ResponseCode : Type := NoError | Refused | ServFail.
(** [DNSClass::IN] is 1. *)
Definition CLASS_IN : Z := 1.

(** The [IndexedRandom::sample] of [rand]: [amount] distinct positions of the slice, or all of them. *)
Definition sample_law (sample : Z → list IpAddr → list IpAddr) : Prop :=
  ∀ n pool, 0 ≤ n → sample n pool ⊆+ pool ∧ Z.of_nat (length (sample n pool)) = Z.min n (Z.of_nat (length pool)).

(** ** Counters *)

Record DnsMetrics : Type := mkDnsMetrics {
  answered : Z; empty : Z; refused : Z; denied : Z; m_a : Z; m_aaaa : Z;
}.
Abbreviation DnsSnapshot := DnsMetrics (only parsing).
Definition dns_metrics_new : DnsMetrics := mkDnsMetrics 0 0 0 0 0 0.

(** [record_answered]. *)
Definition record_answered (qtype_is_a qtype_is_aaaa : bool) (answer_count : Z) (m : DnsMetrics) : DnsMetrics :=
  let m := if decide (answer_count = 0)
           then mkDnsMetrics (answered m) (u64_fetch_add (empty m) 1) (refused m) (denied m) (m_a m) (m_aaaa m)
           else mkDnsMetrics (u64_fetch_add (answered m) 1) (empty m) (refused m) (denied m) (m_a m) (m_aaaa m) in
  if qtype_is_a
  then mkDnsMetrics (answered m) (empty m) (refused m) (denied m) (u64_fetch_add (m_a m) 1) (m_aaaa m)
  else if qtype_is_aaaa
  then mkDnsMetrics (answered m) (empty m) (refused m) (denied m) (m_a m) (u64_fetch_add (m_aaaa m) 1)
  else m.

(** [record_refused] and [record_denied]. *)
Definition record_refused (m : DnsMetrics) : DnsMetrics :=
  mkDnsMetrics (answered m) (empty m) (u64_fetch_add (refused m) 1) (denied m) (m_a m) (m_aaaa m).
Definition record_denied (m : DnsMetrics) : DnsMetrics :=
  mkDnsMetrics (answered m) (empty m) (refused m) (u64_fetch_add (denied m) 1) (m_a m) (m_aaaa m).

(** [snapshot] and [restore]. *)
Definition dns_snapshot (m : DnsMetrics) : DnsSnapshot := m.
Definition dns_restore (snap : DnsSnapshot) (m : DnsMetrics) : DnsMetrics := snap.

(** ** Records and messages *)

Definition A_TTL_SECONDS : Z := 30.
Definition NS_TTL_SECONDS : Z := 86400.
Definition SOA_REFRESH : Z := 900.
Definition SOA_RETRY : Z := 300.
Definition SOA_EXPIRE : Z := 604800.
(** [100::]. *)
Definition MUSL_AAAA_SENTINEL : Z := 256 * 2 ^ 112.

Section handler.
Context `{DnsName} `{Semver}.

Inductive RData : Type :=
  | RA (bits : Z)
  | RAAAA (bits : Z)
  | RNS (ns : Name)
  | RSOA (mname rname : Name) (serial refresh retry expire minimum : Z).
Record DnsRecord : Type := mkRecord { owner : Name; ttl : Z; rdata : RData }.

(** The parts of a request the handler looks at; [question] is [None] when it has not exactly one query. *)
Record Request : Type := mkRequest {
  message_type : MessageType;
  op_code : OpCode;
  question : option (Z * RecordType * Name);       (** class, type, name *)
  src : SocketAddr;
}.
Record Response : Type := mkResponse {
  code : ResponseCode;
  authoritative : bool;
  answers : list DnsRecord;
  ns_section : list DnsRecord;
  soa_section : list DnsRecord;
}.

(** [SeederHandler]: the fixed part, and the state it shares. *)
Record SeederHandler : Type := mkHandler {
  h_config : DnsConfig;
  apex : Name;
  nameserver : Name;
  hostmaster : Name;
}.
Record HandlerState : Type := mkHState { rate_limit : RateLimiter; metrics : DnsMetrics; serving_cache : ServingCache }.

(** [fqdn]. *)
Definition fqdn (host : rstr) : option Name :=
  name ← name_from_str (trim_end_matches (λ c, bool_decide (c = 46)) host);
  Some (name_set_fqdn name).

(** [with_metrics]. *)
Definition with_metrics (config : DnsConfig) (dns_zone ns : rstr) (serving : ServingCache) (m : DnsMetrics)
    : option (SeederHandler * HandlerState) :=
  apex ← fqdn dns_zone;
  nameserver ← fqdn ns;
  host ← name_from_str (str "hostmaster.");
  hostmaster ← name_append_domain host apex;
  Some (mkHandler config apex nameserver hostmaster,
        mkHState (RateLimit.new (queries_per_ip_per_second config) (rate_limit_window config)) m serving).

Definition is_allowed_type (qtype : RecordType) : bool :=
  match qtype with TypeA | TypeAAAA | TypeNS | TypeSOA => true | TypeOther _ => false end.

Section with_handler.
Context (h : SeederHandler) (sample : Z → list IpAddr → list IpAddr) (unix_secs : Z).

Definition address_record (data : RData) : DnsRecord := mkRecord (apex h) A_TTL_SECONDS data.
Definition ns_record : DnsRecord := mkRecord (apex h) NS_TTL_SECONDS (RNS (nameserver h)).

(** [soa_record]: the serial is the clock's seconds, truncated to 32 bits. *)
Definition soa_record : DnsRecord :=
  let serial := Z.land unix_secs U32_MAX in
  mkRecord (apex h) A_TTL_SECONDS
    (RSOA (nameserver h) (hostmaster h) serial SOA_REFRESH SOA_RETRY SOA_EXPIRE A_TTL_SECONDS).

(** [sample_address_records]. *)
Definition sample_address_records (snap : Snapshot) (fam : Family) : list DnsRecord :=
  let pool := match fam with FamV4 => snap_v4 snap | FamV6 => snap_v6 snap end in
  (λ a, match a with
        | V4 b => address_record (RA b)
        | V6 b => address_record (RAAAA b)
        end) <$> sample (max_records (h_config h)) pool.

(** [build_answers]. *)
Definition build_answers (snap : Snapshot) (qtype : RecordType) : list DnsRecord :=
  match qtype with
  | TypeA => sample_address_records snap FamV4
  | TypeAAAA =>
      let out := sample_address_records snap FamV6 in
      if decide (length out = 0%nat) then [address_record (RAAAA MUSL_AAAA_SENTINEL)] else out
  | TypeNS => [ns_record]
  | TypeSOA => [soa_record]
  | TypeOther _ => []
  end.

(** [build_answer]: answers, authority NS, SOA. *)
Definition build_answer (snap : Snapshot) (qtype : RecordType) : list DnsRecord * list DnsRecord * list DnsRecord :=
  let answers := build_answers snap qtype in
  let soa := if bool_decide (length answers = 0%nat) && bool_decide (qtype ≠ TypeSOA) then [soa_record] else [] in
  let ns := match qtype with TypeA | TypeAAAA => [ns_record] | _ => [] end in
  (answers, ns, soa).

(** [parse_basic]: [None] has counted a refusal. *)
Definition parse_basic (req : Request) (m : DnsMetrics) : option (Z * RecordType * Name) * DnsMetrics :=
  match message_type req, op_code req with
  | MQuery, OpQuery =>
      match question req with
      | Some q => (Some q, m)
      | None => (None, record_refused m)
      end
  | _, _ => (None, record_refused m)
  end.

(** [classify]. *)
Definition classify (q : Z * RecordType * Name) (m : DnsMetrics) : option RecordType * DnsMetrics :=
  let '(qclass, qtype, qname) := q in
  if decide (qclass ≠ CLASS_IN) then (None, record_refused m)
  else if negb (is_allowed_type qtype) then (None, record_refused m)
  else if negb (name_eqb qname (apex h)) then (None, record_refused m)
  else (Some qtype, m).

(** The response of [refuse]. *)
Definition refuse_response : Response := mkResponse Refused false [] [] [].

(** [handle_request]: the response handed to the transport, if any, and the new state; [None] is the
    limiter's overflow panic. [now] is the limiter's clock reading. *)
Definition handle_request (now : Instant) (req : Request) (st : HandlerState)
    : option (option Response * HandlerState) :=
  match parse_basic req (metrics st) with
  | (None, m) => Some (Some refuse_response, mkHState (rate_limit st) m (serving_cache st))
  | (Some q, m) =>
      '(allowed, rl) ← RateLimit.check (rate_limit st) (socket_ip (src req)) now;
      if negb allowed then Some (None, mkHState rl (record_denied m) (serving_cache st))
      else
        match classify q m with
        | (None, m) => Some (Some refuse_response, mkHState rl m (serving_cache st))
        | (Some qtype, m) =>
            let '(ans, ns, soa) := build_answer (inner (serving_cache st)) qtype in
            let m := record_answered (bool_decide (qtype = TypeA)) (bool_decide (qtype = TypeAAAA))
                       (Z.of_nat (length ans)) m in
            Some (Some (mkResponse NoError true ans ns soa), mkHState rl m (serving_cache st))
        end
  end.
End with_handler.

(** The code [ResponseInfo] carries for the transport's log: a failed send reads as [ServFail]. *)
Definition response_info_code (r : option Response) (send_failed : bool) : ResponseCode :=
  match r with
  | None => Refused
  | Some r => if send_failed then ServFail else code r
  end.

(** ** Lemmas *)

(** A query the handler understands. *)
Definition well_formed (req : Request) : option (Z * RecordType * Name) :=
  match message_type req, op_code req with MQuery, OpQuery => question req | _, _ => None end.

Lemma parse_basic_eq req m :
  parse_basic req m = match well_formed req with Some q => (Some q, m) | None => (None, record_refused m) end.
Proof. unfold parse_basic, well_formed. by destruct (message_type req), (op_code req), (question req). Qed.

Lemma classify_cases h q m :
  (∃ qtype qname, q = (CLASS_IN, qtype, qname) ∧ is_allowed_type qtype = true ∧ name_eqb qname (apex h) = true ∧
     classify h q m = (Some qtype, m)) ∨
  (classify h q m = (None, record_refused m)).
Proof.
  destruct q as [[qclass qtype] qname]. unfold classify. case_decide as Hc; [by right|].
  destruct (decide (qclass = CLASS_IN)) as [->|]; [|done].
  destruct (is_allowed_type qtype) eqn:Ht, (name_eqb qname (apex h)) eqn:Hn; cbn; eauto 10.
Qed.

(** The answer to an understood and admitted query. *)
Definition reply_of (h : SeederHandler) (sample : Z → list IpAddr → list IpAddr) (unix_secs : Z) (snap : Snapshot)
    (qtype : RecordType) : Response :=
  let '(ans, ns, soa) := build_answer h sample unix_secs snap qtype in mkResponse NoError true ans ns soa.

(** [handle_request], case by case. *)
Lemma handle_request_cases h sample unix_secs now req st r st' :
  handle_request h sample unix_secs now req st = Some (r, st') →
  serving_cache st' = serving_cache st ∧
  ((well_formed req = None ∧ r = Some refuse_response ∧ metrics st' = record_refused (metrics st) ∧
      rate_limit st' = rate_limit st) ∨
   ∃ q ok, well_formed req = Some q ∧ RateLimit.check (rate_limit st) (socket_ip (src req)) now = Some (ok, rate_limit st') ∧
     ((ok = false ∧ r = None ∧ metrics st' = record_denied (metrics st)) ∨
      (ok = true ∧ r = Some refuse_response ∧ metrics st' = record_refused (metrics st)) ∨
      (ok = true ∧ ∃ qtype qname, q = (CLASS_IN, qtype, qname) ∧ is_allowed_type qtype = true ∧
         name_eqb qname (apex h) = true ∧ r = Some (reply_of h sample unix_secs (inner (serving_cache st)) qtype) ∧
         metrics st' = record_answered (bool_decide (qtype = TypeA)) (bool_decide (qtype = TypeAAAA))
           (Z.of_nat (length (build_answers h sample unix_secs (inner (serving_cache st)) qtype))) (metrics st)))).
Proof.
  unfold handle_request. rewrite parse_basic_eq. destruct (well_formed req) as [q|] eqn:Hq.
  2: { intros [= <- <-]. split; [done|]. by left. }
  intros ([ok rl] & Hck & Hrun)%bind_Some. cbn beta iota in Hrun. destruct ok; cbn [negb] in Hrun.
  2: { injection Hrun as <- <-. split; [done|]. right. exists q, false. split; [done|]. split; [done|]. by left. }
  destruct (classify_cases h q (metrics st)) as [(qtype & qname & -> & Ht & Hn & Hc)|Hc]; rewrite Hc in Hrun.
  - destruct (build_answer h sample unix_secs (inner (serving_cache st)) qtype) as [[ans ns] soa] eqn:Hb.
    injection Hrun as <- <-. split; [done|]. right. eexists _, true. split; [done|]. split; [done|]. right. right.
    split; [done|]. exists qtype, qname. split; [done|]. split; [done|]. split; [done|]. unfold reply_of. rewrite Hb.
    split; [done|]. unfold build_answer in Hb. by injection Hb as <- <- <-.
  - injection Hrun as <- <-. split; [done|]. right. exists q, true. split; [done|]. split; [done|]. right. by left.
Qed.

(** ** Accounting *)

Definition dns_total (m : DnsMetrics) : Z := answered m + empty m + refused m + denied m.

(** ** Runs of requests *)

(** The requests of a run, each with the limiter's clock reading. *)
Fixpoint handle_all (h : SeederHandler) (sample : Z → list IpAddr → list IpAddr) (unix_secs : Z)
    (reqs : list (Instant * Request)) (st : HandlerState) : option (list (option Response) * HandlerState) :=
  match reqs with
  | [] => Some ([], st)
  | (now, req) :: reqs' =>
      '(r, st') ← handle_request h sample unix_secs now req st;
      '(rs, st'') ← handle_all h sample unix_secs reqs' st';
      Some (r :: rs, st'')
  end.

(** The calls the limiter sees. *)
Definition limiter_calls (reqs : list (Instant * Request)) : list (Instant * IpAddr) :=
  omap (λ nr : Instant * Request, if well_formed nr.2 then Some (nr.1, socket_ip (src nr.2)) else None) reqs.

(** The understood queries of [a] that got a response. *)
Definition responded (a : IpAddr) (reqs : list (Instant * Request)) (rs : list (option Response)) : Z :=
  Z.of_nat (length (filter (λ p : (Instant * Request) * option Response,
    is_Some (well_formed p.1.2) ∧ socket_ip (src p.1.2) = a ∧ is_Some p.2) (zip reqs rs))).

Lemma handle_all_limiter h sample unix_secs reqs st rs st' a :
  handle_all h sample unix_secs reqs st = Some (rs, st') →
  ∃ oks, RateLimit.run (rate_limit st) (limiter_calls reqs) = Some (oks, rate_limit st') ∧
    responded a reqs rs = granted a (limiter_calls reqs) oks.
Proof.
  revert st rs. induction reqs as [|[now req] reqs IH]; intros st rs; cbn [handle_all].
  { intros [= <- <-]. exists []. done. }
  intros ([r st1] & Hh & ([rs1 st2] & Hrest & [= <- <-])%bind_Some)%bind_Some.
  destruct (IH _ _ Hrest) as (oks & Hrun & Heq).
  apply handle_request_cases in Hh as [_ [(Hw & -> & _ & Hrl)|(q & ok & Hw & Hck & Hr)]].
  - exists oks. unfold limiter_calls. cbn [omap list_omap fst snd]. rewrite Hw. fold (limiter_calls reqs).
    rewrite Hrl in Hrun. split; [done|]. rewrite <-Heq. unfold responded. cbn [zip zip_with]. rewrite filter_cons, decide_False; [done|]. cbn. rewrite Hw.
    by intros [[? [=]] _].
  - exists (ok :: oks). unfold limiter_calls. cbn [omap list_omap fst snd]. rewrite Hw. cbn [RateLimit.run fst snd].
    fold (limiter_calls reqs). rewrite Hck. cbn. rewrite Hrun. cbn. split; [done|].
    rewrite granted_cons, <-Heq. unfold responded. cbn [zip zip_with]. rewrite filter_cons. cbn [fst snd].
    assert (is_Some r ↔ ok = true) as Hok by (destruct Hr as [(-> & -> & _)|[(-> & -> & _)|(-> & ? & ? & _ & _ & _ & -> & _)]]; split; done).
    rewrite Hw. case_decide as Hd; case_decide as Hd'; cbn [length]; try lia; exfalso; naive_solver.
Qed.

(** The handler panics only where the limiter does. *)
Lemma handle_all_total h sample unix_secs reqs st oks rl :
  RateLimit.run (rate_limit st) (limiter_calls reqs) = Some (oks, rl) →
  is_Some (handle_all h sample unix_secs reqs st).
Proof.
  revert st oks. induction reqs as [|[now req] reqs IH]; intros st oks; cbn [handle_all]; [by eexists|].
  unfold limiter_calls. cbn [omap list_omap fst snd]. fold (limiter_calls reqs).
  assert (Hstep : ∀ st1 oks1 r, handle_request h sample unix_secs now req st = Some (r, st1) →
    RateLimit.run (rate_limit st1) (limiter_calls reqs) = Some (oks1, rl) →
    is_Some ('(r, st') ← handle_request h sample unix_secs now req st;
             '(rs, st'') ← handle_all h sample unix_secs reqs st'; Some (r :: rs, st''))).
  { intros st1 oks1 r -> Hrun. cbn. destruct (IH _ _ Hrun) as [[rs st2] ->]. by eexists. }
  destruct (well_formed req) as [q|] eqn:Hw.
  - cbn [RateLimit.run]. intros ([ok rl1] & Hck & ([oks1 rl2] & Hrun & [= <- <-])%bind_Some)%bind_Some.
    assert (∃ r st1, handle_request h sample unix_secs now req st = Some (r, st1) ∧ rate_limit st1 = rl1) as (r & st1 & Hh & <-).
    { unfold handle_request. rewrite parse_basic_eq, Hw, Hck. cbn. destruct ok; cbn; [|by eauto].
      destruct (classify h q (metrics st)) as [[qtype|] m]; by eauto. }
    by eapply Hstep.
  - intros Hrun. eapply (Hstep (mkHState (rate_limit st) (record_refused (metrics st)) (serving_cache st))); [|exact Hrun].
    unfold handle_request. by rewrite parse_basic_eq, Hw.
Qed.

(** ** Answers and the store *)

(** The address of an address record. *)
Definition record_ip (r : DnsRecord) : option IpAddr :=
  match rdata r with RA b => Some (V4 b) | RAAAA b => Some (V6 b) | _ => None end.

Lemma sampled_records h sample snap fam m cap now :
  sample_law sample → 0 ≤ max_records (h_config h) →
  picked m (h_config h) (dns_default_port (h_config h)) fam cap now
    (match fam with FamV4 => snap_v4 snap | FamV6 => snap_v6 snap end) →
  NoDup (sample_address_records h sample snap fam) ∧
  Z.of_nat (length (sample_address_records h sample snap fam)) ≤ max_records (h_config h) ∧
  ∀ rec, rec ∈ sample_address_records h sample snap fam → owner rec = apex h ∧ ttl rec = A_TTL_SECONDS ∧
    ∃ a r, record_ip rec = Some a ∧ m !! mkNetAddress a (dns_default_port (h_config h)) = Some r ∧
      servable (h_config h) (dns_default_port (h_config h)) fam now r ∧ ip (address r) = a.
Proof.
  intros Hs Hmax [Hnd Hin]%picked_ips. unfold sample_address_records.
  set (pool := match fam with FamV4 => snap_v4 snap | FamV6 => snap_v6 snap end) in *.
  destruct (Hs (max_records (h_config h)) pool Hmax) as [Hsub Hlen].
  split; [|split].
  - apply NoDup_fmap_2_strong.
    + intros [b|b] [c|c] _ _ Heq; by simplify_eq.
    + by eapply NoDup_submseteq.
  - rewrite length_fmap, Hlen. lia.
  - intros rec (a & -> & Ha)%list_elem_of_fmap. destruct (Hin a) as (r & Hm & Haddr & Hsv).
    { by eapply elem_of_submseteq. }
    destruct a as [b|b]; (split; [done|]); (split; [done|]); eexists _, r; (split; [done|]); (split; [done|]);
      (split; [done|]); by rewrite Haddr.
Qed.

(** ** Theorems *)


(** The shape of a positive answer: an AAAA answer is never empty, an A answer without peers carries
    the SOA record instead, A and AAAA answers name the zone's server, and the SOA serial is the clock
    modulo 2^32. *)
Theorem dns_answer_shape h sample unix_secs snap qtype :
  0 ≤ unix_secs →
  let resp := reply_of h sample unix_secs snap qtype in
  (answers resp = [] → soa_section resp = [soa_record h unix_secs]) ∧
  (answers resp ≠ [] → soa_section resp = []) ∧
  (qtype = TypeAAAA → answers resp ≠ []) ∧
  (qtype = TypeA ∨ qtype = TypeAAAA → ns_section resp = [ns_record h]) ∧
  (∃ mname rname refresh retry expire minimum,
     rdata (soa_record h unix_secs) = RSOA mname rname (unix_secs mod 2 ^ 32) refresh retry expire minimum).
Proof.
  intros Hs. cbv zeta. unfold reply_of, build_answer. cbn [answers soa_section ns_section].
  set (ans := build_answers h sample unix_secs snap qtype).
  assert (Hnil : ans = [] ↔ length ans = 0%nat) by (by rewrite length_zero_iff_nil).
  split; [|split; [|split; [|split]]].
  - intros Ha. rewrite bool_decide_true by (by apply Hnil). rewrite bool_decide_true; [done|].
    intros ->. unfold ans in Ha. done.
  - intros Ha. rewrite bool_decide_false; [done|]. by rewrite <-Hnil.
  - intros ->. unfold ans. cbn [build_answers]. case_decide as Hd; [done|]. by intros ?%length_zero_iff_nil.
  - intros [->| ->]; done.
  - eexists _, _, _, _, _, _. unfold soa_record. cbn [rdata]. f_equal.
    change U32_MAX with (Z.ones 32). by rewrite Z.land_ones.
Qed.

(** Every request is counted exactly once, as answered, empty, refused or denied, and a request
    changes nothing of the serving cache. *)
Theorem dns_requests_counted h sample unix_secs now req st r st' :
  handle_request h sample unix_secs now req st = Some (r, st') →
  u64_wrap (dns_total (metrics st')) = u64_wrap (dns_total (metrics st) + 1) ∧ serving_cache st' = serving_cache st.
Proof.
  intros [Hc Hr]%handle_request_cases. split; [|done].
  assert (∀ a b n, u64_wrap (dns_total (record_answered a b n (metrics st))) = u64_wrap (dns_total (metrics st) + 1)) as Hans.
  { intros a b n. unfold record_answered, dns_total. case_decide; destruct a, b; cbn;
      unfold u64_fetch_add, u64_wrap; div_lia. }
  destruct Hr as [(_ & _ & -> & _)|(q & ok & _ & _ & [(_ & _ & ->)|[(_ & _ & ->)|(_ & qtype & qname & _ & _ & _ & _ & ->)]])].
  1, 2, 3: unfold dns_total; cbn; unfold u64_fetch_add, u64_wrap; div_lia.
  apply Hans.
Qed.

(** C33: no amplification. A query over the limit is dropped without a response; and in any span of one
    window, whatever a client sends, it gets responses to at most twice the configured number of
    understood queries. *)
Theorem dns_responses_bounded h sample unix_secs reqs st a t0 :
  rl_wf (rate_limit st) → capacity (rate_limit st) ≠ 0 →
  calls_from (window (rate_limit st)) t0 (limiter_calls reqs) →
  Forall (λ c : Instant * IpAddr, c.1 < t0 + window (rate_limit st)) (limiter_calls reqs) →
  ∃ rs st', handle_all h sample unix_secs reqs st = Some (rs, st') ∧
    responded a reqs rs ≤ 2 * capacity (rate_limit st).
Proof.
  intros Hwf Hcap Hcalls Hall.
  destruct (run_granted_bound (rate_limit st) t0 a (limiter_calls reqs) Hwf Hcap Hcalls Hall) as (oks' & rl' & Hr' & Hb & _).
  destruct (handle_all_total h sample unix_secs reqs st oks' rl' Hr') as [[rs st'] Hrun].
  exists rs, st'. split; [done|].
  destruct (handle_all_limiter h sample unix_secs reqs st rs st' a Hrun) as (oks & Hr & ->).
  rewrite Hr in Hr'. by simplify_eq.
Qed.
End handler.

(** ** Witnesses: a handler for one zone that serves [rec0] *)

#[local] Instance name_std : DnsName := {|
  Name := rstr;
  name_eqb := λ a b, bool_decide (a = b);
  name_from_str := λ s, Some s;
  name_append_domain := λ a b, Some (a ++ b);
  name_set_fqdn := λ a, a ++ [46];
|}.

Definition sample_std (n : Z) (pool : list IpAddr) : list IpAddr := take (Z.to_nat n) pool.
Lemma sample_std_law : sample_law sample_std.
Proof.
  intros n pool Hn. unfold sample_std. split; [apply sublist_submseteq, sublist_take|].
  rewrite length_take. lia.
Qed.

Definition zone : @Name name_std := str "seed.example.".
Definition handler0 : SeederHandler := mkHandler dns_config0 zone (str "ns.example.") (str "hostmaster.seed.example.").
Definition state0 : HandlerState :=
  mkHState (RateLimit.new 1 (from_secs 5)) dns_metrics_new (mkCache (mkSnapshot [ip addr0] []) 100).
Definition query0 : Request := mkRequest MQuery OpQuery (Some (CLASS_IN, TypeA, zone)) (SockV4 16843009 5353).
Definition response0 : Response :=
  mkResponse NoError true [mkRecord zone 30 (RA 134744072)] [ns_record handler0] [].
Definition state1 : HandlerState :=
  mkHState (RateLimit.mkRateLimiter 1 (from_secs 5) {[V4 16843009 := RateLimit.mkBucket 0 (from_secs 5)]} 1)
    (mkDnsMetrics 1 0 0 0 1 0) (serving_cache state0).

Lemma query0_run : handle_request handler0 sample_std 1000 0 query0 state0 = Some (Some response0, state1).
Proof. reflexivity. Qed.

Lemma picked_v4_0 : picked map0 dns_config0 16111 FamV4 100 100 [ip addr0].
Proof.
  exists [rec0]. split; [done|]. split; [apply NoDup_singleton|]. split; [repeat constructor|]. split; [by vm_compute|].
  split.
  - intros r ->%list_elem_of_singleton. split; [by vm_compute|]. vm_compute. intuition discriminate.
  - intros r [Hm _]. left. apply list_elem_of_singleton, map0_records. by rewrite (records_elem _ _ _ repr_disk0).
Qed.
Lemma picked_v6_0 : picked map0 dns_config0 16111 FamV6 100 100 [].
Proof.
  exists []. split; [done|]. split; [constructor|]. split; [constructor|]. split; [by vm_compute|]. split; [set_solver|].
  intros r [Hm (_ & Hf & _)]. assert (r = rec0) as -> by (apply map0_records; by rewrite (records_elem _ _ _ repr_disk0)).
  discriminate Hf.
Qed.


Lemma dns_answer_shape_witness : answers (reply_of handler0 sample_std 1000 snapshot_default TypeAAAA) ≠ [].
Proof. apply (dns_answer_shape handler0 sample_std 1000 snapshot_default TypeAAAA); done. Defined.

Lemma dns_requests_counted_witness :
  u64_wrap (dns_total (metrics state1)) = u64_wrap (dns_total (metrics state0) + 1).
Proof. apply (dns_requests_counted handler0 sample_std 1000 0 query0 state0 (Some response0) state1 query0_run). Defined.

Lemma dns_responses_bounded_witness :
  ∃ rs st', handle_all handler0 sample_std 1000 [(0, query0); (1, query0); (2, query0)] state0 = Some (rs, st') ∧
    responded (V4 16843009) [(0, query0); (1, query0); (2, query0)] rs ≤ 2.
Proof.
  apply (dns_responses_bounded handler0 sample_std 1000 [(0, query0); (1, query0); (2, query0)] state0 (V4 16843009) 0).
  - split; [done|]. split; [vm_compute; intuition discriminate|]. apply map_Forall_empty.
  - done.
  - vm_compute. intuition discriminate.
  - repeat constructor.
Defined.
