(* ===== verification/Tasks.v ===== *)
(** * Tasks on the store

    What every task of the process that works on the store keeps, whichever storage calls fail: the crawler's rounds
    (src/crawler/src/scheduler.rs), a worker's probe (src/crawler/src/probe/runner.rs) and the probe of a submission
    (src/web/src/runtime/prober.rs), as one notion that composes. *)

From S2P Require Import Prelude Text Net NetParse Common Record Redb RedbInstances PeerStore StoreSpec StoreOps StoreScans.
From S2P Require Import StoreQueries StoreExample StoreClaims Crawler Runner WorkerPool Scheduler ServingCache.

(** A reading of [now_ms]. *)
Definition clock_ok (now : Z) : Prop := 0 ≤ now ≤ I64_MAX.

(** ** Tasks on the store *)

Section tasks.
Context `{RedbApi} `{!RedbLaws} `{Bincode} `{!BincodeLaws} `{Semver} `{KaspaNet}.
Context (dport : Z) (strict : bool).

(** Timestamps that cannot overflow. *)
Definition rec_times (r : PeerRecord) : Prop :=
  clock_ok (last_seen_ms r) ∧ clock_ok (last_attempt_ms r) ∧ clock_ok (last_success_ms r).

(** The other fields of a record, at their types: a 16-byte id, a [u32] version, a string, a 20-byte subnetwork and two [i64]. *)
Definition is_byte (b : Z) : Prop := 0 ≤ b < 256.
Definition rec_typed (r : PeerRecord) : Prop :=
  (length (rec_id r) = 16%nat ∧ Forall is_byte (rec_id r)) ∧ 0 ≤ protocol_version r ≤ U32_MAX ∧ wf_str (user_agent r) ∧
  (∀ s, subnetwork_id r = Some s → length s = 20%nat ∧ Forall is_byte s) ∧ in_i64 (timestamp_ms r) ∧ in_i64 (first_seen_ms r).

Lemma wf_str_forallb s : forallb is_scalar s = true → wf_str s.
Proof. intros Hs. apply Forall_forall. intros c Hc%list_elem_of_In. by eapply forallb_forall in Hs. Qed.

(** The messages of a probe, at the types of the protocol. *)
Definition version_typed (v : VersionMessage) : Prop :=
  Forall is_byte (vm_id v) ∧ 0 ≤ vm_protocol_version v ≤ U32_MAX ∧ wf_str (vm_user_agent v) ∧
  (∀ s, vm_subnetwork_id v = Some s → Forall is_byte s) ∧ in_i64 (vm_timestamp v).
Definition result_typed (r : ProbeResult) : Prop :=
  version_typed (version r) ∧ Forall (λ ap, ip_wf (ip_address_into ap.1) ∧ 0 ≤ ap.2 ≤ 65535) (addresses r).
Definition outcome_typed (o : ProbeError + ProbeResult) : Prop := match o with inl _ => True | inr r => result_typed r end.

(** An address the crawler would probe, at its type. *)
Definition peer_ok (a : NetAddress) : Prop := addr_ok dport strict a ∧ net_wf a.

(** A store all of whose peers the crawler would probe, with well-typed records. *)
Definition row_ok (a : NetAddress) (r : PeerRecord) : Prop := peer_ok a ∧ rec_times r ∧ rec_typed r.
Definition peers_ok (m : gmap NetAddress PeerRecord) : Prop := map_Forall row_ok m.
Definition disk_ok (d : Disk) : Prop := ∃ m, repr d m ∧ peers_ok m.

(** A task that never panics and keeps such a store, whichever storage calls fail; its results satisfy [Q]. *)
Definition task {A} (c : DB A) (Q : A → Prop) : Prop :=
  ∀ d fs, disk_ok d → match c (mkWorld d fs) with
    | (Ok a, w') => Q a ∧ disk_ok (disk w')
    | (Err _, w') => disk_ok (disk w')
    | (Panic, _) => False
    end.

Lemma task_run {A} (c : DB A) Q w a w' : task c Q → disk_ok (disk w) → c w = (Ok a, w') → Q a ∧ disk_ok (disk w').
Proof. intros Hc Hd E. destruct w as [d fs]. specialize (Hc d fs Hd). by rewrite E in Hc. Qed.
Lemma task_no_panic {A} (c : DB A) Q w : task c Q → disk_ok (disk w) → (c w).1 ≠ Panic.
Proof. intros Hc Hd E. destruct w as [d fs]. specialize (Hc d fs Hd). by destruct (c (mkWorld d fs)) as [[]]. Qed.

Lemma task_ret {A} (a : A) (Q : A → Prop) : Q a → task (mret a) Q.
Proof. by intros HQ d fs Hd. Qed.
Lemma task_bind {A B} (c : DB A) (f : A → DB B) P Q : task c P → (∀ a, P a → task (f a) Q) → task (c ≫= f) Q.
Proof.
  intros Hc Hf d fs Hd. specialize (Hc d fs Hd). unfold mbind, DB_bind. destruct (c _) as [[a|e|] [d' fs']]; [|done..].
  destruct Hc as [Ha Hd']. by apply Hf.
Qed.
Lemma task_or_log {A} (c : DB A) (x : A) Q : task c Q → Q x → task (or_log c x) Q.
Proof.
  intros Hc Hx d fs Hd. specialize (Hc d fs Hd). unfold or_log. by destruct (c _) as [[a|e|] w'].
Qed.
Lemma task_weaken {A} (c : DB A) (P Q : A → Prop) : task c P → (∀ a, P a → Q a) → task c Q.
Proof. intros Hc HPQ d fs Hd. specialize (Hc d fs Hd). destruct (c _) as [[a|e|] w']; naive_solver. Qed.

(** An operation that is atomic over the represented map. *)
Lemma task_atomic {A} (c : DB A) E (R : Disk → gmap NetAddress PeerRecord → A → Disk → Prop) (Q : A → Prop) :
  (∀ d m, repr d m → atomic d c E (R d m)) →
  (∀ d m a d', peers_ok m → R d m a d' → Q a ∧ disk_ok d') → task c Q.
Proof.
  intros Hc HR d fs (m & Hr & Hm). specialize (Hc d m Hr fs). destruct (c _) as [[a|e|] w']; [| |done].
  - destruct Hc as [Ha _]. by eapply HR.
  - destruct Hc as [-> _]. by exists m.
Qed.

Lemma peers_ok_insert m a r : peers_ok m → peer_ok a → rec_times r → rec_typed r → peers_ok (<[a := r]> m).
Proof. intros Hm Ha Hr Ht. by apply map_Forall_insert_2. Qed.

Lemma clock_0 : clock_ok 0.
Proof. by vm_compute. Qed.
Lemma clock_in_i64 now : clock_ok now → in_i64 now.
Proof. unfold clock_ok. intros []. int_solve. Qed.

(** The record of an address nobody has talked to. *)
Lemma stub_typed a seen attempt now : clock_ok now → rec_typed (mkPeerRecord a UNKNOWN_PEER_ID 0 [] None 0 now seen attempt 0).
Proof.
  intros Hn%clock_in_i64. unfold rec_typed. cbn [rec_id protocol_version user_agent subnetwork_id timestamp_ms first_seen_ms].
  split; [by split; [|apply Forall_replicate]|]. split; [by vm_compute|]. split; [constructor|]. split; [done|].
  split; [by vm_compute|done].
Qed.

Lemma seen_row now m a :
  clock_ok now → peers_ok m → peer_ok a → row_ok a match m !! a with Some r => set_last_seen now r | None => seen_stub a now end.
Proof.
  intros Hn Hm Ha. split; [done|]. destruct (m !! a) as [r|] eqn:E.
  - by destruct (Hm a r E) as (_ & (_ & ? & ?) & Ht).
  - pose proof clock_0. split; [done|by apply stub_typed].
Qed.
Lemma peers_ok_seen now addrs m :
  clock_ok now → peers_ok m → (∀ a, a ∈ addrs → peer_ok a) → peers_ok (spec_seen_batch now addrs m).2.
Proof.
  intros Hn Hm Ha a r. unfold spec_seen_batch. rewrite spec_seen_fold_lookup. case_decide as Hin; [|by apply Hm].
  intros [= <-]. by apply seen_row; [..|apply Ha].
Qed.

Lemma attempt_row a now m : clock_ok now → peers_ok m → peer_ok a → row_ok a (spec_record_attempt a now m).
Proof.
  intros Hn Hm Ha. split; [done|]. unfold spec_record_attempt. destruct (m !! a) as [r|] eqn:E.
  - by destruct (Hm a r E) as (_ & (? & _ & ?) & Ht).
  - pose proof clock_0. split; [done|by apply stub_typed].
Qed.

Lemma apply_typed addr v now m : clock_ok now → peers_ok m → version_typed v → rec_typed (spec_apply addr v now m).
Proof.
  intros Hn Hm (Hid & Hpv & Hua & Hsub & Hts). unfold spec_apply, peer_record_from_version.
  unfold rec_typed. cbn [rec_id protocol_version user_agent subnetwork_id timestamp_ms first_seen_ms].
  split; [split; [apply peer_id_length|]|]; [|split; [done|split; [done|split; [|split; [done|]]]]].
  - unfold peer_id_from_bytes. cbv zeta. apply Forall_app. split; [by apply Forall_take|].
    by apply Forall_drop, Forall_replicate.
  - intros s (bs & Hbs & E)%bind_Some. unfold array20_try_from in E. case_decide; [|done]. injection E as <-. eauto.
  - destruct (m !! net_from addr) as [r|] eqn:E; [by destruct (Hm _ r E) as (_ & _ & _ & _ & _ & _ & _ & ?)|by apply clock_in_i64].
Qed.

Lemma seen_batch_task now addrs :
  clock_ok now → (∀ a, a ∈ addrs → peer_ok a) → task (insert_or_refresh_seen_batch addrs now) (λ _, True).
Proof.
  intros Hn Ha. eapply task_atomic; [intros; by apply seen_batch_atomic|]. cbn beta. intros d m k d' Hm (_ & Hr & _).
  split; [done|]. eexists. split; [exact Hr|]. by apply peers_ok_seen.
Qed.
Lemma prune_task cfg now : task (prune_once cfg now) (λ _, True).
Proof.
  apply task_or_log; [|done]. eapply task_atomic; [intros; by apply prune_dead_atomic|]. cbn beta. intros d m k d' Hm (Hr & _).
  split; [done|]. eexists. split; [exact Hr|]. intros a r [? _]%map_lookup_filter_Some. by apply Hm.
Qed.
Lemma attempt_task a now : clock_ok now → peer_ok a → task (record_attempt a now ≫= λ _, mret tt) (λ _, True).
Proof.
  intros Hn Ha. eapply (task_bind _ _ (λ _, True)); [|intros; by apply task_ret].
  eapply task_atomic; [intros; by apply record_attempt_atomic|]. cbn beta. intros d m r d' Hm (-> & Hr & _).
  split; [done|]. eexists. split; [exact Hr|]. by apply map_Forall_insert_2; [apply attempt_row|].
Qed.
Lemma apply_task addr result now :
  clock_ok now → peer_ok (net_from addr) → result_typed result → task (apply_success addr result now) (λ _, True).
Proof.
  intros Hn Ha [Hv _]. eapply task_atomic; [intros; by apply apply_success_atomic|]. cbn beta. intros d m r d' Hm (-> & Hr & _).
  split; [done|]. eexists. split; [exact Hr|]. apply peers_ok_insert; [done..|]. by apply apply_typed.
Qed.

(** The addresses the crawler is told of, from seeders and from peers. *)
Lemma bootstrap_accepted_ok addrs a : Forall socket_wf addrs → a ∈ bootstrap_accepted addrs dport strict → peer_ok a.
Proof.
  intros Hwf. unfold bootstrap_accepted. rewrite list_elem_of_omap. intros (addr & Hin & Ha). case_match eqn:Eacc; [|done]. injection Ha as <-.
  split; [split; [done|apply canonicalize_ip_idemp]|]. apply net_from_wf. rewrite Forall_forall in Hwf. by apply Hwf.
Qed.
Lemma accepted_addresses_typed addrs a :
  0 ≤ dport ≤ 65535 → Forall (λ ap, ip_wf (ip_address_into ap.1) ∧ 0 ≤ ap.2 ≤ 65535) addrs →
  a ∈ accepted_addresses addrs dport strict → peer_ok a.
Proof.
  intros Hdp Hwf Ha. split; [by eapply accepted_addresses_ok|]. unfold accepted_addresses in Ha.
  apply list_elem_of_filter in Ha as [_ (ap & -> & Hin)%list_elem_of_fmap]. rewrite Forall_forall in Hwf.
  destruct (Hwf ap Hin) as [Hi Hp]. split; [by apply canonicalize_ip_wf|]. cbn. by case_decide.
Qed.

Lemma bootstrap_stubs_task addrs now :
  clock_ok now → Forall socket_wf addrs → task (insert_bootstrap_stubs addrs dport strict now) (λ _, True).
Proof.
  intros Hn Hwf. apply task_or_log; [|done]. apply seen_batch_task; [done|]. intros a. by apply bootstrap_accepted_ok.
Qed.

Lemma resolve_explicit_wf cfg : Forall socket_wf (resolve_explicit_seeders cfg).
Proof.
  apply Forall_forall. intros a (raw & _ & Ha)%list_elem_of_omap. by eapply socket_from_str_wf.
Qed.
Lemma bootstrap_task cfg builtin now :
  cfg_default_port cfg = dport → cfg_strict_port cfg = strict → clock_ok now → Forall socket_wf builtin →
  task (bootstrap cfg builtin now) (λ _, True).
Proof.
  intros Hdp Hst Hn Hb. unfold bootstrap. rewrite Hdp, Hst. apply bootstrap_stubs_task; [done|]. case_decide; [done|apply resolve_explicit_wf].
Qed.

Lemma probe_one_task outcome addr now1 now2 ms :
  0 ≤ dport ≤ 65535 → clock_ok now1 → clock_ok now2 → peer_ok (net_from addr) → outcome_typed outcome →
  task (probe_one outcome addr dport strict now1 now2 ms) (λ _, True).
Proof.
  intros Hdp Hn1 Hn2 Ha Ho. destruct outcome as [err|result]; [by apply task_ret|]. cbn [probe_one].
  eapply (task_bind _ _ (λ _, True)); [apply task_or_log; [|done]|intros _ _].
  { eapply (task_bind _ _ (λ _, True)); [by apply apply_task|intros; by apply task_ret]. }
  eapply (task_bind _ _ (λ _, True)); [apply task_or_log; [|done]|intros; by apply task_ret].
  apply seen_batch_task; [done|]. intros a. by apply accepted_addresses_typed, Ho.
Qed.

Lemma enqueue_probes_task n cfg others now pool ms :
  cfg_default_port cfg = dport → cfg_strict_port cfg = strict → cfg_wf cfg → clock_ok now →
  (∀ i p, pool_ok n p → pool_ok n (others i p)) → pool_ok n pool →
  task (enqueue_probes cfg others now pool ms) (λ r, ∀ a, a ∈ r.2 → peer_ok a).
Proof.
  intros Hdp Hst Hwf Hn Hoth Hp d fs (m & Hr & Hm).
  assert (Hi : map_Forall (λ _ r, in_i64 (last_attempt_ms r)) m).
  { intros a r Ha. destruct (Hm a r Ha) as (_ & (_ & ? & _) & _). unfold in_i64, I64_MIN, clock_ok in *. lia. }
  pose proof (enqueue_probes_spec n cfg others now pool ms d m fs Hr Hi Hwf Hoth Hp) as Hs. unfold tick_result in Hs.
  destruct (enqueue_probes _ _ _ _ _ _) as [[[[pool' ms'] disp]|e|] w']; [|by destruct Hs as [-> _]; exists m|done].
  destruct Hs as (_ & _ & _ & _ & _ & m' & Hr' & Hin & Hout). cbn [snd]. split.
  - intros a (_ & r & Ha & _)%Hin. by destruct (Hm a r Ha).
  - exists m'. split; [done|]. intros a r Ha. destruct (decide (a ∈ disp)) as [Hd|Hd].
    + destruct (Hin a Hd) as (_ & r0 & Hr0 & _ & Hr1). destruct (Hm a r0 Hr0) as (Hok & (? & ? & ?) & Ht). split; [done|].
      rewrite Ha in Hr1. destruct Hr1 as [[= ->]|[[= ->] _]]; done.
    + apply Hm. by rewrite <-Hout.
Qed.

(** What a submission does once its address has passed validation. *)
Lemma probe_and_store_task outcome addr now d fs :
  clock_ok now → peer_ok (net_from addr) → outcome_typed outcome → disk_ok d →
  match probe_and_store outcome addr now (mkWorld d fs) with
  | (Panic, _) => False
  | (_, w') => disk_ok (disk w')
  end.
Proof.
  intros Hn Ha Ho Hd. unfold probe_and_store. destruct outcome as [err|result].
  - pose proof (task_or_log _ tt _ (attempt_task (net_from addr) now Hn Ha) I d fs Hd) as Ht.
    destruct (or_log _ _ _) as [[]]; [by destruct Ht|done|done].
  - pose proof (apply_task addr result now Hn Ha Ho d fs Hd) as Ht. destruct (apply_success _ _ _ _) as [[]]; [by destruct Ht|done|done].
Qed.

Lemma times_ok_seen now addrs m : clock_ok now → times_ok m → times_ok (spec_seen_batch now addrs m).2.
Proof.
  intros Hn Hm a r. unfold spec_seen_batch. rewrite spec_seen_fold_lookup. case_decide as Hin; [|by apply Hm].
  intros [= <-]. pose proof clock_0. destruct (m !! a) as [r|] eqn:E; [by destruct (Hm a r E)|done].
Qed.
Lemma peers_ok_times m : peers_ok m → times_ok m.
Proof. intros Hm a r Ha. by destruct (Hm a r Ha) as (_ & (? & _ & ?) & _). Qed.
End tasks.

(** ** Example *)

Lemma peers_ok_map0 : peers_ok 16111 false map0.
Proof.
  apply map_Forall_insert_2; [|apply map_Forall_empty]. split; [|split; [by vm_compute|]].
  - split; split; by vm_compute.
  - split; [split; [done|]|split; [by vm_compute|split; [|split; [done|split; by vm_compute]]]].
    + repeat apply Forall_cons_2; try apply Forall_nil_2; unfold is_byte; lia.
    + apply wf_str_forallb. by vm_compute.
Qed.

Lemma result0_typed : outcome_typed (inr result0).
Proof.
  split; [split|].
  - repeat apply Forall_cons_2; try apply Forall_nil_2; unfold is_byte; lia.
  - split; [by vm_compute|]. split; [|by split; [|vm_compute]]. apply wf_str_forallb. by vm_compute.
  - repeat apply Forall_cons_2; try apply Forall_nil_2; by vm_compute.
Qed.
