(* ===== verification/SchedulerLoop.v ===== *)
(** * The scheduler's run (src/crawler/src/scheduler.rs, [Scheduler::run])

    The bootstrap, the [select!] loop over the shutdown channel and the three tickers, and the shutdown: cancel, close, join the
    pool. The rounds are those of Scheduler.v over any store the other tasks may have left; the dispatcher and the workers
    run in between. The claim is that a shutdown message always ends the run. *)

From S2P Require Import Prelude Text Net NetParse Common Record Redb RedbInstances PeerStore StoreSpec StoreOps StoreScans.
From S2P Require Import StoreQueries StoreExample StoreClaims Crawler Runner WorkerPool Scheduler Tasks.

Definition PRUNE_INTERVAL : Duration := from_secs 60.
Definition SEEDER_REFRESH_INTERVAL : Duration := from_secs 600.
Definition PROBE_CLOSE_TIMEOUT : Duration := from_secs 2.

(** [tokio::time::interval]: [None] is its panic, which a zero period causes. *)
Class TokioTime : Type := {
  Interval : Type;
  interval : Duration → option Interval;
}.
Class TokioTimeLaws `{TokioTime} : Prop := {
  interval_zero : interval 0 = None;
  interval_pos d : 0 < d → is_Some (interval d);
}.

(** Where the run is: before the loop, in it, waiting for the peers to close, waiting for the dispatcher, returned, or ended by a
    panic. *)
Inductive SchedPhase : Type :=
  | Booting
  | Looping (p : Pool)
  | Closing (p : Pool)
  | Joining (p : Pool)
  | Returned (p : Pool)
  | Aborted.

(** The state: the phase, the counters, and whether a shutdown message waits in the receiver. *)
Record Sched : Type := mkSched { sc_phase : SchedPhase; sc_metrics : CrawlerMetrics; sc_pending : bool }.

(** The branch or task that runs. *)
Inductive Branch : Type := BrBoot | BrShutdown | BrTick | BrPrune | BrRefresh | BrClose | BrPool | BrReturn | BrSignal.

(** [cancel.cancel()]. *)
Definition cancel (p : Pool) : Pool := with_phase true (dispatching p) (rx_dropped p) (queue p) p.

Section run.
Context `{RedbApi} `{Bincode} `{Semver} `{KaspaNet} `{TokioTime} (cfg : SchedulerConfig).

(** A store as the other tasks may have left it. *)
Definition any_store (w : World) : Prop := disk_ok (cfg_default_port cfg) (cfg_strict_port cfg) (disk w).

(** [run], one branch at a time. The pool's own tasks ([others]) run between the iterations of a tick, as between branches. *)
Inductive sched_step : Branch → Sched → Sched → Prop :=
  (** [bootstrap], the pool and the tickers; [interval] panics on a zero period. *)
  | sc_boot ms pend w builtin now k w' :
      any_store w → clock_ok now → Forall socket_wf builtin → bootstrap cfg builtin now w = (Ok k, w') →
      sched_step BrBoot (mkSched Booting ms pend)
        (mkSched (match interval (cfg_probe_tick cfg) with Some _ => Looping (spawn (cfg_threads cfg)) | None => Aborted end) ms pend)
  | sc_tick p ms pend w others now p' ms' disp w' :
      any_store w → clock_ok now → (∀ i q, rtc own_step q (others i q)) →
      enqueue_probes cfg others now p ms w = (Ok (p', ms', disp), w') →
      sched_step BrTick (mkSched (Looping p) ms pend) (mkSched (Looping p') ms' pend)
  | sc_tick_failed p ms pend w others now e w' :
      any_store w → clock_ok now → enqueue_probes cfg others now p ms w = (Err e, w') →
      sched_step BrTick (mkSched (Looping p) ms pend) (mkSched (Looping p) ms pend)
  | sc_prune p ms pend w now k w' :
      any_store w → prune_once cfg now w = (Ok k, w') →
      sched_step BrPrune (mkSched (Looping p) ms pend) (mkSched (Looping p) ms pend)
  | sc_refresh p ms pend w builtin now k w' :
      cfg_seeders cfg = [] → any_store w → clock_ok now → Forall socket_wf builtin →
      refresh_builtin_seeders cfg builtin now w = (Ok k, w') →
      sched_step BrRefresh (mkSched (Looping p) ms pend) (mkSched (Looping p) ms pend)
  | sc_shutdown p ms :
      sched_step BrShutdown (mkSched (Looping p) ms true) (mkSched (Closing (cancel p)) ms false)
  (** [probe.close()] ended, or [PROBE_CLOSE_TIMEOUT] did. *)
  | sc_close p ms pend : sched_step BrClose (mkSched (Closing p) ms pend) (mkSched (Joining p) ms pend)
  (** The dispatcher or a worker runs. *)
  | sc_pool_looping p p' ms pend :
      own_step p p' → sched_step BrPool (mkSched (Looping p) ms pend) (mkSched (Looping p') ms pend)
  | sc_pool_closing p p' ms pend :
      own_step p p' → sched_step BrPool (mkSched (Closing p) ms pend) (mkSched (Closing p') ms pend)
  | sc_pool_joining p p' ms pend :
      own_step p p' → sched_step BrPool (mkSched (Joining p) ms pend) (mkSched (Joining p') ms pend)
  (** [pool.shutdown()] ends when the dispatcher has returned. *)
  | sc_return p ms pend :
      rx_dropped p = true → sched_step BrReturn (mkSched (Joining p) ms pend) (mkSched (Returned p) ms pend)
  (** The signal handler sends the message. *)
  | sc_signal ph ms : sched_step BrSignal (mkSched ph ms false) (mkSched ph ms true).

(** A complete run: a step at a time, standing still only where no step is possible. *)
Definition sched_run (run : nat → Sched) (branch : nat → option Branch) : Prop :=
  ∀ i, match branch i with
       | Some b => sched_step b (run i) (run (S i))
       | None => (∀ b s', ¬ sched_step b (run i) s') ∧ run (S i) = run i
       end.

(** [select!] does not pass over the ready shutdown branch for ever. *)
Definition sched_fair (run : nat → Sched) (branch : nat → option Branch) : Prop :=
  ∀ i p ms, run i = mkSched (Looping p) ms true → ∃ j, (i ≤ j)%nat ∧ branch j = Some BrShutdown.

(** ** The invariant *)

Definition sched_inv (s : Sched) : Prop :=
  match sc_phase s with
  | Booting => True
  | Looping p => inv p ∧ producer p = None ∧ cancelled p = false
  | Closing p | Joining p | Returned p =>
      inv p ∧ producer p = None ∧ cancelled p = true ∧ (rx_dropped p = true → workers p = []) ∧
      (match sc_phase s with Returned _ => rx_dropped p = true | _ => True end)
  | Aborted => interval (cfg_probe_tick cfg) = None
  end.

(** What a tick does to the pool. *)
Lemma enqueue_loop_pool (P : Pool → Prop) others dport strict now i recs pool disp w e pool' disp' w' :
  (∀ i p, P p → P (others i p)) → (∀ net p, P p → P (try_enqueue net p).2) → P pool →
  enqueue_loop others dport strict now i recs pool disp w = (Ok (e, pool', disp'), w') → P pool'.
Proof.
  intros Ho Ht. revert i pool disp w. induction recs as [|rec recs IH]; intros i pool disp w Hp; cbn [enqueue_loop].
  { intros Hr. by injection Hr as _ <- _ _. }
  pose proof (Ho i pool Hp) as Hp1. destruct (negb _); [by apply IH|].
  specialize (Ht (address rec) _ Hp1). destruct (try_enqueue _ _) as [[] p2]; cbn [snd] in Ht.
  - intros Hr. apply db_bind_ok in Hr as (u & w1 & _ & Hr). exact (IH _ _ _ _ Ht Hr).
  - by apply IH.
  - intros Hr. by injection Hr as _ <- _ _.
  - intros Hr. by injection Hr as _ <- _ _.
Qed.

Lemma enqueue_probes_pool (P : Pool → Prop) others now pool ms w pool' ms' disp w' :
  (∀ i p, P p → P (others i p)) → (∀ net p, P p → P (try_enqueue net p).2) → P pool →
  enqueue_probes cfg others now pool ms w = (Ok (pool', ms', disp), w') → P pool'.
Proof.
  intros Ho Ht Hp Hr. unfold enqueue_probes in Hr. apply db_bind_ok in Hr as (recs & w1 & _ & Hr).
  apply db_bind_ok in Hr as ([[e p1] d1] & w2 & Hl & Hr). assert (p1 = pool') as <- by (by injection Hr).
  by eapply enqueue_loop_pool.
Qed.

Lemma looping_enqueue net p :
  inv p ∧ producer p = None ∧ cancelled p = false →
  inv (try_enqueue net p).2 ∧ producer (try_enqueue net p).2 = None ∧ cancelled (try_enqueue net p).2 = false.
Proof.
  intros (Hi & Hp & Hc). split.
  - eapply inv_steps; [by apply try_enqueue_steps|done].
  - by destruct (try_enqueue_cases p net Hp) as [[_ ->]|[(_ & _ & ->)|[(_ & _ & _ & ->)|(_ & _ & _ & ->)]]].
Qed.

(** A dispatcher that has returned has no workers, and gets none. *)
Lemma own_step_dropped p p' :
  inv p → own_step p p' → (rx_dropped p = true → workers p = []) → rx_dropped p' = true → workers p' = [].
Proof.
  intros Hi (Hs & _) Hw. pose proof (inv_phase p Hi) as Hph.
  destruct Hs as [p net Hp Hf|p net Hp|p net q Hd Hq Hl|p ws1 a ws2 Hws|p ws1 a ws2 Hws|p ws1 a ws2 Hws
    |p ws1 a ws2 Hws|p|p Hd Hc|p ws1 a ws2 Hd Hws|p Hd Hrx Hws]; try done; cbn [rx_dropped workers with_workers].
  - unfold send_reserved. by destruct (try_send net p) as [[] q].
  - intros Hr. destruct (Hph Hr). congruence.
  - intros Hr. specialize (Hw Hr). rewrite Hw in Hws. by destruct ws1.
  - intros Hr. specialize (Hw Hr). rewrite Hw in Hws. by destruct ws1.
  - intros Hr. specialize (Hw Hr). rewrite Hw in Hws. by destruct ws1.
  - intros Hr. specialize (Hw Hr). rewrite Hw in Hws. by destruct ws1.
  - intros Hr. specialize (Hw Hr). rewrite Hw in Hws. by destruct ws1.
Qed.

Lemma sched_inv_step b s s' : sched_inv s → sched_step b s s' → sched_inv s'.
Proof.
  intros Hi Hs. destruct Hs as [ms pend w builtin now k w' Hw Hn Hb E|p ms pend w others now p' ms' disp w' Hw Hn Ho E
    |p ms pend w others now e w' Hw Hn E|p ms pend w now k w' Hw E|p ms pend w builtin now k w' Hsd Hw Hn Hb E|p ms|p ms pend
    |p p' ms pend Hs|p p' ms pend Hs|p p' ms pend Hs|p ms pend Hr|ph ms]; unfold sched_inv in *; cbn [sc_phase] in *; try done.
  - destruct (interval (cfg_probe_tick cfg)) eqn:Eiv; [|done]. split; [apply inv_spawn|done].
  - eapply (enqueue_probes_pool (λ p, inv p ∧ producer p = None ∧ cancelled p = false)); [|apply looping_enqueue|exact Hi|exact E].
    intros i q (Hq & Hp & Hc). destruct (own_steps_inv _ _ (Ho i q) Hq Hp) as (? & ? & ?). split_and!; congruence.
  - destruct Hi as (Hi & Hp & Hc). assert (Hst : step p (cancel p)) by apply step_cancel.
    assert (dispatching p = true) as Hd.
    { destruct (dispatching p) eqn:E; [done|]. by rewrite (inv_cancelled p Hi E) in Hc. }
    split_and!; [by eapply inv_step|done|done| |done]. cbn. intros Hr. destruct (inv_phase p Hi Hr). congruence.
  - destruct Hi as (Hi & Hp & Hc). pose proof Hs as (_ & Hp' & Hc' & _). split_and!; [by eapply own_step_inv|done|congruence].
  - destruct Hi as (Hi & Hp & Hc & Hw & _). pose proof Hs as (_ & Hp' & Hc' & _).
    split_and!; [by eapply own_step_inv|done|congruence|by eapply own_step_dropped|done].
  - destruct Hi as (Hi & Hp & Hc & Hw & _). pose proof Hs as (_ & Hp' & Hc' & _).
    split_and!; [by eapply own_step_inv|done|congruence|by eapply own_step_dropped|done].
  - destruct Hi as (Hi & Hp & Hc & Hw & _). done.
Qed.

(** ** Progress *)

Context `{!RedbLaws} `{!BincodeLaws}.

(** The store the process opened. *)
Context (w0 : World) (opened_ok : any_store w0).

Lemma or_log_ok {A} (c : DB A) x w : (or_log c x w).1 ≠ Panic → ∃ a w', or_log c x w = (Ok a, w').
Proof. unfold or_log. destruct (c w) as [[a|e|] w']; [eauto|eauto|done]. Qed.

Lemma boot_possible : ∃ k w', bootstrap cfg [] 0 w0 = (Ok k, w').
Proof.
  apply or_log_ok. eapply (task_no_panic (cfg_default_port cfg) (cfg_strict_port cfg)); [|exact opened_ok].
  by apply bootstrap_task; [..|apply clock_0|].
Qed.
Lemma prune_possible : ∃ k w', prune_once cfg 0 w0 = (Ok k, w').
Proof.
  apply or_log_ok. eapply (task_no_panic (cfg_default_port cfg) (cfg_strict_port cfg)); [apply prune_task|exact opened_ok].
Qed.

Definition ended (s : Sched) : Prop := match sc_phase s with Returned _ | Aborted => True | _ => False end.

(** Until it has ended the run can go on. *)
Lemma sched_progress s : sched_inv s → ended s ∨ ∃ b s', b ≠ BrSignal ∧ sched_step b s s'.
Proof.
  destruct s as [[|p|p|p|p|] ms pend]; intros Hi; [right|right|right|right|by left|by left].
  - destruct boot_possible as (k & w' & E). eexists BrBoot, _. split; [done|].
    by eapply sc_boot; [exact opened_ok|apply clock_0| |exact E].
  - destruct prune_possible as (k & w' & E). eexists BrPrune, _. split; [done|]. by eapply sc_prune; [exact opened_ok|exact E].
  - eexists BrClose, _. split; [done|]. apply sc_close.
  - destruct Hi as (Hi & Hp & Hc & _). destruct (own_step_progress p Hi Hp) as [[p' Hs]|(_ & _ & _ & Hrx)].
    + eexists BrPool, _. split; [done|]. by apply sc_pool_joining.
    + eexists BrReturn, _. split; [done|]. apply sc_return. by rewrite Hrx.
Qed.

(** After the message was taken every step brings the end closer. *)
Definition winding (s : Sched) : Prop := match sc_phase s with Closing _ | Joining _ | Returned _ => True | _ => False end.
Definition left_to_do (s : Sched) : nat :=
  ((if sc_pending s then 0 else 1) +
   match sc_phase s with Closing p => 2 + work p | Joining p => 1 + work p | _ => 0 end)%nat.

Lemma winding_step b s s' :
  sched_inv s → winding s → sched_step b s s' → winding s' ∧ (left_to_do s' < left_to_do s)%nat.
Proof.
  intros Hi Hw Hs. destruct Hs; try done; unfold left_to_do, sched_inv in *; cbn [sc_phase sc_pending] in *; (split; [done|]).
  - lia.
  - destruct Hi as (_ & Hp & _). pose proof (own_step_work _ _ Hp ltac:(eassumption)). lia.
  - destruct Hi as (_ & Hp & _). pose proof (own_step_work _ _ Hp ltac:(eassumption)). lia.
  - lia.
  - lia.
Qed.

Section stops.
Context (run : nat → Sched) (branch : nat → option Branch) (Hrun : sched_run run branch) (Hinv : sched_inv (run 0%nat)).

Lemma run_inv i : sched_inv (run i).
Proof.
  induction i as [|i IH]; [done|]. specialize (Hrun i). destruct (branch i) as [b|]; [by eapply sched_inv_step|].
  destruct Hrun as [_ ->]. done.
Qed.

Lemma run_goes_on i : ¬ ended (run i) → ∃ b, branch i = Some b ∧ sched_step b (run i) (run (S i)).
Proof.
  intros Hne. destruct (sched_progress (run i) (run_inv i)) as [?|(b & s' & _ & Hs)]; [done|].
  specialize (Hrun i). destruct (branch i) as [b'|]; [by exists b'|]. destruct Hrun as [Hn _]. by apply Hn in Hs.
Qed.

Lemma winding_ends i : winding (run i) → ∃ j p, (i ≤ j)%nat ∧ sc_phase (run j) = Returned p.
Proof.
  remember (left_to_do (run i)) as n eqn:Hn. revert i Hn. induction (lt_wf n) as [n _ IH]. intros i -> Hw.
  destruct (sc_phase (run i)) as [| |p|p|p|] eqn:Hph; try (by unfold winding in Hw; rewrite Hph in Hw).
  3: { by exists i, p. }
  all: (assert (¬ ended (run i)) as Hne by (unfold ended; rewrite Hph; tauto));
    destruct (run_goes_on i Hne) as (b & _ & Hs);
    destruct (winding_step _ _ _ (run_inv i) Hw Hs) as [Hw' Hlt];
    destruct (IH _ Hlt (S i) eq_refl Hw') as (j & p' & Hj & Hret); exists j, p'; split; [lia|done].
Qed.

Lemma boot_then_loops i ms :
  is_Some (interval (cfg_probe_tick cfg)) → run i = mkSched Booting ms true → ∃ p ms', run (S i) = mkSched (Looping p) ms' true.
Proof.
  intros [iv Hiv] Hi. assert (Hne : ¬ ended (run i)) by (rewrite Hi; by intros []). destruct (run_goes_on i Hne) as (b & _ & Hs).
  rewrite Hi in Hs. inversion Hs; subst. rewrite Hiv. eauto.
Qed.
End stops.

Context `{!TokioTimeLaws}.

(** ** Claims *)

(** C14: a shutdown message always ends the scheduler. However the probe ticks, prunes, seeder refreshes, the dispatcher and the
    workers interleave, on whatever stores the other tasks leave and whether storage calls fail or not: once the message is
    there (before the loop or in it), and as [select!] does not pass over its ready branch for ever, [run] returns, and it
    does so with an empty queue, no worker and an in-flight gauge of zero. The probe interval has to be positive. *)
Theorem scheduler_stops run branch k ms pend :
  0 < cfg_probe_tick cfg → run 0%nat = mkSched Booting ms pend → sched_run run branch → sched_fair run branch →
  (∃ ms', run k = mkSched Booting ms' true) ∨ (∃ p ms', run k = mkSched (Looping p) ms' true) →
  ∃ i p, (k ≤ i)%nat ∧ sc_phase (run i) = Returned p ∧ queue p = [] ∧ workers p = [] ∧ gauge p = 0.
Proof.
  intros Htick Hstart Hrun Hfair Hk. assert (Hinv : sched_inv (run 0%nat)) by (by rewrite Hstart).
  assert (∃ k' p ms', (k ≤ k')%nat ∧ run k' = mkSched (Looping p) ms' true) as (k' & p & ms' & Hle & Hk').
  { destruct Hk as [[ms' Hk]|(p & ms' & Hk)]; [|by exists k, p, ms'].
    destruct (boot_then_loops run branch Hrun Hinv k ms' (interval_pos _ Htick) Hk) as (p & ms'' & ?). exists (S k), p, ms''. split; [lia|done]. }
  destruct (Hfair k' p ms' Hk') as (j & Hj & Hb). pose proof (Hrun j) as Hs. rewrite Hb in Hs.
  assert (Hw : winding (run (S j))) by (by inversion Hs).
  destruct (winding_ends run branch Hrun Hinv (S j) Hw) as (i & q & Hi & Hret). exists i, q. split; [lia|]. split; [done|].
  pose proof (run_inv run branch Hrun Hinv i) as Hq. unfold sched_inv in Hq. rewrite Hret in Hq. destruct Hq as (Hq & _ & _ & Hws & Hrx).
  split_and!; [by apply (inv_phase q Hq)|by apply Hws|]. by rewrite (inv_gauge q Hq), Hws.
Qed.

(** With a zero probe interval the run does not get into its loop: [interval] panics. *)
Lemma zero_tick_aborts ms pend b s' :
  cfg_probe_tick cfg = 0 → sched_step b (mkSched Booting ms pend) s' → b ≠ BrSignal → sc_phase s' = Aborted.
Proof. intros Ht Hs Hb. inversion Hs; subst; [|done]. by rewrite Ht, interval_zero. Qed.
End run.

(** ** Witness: a run that is told to stop before its loop *)

Definition tokio_std : TokioTime := {| Interval := unit; interval d := if decide (0 < d) then Some tt else None |}.
#[local] Existing Instance tokio_std.
Lemma tokio_std_laws : TokioTimeLaws.
Proof. split; [done|]. intros d Hd. cbn. by rewrite decide_True. Qed.
#[local] Existing Instance tokio_std_laws.

Definition stopped : Pool := with_phase true false false [] (spawn 2).
Definition dropped : Pool := with_phase true false true [] (spawn 2).
Definition run0 (i : nat) : Sched :=
  let s ph := mkSched ph crawler_metrics_new in
  match i with
  | 0%nat => s Booting true
  | 1%nat => s (Looping (spawn 2)) true
  | 2%nat => s (Closing (cancel (spawn 2))) false
  | 3%nat => s (Joining (cancel (spawn 2))) false
  | 4%nat => s (Joining stopped) false
  | 5%nat => s (Joining dropped) false
  | 6%nat => s (Returned dropped) false
  | _ => s (Returned dropped) true
  end.
Definition branch0 (i : nat) : option Branch :=
  [BrBoot; BrShutdown; BrClose; BrPool; BrPool; BrReturn; BrSignal] !! i.

Lemma disk0_any : any_store cfg0 (mkWorld disk0 []).
Proof. eexists. split; [exact repr_disk0|]. exact peers_ok_map0. Qed.

Lemma own_break : own_step (cancel (spawn 2)) stopped.
Proof. split; [by apply (step_break (cancel (spawn 2)))|]. by split_and!. Qed.
Lemma own_return : own_step stopped dropped.
Proof. split; [by apply (step_return stopped)|]. by split_and!. Qed.

Lemma run0_run : sched_run cfg0 run0 branch0.
Proof.
  intros i. destruct i as [|[|[|[|[|[|[|i]]]]]]]; cbn [branch0 run0].
  - destruct (boot_possible cfg0 _ disk0_any) as (k & w' & E).
    exact (sc_boot cfg0 _ _ _ [] 0 k w' disk0_any clock_0 (Forall_nil_2 _) E).
  - apply sc_shutdown.
  - apply sc_close.
  - apply sc_pool_joining, own_break.
  - apply sc_pool_joining, own_return.
  - by apply sc_return.
  - apply sc_signal.
  - split; [|done]. intros b s' Hs. inversion Hs.
Qed.

Lemma run0_fair : sched_fair run0 branch0.
Proof. intros i p ms Hi. destruct i as [|[|[|[|[|[|[|i]]]]]]]; try discriminate Hi. by exists 1%nat. Qed.

Lemma scheduler_stops_witness : ∃ i p, sc_phase (run0 i) = Returned p ∧ workers p = [].
Proof.
  destruct (scheduler_stops cfg0 _ disk0_any run0 branch0 0 crawler_metrics_new true) as (i & p & _ & Hr & _ & Hw & _);
    [done|done|apply run0_run|apply run0_fair|left; by eexists|by exists i, p].
Defined.
