(* ===== verification/Sockets.v ===== *)
(** * Programs of socket calls

    What src/dns/src/server.rs and src/web/src/server.rs do with the socket layer: the calls in order, each answered by the
    environment with success or an error. *)

From S2P Require Import Prelude Text Net.

(** [io::ErrorKind], as far as the servers tell the kinds apart. *)
Inductive ErrorKind : Type := AddrNotAvailable | Unsupported | OtherKind (code : Z).
#[global] Instance ErrorKind_eq_dec : EqDecision ErrorKind.
Proof. solve_decision. Defined.

Inductive SockType : Type := DGRAM | STREAM.

(** The calls the two servers make. *)
Inductive SockCall : Type :=
  | NewSocket (v6 : bool) (ty : SockType)
  | SetOnlyV6 (v6_only : bool)
  | SetNonblocking
  | Bind (addr : SocketAddr)
  | SetReuseAddress
  | Listen (backlog : Z)
  | FromStd (ty : SockType).

Definition is_sock_ipv6 (a : SocketAddr) : bool := match a with SockV4 _ _ => false | SockV6 _ _ _ _ => true end.
Definition is_sock_ipv4 (a : SocketAddr) : bool := negb (is_sock_ipv6 a).

(** A program of socket calls: the answers still to come (used up: success) and the calls made. *)
Definition Sock (A : Type) : Type := list (option ErrorKind) → list SockCall → (ErrorKind + A) * list (option ErrorKind) * list SockCall.
#[global] Instance Sock_ret : MRet Sock := λ A a env tr, (inr a, env, tr).
#[global] Instance Sock_bind : MBind Sock := λ A B f p env tr,
  match p env tr with
  | (inr a, env', tr') => f a env' tr'
  | (inl e, env', tr') => (inl e, env', tr')
  end.
Definition sock_call (c : SockCall) : Sock unit := λ env tr,
  match env with
  | Some e :: env' => (inl e, env', tr ++ [c])
  | None :: env' => (inr tt, env', tr ++ [c])
  | [] => (inr tt, [], tr ++ [c])
  end.

(** ** Lemmas *)

(** A call appends to the trace, and a successful program has made all its calls. *)
Lemma sock_call_inr c env tr a env' tr' : sock_call c env tr = (inr a, env', tr') → tr' = tr ++ [c].
Proof. unfold sock_call. destruct env as [|[e|] env]; intros; by simplify_eq. Qed.
Lemma sock_bind_inr {A B} (p : Sock A) (f : A → Sock B) env tr b env' tr' :
  (p ≫= f) env tr = (inr b, env', tr') → ∃ a env1 tr1, p env tr = (inr a, env1, tr1) ∧ f a env1 tr1 = (inr b, env', tr').
Proof. unfold mbind, Sock_bind. destruct (p env tr) as [[[e|a] env1] tr1]; [done|eauto]. Qed.

(** Invert a run of a program that succeeded. *)
Ltac sock_inv :=
  repeat match goal with
  | E : (_ ≫= _) _ _ = (inr _, _, _) |- _ => apply sock_bind_inr in E as (? & ? & ? & ? & E)
  | E : sock_call _ _ _ = (inr _, _, _) |- _ => apply sock_call_inr in E; subst
  | E : mret _ _ _ = (inr _, _, _) |- _ => injection E as ? ? ?; subst
  end.
