(* ===== verification/DnsServer.v ===== *)
(** * The DNS server (src/dns/src/server.rs)

    The listening addresses of the server: which sockets are opened with which options, which bind
    failures are tolerated, and when start-up fails; then what is registered with [hickory]'s server and
    how it ends. The socket layer's answers are given by the environment. *)

From S2P Require Import Prelude Text Net Sockets Common Record Redb ServingCache DnsHandler.

(** [prepare_socket]. *)
Definition prepare_socket (addr : SocketAddr) (ty : SockType) (v6_only : bool) : Sock unit :=
  sock_call (NewSocket (is_sock_ipv6 addr) ty) ≫= λ _,
  (if is_sock_ipv6 addr then sock_call (SetOnlyV6 v6_only) else mret tt) ≫= λ _,
  sock_call SetNonblocking ≫= λ _,
  sock_call (Bind addr).

(** [bind_pair]. *)
Definition bind_pair (addr : SocketAddr) (v6_only : bool) : Sock unit :=
  prepare_socket addr DGRAM v6_only ≫= λ _,
  sock_call (FromStd DGRAM) ≫= λ _,
  prepare_socket addr STREAM v6_only ≫= λ _,
  sock_call SetReuseAddress ≫= λ _,
  sock_call (Listen 1024) ≫= λ _,
  sock_call (FromStd STREAM).

(** [needs_v6_only] and [is_soft_bind_failure]. *)
Definition needs_v6_only (addr : SocketAddr) (listen : list SocketAddr) : bool :=
  is_sock_ipv6 addr && existsb (λ other, is_sock_ipv4 other && bool_decide (socket_port other = socket_port addr)) listen.
Definition is_soft_bind_failure (e : ErrorKind) : bool :=
  match e with AddrNotAvailable | Unsupported => true | OtherKind _ => false end.

(** The loop of [run_dns_server_with_handler]: the addresses bound so far and the last soft failure. *)
Fixpoint bind_loop (listen todo : list SocketAddr) (bound : list SocketAddr) (last_err : option ErrorKind)
    (env : list (option ErrorKind)) : (ErrorKind + list SocketAddr * option ErrorKind) * list (option ErrorKind) :=
  match todo with
  | [] => (inr (bound, last_err), env)
  | addr :: todo' =>
      let '(r, env', _) := bind_pair addr (needs_v6_only addr listen) env [] in
      match r with
      | inr _ => bind_loop listen todo' (bound ++ [addr]) last_err env'
      | inl e =>
          if is_soft_bind_failure e then bind_loop listen todo' bound (Some e) env'
          else (inl e, env')
      end
  end.

(** The start-up part of [run_dns_server_with_handler]: [Panic] is the assertion or the [expect]. *)
Definition bind_all (listen : list SocketAddr) (env : list (option ErrorKind)) : outcome ErrorKind (list SocketAddr) :=
  if decide (listen = []) then Panic
  else
    match (bind_loop listen listen [] None env).1 with
    | inl e => Err e
    | inr (bound, last_err) =>
        if decide (bound = []) then match last_err with Some e => Err e | None => Panic end
        else Ok bound
    end.

(** The calls made on [hickory]'s [Server]. *)
Inductive ServerCall : Type :=
  | RegisterSocket (addr : SocketAddr)
  | RegisterListener (addr : SocketAddr) (timeout : Duration) (response_buffer : Z)
  | ShutdownGracefully.
(** [Error] of src/dns/src/error.rs, a protocol error without its message. *)
Inductive DnsError : Type := DnsIo (e : ErrorKind) | DnsProto | DnsStore (e : StoreError).

Definition register_pair (tcp_idle : Duration) (addr : SocketAddr) : list ServerCall :=
  [RegisterSocket addr; RegisterListener addr tcp_idle 512].

(** [run_dns_server_with_handler]: the calls made on a server that came up, and the result. [message] tells whether the
    shutdown message has come (or its channel has closed); until then there is no result. *)
Definition run_dns_server_with_handler (listen : list SocketAddr) (tcp_idle : Duration) (message : bool)
    (env : list (option ErrorKind)) : list ServerCall * option (outcome DnsError unit) :=
  match bind_all listen env with
  | Panic => ([], Some Panic)
  | Err e => ([], Some (Err (DnsIo e)))
  | Ok bound =>
      let calls := bound ≫= register_pair tcp_idle in
      if message then (calls ++ [ShutdownGracefully], Some (Ok tt)) else (calls, None)
  end.

(** [run_dns_server]: the cache is filled before the names are looked at. *)
Definition run_dns_server `{DnsName} `{Semver} `{RedbApi} `{Bincode} (sort_freshest : list PeerRecord → list PeerRecord)
    (config : DnsConfig) (dns_zone ns : rstr) (listen : list SocketAddr) (tcp_idle : Duration) (message : bool)
    (env : list (option ErrorKind)) (now4 now6 now : Z) : DB (list ServerCall * option (outcome DnsError unit)) :=
  cache ← build_serving_cache sort_freshest config now4 now6 now;
  match with_metrics config dns_zone ns cache dns_metrics_new with
  | None => mret ([], Some (Err DnsProto))
  | Some _ => mret (run_dns_server_with_handler listen tcp_idle message env)
  end.

(** ** Lemmas *)

(** A loop that ends normally has bound some of the addresses; every failure on the way was soft, and
    one is remembered if nothing was bound. *)
Lemma bind_loop_spec listen todo bound last_err env :
  match (bind_loop listen todo bound last_err env).1 with
  | inl e => is_soft_bind_failure e = false
  | inr (bound', last_err') =>
      (∃ new, bound' = bound ++ new ∧ new `sublist_of` todo ∧ (todo ≠ [] → new = [] → is_Some last_err')) ∧
      (is_Some last_err → is_Some last_err') ∧
      (∀ e, last_err' = Some e → last_err = Some e ∨ is_soft_bind_failure e = true)
  end.
Proof.
  revert bound last_err env. induction todo as [|addr todo IH]; intros bound last_err env; cbn [bind_loop].
  { cbn. split; [exists []; rewrite app_nil_r; done|auto]. }
  destruct (bind_pair addr (needs_v6_only addr listen) env []) as [[[e|[]] env'] tr].
  - destruct (is_soft_bind_failure e) eqn:Hs; [|done]. specialize (IH bound (Some e) env').
    destruct (bind_loop listen todo bound (Some e) env') as [[e'|[b l]] env2]; cbn in *; [done|].
    destruct IH as ((new & -> & Hsub & _) & Hl & He). assert (is_Some l) by (by apply Hl; eexists).
    split; [exists new; split; [done|]; split; [by constructor|done]|]. split; [done|].
    intros e0 He0. destruct (He e0 He0) as [[= <-]|]; by right.
  - specialize (IH (bound ++ [addr]) last_err env').
    destruct (bind_loop listen todo (bound ++ [addr]) last_err env') as [[e'|[b l]] env2]; cbn in *; [done|].
    destruct IH as ((new & -> & Hsub & _) & Hl & He). split; [|by split].
    exists (addr :: new). rewrite <-app_assoc. split; [done|]. split; [by constructor|done].
Qed.

Definition prepare_calls (addr : SocketAddr) (ty : SockType) (v6_only : bool) : list SockCall :=
  [NewSocket (is_sock_ipv6 addr) ty] ++ (if is_sock_ipv6 addr then [SetOnlyV6 v6_only] else []) ++ [SetNonblocking; Bind addr].

Lemma prepare_socket_inr addr ty v6_only env tr a env' tr' :
  prepare_socket addr ty v6_only env tr = (inr a, env', tr') → tr' = tr ++ prepare_calls addr ty v6_only.
Proof.
  unfold prepare_socket, prepare_calls.
  intros Hp. destruct (is_sock_ipv6 addr); sock_inv; by rewrite <-!app_assoc.
Qed.

(** ** Theorems *)

(** Binding never panics with at least one address; it succeeds with the non-empty list of the addresses that could be
    bound, in the order given, and fails on the first hard error or, when every address failed softly, with a soft one. *)
Lemma bind_all_outcome listen env :
  listen ≠ [] →
  match bind_all listen env with
  | Ok bound => bound ≠ [] ∧ bound `sublist_of` listen
  | Err e => is_soft_bind_failure e = false ∨
      (is_soft_bind_failure e = true ∧ ∃ last_err, (bind_loop listen listen [] None env).1 = inr ([], last_err))
  | Panic => False
  end.
Proof.
  intros Hne. unfold bind_all. rewrite decide_False by done. pose proof (bind_loop_spec listen listen [] None env) as Hs.
  destruct (bind_loop listen listen [] None env) as [[e|[bound last_err]] env']; cbn [fst] in *; [by left|].
  destruct Hs as ((new & -> & Hsub & Hl) & _ & He). cbn [app]. case_decide as Hn; [|done].
  destruct (Hl Hne Hn) as [e ->]. right. destruct (He e eq_refl) as [[=]|]. split; [done|]. subst. eauto.
Qed.


(** IPv6 sockets are restricted to IPv6 exactly when an IPv4 address on the same port is listened on
    as well; and a pair that was bound has made its calls in this order, in which the TCP
    socket's address reuse is set after the bind that would need it. *)
Theorem bind_pair_calls addr listen env a env' tr :
  bind_pair addr (needs_v6_only addr listen) env [] = (inr a, env', tr) →
  tr = prepare_calls addr DGRAM (needs_v6_only addr listen) ++ [FromStd DGRAM] ++
       prepare_calls addr STREAM (needs_v6_only addr listen) ++ [SetReuseAddress; Listen 1024; FromStd STREAM] ∧
  (needs_v6_only addr listen = true ↔
     is_sock_ipv6 addr = true ∧ ∃ other, other ∈ listen ∧ is_sock_ipv4 other = true ∧ socket_port other = socket_port addr).
Proof.
  intros Hb. split.
  - unfold bind_pair in Hb.
    sock_inv. repeat match goal with E : prepare_socket _ _ _ _ _ = _ |- _ => apply prepare_socket_inr in E; subst end.
    by rewrite <-!app_assoc.
  - unfold needs_v6_only. rewrite andb_true_iff, existsb_exists. setoid_rewrite andb_true_iff.
    setoid_rewrite bool_decide_eq_true. by setoid_rewrite list_elem_of_In.
Qed.

(** ** Witnesses: both families on port 53, without IPv6 on the host *)

Definition listen0 : list SocketAddr := [SockV4 0 53; SockV6 0 53 0 0].

(** IPv4 is bound and served, the IPv6 socket is refused softly. *)
Definition env0 : list (option ErrorKind) := replicate 10 None ++ [Some Unsupported].


Lemma bind_pair_calls_witness : needs_v6_only (SockV6 0 53 0 0) listen0 = true.
Proof.
  apply (bind_pair_calls (SockV6 0 53 0 0) listen0 [] tt [] (bind_pair (SockV6 0 53 0 0) true [] []).2); [done|].
  split; [done|]. exists (SockV4 0 53). split; [left|done].
Defined.
