(* ===== verification/ProbeRace.v ===== *)
(** * Concurrent probes and the pending map

    [KaspadProbe::probe] and [ProbeInitializer::initialize_connection] (src/crawler/src/probe.rs,
    src/crawler/src/probe/initializer.rs) share one map from addresses to the senders of the waiting probes. ProbeInit.v follows a
    single probe through it; here any number of probes run at once, each a sequence of the steps between two awaits: registering
    the sender, the initializer's removal and delivery, and the return with the drop of the guard. *)

From S2P Require Import Prelude Text Net Common Record Redb RedbInstances Crawler ProbeInit.

Section race.
Context `{P2pLib}.

(** The receiving end of a probe's channel: nothing yet, an outcome, or a dropped sender. *)
Inductive Inbox : Type :=
  | InboxEmpty
  | InboxGot (res : ProbeError + ProbeResult)
  | InboxDropped.

(** Where a probe is: awaiting [connect_peer], past the initializer, waiting for the router to close with its outcome at hand,
    returned, or cancelled. *)
Inductive Phase : Type :=
  | Connecting
  | Initialized
  | Closing (res : ProbeError + ProbeResult)
  | Returned (res : ProbeError + ProbeResult)
  | Cancelled.

(** A call of [probe]; [p_init] is the result of its connection's handshake, once there is one. *)
Record Probe : Type := mkProbe {
  p_addr : SocketAddr;
  p_phase : Phase;
  p_inbox : Inbox;
  p_init : option (ProtocolError + ProbeResult);
}.

(** The senders are named after the probe that made them. *)
Record Probes : Type := mkProbes { pending : gmap SocketAddr nat; probes : gmap nat Probe }.

Definition live (p : Probe) : Prop := match p_phase p with Connecting | Initialized | Closing _ => True | Returned _ | Cancelled => False end.

(** Dropping a sender is seen by its receiver unless an outcome was sent before. *)
Definition drop_sender (o : option nat) (ps : gmap nat Probe) : gmap nat Probe :=
  match o with
  | None => ps
  | Some j => alter (λ p, match p_inbox p with
      | InboxEmpty => mkProbe (p_addr p) (p_phase p) InboxDropped (p_init p) | _ => p end) j ps
  end.
Definition send (res : ProbeError + ProbeResult) (o : option nat) (ps : gmap nat Probe) : gmap nat Probe :=
  match o with
  | None => ps
  | Some j => alter (λ p, mkProbe (p_addr p) (p_phase p) (InboxGot res) (p_init p)) j ps
  end.

(** [self.pending.insert(addr, tx)]: a sender that was there is dropped. *)
Definition register (i : nat) (addr : SocketAddr) (s : Probes) : Probes :=
  mkProbes (<[addr := i]> (pending s))
    (<[i := mkProbe addr Connecting InboxEmpty None]> (drop_sender (pending s !! addr) (probes s))).

(** The end of [initialize_connection] on the connection of probe [i]: whatever sender is registered for the
    address gets the outcome. *)
Definition initialize (i : nat) (p : Probe) (r : ProtocolError + ProbeResult) (s : Probes) : Probes :=
  let outcome := match r with inr res => inr res | inl err => inl (probe_error_of err) end in
  mkProbes (base.delete (p_addr p) (pending s))
    (send outcome (pending s !! p_addr p) (<[i := mkProbe (p_addr p) Initialized (p_inbox p) (Some r)]> (probes s))).

(** The outcome is received; the guard is still there while the router closes. *)
Definition receive (i : nat) (p : Probe) (res : ProbeError + ProbeResult) (s : Probes) : Probes :=
  mkProbes (pending s) (<[i := mkProbe (p_addr p) (Closing res) (p_inbox p) (p_init p)]> (probes s)).

(** Leaving [probe], by return or by cancellation: the guard removes the entry of the address. *)
Definition leave (i : nat) (p : Probe) (ph : Phase) (s : Probes) : Probes :=
  mkProbes (base.delete (p_addr p) (pending s))
    (<[i := mkProbe (p_addr p) ph (p_inbox p) (p_init p)]> (drop_sender (pending s !! p_addr p) (probes s))).

Definition channel_dropped : ProbeError := Handshake (str "probe outcome channel dropped").

(** The steps. With [exclusive] a probe of an address is only started when none is live. [connect_peer] fails whenever
    the initializer does, and may fail before it. *)
Inductive rstep (exclusive : bool) : Probes → Probes → Prop :=
  | r_start s i addr :
      probes s !! i = None →
      (exclusive = true → ∀ j p, probes s !! j = Some p → live p → p_addr p ≠ addr) →
      rstep exclusive s (register i addr s)
  | r_connect_failed s i p msg :
      probes s !! i = Some p → p_phase p = Connecting →
      rstep exclusive s (leave i p (Returned (inl (Connection msg))) s)
  | r_initialize s i p r :
      probes s !! i = Some p → p_phase p = Connecting →
      rstep exclusive s (initialize i p r s)
  | r_handshake_failed s i p e msg :
      probes s !! i = Some p → p_phase p = Initialized → p_init p = Some (inl e) →
      rstep exclusive s (leave i p (Returned (inl (Connection msg))) s)
  | r_received s i p r res :
      probes s !! i = Some p → p_phase p = Initialized → p_init p = Some (inr r) → p_inbox p = InboxGot res →
      rstep exclusive s (receive i p res s)
  | r_closed s i p res :
      probes s !! i = Some p → p_phase p = Closing res →
      rstep exclusive s (leave i p (Returned res) s)
  | r_dropped s i p r :
      probes s !! i = Some p → p_phase p = Initialized → p_init p = Some (inr r) → p_inbox p = InboxDropped →
      rstep exclusive s (leave i p (Returned (inl channel_dropped)) s)
  | r_cancelled s i p :
      probes s !! i = Some p → live p → rstep exclusive s (leave i p Cancelled s).

Definition rsteps (exclusive : bool) : Probes → Probes → Prop := rtc (rstep exclusive).
Definition no_probes : Probes := mkProbes ∅ ∅.

(** ** The invariant of exclusive probes *)

(** What a probe may hold, given the map. *)
Definition probe_inv (pend : gmap SocketAddr nat) (i : nat) (p : Probe) : Prop :=
  match p_phase p with
  | Connecting => pend !! p_addr p = Some i ∧ p_inbox p = InboxEmpty ∧ p_init p = None
  | Initialized => pend !! p_addr p = None ∧
      ∃ r, p_init p = Some r ∧ p_inbox p = InboxGot (match r with inr res => inr res | inl err => inl (probe_error_of err) end)
  | Closing res => pend !! p_addr p = None ∧ ∃ r, p_init p = Some (inr r) ∧ res = inr r
  | Returned res =>
      match p_init p with
      | Some (inr r) => res = inr r
      | Some (inl _) | None => ∃ msg, res = inl (Connection msg)
      end
  | Cancelled => True
  end.

Record race_inv (s : Probes) : Prop := {
  ri_probes : ∀ i p, probes s !! i = Some p → probe_inv (pending s) i p;
  ri_pending : ∀ addr i, pending s !! addr = Some i → ∃ p, probes s !! i = Some p ∧ p_addr p = addr ∧ p_phase p = Connecting;
  ri_exclusive : ∀ i j p q, probes s !! i = Some p → probes s !! j = Some q → live p → live q → p_addr p = p_addr q → i = j;
}.

(** A probe other than the ones of this address does not notice. *)
Lemma probe_inv_other pend pend' i p :
  probe_inv pend i p → (live p → pend' !! p_addr p = pend !! p_addr p) → probe_inv pend' i p.
Proof. unfold probe_inv, live. destruct (p_phase p); intros Hi Hp; rewrite ?Hp; done. Qed.

(** The sender registered for an address belongs to the live probe of that address, so nobody else's sender is ever
    dropped or sent to. *)
Lemma pending_own s i p : race_inv s → probes s !! i = Some p → live p → ∀ j, pending s !! p_addr p = Some j → j = i.
Proof.
  intros Hi Hp Hl j Hj. destruct (ri_pending _ Hi _ _ Hj) as (q & Hq & Ha & Hph).
  eapply (ri_exclusive _ Hi); [done..| |done|done]. unfold live. by rewrite Hph.
Qed.

Lemma drop_own i p o ps x : (∀ j, o = Some j → j = i) → <[i := p]> (drop_sender o ps) !! x = <[i := p]> ps !! x.
Proof.
  intros Ho. destruct (decide (x = i)) as [->|Hne]; [by rewrite !lookup_insert_eq|]. rewrite !lookup_insert_ne by done.
  destruct o as [j|]; [|done]. cbn. rewrite (Ho j eq_refl). by rewrite lookup_alter_ne.
Qed.

Lemma race_inv_leave s i p ph :
  race_inv s → probes s !! i = Some p → live p →
  (∀ pend, probe_inv pend i (mkProbe (p_addr p) ph (p_inbox p) (p_init p))) → ¬ live (mkProbe (p_addr p) ph (p_inbox p) (p_init p)) →
  race_inv (leave i p ph s).
Proof.
  intros Hi Hp Hl Hok Hnl. pose proof (pending_own s i p Hi Hp Hl) as Hown.
  assert (Hlook : ∀ x, probes (leave i p ph s) !! x = <[i := mkProbe (p_addr p) ph (p_inbox p) (p_init p)]> (probes s) !! x)
    by (intros x; by apply drop_own).
  split.
  - intros j q. rewrite Hlook, lookup_insert_Some. intros [[<- <-]|[Hne Hq]]; [by apply Hok|].
    eapply probe_inv_other; [by apply (ri_probes _ Hi)|]. intros Hlq. cbn [pending leave].
    rewrite lookup_delete_ne; [done|]. intros Ha. apply Hne. by eapply (ri_exclusive _ Hi).
  - intros addr j. cbn [pending leave]. rewrite lookup_delete_Some. intros [Hne Hj].
    destruct (ri_pending _ Hi _ _ Hj) as (q & Hq & Ha & Hph). exists q. split; [|done].
    rewrite Hlook, lookup_insert_ne; [done|]. intros <-. naive_solver.
  - intros j k q1 q2. rewrite !Hlook, !lookup_insert_Some. intros [[<- <-]|[? Hq1]] [[<- <-]|[? Hq2]] Hl1 Hl2 Ha; try done.
    by eapply (ri_exclusive _ Hi).
Qed.

Lemma race_inv_initialize s i p r :
  race_inv s → probes s !! i = Some p → p_phase p = Connecting → race_inv (initialize i p r s).
Proof.
  intros Hi Hp Hph. pose proof (ri_probes _ Hi _ _ Hp) as Hpi. unfold probe_inv in Hpi. rewrite Hph in Hpi.
  destruct Hpi as (Hpend & Hbox & Hnone). assert (Hl : live p) by (unfold live; by rewrite Hph).
  set (out := match r with inr res => inr res | inl err => inl (probe_error_of err) end).
  assert (Hlook : ∀ x, probes (initialize i p r s) !! x = <[i := mkProbe (p_addr p) Initialized (InboxGot out) (Some r)]> (probes s) !! x).
  { intros x. unfold initialize. rewrite Hpend. cbn. destruct (decide (x = i)) as [->|Hne].
    - by rewrite lookup_alter_eq, !lookup_insert_eq.
    - by rewrite lookup_alter_ne, !lookup_insert_ne by done. }
  split.
  - intros j q. rewrite Hlook, lookup_insert_Some. cbn [pending initialize]. intros [[<- <-]|[Hne Hq]].
    + split; [apply lookup_delete_eq|]. by exists r.
    + eapply probe_inv_other; [by apply (ri_probes _ Hi)|]. intros Hlq.
      rewrite lookup_delete_ne; [done|]. intros Ha. apply Hne. by eapply (ri_exclusive _ Hi).
  - intros addr j. cbn [pending initialize]. rewrite lookup_delete_Some. intros [Hne Hj].
    destruct (ri_pending _ Hi _ _ Hj) as (q & Hq & Ha & Hqc). exists q. split; [|done].
    rewrite Hlook, lookup_insert_ne; [done|]. intros <-. naive_solver.
  - intros j k q1 q2. rewrite !Hlook, !lookup_insert_Some. intros [[<- <-]|[? Hq1]] [[<- <-]|[? Hq2]] Hl1 Hl2 Ha; try done.
    + by eapply (ri_exclusive _ Hi).
    + by eapply (ri_exclusive _ Hi).
    + by eapply (ri_exclusive _ Hi).
Qed.

Lemma race_inv_receive s i p r res :
  race_inv s → probes s !! i = Some p → p_phase p = Initialized → p_init p = Some (inr r) → p_inbox p = InboxGot res →
  race_inv (receive i p res s).
Proof.
  intros Hi Hp Hph Hr Hb. pose proof (ri_probes _ Hi _ _ Hp) as Hpi. unfold probe_inv in Hpi. rewrite Hph in Hpi.
  destruct Hpi as (Hpend & r' & Hr' & Hb'). rewrite Hr in Hr'. injection Hr' as <-. rewrite Hb in Hb'. injection Hb' as ->.
  assert (Hl : live p) by (unfold live; by rewrite Hph). split; cbn [pending probes receive].
  - intros j q [[<- <-]|[Hne Hq]]%lookup_insert_Some; [|by apply (ri_probes _ Hi)]. split; [done|]. by exists r.
  - intros addr j Hj. destruct (ri_pending _ Hi _ _ Hj) as (q & Hq & Ha & Hqc). exists q. split; [|done].
    rewrite lookup_insert_ne; [done|]. intros <-. congruence.
  - intros j k q1 q2. rewrite !lookup_insert_Some. intros [[<- <-]|[? Hq1]] [[<- <-]|[? Hq2]] Hl1 Hl2 Ha; try done;
      by eapply (ri_exclusive _ Hi).
Qed.

Lemma race_inv_register s i addr :
  race_inv s → probes s !! i = None → (∀ j p, probes s !! j = Some p → live p → p_addr p ≠ addr) → race_inv (register i addr s).
Proof.
  intros Hi Hnew Hex. assert (Hpend : pending s !! addr = None).
  { destruct (pending s !! addr) as [j|] eqn:Hj; [|done]. destruct (ri_pending _ Hi _ _ Hj) as (q & Hq & Ha & Hph).
    exfalso. apply (Hex j q); [done| |done]. unfold live. by rewrite Hph. }
  assert (Hps : probes (register i addr s) = <[i := mkProbe addr Connecting InboxEmpty None]> (probes s))
    by (unfold register; by rewrite Hpend).
  split; rewrite ?Hps; cbn [pending register].
  - intros j q. rewrite lookup_insert_Some. intros [[<- <-]|[Hne Hq]].
    + split; [apply lookup_insert_eq|done].
    + eapply probe_inv_other; [by apply (ri_probes _ Hi)|]. intros Hlq. apply lookup_insert_ne. intros Ha. by eapply Hex.
  - intros a j. rewrite lookup_insert_Some. intros [[<- <-]|[Hne Hj]].
    + eexists. by rewrite lookup_insert_eq.
    + destruct (ri_pending _ Hi _ _ Hj) as (q & Hq & Ha & Hqc). exists q. split; [|done].
      rewrite lookup_insert_ne; [done|]. intros <-. congruence.
  - intros j k q1 q2. rewrite !lookup_insert_Some. intros [[<- <-]|[? Hq1]] [[<- <-]|[? Hq2]] Hl1 Hl2 Ha; cbn in *; try done.
    + exfalso. by eapply (Hex k q2).
    + exfalso. by eapply (Hex j q1).
    + by eapply (ri_exclusive _ Hi).
Qed.

Lemma race_inv_step s s' : race_inv s → rstep true s s' → race_inv s'.
Proof.
  intros Hi Hst. destruct Hst as [s i addr Hnew Hex|s i p msg Hp Hph|s i p r Hp Hph|s i p e msg Hp Hph He
    |s i p r res Hp Hph Hr Hb|s i p res Hp Hph|s i p r Hp Hph Hr Hb|s i p Hp Hl].
  - apply race_inv_register; [done|done|by apply Hex].
  - pose proof (ri_probes _ Hi _ _ Hp) as Hpi. unfold probe_inv in Hpi. rewrite Hph in Hpi. destruct Hpi as (_ & _ & Hn).
    apply race_inv_leave; [done..|by unfold live; rewrite Hph| |by intros []]. intros pend. unfold probe_inv. cbn. rewrite Hn. by exists msg.
  - by apply race_inv_initialize.
  - apply race_inv_leave; [done..|by unfold live; rewrite Hph| |by intros []]. intros pend. unfold probe_inv. cbn. rewrite He. by exists msg.
  - by eapply race_inv_receive.
  - pose proof (ri_probes _ Hi _ _ Hp) as Hpi. unfold probe_inv in Hpi. rewrite Hph in Hpi. destruct Hpi as (_ & r & Hr & ->).
    apply race_inv_leave; [done..|by unfold live; rewrite Hph| |by intros []]. intros pend. unfold probe_inv. cbn. by rewrite Hr.
  - pose proof (ri_probes _ Hi _ _ Hp) as Hpi. unfold probe_inv in Hpi. rewrite Hph in Hpi. destruct Hpi as (_ & r' & Hr' & Hb').
    congruence.
  - apply race_inv_leave; [done..| |by intros []]. done.
Qed.

Lemma race_inv_steps s s' : race_inv s → rsteps true s s' → race_inv s'.
Proof. intros Hi Hst. induction Hst as [|x y z Hxy _ IH]; [done|]. apply IH. by eapply race_inv_step. Qed.

Lemma race_inv_none : race_inv no_probes.
Proof. split; cbn; intros *; rewrite lookup_empty; done. Qed.

(** C16: As long as no address is probed twice at once, every probe that has returned gives its own connection's
    outcome: the result its handshake made, or a connection error when the connection or the handshake failed; the error of
    a dropped channel never appears. A sender is registered only for a probe that is still connecting, so when no probe is
    live the map is empty. *)
Theorem probes_isolated s :
  rsteps true no_probes s →
  (∀ i p res, probes s !! i = Some p → p_phase p = Returned res →
     match p_init p with
     | Some (inr r) => res = inr r
     | Some (inl _) | None => ∃ msg, res = inl (Connection msg)
     end) ∧
  (∀ addr i, pending s !! addr = Some i ↔ ∃ p, probes s !! i = Some p ∧ p_addr p = addr ∧ p_phase p = Connecting) ∧
  ((∀ i p, probes s !! i = Some p → ¬ live p) → pending s = ∅).
Proof.
  intros Hst. assert (Hi : race_inv s) by (eapply race_inv_steps; [apply race_inv_none|done]). split; [|split].
  - intros i p res Hp Hph. pose proof (ri_probes _ Hi _ _ Hp) as Hpi. unfold probe_inv in Hpi. by rewrite Hph in Hpi.
  - intros addr i. split; [apply (ri_pending _ Hi)|]. intros (p & Hp & <- & Hph).
    pose proof (ri_probes _ Hi _ _ Hp) as Hpi. unfold probe_inv in Hpi. rewrite Hph in Hpi. by destruct Hpi.
  - intros Hdead. apply map_empty. intros addr. destruct (pending s !! addr) as [i|] eqn:Hpend; [|done].
    destruct (ri_pending _ Hi _ _ Hpend) as (p & Hp & _ & Hph). exfalso. apply (Hdead i p Hp). unfold live. by rewrite Hph.
Qed.

(** C39: Nothing in [probe] itself keeps two probes of one address apart, and the web submission does not ask the scheduler's set
    of addresses in flight. Then the outcomes cross: two probes of [addr] whose handshakes both succeed, with results [r0]
    and [r1], can end with the first failing on a dropped channel and the second returning the first one's result. *)
Theorem overlapping_probes_cross addr r0 r1 :
  ∃ s p q, rsteps false no_probes s ∧
    probes s !! 0%nat = Some p ∧ p_addr p = addr ∧ p_init p = Some (inr r0) ∧ p_phase p = Returned (inl channel_dropped) ∧
    probes s !! 1%nat = Some q ∧ p_addr q = addr ∧ p_init q = Some (inr r1) ∧ p_phase q = Returned (inr r0).
Proof.
  set (s1 := register 0 addr no_probes). set (s2 := register 1 addr s1).
  set (p2 := mkProbe addr Connecting InboxDropped None). set (s3 := initialize 0 p2 (inr r0) s2).
  set (q3 := mkProbe addr Connecting (InboxGot (inr r0)) None). set (s4 := initialize 1 q3 (inr r1) s3).
  set (p4 := mkProbe addr Initialized InboxDropped (Some (inr r0))). set (s5 := leave 0 p4 (Returned (inl channel_dropped)) s4).
  set (q5 := mkProbe addr Initialized (InboxGot (inr r0)) (Some (inr r1))). set (s6 := receive 1 q5 (inr r0) s5).
  set (q6 := mkProbe addr (Closing (inr r0)) (InboxGot (inr r0)) (Some (inr r1))). set (s7 := leave 1 q6 (Returned (inr r0)) s6).
  assert (St2 : rsteps false no_probes s2).
  { apply rtc_l with s1; [by apply (r_start false no_probes 0%nat addr)|]. apply rtc_once, r_start; [|done].
    unfold s1, register. cbn. by simplify_map_eq. }
  assert (pending s2 !! addr = Some 1%nat ∧ probes s2 !! 0%nat = Some p2 ∧ probes s2 !! 1%nat = Some (mkProbe addr Connecting InboxEmpty None))
    as (H2a & H2b & H2c) by (unfold s2, s1, register; cbn; by simplify_map_eq).
  clearbody s2.
  assert (pending s3 !! addr = None ∧ probes s3 !! 0%nat = Some p4 ∧ probes s3 !! 1%nat = Some q3) as (H3a & H3b & H3c)
    by (unfold s3, initialize; cbn; rewrite H2a; cbn; by simplify_map_eq).
  assert (St3 : rsteps false s2 s3) by (by apply rtc_once, (r_initialize false s2 0%nat p2 (inr r0))). clearbody s3.
  assert (pending s4 !! addr = None ∧ probes s4 !! 0%nat = Some p4 ∧ probes s4 !! 1%nat = Some q5) as (H4a & H4b & H4c)
    by (unfold s4, initialize; cbn; rewrite H3a; cbn; by simplify_map_eq).
  assert (St4 : rsteps false s3 s4) by (by apply rtc_once, (r_initialize false s3 1%nat q3 (inr r1))). clearbody s4.
  assert (pending s5 !! addr = None ∧ probes s5 !! 0%nat = Some (mkProbe addr (Returned (inl channel_dropped)) InboxDropped (Some (inr r0)))
    ∧ probes s5 !! 1%nat = Some q5) as (H5a & H5b & H5c) by (unfold s5, leave; cbn; rewrite H4a; cbn; by simplify_map_eq).
  assert (St5 : rsteps false s4 s5) by (by apply rtc_once, (r_dropped false s4 0%nat p4 r0)). clearbody s5.
  assert (St6 : rsteps false s5 s6) by (by apply rtc_once, (r_received false s5 1%nat q5 r1 (inr r0))).
  assert (pending s6 !! addr = None ∧ probes s6 !! 0%nat = Some (mkProbe addr (Returned (inl channel_dropped)) InboxDropped (Some (inr r0)))
    ∧ probes s6 !! 1%nat = Some q6) as (H6a & H6b & H6c) by (unfold s6, receive; cbn; by simplify_map_eq). clearbody s6.
  assert (St7 : rsteps false s6 s7) by (by apply rtc_once, (r_closed false s6 1%nat q6 (inr r0))).
  eexists s7, _, _. split; [by do 5 (etrans; [eassumption|])|].
  unfold s7, leave. cbn. rewrite H6a. cbn. split; [rewrite lookup_insert_ne by done; exact H6b|].
  repeat (split; [reflexivity|]). split; [apply lookup_insert_eq|]. done.
Qed.
End race.

(** One probe that connects, greets and returns. *)
#[local] Existing Instance kaspa_net_std.
#[local] Existing Instance p2p_std.
Definition lone_addr : SocketAddr := SockV4 16843009 16111.
Definition lone0 : Probes := register 0 lone_addr no_probes.
Definition lone1 : Probes := initialize 0 (mkProbe lone_addr Connecting InboxEmpty None) (inr result_ok) lone0.
Definition lone_waiting : Probe := mkProbe lone_addr Initialized (InboxGot (inr result_ok)) (Some (inr result_ok)).
Definition lone2 : Probes := receive 0 lone_waiting (inr result_ok) lone1.
Definition lone_closing : Probe := mkProbe lone_addr (Closing (inr result_ok)) (InboxGot (inr result_ok)) (Some (inr result_ok)).
Definition lone3 : Probes := leave 0 lone_closing (Returned (inr result_ok)) lone2.

Lemma lone_steps : rsteps true no_probes lone3.
Proof.
  apply rtc_l with lone0; [by apply (r_start true no_probes 0%nat lone_addr)|].
  apply rtc_l with lone1; [by apply (r_initialize true lone0 0%nat (mkProbe lone_addr Connecting InboxEmpty None) (inr result_ok))|].
  apply rtc_l with lone2; [by apply (r_received true lone1 0%nat lone_waiting result_ok (inr result_ok))|].
  apply rtc_once. by apply (r_closed true lone2 0%nat lone_closing (inr result_ok)).
Qed.

Lemma probes_isolated_witness : pending lone3 = ∅.
Proof.
  destruct (probes_isolated lone3 lone_steps) as (_ & _ & Hempty). apply Hempty.
  intros i p Hp. unfold lone3, leave in Hp. cbn [probes] in Hp. apply lookup_insert_Some in Hp as [[_ <-]|[Hne Hp]]; [by intros []|].
  exfalso. revert Hp. change (pending lone2 !! p_addr lone_closing) with (@None nat). cbn [drop_sender].
  unfold lone2, receive. cbn [probes]. rewrite lookup_insert_ne by done.
  unfold lone1, initialize. cbn [probes p_addr p_inbox].
  change (pending lone0 !! lone_addr) with (Some 0%nat). cbn [send]. rewrite lookup_alter_ne, lookup_insert_ne by done.
  unfold lone0, register. cbn [probes]. by rewrite lookup_insert_ne.
Defined.
