(* ===== verification/ConnLife.v ===== *)
(** * The life of a probe's connection

    [KaspadProbe::probe] (src/crawler/src/probe.rs) and [initialize_connection] with its watchdog
    (src/crawler/src/probe/initializer.rs) from the connect to the last task that holds the router: the probe itself, which may
    be cancelled at every await; the connection handler of the P2P library, which runs the initializer inside [connect_peer] and
    queues [NewPeer] for the Hub when it succeeds and closes the router when it fails; the detached close task; the lifetime
    watchdog; and whatever else closes the router, the peer's end of the stream first of all. Time is explicit, so the two timers
    and the handshake's duration, which is ProbeInit.v's, can be compared. *)

From S2P Require Import Prelude Text Net Common Record Redb RedbInstances Crawler ProbeInit.

Definition CLOSE_GRACE : Duration := from_secs 2.

Inductive RouterState : Type := NoRouter | RouterOpen | RouterClosed.

(** What is queued for the Hub. *)
Inductive HubEvent : Type := NewPeer | PeerClosing.
#[global] Instance HubEvent_eq_dec : EqDecision HubEvent.
Proof. solve_decision. Defined.

(** [spawn_lifetime_watchdog]'s task. *)
Inductive WatchdogState : Type := WdNone | WdSleeping (deadline : Duration) | WdDone.

(** The task [probe] spawns to close the router. *)
Inductive CloseTask : Type := CtNone | CtRunning | CtDone.

Section connection.
Context `{P2pLib}.

(** Where the call of [probe] is. [until] is when the handshake's last wait is over. *)
Inductive ConnPhase : Type :=
  | CConnecting
  | CInitializing (r : ProtocolError + ProbeResult) (until : Duration)
  | CHandler (r : ProtocolError + ProbeResult) (until : Duration)
  | CAwaiting (r : ProbeResult)
  | CClosing (res : ProbeError + ProbeResult) (since : Duration)
  | CReturned (res : ProbeError + ProbeResult)
  | CCancelled.

Record ConnLife : Type := mkLife {
  cn_now : Duration;
  cn_phase : ConnPhase;
  cn_router : RouterState;
  cn_events : list HubEvent;          (** oldest first *)
  cn_watchdog : WatchdogState;
  cn_closer : CloseTask;
  cn_early : bool;                    (** the router was closed from outside before [NewPeer] was queued *)
}.

Definition new_connection : ConnLife := mkLife 0 CConnecting NoRouter [] WdNone CtNone false.

Definition set_phase (ph : ConnPhase) (s : ConnLife) : ConnLife :=
  mkLife (cn_now s) ph (cn_router s) (cn_events s) (cn_watchdog s) (cn_closer s) (cn_early s).

(** [router.close()]: the first call queues [PeerClosing], later ones do nothing. *)
Definition close_router (s : ConnLife) : ConnLife :=
  match cn_router s with
  | RouterOpen => mkLife (cn_now s) (cn_phase s) RouterClosed (cn_events s ++ [PeerClosing]) (cn_watchdog s) (cn_closer s) (cn_early s)
  | _ => s
  end.

(** The start of [initialize_connection]: the watchdog is spawned and [do_probe] begins, with the environment [c]. *)
Definition begin_initialize (cfg : ProbeInitializerConfig) (lifetime : Duration) (unix_now : Z) (uuid : bytes) (c : Conn)
    (s : ConnLife) : ConnLife :=
  let '(r, c') := do_probe cfg unix_now uuid c in
  mkLife (cn_now s) (CInitializing r (cn_now s + (elapsed c' - elapsed c))) RouterOpen (cn_events s)
    (WdSleeping (cn_now s + lifetime)) (cn_closer s) (cn_early s).

(** The handler after a successful initializer. *)
Definition queue_new_peer (r : ProbeResult) (s : ConnLife) : ConnLife :=
  mkLife (cn_now s) (CAwaiting r) (cn_router s) (cn_events s ++ [NewPeer]) (cn_watchdog s) (cn_closer s) (cn_early s).

(** [probe] has the outcome of its own connection: the close task is spawned. *)
Definition spawn_close (r : ProbeResult) (s : ConnLife) : ConnLife :=
  mkLife (cn_now s) (CClosing (inr r) (cn_now s)) (cn_router s) (cn_events s) (cn_watchdog s) CtRunning (cn_early s).

(** The close task. *)
Definition run_close_task (s : ConnLife) : ConnLife :=
  let s := close_router s in
  mkLife (cn_now s) (cn_phase s) (cn_router s) (cn_events s) (cn_watchdog s) CtDone (cn_early s).

(** The watchdog's task after its sleep; a router that is gone was closed. *)
Definition run_watchdog (s : ConnLife) : ConnLife :=
  let s := close_router s in
  mkLife (cn_now s) (cn_phase s) (cn_router s) (cn_events s) WdDone (cn_closer s) (cn_early s).

(** The router is closed by somebody else. *)
Definition close_outside (s : ConnLife) : ConnLife :=
  let early := bool_decide (NewPeer ∉ cn_events s) in
  let s := close_router s in
  mkLife (cn_now s) (cn_phase s) (cn_router s) (cn_events s) (cn_watchdog s) (cn_closer s) (cn_early s || early).

Definition awaiting (ph : ConnPhase) : Prop := match ph with CReturned _ | CCancelled => False | _ => True end.

#[local] Arguments do_probe : simpl never.

Section steps.
Context (cfg : ProbeInitializerConfig) (lifetime : Duration) (unix_now : Z) (uuid : bytes).

(** One step of the probe or of one of its tasks. The initializer's sender may have been taken by another probe of the address (ProbeRace.v): then
    [probe] ends on a dropped channel or with an outcome that carries another router. *)
Inductive cown : ConnLife → ConnLife → Prop :=
  | c_refused s msg :
      cn_phase s = CConnecting → cown s (set_phase (CReturned (inl (Crawler.Connection msg))) s)
  | c_connected s c :
      cn_phase s = CConnecting → conn_wf c → cown s (begin_initialize cfg lifetime unix_now uuid c s)
  | c_initialized s r until :
      cn_phase s = CInitializing r until → until ≤ cn_now s → cown s (set_phase (CHandler r until) s)
  | c_handler_ok s r until :
      cn_phase s = CHandler (inr r) until → cown s (queue_new_peer r s)
  | c_handler_failed s e until msg :
      cn_phase s = CHandler (inl e) until → cown s (set_phase (CReturned (inl (Crawler.Connection msg))) (close_router s))
  | c_outcome s r :
      cn_phase s = CAwaiting r → cown s (spawn_close r s)
  | c_outcome_other s r res :
      cn_phase s = CAwaiting r → cown s (set_phase (CReturned res) s)
  | c_close_task s :
      cn_closer s = CtRunning → cown s (run_close_task s)
  | c_closed s res since :
      cn_phase s = CClosing res since → cn_closer s = CtDone → cown s (set_phase (CReturned res) s)
  | c_grace_over s res since :
      cn_phase s = CClosing res since → since + CLOSE_GRACE ≤ cn_now s → cown s (set_phase (CReturned res) s)
  | c_watchdog s deadline :
      cn_watchdog s = WdSleeping deadline → deadline ≤ cn_now s → cown s (run_watchdog s).

(** What happens to it: the router is closed by somebody else, or the future of [probe] is dropped. *)
Inductive coutside : ConnLife → ConnLife → Prop :=
  | c_closed_outside s :
      cn_router s = RouterOpen → coutside s (close_outside s)
  | c_cancelled s :
      awaiting (cn_phase s) → coutside s (set_phase CCancelled s).

(** Time passes. The handshake's own end and the handler's turn are delayed by less than the slack the lifetime has for it. *)
Definition on_time (s : ConnLife) (now : Duration) : Prop :=
  match cn_phase s with
  | CInitializing _ until | CHandler _ until => now < until + LIFETIME_SLACK
  | _ => True
  end.
Definition at_time (now : Duration) (s : ConnLife) : ConnLife :=
  mkLife now (cn_phase s) (cn_router s) (cn_events s) (cn_watchdog s) (cn_closer s) (cn_early s).
Inductive ctick : ConnLife → ConnLife → Prop :=
  | c_tick s now :
      cn_now s ≤ now → on_time s now → ctick s (at_time now s).

Definition cwork (s s' : ConnLife) : Prop := cown s s' ∨ coutside s s'.
Definition cstep (s s' : ConnLife) : Prop := cwork s s' ∨ ctick s s'.
Definition creachable (s : ConnLife) : Prop := rtc cstep new_connection s.

(** Nothing of the probe is left: it has returned or was cancelled, and neither task is there. *)
Definition finished (s : ConnLife) : Prop :=
  ¬ awaiting (cn_phase s) ∧ cn_closer s ≠ CtRunning ∧ match cn_watchdog s with WdSleeping _ => False | _ => True end.

(** ** The invariant *)

(** The router, the events queued for it, whether it was closed early, and whether [NewPeer] was queued. *)
Inductive shape : RouterState → list HubEvent → bool → bool → Prop :=
  | sh_none : shape NoRouter [] false false
  | sh_open : shape RouterOpen [] false false
  | sh_queued : shape RouterOpen [NewPeer] false true
  | sh_closed early : shape RouterClosed [PeerClosing] early false
  | sh_ordered : shape RouterClosed [NewPeer; PeerClosing] false true
  | sh_early : shape RouterClosed [PeerClosing; NewPeer] true true.

Definition phase_inv (now : Duration) (ro : RouterState) (early queued : bool) (wd : WatchdogState) (ct : CloseTask) (ph : ConnPhase) : Prop :=
  match ph with
  | CConnecting => ro = NoRouter ∧ ct = CtNone
  | CInitializing _ until | CHandler _ until => queued = false ∧ ct = CtNone ∧ (ro = RouterClosed → early = true) ∧
      now < until + LIFETIME_SLACK ∧ ∃ deadline, wd = WdSleeping deadline ∧ until + LIFETIME_SLACK ≤ deadline
  | CAwaiting _ => queued = true ∧ ct = CtNone
  | CClosing _ _ => queued = true ∧ ct ≠ CtNone
  | CReturned _ | CCancelled => ct ≠ CtNone → queued = true
  end.

Record conn_inv (s : ConnLife) (queued : bool) : Prop := {
  li_shape : shape (cn_router s) (cn_events s) (cn_early s) queued;
  li_phase : phase_inv (cn_now s) (cn_router s) (cn_early s) queued (cn_watchdog s) (cn_closer s) (cn_phase s);
  li_none : cn_router s = NoRouter ↔ cn_watchdog s = WdNone;
  li_watchdog : cn_watchdog s = WdDone → cn_router s = RouterClosed;
  li_closer : cn_closer s = CtDone → cn_router s ≠ RouterOpen;
}.

Context (Ht : 0 ≤ probe_timeout cfg) (Hlife : max_connection_lifetime cfg = Some lifetime).

Lemma conn_inv_new : conn_inv new_connection false.
Proof. split; [constructor|done..]. Qed.

(** The watchdog's deadline leaves the slack after the handshake. *)
Lemma until_deadline now c :
  conn_wf c → let until := now + (elapsed (do_probe cfg unix_now uuid c).2 - elapsed c) in
  now < until + LIFETIME_SLACK ∧ until + LIFETIME_SLACK ≤ now + lifetime.
Proof.
  intros Hwf. pose proof (do_probe_takes_time cfg unix_now uuid c Ht Hwf).
  pose proof (do_probe_within_lifetime cfg unix_now uuid c lifetime Ht Hlife).
  assert (0 < LIFETIME_SLACK) by done. cbn zeta. lia.
Qed.

Ltac life := first [done | by constructor | match goal with Hp : phase_inv _ _ _ _ _ _ ?ph |- phase_inv _ _ _ _ _ _ ?ph =>
  destruct ph; cbn in *; naive_solver end | naive_solver].

Lemma conn_inv_work s s' q : conn_inv s q → cwork s s' → ∃ q', conn_inv s' q'.
Proof.
  intros [Hsh Hp Hn Hwd Hct] Hw. destruct Hw as [Hw|Hw]; [destruct Hw as [s msg Hph|s c Hph Hwf|s r until Hph Hu|s r until Hph|s e until msg Hph
    |s r Hph|s r res Hph|s Hc|s res since Hph Hc|s res since Hph Hs|s deadline Hd Hnow]|destruct Hw as [s Ho|s Ha]]; destruct s as [now ph ro ev wd ct ea];
    unfold close_router, set_phase, begin_initialize, queue_new_peer, spawn_close, run_close_task, run_watchdog, close_outside in *;
    cbn in *; subst; cbn in *.
  - exists q. split; cbn; try done. by destruct Hp as [_ ->].
  - destruct Hp as [-> ->]. inversion Hsh; subst. pose proof (until_deadline now c Hwf) as [Hu Hd]. exists false.
    destruct (do_probe (M := Proto) cfg unix_now uuid c) as [r c']. cbn in *.
    split; cbn; [constructor| |done..]. split; [done|]. split; [done|]. split; [done|]. split; [done|]. by eexists.
  - exists q. split; cbn; done.
  - destruct Hp as (-> & -> & He & _ & d & -> & _). exists true. split; cbn; [|done..].
    inversion Hsh; subst; cbn; [by destruct Hn as [Hn _]; discriminate Hn|constructor|]. rewrite He by done. constructor.
  - exists q. destruct Hp as (-> & -> & _ & _ & d & -> & _). inversion Hsh; subst; split; cbn; life.
  - exists q. destruct Hp as [-> _]. split; cbn; done.
  - exists q. destruct Hp as [-> _]. split; cbn; done.
  - exists q. inversion Hsh; subst; split; cbn; life.
  - exists q. destruct Hp as [-> _]. split; cbn; done.
  - exists q. destruct Hp as [-> _]. split; cbn; done.
  - assert (Hne : ro ≠ NoRouter) by (intros ->; by destruct Hn as [Hn _]; discriminate Hn).
    assert (Hph : ∀ P : Prop, (match ph with CInitializing _ _ | CHandler _ _ => False | _ => True end → P) → P).
    { intros P HP. apply HP. destruct ph; [done| | |done..]; destruct Hp as (_ & _ & _ & Hlt & d & [= ->] & Hd); lia. }
    exists q. apply Hph. clear Hph. intros Hph. inversion Hsh; subst; try done; split; cbn; life.
  - inversion Hsh; subst.
    + exists false. rewrite bool_decide_true by set_solver. split; cbn; life.
    + exists true. rewrite bool_decide_false by set_solver. split; cbn; life.
  - exists q. split; cbn; try done. destruct ph; naive_solver.
Qed.

Lemma conn_inv_tick s s' q : conn_inv s q → ctick s s' → conn_inv s' q.
Proof.
  intros Hi Hk. destruct Hk as [[now0 ph ro ev wd ct ea] now Hle Hon], Hi as [Hsh Hp Hn Hwd Hct]. split; cbn in *; [done| |done..].
  unfold on_time in Hon. destruct ph; cbn in *; naive_solver.
Qed.

Lemma conn_inv_reachable s : creachable s → ∃ q, conn_inv s q.
Proof.
  intros Hr. cut (∀ s0, rtc cstep s0 s → ∀ q, conn_inv s0 q → ∃ q', conn_inv s q'); [intros Hc; by eapply Hc, conn_inv_new|].
  clear Hr. intros s0 Hr. induction Hr as [|x y z [Hw|Hk] _ IH]; intros q Hi; [by exists q| |].
  - destruct (conn_inv_work x y q Hi Hw) as [q' Hi']. by eapply IH.
  - eapply IH. by eapply conn_inv_tick.
Qed.

(** A router that was there does not go away. *)
Lemma router_stays s s' : cn_router s ≠ NoRouter → cstep s s' → cn_router s' ≠ NoRouter.
Proof.
  assert (Hcl : ∀ s, cn_router s ≠ NoRouter → cn_router (close_router s) ≠ NoRouter)
    by (intros x Hx; unfold close_router; destruct (cn_router x) eqn:E; cbn; congruence).
  intros Hne [[Hw|Hw]|Hk]; [destruct Hw|destruct Hw|destruct Hk]; cbn; auto. unfold begin_initialize.
  by destruct (do_probe (M := Proto) cfg unix_now uuid c).
Qed.

(** ** Progress *)

(** What there is left to do. *)
Definition conn_left (s : ConnLife) : nat :=
  match cn_phase s with
  | CConnecting => 10 | CInitializing _ _ => 6 | CHandler _ _ => 5 | CAwaiting _ => 4 | CClosing _ _ => 1 | CReturned _ | CCancelled => 0
  end + (if cn_watchdog s is WdSleeping _ then 1 else 0) + (if cn_closer s is CtRunning then 1 else 0) +
  (if cn_router s is RouterOpen then 1 else 0).

Lemma work_decreases s s' q : conn_inv s q → cwork s s' → (conn_left s' < conn_left s)%nat.
Proof.
  intros [Hsh Hp Hn Hwd Hct] Hw. destruct Hw as [Hw|Hw]; [destruct Hw as [s msg Hph|s c Hph Hwf|s r until Hph Hu|s r until Hph|s e until msg Hph
    |s r Hph|s r res Hph|s Hc|s res since Hph Hc|s res since Hph Hs|s deadline Hd Hnow]|destruct Hw as [s Ho|s Ha]]; destruct s as [now ph ro ev wd ct ea];
    unfold conn_left, close_router, set_phase, begin_initialize, queue_new_peer, spawn_close, run_close_task, run_watchdog, close_outside in *;
    cbn in *; subst; cbn in *.
  2:{ destruct Hp as [-> ->], (do_probe (M := Proto) cfg unix_now uuid c). cbn. destruct wd; lia. }
  all: try destruct ro; try destruct wd; try destruct ct; try destruct ph; cbn in *; try lia; try done; try (by destruct Hp as [? ?]).
Qed.

(** When the probe itself has ended, its tasks go on. *)
Lemma leftover_progress s (P : Prop) :
  ¬ awaiting (cn_phase s) → (∀ t s2, cn_now s ≤ t → on_time s t → cown (at_time t s) s2 → finished s ∨ P) → finished s ∨ P.
Proof.
  intros Hph Hgo. assert (Hon : ∀ t, on_time s t) by (intros t; unfold on_time; by destruct (cn_phase s)).
  destruct (cn_closer s) eqn:Ec; [|by eapply (Hgo (cn_now s)), c_close_task|].
  all: destruct (cn_watchdog s) as [|d|] eqn:Ew; [|eapply (Hgo (Z.max (cn_now s) d)); [lia|done|eapply c_watchdog; [done|cbn; lia]]|].
  all: left; unfold finished; by rewrite Ec, Ew.
Qed.

Lemma own_progress s q : conn_inv s q → finished s ∨ ∃ s1 s2, ctick s s1 ∧ cown s1 s2.
Proof.
  intros [_ Hp _ _ _].
  assert (Hgo : ∀ t s2, cn_now s ≤ t → on_time s t → cown (at_time t s) s2 → finished s ∨ ∃ s1 s2, ctick s s1 ∧ cown s1 s2).
  { intros t s2 Hle Hon Hown. right. exists (at_time t s), s2. split; [by apply c_tick|done]. }
  assert (Hnow : on_time s (cn_now s)) by (unfold on_time; destruct (cn_phase s); [done| | |done..]; by destruct Hp as (_ & _ & _ & ? & _)).
  destruct (cn_phase s) as [|r until|[e|r] until|r|res since|res|] eqn:E.
  - eapply (Hgo (cn_now s)); [lia|done|]. by apply (c_refused _ []).
  - eapply (Hgo (Z.max (cn_now s) until)); [lia| |eapply c_initialized; [done|cbn; lia]].
    assert (0 < LIFETIME_SLACK) by done. unfold on_time. rewrite E. destruct Hp as (_ & _ & _ & Hlt & _). lia.
  - eapply (Hgo (cn_now s)); [lia|done|]. by apply (c_handler_failed _ e until []).
  - eapply (Hgo (cn_now s)); [lia|done|]. by eapply c_handler_ok.
  - eapply (Hgo (cn_now s)); [lia|done|]. by eapply c_outcome.
  - eapply (Hgo (Z.max (cn_now s) (since + CLOSE_GRACE))); [lia|unfold on_time; by rewrite E|eapply c_grace_over; [done|cbn; lia]].
  - apply leftover_progress; [rewrite E; by intros []|done].
  - apply leftover_progress; [rewrite E; by intros []|done].
Qed.

Lemma connection_closed s : creachable s → finished s → cn_router s ≠ RouterOpen.
Proof.
  intros [q Hi]%conn_inv_reachable (_ & _ & Hwd). destruct (cn_watchdog s) eqn:E; [|done|].
  - apply (li_none _ _ Hi) in E. by rewrite E.
  - apply (li_watchdog _ _ Hi) in E. by rewrite E.
Qed.

(** C17: a probe's connection is always closed by this side. Whatever the peer does and wherever the probe is cancelled, each step
    of the probe and its tasks uses up some of the finite work there is, some task can go on (after waiting) until the probe has
    ended and its tasks are gone, and then the router is closed; as soon as the watchdog or the close task has run it is closed in any case. *)
Theorem connection_released s :
  creachable s →
  (∀ s', cwork s s' → (conn_left s' < conn_left s)%nat) ∧ (∀ s', ctick s s' → conn_left s' = conn_left s) ∧
  (finished s ∨ ∃ s1 s2, ctick s s1 ∧ cown s1 s2) ∧
  (finished s ∨ cn_watchdog s = WdDone ∨ cn_closer s = CtDone → cn_router s ≠ RouterOpen).
Proof.
  intros Hr. pose proof (connection_closed s Hr) as Hclosed. apply conn_inv_reachable in Hr as [q Hi].
  split; [intros s' Hw; by eapply work_decreases|]. split; [by intros s' []|]. split; [by eapply own_progress|].
  intros [Hf|[Hwd|Hct]]; [by apply Hclosed| |by apply (li_closer _ _ Hi)]. apply (li_watchdog _ _ Hi) in Hwd. by rewrite Hwd.
Qed.

(** C18: the Hub hears of a connection before it hears of its end. The watchdog never fires while the handshake or the connection
    handler is at work, the close task exists only once [NewPeer] is queued, and each event is queued at most once; so
    [PeerClosing] comes ahead of [NewPeer] only when somebody else closed the router in between. When everything has ended,
    a connection that was announced and not closed early has left exactly [NewPeer] and [PeerClosing]. *)
Theorem hub_in_order s :
  creachable s →
  (∀ r until, cn_phase s = CInitializing r until ∨ cn_phase s = CHandler r until →
     cn_now s < until + LIFETIME_SLACK ∧ ∃ deadline, cn_watchdog s = WdSleeping deadline ∧ cn_now s < deadline) ∧
  (cn_closer s ≠ CtNone → NewPeer ∈ cn_events s) ∧ NoDup (cn_events s) ∧
  (cn_events s = [PeerClosing; NewPeer] → cn_early s = true) ∧
  (finished s → NewPeer ∈ cn_events s → cn_early s = false → cn_events s = [NewPeer; PeerClosing]).
Proof.
  intros Hr. pose proof (connection_closed s Hr) as Hclosed. apply conn_inv_reachable in Hr as [q [Hsh Hp Hn Hwd Hct]].
  assert (Hq : NewPeer ∈ cn_events s ↔ q = true) by (inversion Hsh; subst; set_solver). split; [|split; [|split; [|split]]].
  - intros r until [E|E]; rewrite E in Hp; destruct Hp as (_ & _ & _ & Hlt & d & Hd & Hle); (split; [done|]); exists d; (split; [done|lia]).
  - intros Hc. apply Hq. destruct (cn_phase s); cbn in Hp; naive_solver.
  - inversion Hsh; repeat constructor; set_solver.
  - intros E. rewrite E in Hsh. by inversion Hsh.
  - intros Hf Hin He. apply Hclosed in Hf. apply Hq in Hin. inversion Hsh; congruence.
Qed.
End steps.
End connection.

(** ** Witnesses *)

#[local] Existing Instance kaspa_net_std.
#[local] Existing Instance p2p_std.

Definition lifetime0 : Duration := from_secs 45 + from_millis 500.

(** The connection of ProbeInit.v's example, with the watchdog asleep. *)
Definition until0 : Duration := from_millis 5310.
Definition greeted : ConnLife := mkLife 0 (CInitializing (inr result_ok) until0) RouterOpen [] (WdSleeping lifetime0) CtNone false.
Lemma greeted_eq : begin_initialize init_cfg lifetime0 1000 [] conn0 new_connection = greeted.
Proof. reflexivity. Qed.
Lemma greeted_step : cown init_cfg lifetime0 1000 [] new_connection greeted.
Proof.
  rewrite <-greeted_eq. apply c_connected; [reflexivity|]. repeat (apply Forall_cons_2; [by vm_compute|]). apply Forall_nil_2.
Qed.
Lemma greeted_reachable : creachable init_cfg lifetime0 1000 [] greeted.
Proof. apply rtc_once. left. left. apply greeted_step. Qed.

(** The probe is cancelled: the watchdog closes. *)
Definition orphan : ConnLife := mkLife lifetime0 CCancelled RouterClosed [PeerClosing] WdDone CtNone false.
Lemma orphan_reachable : creachable init_cfg lifetime0 1000 [] orphan.
Proof.
  eapply (transitivity (R := rtc _)); [apply greeted_reachable|].
  eapply rtc_l; [left; right; apply c_cancelled; exact I|].
  eapply rtc_l; [right; apply (c_tick _ lifetime0); [by vm_compute|exact I]|].
  apply rtc_once. left. left. apply (c_watchdog _ _ _ _ (at_time lifetime0 (set_phase CCancelled greeted)) lifetime0); [reflexivity|by vm_compute].
Qed.

Lemma connection_released_witness : cn_router orphan ≠ RouterOpen.
Proof.
  destruct (connection_released init_cfg lifetime0 1000 [] ltac:(by vm_compute) ltac:(by vm_compute) orphan orphan_reachable) as (_ & _ & _ & Hc).
  apply Hc. right. left. reflexivity.
Defined.

(** The probe succeeds: the close task closes. *)
Definition announced : ConnLife := mkLife until0 (CAwaiting result_ok) RouterOpen [NewPeer] (WdSleeping lifetime0) CtNone false.
Definition released : ConnLife := mkLife lifetime0 (CReturned (inr result_ok)) RouterClosed [NewPeer; PeerClosing] WdDone CtDone false.
Lemma announced_reachable : creachable init_cfg lifetime0 1000 [] announced.
Proof.
  eapply (transitivity (R := rtc _)); [apply greeted_reachable|].
  eapply rtc_l; [right; apply (c_tick _ until0); [by vm_compute|by vm_compute]|].
  eapply rtc_l; [left; left; eapply c_initialized; [reflexivity|by vm_compute]|].
  apply rtc_once. left. left. eapply (c_handler_ok _ _ _ _ (mkLife until0 (CHandler (inr result_ok) until0) RouterOpen [] (WdSleeping lifetime0) CtNone false)). reflexivity.
Qed.
Lemma released_reachable : creachable init_cfg lifetime0 1000 [] released.
Proof.
  eapply (transitivity (R := rtc _)); [apply announced_reachable|].
  eapply rtc_l; [left; left; eapply c_outcome; reflexivity|].
  eapply rtc_l; [left; left; eapply c_close_task; reflexivity|].
  eapply rtc_l; [left; left; eapply c_closed; reflexivity|].
  eapply rtc_l; [right; apply (c_tick _ lifetime0); [by vm_compute|exact I]|].
  apply rtc_once. left. left.
  apply (c_watchdog _ _ _ _ (mkLife lifetime0 (CReturned (inr result_ok)) RouterClosed [NewPeer; PeerClosing] (WdSleeping lifetime0) CtDone false) lifetime0);
    [reflexivity|by vm_compute].
Qed.

Lemma hub_in_order_witness : NoDup (cn_events released) ∧ cn_events released = [NewPeer; PeerClosing].
Proof.
  destruct (hub_in_order init_cfg lifetime0 1000 [] ltac:(by vm_compute) ltac:(by vm_compute) released released_reachable)
    as (_ & _ & Hnd & _ & Hf).
  split; [exact Hnd|]. apply Hf; [|by left|reflexivity]. split; [intros []|]. split; [discriminate|exact I].
Defined.

(** The reject is sent before [initialize_connection] returns, so a peer that hangs up on it can have the router closed before the
    connection handler announces it: then the Hub hears of the end first, which is the order the comment in
    [initialize_connection] avoids for a close of its own. *)
Definition hung_up : ConnLife := mkLife lifetime0 (CReturned (inr result_ok)) RouterClosed [PeerClosing; NewPeer] WdDone CtDone true.
Lemma early_hangup : creachable init_cfg lifetime0 1000 [] hung_up ∧ finished hung_up.
Proof.
  split; [|split; [intros []|]; split; [discriminate|exact I]].
  eapply (transitivity (R := rtc _)); [apply greeted_reachable|].
  eapply rtc_l; [right; apply (c_tick _ until0); [by vm_compute|by vm_compute]|].
  eapply rtc_l; [left; right; apply c_closed_outside; reflexivity|].
  eapply rtc_l; [left; left; eapply c_initialized; [reflexivity|by vm_compute]|].
  eapply rtc_l; [left; left; eapply c_handler_ok; reflexivity|].
  eapply rtc_l; [left; left; eapply c_outcome; reflexivity|].
  eapply rtc_l; [left; left; eapply c_close_task; reflexivity|].
  eapply rtc_l; [left; left; eapply c_closed; reflexivity|].
  eapply rtc_l; [right; apply (c_tick _ lifetime0); [by vm_compute|exact I]|].
  apply rtc_once. left. left.
  apply (c_watchdog _ _ _ _ (mkLife lifetime0 (CReturned (inr result_ok)) RouterClosed [PeerClosing; NewPeer] (WdSleeping lifetime0) CtDone true) lifetime0);
    [reflexivity|by vm_compute].
Qed.
