(* ===== verification/Link.v ===== *)
(** * A handshake with a peer

    ProbeInit.v lets the environment answer a handshake with anything. Here the answers come from a peer: a process that greets a
    new stream and then reacts to the messages it receives, over a link that keeps their order and may delay or break. Every run
    over a link is a run with some environment, so ProbeInit.v's theorems hold of it. *)

From S2P Require Import Prelude Text Net Common Record Redb RedbInstances Crawler ProbeInit.

Section link.
Context `{P2pLib}.

(** The stream handler of a peer: what it sends first, and its reaction to a message; [None] when it returns. *)
Class PeerProcess (Q : Type) : Type := {
  peer_open : Q * list Payload;
  peer_react : Q → Sent → list Payload * option Q;
}.

(** The route a message goes to. *)
Definition payload_type (m : Payload) : KaspadMessagePayloadType :=
  match m with
  | PVersion _ => TVersion
  | PVerack => TVerack
  | PReady => TReady
  | PRequestAddresses => TRequestAddresses
  | PAddresses _ => TAddresses
  end.

(** The first message for a route, and the ones left. *)
Fixpoint take_route (ty : KaspadMessagePayloadType) (inbox : list Payload) : option (Payload * list Payload) :=
  match inbox with
  | [] => None
  | m :: rest =>
      if decide (payload_type m = ty) then Some (m, rest)
      else '(x, rest') ← take_route ty rest; Some (x, m :: rest')
  end.

Section peer.
Context {Q : Type} `{!PeerProcess Q}.
(** The error of a route whose stream has ended. *)
Context (stream_ended : ProtocolError).

Record Link : Type := mkLink {
  lk_peer : option Q;                            (** [None]: the peer's handler has returned *)
  lk_inbox : list Payload;                       (** sent by the peer and not taken yet *)
  lk_delays : list Duration;                     (** how long the next messages we wait for take; used up: no time *)
  lk_send_errors : list (option ProtocolError);  (** transport failures of [router.enqueue]; used up: success *)
  lk_sent : list Sent;
  lk_identity : option bytes;
  lk_elapsed : Duration;
  lk_routes : list (list KaspadMessagePayloadType);
  lk_drained : list (list KaspadMessagePayloadType);
}.

Definition open_link (delays : list Duration) (errors : list (option ProtocolError)) : Link :=
  mkLink (Some peer_open.1) peer_open.2 delays errors [] None 0 [] [].

Definition LinkM (A : Type) : Type := Link → (ProtocolError + A) * Link.
#[global] Instance LinkM_ret : MRet LinkM := λ A a l, (inr a, l).
#[global] Instance LinkM_bind : MBind LinkM := λ A B f p l,
  match p l with
  | (inr a, l') => f a l'
  | (inl e, l') => (inl e, l')
  end.

Lemma link_bind_ok {A B} (p : LinkM A) (f : A → LinkM B) l a l' : p l = (inr a, l') → (p ≫= f) l = f a l'.
Proof. intros Hp. unfold mbind, LinkM_bind. by rewrite Hp. Qed.

Definition link_wait (d : Duration) (l : Link) : Link :=
  mkLink (lk_peer l) (lk_inbox l) (lk_delays l) (lk_send_errors l) (lk_sent l) (lk_identity l) (lk_elapsed l + d)
    (lk_routes l) (lk_drained l).

(** A peer only reacts, so a route without a message stays empty while we wait on it. A message that is late is still there for a
    later wait. *)
Definition link_dequeue (ty : KaspadMessagePayloadType) (timeout : Duration) : LinkM Payload := λ l,
  match take_route ty (lk_inbox l) with
  | Some (m, rest) =>
      let d := default 0 (head (lk_delays l)) in
      let next inbox := mkLink (lk_peer l) inbox (tail (lk_delays l)) (lk_send_errors l) (lk_sent l) (lk_identity l) (lk_elapsed l)
                          (lk_routes l) (lk_drained l) in
      if decide (timeout < d) then (inl (ProtoTimeout timeout), link_wait timeout (next (lk_inbox l)))
      else (inr m, link_wait d (next rest))
  | None =>
      match lk_peer l with
      | Some _ => (inl (ProtoTimeout timeout), link_wait timeout l)
      | None => (inl stream_ended, l)
      end
  end.

(** The peer reacts to what is sent; a message to a handler that has returned is lost. *)
Definition deliver (s : Sent) (l : Link) : Link :=
  let '(out, q) := match lk_peer l with Some q => peer_react q s | None => ([], None) end in
  mkLink q (lk_inbox l ++ out) (lk_delays l) (tail (lk_send_errors l)) (lk_sent l ++ [s]) (lk_identity l) (lk_elapsed l)
    (lk_routes l) (lk_drained l).
Definition link_enqueue (s : Sent) : LinkM unit := λ l,
  match lk_send_errors l with
  | Some e :: rest => (inl e, mkLink (lk_peer l) (lk_inbox l) (lk_delays l) rest (lk_sent l) (lk_identity l) (lk_elapsed l)
                                (lk_routes l) (lk_drained l))
  | _ => (inr tt, deliver s l)
  end.

Definition link_fail {A} (e : ProtocolError) : LinkM A := λ l, (inl e, l).
Definition link_attempt {A} (p : LinkM A) : LinkM (ProtocolError + A)%type := λ l, let '(r, l') := p l in (inr r, l').

#[global] Instance LinkM_session : Session LinkM := {|
  subscribe types l :=
    (inr tt, mkLink (lk_peer l) (lk_inbox l) (lk_delays l) (lk_send_errors l) (lk_sent l) (lk_identity l) (lk_elapsed l)
               (lk_routes l ++ [types]) (lk_drained l));
  start l := (inr tt, l);
  dequeue := link_dequeue;
  enqueue := link_enqueue;
  sleep d l := (inr tt, link_wait d l);
  set_identity id l :=
    (inr tt, mkLink (lk_peer l) (lk_inbox l) (lk_delays l) (lk_send_errors l) (lk_sent l) (Some id) (lk_elapsed l)
               (lk_routes l) (lk_drained l));
  drain rs l :=
    (inr tt, mkLink (lk_peer l) (lk_inbox l) (lk_delays l) (lk_send_errors l) (lk_sent l) (lk_identity l) (lk_elapsed l)
               (lk_routes l) (lk_drained l ++ rs));
  fail := @link_fail;
  attempt := @link_attempt;
|}.

(** ** Every link is an environment *)

(** The connection of ProbeInit.v with the same history, and these answers to come. *)
Definition conn_of (l : Link) (arr : list Arrival) (errs : list (option ProtocolError)) : Conn :=
  mkConn arr errs (lk_sent l) (lk_identity l) (lk_elapsed l) (lk_routes l) (lk_drained l).

(** Whatever [p] does over a link, [p'] does with the environment that gives the same answers. *)
Definition mirrors {A} (p : LinkM A) (p' : Proto A) : Prop :=
  ∀ l, ∃ arr errs, ∀ arr' errs',
    p' (conn_of l (arr ++ arr') (errs ++ errs')) = ((p l).1, conn_of (p l).2 arr' errs').

Lemma mirrors_bind {A B} (p : LinkM A) (p' : Proto A) (f : A → LinkM B) (f' : A → Proto B) :
  mirrors p p' → (∀ a, mirrors (f a) (f' a)) → mirrors (p ≫= f) (p' ≫= f').
Proof.
  intros Hp Hf l. destruct (Hp l) as (arr & errs & Hrun). unfold mbind, LinkM_bind, Proto_bind.
  destruct (p l) as [[e|a] l1]; cbn in Hrun.
  - exists arr, errs. intros arr' errs'. by rewrite Hrun.
  - destruct (Hf a l1) as (arr2 & errs2 & Hrun2). exists (arr ++ arr2), (errs ++ errs2). intros arr' errs'.
    by rewrite <-!app_assoc, Hrun, Hrun2.
Qed.
Lemma mirrors_attempt {A} (p : LinkM A) (p' : Proto A) : mirrors p p' → mirrors (attempt p) (attempt p').
Proof.
  intros Hp l. destruct (Hp l) as (arr & errs & Hrun). exists arr, errs. intros arr' errs'. cbn. unfold proto_attempt, link_attempt.
  rewrite Hrun. by destruct (p l).
Qed.

(** A step that asks the environment nothing. *)
Lemma mirrors_silent {A} (p : LinkM A) (p' : Proto A) :
  (∀ l arr errs, p' (conn_of l arr errs) = ((p l).1, conn_of (p l).2 arr errs)) → mirrors p p'.
Proof. intros Hp l. exists [], []. intros arr errs. apply Hp. Qed.

Lemma mirrors_dequeue ty t : 0 ≤ t → mirrors (dequeue ty t) (dequeue ty t).
Proof.
  intros Ht l. cbn. unfold link_dequeue, conn_dequeue.
  destruct (take_route ty (lk_inbox l)) as [[m rest]|]; [|destruct (lk_peer l)].
  - exists [mkArrival (default 0 (head (lk_delays l))) (inr m)], []. intros arr' errs'. cbn. by case_decide.
  - exists [mkArrival (t + 1) (inl stream_ended)], []. intros arr' errs'. cbn. rewrite decide_True by lia. done.
  - exists [mkArrival 0 (inl stream_ended)], []. intros arr' errs'. cbn. rewrite decide_False by lia.
    unfold wait, conn_of. cbn. by rewrite Z.add_0_r.
Qed.
Lemma mirrors_enqueue s : mirrors (enqueue s) (enqueue s).
Proof.
  intros l. cbn. unfold link_enqueue, deliver. exists [], [default None (head (lk_send_errors l))]. intros arr' errs'. cbn.
  destruct (lk_send_errors l) as [|[e|] errs]; cbn; [|done|]; by destruct (match lk_peer l with Some q => _ | None => _ end).
Qed.
Lemma mirrors_sleep d : mirrors (sleep d) (sleep d).
Proof. by apply mirrors_silent. Qed.
Lemma mirrors_ret {A} (a : A) : mirrors (mret a) (mret a).
Proof. by apply mirrors_silent. Qed.
Lemma mirrors_fail {A} e : mirrors (fail (A := A) e) (fail e).
Proof. by apply mirrors_silent. Qed.

Lemma mirrors_expect {A} ty t (f : Payload → LinkM A) (f' : Payload → Proto A) :
  0 ≤ t → (∀ m, mirrors (f m) (f' m)) → mirrors (dequeue ty t ≫= f) (dequeue ty t ≫= f').
Proof. intros Ht. by apply mirrors_bind, mirrors_dequeue. Qed.

#[local] Ltac mirrors_kind := apply mirrors_expect; [done|]; intros []; (apply mirrors_ret || apply mirrors_fail).

Lemma mirrors_rounds t left first s : 0 ≤ t → mirrors (collect_rounds t left first s) (collect_rounds t left first s).
Proof.
  intros Ht. revert first s. induction left as [|left IH]; intros first s; cbn [collect_rounds]; [apply mirrors_ret|].
  apply mirrors_bind; [destruct first; [apply mirrors_ret|apply mirrors_sleep]|intros _].
  apply mirrors_bind; [apply mirrors_attempt, mirrors_enqueue|]. intros [err|_]; [case_decide; [apply mirrors_fail|apply mirrors_ret]|].
  apply mirrors_bind; [apply mirrors_attempt; mirrors_kind|]. intros [err|msg]; [case_decide; [apply mirrors_fail|apply mirrors_ret]|].
  destruct (addresses_try_into msg); [apply mirrors_fail|]. case_decide; [apply mirrors_fail|apply IH].
Qed.

Lemma mirrors_do_probe cfg unix_now uuid :
  0 ≤ probe_timeout cfg → mirrors (do_probe cfg unix_now uuid) (do_probe cfg unix_now uuid).
Proof.
  intros Ht. unfold do_probe, collect_addresses.
  apply mirrors_bind; [by apply mirrors_silent|intros _]. apply mirrors_bind; [mirrors_kind|intros v].
  case_decide; [apply mirrors_fail|].
  apply mirrors_bind; [destruct (peer_id_from_slice _); [by apply mirrors_silent|apply mirrors_ret]|intros _].
  repeat (apply mirrors_bind; [first [apply mirrors_enqueue | by apply mirrors_rounds | apply mirrors_attempt, mirrors_enqueue
    | mirrors_kind | by apply mirrors_silent]|intros ?]).
  apply mirrors_ret.
Qed.

End peer.
End link.
