(* ===== verification/FakePeer.v ===== *)
(** * The test peer (src/crawler/src/probe/fake_peer.rs)

    A peer that speaks just enough of the protocol for a probe, in four behaviours, and counts the streams it holds open. It is
    joined with the handshake of ProbeInit.v over a link, and with the connections of ConnLife.v for the count. *)

From S2P Require Import Prelude Text Net NetParse Common Record Redb RedbInstances Crawler ProbeInit Link ConnLife.

Definition FAKE_NETWORK : rstr := str "kaspa-mainnet".
Definition FAKE_TESTNET : rstr := str "kaspa-testnet-10".

Inductive Behavior : Type := IgnoreReject | CloseOnReject | Silent | WrongNetworkPeer.
#[global] Instance Behavior_eq_dec : EqDecision Behavior.
Proof. solve_decision. Defined.

(** [pb::NetAddress]. *)
Record PbNetAddress : Type := mkPbNet { pb_timestamp : Z; pb_ip : bytes; pb_port : Z }.

(** The protobuf message of an address list, and what [kaspa-p2p-lib] reads from a single IPv4 entry. *)
Class PbAddresses `{P2pLib} : Type := {
  addresses_message : list PbNetAddress → AddressesMessage;
}.
Class PbAddressesLaws `{PbAddresses} : Prop := {
  single_v4 ts b p :
    0 ≤ b < 2 ^ 32 → 0 ≤ p < 65536 →
    addresses_try_into (addresses_message [mkPbNet ts (v4_octets b) p]) = inr [(ip_address_from (V4 b), p)];
}.

Section fake_peer.
Context `{PbAddresses}.

(** [version]; the id is a fresh uuid. *)
Definition fake_version (uuid : bytes) (network : rstr) : Payload :=
  PVersion (mkVersion 7 0 0 uuid (str "/fake-kaspad/") true None network).

(** The address list it answers with. *)
Definition fake_addresses : Payload := PAddresses (addresses_message [mkPbNet 0 [8; 8; 8; 8] 16111]).

(** [message_stream] before its loop: the version, unless the peer is silent. *)
Definition fake_greeting (uuid : bytes) (behavior : Behavior) : list Payload :=
  let network := if decide (behavior = WrongNetworkPeer) then FAKE_TESTNET else FAKE_NETWORK in
  if decide (behavior ≠ Silent) then [fake_version uuid network] else [].

(** The loop's body: the replies to a message, and whether the task goes on. *)
Definition fake_reply (behavior : Behavior) (m : Sent) : list Payload * option Behavior :=
  match m with
  | SVersion _ => ([PVerack], Some behavior)
  | SReady => ([PReady; PRequestAddresses], Some behavior)
  | SRequestAddresses => ([fake_addresses], Some behavior)
  | SReject _ => if decide (behavior = CloseOnReject) then ([], None) else ([], Some behavior)
  | _ => ([], Some behavior)
  end.

Definition fake_process (uuid : bytes) (behavior : Behavior) : PeerProcess Behavior := {|
  peer_open := (behavior, fake_greeting uuid behavior);
  peer_react := fake_reply;
|}.

Section run.
Context (peer_uuid : bytes) (behavior : Behavior) (stream_ended : ProtocolError).
#[local] Instance this_process : PeerProcess Behavior := fake_process peer_uuid behavior.

#[local] Instance this_session : Session (LinkM (Q := Behavior)) := LinkM_session stream_ended.

(** A link on time and without failures: what is to be taken and the peer at the other end. *)
Definition smooth (t : Duration) (inbox : list Payload) (q : option Behavior) (l : Link) : Prop :=
  lk_inbox l = inbox ∧ lk_peer l = q ∧ lk_send_errors l = [] ∧ Forall (λ d, d ≤ t) (lk_delays l).

Lemma smooth_dequeue t ty m rest q l :
  0 ≤ t → payload_type m = ty → smooth t (m :: rest) q l →
  ∃ l', dequeue ty t l = (inr m, l') ∧ smooth t rest q l' ∧ lk_sent l' = lk_sent l.
Proof.
  intros Ht Hty (Hi & Hq & He & Hd). cbn. unfold link_dequeue. rewrite Hi. cbn. rewrite decide_True by done. eexists.
  assert (default 0 (head (lk_delays l)) ≤ t) as Hle by (destruct Hd; cbn; lia).
  rewrite decide_False by lia. split; [done|]. split; [|done]. split; [done|]. split; [done|]. split; [done|].
  cbn. by apply Forall_tail.
Qed.
Lemma smooth_enqueue t s inbox q l :
  smooth t inbox (Some q) l →
  ∃ l', enqueue s l = (inr tt, l') ∧ smooth t (inbox ++ (fake_reply q s).1) (fake_reply q s).2 l' ∧ lk_sent l' = lk_sent l ++ [s].
Proof.
  intros (Hi & Hq & He & Hd). cbn. unfold link_enqueue, deliver. rewrite He, Hq, Hi. cbn. destruct (fake_reply q s) as [out q'].
  eexists. split; [done|]. done.
Qed.
Context `{!PbAddressesLaws}.

Definition fake_address : IpAddress * Z := (ip_address_from (V4 134744072), 16111).
Lemma fake_addresses_read : ∃ m, fake_addresses = PAddresses m ∧ addresses_try_into m = inr [fake_address].
Proof. eexists. split; [done|]. apply (single_v4 0 134744072 16111); lia. Qed.

Lemma smooth_rounds t left first s q l :
  0 ≤ t → s = [] ∨ s = [fake_address] → smooth t [] (Some q) l →
  ∃ l', collect_rounds t left first s l = (inr (if left is 0%nat then s else [fake_address]), l') ∧ smooth t [] (Some q) l'.
Proof.
  intros Ht. revert first s l. induction left as [|left IH]; intros first s l Hs Hl; cbn [collect_rounds]; [by exists l|].
  destruct fake_addresses_read as (m & Hm & Hread).
  assert (∃ l0, (if first then mret tt else sleep PROBE_REPEAT_DELAY) l = (inr tt, l0) ∧ smooth t [] (Some q) l0) as (l0 & E0 & Hl0)
    by (destruct first; by eexists).
  rewrite (link_bind_ok _ _ _ _ _ E0). destruct (smooth_enqueue t SRequestAddresses [] q l0 Hl0) as (l1 & E1 & Hl1 & _).
  assert (E1' : attempt (enqueue SRequestAddresses) l0 = (inr (inr tt), l1)) by (cbn in *; unfold link_attempt; by rewrite E1).
  rewrite (link_bind_ok _ _ _ _ _ E1'). cbn in Hl1. rewrite Hm in Hl1.
  destruct (smooth_dequeue t TAddresses (PAddresses m) [] (Some q) l1 Ht eq_refl Hl1) as (l2 & E2 & Hl2 & _).
  assert (E2' : attempt (dequeue_addresses t) l1 = (inr (inr m), l2)).
  { change (link_attempt (dequeue_addresses t) l1 = (inr (inr m), l2)). unfold link_attempt, dequeue_addresses.
    by rewrite (link_bind_ok _ _ _ _ _ E2). }
  rewrite (link_bind_ok _ _ _ _ _ E2'), Hread.
  assert (set_extend s [fake_address] = [fake_address]) as ->.
  { unfold set_extend. cbn. destruct Hs as [-> | ->]; [|rewrite decide_True by set_solver; done]. by rewrite decide_False by set_solver. }
  rewrite decide_False by done. destruct (IH false [fake_address] l2) as (l' & E' & Hl'); [by right|done|].
  exists l'. split; [rewrite E'; by destruct left|done].
Qed.

(** What a wait for one kind of message gives. *)
Lemma smooth_expect {A} t ty m rest q l (f : Payload → LinkM (Q := Behavior) A) a :
  0 ≤ t → payload_type m = ty → smooth t (m :: rest) q l → (∀ l, f m l = (inr a, l)) →
  ∃ l', (dequeue ty t ≫= f) l = (inr a, l') ∧ smooth t rest q l'.
Proof.
  intros Ht Hty Hl Hf. destruct (smooth_dequeue t ty m rest q l Ht Hty Hl) as (l' & E & Hl' & _).
  exists l'. by rewrite (link_bind_ok _ _ _ _ _ E), Hf.
Qed.

Lemma smooth_subscribe t inbox q l :
  smooth t inbox q l → ∃ l', subscribe_routes l = (inr tt, l') ∧ smooth t inbox q l' ∧ lk_sent l' = lk_sent l ∧ lk_elapsed l' = lk_elapsed l.
Proof.
  assert (Hone : ∀ ts (k : LinkM (Q := Behavior) unit) l, smooth t inbox q l →
    (∀ l1, smooth t inbox q l1 → ∃ l', k l1 = (inr tt, l') ∧ smooth t inbox q l' ∧ lk_sent l' = lk_sent l1 ∧ lk_elapsed l' = lk_elapsed l1) →
    ∃ l', (subscribe ts ≫= λ _, k) l = (inr tt, l') ∧ smooth t inbox q l' ∧ lk_sent l' = lk_sent l ∧ lk_elapsed l' = lk_elapsed l).
  { intros ts k x Hx Hk. assert (E : ∃ x1, subscribe ts x = (inr tt, x1) ∧ smooth t inbox q x1 ∧ lk_sent x1 = lk_sent x ∧ lk_elapsed x1 = lk_elapsed x)
      by (by eexists).
    destruct E as (x1 & E & Hx1 & Hs & He). rewrite (link_bind_ok _ _ _ _ _ E), <-Hs, <-He. by apply Hk. }
  intros Hl. unfold subscribe_routes. do 6 (apply Hone; [assumption|clear l Hl; intros l Hl]). by exists l.
Qed.

(** From the version on, with a peer of our network. *)
Lemma smooth_do_probe cfg unix_now uuid v l :
  0 ≤ probe_timeout cfg → vm_network v = local_network cfg → smooth (probe_timeout cfg) [PVersion v] (Some behavior) l →
  ∃ l', do_probe cfg unix_now uuid l = (inr (mkProbeResult v [fake_address]), l') ∧
    smooth (probe_timeout cfg) [] (fake_reply behavior (SReject (str "DUPLICATE_CONNECTION"))).2 l'.
Proof.
  intros Ht Hnet Hl. set (t := probe_timeout cfg) in *. unfold do_probe, collect_addresses. fold t.
  destruct (smooth_subscribe t _ _ l Hl) as (l0 & E0 & Hl0 & _).
  rewrite (link_bind_ok _ _ _ _ _ E0).
  assert (∃ l', dequeue_version t l0 = (inr v, l') ∧ smooth t [] (Some behavior) l') as (l1 & E1 & Hl1) by (by eapply (smooth_expect t _ (PVersion v))).
  rewrite (link_bind_ok _ _ _ _ _ E1).
  rewrite decide_False by auto.
  assert (∃ l2, match peer_id_from_slice (vm_id v) with Some id => set_identity id | None => mret tt end l1 = (inr tt, l2) ∧
    smooth t [] (Some behavior) l2) as (l2 & E2 & Hl2) by (destruct (peer_id_from_slice _); by eexists).
  rewrite (link_bind_ok _ _ _ _ _ E2).
  edestruct (smooth_enqueue t (SVersion (our_version cfg v unix_now uuid)) [] behavior l2 Hl2) as (l3 & E3 & Hl3 & _).
  rewrite (link_bind_ok _ _ _ _ _ E3).
  assert (∃ l', dequeue_verack t l3 = (inr tt, l') ∧ smooth t [] (Some behavior) l') as (l4 & E4 & Hl4) by (by eapply (smooth_expect t _ PVerack)).
  rewrite (link_bind_ok _ _ _ _ _ E4).
  edestruct (smooth_enqueue t SVerack [] behavior l4 Hl4) as (l5 & E5 & Hl5 & _). rewrite (link_bind_ok _ _ _ _ _ E5).
  edestruct (smooth_enqueue t SReady [] behavior l5 Hl5) as (l6 & E6 & Hl6 & _). rewrite (link_bind_ok _ _ _ _ _ E6).
  assert (∃ l', dequeue_ready t l6 = (inr tt, l') ∧ smooth t [PRequestAddresses] (Some behavior) l') as (l7 & E7 & Hl7) by (by eapply (smooth_expect t _ PReady)).
  rewrite (link_bind_ok _ _ _ _ _ E7).
  assert (∃ l', dequeue_request_addresses t l7 = (inr tt, l') ∧ smooth t [] (Some behavior) l') as (l8 & E8 & Hl8) by (by eapply (smooth_expect t _ PRequestAddresses)).
  rewrite (link_bind_ok _ _ _ _ _ E8).
  edestruct (smooth_enqueue t SAddresses [] behavior l8 Hl8) as (l9 & E9 & Hl9 & _). rewrite (link_bind_ok _ _ _ _ _ E9).
  destruct (smooth_rounds t (rounds_of cfg) true [] behavior l9 Ht (or_introl eq_refl) Hl9) as (l10 & E10 & Hl10).
  rewrite (link_bind_ok _ _ _ _ _ E10).
  destruct (smooth_enqueue t (SReject (str "DUPLICATE_CONNECTION")) [] behavior l10 Hl10) as (l11 & E11 & Hl11 & _).
  assert (E11' : attempt (enqueue (SReject (str "DUPLICATE_CONNECTION"))) l10 = (inr (inr tt), l11))
    by (cbn in *; unfold link_attempt; by rewrite E11).
  rewrite (link_bind_ok _ _ _ _ _ E11'). eexists. split; [|].
  - cbn. unfold mbind, LinkM_bind, mret, LinkM_ret. f_equal. unfold rounds_of. by destruct (Z.to_nat _) eqn:E; [lia|].
  - destruct behavior; exact Hl11.
Qed.

Lemma smooth_wrong_network cfg unix_now uuid v l :
  0 ≤ probe_timeout cfg → vm_network v ≠ local_network cfg → smooth (probe_timeout cfg) [PVersion v] (Some behavior) l →
  ∃ l', do_probe cfg unix_now uuid l = (inl (WrongNetwork (local_network cfg) (vm_network v)), l') ∧ lk_sent l' = lk_sent l.
Proof.
  intros Ht Hnet Hl. unfold do_probe.
  destruct (smooth_subscribe _ _ _ l Hl) as (l0 & E0 & Hl0 & Hs0 & _).
  rewrite (link_bind_ok _ _ _ _ _ E0).
  destruct (smooth_dequeue _ TVersion (PVersion v) _ _ _ Ht eq_refl Hl0) as (l1 & E1 & Hl1 & Hs1).
  assert (E1' : dequeue_version (probe_timeout cfg) l0 = (inr v, l1)) by (unfold dequeue_version; by rewrite (link_bind_ok _ _ _ _ _ E1)).
  rewrite (link_bind_ok _ _ _ _ _ E1'), decide_True by done. exists l1. split; [done|congruence].
Qed.

Lemma smooth_silent cfg unix_now uuid l :
  smooth (probe_timeout cfg) [] (Some behavior) l →
  ∃ l', do_probe cfg unix_now uuid l = (inl (ProtoTimeout (probe_timeout cfg)), l') ∧ lk_sent l' = lk_sent l ∧
    lk_elapsed l' = lk_elapsed l + probe_timeout cfg.
Proof.
  intros Hl. unfold do_probe. destruct (smooth_subscribe _ _ _ l Hl) as (l0 & E0 & (Hi & Hq & _) & Hs0 & He0).
  rewrite (link_bind_ok _ _ _ _ _ E0). exists (link_wait (probe_timeout cfg) l0). split; [|split; [exact Hs0|cbn; by rewrite He0]].
  unfold dequeue_version, mbind, LinkM_bind. cbn [dequeue this_session LinkM_session]. unfold link_dequeue. by rewrite Hi, Hq.
Qed.

(** A handshake with a new stream of this peer. *)
Definition probe_fake (cfg : ProbeInitializerConfig) (unix_now : Z) (uuid : bytes) (delays : list Duration)
    : (ProtocolError + ProbeResult) * Link :=
  do_probe (M := LinkM) cfg unix_now uuid (open_link delays []).
End run.

(** C25: what a probe makes of the test peer. As long as its messages arrive in time, a peer of our network is probed with success
    whatever the number of rounds: its version and the one address it gives, and it hangs up on the reject exactly if it is the
    kind that does. A silent peer costs one timeout and a peer of another network is refused, and neither is sent anything. *)
Theorem fake_peer_probed `{!PbAddressesLaws} peer_uuid behavior stream_ended cfg unix_now uuid delays :
  0 ≤ probe_timeout cfg → local_network cfg = FAKE_NETWORK → Forall (λ d, d ≤ probe_timeout cfg) delays →
  let v := mkVersion 7 0 0 peer_uuid (str "/fake-kaspad/") true None FAKE_NETWORK in
  let '(res, l) := probe_fake peer_uuid behavior stream_ended cfg unix_now uuid delays in
  match behavior with
  | IgnoreReject => res = inr (mkProbeResult v [fake_address]) ∧ lk_peer l = Some IgnoreReject
  | CloseOnReject => res = inr (mkProbeResult v [fake_address]) ∧ lk_peer l = None
  | Silent => res = inl (ProtoTimeout (probe_timeout cfg)) ∧ lk_sent l = [] ∧ lk_elapsed l = probe_timeout cfg
  | WrongNetworkPeer => res = inl (WrongNetwork FAKE_NETWORK FAKE_TESTNET) ∧ lk_sent l = []
  end.
Proof.
  intros Ht Hnet Hd v. unfold probe_fake. destruct behavior.
  - edestruct (smooth_do_probe peer_uuid IgnoreReject stream_ended cfg unix_now uuid v) as (l' & -> & (_ & -> & _)); done.
  - edestruct (smooth_do_probe peer_uuid CloseOnReject stream_ended cfg unix_now uuid v) as (l' & -> & (_ & -> & _)); done.
  - edestruct (smooth_silent peer_uuid Silent stream_ended cfg unix_now uuid) as (l' & -> & Hs & He); [|by rewrite He].
    split; [reflexivity|]. split; [reflexivity|]. split; [reflexivity|exact Hd].
  - edestruct (smooth_wrong_network peer_uuid WrongNetworkPeer stream_ended cfg unix_now uuid
      (mkVersion 7 0 0 peer_uuid (str "/fake-kaspad/") true None FAKE_TESTNET)) as (l' & -> & Hs); [done|by rewrite Hnet|done|].
    by rewrite Hnet.
Qed.

(** ** Open streams *)

(** Any number of probes of one test peer: their connections, the stream tasks that run, and the counter. *)
Record Lab : Type := mkLab { lab_conns : gmap nat ConnLife; lab_streams : gset nat; open_streams : Z }.
Definition new_lab : Lab := mkLab ∅ ∅ 0.

(** [message_stream]: the counter goes up and the task is spawned with the guard. *)
Definition message_stream (i : nat) (lab : Lab) : Lab :=
  mkLab (lab_conns lab) ({[i]} ∪ lab_streams lab) (u64_fetch_add (open_streams lab) 1).
(** The task returns: [StreamGuard::drop]. *)
Definition drop_guard (i : nat) (lab : Lab) : Lab :=
  mkLab (lab_conns lab) (lab_streams lab ∖ {[i]}) (u64_fetch_sub (open_streams lab) 1).
Definition set_conn (i : nat) (s : ConnLife) (lab : Lab) : Lab :=
  mkLab (<[i := s]> (lab_conns lab)) (lab_streams lab) (open_streams lab).

Section lab.
Context (cfg : ProbeInitializerConfig) (lifetime : Duration) (unix_now : Z) (uuid : bytes).
Abbreviation conn_step := (cstep cfg lifetime unix_now uuid) (only parsing).

(** A stream opens when a probe's connection does. Its task returns when the client has ended the stream, which closing the
    router does, or on its own account, on the reject or when it cannot send. *)
Inductive lstep : Lab → Lab → Prop :=
  | l_probe lab i :
      lab_conns lab !! i = None → lstep lab (set_conn i new_connection lab)
  | l_connect lab i s s' :
      lab_conns lab !! i = Some s → cn_router s = NoRouter → conn_step s s' → cn_router s' ≠ NoRouter →
      lstep lab (message_stream i (set_conn i s' lab))
  | l_conn lab i s s' :
      lab_conns lab !! i = Some s → conn_step s s' → (cn_router s = NoRouter → cn_router s' = NoRouter) →
      lstep lab (set_conn i s' lab)
  | l_ended lab i s :
      i ∈ lab_streams lab → lab_conns lab !! i = Some s → cn_router s = RouterClosed → lstep lab (drop_guard i lab)
  | l_returned lab i :
      i ∈ lab_streams lab → lstep lab (drop_guard i lab).

Record lab_inv (lab : Lab) : Prop := {
  lab_count : open_streams lab = u64_wrap (Z.of_nat (size (lab_streams lab)));
  lab_reach : ∀ i s, lab_conns lab !! i = Some s → creachable cfg lifetime unix_now uuid s;
  lab_owned : ∀ i, i ∈ lab_streams lab → ∃ s, lab_conns lab !! i = Some s ∧ cn_router s ≠ NoRouter;
}.

Context (Ht : 0 ≤ probe_timeout cfg) (Hlife : max_connection_lifetime cfg = Some lifetime).

Lemma lab_inv_drop lab i : lab_inv lab → i ∈ lab_streams lab → lab_inv (drop_guard i lab).
Proof.
  intros [Hc Hr Ho] Hi. split; cbn; [|done|set_solver]. rewrite Hc, size_difference by set_solver. rewrite size_singleton.
  assert (size ({[i]} : gset nat) ≤ size (lab_streams lab))%nat as Hle by (apply subseteq_size; set_solver).
  rewrite size_singleton in Hle.
  unfold u64_fetch_sub, u64_wrap. rewrite Zminus_mod_idemp_l. f_equal. lia.
Qed.

Lemma lab_inv_step lab lab' : lab_inv lab → lstep lab lab' → lab_inv lab'.
Proof.
  intros [Hc Hr Ho] Hst. destruct Hst as [lab i Hn|lab i s s' Hs Hno Hst Hro|lab i s s' Hs Hst Hno|lab i s Hi Hs Hcl|lab i Hi].
  - split; cbn; [done| |].
    + intros j s [[<- <-]|[_ Hj]]%lookup_insert_Some; [apply rtc_refl|by eapply Hr].
    + intros j Hj. destruct (Ho j Hj) as (s & Hs & Hne). exists s. rewrite lookup_insert_ne; [done|]. intros <-. congruence.
  - assert (Hni : i ∉ lab_streams lab) by (intros Hi; destruct (Ho i Hi) as (s1 & Hs1 & Hne); congruence). split; cbn.
    + rewrite Hc, size_union by set_solver. rewrite size_singleton. unfold u64_fetch_add, u64_wrap.
      rewrite Zplus_mod_idemp_l. f_equal. lia.
    + intros j s1 [[<- <-]|[_ Hj]]%lookup_insert_Some; [|by eapply Hr]. eapply rtc_r; [by eapply Hr|done].
    + intros j. rewrite elem_of_union, elem_of_singleton. intros [->|Hj]; [exists s'; by rewrite lookup_insert_eq|].
      destruct (Ho j Hj) as (s1 & Hs1 & Hne). exists s1. rewrite lookup_insert_ne; [done|]. intros <-. done.
  - split; cbn; [done| |].
    + intros j s1 [[<- <-]|[_ Hj]]%lookup_insert_Some; [|by eapply Hr]. eapply rtc_r; [by eapply Hr|done].
    + intros j Hj. destruct (Ho j Hj) as (s1 & Hs1 & Hne). destruct (decide (i = j)) as [<-|Hij].
      * exists s'. rewrite lookup_insert_eq. split; [done|]. eapply router_stays; [|done]. congruence.
      * exists s1. by rewrite lookup_insert_ne.
  - by apply lab_inv_drop.
  - by apply lab_inv_drop.
Qed.

Lemma lab_inv_new : lab_inv new_lab.
Proof. split; cbn; [done|intros i s; by rewrite lookup_empty|set_solver]. Qed.
Lemma lab_inv_steps lab lab' : rtc lstep lab lab' → lab_inv lab → lab_inv lab'.
Proof. induction 1 as [|x y z Hxy _ IH]; [done|]. intros Hx. by eapply IH, lab_inv_step. Qed.

(** The test peer's count is exact, and it drops to zero. At any moment it is the number of stream tasks that run; and when every
    probe has ended with its tasks, whatever the peer's behaviour and wherever the probe was cancelled, each of these has its client's end
    of the stream to see, so none stays. *)
Theorem fake_peer_settles lab :
  rtc lstep new_lab lab →
  open_streams lab = u64_wrap (Z.of_nat (size (lab_streams lab))) ∧
  ((∀ i s, lab_conns lab !! i = Some s → finished s) →
   ∀ i, i ∈ lab_streams lab → ∃ s, lab_conns lab !! i = Some s ∧ cn_router s = RouterClosed).
Proof.
  intros Hrun. assert (Hinv : lab_inv lab) by (by eapply lab_inv_steps, lab_inv_new).
  split; [apply Hinv|]. intros Hfin i Hi. destruct (lab_owned _ Hinv i Hi) as (s & Hs & Hne). exists s. split; [done|].
  pose proof (connection_closed cfg lifetime unix_now uuid Ht Hlife s (lab_reach _ Hinv i s Hs) (Hfin i s Hs)).
  by destruct (cn_router s).
Qed.
End lab.
End fake_peer.

(** ** Witnesses *)

#[local] Existing Instance kaspa_net_std.
#[local] Existing Instance p2p_std.

Definition v4_of_bytes (bs : bytes) : Z := foldl (λ acc x, acc * 256 + x) 0 bs.
#[local] Instance pb_std : PbAddresses := {| addresses_message := map (λ a, (V4 (v4_of_bytes (pb_ip a)), pb_port a)) |}.
#[local] Instance pb_std_laws : PbAddressesLaws.
Proof.
  split. intros ts b p Hb Hp. cbn. do 3 f_equal. unfold v4_of_bytes, v4_octets. cbn. f_equal.
  Z.div_mod_to_equations. lia.
Qed.

Lemma fake_peer_probed_witness :
  (probe_fake [] IgnoreReject (OtherProtocol []) init_cfg 1000 [] [from_millis 10; from_secs 5]).1 =
    inr (mkProbeResult (mkVersion 7 0 0 [] (str "/fake-kaspad/") true None FAKE_NETWORK) [(V4 134744072, 16111)]).
Proof.
  pose proof (fake_peer_probed [] IgnoreReject (OtherProtocol []) init_cfg 1000 [] [from_millis 10; from_secs 5]) as Hp.
  destruct (probe_fake _ _ _ _ _ _ _) as [res l]. apply Hp; [by vm_compute|reflexivity|].
  repeat (apply Forall_cons_2; [by vm_compute|]). apply Forall_nil_2.
Defined.

(** One probe, cancelled: its stream is open until the watchdog has run. *)
Definition lab1 : Lab := message_stream 0 (set_conn 0 greeted (set_conn 0 new_connection new_lab)).
Definition cancelled : ConnLife := set_phase CCancelled greeted.
Definition lab2 : Lab := set_conn 0 orphan (set_conn 0 (at_time lifetime0 cancelled) (set_conn 0 cancelled lab1)).

Lemma lab2_run : rtc (lstep init_cfg lifetime0 1000 []) new_lab lab2.
Proof.
  eapply rtc_l; [by apply (l_probe _ _ _ _ _ 0)|].
  eapply rtc_l; [eapply (l_connect _ _ _ _ _ 0 new_connection greeted); [reflexivity|reflexivity| |discriminate]|].
  { left. left. apply greeted_step. }
  eapply rtc_l; [eapply (l_conn _ _ _ _ _ 0 greeted cancelled); [reflexivity| |discriminate]|].
  { left. right. apply c_cancelled. exact I. }
  eapply rtc_l; [eapply (l_conn _ _ _ _ _ 0 cancelled (at_time lifetime0 cancelled)); [reflexivity| |discriminate]|].
  { right. apply c_tick; [by vm_compute|exact I]. }
  apply rtc_once. eapply (l_conn _ _ _ _ _ 0 (at_time lifetime0 cancelled) orphan); [reflexivity| |discriminate].
  left. left. apply (c_watchdog _ _ _ _ (at_time lifetime0 cancelled) lifetime0); [reflexivity|by vm_compute].
Qed.

Lemma fake_peer_settles_witness : open_streams lab2 = 1 ∧ ∃ s, lab_conns lab2 !! 0%nat = Some s ∧ cn_router s = RouterClosed.
Proof.
  destruct (fake_peer_settles init_cfg lifetime0 1000 [] ltac:(by vm_compute) ltac:(by vm_compute) lab2 lab2_run) as [Hc Hs].
  split; [rewrite Hc; by vm_compute|]. apply Hs.
  - intros i s Hi. unfold lab2, lab1, set_conn, message_stream in Hi. cbn [lab_conns] in Hi.
    apply lookup_insert_Some in Hi as [[_ <-]|[Hne Hi]]; [split; [intros []|]; split; [discriminate|exact I]|].
    exfalso. by do 4 rewrite lookup_insert_ne in Hi by done.
  - unfold lab2, lab1. cbn. set_solver.
Defined.

