(* ===== verification/WebBase.v ===== *)
(** * The HTTP API: counters, cache, authentication, errors

    src/web/src/metrics.rs, src/web/src/runtime/peers_cache.rs, src/web/src/http/auth.rs,
    src/web/src/http/request.rs, src/web/src/error/api.rs, src/web/src/config.rs,
    src/web/src/state.rs and src/web/src/http/router.rs. *)

From S2P Require Import Prelude Text Net NetParse Common RateLimit Record.

(** ** Counters *)

Record WebMetrics : Type := mkWebMetrics {
  w_requests : Z;
  w_accepted : Z;
  w_rejected : Z;
  post_rejected_auth : Z;
  post_rejected_ratelimit : Z;
  post_rejected_format : Z;
  post_rejected_unroutable : Z;
  post_rejected_probe : Z;
}.

(** [WebMetrics::new]. *)
Definition web_metrics_new : WebMetrics := mkWebMetrics 0 0 0 0 0 0 0 0.

Inductive PostRejection : Type := RejAuth | RejRateLimit | RejFormat | RejUnroutable | RejProbe.

(** [record_request] and [record_accepted]. *)
Definition record_request (m : WebMetrics) : WebMetrics :=
  mkWebMetrics (u64_fetch_add (w_requests m) 1) (w_accepted m) (w_rejected m) (post_rejected_auth m)
    (post_rejected_ratelimit m) (post_rejected_format m) (post_rejected_unroutable m) (post_rejected_probe m).
Definition record_accepted (m : WebMetrics) : WebMetrics :=
  mkWebMetrics (w_requests m) (u64_fetch_add (w_accepted m) 1) (w_rejected m) (post_rejected_auth m)
    (post_rejected_ratelimit m) (post_rejected_format m) (post_rejected_unroutable m) (post_rejected_probe m).

(** [reason.counter(self).fetch_add(1)]. *)
Definition bump_counter (reason : PostRejection) (m : WebMetrics) : WebMetrics :=
  let '(mkWebMetrics rq ac rj au rl fo un pr) := m in
  match reason with
  | RejAuth => mkWebMetrics rq ac rj (u64_fetch_add au 1) rl fo un pr
  | RejRateLimit => mkWebMetrics rq ac rj au (u64_fetch_add rl 1) fo un pr
  | RejFormat => mkWebMetrics rq ac rj au rl (u64_fetch_add fo 1) un pr
  | RejUnroutable => mkWebMetrics rq ac rj au rl fo (u64_fetch_add un 1) pr
  | RejProbe => mkWebMetrics rq ac rj au rl fo un (u64_fetch_add pr 1)
  end.

(** [record_post_rejection]. *)
Definition record_post_rejection (reason : PostRejection) (m : WebMetrics) : WebMetrics :=
  bump_counter reason
    (mkWebMetrics (w_requests m) (w_accepted m) (u64_fetch_add (w_rejected m) 1) (post_rejected_auth m)
      (post_rejected_ratelimit m) (post_rejected_format m) (post_rejected_unroutable m) (post_rejected_probe m)).

(** [snapshot] and [restore]: [WebSnapshot] has the fields of [WebMetrics]. *)
Abbreviation WebSnapshot := WebMetrics (only parsing).
Definition web_snapshot (m : WebMetrics) : WebSnapshot := m.
Definition web_restore (snap : WebSnapshot) (m : WebMetrics) : WebMetrics := snap.

(** ** Errors *)

Inductive ApiError : Type :=
  | BadRequest (msg : rstr)
  | NotFound (msg : rstr)
  | Unauthorized (msg : rstr)
  | RateLimited (msg : rstr)
  | BadGateway (msg : rstr)
  | Internal (msg : rstr).

(** [ApiError::status] and [ApiError::message]. *)
Definition status (e : ApiError) : Z :=
  match e with
  | BadRequest _ => 400
  | NotFound _ => 404
  | Unauthorized _ => 401
  | RateLimited _ => 429
  | BadGateway _ => 502
  | Internal _ => 500
  end.
Definition message (e : ApiError) : rstr :=
  match e with
  | BadRequest m | NotFound m | Unauthorized m | RateLimited m | BadGateway m | Internal m => m
  end.

(** ** The response cache of [GET /peers] *)

Record Key : Type := mkKey { k_all : bool; k_expose : bool }.
#[global] Instance Key_eq_dec : EqDecision Key.
Proof. solve_decision. Defined.

Record Entry : Type := mkEntry { e_key : Key; e_body : bytes; e_inserted : Instant }.

Record PeersCache : Type := mkPeersCache { c_ttl : Duration; c_entries : list Entry }.

Definition PEERS_CACHE_TTL : Duration := from_secs 5.

(** [PeersCache::new]. *)
Definition peers_cache_new (ttl : Duration) : PeersCache := mkPeersCache ttl [].

(** [PeersCache::get]: expired entries are dropped first. *)
Definition peers_cache_get (key : Key) (now : Instant) (c : PeersCache) : option bytes * PeersCache :=
  let entries := filter (λ e, duration_since now (e_inserted e) < c_ttl c) (c_entries c) in
  ((λ ie : nat * Entry, e_body ie.2) <$> list_find (λ e, e_key e = key) entries, mkPeersCache (c_ttl c) entries).

(** [PeersCache::put]. *)
Definition peers_cache_put (key : Key) (body : bytes) (now : Instant) (c : PeersCache) : PeersCache :=
  mkPeersCache (c_ttl c) (filter (λ e, e_key e ≠ key) (c_entries c) ++ [mkEntry key body now]).

(** ** Requests *)

(** Header access of the [http] crate: the first value of a header, if it is visible ASCII. *)
Class HttpLib : Type := {
  HeaderMap : Type;
  header_str : HeaderMap → rstr → option rstr;   (** [headers.get(name).and_then(|v| v.to_str().ok())] *)
}.

Section request.
Context `{HttpLib}.

Definition X_API_KEY : rstr := str "x-api-key".
Definition X_FORWARDED_FOR : rstr := str "x-forwarded-for".

(** [authenticated]. *)
Definition authenticated (headers : HeaderMap) (api_key : rstr) : bool :=
  bool_decide (header_str headers X_API_KEY = Some api_key).

(** [client_ip]: the first entry of [X-Forwarded-For] when it is an address. *)
Definition client_ip (headers : HeaderMap) (fallback : SocketAddr) : IpAddr :=
  match raw ← header_str headers X_FORWARDED_FOR; ip_from_str (trim (split_first 44 raw)) with
  | Some a => a
  | None => socket_ip fallback
  end.
End request.

(** ** Configuration and state *)

Section config.
Context `{Semver}.

(** [WebConfig]; paths are strings. *)
Record WebConfig : Type := mkWebConfig {
  web_listen : list SocketAddr;
  api_key : rstr;
  allowed_origins : list rstr;
  post_rate_limit : Z;
  web_rate_limit_window : Duration;
  network_default_port : Z;
  web_strict_port : bool;
  api_prefix : rstr;
  db_path : rstr;
  web_stale_good : Duration;
  web_min_protocol_version : option Z;
  web_min_user_agent : option Version;
  service_name : rstr;
  service_version : rstr;
  service_commit : rstr;
  service_network : rstr;
  web_tls_cert : option rstr;
  web_tls_key : option rstr;
}.
End config.

(** The mutable part of [AppState]; the store is in the [World]. *)
Record WebState : Type := mkWebState {
  ws_metrics : WebMetrics;
  ws_limiter : RateLimiter;
  ws_cache : PeersCache;
}.

Definition with_ws_metrics (f : WebMetrics → WebMetrics) (st : WebState) : WebState :=
  mkWebState (f (ws_metrics st)) (ws_limiter st) (ws_cache st).
Definition with_ws_cache (c : PeersCache) (st : WebState) : WebState :=
  mkWebState (ws_metrics st) (ws_limiter st) c.
Definition with_ws_limiter (rl : RateLimiter) (st : WebState) : WebState :=
  mkWebState (ws_metrics st) rl (ws_cache st).

(** [AppStateBuilder::build], with the counters the binary passes in. *)
Definition app_state_build `{Semver} (cfg : WebConfig) (metrics : option WebMetrics) : WebState :=
  mkWebState (default web_metrics_new metrics)
    (new (post_rate_limit cfg) (web_rate_limit_window cfg)) (peers_cache_new PEERS_CACHE_TTL).

(** ** Routes *)

Inductive Method : Type := GET | POST | DELETE.
Inductive Endpoint : Type := EpHealth | EpMetrics | EpList | EpSubmit | EpGet | EpDelete.
#[global] Instance Endpoint_eq_dec : EqDecision Endpoint.
Proof. solve_decision. Defined.

Record Route : Type := mkRoute { r_method : Method; r_path : rstr; r_endpoint : Endpoint; r_gated : bool }.

(** [normalize_prefix]. *)
Definition normalize_prefix (raw : rstr) : rstr :=
  let trimmed := trim_end_matches (λ c, bool_decide (c = 47)) (trim raw) in
  match trimmed with
  | [] => []
  | c :: _ => if decide (c = 47) then trimmed else 47 :: trimmed
  end.

(** The route table of [build_router]: the routes of [open] and [gated], the latter behind
    [require_api_key]. *)
Definition build_router (raw_prefix : rstr) : list Route :=
  let prefix := normalize_prefix raw_prefix in
  [ mkRoute GET (prefix ++ str "/health") EpHealth false;
    mkRoute GET (prefix ++ str "/metrics") EpMetrics false;
    mkRoute GET (prefix ++ str "/peers") EpList false;
    mkRoute POST (prefix ++ str "/peers") EpSubmit true;
    mkRoute GET (prefix ++ str "/peers/{addr_port}") EpGet true;
    mkRoute DELETE (prefix ++ str "/peers/{addr_port}") EpDelete true ].

(** Whether the route of an endpoint is behind the key check. *)
Definition gated (raw_prefix : rstr) (ep : Endpoint) : bool :=
  existsb (λ r, bool_decide (r_endpoint r = ep) && r_gated r) (build_router raw_prefix).
