(* ===== verification/SysInfo.v ===== *)
(** * Process and disk figures (src/web/src/runtime/system.rs, src/web/src/dto/system.rs)

    What [/metrics] tells about the process and about the file system that holds the database, computed from what the operating
    system reports. [f32] arithmetic is the Standard Library's IEEE 754 model at 24 bits of precision; paths are compared by
    components, as [std::path] does. *)

From Stdlib Require Import SpecFloat.
From S2P Require Import Prelude Text.

(** ** Records *)

Definition F32 : Type := spec_float.

Record ProcessInfo : Type := mkProcessInfo {
  cpu_used_percent : F32;
  memory_used_bytes : Z;
  memory_used_pretty : rstr;
  memory_free_bytes : Z;
  memory_free_pretty : rstr;
}.

Record DiskInfo : Type := mkDiskInfo {
  di_db_path : rstr;
  di_db_size_bytes : Z;
  di_db_size_pretty : rstr;
  di_mount_point : rstr;
  di_total_bytes : Z;
  di_total_pretty : rstr;
  di_free_bytes : Z;
  di_free_pretty : rstr;
}.

(** [bytesize::ByteSize]'s [Display]. *)
Class ByteSize : Type := byte_size : Z → rstr.

(** What [sysinfo] and the cgroup files report about the process: its usage if it is listed, the available and the free memory,
    and the contents of [memory.max] and [memory.current] where they can be read. *)
Record ProcessReads : Type := mkProcessReads {
  pr_process : option (F32 * Z);
  pr_available : Z;
  pr_free : Z;
  pr_memory_max : option rstr;
  pr_memory_current : option rstr;
}.

(** A mounted file system, and what is read about the database file. *)
Record MountedDisk : Type := mkDisk { disk_mount : rstr; disk_available : Z; disk_total : Z }.
Record DiskReads : Type := mkDiskReads {
  dr_len : option Z;
  dr_canonical : option rstr;
  dr_disks : list MountedDisk;
}.

(** ** [f32] *)

Definition f32_prec : Z := 24.
Definition f32_emax : Z := 128.
Definition f32_of_int (n : Z) : F32 := binary_normalize f32_prec f32_emax n 0 false.

(** [f32::round]: to the nearest integer, halves away from zero. *)
Definition f32_round (x : F32) : F32 :=
  match x with
  | S754_finite s m e =>
      if decide (0 ≤ e) then x
      else binary_normalize f32_prec f32_emax (cond_Zopp s ((Zpos m + 2 ^ (- e - 1)) / 2 ^ (- e))) 0 s
  | _ => x
  end.

(** [(x * 10.0).round() / 10.0]. *)
Definition round_tenth (x : F32) : F32 :=
  SFdiv f32_prec f32_emax (f32_round (SFmul f32_prec f32_emax x (f32_of_int 10))) (f32_of_int 10).

(** ** [collect_process] *)

(** [cgroup_free_memory], on Linux. *)
Definition cgroup_free_memory (r : ProcessReads) : option Z :=
  smax ← pr_memory_max r; max ← parse_uint U64_MAX (trim smax);
  scur ← pr_memory_current r; current ← parse_uint U64_MAX (trim scur);
  Some (Z.max 0 (max - current)).

Section figures.
Context `{ByteSize}.

Definition collect_process (r : ProcessReads) : ProcessInfo :=
  let '(cpu, mem_used) := match pr_process r with Some (usage, memory) => (round_tenth usage, memory) | None => (S754_zero false, 0) end in
  let mem_free :=
    match cgroup_free_memory r with
    | Some free => free
    | None => if decide (0 < pr_available r) then pr_available r else pr_free r
    end in
  mkProcessInfo cpu mem_used (byte_size mem_used) mem_free (byte_size mem_free).

(** ** [collect_disk] *)

(** [std::path::Component], on Unix. *)
Inductive Component : Type := RootDir | CurDir | ParentDir | Normal (s : rstr).
#[global] Instance Component_eq_dec : EqDecision Component.
Proof. solve_decision. Defined.

#[global] Instance Normal_inj : Inj eq eq Normal.
Proof. by intros ?? [= ->]. Qed.

(** A segment between separators; empty ones and [.] are skipped. *)
Definition segment (s : rstr) : option Component :=
  if decide (s = [] ∨ s = [46]) then None else if decide (s = [46; 46]) then Some ParentDir else Some (Normal s).

(** [Path::components]: a leading [.] of a relative path is kept. *)
Definition components (p : rstr) : list Component :=
  match p with
  | 47 :: p' => RootDir :: omap segment (str_split 47 p')
  | _ =>
      match str_split 47 p with
      | [46] :: segs => CurDir :: omap segment segs
      | segs => omap segment segs
      end
  end.

(** [Path::starts_with]. *)
Definition path_starts_with (p base : rstr) : bool := bool_decide (components base `prefix_of` components p).

(** [Iterator::max_by_key]: the last of the greatest. *)
Definition max_by_key {A} (key : A → Z) (l : list A) : option A :=
  fold_left (λ best a, match best with None => Some a | Some b => if decide (key a < key b) then Some b else Some a end) l None.

Definition os_str_len (p : rstr) : Z := Z.of_nat (length (as_bytes p)).

Definition collect_disk (db_path : rstr) (r : DiskReads) : DiskInfo :=
  let db_size_bytes := default 0 (dr_len r) in
  let canonical := default db_path (dr_canonical r) in
  let best := max_by_key (λ d, os_str_len (disk_mount d)) (filter (λ d, path_starts_with canonical (disk_mount d) = true) (dr_disks r)) in
  let '(free_bytes, total_bytes, mount) :=
    match best with None => (0, 0, []) | Some d => (disk_available d, disk_total d, disk_mount d) end in
  mkDiskInfo db_path db_size_bytes (byte_size db_size_bytes) mount total_bytes (byte_size total_bytes) free_bytes (byte_size free_bytes).

(** ** Lemmas *)

Lemma max_by_key_spec {A} (key : A → Z) l :
  match max_by_key key l with
  | None => l = []
  | Some b => b ∈ l ∧ ∀ a, a ∈ l → key a ≤ key b
  end.
Proof.
  unfold max_by_key. induction l as [|a l IH] using rev_ind; [done|].
  rewrite fold_left_app. cbn [fold_left]. destruct (fold_left _ l None) as [b|].
  - destruct IH as [Hb Hmax]. case_decide; split; try set_solver.
    + intros c [?%Hmax|?%list_elem_of_singleton]%elem_of_app; subst; lia.
    + intros c [?%Hmax|?%list_elem_of_singleton]%elem_of_app; subst; lia.
  - subst. set_solver.
Qed.

(** An absolute path in the form the system reports mount points: the root, or names each after a separator. *)
Definition path_name (s : rstr) : Prop := s ≠ [] ∧ s ≠ [46] ∧ s ≠ [46; 46] ∧ 47 ∉ s.
Definition render_path (names : list rstr) : rstr := match names with [] => [47] | _ => names ≫= λ s, 47 :: s end.
Definition normal_path (p : rstr) : Prop := ∃ names, Forall path_name names ∧ p = render_path names.

Lemma str_split_name s p : 47 ∉ s → str_split 47 (s ++ 47 :: p) = s :: str_split 47 p.
Proof.
  induction s as [|c s IH]; intros Hs; cbn; [done|]. rewrite decide_False by set_solver.
  rewrite IH by set_solver. done.
Qed.
Lemma str_split_last s : 47 ∉ s → str_split 47 s = [s].
Proof. induction s as [|c s IH]; intros Hs; cbn; [done|]. rewrite decide_False by set_solver. by rewrite IH by set_solver. Qed.

Lemma segment_name s : path_name s → segment s = Some (Normal s).
Proof. intros (? & ? & ? & _). unfold segment. rewrite decide_False by naive_solver. by rewrite decide_False. Qed.

Lemma components_render names : Forall path_name names → components (render_path names) = RootDir :: (Normal <$> names).
Proof.
  destruct names as [|s names]; [done|]. intros [Hs Hn]%Forall_cons. cbn. f_equal.
  revert s Hs. induction Hn as [|s' names Hs' _ IH]; intros s Hs; cbn.
  - rewrite app_nil_r, str_split_last by apply Hs. cbn. by rewrite segment_name.
  - rewrite str_split_name by apply Hs. cbn. rewrite segment_name by done. f_equal. by apply IH.
Qed.

Lemma os_str_len_app a b : os_str_len (a ++ b) = os_str_len a + os_str_len b.
Proof. unfold os_str_len, as_bytes. rewrite bind_app, length_app. lia. Qed.
Lemma os_str_len_nonneg a : 0 ≤ os_str_len a.
Proof. unfold os_str_len. lia. Qed.
Lemma os_str_len_pos a : a ≠ [] → 0 < os_str_len a.
Proof.
  destruct a as [|c a]; [done|]. intros _. change (c :: a) with ([c] ++ a). rewrite os_str_len_app.
  pose proof (os_str_len_nonneg a). cut (0 < os_str_len [c]); [lia|].
  unfold os_str_len, as_bytes. cbn. rewrite app_nil_r. unfold utf8_char. repeat case_decide; cbn; lia.
Qed.

(** A longer list of names gives a longer path. *)
Lemma render_path_strict ns ns' : Forall path_name ns' → ns `prefix_of` ns' → ns ≠ ns' → os_str_len (render_path ns) < os_str_len (render_path ns').
Proof.
  intros Hp [k ->] Hne. destruct k as [|s k]; [by rewrite app_nil_r in Hne|].
  apply Forall_app in Hp as [_ [Hs _]%Forall_cons]. pose proof (os_str_len_pos s (proj1 Hs)).
  assert (os_str_len ((s :: k) ≫= λ s, 47 :: s) > os_str_len [47]) as Hk.
  { rewrite bind_cons. change (47 :: s) with ([47] ++ s). rewrite !os_str_len_app.
    pose proof (os_str_len_nonneg (k ≫= λ s, 47 :: s)). lia. }
  assert (os_str_len [47] = 1) by reflexivity.
  destruct ns as [|n ns]; unfold render_path; cbn [app]; [lia|].
  change (n :: (ns ++ s :: k)) with ((n :: ns) ++ s :: k). rewrite bind_app, os_str_len_app. lia.
Qed.

(** Of two mount points over the same path, the one with the longer name is the inner one. *)
Lemma longer_mount_is_inner p m m' :
  normal_path m → normal_path m' → path_starts_with p m = true → path_starts_with p m' = true → os_str_len m' ≤ os_str_len m →
  components m' `prefix_of` components m.
Proof.
  intros (ns & Hns & ->) (ns' & Hns' & ->) H1%bool_decide_eq_true H2%bool_decide_eq_true Hle.
  destruct (prefix_weak_total _ _ _ H1 H2) as [Hpre|Hpre]; [|done].
  rewrite !components_render in Hpre by done. apply prefix_cons_inv_2 in Hpre.
  assert (ns `prefix_of` ns') as Hpre'.
  { destruct Hpre as [k Hk]. apply fmap_app_inv in Hk as (l1 & l2 & E1 & _ & ->).
    apply (inj (fmap Normal : list rstr → list Component)) in E1 as ->. by exists l2. }
  destruct (decide (ns = ns')) as [->|Hne]; [done|].
  pose proof (render_path_strict _ _ Hns' Hpre' Hne). lia.
Qed.

(** ** Claims *)

(** [/metrics] reports the file system that really holds the database. Where mount points are reported as absolute paths in
    normal form, the mount, its free and its total bytes are those of a mounted disk that contains the database's canonical
    path, and every other mounted disk that contains it is an outer one: its path is a prefix, by components, of the reported
    mount point. Without such a disk the figures are zero and the mount point is empty. *)
Theorem collect_disk_innermost db_path (r : DiskReads) :
  Forall (λ d, normal_path (disk_mount d)) (dr_disks r) →
  let i := collect_disk db_path r in
  let contains d := path_starts_with (default db_path (dr_canonical r)) (disk_mount d) = true in
  (∃ d, d ∈ dr_disks r ∧ contains d ∧ di_mount_point i = disk_mount d ∧ di_free_bytes i = disk_available d ∧
        di_total_bytes i = disk_total d ∧
        ∀ d', d' ∈ dr_disks r → contains d' → components (disk_mount d') `prefix_of` components (di_mount_point i)) ∨
  ((∀ d, d ∈ dr_disks r → ¬ contains d) ∧ di_mount_point i = [] ∧ di_free_bytes i = 0 ∧ di_total_bytes i = 0).
Proof.
  intros Hn i contains. subst i. unfold collect_disk. set (l := filter _ (dr_disks r)).
  assert (∀ d, d ∈ l ↔ contains d ∧ d ∈ dr_disks r) as Hl by (intros d; apply list_elem_of_filter). clearbody l.
  pose proof (max_by_key_spec (λ d, os_str_len (disk_mount d)) l) as Hmax. rewrite Forall_forall in Hn.
  destruct (max_by_key _ l) as [b|]; cbn [di_mount_point di_free_bytes di_total_bytes].
  - left. destruct Hmax as [[Hc Hb]%Hl Hmax]. exists b. split_and!; [done..|]. intros d Hd Hcd.
    apply (longer_mount_is_inner (default db_path (dr_canonical r))); [by apply Hn..|done|done|]. by apply Hmax, Hl.
  - right. subst. split_and!; [|done..]. intros d Hd Hcd. by apply (not_elem_of_nil d), Hl.
Qed.
End figures.

(** ** Examples *)

Definition byte_size0 : ByteSize := u_to_string.
Definition disk_root : MountedDisk := mkDisk (str "/") 10 100.
Definition disk_data : MountedDisk := mkDisk (str "/data") 20 200.
Definition disk_da : MountedDisk := mkDisk (str "/da") 30 300.
Definition reads0 : DiskReads := mkDiskReads (Some 7) (Some (str "/data/mainnet/peers.redb")) [disk_data; disk_da; disk_root].

(** 12.3456 is shown as 12.3, and the limit of the cgroup wins over what the machine has free. *)
Example collect_process_example :
  let r := mkProcessReads (Some (SFdiv f32_prec f32_emax (f32_of_int 123456) (f32_of_int 10000), 5)) 900 800
             (Some (str "1000" ++ [10])) (Some (str "400" ++ [10])) in
  cpu_used_percent (@collect_process byte_size0 r) = SFdiv f32_prec f32_emax (f32_of_int 123) (f32_of_int 10) ∧
  memory_free_bytes (@collect_process byte_size0 r) = 600.
Proof. by vm_compute. Qed.

Lemma normal_path_names names : forallb (λ s, bool_decide (s ≠ [] ∧ s ≠ [46] ∧ s ≠ [46; 46] ∧ 47 ∉ s)) names = true → normal_path (render_path names).
Proof.
  intros Hn. exists names. split; [|done]. apply Forall_forall. intros s Hs.
  rewrite forallb_forall in Hn. apply list_elem_of_In, Hn in Hs. by apply bool_decide_eq_true in Hs.
Qed.

Lemma collect_disk_innermost_witness :
  let i := @collect_disk byte_size0 (str "peers.redb") reads0 in
  (di_mount_point i = str "/data" ∧ di_free_bytes i = 20) ∧
  (∃ d, d ∈ dr_disks reads0 ∧ di_mount_point i = disk_mount d).
Proof.
  split; [by vm_compute|].
  destruct (@collect_disk_innermost byte_size0 (str "peers.redb") reads0) as [(d & Hd & _ & Hm & _)|(_ & Hm & _)].
  - repeat apply Forall_cons_2; [apply (normal_path_names [str "data"])|apply (normal_path_names [str "da"])|
      apply (normal_path_names [])|apply Forall_nil_2]; by vm_compute.
  - by exists d.
  - by vm_compute in Hm.
Defined.
