(* ===== verification/Stats.v ===== *)
(** * The stats dump and the metrics bridge

    src/dnsseeder/src/stats.rs, src/dnsseeder/src/stats/format.rs,
    src/dnsseeder/src/stats/render.rs, src/dnsseeder/src/metrics_source.rs and the data of
    src/web/src/dto/subsystems.rs and src/web/src/dto/metrics.rs. *)

From S2P Require Import Prelude Text Net Common RateLimit Record Redb PeerStore Crawler ServingCache DnsHandler WebBase.

(** ** Formatting *)

(** The loop of [count]: [i] bytes of [len] are written. *)
Fixpoint count_loop (len i : Z) (bs : rstr) : rstr :=
  match bs with
  | [] => []
  | b :: bs' => (if decide (0 < i ∧ (len - i) mod 3 = 0) then [32] else []) ++ b :: count_loop len (i + 1) bs'
  end.
Definition fmt_count (n : Z) : rstr :=
  let s := u_to_string n in count_loop (Z.of_nat (length s)) 0 s.

(** [{n:02}] and [{s:<w}]. *)
Definition pad2 (n : Z) : rstr := if decide (n < 10) then 48 :: u_to_string n else u_to_string n.
Definition pad_right (w : nat) (s : rstr) : rstr := s ++ replicate (w - length s) 32.

(** [uptime]. *)
Definition uptime (d : Duration) : rstr :=
  let secs := as_secs d in
  let days := secs / 86400 in
  let hours := secs mod 86400 / 3600 in
  let minutes := secs mod 3600 / 60 in
  let seconds := secs mod 60 in
  if decide (0 < days) then u_to_string days ++ str "d " ++ u_to_string hours ++ str "h"
  else if decide (0 < hours) then u_to_string hours ++ str "h " ++ pad2 minutes ++ str "m"
  else u_to_string minutes ++ str "m " ++ pad2 seconds ++ str "s".

(** ** The block of lines *)

Definition RULE_TOP_END : rstr := replicate 105 61.
Definition RULE_MID : rstr := str "  " ++ replicate 99 45.

(** [row]. *)
Definition row (label k1 v1 k2 v2 k3 v3 : rstr) : rstr :=
  str "  " ++ pad_right 8 label ++ pad_right 9 k1 ++ str " " ++ pad_right 17 v1 ++ [32; 9474; 32] ++
  pad_right 9 k2 ++ str " " ++ pad_right 17 v2 ++ [32; 9474; 32] ++ pad_right 9 k3 ++ str " " ++ v3.

Record Block : Type := mkBlock {
  b_uptime : Duration;
  b_network : rstr;                 (** [NetworkId::to_string] *)
  b_version : rstr;
  summary_good : Z; summary_filtered : Z; summary_stale : Z; summary_failed : Z; summary_v4 : Z; summary_v6 : Z;
  b_crawler : CrawlerMetrics;
  b_dns : DnsMetrics;
  b_web : WebMetrics;
}.

(** [render]. *)
Definition render (b : Block) : list rstr :=
  [ RULE_TOP_END;
    row (str "node") (str "up") (uptime (b_uptime b)) (str "network") (b_network b) (str "version") (b_version b);
    RULE_MID;
    row (str "peers") (str "good") (fmt_count (summary_good b)) (str "filtered") (fmt_count (summary_filtered b))
      (str "stale") (fmt_count (summary_stale b));
    row [] (str "ipv4") (fmt_count (summary_v4 b)) (str "ipv6") (fmt_count (summary_v6 b))
      (str "failed") (fmt_count (summary_failed b));
    RULE_MID;
    row (str "crawler") (str "ok") (fmt_count (m_ok (b_crawler b))) (str "failed") (fmt_count (m_failed (b_crawler b)))
      (str "in-flight") (fmt_count (m_in_flight (b_crawler b)));
    RULE_MID;
    row (str "dns") (str "answered") (fmt_count (answered (b_dns b))) (str "empty") (fmt_count (DnsHandler.empty (b_dns b)))
      (str "refused") (fmt_count (refused (b_dns b)));
    row [] (str "A") (fmt_count (m_a (b_dns b))) (str "AAAA") (fmt_count (m_aaaa (b_dns b)))
      (str "denied") (fmt_count (denied (b_dns b)));
    RULE_MID;
    row (str "web") (str "requests") (fmt_count (w_requests (b_web b))) (str "accepted") (fmt_count (w_accepted (b_web b)))
      (str "rejected") (fmt_count (w_rejected (b_web b)));
    RULE_TOP_END ].

Section metrics.
Context `{RedbApi} `{Bincode} `{Semver}.

Record ValidityCriteria : Type := mkValidity {
  v_min_protocol_version : option Z;
  v_min_user_agent : option Version;
  v_strict_default_port : option Z;
}.

Record Metrics : Type := mkMetrics {
  ms_crawler : CrawlerMetrics;
  ms_dns : DnsMetrics;
  ms_web : WebMetrics;
  ms_started : Instant;
  ms_network : rstr;
  ms_version : rstr;
  ms_stale_good : Duration;
  ms_validity : ValidityCriteria;
}.

(** [Metrics::snapshot]: [now] is the wall clock, [t] the monotonic one. *)
Definition metrics_snapshot (ms : Metrics) (now : Z) (t : Instant) : DB (option Block) :=
  let stale_good_ms := duration_to_ms (ms_stale_good ms) in
  let validity := serving now stale_good_ms (v_min_protocol_version (ms_validity ms))
    (v_min_user_agent (ms_validity ms)) None (v_strict_default_port (ms_validity ms)) in
  r ← catch (summary now stale_good_ms (Some validity));
  mret match r with
       | inl _ => None
       | inr s =>
           Some (mkBlock (duration_since t (ms_started ms)) (ms_network ms) (ms_version ms)
             (good s) (filtered s) (stale s) (failed s) (v4 s) (v6 s)
             (crawler_snapshot (ms_crawler ms)) (dns_snapshot (ms_dns ms)) (web_snapshot (ms_web ms)))
       end.

(** [Metrics::dump]: the lines logged. *)
Definition dump (ms : Metrics) (now : Z) (t : Instant) : DB (list rstr) :=
  report ← metrics_snapshot ms now t;
  mret match report with Some b => render b | None => [] end.
End metrics.

(** ** The metrics bridge *)

Record CrawlerSubsystem : Type := mkCrawlerSubsystem {
  cs_ok : Z; cs_failed : Z; cs_in_flight : Z; cs_hub_peers : Z; cs_failed_connect : Z; cs_failed_handshake : Z;
  cs_failed_addresses : Z; cs_failed_timeout : Z; cs_failed_too_many_addresses : Z; cs_probes_skipped_backpressure : Z;
}.
Record DnsRateLimiterSubsystem : Type := mkDnsLimiterSubsystem {
  dl_capacity : option Z; dl_window_ms : option Z; dl_ops : option Z; dl_tracked_ips : option Z; dl_denied : Z;
}.
Record DnsSubsystem : Type := mkDnsSubsystem {
  ds_answered : Z; ds_empty : Z; ds_refused : Z; ds_a : Z; ds_aaaa : Z; ds_rate_limiter : DnsRateLimiterSubsystem;
}.
Record ServingCacheSubsystem : Type := mkServingSubsystem {
  sc_v4_size : Z; sc_v6_size : Z; sc_last_refresh_ms : Z; sc_last_refresh_age_ms : Z;
}.
Record PostRejected : Type := mkPostRejected {
  pr_auth : Z; pr_rate_limit : Z; pr_format : Z; pr_unroutable : Z; pr_probe : Z;
}.
Record RateLimiterSubsystem : Type := mkLimiterSubsystem {
  rs_capacity : Z; rs_window_ms : Z; rs_ops : Z; rs_tracked_ips : Z; rs_denied : Z;
}.
Record WebSubsystem : Type := mkWebSubsystem {
  wsub_requests : Z; wsub_accepted : Z; wsub_rejected : Z; wsub_post_rejected : PostRejected;
  wsub_rate_limiter : RateLimiterSubsystem;
}.

(** The typed values behind [SubsystemMap]'s JSON. *)
Inductive Subsystem : Type :=
  | SubCrawler (c : CrawlerSubsystem)
  | SubDns (d : DnsSubsystem)
  | SubServingCache (s : ServingCacheSubsystem)
  | SubWeb (w : WebSubsystem).
Abbreviation SubsystemMap := (gmap rstr Subsystem) (only parsing).

Record SubsystemMetrics : Type := mkSubsystemMetrics {
  sm_crawler : CrawlerMetrics;
  sm_hub_peers : Z;                      (** [probe.active_peers_len()] *)
  sm_dns : DnsMetrics;
  sm_dns_limiter : option RateLimiter;
  sm_serving_cache : option ServingCache;
}.

(** [u64::try_from(rl.window().as_millis()).unwrap_or(u64::MAX)]. *)
Definition window_ms (rl : RateLimiter) : Z := try_from_or U64_MAX (as_millis (window rl)).

(** [extra]: [None] is the overflow panic of [now_ms() - last]. *)
Definition extra (src : SubsystemMetrics) (now : Z) : option SubsystemMap :=
  let c := crawler_snapshot (sm_crawler src) in
  let d := dns_snapshot (sm_dns src) in
  let crawler := mkCrawlerSubsystem (m_ok c) (m_failed c) (m_in_flight c) (sm_hub_peers src) (m_failed_connect c)
    (m_failed_handshake c) (m_failed_addresses c) (m_failed_timeout c) (m_failed_too_many c) (m_skipped_backpressure c) in
  let rate_limiter :=
    match sm_dns_limiter src with
    | Some rl => mkDnsLimiterSubsystem (Some (capacity rl)) (Some (window_ms rl)) (Some (ops rl))
                   (Some (Z.of_nat (tracked_ips rl))) (denied d)
    | None => mkDnsLimiterSubsystem None None None None (denied d)
    end in
  let dns := mkDnsSubsystem (answered d) (DnsHandler.empty d) (refused d) (m_a d) (m_aaaa d) rate_limiter in
  let out : SubsystemMap := <[str "dns" := SubDns dns]> (<[str "crawler" := SubCrawler crawler]> ∅) in
  match sm_serving_cache src with
  | None => Some out
  | Some cache =>
      let snap := inner cache in
      let last := last_refresh_ms cache in
      age ← (if decide (0 < last) then a ← i64_sub now last; Some (Z.max a 0) else Some (-1));
      let serving_cache := mkServingSubsystem (Z.of_nat (length (snap_v4 snap))) (Z.of_nat (length (snap_v6 snap))) last age in
      Some (<[str "servingCache" := SubServingCache serving_cache]> out)
  end.

(** ** Lemmas *)

Lemma count_loop_digits len i bs : Forall (λ c, c ≠ 32) bs → filter (λ c, c ≠ 32) (count_loop len i bs) = bs.
Proof.
  revert i. induction bs as [|b bs IH]; intros i; cbn [count_loop]; [done|].
  intros [Hb Hbs]%Forall_cons. case_decide; cbn [app].
  - rewrite filter_cons_False by (intros Hn; by apply Hn). by rewrite filter_cons_True, IH.
  - by rewrite filter_cons_True, IH.
Qed.

Lemma digit_not_blank v : 0 ≤ v < 10 → digit_char v ≠ 32.
Proof. intros Hv. unfold digit_char. rewrite decide_True by lia. lia. Qed.

(** After the first byte the loop puts a blank before every full group of three bytes that remain. *)
Lemma count_loop_groups len i bs :
  0 < i → len - i = Z.of_nat (length bs) →
  ∃ first groups, count_loop len i bs = first ++ concat ((λ g, 32 :: g) <$> groups) ∧
    length first = (length bs mod 3)%nat ∧ Forall (λ g, length g = 3%nat) groups.
Proof.
  revert i. induction bs as [|b bs IH]; intros i Hi Hlen; cbn [count_loop length] in *.
  { by exists [], []. }
  destruct (IH (i + 1)) as (first & groups & -> & Hf & Hg); [lia|lia|].
  assert (Hmod : (S (length bs) mod 3 = if decide (length bs mod 3 = 2) then 0 else S (length bs mod 3))%nat).
  { pose proof (Nat.mod_upper_bound (length bs) 3 ltac:(lia)). pose proof (Nat.div_mod_eq (length bs) 3) as Hd. case_decide as Hm.
    - symmetry. apply (Nat.mod_unique _ _ (S (length bs / 3))); lia.
    - symmetry. apply (Nat.mod_unique _ _ (length bs / 3)); lia. }
  rewrite Hmod, Hlen. assert (Hz : Z.of_nat (S (length bs)) mod 3 = Z.of_nat (S (length bs) mod 3)) by (by rewrite Nat2Z.inj_mod).
  rewrite Hz, Hmod. destruct (decide (length bs mod 3 = 2)%nat) as [Hm|Hm].
  - rewrite decide_True by lia. exists [], ((b :: first) :: groups). split; [done|]. split; [done|].
    constructor; [cbn [length]; lia|done].
  - rewrite decide_False by lia. exists (b :: first), groups. split; [done|]. split; [cbn [length]; lia|done].
Qed.

(** ** Theorems *)

(** The counts of the stats dump are readable and exact. A count is printed as a group of one to three digits followed by groups of
    three, each after a blank, and the digits read in base ten are the count. *)
Theorem count_grouped n :
  0 ≤ n →
  (∃ first groups, fmt_count n = first ++ concat ((λ g, 32 :: g) <$> groups) ∧
     (1 ≤ length first ≤ 3)%nat ∧ Forall (λ g, length g = 3%nat) groups) ∧
  radix_value 10 0 (filter (λ c, c ≠ 32) (fmt_count n)) = n.
Proof.
  intros Hn. unfold fmt_count. cbv zeta. split.
  - assert (Hne : u_to_string n ≠ []) by (apply render_radix_nonempty; lia).
    destruct (u_to_string n) as [|b bs]; [done|]. cbn [count_loop]. rewrite decide_False by lia.
    destruct (count_loop_groups (Z.of_nat (length (b :: bs))) (0 + 1) bs) as (first & groups & -> & Hf & Hg); [lia|cbn; lia|].
    exists (b :: first), groups. split; [done|]. split; [|done]. cbn [length]. pose proof (Nat.mod_upper_bound (length bs) 3 ltac:(lia)). lia.
  - rewrite count_loop_digits; [by apply to_string_radix_value|]. apply render_radix_digits; [lia|apply digit_not_blank|constructor].
Qed.

Lemma count_grouped_witness : fmt_count 1234567 = str "1 234 567" ∧ radix_value 10 0 (filter (λ c, c ≠ 32) (fmt_count 1234567)) = 1234567.
Proof. split; [reflexivity|]. destruct (count_grouped 1234567) as [_ Hv]; [by vm_compute|exact Hv]. Defined.
