(* ===== verification/Lifecycle.v ===== *)
(** * Start, shutdown and exit of the process (src/dnsseeder/src/main.rs)

    The order in which [run] subscribes its tasks to the shutdown channel, starts and joins them; the signal handler; and the loops of
    the tasks that are nothing but a ticker and the channel ([stats_loop] of src/dnsseeder/src/stats.rs and the refresher of
    src/dns/src/serving_cache.rs). That the scheduler ends on its message is shown in SchedulerLoop.v; here a task that
    has its message may end, and the claims are about the process. *)

From S2P Require Import Prelude Text Net Common RateLimit Record Redb PeerStore Crawler ServingCache DnsHandler WebBase Stats.

(** ** Loops over a ticker and the channel *)

Definition REFRESH_INTERVAL : Duration := from_secs 60.

Inductive LoopEvent : Type := EvTick | EvShutdown.

Section loops.
Context `{RedbApi} `{Bincode} `{Semver}.

(** A [select!] loop: [tick] on every tick, [last] on the message, after which it returns; the flag says whether it did. Each
    event carries the clock readings its round makes. *)
Fixpoint select_loop {A T} (tick last : T → A → DB A) (evs : list (LoopEvent * T)) (a : A) : DB (A * bool) :=
  match evs with
  | [] => mret (a, false)
  | (EvTick, t) :: evs' => a' ← tick t a; select_loop tick last evs' a'
  | (EvShutdown, t) :: _ => a' ← last t a; mret (a', true)
  end.

(** [stats_loop]: the dumps so far; a last one is made on shutdown. A zero interval returns at once. *)
Definition stats_loop (ms : Metrics) (interval : Duration) (evs : list (LoopEvent * (Z * Instant))) : DB (list (list rstr) * bool) :=
  if decide (interval = 0) then mret ([], true)
  else
    let round '(now, t) dumps := lines ← dump ms now t; mret (dumps ++ [lines]) in
    select_loop round round evs [].

(** The loop of [spawn_refresher], with the readings of its three clocks; the message just ends it. *)
Definition refresher_loop (sort_freshest : list PeerRecord → list PeerRecord) (config : DnsConfig) (p2p_port cap : Z)
    (evs : list (LoopEvent * (Z * Z * Z))) (cache : ServingCache) : DB (ServingCache * bool) :=
  select_loop (λ '(now4, now6, now) c, refresh_now sort_freshest c config p2p_port cap now4 now6 now) (λ _ c, mret c) evs cache.
End loops.

(** ** The process *)

Inductive Task : Type := TScheduler | TDns | TRefresher | TWeb | TStats.
#[global] Instance Task_eq_dec : EqDecision Task.
Proof. solve_decision. Defined.
#[global] Instance Task_countable : Countable Task.
Proof.
  refine (inj_countable' (λ t, match t with TScheduler => 0 | TDns => 1 | TRefresher => 2 | TWeb => 3 | TStats => 4 end)%nat
    (λ n, match n with 0 => TScheduler | 1 => TDns | 2 => TRefresher | 3 => TWeb | _ => TStats end)%nat _).
  by intros [].
Defined.

(** What [run] does with the channel and the tasks once the signal handler is there. *)
Inductive Action : Type :=
  | Subscribe (t : Task)
  | Spawn (t : Task)
  | BuildHandler               (** [SeederHandler::with_metrics], which may fail *)
  | Join (t : Task).

#[global] Instance Action_eq_dec : EqDecision Action.
Proof. solve_decision. Defined.

Definition start_scheduler : list Action := [Subscribe TScheduler; Spawn TScheduler].
Definition start_dns_actions (dns : bool) : list Action :=
  if dns then [Subscribe TDns; Subscribe TRefresher; Spawn TRefresher; BuildHandler; Spawn TDns] else [].
Definition start_web : list Action := [Subscribe TWeb; Spawn TWeb].
Definition start_stats (stats : bool) : list Action := if stats then [Subscribe TStats; Spawn TStats] else [].
Definition join_tasks (dns stats : bool) : list Action :=
  [Join TScheduler] ++ (if dns then [Join TDns] else []) ++ [Join TWeb] ++ (if stats then [Join TStats] else []).
Definition main_actions (dns stats : bool) : list Action :=
  start_scheduler ++ start_dns_actions dns ++ start_web ++ start_stats stats ++ join_tasks dns stats.
#[global] Arguments main_actions : simpl never.

(** How the process ends: [main] returned, [exit(1)], or an abort. *)
Inductive Exit : Type := ExitSuccess | ExitFailure | ExitAbort.

Record Life : Type := mkLife {
  lf_todo : list Action;
  lf_subscribed : gset Task;
  lf_message : gset Task;           (** the receivers that got the message *)
  lf_running : gset Task;
  lf_ended : gset Task;
  lf_sent : bool;                   (** the handler's [sent] *)
  lf_exit : option Exit;
}.

Definition life_init (dns stats : bool) : Life := mkLife (main_actions dns stats) ∅ ∅ ∅ ∅ false None.

Definition with_todo (todo : list Action) (s : Life) : Life :=
  mkLife todo (lf_subscribed s) (lf_message s) (lf_running s) (lf_ended s) (lf_sent s) (lf_exit s).
Definition with_exit (e : Exit) (s : Life) : Life :=
  mkLife (lf_todo s) (lf_subscribed s) (lf_message s) (lf_running s) (lf_ended s) (lf_sent s) (Some e).
Definition end_task (t : Task) (s : Life) : Life :=
  mkLife (lf_todo s) (lf_subscribed s) (lf_message s) (lf_running s ∖ {[t]}) ({[t]} ∪ lf_ended s) (lf_sent s) (lf_exit s).

(** [spawn_signal_handler], on a signal: the first is sent on to the receivers there are, the next ends the process. *)
Definition on_signal (s : Life) : Life :=
  if lf_sent s then with_exit ExitFailure s
  else mkLife (lf_todo s) (lf_subscribed s) (lf_subscribed s) (lf_running s) (lf_ended s) true (lf_exit s).

(** What happens: the next action of [run], a signal, the end of a task that has its message, or a failure of a
    server (the web server's ends its task, the DNS server's panics and aborts). *)
Inductive Event : Type := EvMain | EvSignal | EvStop (t : Task) | EvWebError | EvDnsError | EvHandlerError.

Inductive life_step : Event → Life → Life → Prop :=
  | life_subscribe s t todo :
      lf_exit s = None → lf_todo s = Subscribe t :: todo →
      life_step EvMain s (mkLife todo ({[t]} ∪ lf_subscribed s) (lf_message s) (lf_running s) (lf_ended s) (lf_sent s) None)
  | life_spawn s t todo :
      lf_exit s = None → lf_todo s = Spawn t :: todo →
      life_step EvMain s (mkLife todo (lf_subscribed s) (lf_message s) ({[t]} ∪ lf_running s) (lf_ended s) (lf_sent s) None)
  | life_build s todo :
      lf_exit s = None → lf_todo s = BuildHandler :: todo → life_step EvMain s (with_todo todo s)
  | life_build_error s todo :
      lf_exit s = None → lf_todo s = BuildHandler :: todo → life_step EvHandlerError s (with_exit ExitFailure s)
  | life_join s t todo :
      lf_exit s = None → lf_todo s = Join t :: todo → t ∈ lf_ended s → life_step EvMain s (with_todo todo s)
  | life_return s : lf_exit s = None → lf_todo s = [] → life_step EvMain s (with_exit ExitSuccess s)
  | life_signal s : lf_exit s = None → life_step EvSignal s (on_signal s)
  | life_stop s t : lf_exit s = None → t ∈ lf_running s → t ∈ lf_message s → life_step (EvStop t) s (end_task t s)
  | life_web_error s : lf_exit s = None → TWeb ∈ lf_running s → life_step EvWebError s (end_task TWeb s)
  | life_dns_error s : lf_exit s = None → TDns ∈ lf_running s → life_step EvDnsError s (with_exit ExitAbort s).

Definition life_any (s s' : Life) : Prop := ∃ ev, life_step ev s s'.
Definition life_reachable (dns stats : bool) (s : Life) : Prop := rtc life_any (life_init dns stats) s.

(** The tasks [run] joins. *)
Definition joined (dns stats : bool) : list Task :=
  [TScheduler] ++ (if dns then [TDns] else []) ++ [TWeb] ++ (if stats then [TStats] else []).

(** ** The invariant *)

(** The actions that are left are a suffix of [main_actions], and what was done shows in the state. *)
Record life_inv (dns stats : bool) (s : Life) : Prop := {
  li_suffix : ∃ pre, main_actions dns stats = pre ++ lf_todo s ∧
    (∀ t, t ∈ lf_subscribed s ↔ Subscribe t ∈ pre) ∧
    (∀ t, Spawn t ∈ pre ↔ t ∈ lf_running s ∨ t ∈ lf_ended s) ∧
    (∀ t, Join t ∈ pre → t ∈ lf_ended s);
  li_message : lf_sent s = false → lf_message s = ∅;
  li_success : lf_exit s = Some ExitSuccess → lf_todo s = [];
}.

Lemma life_inv_init dns stats : life_inv dns stats (life_init dns stats).
Proof. split; cbn; [|done|done]. exists []. set_solver. Qed.

Lemma life_inv_step dns stats ev s s' : life_inv dns stats s → life_step ev s s' → life_inv dns stats s'.
Proof.
  intros [(pre & Hpre & Hsub & Hsp & Hj) Hm Hx] Hs.
  destruct Hs as [s t todo He Ht|s t todo He Ht|s todo He Ht|s todo He Ht|s t todo He Ht Hin|s He Ht|s He|s t He Hr Hmsg|s He Hr|s He Hr].
  - split; cbn; [|done|done]. exists (pre ++ [Subscribe t]). rewrite Hpre, Ht, <-app_assoc. split; [done|]. set_solver.
  - split; cbn; [|done|done]. exists (pre ++ [Spawn t]). rewrite Hpre, Ht, <-app_assoc. split; [done|]. set_solver.
  - split; cbn; [|done|congruence]. exists (pre ++ [BuildHandler]). rewrite Hpre, Ht, <-app_assoc. split; [done|]. set_solver.
  - split; cbn; [|done|done]. by exists pre.
  - split; cbn; [|done|congruence]. exists (pre ++ [Join t]). rewrite Hpre, Ht, <-app_assoc. split; [done|]. set_solver.
  - split; cbn; [|done|done]. by exists pre.
  - unfold on_signal. destruct (lf_sent s) eqn:Es; (split; cbn; [|congruence|congruence]); by exists pre.
  - split; cbn; [|done|congruence]. exists pre. split; [done|]. split; [done|]. split; [|set_solver].
    intros t'. rewrite Hsp. destruct (decide (t' = t)) as [->|]; set_solver.
  - split; cbn; [|done|congruence]. exists pre. split; [done|]. split; [done|]. split; [|set_solver].
    intros t'. rewrite Hsp. destruct (decide (t' = TWeb)) as [->|]; set_solver.
  - split; cbn; [|done|done]. by exists pre.
Qed.

Lemma life_inv_steps dns stats s s' : rtc life_any s s' → life_inv dns stats s → life_inv dns stats s'.
Proof. induction 1 as [|x y z [ev Hxy] _ IH]; [done|]. intros Hi. by eapply IH, life_inv_step. Qed.
Lemma life_inv_reachable dns stats s : life_reachable dns stats s → life_inv dns stats s.
Proof. intros Hr. eapply life_inv_steps; [exact Hr|apply life_inv_init]. Qed.

(** ** Lemmas *)

(** A loop over a ticker does nothing after its message. *)
Lemma select_loop_shutdown `{RedbApi} {A T} (tick last : T → A → DB A) ticks t rest a w :
  select_loop tick last (((λ t, (EvTick, t)) <$> ticks) ++ (EvShutdown, t) :: rest) a w =
  ('(a', _) ← select_loop tick last ((λ t, (EvTick, t)) <$> ticks) a; a'' ← last t a'; mret (a'', true)) w.
Proof.
  revert a w. induction ticks as [|t0 ticks IH]; intros a w; cbn; [done|]. unfold mbind, DB_bind.
  destruct (tick t0 a w) as [[a'|e|] w']; [|done..]. apply IH.
Qed.

(** [run] joins a task only after it subscribed and started it. *)
Lemma join_after_spawn dns stats pre t todo :
  main_actions dns stats = pre ++ Join t :: todo → Subscribe t ∈ pre ∧ Spawn t ∈ pre ∧ t ∈ joined dns stats.
Proof.
  intros E. unfold main_actions, start_scheduler, start_dns_actions, start_web, start_stats, join_tasks in E. destruct dns, stats; cbn in E;
    repeat (destruct pre as [|? pre]; cbn in E;
      [first [discriminate E | injection E as <- <-; unfold joined; cbn; split_and!; by repeat constructor]
      |first [discriminate E | injection E as <- E]]).
Qed.

(** The joins of the tasks that are still to be subscribed are still to come. *)
Lemma subscribe_before_join dns stats pre t todo :
  main_actions dns stats = pre ++ todo → t ∈ joined dns stats → Subscribe t ∈ todo → Join t ∈ todo ∧ Subscribe t ∉ pre ∧ Spawn t ∉ pre.
Proof.
  intros E. unfold main_actions, start_scheduler, start_dns_actions, start_web, start_stats, join_tasks in E. unfold joined. destruct dns, stats, t; cbn in E;
    repeat (destruct pre as [|? pre]; cbn in E;
      [subst todo; apply (bool_decide_eq_true_1 _); by vm_compute|first [discriminate E | injection E as <- E]]).
Qed.

(** Steps other than some events. *)
Definition life_without (bad : list Event) (s s' : Life) : Prop := ∃ ev, ev ∉ bad ∧ life_step ev s s'.

(** Every step uses something up. *)
Definition life_left (s : Life) : nat :=
  (2 * length (lf_todo s) + size (lf_running s) + (if lf_sent s then 0 else 1) + (if lf_exit s then 0 else 1))%nat.

Lemma life_step_left ev s s' : life_step ev s s' → (life_left s' < life_left s)%nat.
Proof.
  intros Hs. unfold life_left.
  destruct Hs as [s t todo He Ht|s t todo He Ht|s todo He Ht|s todo He Ht|s t todo He Ht Hin|s He Ht|s He|s t He Hr Hmsg|s He Hr|s He Hr];
    cbn [lf_todo lf_running lf_sent lf_exit with_todo with_exit end_task]; rewrite ?He, ?Ht; cbn [length].
  - lia.
  - pose proof (size_union_alt {[t]} (lf_running s)) as Hsz. rewrite size_singleton in Hsz.
    assert (size (lf_running s ∖ {[t]}) ≤ size (lf_running s))%nat by (apply subseteq_size; set_solver). lia.
  - lia.
  - lia.
  - lia.
  - lia.
  - unfold on_signal. destruct (lf_sent s) eqn:Es; cbn [lf_todo lf_running lf_sent lf_exit with_exit]; rewrite ?He, ?Es; lia.
  - rewrite (size_difference_alt (lf_running s)). assert (lf_running s ∩ {[t]} = {[t]}) as -> by set_solver. rewrite size_singleton.
    assert (0 < size (lf_running s))%nat; [|lia]. apply Nat.neq_0_lt_0. intros E%size_empty_iff. set_solver.
  - assert (lf_running s ∩ {[TWeb]} = {[TWeb]}) as E by set_solver. rewrite (size_difference_alt (lf_running s)), E, size_singleton.
    assert (0 < size (lf_running s))%nat; [|lia]. apply Nat.neq_0_lt_0. intros E'%size_empty_iff. set_solver.
  - lia.
Qed.
Lemma life_acc s : Acc (flip life_any) s.
Proof.
  remember (life_left s) as n eqn:Hn. revert s Hn. induction (lt_wf n) as [n _ IH]. intros s ->.
  constructor. intros s' [ev Hs]. by eapply IH; [eapply life_step_left|].
Qed.

(** After the first signal nothing changes which tasks have the message. *)
Lemma message_kept bad s s' :
  EvSignal ∈ bad → rtc (life_without bad) s s' → lf_message s' = lf_message s ∧ lf_sent s' = lf_sent s.
Proof.
  intros Hb. induction 1 as [|x y z (ev & Hev & Hxy) _ IH]; [done|]. destruct IH as [-> ->]. by destruct Hxy.
Qed.
Lemma without_reachable bad s s' : rtc (life_without bad) s s' → rtc life_any s s'.
Proof. induction 1 as [|x y z (ev & _ & Hxy) _ IH]; [done|]. eapply rtc_l; [by exists ev|done]. Qed.

(** A process whose tasks all have their messages is never stuck. *)
Lemma armed_progress dns stats s :
  life_inv dns stats s → lf_exit s = None → (∀ t, t ∈ joined dns stats → t ∈ lf_message s) →
  ∃ ev s', (ev = EvMain ∨ ∃ t, ev = EvStop t) ∧ life_step ev s s'.
Proof.
  intros [(pre & Hpre & _ & Hsp & _) _ _] He Hm. destruct (lf_todo s) as [|[t|t| |t] todo] eqn:Ht.
  - eexists _, _. split; [by left|by apply life_return].
  - eexists _, _. split; [by left|by eapply life_subscribe].
  - eexists _, _. split; [by left|by eapply life_spawn].
  - eexists _, _. split; [by left|by eapply life_build].
  - destruct (join_after_spawn _ _ _ _ _ Hpre) as (_ & Hspt & Hjt). apply Hsp in Hspt as [Hr|Hend].
    + eexists _, _. split; [right; by exists t|]. apply life_stop; [done|done|by apply Hm].
    + eexists _, _. split; [by left|by eapply life_join].
Qed.

Lemma joined_actions dns stats t : t ∈ joined dns stats → Subscribe t ∈ main_actions dns stats ∧ Join t ∈ main_actions dns stats.
Proof. destruct dns, stats, t; apply (bool_decide_eq_true_1 _); by vm_compute. Qed.
Lemma handler_before_subscribe dns stats pre todo :
  main_actions dns stats = pre ++ todo → Subscribe TWeb ∉ todo → BuildHandler ∉ todo.
Proof.
  intros E. unfold main_actions, start_scheduler, start_dns_actions, start_web, start_stats, join_tasks in E. destruct dns, stats; cbn in E;
    repeat (destruct pre as [|? pre]; cbn in E;
      [subst todo; apply (bool_decide_eq_true_1 _); by vm_compute|first [discriminate E | injection E as <- E]]).
Qed.

(** Past the handler, without a signal or a failure of the DNS server, the only way out is [main]'s return. *)
Lemma only_success s s' :
  rtc (life_without [EvSignal; EvDnsError]) s s' → BuildHandler ∉ lf_todo s → lf_exit s = None →
  lf_exit s' = None ∨ lf_exit s' = Some ExitSuccess.
Proof.
  intros Hs Hb He. cut (BuildHandler ∉ lf_todo s' ∧ (lf_exit s' = None ∨ lf_exit s' = Some ExitSuccess)); [tauto|].
  assert (BuildHandler ∉ lf_todo s ∧ (lf_exit s = None ∨ lf_exit s = Some ExitSuccess)) as H0 by auto. clear Hb He. revert H0.
  induction Hs as [|x y z (ev & Hev & Hxy) _ IH]; [done|]. intros [Hb He]. apply IH. clear IH.
  destruct Hxy as [x t todo He' Ht|x t todo He' Ht|x todo He' Ht|x todo He' Ht|x t todo He' Ht Hin|x He' Ht|x He'|x t He' Hr Hmsg|x He' Hr|x He' Hr];
    cbn; try (rewrite Ht in Hb); try (exfalso; set_solver); try (split; [set_solver|by auto]).
  rewrite Ht. split; [set_solver|by auto].
Qed.

(** ** Claims *)

(** C15: one signal stops the process, once its tasks are subscribed. From any state [run] can be in with no subscription left to
    make: after a first SIGINT or SIGTERM every run is finite, and unless there is a second signal or the DNS server fails it ends with [main]
    returning, the scheduler, the DNS server, the web server and the statistics having ended. *)
Theorem shutdown_terminates dns stats s :
  life_reachable dns stats s → lf_exit s = None → lf_sent s = false → (∀ t, Subscribe t ∉ lf_todo s) →
  Acc (flip life_any) (on_signal s) ∧
  ∀ s', rtc (life_without [EvSignal; EvDnsError]) (on_signal s) s' → (∀ s'', ¬ life_without [EvSignal; EvDnsError] s' s'') →
    lf_exit s' = Some ExitSuccess ∧ ∀ t, t ∈ joined dns stats → t ∈ lf_ended s'.
Proof.
  intros Hr He Hs Hsub. split; [apply life_acc|]. intros s' Hs' Hend.
  assert (Hi' : life_inv dns stats s').
  { apply life_inv_reachable. unfold life_reachable in *. etrans; [exact Hr|]. eapply rtc_l; [exists EvSignal; by apply life_signal|]. by eapply without_reachable. }
  pose proof (life_inv_reachable _ _ _ Hr) as [(pre & Hpre & Hsubd & _) _ _].
  destruct (message_kept _ _ _ (list_elem_of_here _ _) Hs') as [Hmsg _].
  assert (Hto : lf_todo (on_signal s) = lf_todo s ∧ lf_exit (on_signal s) = None ∧ lf_message (on_signal s) = lf_subscribed s).
  { unfold on_signal. rewrite Hs. done. }
  destruct Hto as (Hto & Hex & Hms). destruct (only_success _ _ Hs') as [Hnone|Hok]; [|done| |].
  - rewrite Hto. eapply handler_before_subscribe; [exact Hpre|apply Hsub].
  - exfalso. destruct (armed_progress dns stats s' Hi' Hnone) as (ev & s'' & Hev & Hst).
    + intros t Ht. rewrite Hmsg, Hms. apply Hsubd. destruct (joined_actions _ _ _ Ht) as [Hin _]. rewrite Hpre in Hin.
      apply elem_of_app in Hin as [?|Hin]; [done|]. by apply Hsub in Hin.
    + apply (Hend s''). exists ev. split; [|done]. destruct Hev as [->|[t ->]]; set_solver.
  - split; [done|]. destruct Hi' as [(pre' & Hpre' & _ & _ & Hj) _ Hnil]. rewrite (Hnil Hok), app_nil_r in Hpre'. subst pre'.
    intros t Ht. by apply Hj, joined_actions.
Qed.

(** C38: A signal in between is lost on the tasks that are still to subscribe: when the handler is there but [run] has not yet subscribed one of
    the tasks it will join, that task never gets the message, and without another signal or a failure the process
    never ends. *)
Theorem early_signal_lost dns stats s t s' :
  life_reachable dns stats s → lf_exit s = None → lf_sent s = false → t ∈ joined dns stats → Subscribe t ∈ lf_todo s →
  rtc (life_without [EvSignal; EvWebError; EvDnsError; EvHandlerError]) (on_signal s) s' →
  lf_exit s' = None ∧ t ∉ lf_message s'.
Proof.
  intros Hr He Hs Ht Hsub Hs'.
  pose proof (life_inv_reachable _ _ _ Hr) as [(pre & Hpre & Hsubd & Hsp & Hj) _ _].
  destruct (subscribe_before_join _ _ _ _ _ Hpre Ht Hsub) as (Hjoin & Hnsub & Hnsp).
  set (P x := lf_exit x = None ∧ Join t ∈ lf_todo x ∧ t ∉ lf_message x ∧ t ∉ lf_ended x).
  assert (HP : P (on_signal s)).
  { unfold P, on_signal. rewrite Hs. cbn. split_and!; [done|done| |]; naive_solver. }
  cut (P s'); [unfold P; tauto|]. clear Hr He Hs Ht Hsub Hpre Hsubd Hsp Hj Hjoin Hnsub Hnsp. revert HP.
  induction Hs' as [|x y z (ev & Hev & Hxy) _ IH]; [done|]. intros HP. apply IH. clear IH. destruct HP as (He & Hj & Hm & Hend).
  destruct Hxy as [x t' todo _ Ht|x t' todo _ Ht|x todo _ Ht|x todo _ Ht|x t' todo _ Ht Hin|x _ Ht|x _|x t' _ Hr Hmsg|x _ Hr|x _ Hr];
    unfold P; cbn; try (rewrite Ht in Hj); try (exfalso; set_solver); split_and!; try done; set_solver.
Qed.

(** ** Witnesses: without DNS and statistics, at the first join *)

Definition life3 : Life := mkLife [Join TScheduler; Join TWeb] {[TWeb; TScheduler]} ∅ {[TWeb; TScheduler]} ∅ false None.
Definition life1 : Life := mkLife (drop 2 (main_actions false false)) {[TScheduler]} ∅ {[TScheduler]} ∅ false None.

Lemma life1_reachable : life_reachable false false life1.
Proof.
  eapply rtc_l; [exists EvMain; by eapply life_subscribe|]. eapply rtc_l; [exists EvMain; by eapply life_spawn|].
  by vm_compute.
Qed.
Lemma life3_reachable : life_reachable false false life3.
Proof.
  unfold life_reachable. etrans; [apply life1_reachable|]. eapply rtc_l; [exists EvMain; by eapply life_subscribe|].
  eapply rtc_l; [exists EvMain; by eapply life_spawn|]. by vm_compute.
Qed.

Definition stopped_life : Life :=
  with_exit ExitSuccess (with_todo [] (end_task TWeb (with_todo [Join TWeb] (end_task TScheduler (on_signal life3))))).
Lemma life3_stops : rtc (life_without [EvSignal; EvDnsError]) (on_signal life3) stopped_life.
Proof.
  eapply rtc_l; [exists (EvStop TScheduler); split; [set_solver|by apply life_stop; vm_compute]|].
  eapply rtc_l; [exists EvMain; split; [set_solver|by eapply life_join; vm_compute]|].
  eapply rtc_l; [exists (EvStop TWeb); split; [set_solver|by apply life_stop; vm_compute]|].
  eapply rtc_l; [exists EvMain; split; [set_solver|by eapply life_join; vm_compute]|].
  eapply rtc_l; [exists EvMain; split; [set_solver|by apply life_return]|]. by vm_compute.
Qed.

Lemma shutdown_terminates_witness :
  Acc (flip life_any) (on_signal life3) ∧ TScheduler ∈ lf_ended stopped_life ∧ TWeb ∈ lf_ended stopped_life.
Proof.
  destruct (shutdown_terminates false false life3 life3_reachable eq_refl eq_refl) as [Hacc Hend]; [set_solver|].
  split; [exact Hacc|]. destruct (Hend stopped_life life3_stops) as [_ Hj].
  { intros s (ev & _ & Hs). by inversion Hs. }
  split; apply Hj; set_solver.
Defined.

(** A signal while the web server is not yet subscribed. *)
Lemma early_signal_lost_witness : Subscribe TWeb ∈ lf_todo life1 ∧ lf_exit (end_task TScheduler (on_signal life1)) = None.
Proof.
  split; [set_solver|].
  apply (early_signal_lost false false life1 TWeb _ life1_reachable eq_refl eq_refl); [set_solver|set_solver|].
  apply rtc_once. exists (EvStop TScheduler). split; [set_solver|]. by apply life_stop; vm_compute.
Defined.
