(* ===== verification/WebPeers.v ===== *)
(** * The HTTP API: handlers

    src/web/src/dto/peer.rs, src/web/src/http/handlers/peers.rs,
    src/web/src/http/handlers/health.rs, src/web/src/http/handlers/metrics.rs and
    src/web/src/http/middleware.rs, over the store, the prober and the counters.

    A request is taken after routing and extraction: which handler it is for, and the extracted path,
    query and body. The two handlers that wait for something else ([list] for the store scan,
    [submit] for the probe) are split where they wait, so that other requests can run in
    between: [begin] runs a request up to that point, [finish] from there to its response. *)

From S2P Require Import Prelude Text Net NetParse Common RateLimit Record Redb PeerStore Crawler Runner ServingCache WebBase.
From S2P Require Import SysInfo Stats.

(** ** JSON projections of a record *)

(** The timestamps of the [chrono] crate. *)
Class Chrono : Type := {
  DateTime : Type;
  from_timestamp_millis : Z → option DateTime;
  UNIX_EPOCH : DateTime;
  to_rfc3339 : DateTime → rstr;    (** [to_rfc3339_opts(SecondsFormat::Secs, true)] *)
}.

Record PublicPeerDto : Type := mkPublicDto {
  pd_port : Z;
  pd_protocol_version : option Z;
  pd_user_agent : option rstr;
  pd_kaspad_version : option rstr;
  pd_last_success_ms : option Z;
  pd_last_success : option rstr;
}.

Record FullPeerDto : Type := mkFullDto {
  fd_ip : rstr;
  fd_port : Z;
  fd_id : option rstr;
  fd_protocol_version : option Z;
  fd_user_agent : option rstr;
  fd_kaspad_version : option rstr;
  fd_first_seen_ms : Z;
  fd_first_seen : rstr;
  fd_last_seen_ms : Z;
  fd_last_seen : rstr;
  fd_last_attempt_ms : option Z;
  fd_last_attempt : option rstr;
  fd_last_success_ms : option Z;
  fd_last_success : option rstr;
}.

Inductive PeerDto : Type := Full (d : FullPeerDto) | Public (d : PublicPeerDto).

Definition opt_string (s : rstr) : option rstr := match s with [] => None | _ => Some s end.
Definition opt_protocol (v : Z) : option Z := if decide (v = 0) then None else Some v.
Definition opt_ms (ms : Z) : option Z := if decide (0 < ms) then Some ms else None.
Definition opt_id (id : PeerId) : option rstr := if decide (id = UNKNOWN_PEER_ID) then None else Some (hex_encode id).

Section dto.
Context `{Semver} `{Chrono}.

Definition format_iso (ms : Z) : rstr := to_rfc3339 (default UNIX_EPOCH (from_timestamp_millis ms)).

(** [PublicPeerDto::from_record], [FullPeerDto::from_record] and [PeerDto::from_record]. *)
Definition public_from_record (rec : PeerRecord) : PublicPeerDto :=
  mkPublicDto (port (address rec)) (opt_protocol (protocol_version rec)) (opt_string (user_agent rec))
    (version_to_string <$> parse_kaspad_version (user_agent rec))
    (opt_ms (last_success_ms rec)) (format_iso <$> opt_ms (last_success_ms rec)).
Definition full_from_record (rec : PeerRecord) : FullPeerDto :=
  mkFullDto (ip_to_string (ip (address rec))) (port (address rec)) (opt_id (rec_id rec))
    (opt_protocol (protocol_version rec)) (opt_string (user_agent rec))
    (version_to_string <$> parse_kaspad_version (user_agent rec))
    (first_seen_ms rec) (format_iso (first_seen_ms rec)) (last_seen_ms rec) (format_iso (last_seen_ms rec))
    (opt_ms (last_attempt_ms rec)) (format_iso <$> opt_ms (last_attempt_ms rec))
    (opt_ms (last_success_ms rec)) (format_iso <$> opt_ms (last_success_ms rec)).
Definition from_record (rec : PeerRecord) (expose_full : bool) : PeerDto :=
  if expose_full then Full (full_from_record rec) else Public (public_from_record rec).
End dto.

(** ** Responses *)

(** What the handlers use of the other dependencies: [serde_json], [humantime] and [bytesize]. *)
Class WebLibs : Type := {
  json_to_vec : list PeerDto → option bytes;      (** [serde_json::to_vec]; [None] is its error *)
  format_duration : Duration → rstr;
  web_byte_size :: ByteSize;
}.

Record HealthResponse : Type := mkHealth {
  h_status : rstr; h_reason : option rstr; h_good : option Z; h_total : Z; h_service : rstr; h_version : rstr;
}.

Record ServiceInfo : Type := mkServiceInfo {
  si_name : rstr; si_version : rstr; si_commit : rstr; si_network : rstr; si_uptime : Z; si_uptime_pretty : rstr;
}.
Record PeerStatusCounts : Type := mkStatusCounts { sc_good : Z; sc_filtered : Z; sc_stale : Z; sc_failed : Z; sc_stub : Z }.
Record PeerFamilyCounts : Type := mkFamilyCounts { fc_v4 : Z; fc_v6 : Z }.
Record PeerCounts : Type := mkPeerCounts {
  pc_total : Z; pc_by_status : PeerStatusCounts; pc_by_family : PeerFamilyCounts; pc_avg_success_age_ms : Z;
}.

Section handlers.
Context `{RedbApi} `{Bincode} `{Semver} `{Chrono} `{HttpLib} `{KaspaNet} `{WebLibs}.

Record MetricsResponse : Type := mkMetricsResponse {
  mr_service : ServiceInfo; mr_process : ProcessInfo; mr_disk : DiskInfo; mr_peers : PeerCounts;
  mr_subsystems : gmap rstr Subsystem;
}.

Inductive Body : Type :=
  | BodyEmpty
  | BodyBytes (b : bytes)
  | BodyPeer (d : PeerDto)
  | BodyError (status : Z) (error : rstr)
  | BodyHealth (h : HealthResponse)
  | BodyMetrics (m : MetricsResponse).
Record WebResponse : Type := mkWebResponse { resp_status : Z; resp_body : Body }.

(** [ApiError::into_response]. *)
Definition into_response (e : ApiError) : WebResponse := mkWebResponse (status e) (BodyError (status e) (message e)).

(** What a handler reads of its environment: the clocks, the probe's outcome and, for
    [/metrics], the process, the disk, the start of the process and the other subsystems. *)
Record Env : Type := mkEnv {
  env_ms : Z;
  env_t : Instant;
  env_probe : ProbeError + ProbeResult;
  env_process : ProcessReads;
  env_disk : DiskReads;
  env_started : Instant;
  env_source : SubsystemMetrics;
}.

Context (cfg : WebConfig).

(** ** [GET /peers] *)

Definition MAX_LIST_RESPONSE : Z := 1000.

(** [list_filter]. *)
Definition list_filter (all : bool) (now : Z) : Filter :=
  serving now (if all then I64_MAX else duration_to_ms (web_stale_good cfg))
    (if all then None else web_min_protocol_version cfg) (if all then None else web_min_user_agent cfg) None None.

(** The records of the list: the freshest first, at most [MAX_LIST_RESPONSE]. *)
Definition listed (all : bool) (records : list PeerRecord) : list PeerRecord :=
  let records := if all then filter (λ r, 0 < last_success_ms r) records else records in
  let records := sort_by_key (λ r, - last_success_ms r) records in
  if decide (MAX_LIST_RESPONSE < Z.of_nat (length records)) then take (Z.to_nat MAX_LIST_RESPONSE) records else records.

(** [compute_list_body]. *)
Definition compute_list_body (all expose : bool) (now : Z) : DB (ApiError + bytes) :=
  r ← catch (collect_matching (list_filter all now));
  mret match r with
       | inl _ => inl (Internal (str "store error"))
       | inr records =>
           match json_to_vec ((λ r, from_record r expose) <$> listed all records) with
           | Some body => inr body
           | None => inl (Internal (str "serialize error"))
           end
       end.

(** Where a request waits: for the scan of a list, or for the probe of a submission. *)
Inductive Cont : Type :=
  | ContList (key : Key)
  | ContSubmit (addr : SocketAddr).

(** [list] up to the cache lookup of [get_or_compute], and from the scan on. *)
Definition list_begin (headers : HeaderMap) (all : bool) (env : Env) (st : WebState) : (WebResponse + Cont) * WebState :=
  let expose := authenticated headers (api_key cfg) in
  let key := mkKey all expose in
  let '(hit, cache) := peers_cache_get key (env_t env) (ws_cache st) in
  (match hit with Some body => inl (mkWebResponse 200 (BodyBytes body)) | None => inr (ContList key) end,
   with_ws_cache cache st).
Definition list_finish (key : Key) (env : Env) (st : WebState) : DB (WebResponse * WebState) :=
  r ← compute_list_body (k_all key) (k_expose key) (env_ms env);
  mret match r with
       | inr body => (mkWebResponse 200 (BodyBytes body), with_ws_cache (peers_cache_put key body (env_t env) (ws_cache st)) st)
       | inl err => (into_response err, st)
       end.

(** ** [GET /peers/{addr_port}] *)

Definition get_peer (addr_port : rstr) (all : bool) (env : Env) : DB WebResponse :=
  match socket_from_str addr_port with
  | None => mret (into_response (BadRequest (str "addr must be ip:port")))
  | Some addr =>
      let net := mkNetAddress (canonicalize_ip (socket_ip addr)) (socket_port addr) in
      let filter := list_filter all (env_ms env) in
      r ← catch (get net);
      match r with
      | inr (Some rec) =>
          ok ← lift (or_panic (matches filter rec));
          mret (if (ok : bool) && bool_decide (0 < last_success_ms rec)
                then mkWebResponse 200 (BodyPeer (from_record rec true))
                else into_response (NotFound (str "peer not found")))
      | inr None => mret (into_response (NotFound (str "peer not found")))
      | inl _ => mret (into_response (Internal (str "store error")))
      end
  end.

(** ** [POST /peers] *)

Inductive SubmitRejection : Type := SubRateLimit | SubFormat | SubUnroutable.

(** [as_post_rejection] and [into_api_error]. *)
Definition as_post_rejection (r : SubmitRejection) : PostRejection :=
  match r with SubRateLimit => RejRateLimit | SubFormat => RejFormat | SubUnroutable => RejUnroutable end.
Definition into_api_error (r : SubmitRejection) : ApiError :=
  match r with
  | SubRateLimit => RateLimited (str "rate limited")
  | SubFormat => BadRequest (str "invalid ip:port")
  | SubUnroutable => BadRequest (str "address is not publicly routable or uses a disallowed port")
  end.

(** [validate_submission]: [None] is the panic of the limiter's clock. *)
Definition validate_submission (addr_port : rstr) (client : IpAddr) (limiter : RateLimiter) (now : Instant)
    : option ((SubmitRejection + SocketAddr) * RateLimiter) :=
  '(allowed, limiter) ← check limiter client now;
  Some (
    if negb allowed then (inl SubRateLimit, limiter)
    else match socket_from_str (trim addr_port) with
         | None => (inl SubFormat, limiter)
         | Some addr =>
             let net := mkNetAddress (canonicalize_ip (socket_ip addr)) (socket_port addr) in
             if negb (is_acceptable_address net (network_default_port cfg) (web_strict_port cfg))
             then (inl SubUnroutable, limiter)
             else (inr (socket_new (ip net) (port net)), limiter)
         end).

(** [submit] up to the probe, and from its outcome on. *)
Definition submit_begin (headers : HeaderMap) (addr_port : rstr) (remote : SocketAddr) (env : Env) (st : WebState)
    : outcome StoreError ((WebResponse + Cont) * WebState) :=
  let client := client_ip headers remote in
  '(r, limiter) ← or_panic (validate_submission addr_port client (ws_limiter st) (env_t env));
  let st := with_ws_limiter limiter st in
  Ok match r with
     | inr addr => (inr (ContSubmit addr), st)
     | inl rej => (inl (into_response (into_api_error rej)),
                   with_ws_metrics (record_post_rejection (as_post_rejection rej)) st)
     end.
Definition submit_finish (addr : SocketAddr) (env : Env) (st : WebState) : DB (WebResponse * WebState) := λ w,
  match probe_and_store (env_probe env) addr (env_ms env) w with
  | (Ok rec, w') => (Ok (mkWebResponse 200 (BodyPeer (from_record rec true)), with_ws_metrics record_accepted st), w')
  | (Err _, w') => (Ok (into_response (BadGateway (str "probe failed")),
                        with_ws_metrics (record_post_rejection RejProbe) st), w')
  | (Panic, w') => (Panic, w')
  end.

(** ** [DELETE /peers/{addr_port}] *)

Definition delete_peer (addr_port : rstr) : DB WebResponse :=
  match socket_from_str (trim addr_port) with
  | None => mret (into_response (BadRequest (str "addr must be ip:port")))
  | Some addr =>
      let net := mkNetAddress (canonicalize_ip (socket_ip addr)) (socket_port addr) in
      r ← catch (delete net);
      mret match r with
           | inr true => mkWebResponse 204 BodyEmpty
           | inr false => into_response (NotFound (str "peer not found"))
           | inl _ => into_response (Internal (str "store error"))
           end
  end.

(** ** [GET /health] *)

Definition health (env : Env) : DB WebResponse :=
  let stale_good_ms := duration_to_ms (web_stale_good cfg) in
  r ← catch (summary (env_ms env) stale_good_ms None);
  mret match r with
       | inl _ =>
           mkWebResponse 503 (BodyHealth (mkHealth (str "down") (Some (str "store error")) None 0
             (service_name cfg) (service_version cfg)))
       | inr s =>
           if decide (0 < good s)
           then mkWebResponse 200 (BodyHealth (mkHealth (str "ok") None (Some (good s)) (total s)
                  (service_name cfg) (service_version cfg)))
           else mkWebResponse 503 (BodyHealth (mkHealth (str "down")
                  (Some (str "no peers with successful probe within stale-good window")) None (total s)
                  (service_name cfg) (service_version cfg)))
       end.

(** ** [GET /metrics] *)

(** The web crate's own subsystem. *)
Definition web_subsystem (st : WebState) : WebSubsystem :=
  let web := web_snapshot (ws_metrics st) in
  mkWebSubsystem (w_requests web) (w_accepted web) (w_rejected web)
    (mkPostRejected (post_rejected_auth web) (post_rejected_ratelimit web) (post_rejected_format web)
       (post_rejected_unroutable web) (post_rejected_probe web))
    (mkLimiterSubsystem (capacity (ws_limiter st)) (window_ms (ws_limiter st)) (ops (ws_limiter st))
       (Z.of_nat (tracked_ips (ws_limiter st))) (post_rejected_ratelimit web)).

Definition metrics_peers (s : StoreSummary) : PeerCounts :=
  mkPeerCounts (total s) (mkStatusCounts (good s) (filtered s) (stale s) (failed s) (stub s))
    (mkFamilyCounts (v4 s) (v6 s)) (avg_success_age_ms s).

Definition get_metrics (env : Env) (st : WebState) : DB WebResponse :=
  let now := env_ms env in
  let stale_good_ms := duration_to_ms (web_stale_good cfg) in
  let validity := serving now stale_good_ms (web_min_protocol_version cfg) (web_min_user_agent cfg) None
    (if web_strict_port cfg then Some (network_default_port cfg) else None) in
  r ← catch (summary now stale_good_ms (Some validity));
  match r with
  | inl _ => mret (into_response (Internal (str "store error")))
  | inr s =>
      let elapsed := duration_since (env_t env) (env_started env) in
      subsystems ← lift (or_panic (extra (env_source env) now));
      let subsystems := <[str "web" := SubWeb (web_subsystem st)]> (subsystems : gmap rstr Subsystem) in
      mret (mkWebResponse 200 (BodyMetrics (mkMetricsResponse
        (mkServiceInfo (service_name cfg) (service_version cfg) (service_commit cfg) (service_network cfg)
           (as_millis elapsed) (format_duration elapsed))
        (collect_process (env_process env)) (collect_disk (db_path cfg) (env_disk env)) (metrics_peers s) subsystems)))
  end.

(** ** Middleware and dispatch *)

Inductive WebRequest : Type :=
  | WHealth
  | WMetrics
  | WList (all : bool)
  | WSubmit (addr_port : rstr) (remote : SocketAddr)
  | WGet (addr_port : rstr) (all : bool)
  | WDelete (addr_port : rstr).

Definition endpoint_of (req : WebRequest) : Endpoint :=
  match req with
  | WHealth => EpHealth
  | WMetrics => EpMetrics
  | WList _ => EpList
  | WSubmit _ _ => EpSubmit
  | WGet _ _ => EpGet
  | WDelete _ => EpDelete
  end.

(** The handler of a request, up to where it waits. *)
Definition handle (headers : HeaderMap) (req : WebRequest) (env : Env) (st : WebState)
    : DB ((WebResponse + Cont) * WebState) :=
  match req with
  | WHealth => r ← health env; mret (inl r, st)
  | WMetrics => r ← get_metrics env st; mret (inl r, st)
  | WList all => mret (list_begin headers all env st)
  | WSubmit addr_port remote => lift (submit_begin headers addr_port remote env st)
  | WGet addr_port all => r ← get_peer addr_port all env; mret (inl r, st)
  | WDelete addr_port => r ← delete_peer addr_port; mret (inl r, st)
  end.

(** [count_requests] around everything, [require_api_key] around the gated routes. *)
Definition begin (headers : HeaderMap) (req : WebRequest) (env : Env) (st : WebState)
    : DB ((WebResponse + Cont) * WebState) :=
  let st := with_ws_metrics record_request st in
  if gated (api_prefix cfg) (endpoint_of req) && negb (authenticated headers (api_key cfg))
  then mret (inl (into_response (Unauthorized (str "missing or invalid api key"))),
             with_ws_metrics (record_post_rejection RejAuth) st)
  else handle headers req env st.

Definition finish (k : Cont) (env : Env) (st : WebState) : DB (WebResponse * WebState) :=
  match k with
  | ContList key => list_finish key env st
  | ContSubmit addr => submit_finish addr env st
  end.

(** A request served without interruption. *)
Definition serve (headers : HeaderMap) (req : WebRequest) (env1 env2 : Env) (st : WebState) : DB (WebResponse * WebState) :=
  '(r, st) ← begin headers req env1 st;
  match r with
  | inl resp => mret (resp, st)
  | inr k => finish k env2 st
  end.
End handlers.
