(* ===== verification/WebServer.v ===== *)
(** * The HTTP(S) server (src/web/src/server.rs, src/web/src/error.rs)

    [run_web_server]: the TLS files, the listening sockets, and the join of the servers that serve on them. The file
    system, the socket layer and the ends of the servers are given by the environment. *)

From S2P Require Import Prelude Text Net Record Redb WebBase Sockets.

Definition LISTEN_BACKLOG : Z := 1024.

Inductive TlsFile : Type := TlsCert | TlsKey.

(** [Display] for [TlsFile]. *)
Definition tls_file_to_string (f : TlsFile) : rstr :=
  match f with TlsCert => str "certificate" | TlsKey => str "private key" end.

Inductive WebError : Type :=
  | WebIo (source : ErrorKind)
  | WebStore (source : StoreError)
  | WebTls (kind : TlsFile) (path : rstr) (source : ErrorKind)
  | NoListenAddrs
  | WebBind (addr : SocketAddr) (source : ErrorKind).

(** [bind_listener]. *)
Definition bind_listener (addr : SocketAddr) : Sock unit :=
  sock_call (NewSocket (is_sock_ipv6 addr) STREAM) ≫= λ _,
  (if is_sock_ipv6 addr then sock_call (SetOnlyV6 true) else mret tt) ≫= λ _,
  sock_call SetReuseAddress ≫= λ _,
  sock_call SetNonblocking ≫= λ _,
  sock_call (Bind addr) ≫= λ _,
  sock_call (Listen LISTEN_BACKLOG).

(** The loop over the listening addresses, up to the server made from each listener; a server that was started before a failure
    is aborted when the set of servers is dropped. *)
Fixpoint bind_servers (todo bound : list SocketAddr) (env : list (option ErrorKind)) (tr : list SockCall)
    : (WebError + list SocketAddr) * list SockCall :=
  match todo with
  | [] => (inr bound, tr)
  | addr :: todo' =>
      match (bind_listener addr ≫= λ _, sock_call (FromStd STREAM)) env tr with
      | (inr _, env', tr') => bind_servers todo' (bound ++ [addr]) env' tr'
      | (inl source, _, tr') => (inl (WebBind addr source), tr')
      end
  end.

(** How a server ends, as [join_next] tells: returned, failed, or its task panicked. *)
Inductive Joined : Type := JoinedOk | JoinedErr (e : ErrorKind) | JoinedPanic.
#[global] Instance Joined_eq_dec : EqDecision Joined.
Proof. solve_decision. Defined.

(** The join loop, over the ends in the order they come: the first error, and how often the others were told to shut down. *)
Fixpoint join_servers (joined : list Joined) (first_error : option ErrorKind) (shutdowns : Z) : option ErrorKind * Z :=
  match joined with
  | [] => (first_error, shutdowns)
  | JoinedOk :: joined' => join_servers joined' first_error shutdowns
  | JoinedErr e :: joined' =>
      join_servers joined' (match first_error with None => Some e | Some _ => first_error end) (shutdowns + 1)
  | JoinedPanic :: joined' => join_servers joined' first_error (shutdowns + 1)
  end.

Section server.
(** [tokio::fs::read] and [RustlsConfig::from_pem]. *)
Context {RustlsConfig : Type} (read : rstr → ErrorKind + bytes) (from_pem : bytes → bytes → ErrorKind + RustlsConfig).

(** [load_tls]. *)
Definition load_tls (cert key : rstr) : WebError + RustlsConfig :=
  match read cert with
  | inl source => inl (WebTls TlsCert cert source)
  | inr cert_bytes =>
      match read key with
      | inl source => inl (WebTls TlsKey key source)
      | inr key_bytes =>
          match from_pem cert_bytes key_bytes with
          | inl source => inl (WebTls TlsCert cert source)
          | inr config => inr config
          end
      end
  end.

Context `{Semver}.

(** The servers of [run_web_server]: the TLS configuration they use and the addresses they serve. *)
Definition start_servers (cfg : WebConfig) (env : list (option ErrorKind)) : WebError + option RustlsConfig * list SocketAddr :=
  if decide (web_listen cfg = []) then inl NoListenAddrs
  else
    match match web_tls_cert cfg, web_tls_key cfg with
          | Some cert, Some key => match load_tls cert key with inl e => inl e | inr c => inr (Some c) end
          | _, _ => inr None
          end with
    | inl e => inl e
    | inr tls_config =>
        match (bind_servers (web_listen cfg) [] env []).1 with
        | inl e => inl e
        | inr bound => inr (tls_config, bound)
        end
    end.

(** [run_web_server]; [joined] are the ends of the servers it started. *)
Definition run_web_server (cfg : WebConfig) (env : list (option ErrorKind)) (joined : list Joined) : WebError + unit :=
  match start_servers cfg env with
  | inl e => inl e
  | inr _ => match (join_servers joined None 0).1 with Some e => inl (WebIo e) | None => inr tt end
  end.

(** ** Lemmas *)

(** The calls of a listener that was bound. *)
Definition listener_calls (addr : SocketAddr) : list SockCall :=
  [NewSocket (is_sock_ipv6 addr) STREAM] ++ (if is_sock_ipv6 addr then [SetOnlyV6 true] else []) ++
  [SetReuseAddress; SetNonblocking; Bind addr; Listen LISTEN_BACKLOG].

Lemma bind_listener_inr addr env tr a env' tr' : bind_listener addr env tr = (inr a, env', tr') → tr' = tr ++ listener_calls addr.
Proof.
  unfold bind_listener, listener_calls. intros Hb. destruct (is_sock_ipv6 addr); sock_inv; by rewrite <-!app_assoc.
Qed.

Lemma bind_servers_spec todo bound env tr :
  match bind_servers todo bound env tr with
  | (inr bound', tr') => bound' = bound ++ todo ∧ tr' = tr ++ (todo ≫= λ a, listener_calls a ++ [FromStd STREAM])
  | (inl e, _) => ∃ pre addr post source, todo = pre ++ addr :: post ∧ e = WebBind addr source
  end.
Proof.
  revert bound env tr. induction todo as [|addr todo IH]; intros bound env tr; cbn [bind_servers].
  { by rewrite !app_nil_r. }
  destruct ((bind_listener addr ≫= _) env tr) as [[[source|a] env'] tr1] eqn:E.
  { by exists [], addr, todo, source. }
  specialize (IH (bound ++ [addr]) env' tr1). destruct (bind_servers _ _ _ _) as [[e|bound'] tr2].
  - destruct IH as (pre & b & post & source & -> & ->). by exists (addr :: pre), b, post, source.
  - destruct IH as [-> ->]. sock_inv. match goal with Hb : bind_listener _ _ _ = _ |- _ => apply bind_listener_inr in Hb; subst end.
    rewrite bind_cons, <-!app_assoc. done.
Qed.

Lemma join_servers_spec joined first n :
  join_servers joined first n =
  (match first with
   | Some e => Some e
   | None => head (omap (λ j, match j with JoinedErr e => Some e | _ => None end) joined)
   end, n + Z.of_nat (length (filter (λ j, j ≠ JoinedOk) joined))).
Proof.
  revert first n. induction joined as [|j joined IH]; intros first n; cbn [join_servers].
  { destruct first; cbn; f_equal; lia. }
  destruct j as [|e|]; rewrite IH.
  - rewrite filter_cons_False by (intros Hn; by apply Hn). done.
  - rewrite filter_cons_True by done. cbn [length]. f_equal; first [lia|by destruct first].
  - rewrite filter_cons_True by done. cbn [length]. f_equal; first [lia|by destruct first].
Qed.

Lemma first_error_spec joined :
  match head (omap (λ j, match j with JoinedErr e => Some e | _ => None end) joined) with
  | Some e => ∃ pre post, joined = pre ++ JoinedErr e :: post ∧ ∀ e', JoinedErr e' ∉ pre
  | None => ∀ e', JoinedErr e' ∉ joined
  end.
Proof.
  induction joined as [|j joined IH]; cbn; [set_solver|].
  destruct j as [|e|]; cbn.
  2: { exists [], joined. set_solver. }
  all: destruct (head _); [destruct IH as (pre & post & -> & Hp); eexists (_ :: pre), post; split; [done|set_solver]|set_solver].
Qed.

Lemma start_servers_inr cfg env tls bound :
  start_servers cfg env = inr (tls, bound) →
  bound = web_listen cfg ∧ bound ≠ [] ∧
  (bind_servers (web_listen cfg) [] env []).2 = (web_listen cfg ≫= λ a, listener_calls a ++ [FromStd STREAM]) ∧
  (is_Some tls ↔ is_Some (web_tls_cert cfg) ∧ is_Some (web_tls_key cfg)).
Proof.
  unfold start_servers. case_decide as Hne; [done|].
  pose proof (bind_servers_spec (web_listen cfg) [] env []) as Hb.
  destruct (bind_servers _ _ _ _) as [[e|bound'] tr]; cbn [fst].
  { by destruct (web_tls_cert cfg), (web_tls_key cfg); [destruct (load_tls _ _)|..]. }
  destruct Hb as [-> ->]. intros Hs.
  destruct (web_tls_cert cfg) as [cert|], (web_tls_key cfg) as [key|]; [destruct (load_tls cert key); [done|]|..];
    simplify_eq; (split_and!; [done..|]); rewrite ?is_Some_alt; naive_solver.
Qed.

Lemma start_servers_inl cfg env e :
  start_servers cfg env = inl e →
  match e with
  | NoListenAddrs => web_listen cfg = []
  | WebTls kind path source =>
      ∃ cert key, web_tls_cert cfg = Some cert ∧ web_tls_key cfg = Some key ∧
      match kind with
      | TlsKey => path = key ∧ read key = inl source
      | TlsCert => path = cert ∧ (read cert = inl source ∨ ∃ c k, read cert = inr c ∧ read key = inr k ∧ from_pem c k = inl source)
      end
  | WebBind addr _ => addr ∈ web_listen cfg
  | _ => False
  end.
Proof.
  unfold start_servers. case_decide as Hne; [by intros; simplify_eq|].
  pose proof (bind_servers_spec (web_listen cfg) [] env []) as Hb.
  destruct (bind_servers _ _ _ _) as [[e'|bound'] tr]; cbn [fst].
  - destruct Hb as (pre & addr & post & source & Hl & ->).
    assert (addr ∈ web_listen cfg) by (rewrite Hl; set_solver).
    destruct (web_tls_cert cfg) as [cert|], (web_tls_key cfg) as [key|]; unfold load_tls;
      [destruct (read cert) eqn:?; [|destruct (read key) eqn:?; [|destruct (from_pem _ _) eqn:?]]|..];
      intros; simplify_eq; naive_solver.
  - destruct (web_tls_cert cfg) as [cert|], (web_tls_key cfg) as [key|]; unfold load_tls;
      [destruct (read cert) eqn:?; [|destruct (read key) eqn:?; [|destruct (from_pem _ _) eqn:?]]|..];
      intros; simplify_eq; naive_solver.
Qed.

(** ** Claims *)

End server.
