(* ===== verification/WebDoc.v ===== *)
(** * The documented HTTP surface, CORS and caching headers

    The [utoipa::path] attributes of src/web/src/http/handlers/*.rs, src/web/src/http/openapi.rs, and the parts of
    src/web/src/http/router.rs around the routes: the place of the document, [build_cors] and the [Cache-Control] layer.
    The document is compared with what [WebBase.build_router] routes and with what the handlers of [WebPeers] answer. *)

From S2P Require Import Prelude Text Net NetParse Common RateLimit Record Redb PeerStore Crawler Runner ServingCache WebBase.
From S2P Require Import SysInfo Stats WebPeers.

#[global] Instance Method_eq_dec : EqDecision Method.
Proof. solve_decision. Defined.

(** ** The attributes *)

(** The body of a documented response, where the attribute gives one. *)
Inductive Schema : Type := SchPeers | SchPeer | SchHealth | SchMetrics.
Inductive ParamIn : Type := InQuery | InPath.

(** An operation: its alternatives of security requirements, each a list of schemes, and its responses. *)
Record Operation : Type := mkOperation {
  op_method : Method;
  op_path : rstr;
  op_endpoint : Endpoint;
  op_tag : rstr;
  op_params : list (rstr * ParamIn);
  op_responses : list (Z * option Schema);
  op_security : list (list rstr);
}.

Definition HEALTH_PATH : rstr := str "/health".
Definition METRICS_PATH : rstr := str "/metrics".
Definition LIST_PATH : rstr := str "/peers".
Definition GET_PATH : rstr := str "/peers/{addr_port}".
Definition SUBMIT_PATH : rstr := str "/peers".
Definition DELETE_PATH : rstr := str "/peers/{addr_port}".

Definition op_health : Operation :=
  mkOperation GET HEALTH_PATH EpHealth (str "info") [] [(200, Some SchHealth); (503, Some SchHealth)] [].
Definition op_metrics : Operation := mkOperation GET METRICS_PATH EpMetrics (str "info") [] [(200, Some SchMetrics)] [].
Definition op_list : Operation :=
  mkOperation GET LIST_PATH EpList (str "peers") [(str "all", InQuery)] [(200, Some SchPeers)] [[]; [str "api_key"]].
Definition op_get : Operation :=
  mkOperation GET GET_PATH EpGet (str "peers") [(str "addr_port", InPath); (str "all", InQuery)]
    [(200, Some SchPeer); (400, None); (401, None); (404, None)] [[str "api_key"]].
Definition op_submit : Operation :=
  mkOperation POST SUBMIT_PATH EpSubmit (str "peers") []
    [(200, Some SchPeer); (400, None); (401, None); (429, None); (502, None)] [[str "api_key"]].
Definition op_delete : Operation :=
  mkOperation DELETE DELETE_PATH EpDelete (str "peers") [(str "addr_port", InPath)]
    [(204, None); (400, None); (401, None); (404, None)] [[str "api_key"]].

(** ** The document *)

(** The [paths] of [ApiDoc], operations of one path together. *)
Definition api_operations : list Operation := [op_health; op_metrics; op_list; op_get; op_submit; op_delete].
Definition openapi : gmap rstr (list Operation) :=
  foldl (λ m op, <[op_path op := default [] (m !! op_path op) ++ [op]]> m) ∅ api_operations.

(** The [components(schemas)] and [tags] of [ApiDoc]. *)
Definition api_schemas : list rstr :=
  [str "ApiErrorBody"; str "HealthResponse"; str "MetricsResponse"; str "ServiceInfo"; str "PeerCounts"; str "PeerStatusCounts";
   str "PeerFamilyCounts"; str "WebSubsystem"; str "PostRejected"; str "RateLimiterSubsystem"; str "CrawlerSubsystem"; str "DnsSubsystem";
   str "DnsRateLimiterSubsystem"; str "ServingCacheSubsystem"; str "ProcessInfo"; str "DiskInfo"; str "PeerDto"; str "FullPeerDto";
   str "PublicPeerDto"; str "SubmitPeerRequest"].
Definition api_tags : list rstr := [str "info"; str "peers"].

(** [SecurityAddon]: the scheme, and the header it is read from. *)
Definition security_scheme : rstr * rstr := (str "api_key", str "x-api-key").

(** [document]. *)
Definition document (base_path : rstr) : gmap rstr (list Operation) :=
  if decide (base_path = []) then openapi else kmap (λ path, base_path ++ path) openapi.

(** Where the document and its pages are served. *)
Definition swagger_base (prefix : rstr) : rstr := match prefix with [] => str "/swagger" | _ => prefix end.
Definition openapi_url (prefix : rstr) : rstr := swagger_base prefix ++ str "/openapi.json".

(** ** CORS *)

(** [http::HeaderValue::from_str] and [tower_http::cors::AllowOrigin]; [None] of [allow_origin_list] is its panic. *)
Class CorsLib : Type := {
  HeaderValue : Type;
  header_value_from_str : rstr → option HeaderValue;
  AllowOrigin : Type;
  allow_any : AllowOrigin;
  allow_origin_list : list HeaderValue → option AllowOrigin;
}.

Definition ALLOW_METHODS : list Method := [GET; POST; DELETE].

(** [build_cors]: the methods and origins of the layer; every request header is allowed. *)
Definition build_cors `{CorsLib} (allowed_origins : list rstr) : option (list Method * AllowOrigin) :=
  match allowed_origins with
  | [] => Some (ALLOW_METHODS, allow_any)
  | _ =>
      let parsed := omap header_value_from_str allowed_origins in
      origins ← allow_origin_list parsed; Some (ALLOW_METHODS, origins)
  end.

(** ** Caching *)

(** The [Cache-Control] layer: no handler sets the header itself, so every response has this value. *)
Definition CACHE_CONTROL : rstr := str "public, max-age=5".
Definition CACHE_MAX_AGE : Duration := from_secs 5.

(** ** Lemmas *)

(** The registered schema of a documented body; a list is of peers. *)
Definition schema_name (s : Schema) : rstr :=
  match s with SchPeers | SchPeer => str "PeerDto" | SchHealth => str "HealthResponse" | SchMetrics => str "MetricsResponse" end.

Section doc.
Context `{RedbApi} `{Bincode} `{Semver} `{Chrono} `{HttpLib} `{KaspaNet} `{WebLibs} (cfg : WebConfig).

Definition operation_of (ep : Endpoint) : Operation :=
  match ep with
  | EpHealth => op_health | EpMetrics => op_metrics | EpList => op_list
  | EpGet => op_get | EpSubmit => op_submit | EpDelete => op_delete
  end.

(** The body a schema describes. *)
Definition describes (s : option Schema) (b : Body) : Prop :=
  match s with
  | None => True
  | Some SchPeers => ∃ bs, b = BodyBytes bs
  | Some SchPeer => ∃ d, b = BodyPeer d
  | Some SchHealth => ∃ h, b = BodyHealth h
  | Some SchMetrics => ∃ m, b = BodyMetrics m
  end.

(** A documented response, or the internal error, which no operation documents. *)
Definition documented (ep : Endpoint) (resp : WebResponse) : Prop :=
  (∃ s, (resp_status resp, s) ∈ op_responses (operation_of ep) ∧ describes s (resp_body resp)) ∨
  ∃ m, resp = into_response (Internal m).

Ltac doc_ok := first [right; by eexists | left; eexists; split; [solve [repeat constructor]|cbn; by eauto]].

Lemma health_documented env w resp w' : health cfg env w = (Ok resp, w') → documented EpHealth resp.
Proof. intros Hh. unfold health in Hh. db_inv. repeat case_match; doc_ok. Qed.
Lemma get_metrics_documented env st w resp w' : get_metrics cfg env st w = (Ok resp, w') → documented EpMetrics resp.
Proof. intros Hh. unfold get_metrics in Hh. db_inv; doc_ok. Qed.
Lemma get_peer_documented s all env w resp w' : get_peer cfg s all env w = (Ok resp, w') → documented EpGet resp.
Proof. intros Hh. unfold get_peer in Hh. db_inv; try doc_ok. case_match; doc_ok. Qed.
Lemma delete_peer_documented s w resp w' : delete_peer s w = (Ok resp, w') → documented EpDelete resp.
Proof. intros Hh. unfold delete_peer in Hh. db_inv; try doc_ok. repeat case_match; doc_ok. Qed.
Lemma submit_begin_documented hs s remote env st r st' :
  submit_begin cfg hs s remote env st = Ok (r, st') →
  match r with inl resp => documented EpSubmit resp | inr k => ∃ addr, k = ContSubmit addr end.
Proof.
  unfold submit_begin. destruct (validate_submission _ _ _ _ _) as [[[rej|addr] rl]|]; [| |done]; cbn; intros [= <- <-]; [|by eexists].
  destruct rej; doc_ok.
Qed.

Lemma finish_documented k env st w resp st' w' :
  finish cfg k env st w = (Ok (resp, st'), w') → documented (match k with ContList _ => EpList | ContSubmit _ => EpSubmit end) resp.
Proof.
  destruct k as [key|addr]; cbn [finish].
  - unfold list_finish, compute_list_body. intros Hf. db_inv. repeat case_match; simplify_eq; doc_ok.
  - unfold submit_finish. destruct (probe_and_store _ _ _ _) as [[rec|e|] w1]; intros; simplify_eq; doc_ok.
Qed.

(** What a request is answered with at once, and where it waits. *)
Lemma begin_documented hs req env st w r st' w' :
  begin cfg hs req env st w = (Ok (r, st'), w') →
  match r with
  | inl resp => documented (endpoint_of req) resp
  | inr k => endpoint_of req = match k with ContList _ => EpList | ContSubmit _ => EpSubmit end
  end.
Proof.
  unfold begin. intros Hb. destruct (gated _ _ && _) eqn:Eg.
  { db_inv. apply andb_prop in Eg as [Eg _]. by destruct req; cbn in Eg; try done; doc_ok. }
  destruct req as [| |all|s remote|s all|s]; cbn [handle endpoint_of] in *.
  - db_inv. by eapply health_documented.
  - db_inv. by eapply get_metrics_documented.
  - unfold list_begin in Hb. destruct (peers_cache_get _ _ _) as [[b|] c]; db_inv; [doc_ok|done].
  - unfold lift in Hb. injection Hb as Hs <-. apply submit_begin_documented in Hs. destruct r; [done|]. by destruct Hs as [? ->].
  - db_inv. by eapply get_peer_documented.
  - db_inv. by eapply delete_peer_documented.
Qed.
End doc.

(** The document at a prefix, path by path. *)
Lemma document_lookup base path item :
  document base !! path = Some item ↔ ∃ p, path = base ++ p ∧ openapi !! p = Some item.
Proof.
  unfold document. case_decide as Hb.
  - subst. split; [intros Hd; by exists path|by intros (p & -> & Hd)].
  - apply lookup_kmap_Some. intros a b. apply app_inv_head.
Qed.

Lemma openapi_lookup p item :
  openapi !! p = Some item ↔
  (p = HEALTH_PATH ∧ item = [op_health]) ∨ (p = METRICS_PATH ∧ item = [op_metrics]) ∨
  (p = LIST_PATH ∧ item = [op_list; op_submit]) ∨ (p = GET_PATH ∧ item = [op_get; op_delete]).
Proof.
  assert (openapi = <[HEALTH_PATH := [op_health]]> (<[METRICS_PATH := [op_metrics]]>
    (<[LIST_PATH := [op_list; op_submit]]> {[GET_PATH := [op_get; op_delete]]}))) as -> by (vm_compute; reflexivity).
  rewrite !lookup_insert_Some, lookup_singleton_Some.
  assert (HEALTH_PATH ≠ METRICS_PATH ∧ HEALTH_PATH ≠ LIST_PATH ∧ HEALTH_PATH ≠ GET_PATH ∧ METRICS_PATH ≠ LIST_PATH ∧
    METRICS_PATH ≠ GET_PATH ∧ LIST_PATH ≠ GET_PATH) by (split_and!; by vm_compute).
  naive_solver.
Qed.

(** Whether every alternative of an operation's requirements asks for a scheme. *)
Definition needs_key (op : Operation) : bool :=
  bool_decide (op_security op ≠ []) && forallb (λ alt, bool_decide (alt ≠ [])) (op_security op).

Lemma routes_documented raw_prefix m p ep g :
  mkRoute m p ep g ∈ build_router raw_prefix ↔
  ∃ item op, document (normalize_prefix raw_prefix) !! p = Some item ∧ op ∈ item ∧ op_method op = m ∧ op_endpoint op = ep ∧ needs_key op = g.
Proof.
  unfold build_router. generalize (normalize_prefix raw_prefix) as base. intros base. split.
  - rewrite !elem_of_cons, elem_of_nil. setoid_rewrite document_lookup. setoid_rewrite openapi_lookup.
    intros [E|[E|[E|[E|[E|[E|[]]]]]]]; injection E as -> -> -> ->;
      [exists [op_health], op_health|exists [op_metrics], op_metrics|exists [op_list; op_submit], op_list|
       exists [op_list; op_submit], op_submit|exists [op_get; op_delete], op_get|exists [op_get; op_delete], op_delete];
      (split; [eexists; split; [done|tauto]|]); (split; [set_solver|done]).
  - intros (item & op & Hd & Hop & <- & <- & <-). apply document_lookup in Hd as (p' & -> & Hd). apply openapi_lookup in Hd.
    destruct Hd as [[-> ->]|[[-> ->]|[[-> ->]|[-> ->]]]]; repeat (apply elem_of_cons in Hop as [->|Hop]);
      try (by apply not_elem_of_nil in Hop); rewrite !elem_of_cons; auto 10.
Qed.

Lemma references_declared op :
  op ∈ api_operations → op_tag op ∈ api_tags ∧ ∀ c s, (c, Some s) ∈ op_responses op → schema_name s ∈ api_schemas.
Proof.
  intros Hop. unfold api_operations in Hop. repeat (apply elem_of_cons in Hop as [->|Hop]); [..|by apply not_elem_of_nil in Hop].
  all: split; [apply (bool_decide_eq_true_1 _); by vm_compute|intros c [] _; apply (bool_decide_eq_true_1 _); by vm_compute].
Qed.
Lemma schemes_known op alt : op ∈ api_operations → alt ∈ op_security op → alt ⊆ [security_scheme.1].
Proof.
  intros Hop. unfold api_operations in Hop. repeat (apply elem_of_cons in Hop as [->|Hop]); [..|by apply not_elem_of_nil in Hop].
  all: intros Ha; cbn in Ha; repeat (apply elem_of_cons in Ha as [->|Ha]); try (by apply not_elem_of_nil in Ha).
  all: unfold security_scheme; cbn [fst]; set_solver.
Qed.

(** ** Claims *)

Section claims.
Context `{RedbApi} `{Bincode} `{Semver} `{Chrono} `{HttpLib} `{KaspaNet} `{WebLibs} (cfg : WebConfig).

End claims.

(** ** What the headers allow *)

(** When a shared cache may answer a request from a stored response to another one for the same target (RFC 9111, 4 and 4.1): the
    response is fresh and the requests agree on the headers its [Vary] names. *)
Definition reusable `{HttpLib} (vary : list rstr) (age : Duration) (stored presented : HeaderMap) : Prop :=
  age < CACHE_MAX_AGE ∧ Forall (λ n, header_str stored n = header_str presented n) vary.

Section sharing.
Context `{RedbApi} `{Bincode} `{Semver} `{Chrono} `{HttpLib} `{KaspaNet} `{WebLibs} (cfg : WebConfig).

(** The caching headers do not respect the key: where [Vary] does not name the key's header, a cache may hand a peer that was shown to
    the holder of the key to a client that differs only in not having it, which the server itself would refuse. *)
Lemma shared_cache_shows_peer vary hs1 hs2 s all env st w d st' w' age :
  X_API_KEY ∉ vary → (∀ n, n ≠ X_API_KEY → header_str hs1 n = header_str hs2 n) →
  authenticated hs2 (api_key cfg) = false → age < CACHE_MAX_AGE →
  begin cfg hs1 (WGet s all) env st w = (Ok (inl (mkWebResponse 200 (BodyPeer d)), st'), w') →
  reusable vary age hs1 hs2 ∧
  ∃ st2, begin cfg hs2 (WGet s all) env st w = (Ok (inl (into_response (Unauthorized (str "missing or invalid api key"))), st2), w).
Proof.
  intros Hv Hh Ha Hage _. split.
  - split; [done|]. apply Forall_forall. intros n Hn. apply Hh. by intros ->.
  - unfold begin. rewrite Ha. by eexists.
Qed.
End sharing.

(** An allow-list with the wildcard in it ends the process at start: [AllowOrigin::list] refuses it with a panic. *)
Lemma cors_wildcard_aborts `{CorsLib} origins wildcard :
  header_value_from_str (str "*") = Some wildcard → (∀ l, wildcard ∈ l → allow_origin_list l = None) →
  str "*" ∈ origins → build_cors origins = None.
Proof.
  intros Hw Hl Ho. unfold build_cors. destruct origins as [|o origins]; [by apply not_elem_of_nil in Ho|].
  rewrite Hl; [done|]. apply list_elem_of_omap. by exists (str "*").
Qed.
