(* ===== verification/WebSystem.v ===== *)
(** * The HTTP API as a concurrent system

    Requests of many clients interleaved: a request runs up to the point where it waits (the scan of
    a list, the probe of a submission) and from there to its response as one step each, other requests
    and the other tasks of the process run in between, and time passes. The claims of this file
    hold in every state such a system reaches. *)

From S2P Require Import Prelude Text Net NetParse Common RateLimit Record Redb PeerStore StoreSpec StoreOps StoreScans.
From S2P Require Import Crawler Runner Tasks ServingCache WebBase SysInfo Stats WebPeers.

Section system.
Context `{RedbApi} `{Bincode} `{Semver} `{Chrono} `{HttpLib} `{KaspaNet} `{WebLibs} (cfg : WebConfig).

(** A response as the client got it. *)
Record Served : Type := mkServed { sv_auth : bool; sv_req : WebRequest; sv_resp : WebResponse; sv_time : Instant }.

(** A body computed for a list: the database and the clock of its scan, and when it was cached. *)
Record Listing : Type := mkListing {
  l_key : Key; l_body : bytes; l_time : Instant; l_disk : Disk; l_ms : Z;
}.

(** The state; the last three fields are history. *)
Record Sys : Type := mkSys {
  sy_world : World;
  sy_web : WebState;
  sy_now : Instant;
  sy_pend : list (bool * WebRequest * Cont);
  sy_trace : list Served;
  sy_log : list Listing;
  sy_count : Z;
}.

Definition sys_init (w : World) (t : Instant) : Sys := mkSys w (app_state_build cfg None) t [] [] [] 0.

(** The listing a finished request leaves behind. *)
Definition listing_of (k : Cont) (resp : WebResponse) (env : Env) (d : Disk) : list Listing :=
  match k, resp_body resp with
  | ContList key, BodyBytes b => [mkListing key b (env_t env) d (env_ms env)]
  | _, _ => []
  end.

(** What a step reads: the monotonic clock is the system's, the wall clock is milliseconds that fit, and a probe's messages are
    at their types. *)
Definition env_at (env : Env) (sys : Sys) : Prop :=
  env_t env = sy_now sys ∧ clock_ok (env_ms env) ∧ outcome_typed (env_probe env).

(** One step; the label says whether the request it belongs to carried the key. *)
Inductive wstep : option bool → Sys → Sys → Prop :=
  | wstep_begin sys headers req env resp st' w' :
      env_at env sys →
      begin cfg headers req env (sy_web sys) (sy_world sys) = (Ok (inl resp, st'), w') →
      wstep (Some (authenticated headers (api_key cfg))) sys
        (mkSys w' st' (sy_now sys) (sy_pend sys)
           (mkServed (authenticated headers (api_key cfg)) req resp (sy_now sys) :: sy_trace sys) (sy_log sys) (sy_count sys + 1))
  | wstep_wait sys headers req env k st' w' :
      env_at env sys →
      begin cfg headers req env (sy_web sys) (sy_world sys) = (Ok (inr k, st'), w') →
      wstep (Some (authenticated headers (api_key cfg))) sys
        (mkSys w' st' (sy_now sys) ((authenticated headers (api_key cfg), req, k) :: sy_pend sys)
           (sy_trace sys) (sy_log sys) (sy_count sys + 1))
  | wstep_finish sys auth req k p1 p2 env resp st' w' :
      sy_pend sys = p1 ++ (auth, req, k) :: p2 →
      env_at env sys →
      finish cfg k env (sy_web sys) (sy_world sys) = (Ok (resp, st'), w') →
      wstep (Some auth) sys
        (mkSys w' st' (sy_now sys) (p1 ++ p2) (mkServed auth req resp (sy_now sys) :: sy_trace sys)
           (listing_of k resp env (disk (sy_world sys)) ++ sy_log sys) (sy_count sys))
  | wstep_other sys w' :
      wstep None sys (mkSys w' (sy_web sys) (sy_now sys) (sy_pend sys) (sy_trace sys) (sy_log sys) (sy_count sys))
  | wstep_tick sys t :
      sy_now sys ≤ t →
      wstep None sys (mkSys (sy_world sys) (sy_web sys) t (sy_pend sys) (sy_trace sys) (sy_log sys) (sy_count sys)).

Definition wsteps : Sys → Sys → Prop := rtc (λ s s', ∃ l, wstep l s s').

(** ** What a client without the key may see *)

(** A list of public projections; any other body that has no peer in it. *)
Definition public_body (b : bytes) : Prop :=
  ∃ recs : list PeerRecord, json_to_vec ((λ r, Public (public_from_record r)) <$> recs) = Some b.
Definition public_resp (resp : WebResponse) : Prop :=
  match resp_body resp with
  | BodyPeer _ => False
  | BodyBytes b => public_body b
  | BodyEmpty | BodyError _ _ | BodyHealth _ | BodyMetrics _ => True
  end.

(** The result of a successful scan. *)
Definition computed (l : Listing) : Prop :=
  ∃ fs w', compute_list_body cfg (k_all (l_key l)) (k_expose (l_key l)) (l_ms l) (mkWorld (l_disk l) fs) =
    (Ok (inr (l_body l)), w').

(** A list response and the listing it comes from. *)
Definition list_served (sv : Served) (log : list Listing) : Prop :=
  ∀ b, resp_body (sv_resp sv) = BodyBytes b →
    ∃ all l, sv_req sv = WList all ∧ l ∈ log ∧ l_key l = mkKey all (sv_auth sv) ∧ l_body l = b ∧
      0 ≤ sv_time sv - l_time l < PEERS_CACHE_TTL.

(** ** The invariant *)

Definition pend_ok (p : bool * WebRequest * Cont) : Prop :=
  match p with
  | (auth, req, ContList key) => ∃ all, req = WList all ∧ key = mkKey all auth
  | (auth, req, ContSubmit addr) => auth = true ∧ (∃ s remote, req = WSubmit s remote) ∧
      addr_ok (network_default_port cfg) (web_strict_port cfg) (net_from addr) ∧ net_wf (net_from addr)
  end.

Record web_inv (sys : Sys) : Prop := {
  wi_ttl : c_ttl (ws_cache (sy_web sys)) = PEERS_CACHE_TTL;
  wi_keys : NoDup (e_key <$> c_entries (ws_cache (sy_web sys)));
  wi_entries : ∀ e, e ∈ c_entries (ws_cache (sy_web sys)) →
    e_inserted e ≤ sy_now sys ∧
    ∃ l, l ∈ sy_log sys ∧ l_key l = e_key e ∧ l_body l = e_body e ∧ l_time l = e_inserted e;
  wi_pend : Forall pend_ok (sy_pend sys);
  wi_log : ∀ l, l ∈ sy_log sys → computed l;
  wi_list : ∀ sv, sv ∈ sy_trace sys → list_served sv (sy_log sys);
  wi_peer : ∀ sv, sv ∈ sy_trace sys → sv_auth sv = false → ∀ d, resp_body (sv_resp sv) ≠ BodyPeer d;
}.

(** ** Lemmas on the store's queries *)

Lemma readonly_catch {A} (c : DB A) : readonly c → readonly (catch c).
Proof. intros Hc w. specialize (Hc w). unfold catch. by destruct (c w) as [[]]. Qed.
Lemma collect_matching_readonly f : readonly (collect_matching f).
Proof. unfold collect_matching, read_txn, open_table, iter_rows. solve_readonly. Qed.
Lemma summary_readonly now stale_good validity : readonly (summary now stale_good validity).
Proof. unfold summary, read_txn, open_table, iter_rows. solve_readonly. Qed.

Lemma compute_list_body_readonly all expose now : readonly (compute_list_body cfg all expose now).
Proof.
  apply readonly_bind; [apply readonly_catch, collect_matching_readonly|]. intros r. apply readonly_ret.
Qed.

(** A body computed without the key has no address in it. *)
Lemma computed_public l : computed l → k_expose (l_key l) = false → public_body (l_body l).
Proof.
  intros (fs & w' & Hc) Hex. unfold compute_list_body, mbind, DB_bind in Hc.
  destruct (catch _ _) as [[[e|recs]|e|] w1]; cbn in Hc; [discriminate Hc| |discriminate Hc..].
  rewrite Hex in Hc. destruct (json_to_vec _) as [b|] eqn:Ej; [|discriminate Hc]. injection Hc as <- _.
  by eexists.
Qed.

(** ** Lemmas on one step *)

Lemma peers_cache_get_spec key now c body c' :
  peers_cache_get key now c = (body, c') →
  c_ttl c' = c_ttl c ∧
  (c_entries c' = filter (λ e, duration_since now (e_inserted e) < c_ttl c) (c_entries c)) ∧
  ∀ b, body = Some b → ∃ e, e ∈ c_entries c' ∧ e_key e = key ∧ e_body e = b.
Proof.
  unfold peers_cache_get. intros [= <- <-]. split; [done|]. split; [done|].
  intros b Hb. apply fmap_Some in Hb as ([i e] & Hf & ->). apply list_find_Some in Hf as (Hl & Hk & _).
  exists e. split; [|done]. by eapply list_elem_of_lookup_2.
Qed.

Lemma gated_eq prefix ep :
  gated prefix ep = match ep with EpSubmit | EpGet | EpDelete => true | EpHealth | EpMetrics | EpList => false end.
Proof. by destruct ep. Qed.

Lemma health_spec env w resp w' :
  health cfg env w = (Ok resp, w') → disk w' = disk w ∧ ∃ h, resp_body resp = BodyHealth h.
Proof.
  intros Hh. assert (Hro : readonly (health cfg env)).
  { apply readonly_bind; [apply readonly_catch, summary_readonly|]. intros. apply readonly_ret. }
  specialize (Hro w). rewrite Hh in Hro. split; [exact Hro|]. unfold health in Hh. db_inv.
  by repeat case_match; eexists.
Qed.

Lemma get_metrics_spec env st w resp w' :
  get_metrics cfg env st w = (Ok resp, w') →
  disk w' = disk w ∧ ((∃ s e, resp_body resp = BodyError s e) ∨ ∃ m, resp_body resp = BodyMetrics m).
Proof.
  intros Hh. assert (Hro : readonly (get_metrics cfg env st)).
  { apply readonly_bind; [apply readonly_catch, summary_readonly|]. intros []; solve_readonly. }
  specialize (Hro w). rewrite Hh in Hro. split; [exact Hro|]. unfold get_metrics in Hh. db_inv; cbn; eauto.
Qed.

Lemma get_peer_body addr_port all env w resp w' b :
  get_peer cfg addr_port all env w = (Ok resp, w') → resp_body resp ≠ BodyBytes b.
Proof. intros Hh. unfold get_peer in Hh. db_inv; try done. by case_match. Qed.

Lemma delete_peer_body addr_port w resp w' b :
  delete_peer addr_port w = (Ok resp, w') → resp_body resp ≠ BodyBytes b.
Proof. intros Hh. unfold delete_peer in Hh. db_inv; try done. by repeat case_match. Qed.

(** A submission that passes validation is for an address the crawler would store. *)
Lemma validate_submission_ok s client rl t addr rl' :
  validate_submission cfg s client rl t = Some (inr addr, rl') →
  addr_ok (network_default_port cfg) (web_strict_port cfg) (net_from addr) ∧ net_wf (net_from addr).
Proof.
  unfold validate_submission. destruct (check rl client t) as [[ok rl1]|]; [|done]. cbn [mbind option_bind].
  destruct ok; [|done]. cbn [negb]. destruct (socket_from_str (trim s)) as [a|] eqn:Es; [|done].
  apply socket_from_str_wf, net_from_wf in Es. destruct (is_acceptable_address _ _ _) eqn:Ea; [|done]. intros [= <- <-]. unfold net_from.
  rewrite socket_new_ip, socket_new_port. cbn [ip port]. rewrite canonicalize_ip_idemp.
  split; [split; [exact Ea|apply canonicalize_ip_idemp]|exact Es].
Qed.

Lemma submit_begin_spec headers s remote env st r st' :
  submit_begin cfg headers s remote env st = Ok (r, st') →
  ws_cache st' = ws_cache st ∧
  match r with
  | inl resp => ∃ c e, resp_body resp = BodyError c e
  | inr k => ∃ addr, k = ContSubmit addr ∧
      addr_ok (network_default_port cfg) (web_strict_port cfg) (net_from addr) ∧ net_wf (net_from addr)
  end.
Proof.
  unfold submit_begin. destruct (validate_submission _ _ _ _ _) as [[[rej|addr] rl]|] eqn:Ev; [| |done]; cbn.
  - intros [= <- <-]. split; [done|]. by eexists _, _.
  - intros [= <- <-]. split; [done|]. exists addr. split; [done|]. by eapply validate_submission_ok.
Qed.

(** What [begin] does for a request other than a list: the cache is left alone, only a submission with
    the key waits, and without the key nothing is stored and no peer shown. *)
Lemma begin_other headers req env st w r st' w' :
  begin cfg headers req env st w = (Ok (r, st'), w') → (∀ all, req ≠ WList all) →
  ws_cache st' = ws_cache st ∧
  (authenticated headers (api_key cfg) = false → disk w' = disk w) ∧
  match r with
  | inl resp => (∀ b, resp_body resp ≠ BodyBytes b) ∧
      (authenticated headers (api_key cfg) = false → ∀ d, resp_body resp ≠ BodyPeer d)
  | inr k => pend_ok (authenticated headers (api_key cfg), req, k)
  end.
Proof.
  unfold begin. rewrite gated_eq. set (auth := authenticated headers (api_key cfg)). intros Hb Hnl.
  destruct (_ && negb auth) eqn:Eg; [db_inv; by split|]. 
  destruct req as [| |all|s remote|s all|s]; cbn [endpoint_of andb] in Eg; cbn [handle] in Hb; [| |by destruct (Hnl all)| | |].
  - db_inv. match goal with E : health _ _ _ = _ |- _ => apply health_spec in E as [Hd [h E]]; rewrite E end. done.
  - db_inv. match goal with E : get_metrics _ _ _ _ = _ |- _ => apply get_metrics_spec in E as [Hd E] end.
    split; [done|]. split; [done|]. split; [|intros _]; intros ? E'; rewrite E' in *; naive_solver.
  - unfold lift in Hb. injection Hb as Hs <-. apply submit_begin_spec in Hs as [Hc Hr]. split; [done|].
    split; [done|]. destruct auth eqn:Ea; [|done]. destruct r as [resp|k].
    + destruct Hr as (c & e & ->). done.
    + destruct Hr as (addr & -> & Hok). split; [done|]. split; [by eexists _, _|done].
  - destruct auth eqn:Ea; [|done]. db_inv. split; [done|]. split; [done|]. split; [|done].
    intros b. by eapply get_peer_body.
  - destruct auth eqn:Ea; [|done]. db_inv. split; [done|]. split; [done|]. split; [|done].
    intros b. by eapply delete_peer_body.
Qed.

Lemma begin_list headers all env st w r st' w' :
  begin cfg headers (WList all) env st w = (Ok (r, st'), w') →
  let key := mkKey all (authenticated headers (api_key cfg)) in
  w' = w ∧ ∃ body, peers_cache_get key (env_t env) (ws_cache st) = (body, ws_cache st') ∧
    r = match body with Some b => inl (mkWebResponse 200 (BodyBytes b)) | None => inr (ContList key) end.
Proof.
  unfold begin. rewrite gated_eq. cbn [endpoint_of andb handle]. unfold list_begin. cbn [ws_cache with_ws_metrics].
  destruct (peers_cache_get _ _ _) as [body c']. intros Hb. db_inv. split; [done|]. by exists body.
Qed.

Lemma finish_list key env st w resp st' w' :
  finish cfg (ContList key) env st w = (Ok (resp, st'), w') →
  disk w' = disk w ∧
  ((∃ b, resp_body resp = BodyBytes b ∧ ws_cache st' = peers_cache_put key b (env_t env) (ws_cache st) ∧
         computed (mkListing key b (env_t env) (disk w) (env_ms env))) ∨
   ((∃ c e, resp_body resp = BodyError c e) ∧ ws_cache st' = ws_cache st)).
Proof.
  cbn [finish]. unfold list_finish. intros Hf. apply db_bind_ok in Hf as (r & w1 & Hc & Hf).
  pose proof (compute_list_body_readonly (k_all key) (k_expose key) (env_ms env) w) as Hro. rewrite Hc in Hro.
  injection Hf as Hf <-. split; [exact Hro|]. destruct r as [err|b]; injection Hf as <- <-.
  - right. split; [by eexists _, _|done].
  - left. exists b. split; [done|]. split; [done|]. destruct w as [d fs]. by eexists fs, _.
Qed.

Lemma finish_submit addr env st w resp st' w' :
  finish cfg (ContSubmit addr) env st w = (Ok (resp, st'), w') →
  ws_cache st' = ws_cache st ∧ ∀ b, resp_body resp ≠ BodyBytes b.
Proof.
  cbn [finish]. unfold submit_finish. destruct (probe_and_store _ _ _ _) as [[r|e|] w1]; [| |done].
  all: by intros [= <- <- <-].
Qed.

Lemma listing_of_bytes k resp env d l :
  l ∈ listing_of k resp env d → ∃ key b, k = ContList key ∧ resp_body resp = BodyBytes b ∧
    l = mkListing key b (env_t env) d (env_ms env).
Proof.
  unfold listing_of. destruct k as [key|]; [|by intros ?%not_elem_of_nil].
  case_match; try by intros ?%not_elem_of_nil. intros ->%list_elem_of_singleton. by eexists _, _.
Qed.

(** ** Preservation *)

Lemma web_inv_init w t : web_inv (sys_init w t).
Proof. split; cbn; [done|constructor|set_solver|constructor|set_solver..]. Qed.

(** Later history keeps what was served and cached accounted for. *)
Lemma list_served_mono sv log log' : list_served sv log → log ⊆ log' → list_served sv log'.
Proof. intros Hl Hsub b Hb. destruct (Hl b Hb) as (all & l & ? & ? & ?). exists all, l. naive_solver. Qed.

(** The lookup of a list keeps the invariant, and a hit comes from a listing that is not expired. *)
Lemma cache_get_inv sys key body c' :
  web_inv sys → peers_cache_get key (sy_now sys) (ws_cache (sy_web sys)) = (body, c') →
  c_ttl c' = PEERS_CACHE_TTL ∧ NoDup (e_key <$> c_entries c') ∧
  (∀ e, e ∈ c_entries c' → e ∈ c_entries (ws_cache (sy_web sys))) ∧
  ∀ b, body = Some b → ∃ l, l ∈ sy_log sys ∧ l_key l = key ∧ l_body l = b ∧ 0 ≤ sy_now sys - l_time l < PEERS_CACHE_TTL.
Proof.
  intros Hi (Httl & He & Hb)%peers_cache_get_spec. rewrite wi_ttl in * by done. split; [done|].
  assert (Hin : ∀ e, e ∈ c_entries c' → e ∈ c_entries (ws_cache (sy_web sys)) ∧
    duration_since (sy_now sys) (e_inserted e) < PEERS_CACHE_TTL).
  { intros e. rewrite He, list_elem_of_filter. naive_solver. }
  split; [|split].
  - rewrite He. eapply sublist_NoDup; [apply (wi_keys _ Hi)|]. apply fmap_sublist, sublist_filter.
  - intros e Hel. by apply Hin.
  - intros b Hbd. destruct (Hb b Hbd) as (e & Hel & Hk & Hbo). apply Hin in Hel as [Hel Hd].
    destruct (wi_entries _ Hi e Hel) as (Ht & l & Hl & Hlk & Hlb & Hlt). exists l.
    split; [done|]. split; [congruence|]. split; [congruence|]. unfold duration_since in Hd. lia.
Qed.

(** What a step has to show of the parts it changes. *)
Lemma web_inv_extend sys w' st' pend' trace' log' n' :
  web_inv sys →
  c_ttl (ws_cache st') = PEERS_CACHE_TTL → NoDup (e_key <$> c_entries (ws_cache st')) →
  (∀ e, e ∈ c_entries (ws_cache st') → e ∈ c_entries (ws_cache (sy_web sys)) ∨
     (e_inserted e ≤ sy_now sys ∧ ∃ l, l ∈ log' ∧ l_key l = e_key e ∧ l_body l = e_body e ∧ l_time l = e_inserted e)) →
  Forall pend_ok pend' →
  sy_log sys ⊆ log' → (∀ l, l ∈ log' → l ∈ sy_log sys ∨ computed l) →
  (∀ sv, sv ∈ trace' → sv ∈ sy_trace sys ∨
     (list_served sv log' ∧ (sv_auth sv = false → ∀ d, resp_body (sv_resp sv) ≠ BodyPeer d))) →
  web_inv (mkSys w' st' (sy_now sys) pend' trace' log' n').
Proof.
  intros Hi Httl Hk He Hp Hsub Hlog Htr. split; cbn [sy_web sy_now sy_pend sy_log sy_trace]; [done|done| |done| | |].
  - intros e Hel. destruct (He e Hel) as [Ho|Hn]; [|done]. destruct (wi_entries _ Hi e Ho) as (Ht & l & Hl & Hr).
    split; [done|]. exists l. split; [by apply Hsub|done].
  - intros l [Ho|Hn]%Hlog; [by apply (wi_log _ Hi)|done].
  - intros sv [Ho|[Hn _]]%Htr; [|done]. eapply list_served_mono; [by apply (wi_list _ Hi)|done].
  - intros sv [Ho|[_ Hn]]%Htr; [by apply (wi_peer _ Hi)|done].
Qed.

Lemma list_served_no_bytes sv log : (∀ b, resp_body (sv_resp sv) ≠ BodyBytes b) → list_served sv log.
Proof. intros Hn b Hb. by destruct (Hn b). Qed.

(** Same cache, same log: the frame of every step that is not a list. *)
Lemma web_inv_frame sys w' st' pend' trace' n' :
  web_inv sys → ws_cache st' = ws_cache (sy_web sys) → Forall pend_ok pend' →
  (∀ sv, sv ∈ trace' → sv ∈ sy_trace sys ∨
     ((∀ b, resp_body (sv_resp sv) ≠ BodyBytes b) ∧ (sv_auth sv = false → ∀ d, resp_body (sv_resp sv) ≠ BodyPeer d))) →
  web_inv (mkSys w' st' (sy_now sys) pend' trace' (sy_log sys) n').
Proof.
  intros Hi Hc Hp Htr. apply web_inv_extend; rewrite ?Hc; [done|apply Hi|apply Hi|by auto|done|done|by auto|].
  intros sv [?|[? ?]]%Htr; [by left|right]. split; [by apply list_served_no_bytes|done].
Qed.

Lemma web_inv_begin sys headers req env r st' w' :
  web_inv sys → env_t env = sy_now sys →
  begin cfg headers req env (sy_web sys) (sy_world sys) = (Ok (r, st'), w') →
  let auth := authenticated headers (api_key cfg) in
  web_inv match r with
    | inl resp => mkSys w' st' (sy_now sys) (sy_pend sys) (mkServed auth req resp (sy_now sys) :: sy_trace sys) (sy_log sys) (sy_count sys + 1)
    | inr k => mkSys w' st' (sy_now sys) ((auth, req, k) :: sy_pend sys) (sy_trace sys) (sy_log sys) (sy_count sys + 1)
    end.
Proof.
  intros Hi Ht Hb auth. assert ((∃ all, req = WList all) ∨ ∀ all, req ≠ WList all) as [[all ->]|Hn].
  { destruct req; eauto. }
  - apply begin_list in Hb as (-> & body & Hg & ->). rewrite Ht in Hg.
    destruct (cache_get_inv _ _ _ _ Hi Hg) as (Httl & Hk & Hin & Hhit). destruct body as [b|].
    + apply web_inv_extend; [done..|by auto|apply Hi|done|by auto|]. intros sv [->|?]%elem_of_cons; [right|by left].
      split; [|done]. intros b' [= <-]. destruct (Hhit b eq_refl) as (l & ? & ? & ? & ?). by exists all, l.
    + apply web_inv_extend; [done..|by auto| |done|by auto|by auto]. constructor; [by exists all|apply Hi].
  - destruct (begin_other _ _ _ _ _ _ _ _ Hb Hn) as (Hc & _ & Hr). destruct r as [resp|k].
    + apply web_inv_frame; [done..|apply Hi|]. intros sv [->|?]%elem_of_cons; [by right|by left].
    + apply web_inv_frame; [done..| |by auto]. constructor; [done|apply Hi].
Qed.

Lemma web_inv_finish sys auth req k p1 p2 env resp st' w' :
  web_inv sys → sy_pend sys = p1 ++ (auth, req, k) :: p2 → env_t env = sy_now sys →
  finish cfg k env (sy_web sys) (sy_world sys) = (Ok (resp, st'), w') →
  web_inv (mkSys w' st' (sy_now sys) (p1 ++ p2) (mkServed auth req resp (sy_now sys) :: sy_trace sys)
    (listing_of k resp env (disk (sy_world sys)) ++ sy_log sys) (sy_count sys)).
Proof.
  intros Hi Hp Ht Hf. pose proof (wi_pend _ Hi) as Hpk. rewrite Hp, Forall_app, Forall_cons in Hpk.
  destruct Hpk as (Hp1 & Hk & Hp2). assert (Hpend : Forall pend_ok (p1 ++ p2)) by (by apply Forall_app).
  destruct k as [key|addr].
  - destruct Hk as (all & -> & ->). apply finish_list in Hf as [_ [(b & Hb & Hc & Hcomp)|[(c & e & Hb) Hc]]].
    + unfold listing_of. rewrite Hb. set (l := mkListing _ _ _ _ _) in *.
      apply web_inv_extend; rewrite ?Hc; cbn [c_ttl c_entries peers_cache_put]; [done|apply Hi| | |done| | |].
      * rewrite fmap_app. cbn. apply NoDup_app. split; [|split; [|apply NoDup_singleton]].
        -- eapply sublist_NoDup; [apply (wi_keys _ Hi)|]. apply fmap_sublist, sublist_filter.
        -- intros k' (e & Hek & [Hne _]%list_elem_of_filter)%list_elem_of_fmap Hk'%list_elem_of_singleton. congruence.
      * intros e [He|He]%elem_of_app; [apply list_elem_of_filter in He as [_ He]; by left|right].
        apply list_elem_of_singleton in He as ->.
        split; [cbn; lia|]. exists l. split; [by left|]. done.
      * set_solver.
      * intros l' [->|?]%elem_of_cons; [by right|by left].
      * intros sv [->|?]%elem_of_cons; [right|by left]. cbn [sv_resp sv_auth]. rewrite Hb.
        split; [|done]. intros b' Hb'. exists all, l. cbn in Hb' |- *. rewrite Hb in Hb'. injection Hb' as <-.
        split; [done|]. split; [by left|]. rewrite Ht. split; [done|]. split; [done|]. unfold PEERS_CACHE_TTL, from_secs, NANOS. lia.
    + unfold listing_of. rewrite Hb. apply web_inv_frame; [done..|].
      intros sv [->|?]%elem_of_cons; [right|by left]. cbn. by rewrite Hb.
  - destruct Hk as (-> & _ & _). apply finish_submit in Hf as [Hc Hb]. cbn [listing_of].
    destruct (resp_body resp) eqn:Er; try (by destruct (Hb _ eq_refl)); apply web_inv_frame; try done.
    all: intros sv [->|?]%elem_of_cons; [right; cbn; by rewrite Er|by left].
Qed.

Lemma web_inv_step l sys sys' : wstep l sys sys' → web_inv sys → web_inv sys'.
Proof.
  intros Hs Hi. destruct Hs as [sys headers req env resp st' w' Ht Hb|sys headers req env k st' w' Ht Hb
    |sys auth req k p1 p2 env resp st' w' Hp Ht Hf|sys w'|sys t Ht].
  - by apply (web_inv_begin _ _ _ _ _ _ _ Hi (proj1 Ht) Hb).
  - by apply (web_inv_begin _ _ _ _ _ _ _ Hi (proj1 Ht) Hb).
  - destruct Ht as [Ht _]. by eapply web_inv_finish.
  - apply web_inv_frame; [done|done|apply Hi|by auto].
  - destruct Hi as [? ? He ? ? ? ?]. split; cbn; try done. intros e Hel. destruct (He e Hel) as [? ?]. split; [lia|done].
Qed.

Lemma web_inv_reachable w t sys : wsteps (sys_init w t) sys → web_inv sys.
Proof.
  intros Hr. assert (Hi := web_inv_init w t). revert Hi. induction Hr as [|x y z [l Hs] _ IH]; [done|].
  intros Hx. apply IH. by eapply web_inv_step.
Qed.

(** A step of a request without the key does not touch the database. *)
Lemma step_without_key sys sys' :
  web_inv sys → wstep (Some false) sys sys' → disk (sy_world sys') = disk (sy_world sys).
Proof.
  intros Hi Hs. inversion Hs as [? headers req env resp st' w' Ht Hb Ha|? headers req env k st' w' Ht Hb Ha
    |? auth req k p1 p2 env resp st' w' Hp Ht Hf Ha| |]; subst; cbn [sy_world].
  1, 2: assert ((∃ all, req = WList all) ∨ ∀ all, req ≠ WList all) as [[all ->]|Hn] by (destruct req; eauto);
    [by apply begin_list in Hb as (-> & _)|destruct (begin_other _ _ _ _ _ _ _ _ Hb Hn) as (_ & Hd & _); by apply Hd].
  pose proof (wi_pend _ Hi) as Hpk. rewrite Hp, Forall_app, Forall_cons in Hpk. destruct Hpk as (_ & Hk & _).
  destruct k as [key|addr]; [by apply finish_list in Hf as [Hd _]|by destruct Hk].
Qed.

(** ** Theorems *)

(** C5: the key guards the addresses and the store. However requests interleave, whatever the other tasks
    do to the store and whatever the cache holds, a client without the key gets no peer
    address: every body it is sent is an error, the health or the counters, or a list of public projections,
    never one that was computed or cached for a client with the key; and no step of such a client's
    requests changes the database. *)
Theorem web_needs_key w t sys :
  wsteps (sys_init w t) sys →
  (∀ sv, sv ∈ sy_trace sys → sv_auth sv = false → public_resp (sv_resp sv)) ∧
  (∀ sys', wstep (Some false) sys sys' → disk (sy_world sys') = disk (sy_world sys)).
Proof.
  intros Hi%web_inv_reachable. split; [|intros sys'; by apply step_without_key].
  intros sv Hsv Ha. unfold public_resp. destruct (resp_body (sv_resp sv)) as [|b|d| | |] eqn:Eb; try done.
  - destruct (wi_list _ Hi sv Hsv b Eb) as (all & l & _ & Hl & Hk & <- & _).
    apply computed_public; [by apply (wi_log _ Hi)|]. rewrite Hk. exact Ha.
  - by apply (wi_peer _ Hi sv Hsv Ha d).
Qed.
End system.
