(* ===== verification/WebClaims.v ===== *)
(** * The contract of the HTTP API

    What each endpoint answers and changes, on every branch, and what the counters of
    the web subsystem add up to; over the handlers of WebPeers.v and the system of WebSystem.v. *)

From S2P Require Import Prelude Text Net NetParse Common RateLimit Record Redb RedbInstances PeerStore StoreSpec StoreOps StoreScans.
From S2P Require Import StoreQueries StoreExample Crawler Runner Tasks ServingCache DnsHandler WebBase SysInfo Stats WebPeers WebSystem.

Section lists.
Context `{RedbApi} `{!RedbLaws} `{Bincode} `{!BincodeLaws} `{Semver} `{Chrono} `{HttpLib} `{KaspaNet} `{WebLibs}.
Context (cfg : WebConfig).

(** ** Lists *)

(** The records a list is made of. *)
Definition list_ok (all : bool) (now : Z) (r : PeerRecord) : Prop :=
  if all then 0 < last_success_ms r
  else now - last_success_ms r ≤ duration_to_ms (web_stale_good cfg) ∧ passes_validity (list_filter cfg false now) r = true.

Lemma list_filter_matches all now m r :
  0 ≤ now ≤ I64_MAX → times_ok m → m !! address r = Some r →
  ∃ b, matches (list_filter cfg all now) r = Some b ∧
    (b = true ↔ if all then True else list_ok all now r).
Proof.
  intros Hnow Hm Hr. destruct (Hm _ _ Hr) as [Hs Ho]. unfold list_filter.
  eexists. split; [apply matches_serving; by apply sub_in_i64|].
  rewrite !andb_true_iff, bool_decide_eq_true. destruct all; cbn [list_ok].
  - split; [done|]. intros _. split; [split; [lia|done]|]. apply passes_validity_spec. by split; [|split].
  - unfold list_ok, list_filter. naive_solver.
Qed.

(** The scan of a list over such records: the age computations do not overflow. *)
Lemma list_scan d m all now :
  repr d m → times_ok m → 0 ≤ now ≤ I64_MAX →
  atomic d (collect_matching (list_filter cfg all now)) enc_err
    (λ out d', d' = d ∧ out ≡ₚ filter (λ r, matches (list_filter cfg all now) r = Some true) (records m)).
Proof.
  intros Hr Hm Hnow. apply collect_matching_atomic; [done|]. intros r Hin%(records_elem _ _ _ Hr).
  by destruct (list_filter_matches all now m r Hnow Hm Hin) as (b & -> & _).
Qed.

Lemma listed_eq all l :
  listed all l = take (Z.to_nat MAX_LIST_RESPONSE) (sort_std (if all then filter (λ r, 0 < last_success_ms r) l else l)).
Proof.
  unfold listed, sort_std. case_decide as Hlen; [done|]. rewrite take_ge; [done|]. unfold MAX_LIST_RESPONSE in *. lia.
Qed.

(** A computed body is the list of the freshest records the key asks for. *)
Lemma computed_spec l m :
  repr (l_disk l) m → times_ok m → 0 ≤ l_ms l ≤ I64_MAX → computed cfg l →
  ∃ recs, top_k fresher MAX_LIST_RESPONSE (λ r, m !! address r = Some r ∧ list_ok (k_all (l_key l)) (l_ms l) r) recs ∧
    json_to_vec ((λ r, from_record r (k_expose (l_key l))) <$> recs) = Some (l_body l).
Proof.
  intros Hr Hm Hnow (fs & w' & Hc). set (all := k_all (l_key l)) in *. set (now := l_ms l) in *.
  assert (Hrec : ∀ r, r ∈ records m ↔ m !! address r = Some r) by (intros r; by rewrite (records_elem _ _ _ Hr)).
  unfold compute_list_body in Hc. apply db_bind_ok in Hc as (res & w1 & Hcatch & Hc).
  destruct (atomic_catch _ _ _ _ fs (list_scan (l_disk l) m all now Hr Hm Hnow)) as (res' & w2 & Hcatch' & _ & Hres). rewrite Hcatch in Hcatch'. injection Hcatch' as <- <-.
  destruct res as [e|out]; [discriminate Hc|]. destruct Hres as [_ Hout].
  destruct (json_to_vec _) as [b|] eqn:Ej; [|discriminate Hc]. injection Hc as <- _. rewrite listed_eq in Ej.
  eexists. split; [|exact Ej]. set (sel := if all then _ else _).
  eapply (top_k_take _ _ _ _ sel); [done|apply sort_by_key_perm|apply sort_std_sorted| |].
  - assert (NoDup out) by (rewrite Hout; apply NoDup_filter; by eapply records_nodup).
    unfold sel. destruct all; [by apply NoDup_filter|done].
  - intros r. assert (Ho : r ∈ out ↔ m !! address r = Some r ∧ if all then True else list_ok all now r).
    { rewrite Hout, list_elem_of_filter, Hrec. split.
      - intros [Hma Hin]. destruct (list_filter_matches all now m r Hnow Hm Hin) as (b' & Hb & Hiff).
        split; [done|]. apply Hiff. congruence.
      - intros [Hin Hok]. destruct (list_filter_matches all now m r Hnow Hm Hin) as (b' & Hb & Hiff).
        split; [|done]. rewrite Hb. f_equal. by apply Hiff. }
    unfold sel. destruct all; [rewrite list_elem_of_filter, Ho; cbn; naive_solver|exact Ho].
Qed.

(** C20: what [GET /peers] serves. However requests interleave, every list a client gets was computed for
    the same query and the same right to see addresses, less than five seconds before the answer; it is
    the JSON of at most 1000 records of the store as it was at the scan, the most recent successes first:
    with [all] every peer that ever answered, without it those that answered inside the freshness window
    and pass the version filters; none is left out unless the list is full. And the cache never holds
    more than one body per query. *)
Theorem web_list_served w t sys :
  wsteps cfg (sys_init cfg w t) sys →
  NoDup (e_key <$> c_entries (ws_cache (sy_web sys))) ∧
  ∀ sv b, sv ∈ sy_trace sys → resp_body (sv_resp sv) = BodyBytes b →
    ∃ all l, sv_req sv = WList all ∧ l ∈ sy_log sys ∧ l_key l = mkKey all (sv_auth sv) ∧
      0 ≤ sv_time sv - l_time l < PEERS_CACHE_TTL ∧
      ∀ m, repr (l_disk l) m → times_ok m → 0 ≤ l_ms l ≤ I64_MAX →
        ∃ recs, top_k fresher MAX_LIST_RESPONSE (λ r, m !! address r = Some r ∧ list_ok all (l_ms l) r) recs ∧
          json_to_vec ((λ r, from_record r (sv_auth sv)) <$> recs) = Some b.
Proof.
  intros Hi%web_inv_reachable. split; [apply (wi_keys _ _ Hi)|]. intros sv b Hsv Hb.
  destruct (wi_list _ _ Hi sv Hsv b Hb) as (all & l & Hreq & Hl & Hk & <- & Ht).
  exists all, l. do 4 (split; [done|]). intros m Hr Hm Hms.
  destruct (computed_spec l m Hr Hm Hms (wi_log _ _ Hi l Hl)) as (recs & Hrecs). rewrite Hk in Hrecs. by exists recs.
Qed.
End lists.

Section endpoints.
Context `{RedbApi} `{!RedbLaws} `{Bincode} `{!BincodeLaws} `{Semver} `{Chrono} `{HttpLib} `{KaspaNet} `{WebLibs}.
Context (cfg : WebConfig).

(** ** Submissions *)

(** What a submission comes to once the limiter has answered: the response's code, the counters, and the
    store as a map. *)
Inductive submitted (m : gmap NetAddress PeerRecord) (s : rstr) (ok : bool) (outcome : ProbeError + ProbeResult) (now : Z)
    (rel : Prop) (ms : WebMetrics) : Z → WebMetrics → gmap NetAddress PeerRecord → Prop :=
  | sub_limited : ok = false → submitted m s ok outcome now rel ms 429 (record_post_rejection RejRateLimit ms) m
  | sub_format :
      ok = true → socket_from_str (trim s) = None →
      submitted m s ok outcome now rel ms 400 (record_post_rejection RejFormat ms) m
  | sub_unroutable addr :
      ok = true → socket_from_str (trim s) = Some addr →
      is_acceptable_address (net_from addr) (network_default_port cfg) (web_strict_port cfg) = false →
      submitted m s ok outcome now rel ms 400 (record_post_rejection RejUnroutable ms) m
  | sub_stored addr result :
      ok = true → socket_from_str (trim s) = Some addr →
      addr_ok (network_default_port cfg) (web_strict_port cfg) (net_from addr) → outcome = inr result →
      submitted m s ok outcome now rel ms 200 (record_accepted ms)
        (<[net_from addr := spec_apply addr (version result) now m]> m)
  | sub_probe_failed addr err m' :
      ok = true → socket_from_str (trim s) = Some addr →
      addr_ok (network_default_port cfg) (web_strict_port cfg) (net_from addr) → outcome = inl err →
      m' = <[net_from addr := spec_record_attempt (net_from addr) now m]> m ∨ (m' = m ∧ ¬ rel) →
      submitted m s ok outcome now rel ms 502 (record_post_rejection RejProbe ms) m'
  | sub_store_failed addr result :
      ok = true → socket_from_str (trim s) = Some addr → outcome = inr result → ¬ rel →
      submitted m s ok outcome now rel ms 502 (record_post_rejection RejProbe ms) m.

(** Canonical addresses are what is probed and stored. *)
Lemma net_from_canonical addr :
  net_from (socket_new (canonicalize_ip (socket_ip addr)) (socket_port addr)) = net_from addr.
Proof. rewrite net_from_new, canonicalize_ip_idemp. done. Qed.

Lemma spec_apply_canonical addr v now m :
  spec_apply (socket_new (canonicalize_ip (socket_ip addr)) (socket_port addr)) v now m = spec_apply addr v now m.
Proof.
  unfold spec_apply. rewrite net_from_canonical. unfold peer_record_from_version.
  by rewrite !socket_new_ip, !socket_new_port, canonicalize_ip_idemp.
Qed.

Lemma submitted_store_ok m s ok outcome now rel ms code ms' m' :
  submitted m s ok outcome now rel ms code ms' m' →
  store_ok (network_default_port cfg) (web_strict_port cfg) m → store_ok (network_default_port cfg) (web_strict_port cfg) m'.
Proof.
  intros Hs Hm. destruct Hs as [?|? ?|?|addr result ? ? Ha|addr err m' ? ? Ha ? Hm'|?]; [done..| | |done].
  - by apply map_Forall_insert_2.
  - destruct Hm' as [->|[-> _]]; [|done]. by apply map_Forall_insert_2.
Qed.


(** ** Lookups and deletions *)

Lemma get_peer_spec d m fs s all env :
  repr d m → times_ok m → 0 ≤ env_ms env ≤ I64_MAX →
  ∃ resp w', get_peer cfg s all env (mkWorld d fs) = (Ok resp, w') ∧ disk w' = d ∧
    match socket_from_str s with
    | None => resp_status resp = 400
    | Some addr =>
        (∃ r, m !! net_from addr = Some r ∧ 0 < last_success_ms r ∧ list_ok cfg all (env_ms env) r ∧
           resp = mkWebResponse 200 (BodyPeer (from_record r true))) ∨
        (resp_status resp = 404 ∧ ∀ r, m !! net_from addr = Some r → 0 < last_success_ms r → ¬ list_ok cfg all (env_ms env) r) ∨
        (resp_status resp = 500 ∧ ¬ reliable fs)
    end.
Proof.
  intros Hr Hm Hnow. unfold get_peer. destruct (socket_from_str s) as [addr|]; [|by eexists _, _].
  change (mkNetAddress (canonicalize_ip (socket_ip addr)) (socket_port addr)) with (net_from addr).
  destruct (atomic_catch _ _ _ _ fs (get_atomic d m (net_from addr) Hr)) as (res & w' & E & _ & Hres).
  unfold mbind at 1, DB_bind at 1. rewrite E. destruct res as [e|[r|]].
  - destruct Hres as [Hd He]. eexists _, w'. split; [reflexivity|]. split; [done|]. right; right.
    split; [done|]. intros [Hq Hc]. by eapply codec_total_no_err, He.
  - destruct Hres as [Hg Hd]. pose proof (proj1 (repr_map _ _ Hr _ _ (eq_sym Hg))) as Ha.
    destruct (list_filter_matches cfg all (env_ms env) m r Hnow Hm) as (b & Hb & Hiff); [by rewrite Ha|].
    rewrite Hb. cbn [or_panic]. eexists _, w'. split; [reflexivity|]. split; [done|].
    assert (Hok : b = true ∧ 0 < last_success_ms r ↔ 0 < last_success_ms r ∧ list_ok cfg all (env_ms env) r).
    { rewrite Hiff. destruct all; cbn [list_ok]; naive_solver. }
    destruct (b && bool_decide (0 < last_success_ms r)) eqn:Eb.
    + apply andb_true_iff in Eb as [Hbt Hls%bool_decide_eq_true]. left. exists r. naive_solver.
    + right; left. split; [done|]. intros r' Hr' Hls Hl. assert (r' = r) as -> by congruence.
      destruct (proj2 Hok (conj Hls Hl)) as [-> _]. cbn in Eb. by apply bool_decide_eq_false in Eb.
  - destruct Hres as [Hg Hd]. eexists _, w'. split; [reflexivity|]. split; [done|]. right; left. split; [done|]. congruence.
Qed.

Lemma delete_peer_spec d m fs s :
  repr d m →
  ∃ resp w' m', delete_peer s (mkWorld d fs) = (Ok resp, w') ∧ repr (disk w') m' ∧
    match socket_from_str (trim s) with
    | None => resp_status resp = 400 ∧ m' = m
    | Some addr =>
        (resp_status resp = 204 ∧ is_Some (m !! net_from addr) ∧ m' = base.delete (net_from addr) m) ∨
        (resp_status resp = 404 ∧ m !! net_from addr = None ∧ m' = m) ∨
        (resp_status resp = 500 ∧ ¬ reliable fs ∧ m' = m)
    end.
Proof.
  intros Hr. unfold delete_peer. destruct (socket_from_str (trim s)) as [addr|]; [|by eexists _, _, m].
  change (mkNetAddress (canonicalize_ip (socket_ip addr)) (socket_port addr)) with (net_from addr).
  destruct (atomic_catch _ _ _ _ fs (delete_atomic d m (net_from addr) Hr)) as (res & w' & E & _ & Hres).
  unfold mbind, DB_bind. rewrite E. destruct res as [e|b].
  - destruct Hres as [Hd He]. eexists _, w', m. split; [reflexivity|]. split; [by rewrite Hd|]. right; right.
    split; [done|]. split; [|done]. intros [Hq Hc]. by eapply codec_total_no_err, He.
  - destruct Hres as (Hb & Hr' & _). eexists _, w', _. split; [reflexivity|]. split; [exact Hr'|].
    destruct (m !! net_from addr) as [r|] eqn:Em; subst b.
    + left. rewrite bool_decide_eq_true_2 by by eexists. done.
    + right; left. rewrite bool_decide_eq_false_2 by (intros [? ?]; done). split; [done|]. split; [done|].
      by apply delete_id.
Qed.

(** With the key a lookup or deletion gets to its handler. *)
Lemma serve_handler headers req env1 env2 st w (h : DB WebResponse) resp w' :
  authenticated headers (api_key cfg) = true →
  (∀ st', handle cfg headers req env1 st' = r ← h; mret (inl r, st')) →
  h w = (Ok resp, w') →
  serve cfg headers req env1 env2 st w = (Ok (resp, with_ws_metrics record_request st), w').
Proof.
  intros Ha Hh Hrun. unfold serve, begin. rewrite Ha, andb_false_r, Hh. unfold mbind, DB_bind. by rewrite Hrun.
Qed.

(** C35: what [GET] and [DELETE] of one peer do. With the key, a lookup answers 200 with
    the full record exactly when the store holds one under the canonical address that passes the list's
    filter and ever answered a probe, and 404 otherwise; a deletion answers 204 and
    removes that record only, or 404 when there is none. Text that is not an address is a 400, and a
    500 means the store failed; then, and on every lookup, the database is unchanged. *)
Theorem web_peer_exact d m fs headers s env1 env2 st :
  repr d m → times_ok m → 0 ≤ env_ms env1 ≤ I64_MAX → authenticated headers (api_key cfg) = true →
  (∀ all, ∃ resp w',
     serve cfg headers (WGet s all) env1 env2 st (mkWorld d fs) = (Ok (resp, with_ws_metrics record_request st), w') ∧
     disk w' = d ∧
     match socket_from_str s with
     | None => resp_status resp = 400
     | Some addr =>
         (∃ r, m !! net_from addr = Some r ∧ 0 < last_success_ms r ∧ list_ok cfg all (env_ms env1) r ∧
            resp = mkWebResponse 200 (BodyPeer (from_record r true))) ∨
         (resp_status resp = 404 ∧ ∀ r, m !! net_from addr = Some r → 0 < last_success_ms r → ¬ list_ok cfg all (env_ms env1) r) ∨
         (resp_status resp = 500 ∧ ¬ reliable fs)
     end) ∧
  (∃ resp w' m',
     serve cfg headers (WDelete s) env1 env2 st (mkWorld d fs) = (Ok (resp, with_ws_metrics record_request st), w') ∧
     repr (disk w') m' ∧
     match socket_from_str (trim s) with
     | None => resp_status resp = 400 ∧ m' = m
     | Some addr =>
         (resp_status resp = 204 ∧ is_Some (m !! net_from addr) ∧ m' = base.delete (net_from addr) m) ∨
         (resp_status resp = 404 ∧ m !! net_from addr = None ∧ m' = m) ∨
         (resp_status resp = 500 ∧ ¬ reliable fs ∧ m' = m)
     end).
Proof.
  intros Hr Hm Hnow Ha. split.
  - intros all. destruct (get_peer_spec d m fs s all env1 Hr Hm Hnow) as (resp & w' & Hrun & Hres).
    exists resp, w'. split; [by eapply serve_handler|done].
  - destruct (delete_peer_spec d m fs s Hr) as (resp & w' & m' & Hrun & Hres).
    exists resp, w', m'. split; [by eapply serve_handler|done].
Qed.

(** ** Health *)

(** What [GET /health] says. It answers 200 exactly when some stored peer answered a probe inside the freshness
    window, with the number of those peers; otherwise 503, also when the store fails; it needs no key and changes nothing
    but the request counter. *)
Theorem web_health_exact d m fs headers env1 env2 st :
  repr d m → duration_wf (web_stale_good cfg) →
  let window := duration_to_ms (web_stale_good cfg) in
  ∃ resp w', serve cfg headers WHealth env1 env2 st (mkWorld d fs) = (Ok (resp, with_ws_metrics record_request st), w') ∧
    disk w' = d ∧
    ((resp_status resp = 200 ∧ (∃ r, r ∈ records m ∧ in_window (env_ms env1) window r) ∧
        ∃ h, resp_body resp = BodyHealth h ∧ h_total h = Z.of_nat (size m) ∧
          h_good h = Some (count (in_window (env_ms env1) window) (records m))) ∨
     (resp_status resp = 503 ∧ ((∀ r, r ∈ records m → ¬ in_window (env_ms env1) window r) ∨ ¬ reliable fs))).
Proof.
  intros Hr Hsg window. assert (Hw : 0 ≤ window ≤ I64_MAX) by (by apply duration_to_ms_range).
  destruct (atomic_catch _ _ _ _ fs (summary_atomic d m (env_ms env1) window None Hr)) as (res & w' & E & _ & Hres).
  assert (Hserve : ∀ resp, health cfg env1 (mkWorld d fs) = (Ok resp, w') →
    serve cfg headers WHealth env1 env2 st (mkWorld d fs) = (Ok (resp, with_ws_metrics record_request st), w')).
  { intros resp Hh. unfold serve, begin. rewrite gated_eq. cbn [endpoint_of andb handle]. unfold mbind, DB_bind. by rewrite Hh. }
  unfold health, mbind, DB_bind in Hserve. fold window in Hserve. rewrite E in Hserve.
  eexists _, w'. split; [by apply Hserve|]. destruct res as [e|sm].
  { destruct Hres as [Hd He]. split; [done|]. right. split; [done|]. right. intros [Hq Hc]. by eapply codec_total_no_err, He. }
  destruct Hres as (Hd & l & Hl & ->). split; [done|].
  destruct (summary_finish_spec (env_ms env1) window None l Hw) as (Ht & Hg & _). cbv zeta in *. rewrite Hg, Ht.
  assert (Hcount : count (is_good (env_ms env1) window None) l = count (in_window (env_ms env1) window) (records m)).
  { rewrite (count_perm _ _ _ Hl). apply count_ext. intros r. unfold is_good, is_valid. naive_solver. }
  assert (Hsz : length l = size m) by (rewrite Hl; unfold records; by rewrite length_fmap, length_map_to_list).
  clear Hserve. rewrite Hcount. case_decide as Hpos.
  - left. split; [done|]. split; [by rewrite count_pos in Hpos|]. eexists. split; [reflexivity|]. cbn. split; [lia|done].
  - right. split; [done|]. left. intros r Hin Hwin. apply Hpos. rewrite count_pos. by exists r.
Qed.
End endpoints.

(** ** Counters *)

Lemma check_ops rl a t ok rl' :
  check rl a t = Some (ok, rl') → (ok = true ∧ ops rl' = ops rl) ∨ ops rl' = u64_fetch_add (ops rl) 1.
Proof.
  unfold check. case_decide; [intros [= <- <-]; by left|]. destruct (instant_add t (window rl)); [|done]. cbn [mbind option_bind].
  set (e := if decide _ then _ else _). destruct e as [allowed entry]. intros [= _ <-]. right.
  unfold maybe_sweep. cbn [ops]. by case_decide.
Qed.

Section counters.
Context `{RedbApi} `{Bincode} `{Semver} `{Chrono} `{HttpLib} `{KaspaNet} `{WebLibs} (cfg : WebConfig).

Definition is_submit (p : bool * WebRequest * Cont) : Prop :=
  match p.2 with ContSubmit _ => True | ContList _ => False end.
#[global] Instance is_submit_dec p : Decision (is_submit p).
Proof. unfold is_submit. destruct p.2; apply _. Defined.

(** The counters after [n] requests, of which [pending] are waiting for a probe. *)
Record balanced (n pending : Z) (st : WebState) : Prop := {
  bal_requests : w_requests (ws_metrics st) = n;
  bal_accepted : 0 ≤ w_accepted (ws_metrics st);
  bal_nonneg : 0 ≤ post_rejected_auth (ws_metrics st) ∧ 0 ≤ post_rejected_ratelimit (ws_metrics st) ∧
    0 ≤ post_rejected_format (ws_metrics st) ∧ 0 ≤ post_rejected_unroutable (ws_metrics st) ∧
    0 ≤ post_rejected_probe (ws_metrics st);
  bal_kinds : w_rejected (ws_metrics st) = post_rejected_auth (ws_metrics st) + post_rejected_ratelimit (ws_metrics st) +
    post_rejected_format (ws_metrics st) + post_rejected_unroutable (ws_metrics st) + post_rejected_probe (ws_metrics st);
  bal_total : w_accepted (ws_metrics st) + w_rejected (ws_metrics st) + pending ≤ n;
  bal_ops : post_rejected_ratelimit (ws_metrics st) ≤ ops (ws_limiter st) ≤ n;
}.

Lemma fetch_add_small x : 0 ≤ x < U64_MAX → u64_fetch_add x 1 = x + 1.
Proof. intros Hx. unfold u64_fetch_add, u64_wrap. apply Z.mod_small. unfold U64_MAX in Hx. lia. Qed.

Lemma balanced_request n p st : balanced n p st → 0 ≤ p → 0 ≤ n < U64_MAX → balanced (n + 1) p (with_ws_metrics record_request st).
Proof.
  intros [? ? ? ? ? ?] ? ?. split; cbn in *; [rewrite fetch_add_small; lia|lia..].
Qed.
Lemma balanced_reject reason n p st :
  balanced n p st → 0 ≤ p → w_accepted (ws_metrics st) + w_rejected (ws_metrics st) + p < n → n ≤ U64_MAX →
  (reason = RejRateLimit → post_rejected_ratelimit (ws_metrics st) < ops (ws_limiter st)) →
  balanced n p (with_ws_metrics (record_post_rejection reason) st).
Proof.
  intros [? ? ? ? ? ?] ? ? ? Hrl. destruct st as [[rq ac rj au li fo un pr] rl c]. cbn in *.
  destruct reason; [|specialize (Hrl eq_refl)|..].
  all: split; cbn; rewrite ?fetch_add_small by lia; lia.
Qed.

Lemma balanced_accept n p st :
  balanced n p st → 0 ≤ p → w_accepted (ws_metrics st) + w_rejected (ws_metrics st) + p < n → n ≤ U64_MAX →
  balanced n p (with_ws_metrics record_accepted st).
Proof.
  intros [? ? ? ? ? ?] ? ? ?. destruct st as [[rq ac rj au li fo un pr] rl c]. cbn in *.
  split; cbn; rewrite ?fetch_add_small by lia; lia.
Qed.

(** A waiting submission is one request that is not counted yet. *)
Lemma balanced_pending n p p' st : balanced n p st → p' ≤ p → balanced n p' st.
Proof. intros [? ? ? ? ? ?] ?. split; try done. lia. Qed.
Lemma balanced_wait n p st : balanced n p st → w_accepted (ws_metrics st) + w_rejected (ws_metrics st) + p < n → balanced n (p + 1) st.
Proof. intros [? ? ? ? ? ?] ?. split; try done. lia. Qed.

(** A call of the limiter is one more operation, at most one per request. *)
Lemma balanced_limiter n p st rl :
  balanced n p st → 0 ≤ ops (ws_limiter st) < n → n ≤ U64_MAX →
  ops rl = ops (ws_limiter st) ∨ ops rl = u64_fetch_add (ops (ws_limiter st)) 1 →
  balanced n p (with_ws_limiter rl st).
Proof.
  intros [? ? ? ? ? ?] ? ? Ho. split; cbn; try done. rewrite fetch_add_small in Ho by lia. lia.
Qed.

Lemma begin_balanced headers req env st w r st' w' n p :
  begin cfg headers req env st w = (Ok (r, st'), w') → balanced n p st → 0 ≤ p → 0 ≤ n < U64_MAX →
  balanced (n + 1) (p + match r with inr (ContSubmit _) => 1 | _ => 0 end) st'.
Proof.
  unfold begin. intros Hb Hbal Hp Hn. pose proof (balanced_request _ _ _ Hbal Hp Hn) as Hreq.
  set (st1 := with_ws_metrics record_request st) in *.
  assert (Hroom : w_accepted (ws_metrics st1) + w_rejected (ws_metrics st1) + p < n + 1) by (destruct Hbal; cbn in *; lia).
  assert (Hops : 0 ≤ ops (ws_limiter st1) < n + 1) by (destruct Hbal; cbn in *; lia).
  destruct (_ && _).
  { injection Hb as <- <- _. rewrite Z.add_0_r. apply balanced_reject; [done..|lia|done]. }
  destruct req as [| |all|s remote|s all|s]; cbn [handle] in Hb.
  1, 2, 5, 6: apply db_bind_ok in Hb as (resp & w1 & _ & Hb); injection Hb as <- <- _; by rewrite Z.add_0_r.
  - unfold list_begin in Hb. destruct (peers_cache_get _ _ _) as [[b|] c]; injection Hb as <- <- _; rewrite Z.add_0_r; by destruct Hreq.
  - unfold lift, submit_begin, validate_submission in Hb.
    destruct (check (ws_limiter st1) _ _) as [[ok rl]|] eqn:Ec; [|done]. cbn [mbind option_bind] in Hb.
    apply check_ops in Ec. assert (Hlim : balanced (n + 1) p (with_ws_limiter rl st1)).
    { apply balanced_limiter; [done..|lia|]. destruct Ec as [[_ ?]|?]; auto. }
    destruct ok; cbn [negb] in Hb; [|injection Hb as <- <- _; rewrite Z.add_0_r; apply balanced_reject; [done..|lia|]].
    + destruct (socket_from_str _) as [a|]; [destruct (is_acceptable_address _ _ _)|]; injection Hb as <- <- _; rewrite ?Z.add_0_r.
      * by apply balanced_wait.
      * apply balanced_reject; [done..|lia|done].
      * apply balanced_reject; [done..|lia|done].
    + intros _. cbn [ws_limiter with_ws_limiter ws_metrics]. destruct Ec as [[? _]|Ec]; [done|]. rewrite Ec, fetch_add_small by lia.
      destruct Hreq. lia.
Qed.

Lemma finish_balanced k env st w resp st' w' n p :
  finish cfg k env st w = (Ok (resp, st'), w') →
  balanced n (p + match k with ContSubmit _ => 1 | ContList _ => 0 end) st → 0 ≤ p → n ≤ U64_MAX → balanced n p st'.
Proof.
  intros Hf Hbal Hp Hn. assert (Hb : balanced n p st) by (eapply balanced_pending; [done|case_match; lia]).
  destruct k as [key|addr]; cbn [finish] in Hf.
  - unfold list_finish in Hf. apply db_bind_ok in Hf as (r & w1 & _ & Hf). injection Hf as Hf _.
    destruct r; injection Hf as <- <-; [done|]. by destruct Hb.
  - assert (w_accepted (ws_metrics st) + w_rejected (ws_metrics st) + p < n) by (destruct Hbal; lia).
    unfold submit_finish in Hf. destruct (probe_and_store _ _ _ _) as [[rec|e|] w1]; [| |done]; injection Hf as <- <- _.
    + by apply balanced_accept.
    + by apply balanced_reject.
Qed.

Lemma submit_weight auth req k :
  (if decide (is_submit (auth, req, k)) then 1 else 0) = match k with ContSubmit _ => 1 | ContList _ => 0 end.
Proof. destruct k; [by rewrite decide_False by (intros [])|by rewrite decide_True by done]. Qed.

Definition counts_ok (sys : Sys) : Prop :=
  0 ≤ sy_count sys ∧
  (sy_count sys ≤ U64_MAX → balanced (sy_count sys) (count is_submit (sy_pend sys)) (sy_web sys)).

Lemma counts_ok_step l sys sys' : wstep cfg l sys sys' → counts_ok sys → counts_ok sys'.
Proof.
  intros Hs [Hc Hb]. pose proof (count_nonneg is_submit (sy_pend sys)) as Hp.
  destruct Hs as [sys headers req env resp st' w' Ht Hrun|sys headers req env k st' w' Ht Hrun
    |sys auth req k p1 p2 env resp st' w' Hpe Ht Hf|sys w'|sys t Ht]; (split; [cbn; lia|]); cbn [sy_count sy_pend sy_web]; intros Hn.
  - specialize (Hb ltac:(lia)). pose proof (begin_balanced _ _ _ _ _ _ _ _ _ _ Hrun Hb Hp ltac:(lia)) as Hbal.
    by rewrite Z.add_0_r in Hbal.
  - specialize (Hb ltac:(lia)). pose proof (begin_balanced _ _ _ _ _ _ _ _ _ _ Hrun Hb Hp ltac:(lia)) as Hbal.
    rewrite count_cons, submit_weight. eapply balanced_pending; [exact Hbal|]. cbn. lia.
  - eapply finish_balanced; [exact Hf| |apply count_nonneg|done]. specialize (Hb Hn). rewrite Hpe, count_app, count_cons, submit_weight in Hb.
    rewrite count_app. eapply balanced_pending; [exact Hb|lia].
  - by apply Hb.
  - by apply Hb.
Qed.

(** C36: the web counters add up. As long as fewer than 2^64 requests have come in: the request counter is
    their number; the rejections split into the five reasons; accepted and rejected submissions, with those
    still being probed, never exceed the requests; and the limiter has denied no
    more submissions than it was asked about, as the documentation of the metrics promises. *)
Theorem web_counters w t sys :
  wsteps cfg (sys_init cfg w t) sys → sy_count sys ≤ U64_MAX →
  let m := ws_metrics (sy_web sys) in
  w_requests m = sy_count sys ∧
  w_rejected m = post_rejected_auth m + post_rejected_ratelimit m + post_rejected_format m +
    post_rejected_unroutable m + post_rejected_probe m ∧
  w_accepted m + w_rejected m + count is_submit (sy_pend sys) ≤ w_requests m ∧
  rs_denied (wsub_rate_limiter (web_subsystem (sy_web sys))) ≤ rs_ops (wsub_rate_limiter (web_subsystem (sy_web sys))).
Proof.
  intros Hr Hn. assert (Hc : counts_ok sys).
  { assert (H0' : counts_ok (sys_init cfg w t)) by (split; [done|]; intros _; by split; cbn; try lia).
    revert H0'. clear Hn. induction Hr as [|x y z [l Hs] _ IH]; [done|]. intros Hx. apply IH. by eapply counts_ok_step. }
  destruct Hc as [_ [Hq ? ? Hk Ht Ho]]; [done|]. cbv zeta. rewrite Hq. split; [done|]. split; [done|]. split; [done|].
  exact (proj1 Ho).
Qed.
End counters.

(** ** Witnesses: one peer in the store, a client without the key, and the operator *)

#[export] Instance http_std : HttpLib := {|
  HeaderMap := list (rstr * rstr);
  header_str h n := snd <$> (snd <$> list_find (λ nv, nv.1 = n) h);
|}.
#[export] Instance chrono_std : Chrono := {|
  DateTime := Z;
  from_timestamp_millis ms := Some ms;
  UNIX_EPOCH := 0;
  to_rfc3339 := u_to_string;
|}.
#[export] Instance web_libs_std : WebLibs := {|
  json_to_vec l := Some ((λ d, match d with Full f => fd_port f | Public p => pd_port p end) <$> l);
  format_duration := u_to_string;
  web_byte_size := byte_size0;
|}.

Definition web_cfg0 : WebConfig :=
  mkWebConfig [] (str "secret") [] 5 (from_secs 60) 16111 false (str "/api") (str "data/mainnet/peers.redb") (from_secs 1800) None None
    (str "seeder") (str "1") (str "0") (str "mainnet") None None.
Definition anon : @HeaderMap http_std := [].
Definition operator : @HeaderMap http_std := [(X_API_KEY, str "secret")].
Definition source0 : SubsystemMetrics := mkSubsystemMetrics crawler_metrics_new 0 dns_metrics_new None None.
Definition env0 : Env := mkEnv 100 0 (inr result0) (mkProcessReads None 0 0 None None) reads0 0 source0.
Definition sys0 : Sys := sys_init web_cfg0 (mkWorld disk0 []) 0.
Definition st0 : WebState := app_state_build web_cfg0 None.

(** A list served to a client without the key. *)
Definition key_anon : Key := mkKey false false.
Definition st1 : WebState := with_ws_metrics record_request st0.
Definition sv_anon : Served := mkServed false (WList false) (mkWebResponse 200 (BodyBytes [16111])) 0.
Definition st2 : WebState := with_ws_cache (peers_cache_put key_anon [16111] 0 (ws_cache st1)) st1.
Definition listing0 : Listing := mkListing key_anon [16111] 0 disk0 100.
Definition w2 : World := (finish web_cfg0 (ContList key_anon) env0 st1 (mkWorld disk0 [])).2.
Definition sys2 : Sys := mkSys w2 st2 0 [] [sv_anon] [listing0] 1.

Definition sys1 : Sys := mkSys (mkWorld disk0 []) st1 0 [(false, WList false, ContList key_anon)] [] [] 1.

Lemma finish_anon :
  finish web_cfg0 (ContList key_anon) env0 st1 (mkWorld disk0 []) =
    (Ok (mkWebResponse 200 (BodyBytes [16111]), st2), w2).
Proof.
  assert (E : (finish web_cfg0 (ContList key_anon) env0 st1 (mkWorld disk0 [])).1 =
    Ok (mkWebResponse 200 (BodyBytes [16111]), st2)) by (vm_compute; reflexivity).
  unfold w2. destruct (finish _ _ _ _ _) as [r w']. cbn [fst snd] in *. by rewrite E.
Qed.

Lemma env0_at sys : sy_now sys = 0 → env_at env0 sys.
Proof. intros Hs. split; [by rewrite Hs|]. split; [by vm_compute|exact result0_typed]. Qed.

Lemma run_anon : wsteps web_cfg0 sys0 sys2.
Proof.
  eapply rtc_l; [|eapply rtc_l; [|apply rtc_refl]].
  - exists (Some false). exact (wstep_wait web_cfg0 sys0 anon (WList false) env0 (ContList key_anon) st1 (mkWorld disk0 [])
      (env0_at sys0 eq_refl) eq_refl).
  - exists (Some false). exact (wstep_finish web_cfg0 sys1 false (WList false) (ContList key_anon) [] [] env0
      (mkWebResponse 200 (BodyBytes [16111])) st2 w2 eq_refl (env0_at sys1 eq_refl) finish_anon).
Qed.

Lemma web_needs_key_witness : wsteps web_cfg0 sys0 sys2 ∧ public_resp (sv_resp sv_anon).
Proof.
  split; [apply run_anon|]. destruct (web_needs_key web_cfg0 (mkWorld disk0 []) 0 sys2 run_anon) as [Hp _].
  apply (Hp sv_anon); [by left|done].
Defined.

Lemma times_ok_map0 : times_ok map0.
Proof. apply map_Forall_insert_2; [vm_compute; intuition discriminate|apply map_Forall_empty]. Qed.

Lemma web_list_served_witness :
  ∃ recs : list PeerRecord, top_k fresher MAX_LIST_RESPONSE (λ r, map0 !! address r = Some r ∧ list_ok web_cfg0 false 100 r) recs.
Proof.
  destruct (web_list_served web_cfg0 (mkWorld disk0 []) 0 sys2 run_anon) as [_ Hs].
  destruct (Hs sv_anon [16111]) as (all & l & Hreq & Hl & _ & _ & Hm); [by left|done|].
  injection Hreq as <-. apply list_elem_of_singleton in Hl as ->.
  destruct (Hm map0 repr_disk0 times_ok_map0) as (recs & Hrecs & _); [by vm_compute|]. by exists recs.
Defined.

Lemma web_counters_witness : w_requests (ws_metrics (sy_web sys2)) = 1.
Proof. destruct (web_counters web_cfg0 (mkWorld disk0 []) 0 sys2 run_anon) as [Hq _]; [by vm_compute|exact Hq]. Defined.


Lemma web_peer_exact_witness :
  ∃ resp w', serve web_cfg0 operator (WGet (str "8.8.8.8:16111") false) env0 env0 st0 (mkWorld disk0 []) =
    (Ok (resp, st1), w') ∧ disk w' = disk0.
Proof.
  destruct (web_peer_exact web_cfg0 disk0 map0 [] operator (str "8.8.8.8:16111") env0 env0 st0 repr_disk0 times_ok_map0)
    as [Hg _]; [by vm_compute|done|]. destruct (Hg false) as (resp & w' & Hrun & Hd & _). exists resp, w'. split; [exact Hrun|exact Hd].
Defined.

Lemma web_health_exact_witness :
  ∃ resp w', serve web_cfg0 anon WHealth env0 env0 st0 (mkWorld disk0 []) = (Ok (resp, st1), w') ∧ disk w' = disk0.
Proof.
  destruct (web_health_exact web_cfg0 disk0 map0 [] anon env0 env0 st0 repr_disk0) as (resp & w' & Hrun & Hd & _);
    [split; vm_compute; discriminate|]. exists resp, w'. split; [exact Hrun|exact Hd].
Defined.
