(* ===== verification/Startup.v ===== *)
(** * Start-up

    src/dnsseeder/src/network_gate.rs, src/cli/src/cli_args.rs and the configuration half of [run] in
    src/dnsseeder/src/main.rs: the checks of the command line, the network gate, the opening of the store, the
    configurations handed to the subsystems and the choice of the API key. *)

From S2P Require Import Prelude Text Net NetParse Common RateLimit Record Redb RedbInstances PeerStore StoreSpec StoreOps StoreScans.
From S2P Require Import StoreOpen StoreExample StoreClaims Crawler Scheduler ProbeInit ServingCache DnsHandler WebBase Stats.

(** ** The network gate *)

Inductive GateError : Type :=
  | SeederRequired
  | SeederFormat (raw : rstr)
  | NoBuiltinSeeders.

Section gate.
Context `{KaspaNetwork}.

(** [supported_networks] and [is_supported]. *)
Definition supported_networks : list NetworkId := filter (λ n, dns_seeders n ≠ []) network_iter.
Definition is_supported (network_id : NetworkId) : bool := bool_decide (network_id ∈ supported_networks).

(** [validate_seeder_format]. *)
Definition validate_seeder_format (seeder : option rstr) : GateError + SocketAddr :=
  match seeder with
  | None => inl SeederRequired
  | Some raw => match socket_from_str (trim raw) with Some addr => inr addr | None => inl (SeederFormat raw) end
  end.

(** [require_seeder_for_unknown_network]. *)
Definition require_seeder_for_unknown_network (network_id : NetworkId) (seeder : option rstr) : GateError + unit :=
  if is_supported network_id then
    match seeder with
    | Some _ => match validate_seeder_format seeder with inl e => inl e | inr _ => inr tt end
    | None => inr tt
    end
  else
    match seeder with
    | None => inl NoBuiltinSeeders
    | Some _ => match validate_seeder_format seeder with inl e => inl e | inr _ => inr tt end
    end.

(** [effective_default_port]. *)
Definition effective_default_port (network_id : NetworkId) (seeder : option rstr) : Z :=
  if is_supported network_id then default_p2p_port network_id
  else match validate_seeder_format seeder with
       | inr addr => socket_port addr
       | inl _ => default_p2p_port network_id
       end.
End gate.

(** ** The command line *)

Section cli.
Context `{Semver}.

(** [CliArgs] with its groups [CrawlerArgs], [DnsArgs] and [HttpArgs]; the logging options are left out. *)
Record CliArgs : Type := mkCliArgs {
  cli_network_id : rstr;
  cli_datadir : rstr;
  cli_stats_interval : Duration;
  cli_seeder : option rstr;
  cli_threads : Z;
  cli_probes_per_peer : Z;
  cli_probe_timeout : Duration;
  cli_probe_tick : Duration;
  cli_stale_good : Duration;
  cli_stale_bad : Duration;
  cli_dead_after : Duration;
  cli_strict_port : bool;
  cli_dns_zone : option rstr;
  cli_dns_nameserver : option rstr;
  cli_dns_listen : list SocketAddr;
  cli_dns_max_records : Z;
  cli_min_protocol_version : option Z;
  cli_min_user_agent : option Version;
  cli_http_listen : list SocketAddr;
  cli_api_prefix : rstr;
  cli_api_key : option rstr;
  cli_allowed_origins : list rstr;
  cli_post_rate_limit : Z;
  cli_rate_limit_window : Duration;
  cli_tls_cert : option rstr;
  cli_tls_key : option rstr;
}.

(** [CliArgs::dns_enabled]. *)
Definition dns_enabled (cli : CliArgs) : bool :=
  bool_decide (is_Some (cli_dns_zone cli)) && bool_decide (is_Some (cli_dns_nameserver cli)).

(** [CliArgs::validate]. *)
Definition cli_validate (cli : CliArgs) : rstr + unit :=
  match cli_tls_cert cli, cli_tls_key cli with
  | Some _, None => inl (str "--tls-cert requires --tls-key")
  | None, Some _ => inl (str "--tls-key requires --tls-cert")
  | _, _ => inr tt
  end.

(** [parse_positive_usize]. *)
Definition parse_positive_usize (s : rstr) : option Z :=
  n ← parse_uint USIZE_MAX s; if decide (n = 0) then None else Some n.
End cli.

(** ** The API key *)

Definition API_KEY_KV : rstr := str "api_key".

Section key.
Context `{RedbApi}.

(** The key of the command line, else the stored one, else a new one that is stored. *)
Definition select_api_key (cli_key : option rstr) (random : bytes) : DB rstr :=
  match cli_key with
  | Some key => mret key
  | None =>
      r ← catch (get_blob API_KEY_KV);
      match match r with inr (Some bs) => from_utf8 bs | _ => None end with
      | Some key => mret key
      | None =>
          let key := generate_api_key random in
          or_log (put_blob API_KEY_KV (as_bytes key)) tt ≫= λ _,
          mret key
      end
  end.
End key.

(** ** Lemmas on the key *)

Lemma hexdigits_wf s : Forall is_hexdigit s → wf_str s.
Proof. intros Hs. eapply Forall_impl; [exact Hs|]. intros c [?|?]; apply is_scalar_spec; lia. Qed.

Lemma generated_roundtrip random : Forall (λ b, 0 ≤ b < 256) random → from_utf8 (as_bytes (generate_api_key random)) = Some (generate_api_key random).
Proof. intros Hr. by apply from_utf8_as_bytes, hexdigits_wf, hex_encode_digits. Qed.

Section key_theorems.
Context `{RedbApi} `{!RedbLaws} `{Bincode} `{!BincodeLaws} `{Semver}.

(** The key a database holds, if it is readable. *)
Definition stored_key (d : Disk) : option rstr := kv_get API_KEY_KV (kv d) ≫= from_utf8.

(** Reading the stored key: without faults the next start finds it. *)
Lemma select_stored d key random fs :
  stored_key d = Some key → quiet fs → ∃ w', select_api_key None random (mkWorld d fs) = (Ok key, w') ∧ disk w' = d.
Proof.
  intros Hk Hq. unfold select_api_key.
  destruct (atomic_catch _ _ _ _ fs (get_blob_atomic d API_KEY_KV)) as (r & w' & E & _ & Hr).
  unfold mbind at 1, DB_bind at 1. rewrite E. destruct r as [e|o]; [by destruct Hr as [_ []]|]. destruct Hr as [-> Hd].
  unfold stored_key in Hk. destruct (kv_get API_KEY_KV (kv d)) as [bs|]; [|done]. cbn in Hk. rewrite Hk. by exists w'.
Qed.

(** Choosing a key leaves the peers alone. *)
Lemma select_api_key_repr cli_key random d m fs :
  repr d m → ∃ key w', select_api_key cli_key random (mkWorld d fs) = (Ok key, w') ∧ repr (disk w') m.
Proof.
  intros Hr. unfold select_api_key. destruct cli_key as [key|]; [by eexists _, _|].
  destruct (atomic_catch _ _ _ _ fs (get_blob_atomic d API_KEY_KV)) as (r & [d1 fs1] & E & _ & Hres).
  unfold mbind at 1, DB_bind at 1. rewrite E. assert (d1 = d) as -> by (destruct r as [e|o]; by destruct Hres).
  destruct (match r with inr (Some bs) => from_utf8 bs | _ => None end) as [key|]; [by eexists _, _|].
  destruct (atomic_or_log d _ tt _ _ fs1 (put_blob_atomic d m API_KEY_KV (as_bytes (generate_api_key random)) Hr))
    as ([] & w2 & E2 & _ & Hput). unfold mbind, DB_bind. rewrite E2. eexists _, w2. split; [done|].
  by destruct Hput as [[? _]|(_ & -> & _)].
Qed.

(** C32: the API key survives restarts. Without [--api-key] a start never fails over the key: it uses the stored key, or
    generates one of 64 hexadecimal digits. The peers are untouched; and when storage works, the key
    in use is in the store afterwards, so every later start, whatever its random bytes, uses the same. *)
Theorem api_key_persists d m random fs :
  repr d m → Forall (λ b, 0 ≤ b < 256) random → Z.of_nat (length random) = KEY_BYTES →
  ∃ key w', select_api_key None random (mkWorld d fs) = (Ok key, w') ∧ repr (disk w') m ∧
    (stored_key d = Some key ∨
     (key = generate_api_key random ∧ length key = 64%nat ∧ Forall is_hexdigit key ∧ (quiet fs → stored_key d = None))) ∧
    (quiet fs → stored_key (disk w') = Some key ∧
       ∀ random' fs', quiet fs' → ∃ w'', select_api_key None random' (mkWorld (disk w') fs') = (Ok key, w'')).
Proof.
  intros Hr Hb Hlen. assert (Hnext : ∀ w' key, stored_key (disk w') = Some key → stored_key (disk w') = Some key ∧
    ∀ random' fs', quiet fs' → ∃ w'', select_api_key None random' (mkWorld (disk w') fs') = (Ok key, w'')).
  { intros w' key Hk. split; [done|]. intros random' fs' Hq. destruct (select_stored _ _ random' fs' Hk Hq) as (w'' & ? & _). by exists w''. }
  assert (Hgen : length (generate_api_key random) = 64%nat ∧ Forall is_hexdigit (generate_api_key random)).
  { unfold generate_api_key. rewrite hex_encode_length. split; [unfold KEY_BYTES in Hlen; lia|by apply hex_encode_digits]. }
  unfold select_api_key. destruct (atomic_catch _ _ _ _ fs (get_blob_atomic d API_KEY_KV)) as (r & [d1 fs1] & E & Hq1 & Hres).
  unfold mbind at 1, DB_bind at 1. rewrite E. cbn [disk faults] in *.
  assert (Hd1 : d1 = d) by (destruct r as [e|o]; [by destruct Hres|by destruct Hres]). subst d1.
  destruct (match r with inr (Some bs) => from_utf8 bs | _ => None end) as [key|] eqn:Ekey.
  - destruct r as [|[bs|]]; try done. destruct Hres as [Hg _].
    assert (Hk : stored_key d = Some key) by (unfold stored_key; by rewrite <-Hg).
    exists key, (mkWorld d fs1). split; [done|]. split; [done|]. split; [by left|]. intros _. by apply Hnext.
  - destruct (atomic_or_log d _ tt _ _ fs1 (put_blob_atomic d m API_KEY_KV (as_bytes (generate_api_key random)) Hr))
      as ([] & w2 & E2 & _ & Hput). unfold mbind, DB_bind. rewrite E2. eexists _, w2. split; [done|].
    split; [destruct Hput as [[? _]|(_ & -> & _)]; done|]. split.
    + right. split; [done|]. split; [apply Hgen|]. split; [apply Hgen|]. intros Hq.
      destruct r as [e|o]; [by destruct Hres as [_ []]|]. destruct Hres as [-> _]. unfold stored_key.
      by destruct (kv_get API_KEY_KV (kv d)).
    + intros Hq. apply Hnext. destruct Hput as [[_ Hkv]|(_ & _ & Hn)].
      * unfold stored_key. rewrite Hkv, decide_True by done. cbn. by apply generated_roundtrip.
      * destruct Hn. split; [by apply Hq1|]. by intros e [].
Qed.
End key_theorems.

(** ** [run] up to the point where the subsystems are started *)

(** The text forms of a [NetworkId]. *)
Class NetworkText `{KaspaNetwork} : Type := {
  network_from_str : rstr → option NetworkId;
  network_to_string : NetworkId → rstr;
  network_to_prefixed : NetworkId → rstr;
}.

Inductive StartError : Type :=
  | BadArguments (msg : rstr)
  | BadNetwork (id : rstr)
  | Gate (e : GateError)
  | Datadir (msg : rstr)
  | OpenStore (e : StoreError)
  | DnsNames.

Section boot.
Context `{RedbApi} `{!RedbFile} `{Bincode} `{Semver} `{NetworkText} `{DnsName}.

(** What the subsystems are started with. *)
Record Boot : Type := mkBoot {
  boot_scheduler : SchedulerConfig;
  boot_probe : ProbeInitializerConfig;
  boot_validity : ValidityCriteria;
  boot_dns : option (SeederHandler * HandlerState * list SocketAddr);
  boot_web : WebConfig;
}.

(** [service_version] and [service_commit] are the build's. *)
Context (version commit : rstr).

Definition scheduler_config (cli : CliArgs) (dport : Z) : SchedulerConfig :=
  mkSchedulerConfig dport (cli_threads cli) (cli_probe_tick cli) (cli_stale_good cli) (cli_stale_bad cli) (cli_dead_after cli)
    (option_list (cli_seeder cli)) (cli_strict_port cli).

Definition dns_config (cli : CliArgs) (dport : Z) : DnsConfig :=
  let base := dns_config_new dport in
  mkDnsConfig (dns_default_port base) (cli_dns_max_records cli) (queries_per_ip_per_second base) (rate_limit_window base)
    (cli_stale_good cli) (cli_min_protocol_version cli) (cli_min_user_agent cli).

Definition web_config (cli : CliArgs) (dport : Z) (key network path : rstr) : WebConfig :=
  mkWebConfig (cli_http_listen cli) key (cli_allowed_origins cli) (cli_post_rate_limit cli) (cli_rate_limit_window cli) dport
    (cli_strict_port cli) (cli_api_prefix cli) path (cli_stale_good cli) (cli_min_protocol_version cli) (cli_min_user_agent cli)
    (str "simply-kaspa-dnsseeder") version commit network (cli_tls_cert cli) (cli_tls_key cli).

Definition validity_criteria (cli : CliArgs) (dport : Z) : ValidityCriteria :=
  mkValidity (cli_min_protocol_version cli) (cli_min_user_agent cli) (if cli_strict_port cli then Some dport else None).

(** Inside the store's monad: the start-up's errors besides those of the store. *)
Definition Start (A : Type) : Type := World → outcome StartError A * World.
#[global] Instance Start_ret : MRet Start := λ A a w, (Ok a, w).
#[global] Instance Start_bind : MBind Start := λ A B f c w,
  match c w with (Ok a, w') => f a w' | (Err e, w') => (Err e, w') | (Panic, w') => (Panic, w') end.
Definition start_err {A} (e : StartError) : Start A := λ w, (Err e, w).
Definition from_db {A} (c : DB A) : Start A := λ w,
  match c w with (Ok a, w') => (Ok a, w') | (Err e, w') => (Err (OpenStore e), w') | (Panic, w') => (Panic, w') end.

(** [build_serving_cache]'s synchronous refresh and [SeederHandler::with_metrics], when DNS is on. *)
Definition start_dns (sort_freshest : list PeerRecord → list PeerRecord) (cli : CliArgs) (dport now : Z)
    : Start (option (SeederHandler * HandlerState * list SocketAddr)) :=
  match cli_dns_zone cli, cli_dns_nameserver cli with
  | Some zone, Some ns =>
      let cfg := dns_config cli dport in
      cache ← from_db (build_serving_cache sort_freshest cfg now now now);
      match with_metrics cfg zone ns cache dns_metrics_new with
      | Some (h, st) => mret (Some (h, st, cli_dns_listen cli))
      | None => start_err DnsNames
      end
  | _, _ => mret None
  end.

(** [Path::join] on Unix. *)
Definition path_join (a b : rstr) : rstr :=
  if decide (head b = Some 47) then b
  else if decide (a = [] ∨ last a = Some 47) then a ++ b
  else a ++ [47] ++ b.

(** [prepare_datadir]; [mkdir] is what [create_dir_all] answers. *)
Definition prepare_datadir (raw : rstr) (network_id : NetworkId) (mkdir : option rstr) : rstr + rstr :=
  let dir := path_join raw (network_to_string network_id) in
  match mkdir with Some err => inl err | None => inr dir end.

(** What the scheduler, which is running by then, does to the store meanwhile. *)
Definition interlude (f : World → World) : Start unit := λ w, (Ok tt, f w).

(** [run] up to there; [mkdir] is the outcome of making the data directory, [file] the database file in it,
    [now] the wall clock, and [sched1] and [sched2] the scheduler's work before the DNS server and before the web
    server are set up. *)
Definition run_setup (sort_freshest : list PeerRecord → list PeerRecord) (cli : CliArgs) (mkdir : option rstr)
    (file : dbfile) (random : bytes) (now : Z) (sched1 sched2 : World → World) : Start Boot :=
  match cli_validate cli with
  | inl msg => start_err (BadArguments msg)
  | inr _ =>
      match network_from_str (cli_network_id cli) with
      | None => start_err (BadNetwork (cli_network_id cli))
      | Some network_id =>
          match require_seeder_for_unknown_network network_id (cli_seeder cli) with
          | inl e => start_err (Gate e)
          | inr _ =>
              let dport := effective_default_port network_id (cli_seeder cli) in
              match prepare_datadir (cli_datadir cli) network_id mkdir with
              | inl msg => start_err (Datadir msg)
              | inr datadir =>
                  let store_path := path_join datadir (str "peers.redb") in
                  from_db (open true file) ≫= λ _,
                  interlude sched1 ≫= λ _,
                  dns ← start_dns sort_freshest cli dport now;
                  interlude sched2 ≫= λ _,
                  key ← from_db (select_api_key (cli_api_key cli) random);
                  mret (mkBoot (scheduler_config cli dport)
                    (mkInitConfig (network_to_prefixed network_id) (cli_probe_timeout cli) (cli_probes_per_peer cli))
                    (validity_criteria cli dport) dns (web_config cli dport key (network_to_string network_id) store_path))
              end
          end
      end
  end.

(** ** Theorems *)

Lemma start_bind_ok {A B} (c : Start A) (f : A → Start B) w r w' :
  (c ≫= f) w = (Ok r, w') → ∃ a w1, c w = (Ok a, w1) ∧ f a w1 = (Ok r, w').
Proof. unfold mbind, Start_bind. destruct (c w) as [[a|e|] w1]; [|done..]. intros Hf. by exists a, w1. Qed.

Lemma from_db_ok {A} (c : DB A) w a w' : from_db c w = (Ok a, w') → c w = (Ok a, w').
Proof. unfold from_db. destruct (c w) as [[]]; [|done..]. by intros [= -> ->]. Qed.

(** A start that succeeded, step by step. *)
Lemma run_setup_ok sort_freshest cli mkdir file random now sched1 sched2 w boot w' :
  run_setup sort_freshest cli mkdir file random now sched1 sched2 w = (Ok boot, w') →
  ∃ network_id w1 dns w2 key,
    let dport := effective_default_port network_id (cli_seeder cli) in
    let path := path_join (path_join (cli_datadir cli) (network_to_string network_id)) (str "peers.redb") in
    network_from_str (cli_network_id cli) = Some network_id ∧
    require_seeder_for_unknown_network network_id (cli_seeder cli) = inr tt ∧
    open true file w = (Ok tt, w1) ∧ start_dns sort_freshest cli dport now (sched1 w1) = (Ok dns, w2) ∧
    select_api_key (cli_api_key cli) random (sched2 w2) = (Ok key, w') ∧
    boot = mkBoot (scheduler_config cli dport)
      (mkInitConfig (network_to_prefixed network_id) (cli_probe_timeout cli) (cli_probes_per_peer cli))
      (validity_criteria cli dport) dns (web_config cli dport key (network_to_string network_id) path).
Proof.
  unfold run_setup. destruct (cli_validate cli) as [|[]]; [done|]. destruct (network_from_str _) as [id|] eqn:En; [|done].
  destruct (require_seeder_for_unknown_network id (cli_seeder cli)) as [|[]] eqn:Eg; [done|]. unfold prepare_datadir. destruct mkdir; [done|].
  intros Hrun. apply start_bind_ok in Hrun as ([] & w1 & Hopen%from_db_ok & Hrun).
  apply start_bind_ok in Hrun as ([] & w1' & Hi1 & Hrun). injection Hi1 as <-.
  apply start_bind_ok in Hrun as (dns & w2 & Hdns & Hrun). apply start_bind_ok in Hrun as ([] & w2' & Hi2 & Hrun).
  injection Hi2 as <-. apply start_bind_ok in Hrun as (key & w3 & Hkey%from_db_ok & Hrun).
  injection Hrun as <- <-. by exists id, w1, dns, w2, key.
Qed.

(** What the gate lets through: a network that can be bootstrapped, with a port to serve. *)
Lemma gate_passed network_id seeder :
  require_seeder_for_unknown_network network_id seeder = inr tt →
  (∀ raw, seeder = Some raw → is_Some (socket_from_str (trim raw))) ∧
  (if is_supported network_id then effective_default_port network_id seeder = default_p2p_port network_id
   else ∃ raw addr, seeder = Some raw ∧ socket_from_str (trim raw) = Some addr ∧
          effective_default_port network_id seeder = socket_port addr).
Proof.
  unfold require_seeder_for_unknown_network, effective_default_port, validate_seeder_format.
  destruct (is_supported network_id), seeder as [raw|]; try done.
  - destruct (socket_from_str (trim raw)) as [addr|] eqn:E; [|done]. intros _. split; [|done].
    intros ? [= <-]. by rewrite E.
  - destruct (socket_from_str (trim raw)) as [addr|] eqn:E; [|done]. intros _. split; [|by exists raw, addr].
    intros ? [= <-]. by rewrite E.
Qed.

(** An explicit seeder that passed the gate is what bootstrap resolves. *)
Lemma gate_resolves cli dport :
  (∀ raw, cli_seeder cli = Some raw → is_Some (socket_from_str (trim raw))) →
  resolve_explicit_seeders (scheduler_config cli dport) =
    match cli_seeder cli with Some raw => option_list (socket_from_str (trim raw)) | None => [] end.
Proof.
  intros Hs. unfold resolve_explicit_seeders, scheduler_config. cbn [cfg_seeders].
  destruct (cli_seeder cli) as [raw|]; [|done]. cbn. destruct (Hs raw eq_refl) as [addr ->]. done.
Qed.

Lemma start_dns_config sort_freshest cli dport now w h st listen w' :
  start_dns sort_freshest cli dport now w = (Ok (Some (h, st, listen)), w') → h_config h = dns_config cli dport.
Proof.
  unfold start_dns. destruct (cli_dns_zone cli) as [zone|]; [|done]. destruct (cli_dns_nameserver cli) as [ns|]; [|done].
  intros Hd. apply start_bind_ok in Hd as (cache & w1 & _ & Hd). unfold with_metrics in Hd.
  destruct (fqdn zone) as [apex|]; [|done]. cbn [mbind option_bind] in Hd. destruct (fqdn ns); [|done]. cbn [mbind option_bind] in Hd.
  destruct (name_from_str _); [|done]. cbn [mbind option_bind] in Hd. destruct (name_append_domain _ _); [|done].
  cbn [mbind option_bind] in Hd. by injection Hd as <- _ _ _.
Qed.

(** Command lines that are refused. *)
Definition bad_start (cli : CliArgs) : Prop :=
  match cli_validate cli, network_from_str (cli_network_id cli) with
  | inr _, Some network_id => require_seeder_for_unknown_network network_id (cli_seeder cli) ≠ inr tt
  | _, _ => True
  end.

(** C31: start-up hands every subsystem the same network. When it succeeds, the crawler, the web
    API and the DNS server agree on the P2P port, on whether other ports are accepted and on the
    freshness window; the port is the network's own for a network with built-in seeders and the port of [--seeder] for
    any other; the database is the network's own file under the data directory; and there is something to bootstrap from: built-in seeders, or exactly the address
    of [--seeder]. A network without either, a malformed address or half a TLS pair is refused before
    the database is touched. *)
Theorem startup_coherent sort_freshest cli mkdir file random now sched1 sched2 w :
  (∀ boot w', run_setup sort_freshest cli mkdir file random now sched1 sched2 w = (Ok boot, w') →
     ∃ network_id, network_from_str (cli_network_id cli) = Some network_id ∧
       let dport := cfg_default_port (boot_scheduler boot) in
       (if is_supported network_id then dport = default_p2p_port network_id
        else ∃ raw addr, cli_seeder cli = Some raw ∧ socket_from_str (trim raw) = Some addr ∧ dport = socket_port addr) ∧
       network_default_port (boot_web boot) = dport ∧
       web_strict_port (boot_web boot) = cfg_strict_port (boot_scheduler boot) ∧
       web_stale_good (boot_web boot) = cfg_stale_good (boot_scheduler boot) ∧
       db_path (boot_web boot) = path_join (path_join (cli_datadir cli) (network_to_string network_id)) (str "peers.redb") ∧
       (∀ h st listen, boot_dns boot = Some (h, st, listen) →
          dns_default_port (h_config h) = dport ∧ dns_stale_good (h_config h) = cfg_stale_good (boot_scheduler boot)) ∧
       v_strict_default_port (boot_validity boot) = (if cfg_strict_port (boot_scheduler boot) then Some dport else None) ∧
       match cli_seeder cli with
       | Some raw => ∃ addr, socket_from_str (trim raw) = Some addr ∧ resolve_explicit_seeders (boot_scheduler boot) = [addr]
       | None => dns_seeders network_id ≠ []
       end) ∧
  (bad_start cli → ∃ e, run_setup sort_freshest cli mkdir file random now sched1 sched2 w = (Err e, w)).
Proof.
  split.
  - intros boot w' (id & w1 & dns & w2 & key & En & Eg & _ & Hdns & _ & ->)%run_setup_ok. destruct (gate_passed _ _ Eg) as [Hs Hp].
    exists id. split; [done|]. cbn [boot_scheduler boot_web boot_dns boot_validity cfg_default_port scheduler_config].
    split; [exact Hp|]. do 4 (split; [done|]). split; [|split; [done|]].
    + intros h st listen Hd. rewrite Hd in Hdns. by apply start_dns_config in Hdns as ->.
    + pose proof (gate_resolves cli (effective_default_port id (cli_seeder cli)) Hs) as Hres.
      destruct (cli_seeder cli) as [raw|].
      * destruct (Hs raw eq_refl) as [addr Ha]. exists addr. split; [done|]. rewrite Ha in Hres. exact Hres.
      * destruct (is_supported id) eqn:Esup; [|by destruct Hp as (? & ? & ? & _)].
        apply bool_decide_eq_true, list_elem_of_filter in Esup as [? _]. done.
  - unfold bad_start, run_setup. intros Hbad. destruct (cli_validate cli) as [|[]]; [by eexists|].
    destruct (network_from_str _) as [id|]; [|by eexists].
    destruct (require_seeder_for_unknown_network id (cli_seeder cli)) as [|[]]; [by eexists|]. done.
Qed.
End boot.

(** ** Witnesses: mainnet with the DNS server, over the database of [disk0] *)

#[local] Existing Instance network_std.
#[local] Existing Instance file_std.
#[local] Existing Instance name_std.
#[local] Instance network_text_std : NetworkText := {|
  network_from_str := λ s, if decide (s = str "mainnet") then Some true else if decide (s = str "devnet") then Some false else None;
  network_to_string := λ b, if b then str "mainnet" else str "devnet";
  network_to_prefixed := λ b, if b then str "kaspa-mainnet" else str "kaspa-devnet";
|}.

Definition cli0 (network : rstr) (seeder : option rstr) : CliArgs :=
  mkCliArgs network (str "data") (from_secs 60) seeder 8 3 (from_secs 4) (from_secs 5) (from_secs 1800) (from_secs 7200) (from_secs 604800) false
    (Some (str "seed.example")) (Some (str "ns.example")) [] 25 None None [] (str "/api") None [] 5 (from_secs 60) None None.
Definition file0 : @dbfile _ file_std := inl (Some disk0).
Definition random0 : bytes := replicate 32 7.
Definition setup0 (network : rstr) (seeder : option rstr) : Start Boot :=
  run_setup (str "1") (str "0") sort_std (cli0 network seeder) None file0 random0 100 id id.

Lemma startup_coherent_witness :
  (∃ boot w', setup0 (str "mainnet") None (mkWorld disk0 []) = (Ok boot, w') ∧ cfg_default_port (boot_scheduler boot) = 16111) ∧
  ∃ e, setup0 (str "devnet") None (mkWorld disk0 []) = (Err e, mkWorld disk0 []).
Proof.
  split.
  - assert (Hok : match (setup0 (str "mainnet") None (mkWorld disk0 [])).1 with Ok _ => true | _ => false end = true)
      by (vm_compute; reflexivity).
    destruct (startup_coherent (str "1") (str "0") sort_std (cli0 (str "mainnet") None) None file0 random0 100 id id
      (mkWorld disk0 [])) as [Hstart _]. unfold setup0 in *.
    destruct (run_setup _ _ _ _ _ _ _ _ _ _ _) as [[boot|e|] w']; [|discriminate Hok..]. exists boot, w'. split; [reflexivity|].
    destruct (Hstart boot w' eq_refl) as (id & [= <-] & Hp & _). exact Hp.
  - destruct (startup_coherent (str "1") (str "0") sort_std (cli0 (str "devnet") None) None file0 random0 100 id id
      (mkWorld disk0 [])) as [_ Hbad]. apply Hbad. discriminate.
Defined.

Lemma api_key_persists_witness :
  ∃ key w', select_api_key None random0 (mkWorld disk0 []) = (Ok key, w') ∧ stored_key (disk w') = Some key.
Proof.
  destruct (api_key_persists disk0 map0 random0 [] repr_disk0) as (key & w' & Hrun & _ & _ & Hk);
    [by repeat (constructor; [lia|])|reflexivity|]. exists key, w'. split; [exact Hrun|]. apply Hk. constructor.
Defined.
