(* ===== verification/System.v ===== *)
(** * The seeder as a whole

    The subsystems of the process over one store: the crawler's bootstrap, seeder refresh, prune and probe ticks, the workers' probes,
    the HTTP API, the refresh of the DNS serving cache and the DNS handler, interleaved in any order, from the state
    [run] starts them in (src/dnsseeder/src/main.rs). What each does alone is shown in its own file; here is what
    holds of them together. *)

From S2P Require Import Prelude Text Net NetParse Common RateLimit Record Redb RedbInstances PeerStore StoreSpec StoreOps StoreScans.
From S2P Require Import StoreQueries StoreOpen StoreExample StoreClaims Crawler Runner WorkerPool Scheduler ProbeInit ServingCache DnsHandler.
From S2P Require Import Tasks WebBase SysInfo Stats WebPeers WebSystem WebClaims Startup.

(** ** The serving cache *)

Section cache.
Context `{RedbApi} `{!RedbLaws} `{Bincode} `{!BincodeLaws} `{Semver} `{KaspaNet}.
Context (dport : Z) (strict : bool) (sort_freshest : list PeerRecord → list PeerRecord).
Hypothesis sort_perm : ∀ l, sort_freshest l ≡ₚ l.
Hypothesis sort_sorted : ∀ l, StronglySorted fresher (sort_freshest l).

(** A snapshot of addresses the crawler would probe on the network's port. *)
Definition snap_ok (snap : Snapshot) : Prop :=
  ∀ a, a ∈ snap_v4 snap ∨ a ∈ snap_v6 snap → peer_ok dport strict (mkNetAddress a dport).

Lemma picked_ok m config fam cap now ips :
  peers_ok dport strict m → picked m config dport fam cap now ips → ∀ a, a ∈ ips → peer_ok dport strict (mkNetAddress a dport).
Proof. intros Hm [_ Hp]%picked_ips a Ha. destruct (Hp a Ha) as (r & Hr & _). by destruct (Hm _ _ Hr) as [? _]. Qed.

Lemma refresh_task cache config now4 now6 now :
  clock_ok now4 → clock_ok now6 → 0 ≤ max_records config →
  task dport strict (refresh_now sort_freshest cache config dport (snapshot_cap config) now4 now6 now) (λ c, snap_ok (inner c)).
Proof.
  intros Hn4 Hn6 Hmax d fs (m & Hr & Hm).
  destruct (build_snapshot_spec sort_freshest sort_perm sort_sorted d m config dport (snapshot_cap config) now4 now6 fs)
    as (snap & fs' & E & Hp4 & Hp6); [done|by eapply peers_ok_times|done|done|unfold snapshot_cap, SNAPSHOT_MULTIPLIER; int_solve|].
  unfold refresh_now, mbind, DB_bind. rewrite E. split; [|by exists m]. cbn [inner cache_store]. intros a [Ha|Ha].
  - destruct Hp4 as [Hp|[Hp _]]; [by eapply picked_ok|]. rewrite Hp in Ha. by apply not_elem_of_nil in Ha.
  - destruct Hp6 as [Hp|[Hp _]]; [by eapply picked_ok|]. rewrite Hp in Ha. by apply not_elem_of_nil in Ha.
Qed.
End cache.

(** ** The process *)

Section process.
Context `{RedbApi} `{!RedbLaws} `{!RedbFile} `{Bincode} `{!BincodeLaws} `{Semver} `{NetworkText} `{DnsName}.
Context `{Chrono} `{HttpLib} `{KaspaNet} `{WebLibs}.
Context (sort_freshest : list PeerRecord → list PeerRecord) (sample : Z → list IpAddr → list IpAddr).

(** The state: the web system with the store all subsystems share, the addresses handed to the workers so far, the state of
    the DNS handler, and every response it gave. *)
Record Proc : Type := mkProc {
  pr_web : Sys;
  pr_work : list NetAddress;
  pr_dns : HandlerState;
  pr_answers : list Response;
}.

Definition world (p : Proc) : World := sy_world (pr_web p).
Definition with_world (w : World) (s : Sys) : Sys :=
  mkSys w (sy_web s) (sy_now s) (sy_pend s) (sy_trace s) (sy_log s) (sy_count s).
Definition set_world (w : World) (p : Proc) : Proc :=
  mkProc (with_world w (pr_web p)) (pr_work p) (pr_dns p) (pr_answers p).

(** [run] after the setup: the tasks it starts, each for one round. *)
Inductive pstep (boot : Boot) (h : SeederHandler) : Proc → Proc → Prop :=
  | p_web p l sys' :
      wstep (boot_web boot) (Some l) (pr_web p) sys' →
      pstep boot h p (mkProc sys' (pr_work p) (pr_dns p) (pr_answers p))
  | p_time p t :
      sy_now (pr_web p) ≤ t →
      pstep boot h p (mkProc (mkSys (world p) (sy_web (pr_web p)) t (sy_pend (pr_web p)) (sy_trace (pr_web p)) (sy_log (pr_web p))
        (sy_count (pr_web p))) (pr_work p) (pr_dns p) (pr_answers p))
  | p_bootstrap p builtin now k w' :
      clock_ok now → Forall socket_wf builtin → bootstrap (boot_scheduler boot) builtin now (world p) = (Ok k, w') →
      pstep boot h p (set_world w' p)
  | p_refresh_seeders p builtin now k w' :
      clock_ok now → Forall socket_wf builtin → refresh_builtin_seeders (boot_scheduler boot) builtin now (world p) = (Ok k, w') →
      pstep boot h p (set_world w' p)
  | p_prune p now k w' :
      prune_once (boot_scheduler boot) now (world p) = (Ok k, w') → pstep boot h p (set_world w' p)
  | p_tick p n others pool ms now pool' ms' disp w' :
      clock_ok now → (∀ i q, pool_ok n q → pool_ok n (others i q)) → pool_ok n pool →
      enqueue_probes (boot_scheduler boot) others now pool ms (world p) = (Ok (pool', ms', disp), w') →
      pstep boot h p (mkProc (with_world w' (pr_web p)) (disp ++ pr_work p) (pr_dns p) (pr_answers p))
  | p_probe p a outcome now1 now2 ms ms' w' :
      clock_ok now1 → clock_ok now2 → a ∈ pr_work p → outcome_typed outcome →
      probe_one outcome (socket_new (ip a) (port a)) (cfg_default_port (boot_scheduler boot)) (cfg_strict_port (boot_scheduler boot))
        now1 now2 ms (world p) = (Ok ms', w') →
      pstep boot h p (set_world w' p)
  | p_cache p now4 now6 now cache w' :
      clock_ok now4 → clock_ok now6 →
      refresh_now sort_freshest (serving_cache (pr_dns p)) (h_config h) (cfg_default_port (boot_scheduler boot))
        (snapshot_cap (h_config h)) now4 now6 now (world p) = (Ok cache, w') →
      pstep boot h p (mkProc (with_world w' (pr_web p)) (pr_work p)
        (mkHState (rate_limit (pr_dns p)) (metrics (pr_dns p)) cache) (pr_answers p))
  | p_query p unix_secs now req r st' :
      handle_request h sample unix_secs now req (pr_dns p) = Some (r, st') →
      pstep boot h p (mkProc (pr_web p) (pr_work p) st' (option_list r ++ pr_answers p)).

Definition psteps (boot : Boot) (h : SeederHandler) : Proc → Proc → Prop := rtc (pstep boot h).

(** The state [run] starts the subsystems in. *)
Definition proc_init (boot : Boot) (st : HandlerState) (w : World) (t : Instant) : Proc :=
  mkProc (sys_init (boot_web boot) w t) [] st [].

(** ** The invariant *)

Hypothesis sort_perm : ∀ l, sort_freshest l ≡ₚ l.
Hypothesis sort_sorted : ∀ l, StronglySorted fresher (sort_freshest l).
Hypothesis sample_ok : sample_law sample.

(** The subsystems agree on the network. *)
Record coherent (boot : Boot) (h : SeederHandler) : Prop := {
  co_port : network_default_port (boot_web boot) = cfg_default_port (boot_scheduler boot);
  co_strict : web_strict_port (boot_web boot) = cfg_strict_port (boot_scheduler boot);
  co_wf : cfg_wf (boot_scheduler boot);
  co_max : 0 ≤ max_records (h_config h);
}.

(** The addresses of an answer, besides the discard address of an empty AAAA answer. *)
Definition answer_ok (dport : Z) (strict : bool) (resp : Response) : Prop :=
  ∀ rec a, rec ∈ answers resp → record_ip rec = Some a →
    a = V6 MUSL_AAAA_SENTINEL ∨ peer_ok dport strict (mkNetAddress a dport).

Record proc_inv (boot : Boot) (p : Proc) : Prop := {
  pi_store : disk_ok (cfg_default_port (boot_scheduler boot)) (cfg_strict_port (boot_scheduler boot)) (disk (world p));
  pi_web : web_inv (boot_web boot) (pr_web p);
  pi_work : Forall (peer_ok (cfg_default_port (boot_scheduler boot)) (cfg_strict_port (boot_scheduler boot))) (pr_work p);
  pi_snap : snap_ok (cfg_default_port (boot_scheduler boot)) (cfg_strict_port (boot_scheduler boot)) (inner (serving_cache (pr_dns p)));
  pi_answers : Forall (answer_ok (cfg_default_port (boot_scheduler boot)) (cfg_strict_port (boot_scheduler boot))) (pr_answers p);
}.

(** An answer comes from the snapshot. *)
Lemma build_answers_ok h unix_secs snap qtype dport strict rec a :
  0 ≤ max_records (h_config h) → snap_ok dport strict snap →
  rec ∈ build_answers h sample unix_secs snap qtype → record_ip rec = Some a →
  a = V6 MUSL_AAAA_SENTINEL ∨ peer_ok dport strict (mkNetAddress a dport).
Proof.
  intros Hmax Hsnap.
  assert (Hfam : ∀ fam, rec ∈ sample_address_records h sample snap fam → record_ip rec = Some a →
    peer_ok dport strict (mkNetAddress a dport)).
  { intros fam (b & -> & Hb)%list_elem_of_fmap Hip.
    assert (b = a) as -> by (destruct b; cbn in Hip; by injection Hip).
    apply Hsnap. destruct fam; [left|right]; (eapply elem_of_submseteq; [exact Hb|]); by apply sample_ok. }
  unfold build_answers. destruct qtype; [right; by eapply Hfam| | | |by intros ?%not_elem_of_nil].
  - case_decide; [|right; by eapply Hfam]. intros ->%list_elem_of_singleton [= <-]. by left.
  - by intros ->%list_elem_of_singleton.
  - by intros ->%list_elem_of_singleton.
Qed.

Lemma handle_request_ok h unix_secs now req st r st' dport strict :
  handle_request h sample unix_secs now req st = Some (r, st') → 0 ≤ max_records (h_config h) →
  snap_ok dport strict (inner (serving_cache st)) →
  serving_cache st' = serving_cache st ∧ Forall (answer_ok dport strict) (option_list r).
Proof.
  intros Hh Hmax Hsnap. apply handle_request_cases in Hh as [Hc Hr]. split; [done|].
  destruct Hr as [(_ & -> & _)|(q & ok & _ & _ & [(_ & -> & _)|[(_ & -> & _)|(_ & qtype & qname & _ & _ & _ & -> & _)]])]; cbn.
  - constructor; [|done]. by intros rec a ?%not_elem_of_nil.
  - done.
  - constructor; [|done]. by intros rec a ?%not_elem_of_nil.
  - constructor; [|done]. intros rec a. unfold reply_of, build_answer. cbn. by apply build_answers_ok.
Qed.

(** The web system keeps the store. *)
Lemma begin_keeps cfg headers req env st w r st' w' dport strict :
  begin cfg headers req env st w = (Ok (r, st'), w') → clock_ok (env_ms env) →
  disk_ok dport strict (disk w) → disk_ok dport strict (disk w').
Proof.
  unfold begin. intros Hb Hn Hd. destruct (_ && _); [by injection Hb as <- <- <-|].
  destruct req as [| |all|s remote|s all|s]; cbn [handle] in Hb.
  - apply db_bind_ok in Hb as (resp & w1 & Hh & Hb). injection Hb as _ _ <-. by apply health_spec in Hh as [-> _].
  - apply db_bind_ok in Hb as (resp & w1 & Hh & Hb). injection Hb as _ _ <-. by apply get_metrics_spec in Hh as [-> _].
  - unfold mret, DB_ret in Hb. by assert (w' = w) as -> by congruence.
  - unfold lift in Hb. by assert (w' = w) as -> by congruence.
  - apply db_bind_ok in Hb as (resp & w1 & Hh & Hb). injection Hb as _ _ <-. destruct w as [d fs], Hd as (m & Hr & Hm).
    destruct (get_peer_spec cfg d m fs s all env Hr) as (resp' & w2 & E & Hd2 & _); [by eapply peers_ok_times|done|].
    rewrite Hh in E. injection E as _ <-. rewrite Hd2. by exists m.
  - apply db_bind_ok in Hb as (resp & w1 & Hh & Hb). injection Hb as _ _ <-. destruct w as [d fs], Hd as (m & Hr & Hm).
    destruct (delete_peer_spec d m fs s Hr) as (resp' & w2 & m' & E & Hr' & Hcase). rewrite Hh in E. injection E as _ <-.
    exists m'. split; [done|]. destruct (socket_from_str (trim s)) as [addr|]; [|by destruct Hcase as [_ ->]].
    destruct Hcase as [(_ & _ & ->)|[(_ & _ & ->)|(_ & _ & ->)]]; [|done..]. by apply map_Forall_delete.
Qed.

Lemma finish_keeps cfg k env st w resp st' w' dport strict auth req :
  finish cfg k env st w = (Ok (resp, st'), w') → clock_ok (env_ms env) → outcome_typed (env_probe env) → pend_ok cfg (auth, req, k) →
  network_default_port cfg = dport → web_strict_port cfg = strict →
  disk_ok dport strict (disk w) → disk_ok dport strict (disk w').
Proof.
  intros Hf Hn Ho Hk <- <- Hd. destruct k as [key|addr]; [by apply finish_list in Hf as [-> _]|].
  destruct Hk as (_ & _ & Ha). cbn [finish] in Hf. unfold submit_finish in Hf. destruct w as [d fs].
  pose proof (probe_and_store_task _ _ (env_probe env) addr (env_ms env) d fs Hn Ha Ho Hd) as Ht.
  destruct (probe_and_store _ _ _ _) as [[rec|e|] w1]; [| |done]; by injection Hf as _ _ <-.
Qed.

Lemma wstep_keeps cfg l sys sys' dport strict :
  wstep cfg (Some l) sys sys' → web_inv cfg sys → network_default_port cfg = dport → web_strict_port cfg = strict →
  disk_ok dport strict (disk (sy_world sys)) → disk_ok dport strict (disk (sy_world sys')).
Proof.
  intros Hs Hi Hp Hst Hd. inversion Hs as [? headers req env resp st' w' Ht Hb|? headers req env k st' w' Ht Hb
    |? auth req k p1 p2 env resp st' w' Hpe Ht Hf| |]; subst; cbn [sy_world].
  - destruct Ht as (_ & Hn & Ho). by eapply begin_keeps.
  - destruct Ht as (_ & Hn & Ho). by eapply begin_keeps.
  - destruct Ht as (_ & Hn & Ho). pose proof (wi_pend _ _ Hi) as Hpk. rewrite Hpe, Forall_app, Forall_cons in Hpk.
    destruct Hpk as (_ & Hk & _). by eapply finish_keeps.
Qed.

(** A task other than the web's is one the web system allows for. *)
Lemma web_inv_world cfg sys w : web_inv cfg sys → web_inv cfg (with_world w sys).
Proof. apply (web_inv_step cfg None). apply wstep_other. Qed.

Lemma proc_inv_world boot p w :
  proc_inv boot p → disk_ok (cfg_default_port (boot_scheduler boot)) (cfg_strict_port (boot_scheduler boot)) (disk w) →
  proc_inv boot (set_world w p).
Proof. intros [? ? ? ? ?] Hd. split; [done|by apply web_inv_world|done..]. Qed.

Lemma proc_inv_step boot h p p' : coherent boot h → pstep boot h p p' → proc_inv boot p → proc_inv boot p'.
Proof.
  intros Hco Hs Hi. pose proof Hi as [Hd Hw Hk Hsn Ha]. destruct Hs as [p l sys' Hs|p t Ht|p builtin now k w' Hn Hb E
    |p builtin now k w' Hn Hb E|p now k w' E|p n others pool ms now pool' ms' disp w' Hn Ho Hp E
    |p a outcome now1 now2 ms ms' w' Hn1 Hn2 Hin Ho E|p now4 now6 now cache w' Hn4 Hn6 E|p unix_secs now req r st' E].
  - split; cbn; [|by eapply web_inv_step|done..]. eapply wstep_keeps; [exact Hs|exact Hw|apply Hco|apply Hco|exact Hd].
  - split; cbn; [done| |done..]. eapply (web_inv_step _ None); [|exact Hw]. by apply wstep_tick.
  - apply proc_inv_world; [done|]. eapply task_run; [|exact Hd|exact E]. by apply bootstrap_task.
  - apply proc_inv_world; [done|]. eapply task_run; [|exact Hd|exact E]. by apply bootstrap_stubs_task.
  - apply proc_inv_world; [done|]. eapply task_run; [|exact Hd|exact E]. apply prune_task.
  - destruct (task_run _ _ _ _ _ _ _ (enqueue_probes_task _ _ n (boot_scheduler boot) others now pool ms eq_refl eq_refl (co_wf _ _ Hco) Hn Ho Hp) Hd E)
      as [Hdisp Hd']. split; cbn; [done|by apply web_inv_world| |done..]. apply Forall_app. split; [by apply Forall_forall|done].
  - apply proc_inv_world; [done|]. eapply task_run; [|exact Hd|exact E]. apply probe_one_task; [apply (co_wf _ _ Hco)|done|done| |done].
    rewrite Forall_forall in Hk. pose proof (Hk a Hin) as [[Hacc Hcan] Hawf]. rewrite net_from_new, Hcan. by destruct a.
  - destruct (task_run _ _ _ _ _ _ _ (refresh_task (cfg_default_port (boot_scheduler boot)) (cfg_strict_port (boot_scheduler boot))
      sort_freshest sort_perm sort_sorted (serving_cache (pr_dns p)) (h_config h) now4 now6 now Hn4 Hn6 (co_max _ _ Hco)) Hd E) as [Hsn' Hd'].
    split; cbn; [done|by apply web_inv_world|done..].
  - destruct (handle_request_ok _ _ _ _ _ _ _ _ _ E (co_max _ _ Hco) Hsn) as [Hc Hr].
    split; cbn; [done|done|done|by rewrite Hc|]. by apply Forall_app.
Qed.

Lemma proc_inv_steps boot h p p' : coherent boot h → psteps boot h p p' → proc_inv boot p → proc_inv boot p'.
Proof. intros Hco Hs. induction Hs as [|x y z Hxy _ IH]; [done|]. intros Hx. apply IH. by eapply proc_inv_step. Qed.

(** Every run of the process is a run of the web system in which the other subsystems are the other tasks. *)
Lemma psteps_web boot h p p' : psteps boot h p p' → wsteps (boot_web boot) (pr_web p) (pr_web p').
Proof.
  intros Hs. induction Hs as [|x y z Hxy _ IH]; [apply rtc_refl|]. etrans; [|exact IH]. clear IH.
  destruct Hxy as [p l sys' Hs| | | | | | | |]; try (apply rtc_once; exists None; by constructor).
  - apply rtc_once. by exists (Some l).
  - apply rtc_refl.
Qed.

(** ** From the start *)

Section started.
Context (version commit : rstr) (cli : CliArgs) (mkdir : option rstr) (file : dbfile) (random : bytes) (now : Z).
Context (sched1 sched2 : World → World).
Context (boot : Boot) (h : SeederHandler) (st : HandlerState) (listen : list SocketAddr) (d d0 : Disk) (fs : list (option rstr)) (w : World).
Hypothesis setup : run_setup version commit sort_freshest cli mkdir file random now sched1 sched2 (mkWorld d fs) = (Ok boot, w).
Hypothesis dns_on : boot_dns boot = Some (h, st, listen).
Hypothesis file_opened : opened file = Some d0.
Hypothesis file_keyed : keyed d0.
Hypothesis now_ok : clock_ok now.
Hypothesis max_ok : 0 ≤ cli_dns_max_records cli.
Hypothesis windows_ok : cfg_wf (boot_scheduler boot).
Hypothesis peers_before : peers_ok (cfg_default_port (boot_scheduler boot)) (cfg_strict_port (boot_scheduler boot)) (load d0).
Hypothesis sched_ok : ∀ w, disk_ok (cfg_default_port (boot_scheduler boot)) (cfg_strict_port (boot_scheduler boot)) (disk w) →
  disk_ok (cfg_default_port (boot_scheduler boot)) (cfg_strict_port (boot_scheduler boot)) (disk (sched1 w)) ∧
  disk_ok (cfg_default_port (boot_scheduler boot)) (cfg_strict_port (boot_scheduler boot)) (disk (sched2 w)).

Lemma started_inv t : coherent boot h ∧ proc_inv boot (proc_init boot st w t).
Proof.
  pose proof setup as Hs. apply run_setup_ok in Hs as (id & w1 & dns & w2 & key & _ & _ & Hopen & Hdns & Hkey & Hboot).
  pose proof (open_guarded d true file d0 file_opened file_keyed fs) as Hg. rewrite Hopen in Hg. destruct Hg as [[Hr _] _].
  assert (Hh : h_config h = dns_config cli (cfg_default_port (boot_scheduler boot)) ∧
    dns = Some (h, st, listen) ∧ cfg_default_port (boot_scheduler boot) = effective_default_port id (cli_seeder cli) ∧
    network_default_port (boot_web boot) = cfg_default_port (boot_scheduler boot) ∧
    web_strict_port (boot_web boot) = cfg_strict_port (boot_scheduler boot)).
  { rewrite Hboot in dns_on |- *. cbn in dns_on |- *. subst dns. split; [by eapply start_dns_config|done]. }
  destruct Hh as (Hcfg & -> & Hdp & Hport & Hstrict). rewrite <-Hdp in Hdns.
  split; [split; [done|done|done|by rewrite Hcfg]|].
  set (dport := cfg_default_port (boot_scheduler boot)) in *. set (strict := cfg_strict_port (boot_scheduler boot)) in *.
  unfold start_dns in Hdns. destruct (cli_dns_zone cli) as [zone|]; [|done]. destruct (cli_dns_nameserver cli) as [ns|]; [|done].
  apply start_bind_ok in Hdns as (cache & w3 & Hrefresh%from_db_ok & Hdns).
  destruct (sched_ok w1 (ex_intro _ _ (conj Hr peers_before))) as [Hd1 _].
  destruct (task_run _ _ _ _ (sched1 w1) _ _ (refresh_task dport strict sort_freshest sort_perm sort_sorted cache_new (dns_config cli dport) now now now
    now_ok now_ok max_ok) Hd1 Hrefresh) as [Hsn Hd3].
  destruct (with_metrics _ zone ns cache dns_metrics_new) as [[h' st']|] eqn:Ewm; [|done]. injection Hdns as -> -> _ <-.
  destruct (sched_ok w3 Hd3) as [_ (m & Hr3 & Hm)]. destruct (sched2 w3) as [d3 fs3]. cbn [disk] in Hr3. destruct (select_api_key_repr (cli_api_key cli) random d3 m fs3 Hr3) as (key' & w4 & Hkey' & Hr4).
  rewrite Hkey in Hkey'. injection Hkey' as _ <-.
  split; cbn; [by exists m|apply web_inv_init|done| |done].
  unfold with_metrics in Ewm. destruct (fqdn zone); [|done]. cbn [mbind option_bind] in Ewm. destruct (fqdn ns); [|done].
  cbn [mbind option_bind] in Ewm. destruct (name_from_str _); [|done]. cbn [mbind option_bind] in Ewm.
  destruct (name_append_domain _ _); [|done]. cbn [mbind option_bind] in Ewm. by injection Ewm as <- <-.
Qed.
End started.

(** C2: the seeder only ever hands out addresses it would itself connect to. From a start with DNS enabled, on a database file
    whose readable rows are such peers (a new file has none), and however the crawler, the workers, the HTTP clients, the
    cache refreshes and the DNS queries interleave, whatever peers, clients and resolvers send and whichever storage calls
    fail (during the set-up, when the scheduler is already running, as later): the store represents a map of peers with acceptable, canonical addresses, every address handed to
    the workers is such an address, and so, on the network's port, is every address in any DNS answer ever given, the discard
    address of an empty AAAA answer apart. The run is also one of the web system, so what WebSystem.v
    and WebClaims.v show of it holds here. *)
Theorem seeder_safe version commit cli mkdir file random now sched1 sched2 boot h st listen d d0 fs w t p :
  run_setup version commit sort_freshest cli mkdir file random now sched1 sched2 (mkWorld d fs) = (Ok boot, w) →
  boot_dns boot = Some (h, st, listen) →
  opened file = Some d0 → keyed d0 → clock_ok now → 0 ≤ cli_dns_max_records cli → cfg_wf (boot_scheduler boot) →
  let dport := cfg_default_port (boot_scheduler boot) in
  let strict := cfg_strict_port (boot_scheduler boot) in
  peers_ok dport strict (load d0) →
  (∀ w, disk_ok dport strict (disk w) → disk_ok dport strict (disk (sched1 w)) ∧ disk_ok dport strict (disk (sched2 w))) →
  psteps boot h (proc_init boot st w t) p →
  (∃ m, repr (disk (world p)) m ∧ store_ok dport strict m) ∧
  (∀ a, a ∈ pr_work p → addr_ok dport strict a) ∧
  (∀ resp rec a, resp ∈ pr_answers p → rec ∈ answers resp → record_ip rec = Some a →
     a = V6 MUSL_AAAA_SENTINEL ∨ addr_ok dport strict (mkNetAddress a dport)) ∧
  wsteps (boot_web boot) (sys_init (boot_web boot) w t) (pr_web p).
Proof.
  intros Hs Hdns Ho Hk Hn Hmax Hwf dport strict Hload Hsched Hsteps.
  destruct (started_inv version commit cli mkdir file random now sched1 sched2 boot h st listen d d0 fs w Hs Hdns Ho Hk Hn Hmax Hwf Hload Hsched t) as [Hco Hi].
  pose proof (proc_inv_steps _ _ _ _ Hco Hsteps Hi) as [(m & Hr & Hm) Hweb Hwork Hsn Hans].
  rewrite Forall_forall in Hwork. rewrite Forall_forall in Hans. split_and!.
  - exists m. split; [exact Hr|]. intros a r Ha. by destruct (Hm a r Ha) as [[? _] _].
  - intros a Ha. by destruct (Hwork a Ha).
  - intros resp rec a Hresp Hin Hip. destruct (Hans resp Hresp rec a Hin Hip) as [?|[? _]]; auto.
  - by apply (psteps_web _ _ _ _ Hsteps).
Qed.


End process.

(** ** From a probe to an answer *)

Section served.
Context `{RedbApi} `{!RedbLaws} `{Bincode} `{!BincodeLaws} `{Semver} `{KaspaNet} `{DnsName}.
Context (sort_freshest : list PeerRecord → list PeerRecord) (sample : Z → list IpAddr → list IpAddr).
Hypothesis sort_perm : ∀ l, sort_freshest l ≡ₚ l.
Hypothesis sort_sorted : ∀ l, StronglySorted fresher (sort_freshest l).
Hypothesis sample_ok : sample_law sample.

Definition family_of (a : IpAddr) : Family := match a with V4 _ => FamV4 | V6 _ => FamV6 end.
Definition query_type (a : IpAddr) : RecordType := match a with V4 _ => TypeA | V6 _ => TypeAAAA end.
Definition pool_of (snap : Snapshot) (a : IpAddr) : list IpAddr := match a with V4 _ => snap_v4 snap | V6 _ => snap_v6 snap end.

Lemma picked_contains m config dport fam cap now ips r :
  picked m config dport fam cap now ips → m !! address r = Some r → servable config dport fam now r →
  ip (address r) ∈ ips ∨ Z.of_nat (length ips) = cap.
Proof.
  intros (recs & -> & _ & _ & _ & _ & Hall) Hm Hs. destruct (Hall r (conj Hm Hs)) as [Hin|[Hlen _]].
  - left. by apply (list_elem_of_fmap_2 (λ p, ip (address p))).
  - right. by rewrite length_fmap.
Qed.

Lemma sample_contains n pool a :
  0 ≤ n → a ∈ pool → a ∈ sample n pool ∨ Z.of_nat (length (sample n pool)) = n.
Proof.
  intros Hn Ha. destruct (sample_ok n pool Hn) as [Hsub Hlen].
  destruct (decide (Z.of_nat (length pool) ≤ n)) as [Hle|Hgt]; [left|right; lia].
  assert (sample n pool ≡ₚ pool) as Hp; [|by rewrite Hp]. apply submseteq_length_Permutation; [done|lia].
Qed.

(** An answer holds the address, unless it is full. *)
Lemma answers_contain h unix_secs snap a :
  0 < max_records (h_config h) → a ∈ pool_of snap a ∨ max_records (h_config h) ≤ Z.of_nat (length (pool_of snap a)) →
  let ans := build_answers h sample unix_secs snap (query_type a) in
  (∃ rec, rec ∈ ans ∧ record_ip rec = Some a) ∨ Z.of_nat (length ans) = max_records (h_config h).
Proof.
  intros Hmax Hpool ans. set (n := max_records (h_config h)) in *.
  assert (Hs : a ∈ sample n (pool_of snap a) ∨ Z.of_nat (length (sample n (pool_of snap a))) = n).
  { destruct Hpool as [Ha|Hlen]; [apply sample_contains; [lia|done]|right].
    destruct (sample_ok n (pool_of snap a)) as [_ ->]; lia. }
  assert (Hans : ans = (λ a, match a with V4 b => address_record h (RA b) | V6 b => address_record h (RAAAA b) end)
    <$> sample n (pool_of snap a)).
  { unfold ans, build_answers. destruct a as [b|b]; cbn [query_type]; [done|]. rewrite decide_False; [done|].
    unfold sample_address_records. rewrite length_fmap. fold n. change (snap_v6 snap) with (pool_of snap (V6 b)).
    destruct Hs as [Ha|Hl]; [|lia]. by destruct (sample n _); [apply not_elem_of_nil in Ha|]. }
  rewrite Hans, length_fmap. destruct Hs as [Ha|?]; [left|by right].
  exists (match a with V4 b => address_record h (RA b) | V6 b => address_record h (RAAAA b) end).
  split; [|by destruct a]. apply list_elem_of_fmap. by exists a.
Qed.

(** The record of a peer that just answered, whatever it advertised. *)
Lemma probed_record m addr result dport strict now1 now2 :
  let m2 := (spec_seen_batch now2 (accepted_addresses (addresses result) dport strict)
    (<[net_from addr := spec_apply addr (version result) now1 m]> m)).2 in
  ∃ r, m2 !! net_from addr = Some r ∧ address r = net_from addr ∧ last_success_ms r = now1 ∧
    ∀ f, passes_validity f r = passes_validity f (peer_record_from_version addr (version result) now1 None).
Proof.
  cbv zeta. unfold spec_seen_batch. rewrite spec_seen_fold_lookup, lookup_insert_eq.
  case_decide; eexists; (split; [reflexivity|]); done.
Qed.

(** C11: a peer that answers a probe gets into the DNS. When storage works: after a worker's probe of an address on the network's port
    succeeded and the peer passes the version filters, the next refresh of the serving cache inside the freshness window publishes it,
    and every answer to an admitted query for its family contains its address, unless the answer
    already has [max_records] addresses. *)
Theorem probed_peer_is_answered h strict d m fs a result now1 now2 now4 now6 now ms rl rl' dms unix_secs t req st0 :
  let dport := dns_default_port (h_config h) in
  let sock := socket_new (ip a) (port a) in
  repr d m → times_ok m → reliable fs → addr_ok dport strict a → port a = dport →
  clock_ok now1 → clock_ok now2 → clock_ok now4 → clock_ok now6 → 0 < max_records (h_config h) ≤ USIZE_MAX →
  (∀ n, n ∈ [now4; now6] → n - now1 ≤ duration_to_ms (dns_stale_good (h_config h))) →
  (∀ n, passes_validity (serving_filter (h_config h) dport (family_of (ip a)) n) (peer_record_from_version sock (version result) now1 None) = true) →
  well_formed req = Some (CLASS_IN, query_type (ip a), apex h) → name_eqb (apex h) (apex h) = true →
  check rl (socket_ip (src req)) t = Some (true, rl') →
  ∃ w1 cache w2 resp st',
    probe_one (inr result) sock dport strict now1 now2 ms (mkWorld d fs) = (Ok (record_ok <$> ms), w1) ∧
    refresh_now sort_freshest st0 (h_config h) dport (snapshot_cap (h_config h)) now4 now6 now w1 = (Ok cache, w2) ∧
    handle_request h sample unix_secs t req (mkHState rl dms cache) = Some (Some resp, st') ∧
    ((∃ rec, rec ∈ answers resp ∧ record_ip rec = Some (ip a)) ∨ Z.of_nat (length (answers resp)) = max_records (h_config h)).
Proof.
  intros dport sock Hr Hm Hrel Ha Hport Hn1 Hn2 Hn4 Hn6 Hmax Hfresh Hval Hreq Hname Hck.
  assert (Hnet : net_from sock = a) by (unfold sock; rewrite net_from_new; destruct Ha as [_ ->]; by destruct a).
  destruct (probe_one_success d m sock result dport strict now1 now2 ms fs Hr) as (w1 & m1 & m2 & Hrun & Hr2 & Hq & Hm1 & Hm2).
  destruct Hm1 as [->|[_ ?]]; [|done]. destruct Hm2 as [Hm2|[_ ?]]; [|done].
  destruct (probed_record m sock result dport strict now1 now2) as (r & Hlk & Hadr & Hsucc & Hpv). cbv zeta in Hlk. rewrite <-Hm2 in Hlk.
  assert (Hok2 : times_ok m2) by (rewrite Hm2; apply times_ok_seen; [done|by apply map_Forall_insert_2]).
  destruct w1 as [d1 fs1]. cbn [disk faults] in *.
  assert (Hcap : max_records (h_config h) ≤ snapshot_cap (h_config h)) by (unfold snapshot_cap, SNAPSHOT_MULTIPLIER; int_solve).
  destruct (build_snapshot_spec sort_freshest sort_perm sort_sorted d1 m2 (h_config h) dport (snapshot_cap (h_config h)) now4 now6 fs1)
    as (snap & fs2 & E & Hp4 & Hp6); [done|done|done|done|lia|].
  assert (Hrel1 : reliable fs1) by (destruct Hrel; split; auto).
  destruct Hp4 as [Hp4|[_ ?]]; [|done]. destruct Hp6 as [Hp6|[_ ?]]; [|done].
  assert (Hsv : ∀ n, n ∈ [now4; now6] → servable (h_config h) dport (family_of (ip a)) n r).
  { intros n Hn. unfold servable. rewrite Hsucc, Hadr, Hnet, Hpv. split; [by apply Hfresh|]. split; [by destruct (ip a)|]. done. }
  assert (Hpool : ip a ∈ pool_of snap (ip a) ∨ max_records (h_config h) ≤ Z.of_nat (length (pool_of snap (ip a)))).
  { assert (Hlk' : m2 !! address r = Some r) by (by rewrite Hadr). assert (Hip : ip (address r) = ip a) by (by rewrite Hadr, Hnet).
    destruct (ip a) as [b|b] eqn:Eip; cbn [pool_of family_of] in *; rewrite <-Hip.
    - destruct (picked_contains _ _ _ _ _ _ _ r Hp4 Hlk') as [?|?]; [apply Hsv; left|by left|right; lia].
    - destruct (picked_contains _ _ _ _ _ _ _ r Hp6 Hlk') as [?|?]; [apply Hsv; right; left|by left|right; lia]. }
  eexists _, (mkCache snap now), _, (reply_of h sample unix_secs snap (query_type (ip a))), _. split; [exact Hrun|].
  split; [unfold refresh_now, mbind, DB_bind; rewrite E; reflexivity|]. split.
  - unfold handle_request. rewrite parse_basic_eq, Hreq. cbn [rate_limit metrics]. rewrite Hck. cbn [mbind option_bind negb].
    unfold classify. rewrite decide_False by (by intros []). assert (is_allowed_type (query_type (ip a)) = true) as -> by (by destruct (ip a)).
    rewrite Hname. reflexivity.
  - unfold reply_of, build_answer. cbn [answers]. apply answers_contain; [lia|exact Hpool].
Qed.
End served.

(** ** Witnesses: the start of Startup.v on the database that holds [rec0], then a DNS query *)

Lemma repr_keyed `{RedbApi} `{Bincode} d m : repr d m → keyed d.
Proof. intros Hr k v r Hv Hd. destruct (repr_row _ _ Hr _ _ Hv) as (r' & Hk & Hd' & _). congruence. Qed.
Lemma load_of_repr `{RedbApi} `{!RedbLaws} `{Bincode} `{!BincodeLaws} d m : repr d m → load d = m.
Proof.
  intros Hr. apply map_eq. intros a. apply option_eq. intros r. rewrite (load_Some _ _ _ (repr_keyed _ _ Hr)). split.
  - intros (<- & k & v & Hv & Hd). destruct (repr_row _ _ Hr _ _ Hv) as (r' & _ & Hd' & Hm). congruence.
  - intros Hm. destruct (repr_map _ _ Hr _ _ Hm) as (Ha & k & v & _ & Hv & Hd). eauto 10.
Qed.

#[local] Existing Instance network_std.
#[local] Existing Instance file_std.
#[local] Existing Instance name_std.
#[local] Existing Instance network_text_std.

Lemma peers_ok_load0 : peers_ok 16111 false (load disk0).
Proof. rewrite (load_of_repr _ _ repr_disk0). apply peers_ok_map0. Qed.

(** What the start leaves behind. *)
Definition start0 : outcome StartError Boot * World := setup0 (str "mainnet") None (mkWorld disk0 []).
Lemma start0_ok : ∃ boot h st listen w, start0 = (Ok boot, w) ∧ boot_dns boot = Some (h, st, listen) ∧
  cfg_default_port (boot_scheduler boot) = 16111 ∧ cfg_strict_port (boot_scheduler boot) = false ∧ cfg_wf (boot_scheduler boot).
Proof.
  assert (Hok : match start0.1 with Ok b => match boot_dns b with Some _ => true | None => false end | _ => false end = true)
    by (vm_compute; reflexivity).
  destruct start0 as [[boot|e|] w] eqn:Es; [|discriminate Hok..]. cbn [fst] in Hok.
  destruct (boot_dns boot) as [[[h st] listen]|] eqn:Hd; [|discriminate Hok]. exists boot, h, st, listen, w. do 2 (split; [done|]).
  unfold start0, setup0 in Es. apply run_setup_ok in Es as (id & w1 & dns & w2 & key & [= <-] & _ & _ & _ & _ & ->).
  split; [reflexivity|]. split; [reflexivity|]. vm_compute. intuition discriminate.
Qed.

Lemma clock_100 : clock_ok 100.
Proof. by vm_compute. Qed.
Lemma max_cli0 : 0 ≤ cli_dns_max_records (cli0 (str "mainnet") None).
Proof. by vm_compute. Qed.
Lemma opened_file0 : opened file0 = Some disk0.
Proof. reflexivity. Qed.

Lemma seeder_safe_witness :
  ∃ boot h st listen w p, start0 = (Ok boot, w) ∧ boot_dns boot = Some (h, st, listen) ∧
    psteps sort_std sample_std boot h (proc_init boot st w 0) p ∧
    ∃ m, repr (disk (world p)) m ∧ store_ok 16111 false m.
Proof.
  destruct start0_ok as (boot & h & st & listen & w & Hs & Hd & Hp & Hst & Hwf).
  assert (Hrun := Hs). unfold start0, setup0 in Hrun.
  pose proof (seeder_safe sort_std sample_std (λ l, sort_by_key_perm _ l) sort_std_sorted sample_std_law (str "1") (str "0")
    (cli0 (str "mainnet") None) None file0 random0 100 id id boot h st listen disk0 disk0 [] w 0 (proc_init boot st w 0) Hrun Hd opened_file0
    (repr_keyed _ _ repr_disk0) clock_100 max_cli0 Hwf) as Hsafe. cbv zeta in Hsafe. rewrite Hp, Hst in Hsafe.
  destruct (Hsafe peers_ok_load0 (λ w Hw, conj Hw Hw) (rtc_refl _ _)) as (Hm & _). exists boot, h, st, listen, w, (proc_init boot st w 0).
  split; [exact Hs|]. split; [exact Hd|]. split; [apply rtc_refl|exact Hm].
Defined.



(** The peer of [rec0] answers a probe and is served. *)
Lemma probed_peer_is_answered_witness :
  ∃ w1 cache w2 resp st',
    probe_one (inr result0) sock0 16111 false 200 201 None (mkWorld disk0 []) = (Ok None, w1) ∧
    refresh_now sort_std cache_new dns_config0 16111 100 300 300 300 w1 = (Ok cache, w2) ∧
    handle_request handler0 sample_std 1000 0 query0 (mkHState (RateLimit.new 1 (from_secs 5)) dns_metrics_new cache) = Some (Some resp, st') ∧
    ((∃ rec, rec ∈ answers resp ∧ record_ip rec = Some (ip addr0)) ∨ Z.of_nat (length (answers resp)) = 10).
Proof.
  destruct (check (RateLimit.new 1 (from_secs 5)) (V4 16843009) 0) as [[ok rl']|] eqn:Ec; [|discriminate Ec].
  assert (ok = true) as -> by (injection Ec as <- _; reflexivity).
  apply (probed_peer_is_answered sort_std sample_std (λ l, sort_by_key_perm _ l) sort_std_sorted sample_std_law handler0 false disk0 map0 []
    addr0 result0 200 201 300 300 300 None (RateLimit.new 1 (from_secs 5)) rl' dns_metrics_new 1000 0 query0 cache_new
    repr_disk0 times_ok_map0 reliable_nil);
    [by vm_compute|reflexivity|by vm_compute..| |by vm_compute|reflexivity|reflexivity|exact Ec].
  intros n [->|[->|?%not_elem_of_nil]%elem_of_cons]%elem_of_cons; [by vm_compute..|done].
Defined.
