(* ===== verification/StoreTests.v ===== *)
(** * The unit tests of the store (src/store/src/peer_store_tests.rs, filter_tests.rs, src/dns/src/serving_cache.rs)

    The crate's own tests, run on the definitions of Record.v, PeerStore.v and ServingCache.v over the database of
    RedbInstances.v: the model passes what the code passes. Of filter_tests.rs the test on pre-release suffixes is left out,
    since the version numbers of RedbInstances.v have none. *)

From S2P Require Import Prelude Text Net Common Record Redb RedbInstances PeerStore StoreExample StoreClaims ServingCache.

#[local] Existing Instance file_std.

(** A test on a new store: it passes when no call fails and every assertion holds. *)
Definition test (body : DB (list bool)) : bool :=
  match (open true no_file ≫= λ _, body) (mkWorld empty_disk []) with
  | (Ok asserts, _) => forallb id asserts
  | _ => false
  end.

Definition v4_new (a b c d : Z) : IpAddr := V4 (((a * 256 + b) * 256 + c) * 256 + d).
Definition at_v4 (a b c d : Z) : NetAddress := mkNetAddress (v4_new a b c d) 16111.
Definition kaspad_1_0_0 : rstr := str "/kaspad:1.0.0/".
Definition make_rec (id_byte : Z) (addr : NetAddress) (seen : Z) : PeerRecord :=
  mkPeerRecord addr (replicate 16 id_byte) 7 kaspad_1_0_0 None seen seen seen seen seen.
Definition with_success (t : Z) (r : PeerRecord) : PeerRecord :=
  mkPeerRecord (address r) (rec_id r) (protocol_version r) (user_agent r) (subnetwork_id r) (timestamp_ms r)
    (first_seen_ms r) (last_seen_ms r) (last_attempt_ms r) t.
Definition with_agent (ua : rstr) (r : PeerRecord) : PeerRecord :=
  mkPeerRecord (address r) (rec_id r) (protocol_version r) ua (subnetwork_id r) (timestamp_ms r)
    (first_seen_ms r) (last_seen_ms r) (last_attempt_ms r) (last_success_ms r).
Definition attempted (attempt success : Z) (r : PeerRecord) : PeerRecord := with_success success (set_last_attempt attempt r).
Definition upsert_all (rs : list PeerRecord) : DB unit := foldr (λ r rest, upsert r ≫= λ _, rest) (mret tt) rs.

(** [store.get(a).unwrap().unwrap()], with one assertion on the record. *)
Definition got (a : NetAddress) (P : PeerRecord → bool) : DB bool := r ← get a; mret (from_option P false r).
Definition present (a : NetAddress) : DB bool := r ← get a; mret (bool_decide (is_Some r)).
Definition refuted (c : DB bool) : DB bool := b ← c; mret (negb b).
Definition len_is (n : Z) : DB bool := l ← len; mret (bool_decide (l = n)).
Definition returns `{EqDecision A} (c : DB A) (a : A) : DB bool := x ← c; mret (bool_decide (x = a)).
Definition due_is (now good bad dead max : Z) (P : list PeerRecord → bool) : DB bool :=
  out ← due_for_probe now good bad dead max; mret (P out).

(** The assertions of a test, in order. *)
Fixpoint asserting (cs : list (DB bool)) : DB (list bool) :=
  match cs with [] => mret [] | c :: cs' => b ← c; bs ← asserting cs'; mret (b :: bs) end.

(** ** The tests of peer_store_tests.rs *)

Definition upsert_and_get_roundtrip : bool := test (
  let r := make_rec 1 (at_v4 1 2 3 4) 100 in
  upsert_all [r] ≫= λ _, asserting [got (address r) (λ x, bool_decide (x = r))]).

Definition upsert_overwrites_id_for_same_address : bool := test (
  let a := at_v4 1 1 1 1 in
  upsert_all [make_rec 2 a 100; make_rec 3 a 200] ≫= λ _, asserting
    [got a (λ x, bool_decide (rec_id x = replicate 16 3)); got a (λ x, bool_decide (last_seen_ms x = 200)); len_is 1]).

Definition upsert_distinguishes_by_address : bool := test (
  let a := at_v4 1 1 1 1 in let b := mkNetAddress (v4_new 2 2 2 2) 16112 in
  upsert_all [make_rec 2 a 100; make_rec 2 b 200] ≫= λ _, asserting
    [len_is 2; got a (λ x, bool_decide (last_seen_ms x = 100)); got b (λ x, bool_decide (last_seen_ms x = 200))]).

Definition delete_removes_only_one : bool := test (
  let a := at_v4 1 1 1 1 in let b := at_v4 2 2 2 2 in
  upsert_all [make_rec 1 a 100; make_rec 2 b 100] ≫= λ _, asserting
    [delete a; refuted (present a); present b; len_is 1]).

Definition prune_dead_removes_old_seen : bool := test (
  let a := at_v4 1 1 1 1 in let b := at_v4 2 2 2 2 in
  upsert_all [make_rec 1 a 100; make_rec 2 b 500] ≫= λ _, asserting
    [returns (prune_dead 200) 1; refuted (present a); present b]).

Definition prune_dead_keeps_recent_never_seen : bool := test (
  let a := at_v4 10 0 0 1 in
  record_attempt a 1000 ≫= λ _, asserting [returns (prune_dead 500) 0; present a]).

Definition prune_dead_removes_old_never_seen : bool := test (
  let a := at_v4 10 0 0 2 in
  record_attempt a 100 ≫= λ _, asserting [returns (prune_dead 500) 1; refuted (present a)]).

Definition record_attempt_creates_stub : bool := test (
  let a := at_v4 10 0 0 1 in
  rec ← record_attempt a 1234;
  mret [bool_decide (rec_id rec = UNKNOWN_PEER_ID); bool_decide (address rec = a); bool_decide (first_seen_ms rec = 1234);
        bool_decide (last_attempt_ms rec = 1234); bool_decide (last_success_ms rec = 0); bool_decide (last_seen_ms rec = 0)]).

Definition record_attempt_preserves_existing_success_fields : bool := test (
  let r := make_rec 1 (at_v4 1 2 3 4) 100 in
  upsert_all [r] ≫= λ _,
  rec ← record_attempt (address r) 999;
  mret [bool_decide (rec_id rec = replicate 16 1); bool_decide (first_seen_ms rec = 100); bool_decide (last_success_ms rec = 100);
        bool_decide (last_seen_ms rec = 100); bool_decide (last_attempt_ms rec = 999)]).

Definition insert_or_refresh_seen_creates_then_bumps_last_seen : bool := test (
  let a := at_v4 10 0 0 3 in
  let stub seen r := bool_decide (rec_id r = UNKNOWN_PEER_ID) && bool_decide (first_seen_ms r = 100) &&
    bool_decide (last_seen_ms r = seen) && bool_decide (last_attempt_ms r = 0) && bool_decide (last_success_ms r = 0) in
  asserting [insert_or_refresh_seen a 100; got a (stub 100); refuted (insert_or_refresh_seen a 999); got a (stub 999)]).

Definition insert_or_refresh_seen_bumps_only_last_seen_on_existing_record : bool := test (
  let r := make_rec 1 (at_v4 7 7 7 7) 100 in
  upsert_all [r] ≫= λ _, asserting
    [refuted (insert_or_refresh_seen (address r) 999); got (address r) (λ x, bool_decide (x = set_last_seen 999 r))]).

Definition insert_or_refresh_seen_batch_mixes_new_and_existing : bool := test (
  let existing := make_rec 1 (at_v4 9 9 9 9) 100 in let fresh := at_v4 9 9 9 10 in
  upsert_all [existing] ≫= λ _, asserting
    [returns (insert_or_refresh_seen_batch [address existing; fresh] 600) 1;
     got (address existing) (λ x, bool_decide (x = set_last_seen 600 existing));
     got fresh (λ x, bool_decide (rec_id x = UNKNOWN_PEER_ID) && bool_decide (first_seen_ms x = 600) &&
       bool_decide (last_success_ms x = 0))]).

Definition insert_or_refresh_seen_batch_counts_a_repeated_address_once : bool := test (
  let a := at_v4 9 9 9 11 in asserting [returns (insert_or_refresh_seen_batch [a; a] 100) 1; len_is 1]).

Definition insert_or_refresh_seen_batch_accepts_an_empty_slice : bool := test (
  asserting [returns (insert_or_refresh_seen_batch [] 100) 0; len_is 0]).

Definition insert_or_refresh_seen_rescues_never_answered_record_from_prune : bool := test (
  let a := at_v4 8 8 8 8 in asserting
    [insert_or_refresh_seen a 100; refuted (insert_or_refresh_seen a 600); returns (prune_dead 500) 0; present a]).

Definition insert_or_refresh_seen_does_not_rescue_record_that_stopped_answering : bool := test (
  let r := make_rec 1 (at_v4 8 8 8 8) 100 in
  upsert_all [r] ≫= λ _, asserting
    [refuted (insert_or_refresh_seen (address r) 600); returns (prune_dead 500) 1; refuted (present (address r))]).

Definition collect_matching_applies_filter : bool := test (
  upsert_all [make_rec 1 (at_v4 1 1 1 1) 100; make_rec 2 (at_v4 2 2 2 2) 500] ≫= λ _,
  recs ← collect_matching (mkFilter 600 200 None None None None None);
  mret [bool_decide (rec_id <$> recs = [replicate 16 2])]).

Definition is_empty_initially : bool := test (
  asserting [is_empty; upsert (make_rec 1 (at_v4 1 1 1 1) 100) ≫= λ _, refuted (is_empty)]).

Definition summary_v4_v6_counts_only_good_subset : bool := test (
  upsert_all [make_rec 1 (at_v4 1 1 1 1) 500; make_rec 2 (at_v4 2 2 2 2) 500; make_rec 3 (at_v4 3 3 3 3) 50;
    with_success 0 (make_rec 4 (at_v4 4 4 4 4) 500);
    make_rec 5 (mkNetAddress (V6 (8193 * 2 ^ 112 + 3512 * 2 ^ 96 + 1)) 16111) 500] ≫= λ _,
  s ← summary 600 200 None;
  mret [bool_decide (total s = 5); bool_decide (good s = 3); bool_decide (filtered s = 0); bool_decide (v4 s = 2);
        bool_decide (v6 s = 1); bool_decide (stale s = 1); bool_decide (failed s = 1); bool_decide (stub s = 0)]).

Definition summary_splits_good_into_valid_and_filtered_with_min_user_agent : bool := test (
  upsert_all [with_agent (str "/kaspad:1.2.3/") (make_rec 1 (at_v4 10 0 0 1) 500); make_rec 2 (at_v4 10 0 0 2) 500;
    attempted 0 0 (make_rec 3 (at_v4 10 0 0 3) 500)] ≫= λ _,
  s ← summary 600 200 (Some (serving 600 200 None (version_parse (str "1.2.0")) None None));
  mret [bool_decide (good s = 1); bool_decide (filtered s = 1); bool_decide (v4 s = 2); bool_decide (stub s = 1);
        bool_decide (failed s = 0)]).

Definition due_for_probe_returns_oldest_first_and_respects_max : bool := test (
  upsert_all ((λ '(i, t), attempted t t (make_rec i (at_v4 10 0 0 i) 1000)) <$> [(1, 50); (2, 10); (3, 100); (4, 30); (5, 70)]) ≫= λ _,
  asserting [due_is 10000 100 1000 0 3 (λ out, bool_decide (last_attempt_ms <$> out = [10; 30; 50]))]).

Definition due_for_probe_stops_at_threshold : bool := test (
  upsert_all [attempted 0 0 (make_rec 1 (at_v4 1 1 1 1) 1000); attempted 990 990 (make_rec 2 (at_v4 2 2 2 2) 1000)] ≫= λ _,
  asserting [due_is 1000 100 500 0 10 (λ out, bool_decide (address <$> out = [at_v4 1 1 1 1]))]).

Definition due_for_probe_filters_bad_class_within_stale_bad_window : bool := test (
  upsert_all [attempted 800 0 (make_rec 1 (at_v4 1 1 1 1) 1000)] ≫= λ _,
  asserting [due_is 1000 100 500 0 10 (λ out, bool_decide (out = []))]).

Definition good_class_eligible_at_80_percent_of_stale_good : bool := test (
  upsert_all [attempted 0 1 (make_rec 1 (at_v4 1 1 1 1) 0)] ≫= λ _, asserting
    [due_is 79 100 500 0 10 (λ out, bool_decide (out = [])); due_is 80 100 500 0 10 (λ out, bool_decide (length out = 1%nat))]).

Definition record_attempt_updates_index_position : bool := test (
  let a := at_v4 1 1 1 1 in
  record_attempt a 0 ≫= λ _,
  rec ← get a;
  from_option (λ r, upsert (with_success 0 r)) (mret tt) rec ≫= λ _, asserting
    [due_is 10000 100 500 0 10 (λ out, bool_decide (length out = 1%nat));
     record_attempt a 9950 ≫= λ _, due_is 10000 100 500 0 10 (λ out, bool_decide (out = []))]).

Definition delete_removes_attempt_index_entry : bool := test (
  let a := at_v4 1 2 3 4 in
  insert_or_refresh_seen a 0 ≫= λ _, asserting
    [due_is 10000 100 500 0 10 (λ out, bool_decide (length out = 1%nat)); delete a;
     due_is 10000 100 500 0 10 (λ out, bool_decide (out = []))]).

Definition is_eligible_tests : list bool :=
  let rec_of attempt success first seen :=
    mkPeerRecord (at_v4 8 8 8 8) UNKNOWN_PEER_ID 0 [] None 0 first seen attempt success in
  let now := 10000000 in let good := 900000 in let bad := 7200000 in
  let eligible b r cutoff := bool_decide (is_eligible_for_probe r now good bad cutoff = Some b) in
  [eligible false (rec_of (now - 100000) (now - 200000) (now - 1000000) (now - 100000)) 0;
   eligible true (rec_of (now - good - 1) (now - 2000000) (now - 10000000) (now - good - 1)) 0;
   eligible false (rec_of (now - 1800000) 0 (now - 2000000) 0) 0;
   eligible true (rec_of (now - bad - 1) 0 (now - bad - 1) 0) 0;
   eligible true (rec_of 0 0 (now - 60000) (now - 60000)) 0;
   eligible false (rec_of (now - bad - 1) 0 100 100) 1000;
   eligible false (rec_of (now - good) 100 100 now) 1000].

(** ** The tests of filter_tests.rs *)

Definition version_tests : list bool :=
  let triple v := (major v, minor v, patch v) in
  let parses ua v := bool_decide (triple <$> parse_kaspad_version ua = Some v) in
  let rejects ua := bool_decide (triple <$> parse_kaspad_version ua = None) in
  [parses (str "/kaspad:1.1.0/kaspad:1.1.0(FluxCloud)/") (1, 1, 0); parses (str "/kaspad:0.12.17(MyNode)/") (0, 12, 17);
   rejects (str "/foo/bar/"); rejects (str "kaspad:1.0.0/"); rejects (str "other/kaspad:1.0.0/");
   rejects (str "/notkaspad:1.0.0/"); rejects []].

Definition filter_tests : list bool :=
  let rec_of now ua port ipv6 pv :=
    mkPeerRecord (mkNetAddress (if ipv6 : bool then V6 1 else v4_new 127 0 0 1) port) (replicate 16 1) pv ua None now now now now now in
  let now := 1000000 in let long := 1000000000 in
  let r := rec_of now kaspad_1_0_0 16111 false 7 in
  let r11 := rec_of now (str "/kaspad:1.1.0/") 16111 false 7 in
  let r_v6 := rec_of now kaspad_1_0_0 16111 true 7 in
  let accepts b f r := bool_decide (matches f r = Some b) in
  [accepts false (mkFilter now 100 None None None None None) (rec_of 0 kaspad_1_0_0 16111 false 7);
   accepts false (mkFilter now 604800000 (Some 500) (Some FamV4) None None (Some 16111)) (with_success (now - 1000) r);
   accepts true (mkFilter now 604800000 None None None None None) (with_success (now - 1000) r);
   accepts true (mkFilter now long None (Some FamV4) None None None) r;
   accepts false (mkFilter now long None (Some FamV4) None None None) r_v6;
   accepts true (mkFilter now long None (Some FamV6) None None None) r_v6;
   accepts false (mkFilter now long None (Some FamV6) None None None) r;
   accepts false (mkFilter now long None None (Some 8) None None) r;
   accepts true (mkFilter now long None None (Some 7) None None) r;
   accepts false (mkFilter now long None None None (version_parse (str "1.2.0")) None) r11;
   accepts true (mkFilter now long None None None (version_parse (str "1.0.0")) None) r11;
   accepts false (mkFilter now long None None None None (Some 16111)) (rec_of now kaspad_1_0_0 16112 false 7)].

(** ** The tests of serving_cache.rs *)

Definition served_rec (id : Z) (a : IpAddr) (success port : Z) : PeerRecord :=
  mkPeerRecord (mkNetAddress a port) (id :: replicate 15 0) 7 kaspad_1_0_0 None success success success success success.
Definition cache_cfg : DnsConfig := dns_config_new 16111.
(** The tests read the clock; here it shows some moment. *)
Definition base : Z := 1700000000000.

Definition empty_store_yields_empty_snapshot : bool := test (
  snap ← build_snapshot sort_std cache_cfg 16111 (10 * SNAPSHOT_MULTIPLIER) base base;
  mret [bool_decide (snap_v4 snap = []); bool_decide (snap_v6 snap = [])]).

Definition splits_by_family_and_keeps_top_n_by_freshness : bool := test (
  upsert_all ((λ '(i, off), served_rec i (v4_new 10 0 0 i) (base - off) 16111) <$> [(1, 5000); (2, 1000); (3, 4000); (4, 2000); (5, 3000)]) ≫= λ _,
  upsert (served_rec 99 (V6 1) (base - 1000) 16111) ≫= λ _,
  snap ← build_snapshot sort_std cache_cfg 16111 3 base base;
  mret [bool_decide (snap_v4 snap = v4_new 10 0 0 <$> [2; 4; 5]); bool_decide (length (snap_v6 snap) = 1%nat)]).

Definition drops_peers_on_wrong_port : bool := test (
  upsert_all [served_rec 1 (v4_new 1 1 1 1) (base - 1000) 16111; served_rec 2 (v4_new 2 2 2 2) (base - 1000) 16112] ≫= λ _,
  snap ← build_snapshot sort_std cache_cfg 16111 10 base base;
  mret [bool_decide (length (snap_v4 snap) = 1%nat)]).

(** ** All of them pass *)

Definition store_tests : list bool :=
  [upsert_and_get_roundtrip; upsert_overwrites_id_for_same_address; upsert_distinguishes_by_address; delete_removes_only_one;
   prune_dead_removes_old_seen; prune_dead_keeps_recent_never_seen; prune_dead_removes_old_never_seen;
   record_attempt_creates_stub; record_attempt_preserves_existing_success_fields;
   insert_or_refresh_seen_creates_then_bumps_last_seen; insert_or_refresh_seen_bumps_only_last_seen_on_existing_record;
   insert_or_refresh_seen_batch_mixes_new_and_existing; insert_or_refresh_seen_batch_counts_a_repeated_address_once;
   insert_or_refresh_seen_batch_accepts_an_empty_slice; insert_or_refresh_seen_rescues_never_answered_record_from_prune;
   insert_or_refresh_seen_does_not_rescue_record_that_stopped_answering; collect_matching_applies_filter; is_empty_initially;
   summary_v4_v6_counts_only_good_subset; summary_splits_good_into_valid_and_filtered_with_min_user_agent;
   due_for_probe_returns_oldest_first_and_respects_max; due_for_probe_stops_at_threshold;
   due_for_probe_filters_bad_class_within_stale_bad_window; good_class_eligible_at_80_percent_of_stale_good;
   record_attempt_updates_index_position; delete_removes_attempt_index_entry].
Definition cache_tests : list bool :=
  [empty_store_yields_empty_snapshot; splits_by_family_and_keeps_top_n_by_freshness; drops_peers_on_wrong_port].

Theorem store_tests_pass : Forall (eq true) (store_tests ++ is_eligible_tests ++ version_tests ++ filter_tests ++ cache_tests).
Proof. by vm_compute; repeat constructor. Qed.
