(* ===== verification/SeederTests.v ===== *)
(** * Unit tests of the other crates (src/common/tests/rate_limit.rs, src/crawler/src/model_tests.rs, src/crawler/src/probe/runner_tests.rs,
    src/dns/src/handler_tests.rs, src/dnsseeder/src/network_gate_tests.rs)

    As in StoreTests.v: the crates' own tests, run on the definitions. Left out are the tests of what is a parameter here: which
    addresses are publicly routable beyond the first octet, that the sample is random, the size of an encoded response and the text of messages. *)

From S2P Require Import Prelude Text Net NetParse Common RateLimit Record Redb RedbInstances PeerStore StoreExample StoreClaims StoreTests Crawler Runner.
From S2P Require Import Scheduler ServingCache DnsHandler Sockets DnsServer Startup.

#[local] Existing Instance file_std.
#[local] Existing Instance network_std.
#[local] Existing Instance name_std.

(** ** The limiter *)

(** The calls of a test, each with its moment, and what they must return. *)
Definition limits (rl : RateLimiter) (calls : list (Instant * IpAddr * bool)) : bool :=
  match RateLimit.run rl (fst <$> calls) with Some (oks, _) => bool_decide (oks = snd <$> calls) | None => false end.

Definition limiter_tests : list bool :=
  let localhost := v4_new 127 0 0 1 in
  [limits (RateLimit.new 0 (from_secs 1)) (replicate 1000 (0, localhost, true));
   limits (RateLimit.new 2 (from_secs 60)) [(0, localhost, true); (1, localhost, true); (2, localhost, false)];
   limits (RateLimit.new 1 (from_millis 50)) [(0, localhost, true); (1, localhost, false); (from_millis 80, localhost, true)];
   limits (RateLimit.new 1 (from_secs 60)) [(0, v4_new 1 1 1 1, true); (1, v4_new 2 2 2 2, true); (2, v4_new 1 1 1 1, false)]].

(** ** The probe model *)

Definition model_version : VersionMessage :=
  mkVersion 7 0 1700000000000 (str "abcdefghijklmnop") (str "/kaspad:1.2.3/") true (Some (replicate 20 0)) (str "kaspa-mainnet").
Definition model_tests : list bool :=
  let addr := socket_new (v4_new 10 0 0 1) 16111 in
  let first := peer_record_from_version addr model_version 5000000 None in
  let later := peer_record_from_version addr model_version 5000100 (Some first) in
  [bool_decide (peer_id_from_bytes [1; 2; 3] = [1; 2; 3] ++ replicate 13 0);
   bool_decide (peer_id_from_bytes (replicate 32 42) = replicate 16 42);
   bool_decide (canonicalize_ip (V6 (65535 * 2 ^ 32 + 16909060)) = v4_new 1 2 3 4);
   bool_decide ((first_seen_ms first, last_attempt_ms first, last_success_ms first, last_seen_ms first) = (5000000, 5000000, 5000000, 5000000));
   bool_decide (address first = at_v4 10 0 0 1); bool_decide (user_agent first = str "/kaspad:1.2.3/");
   bool_decide (protocol_version first = 7); bool_decide (subnetwork_id first = Some (replicate 20 0));
   bool_decide (first_seen_ms later = 5000000); bool_decide (last_success_ms later = 5000100)].

Definition acceptable_tests : list bool :=
  let net a port := mkNetAddress a port in
  let accepts b addr strict := bool_decide (is_acceptable_address addr 16111 strict = b) in
  let public := v4_new 8 8 8 8 in
  [accepts true (net public 16111) false; accepts true (net (V6 (8193 * 2 ^ 112 + 34952)) 16111) false; accepts false (net public 0) false;
   accepts false (net public 32768) false; accepts false (net public 65535) false; accepts true (net public 16110) false;
   accepts true (net public 1234) false; accepts false (net public 16110) true; accepts false (net public 1234) true;
   accepts true (net public 16111) true; accepts false (net (v4_new 0 0 0 0) 16111) false; accepts false (net (V6 0) 16111) false;
   accepts false (net (v4_new 127 0 0 1) 16111) false; accepts false (net (V6 1) 16111) false;
   accepts false (net (v4_new 10 0 0 1) 16111) false; accepts false (net (v4_new 224 0 0 1) 16111) false;
   accepts false (net (V6 (65282 * 2 ^ 112 + 1)) 16111) false].

(** ** The probe runner *)

Definition runner_version : VersionMessage :=
  mkVersion 7 0 1 (replicate 16 66) kaspad_1_0_0 true None (str "kaspa-mainnet").
Definition probe_source : SocketAddr := socket_new (v4_new 9 9 9 9) 16111.
(** [probe_one] with a probe that answers with these addresses. *)
Definition fanout (addrs : list (IpAddr * Z)) : DB unit :=
  probe_one (inr (mkProbeResult runner_version addrs)) probe_source 16111 false 1000 1000 None ≫= λ _, mret tt.
Definition stored (a : IpAddr) (port : Z) : DB bool := present (mkNetAddress a port).

Definition runner_tests : list bool :=
  let google := v4_new 8 8 8 8 in
  [test (fanout [(google, 16111); (v4_new 1 1 1 1, 16222)] ≫= λ _, asserting [stored google 16111; stored (v4_new 1 1 1 1) 16222]);
   test (fanout [(v4_new 8 8 4 4, 0)] ≫= λ _, asserting [stored (v4_new 8 8 4 4) 16111]);
   test (fanout [(v4_new 10 0 0 1, 16111); (v4_new 127 0 0 1, 16111); (v4_new 224 0 0 1, 16111); (google, 16111)] ≫= λ _, asserting
     [refuted (stored (v4_new 10 0 0 1) 16111); refuted (stored (v4_new 127 0 0 1) 16111); refuted (stored (v4_new 224 0 0 1) 16111);
      stored google 16111]);
   test (fanout [(google, 16111); (google, 16111); (google, 16111)] ≫= λ _, asserting
     [got (at_v4 8 8 8 8) (λ r, bool_decide (last_attempt_ms r = 0) && bool_decide (last_success_ms r = 0))]);
   test (record_attempt (at_v4 8 8 8 8) 500 ≫= λ pre, fanout [(google, 16111)] ≫= λ _, asserting
     [got (at_v4 8 8 8 8) (λ post, bool_decide (last_seen_ms pre < last_seen_ms post) && bool_decide (post = set_last_seen (last_seen_ms post) pre))]);
   test (fanout [(ip_address_from (V6 (65535 * 2 ^ 32 + 134744072)), 16111)] ≫= λ _, asserting [stored google 16111]);
   test (λ w,
     match probe_and_store (inl (Crawler.Connection (str "simulated failure"))) (socket_new google 16111) 1000 w with
     | (Err _, w') => asserting [got (at_v4 8 8 8 8) (λ r, bool_decide (0 < last_attempt_ms r) && bool_decide (last_success_ms r = 0))] w'
     | (_, w') => (Ok [false], w')
     end)].

(** ** The DNS handler *)

Definition apex_fqdn : rstr := str "seeder.example.test.".
(** The tests' configuration: no rate limit unless a test sets one. *)
Definition handler_cfg (max qps : Z) (window : Duration) : DnsConfig :=
  mkDnsConfig 16111 max qps window (from_mins 15) None None.
Definition plain_cfg : DnsConfig := handler_cfg 1024 0 (from_secs 5).
Definition peer_now (id : Z) (a : IpAddr) : PeerRecord := served_rec id a base 16111.
Definition asking (op : OpCode) (class : Z) (ty : RecordType) (name : rstr) : Request :=
  mkRequest MQuery op (Some (class, ty, name)) (SockV4 2130706433 40000).
Definition ask (ty : RecordType) : Request := asking OpQuery CLASS_IN ty apex_fqdn.

(** A server started on a store with these records, the requests it is sent, and an assertion on the responses. *)
Definition serving_test (config : DnsConfig) (recs : list PeerRecord) (reqs : list Request) (P : list (option Response) → bool) : bool := test (
  upsert_all recs ≫= λ _,
  cache ← build_serving_cache sort_std config base base base;
  mret [match with_metrics config (str "seeder.example.test") (str "ns.example.test") cache dns_metrics_new with
        | Some (h, st) =>
            match handle_all h sample_std 1000 ((λ r, (0, r)) <$> reqs) st with Some (rs, _) => P rs | None => false end
        | None => false
        end]).
Definition datas (r : Response) : list (option IpAddr) :=
  (λ x, match rdata x with RA b => Some (V4 b) | RAAAA b => Some (V6 b) | _ => None end) <$> answers r.
(** Every request was answered, with addresses of which [P] holds; every request was refused. *)
Definition answered_with (P : list (option IpAddr) → bool) : list (option Response) → bool :=
  forallb (λ o, match o with Some r => match code r with NoError => P (datas r) | _ => false end | None => false end).
Definition all_refused : list (option Response) → bool :=
  forallb (λ o, match o with Some r => match code r with Refused => bool_decide (datas r = []) | _ => false end | None => false end).

Definition handler_tests : list bool :=
  let one := v4_new 1 2 3 4 in let two := v4_new 5 6 7 8 in
  let ten n := (λ i, peer_now i (v4_new 10 0 0 i)) <$> seqZ 0 n in
  let stale := mkPeerRecord (at_v4 8 8 8 8) (replicate 16 1) 7 kaspad_1_0_0 None base base base base (base - 960000) in
  let nothing := answered_with (λ l, bool_decide (l = [])) in
  [serving_test plain_cfg [peer_now 1 one; peer_now 2 two] [ask TypeA]
     (answered_with (λ l, bool_decide (Some one ∈ l) && bool_decide (Some two ∈ l)));
   serving_test plain_cfg [peer_now 1 one] [ask TypeAAAA] (answered_with (λ l, bool_decide (l = [Some (V6 (256 * 2 ^ 112))])));
   serving_test plain_cfg [] [asking OpQuery CLASS_IN TypeA (str "other.example.test.")] all_refused;
   serving_test plain_cfg [stale] [ask TypeA] nothing;
   serving_test plain_cfg [with_success 0 (peer_now 2 (v4_new 1 1 1 1))] [ask TypeA] nothing;
   serving_test plain_cfg [served_rec 1 (v4_new 9 9 9 9) base 1234] [ask TypeA] nothing;
   serving_test plain_cfg (ten 10) [ask (TypeOther 255)] all_refused;
   serving_test plain_cfg [] ((λ ty, ask (TypeOther ty)) <$> [252; 16; 15; 5; 12]) all_refused;
   serving_test plain_cfg [] ((λ class, asking OpQuery class TypeA apex_fqdn) <$> [3; 4; 255; 254]) all_refused;
   serving_test plain_cfg [] [asking (OpOther 5) CLASS_IN TypeA apex_fqdn] all_refused;
   serving_test (handler_cfg 16 0 (from_secs 5)) (ten 100) (replicate 5 (ask TypeA)) (answered_with (λ l, bool_decide (length l ≤ 16)%nat));
   serving_test (handler_cfg 1024 1 (from_mins 1)) [peer_now 1 one] [ask TypeA; ask TypeA]
     (λ rs, match rs with [Some r; None] => match code r with NoError => true | _ => false end | _ => false end)].

(** ** The network gate *)

Definition gate_tests : list bool :=
  let mainnet := true in let unknown := false in
  let passes n seeder := match require_seeder_for_unknown_network n seeder with inr _ => true | inl _ => false end in
  let wants_ip_port n seeder := match require_seeder_for_unknown_network n (Some seeder) with inl (SeederFormat _) => true | _ => false end in
  [passes mainnet None; negb (passes unknown None); passes unknown (Some (str "1.2.3.4:16311"));
   wants_ip_port unknown (str "seed.example.org:16211"); wants_ip_port mainnet (str "seed.example.org:16111");
   bool_decide (effective_default_port mainnet None = 16111); bool_decide (effective_default_port mainnet (Some (str "1.2.3.4:9999")) = 16111);
   bool_decide (effective_default_port unknown (Some (str "86.48.24.208:16211")) = 16211);
   bool_decide (effective_default_port unknown (Some (str "[2001:db8::1]:16211")) = 16211)].

(** ** All of them pass *)

Theorem seeder_tests_pass :
  Forall (eq true) (limiter_tests ++ model_tests ++ acceptable_tests ++ runner_tests ++ handler_tests ++ gate_tests).
Proof. by vm_compute; repeat constructor. Qed.
